(* ===== verification/_CoqProject ===== *)
-Q . S2P
Prelude.v
Monitor.v
Core.v
Process.v
BlockAlloc.v
SimpleFs.v
FsStore.v
FsPath.v
FsInvariant.v
FsOps.v
FsProps.v
Arch.v
Cpu.v
Paging.v
Mmu.v
MmuInvariant.v
MmuProps.v
VirtualMem.v
Policies.v
Scheduler.v
SchedInvariant.v
SchedProps.v
SchedSteps.v
SchedRun.v
IScheduler.v
SchedSpec.v
SchedTheorems.v
SchedRefine.v
SchedConcurrent.v
Sync.v
SyncProps.v
SyncTheorems.v
SemProps.v
SemTheorems.v
SyncClient.v
Deadlock.v
DeadlockProps.v
DeadlockTheorems.v
Banker.v
BankerProps.v
Ipc.v
IpcProps.v
IpcTheorems.v
MonitorClients.v
Interp.v
InterpTheorems.v
Preemption.v
Dispatcher.v
DispatcherProps.v
Machine.v
DispatcherTheorems.v
DispatcherFrame.v
Isolation.v
Fair.v
FairTheorems.v
Runtime.v
PoolProps.v
Lanes.v
RuntimeTheorems.v
Kernel.v
KernelProps.v
KernelTheorems.v
KernelView.v
Builder.v
Devices.v
DevicesTheorems.v
DeviceLocks.v
DeviceHistory.v
DeviceSafe.v
DeviceTheorems.v
Tui.v
TuiTheorems.v
TuiSafe.v
Screen.v
App.v
AppTheorems.v
Demo.v
DemoTheorems.v
Tracing.v
TracingTheorems.v
