(* ===== verification/Prelude.v ===== *)
(** * Contur 2: an operating-system simulator, verified

    The program (sources under [src/src]) simulates a small operating system:
    processes are guest programs for a 32-bit instruction set; a kernel creates
    them, schedules them on one or more lanes, runs them in bursts on an
    interpreter, gives them slots of paged virtual memory, a file system,
    synchronisation primitives and channels, and shows all of it in a terminal
    interface.  This library models the program's own code and proves what each
    part promises.  File names below are relative to [src/src/contur] or
    [src/src/include/contur].

    ** Parts, and how they interact

    - Core: sentinels, error codes, [Result], the simulation clock, the observer
      list ([core/]).  Process: states, priorities and the control block with
      its time accounting ([process/]).
    - Arch, Cpu: instructions, register file, physical memory behind the
      interface [IMemory], ALU and fetch-execute cycle ([arch/], [cpu/],
      [memory/physical_memory.cpp]).
    - Paging, Mmu, VirtualMem: page tables, the four replacement policies behind
      [IPageReplacementPolicy], the MMU over any memory and any policy, slots
      over any MMU that keeps its contract ([memory/]).  MmuInvariant and
      MmuProps hold the invariant and the refinement.
    - Policies, Scheduler, SchedInvariant, SchedProps, SchedSteps, SchedRun,
      SchedTheorems: the seven policies behind [ISchedulingPolicy], and the
      scheduler's queues of references to control blocks ([scheduling/]).
      IScheduler is its interface; SchedSpec states the interface's contract on
      process identifiers, SchedRefine proves that [Scheduler] implements it,
      SchedConcurrent that it does so between host threads.
    - Monitor: objects whose methods hold one host mutex, once for all of them:
      calls by any number of threads, in any interleaving of their steps, have a
      sequential order.  [Scheduler], [Mmu], [Semaphore], [Mutex], [Pipe] and
      [MessageQueue] are its instances; MonitorClients has those of the MMU and
      of the channels.
    - Interp, InterpTheorems: process images and one burst of the interpreter
      ([process/process_image.cpp], [execution/]); Preemption: a process across
      several bursts.
    - Dispatcher, DispatcherProps, DispatcherTheorems: the process table and the
      calls that move a process through scheduler, engine and virtual memory;
      Machine joins the last two on one physical memory, as the program does
      ([dispatch/dispatcher.cpp]).  DispatcherFrame, Fair, FairTheorems: what a
      run leaves alone, and how long a ready process waits under round robin.
      Isolation: what the rest of the system can do to a process.
    - Runtime, PoolProps, Lanes, RuntimeTheorems: the composite dispatcher, the
      serial runtime and the pool of worker threads ([dispatch/]).
    - Kernel, KernelProps, KernelTheorems, KernelView, Builder: the facade, its
      builder, the system call table, and the snapshot it publishes ([kernel/],
      [syscall/]).
    - Sync, SyncProps, SyncTheorems, SemProps, SemTheorems, SyncClient: mutex,
      semaphore and critical section with priority inheritance; Deadlock,
      DeadlockProps, DeadlockTheorems, Banker, BankerProps: the deadlock detector
      and the banker's check ([sync/]).
    - Ipc, IpcProps, IpcTheorems: pipes, shared memory, message
      queues and their manager ([ipc/]).
    - BlockAlloc, SimpleFs, FsStore, FsPath, FsInvariant, FsOps, FsProps: the
      file system ([fs/]).
    - Devices, DevicesTheorems: console, network card and registry ([io/]);
      DeviceLocks, DeviceHistory, DeviceSafe, DeviceTheorems: the registry's two
      levels of mutexes, with shared devices and concurrent calls.
    - Tui, TuiTheorems, TuiSafe: history, controller and read model behind the
      user interface; Screen and App, AppTheorems: the documents it draws and
      the interactive application ([tui/], [kernel/kernel_diagnostics.cpp]);
      Demo, DemoTheorems: [app/main.cpp].
    - Tracing, TracingTheorems: events, sinks, tracers and scopes ([tracing/]).

    The components meet at type classes named after the program's interfaces
    ([IMemory], [IPageReplacementPolicy], [ISchedulingPolicy], [IVirtualMemory],
    [IExecutionEngine], [IScheduler], [IDispatcher], [ISyncPrimitive], [IIpcChannel],
    [IDevice], [ITuiKernel], [ITuiController], [ITracer], ...).  Where a client's
    theorem needs more than the operations, a class of laws states it
    ([LawfulMemory], [LawfulPolicy], [LawfulMMU], [LawfulSchedulingPolicy],
    [LawfulMachine], [LawfulDispatcher], [LawfulSync], [LawfulTuiKernel]) and
    the implementation's file discharges it.

    ** Conventions

    Each operation is a function from the state and the arguments to a result
    and a new state, in the order of the source's reads, writes and early
    returns.  [Result] is the program's own error type.  An [option] around it is
    undefined behaviour of the program: a dangling reference, an index out of
    range, a signed overflow, an exception that nothing catches.  Integers are
    [Z] wrapped to their width ([u8] to [u64], [i32]) or [nat] where the source
    counts with [std::size_t] and no operation can wrap.  Objects that are
    shared by reference live in a heap with addresses (control blocks), and a
    reference is an address.  Hash containers are finite maps; where the code
    iterates over one, the order is the parameter [HashOrder].  [double] is
    binary64 of the Standard Library; a cast that the language leaves undefined
    is the parameter [FloatCast].  When a hash table rehashes is the library's
    choice too, and matters where the code keeps an iterator over an insertion:
    the parameter [NodeTable].

    Fuel appears where the source loops without a structural bound, and is
    proved enough: the depth-first searches take the number of nodes, the
    banker's sweeps the number of processes, [allocatePid] its own bound
    [MAX_PROCESSES], [advanceAutoplay] the quotient of the accumulated time by
    the interval, a burst its tick budget, the clock policy's scan one turn of
    the frames.  A job of the pool is a sequence of steps of its threads; none is longer
    than three steps per thread and lane, and it can stop only when the job is
    done.

    ** What the theorems show

    - Refinement: the scheduler is the contract of its interface as the code keeps
      it, replies and queues; the MMU is a map from processes to address spaces
      with a set of resident pages, which says when an access faults, whatever it
      evicts; the file system is a tree of names and byte strings; a critical
      section is a recursive lock with a queue, or a pool of units; the composite
      dispatcher and the pool do what one dispatcher and the serial loop do; the
      channel manager is a map from names to channels, the device registry a map
      from identifiers; the snapshot history is a window onto an unbounded log.
    - Concurrency: calls of host threads on a scheduler, an MMU, a semaphore, a
      mutex, a pipe, a message queue or the device registry have one sequential
      order that respects real time.  They cannot deadlock, and a call takes a
      bounded number of steps of its own thread whatever the others do; that a
      thread waiting for a host mutex gets it before ever new callers is nothing
      [std::mutex] promises, and is not claimed.  The pool does what the serial
      loop does.
    - Isolation: preemption is invisible to programs that work in registers, but
      for the comparison flags, which no one saves; through any run of the
      dispatcher the flags are all that others can change of such a process, and
      a program that does not read them goes its own way.
    - Safety of whole runs: no sequence of calls on the file system, the
      scheduler, the dispatcher or the kernel follows a dangling reference or
      leaves a range, except that a guest's own arithmetic can be undefined
      inside a burst, and that the file system uses a dead iterator when the
      insertion of a node rehashes its table; the interactive application, over
      the kernel it builds, inherits this for every interleaving of the calls of
      its two threads, up to the first pair that overlaps and races.
    - Invariants: one inode per path, conservation of disk blocks and semaphore
      units, priority inheritance.
    - Functional and error behaviour of single operations on every branch:
      creation, dispatch, selection, termination, system calls, writes, policies,
      ALU, path parsing, deadlock search, the banker's check.
    - Round trips: what is written is read back; the trace of a thread rebuilds
      the scopes and events that emitted it.
    - Termination and liveness: the searches, the clock policy, autoplay, the
      pool; a mutex is handed over in the order of arrival, round robin reaches every
      ready process;
      and, negatively, a process an
      interrupt blocked never runs again, and a full network card is dead.

    ** Not modelled

    Host locks of the other objects (page tables, shared memory, the channel
    manager, the deadlock detector's reader-writer lock, sinks): their calls are
    taken to be atomic; moved-from objects; trace calls inside other components, whose events nothing but the log panel
    reads; textual dumps of registers; FTXUI's drawing of a document and its
    event loop, and the host's threads and clock.  A worker of the pool waits on a
    condition variable by a step that is possible when the condition holds: the
    notifications are not steps of the model, so it does not show that none is
    missed.  A system call handler is a function of its arguments and the caller's
    image: one that calls the kernel again is not among them.  The view contracts [tui/dashboard.h],
    [process_view.h], [scheduler_view.h] and [memory_map_view.h] have no
    implementation or caller outside the tests. *)
From stdpp Require Export prelude gmap strings list sorting.
From Stdlib Require Export ZArith Lia.

(** ** Machine integers

    A machine integer is a [Z]; the conversions below are the wrap-around of
    the fixed-width C++ types the source uses. *)
Definition u8 (z : Z) : Z := (z mod 2 ^ 8)%Z.
Definition u32 (z : Z) : Z := (z mod 2 ^ 32)%Z.
Definition u64 (z : Z) : Z := (z mod 2 ^ 64)%Z.
Definition i32 (z : Z) : Z := ((z + 2 ^ 31) mod 2 ^ 32 - 2 ^ 31)%Z.

Definition INT_MIN : Z := (- 2 ^ 31)%Z.
Definition INT_MAX : Z := (2 ^ 31 - 1)%Z.

(** [z] is a value of [std::int32_t]. *)
Definition is_i32 (z : Z) : Prop := (INT_MIN ≤ z ≤ INT_MAX)%Z.
#[global] Instance is_i32_dec z : Decision (is_i32 z).
Proof. unfold is_i32. apply _. Defined.

(** [z] is a value of [std::uint64_t]. *)
Definition is_u64 (z : Z) : Prop := (0 ≤ z < 2 ^ 64)%Z.
Definition is_u32 (z : Z) : Prop := (0 ≤ z < 2 ^ 32)%Z.

Create HintDb width.

Lemma u64_small z : (0 ≤ z < 2 ^ 64)%Z → u64 z = z.
Proof. apply Z.mod_small. Qed.
Lemma u64_range z : is_u64 (u64 z).
Proof. apply Z.mod_pos_bound. lia. Qed.
Lemma u32_small z : (0 ≤ z < 2 ^ 32)%Z → u32 z = z.
Proof. apply Z.mod_small. Qed.
Lemma u32_range z : is_u32 (u32 z).
Proof. apply Z.mod_pos_bound. lia. Qed.
Lemma i32_range z : is_i32 (i32 z).
Proof.
  unfold i32, is_i32, INT_MIN, INT_MAX.
  pose proof (Z.mod_pos_bound (z + 2 ^ 31) (2 ^ 32) ltac:(lia)). lia.
Qed.
Lemma i32_small z : is_i32 z → i32 z = z.
Proof. unfold is_i32, i32, INT_MIN, INT_MAX. intros. rewrite Z.mod_small; lia. Qed.
Lemma u64_add_l a b : u64 (u64 a + b) = u64 (a + b).
Proof. apply Z.add_mod_idemp_l. lia. Qed.
Lemma u64_add_r a b : u64 (a + u64 b) = u64 (a + b).
Proof. apply Z.add_mod_idemp_r. lia. Qed.
#[export] Hint Resolve u64_range u32_range i32_range : width.

(** ** [std::min_element] and [std::max_element]

    The library algorithms: the first smallest (largest) element of the range
    under the comparator, [None] standing for the end iterator of an empty
    range. *)
Section min_element.
Context {A : Type} (lt : A → A → bool).

Fixpoint min_from (best : A) (l : list A) : A :=
  match l with
  | [] => best
  | x :: l' => min_from (if lt x best then x else best) l'
  end.
Definition min_element (l : list A) : option A :=
  match l with [] => None | x :: l' => Some (min_from x l') end.

Fixpoint max_from (best : A) (l : list A) : A :=
  match l with
  | [] => best
  | x :: l' => max_from (if lt best x then x else best) l'
  end.
Definition max_element (l : list A) : option A :=
  match l with [] => None | x :: l' => Some (max_from x l') end.

Lemma min_from_in b l : min_from b l ∈ b :: l.
Proof.
  revert b; induction l as [|x l IH]; intros b; simpl; [set_solver|].
  specialize (IH (if lt x b then x else b)).
  destruct (lt x b); set_solver.
Qed.
Lemma min_element_in l x : min_element l = Some x → x ∈ l.
Proof. destruct l; simpl; [done|]. intros [= <-]. apply min_from_in. Qed.
Lemma min_element_None l : min_element l = None ↔ l = [].
Proof. by destruct l. Qed.

Lemma max_from_in b l : max_from b l ∈ b :: l.
Proof.
  revert b; induction l as [|x l IH]; intros b; simpl; [set_solver|].
  specialize (IH (if lt b x then x else b)).
  destruct (lt b x); set_solver.
Qed.
Lemma max_element_in l x : max_element l = Some x → x ∈ l.
Proof. destruct l; simpl; [done|]. intros [= <-]. apply max_from_in. Qed.
Lemma max_element_None l : max_element l = None ↔ l = [].
Proof. by destruct l. Qed.
End min_element.

(** The comparators of the source are strict weak orders: [b] not below [a] is
    a total preorder.  This is what [std::min_element] asks of them. *)
Class StrictWeakOrder {A} (lt : A → A → bool) : Prop := {
  swo_asym a b : lt a b = true → lt b a = false;
  swo_trans_ge a b c : lt b a = false → lt c b = false → lt c a = false
}.

Section min_element_order.
Context {A : Type} (lt : A → A → bool) `{!StrictWeakOrder lt}.

Lemma swo_irrefl a : lt a a = false.
Proof. destruct (lt a a) eqn:E; [|done]. by rewrite <-(swo_asym a a E). Qed.

Lemma min_from_least b l y : y ∈ b :: l → lt y (min_from lt b l) = false.
Proof.
  assert (∀ b, lt b (min_from lt b l) = false ∧
               ∀ y, y ∈ l → lt y (min_from lt b l) = false) as H.
  { clear b y. induction l as [|x l IH]; intros b; simpl.
    { split; [apply swo_irrefl|set_solver]. }
    destruct (IH (if lt x b then x else b)) as [IH1 IH2].
    destruct (lt x b) eqn:E; split; [| |done|]; intros.
    - eapply swo_trans_ge; [exact IH1|]. by apply swo_asym.
    - set_unfold. naive_solver.
    - set_unfold. destruct H as [->|]; [|by apply IH2].
      eapply swo_trans_ge; [exact IH1|done]. }
  destruct (H b). set_unfold. naive_solver.
Qed.

(** No element of the range is below the selected one. *)
Lemma min_element_least l x y :
  min_element lt l = Some x → y ∈ l → lt y x = false.
Proof. destruct l; simpl; [done|]. intros [= <-]. apply min_from_least. Qed.
End min_element_order.

(** A comparator that compares an integer key first and breaks ties with
    another comparator. *)
Definition lex_lt {A} (key : A → Z) (lt : A → A → bool) (a b : A) : bool :=
  if negb (key a =? key b)%Z then (key a <? key b)%Z else lt a b.

#[global] Instance key_swo {A} (key : A → Z) :
  StrictWeakOrder (λ a b, (key a <? key b)%Z).
Proof. split; intros *; rewrite ?Z.ltb_lt, ?Z.ltb_ge; lia. Qed.

#[global] Instance lex_swo {A} (key : A → Z) (lt : A → A → bool) :
  StrictWeakOrder lt → StrictWeakOrder (lex_lt key lt).
Proof.
  intros [H1 H2]; split; unfold lex_lt.
  - intros a b. destruct (Z.eqb_spec (key a) (key b)) as [->|]; simpl.
    + rewrite Z.eqb_refl. apply H1.
    + destruct (Z.eqb_spec (key b) (key a)); simpl; [lia|].
      rewrite Z.ltb_lt, Z.ltb_ge. lia.
  - intros a b c. destruct (Z.eqb_spec (key b) (key a)) as [Hba|],
      (Z.eqb_spec (key c) (key b)) as [Hcb|]; simpl.
    + rewrite Hcb, Hba, Z.eqb_refl. apply H2.
    + intros _. destruct (Z.eqb_spec (key c) (key a)); simpl;
        rewrite ?Z.ltb_ge; [lia|]. lia.
    + intros Hlt _. destruct (Z.eqb_spec (key c) (key a)); simpl; [lia|].
      rewrite Z.ltb_ge in *. lia.
    + destruct (Z.eqb_spec (key c) (key a)); simpl; rewrite !Z.ltb_ge; lia.
Qed.

(** ** Iteration order of unordered containers

    [std::unordered_map] and [std::unordered_set] are finite maps and sets
    whose iteration order the standard leaves open.  Code whose behaviour
    could depend on it takes the order as an interface: some enumeration of
    the contents, without repetitions. *)
Class HashOrder := {
  map_order {K} `{Countable K} {V} : gmap K V → list (K * V);
  set_order {K} `{Countable K} : gset K → list K;
  map_order_perm {K} `{Countable K} {V} (m : gmap K V) : map_order m ≡ₚ map_to_list m;
  set_order_perm {K} `{Countable K} (s : gset K) : set_order s ≡ₚ elements s
}.

(** One such order, for concrete evaluations. *)
Definition canonical_order : HashOrder := {|
  map_order _ _ _ _ m := map_to_list m;
  set_order _ _ _ s := elements s;
  map_order_perm _ _ _ _ m := reflexivity _;
  set_order_perm _ _ _ s := reflexivity _
|}.

Section hash_order.
Context `{HO : HashOrder} {K : Type} `{Countable K} {V : Type}.

Lemma elem_of_map_order (m : gmap K V) k v : (k, v) ∈ map_order m ↔ m !! k = Some v.
Proof. by rewrite map_order_perm, elem_of_map_to_list. Qed.
Lemma elem_of_set_order (s : gset K) k : k ∈ set_order s ↔ k ∈ s.
Proof. by rewrite set_order_perm, elem_of_elements. Qed.
Lemma NoDup_set_order (s : gset K) : NoDup (set_order s).
Proof. rewrite set_order_perm. apply NoDup_elements. Qed.
Lemma NoDup_map_order_fst (m : gmap K V) : NoDup (map_order m).*1.
Proof. rewrite map_order_perm. apply NoDup_fst_map_to_list. Qed.

(** [*s.begin()], [None] for an empty set. *)
Definition set_begin (s : gset K) : option K := head (set_order s).

Lemma set_begin_Some s k : set_begin s = Some k → k ∈ s.
Proof.
  unfold set_begin. rewrite <-elem_of_set_order.
  destruct (set_order s); simpl; [done|]. intros [= ->]. set_solver.
Qed.
Lemma set_begin_None s : set_begin s = None ↔ s = ∅.
Proof.
  unfold set_begin. split.
  - intros Hn. apply set_eq. intros k. rewrite <-elem_of_set_order.
    destruct (set_order s); simpl in *; [set_solver|done].
  - intros ->. destruct (set_order ∅) as [|k l] eqn:E; [done|].
    exfalso. apply (not_elem_of_empty (C:=gset K) k).
    rewrite <-elem_of_set_order, E. set_solver.
Qed.
End hash_order.

(** [unordered_map::emplace]: no effect when the key is present. *)
Definition emplace {K V} `{Countable K} (k : K) (v : V) (m : gmap K V) : gmap K V :=
  match m !! k with Some _ => m | None => <[k := v]> m end.

Lemma emplace_fresh {K V} `{Countable K} (k : K) (v : V) (m : gmap K V) :
  m !! k = None → emplace k v m = <[k := v]> m.
Proof. unfold emplace. by intros ->. Qed.

(** ** Undefined behaviour

    Operations whose C++ text can step outside the language (an index out of
    range, a signed overflow, a failed assertion) return an [option]: [None] is
    undefined behaviour. *)
Declare Scope ub_scope.
Delimit Scope ub_scope with ub.
Notation "'let!' x := c 'in' k" :=
  (match c with Some x => k | None => None end)
  (at level 10, x pattern, c at level 100, k at level 200) : ub_scope.
Open Scope ub_scope.

(** ** Overwriting a range of a vector

    [std::copy_n(d.begin(), d.size(), l.begin() + o)]. *)
Definition splice {A} (l : list A) (o : nat) (d : list A) : list A :=
  take o l ++ d ++ drop (o + length d) l.

Section splice.
Context {A : Type}.
Implicit Types l d : list A.

Lemma length_splice l o d : o + length d ≤ length l → length (splice l o d) = length l.
Proof. intros. unfold splice. rewrite !length_app, length_take, length_drop. lia. Qed.

Lemma lookup_splice l o d k :
  o + length d ≤ length l →
  splice l o d !! k =
  if decide (o ≤ k < o + length d) then d !! (k - o) else l !! k.
Proof.
  intros Hl. unfold splice.
  assert (length (take o l) = o) as Ho by (rewrite length_take; lia).
  destruct (decide (k < o)).
  { rewrite decide_False by lia. rewrite lookup_app_l by lia. by rewrite lookup_take_lt. }
  rewrite lookup_app_r by lia. rewrite Ho. case_decide.
  - by rewrite lookup_app_l by lia.
  - rewrite lookup_app_r by lia. rewrite lookup_drop. f_equal. lia.
Qed.

Lemma splice_nil l o : splice l o [] = l.
Proof. unfold splice. simpl. rewrite Nat.add_0_r. apply take_drop. Qed.

Lemma splice_all l d : length d = length l → splice l 0 d = d.
Proof. intros H. unfold splice. simpl. rewrite drop_ge by lia. by rewrite app_nil_r. Qed.
End splice.

Lemma elem_of_list_drop_in {A} (l : list A) (n : nat) (x : A) : x ∈ drop n l → x ∈ l.
Proof. intros H. rewrite <-(take_drop n l). set_solver. Qed.
Lemma elem_of_list_take_in {A} (l : list A) (n : nat) (x : A) : x ∈ take n l → x ∈ l.
Proof. intros H. rewrite <-(take_drop n l). set_solver. Qed.

(** ** Counting the set entries of a bit vector *)
Fixpoint count_true (l : list bool) : nat :=
  match l with [] => 0 | b :: l' => (if b then 1 else 0) + count_true l' end.

Lemma count_true_insert (l : list bool) (i : nat) (b old : bool) :
  l !! i = Some old →
  count_true (<[i:=b]> l) + (if old then 1 else 0) = count_true l + (if b then 1 else 0).
Proof.
  revert i. induction l as [|x l IH]; intros [|i]; simpl; try done.
  - intros [= ->]. destruct old, b; lia.
  - intros Hi. specialize (IH i Hi). lia.
Qed.
Lemma count_true_replicate n : count_true (replicate n true) = n.
Proof. induction n; simpl; congruence. Qed.
Lemma count_true_zero (l : list bool) : count_true l = 0 ↔ ∀ i : nat, l !! i ≠ Some true.
Proof.
  induction l as [|b l IH]; simpl; [done|]. split.
  - intros H [|i]; simpl; destruct b; try done; try lia. apply IH. lia.
  - intros H. destruct b; [by specialize (H 0)|]. apply IH. intros i. apply (H (S i)).
Qed.

(** ** Weights of finite maps

    The measure of a system of threads: what each thread has left, summed. *)
Section weigh.
Context {K A : Type} `{Countable K} (w : A → nat).
Implicit Types (m : gmap K A).

Definition weigh m : nat := map_fold (λ _ x n, w x + n) 0 m.

Lemma weigh_delete m k x : m !! k = Some x → weigh m = w x + weigh (delete k m).
Proof. intros Hk. apply (map_fold_delete_L (λ _ x n, w x + n)); [intros; lia|done]. Qed.
Lemma weigh_update m k x x' : m !! k = Some x → w x' < w x → weigh (<[k := x']> m) < weigh m.
Proof.
  intros Hk Hlt. rewrite (weigh_delete m k x Hk), (weigh_delete _ k x') by apply lookup_insert_eq.
  rewrite delete_insert_eq. lia.
Qed.
Lemma weigh_bound m n : (∀ x, w x ≤ n) → weigh m ≤ n * size m.
Proof.
  intros Hn. induction m as [|k x m Hm IH] using map_ind; [unfold weigh; rewrite map_fold_empty; lia|].
  rewrite (weigh_delete _ k x), delete_insert_id, map_size_insert_None by (done || apply lookup_insert_eq).
  pose proof (Hn x). lia.
Qed.
End weigh.

(** ** Automation *)

(** Case analysis on everything a handler branches on. *)
Ltac cases := repeat (case_match || case_decide); simplify_eq/=.
Ltac split_and_all := repeat match goal with H : _ ∧ _ |- _ => destruct H end.

(** Reading a definition that succeeded: its binds all succeeded. *)
Ltac binds H :=
  repeat (first
    [ progress cbn [mbind option_bind negb fst snd] in H
    | match type of H with
      | context [match ?x with _ => _ end] => destruct x eqn:?; try discriminate H
      end ]).
