(* ===== verification/Monitor.v ===== *)
(** * Monitor: objects whose methods hold one host mutex

    [Scheduler], [Pipe], [MessageQueue] and most other shared objects of the
    program open every public method with [std::lock_guard<std::mutex>] on a
    mutex of their own.  Here is what that buys, once for all of them: threads
    make calls in any interleaving, and a call takes the mutex, reads the
    object's members, writes them, gives the mutex back and returns, one step at
    a time.  The object's methods are a function [body]; [None] is undefined
    behaviour of the method. *)
From Stdlib Require Import Sorting.Sorted.
From stdpp Require Import sorting.
From S2P Require Import Prelude.

Section monitor.
Context {S C R : Type} (body : C → S → option (R * S)).

(** ** Threads and steps *)
Inductive mon_stage :=
| Entering (c : C)
| Reading (c : C)
| Writing (c : C) (members : S)
| Leaving (c : C) (r : R)
| Returning (c : C) (r : R).

(** A call that has returned: what it was, its reply, and when. *)
Record mon_call := MkMonCall { mc_call : C; mc_reply : R; mc_end : nat }.

(** A thread in a call has the time it called at, which also names the call. *)
Record mon_sys := MkMonSys {
  members_of : S;
  mutex_owner : option nat;
  callers : gmap nat (nat * mon_stage);
  returned : gmap nat mon_call;
  ticks : nat
}.
Definition mon_init (s : S) : mon_sys := MkMonSys s None ∅ ∅ 0.

Definition go_on (y : mon_sys) (s : S) (owner : option nat) (t start : nat) (g : mon_stage) : mon_sys :=
  MkMonSys s owner (<[t := (start, g)]> (callers y)) (returned y) (ticks y + 1).

(** The next step of a thread; [None] while it waits for the mutex. *)
Definition mon_advance (y : mon_sys) (t : nat) : option mon_sys :=
  let! (start, g) := callers y !! t in
  match g with
  | Entering c =>
      match mutex_owner y with
      | Some _ => None
      | None => Some (go_on y (members_of y) (Some t) t start (Reading c))
      end
  | Reading c => Some (go_on y (members_of y) (mutex_owner y) t start (Writing c (members_of y)))
  | Writing c s => let! (r, s') := body c s in Some (go_on y s' (mutex_owner y) t start (Leaving c r))
  | Leaving c r => Some (go_on y (members_of y) None t start (Returning c r))
  | Returning c r =>
      Some (MkMonSys (members_of y) (mutex_owner y) (delete t (callers y))
              (<[start := MkMonCall c r (ticks y)]> (returned y)) (ticks y + 1))
  end.

Inductive mon_event := MCall (t : nat) (c : C) | MStep (t : nat).
Definition mon_step (y : mon_sys) (e : mon_event) : option mon_sys :=
  match e with
  | MCall t c =>
      match callers y !! t with
      | Some _ => None
      | None => Some (go_on y (members_of y) (mutex_owner y) t (ticks y) (Entering c))
      end
  | MStep t => mon_advance y t
  end.
Fixpoint mon_exec (y : mon_sys) (es : list mon_event) : option mon_sys :=
  match es with
  | [] => Some y
  | e :: es' => let! y1 := mon_step y e in mon_exec y1 es'
  end.

(** ** Sequential runs *)
Fixpoint seq_run (s : S) (cs : list C) : option (list R * S) :=
  match cs with
  | [] => Some ([], s)
  | c :: cs' =>
      let! (r, s1) := body c s in
      let! (rs, s2) := seq_run s1 cs' in Some (r :: rs, s2)
  end.

Lemma seq_run_snoc s cs c rs s1 r s2 :
  seq_run s cs = Some (rs, s1) → body c s1 = Some (r, s2) → seq_run s (cs ++ [c]) = Some (rs ++ [r], s2).
Proof.
  revert s rs. induction cs as [|c0 cs IH]; intros s rs; simpl.
  - intros [= <- <-] ->. done.
  - destruct (body c0 s) as [[r0 s0]|]; cbn; [|done]. destruct (seq_run s0 cs) as [[rs0 s3]|] eqn:Hr; cbn; [|done].
    intros [= <- <-] Hb. by rewrite (IH _ _ Hr Hb).
Qed.

Lemma seq_run_last s cs c rs s1 :
  seq_run s cs = Some (rs, s1) → is_Some (seq_run s (cs ++ [c])) → is_Some (body c s1).
Proof.
  revert s rs. induction cs as [|c0 cs IH]; intros s rs; simpl.
  - intros [= <- <-] [? H]. destruct (body c s); [done|discriminate H].
  - destruct (body c0 s) as [[r0 s0]|]; cbn [mbind option_bind]; [|done].
    destruct (seq_run s0 cs) as [[rs0 s3]|] eqn:Hr; cbn [mbind option_bind]; [|done].
    intros [= _ <-] [x H]. apply (IH _ _ Hr). destruct (seq_run s0 (cs ++ [c])); [done|discriminate H].
Qed.

(** ** The order of the calls: by the step that wrote the members *)
Record mon_entry := MkEntry { me_start : nat; me_call : C; me_reply : R; me_commit : nat }.

Definition holds_mutex (g : mon_stage) : Prop :=
  match g with Reading _ | Writing _ _ | Leaving _ _ => True | _ => False end.
Definition replied (g : mon_stage) : option (C * R) :=
  match g with Leaving c r | Returning c r => Some (c, r) | _ => None end.

(** The call of an entry: its thread is on the way out, or it has returned
    after the commit. *)
Definition on_record (y : mon_sys) (e : mon_entry) : Prop :=
  (∃ t g, callers y !! t = Some (me_start e, g) ∧ replied g = Some (me_call e, me_reply e)) ∨
  (∃ c, returned y !! me_start e = Some c ∧ mc_call c = me_call e ∧ mc_reply c = me_reply e ∧
     me_commit e < mc_end c).

Record mon_ok (s0 : S) (y : mon_sys) (log : list mon_entry) : Prop := {
  mo_run : seq_run s0 (map me_call log) = Some (map me_reply log, members_of y);
  mo_owner t : mutex_owner y = Some t ↔ ∃ st g, callers y !! t = Some (st, g) ∧ holds_mutex g;
  mo_read t st c s : callers y !! t = Some (st, Writing c s) → s = members_of y;
  mo_log e : e ∈ log → me_start e < me_commit e < ticks y ∧ on_record y e;
  mo_out t st g c r : callers y !! t = Some (st, g) → replied g = Some (c, r) → ∃ e, e ∈ log ∧ me_start e = st;
  mo_ret st c : returned y !! st = Some c → st < ticks y ∧ ∃ e, e ∈ log ∧ me_start e = st;
  mo_starts : NoDup (map me_start log);
  mo_sorted : StronglySorted (λ e1 e2, me_commit e1 < me_commit e2) log;
  mo_thread t st g : callers y !! t = Some (st, g) → st < ticks y ∧ returned y !! st = None;
  mo_inj t1 t2 st g1 g2 : callers y !! t1 = Some (st, g1) → callers y !! t2 = Some (st, g2) → t1 = t2
}.

Lemma mon_ok_init s : mon_ok s (mon_init s) [].
Proof.
  split; simpl; try (intros *; rewrite lookup_empty; done); [done| | |constructor..].
  - intros t. split; [done|]. intros (st & g & Ht & _). by rewrite lookup_empty in Ht.
  - intros e He. by apply elem_of_nil in He.
Qed.

(** The owner of the mutex after thread [t] went to stage [g]. *)
Lemma owner_after s0 y log t g (o : option nat) st :
  mon_ok s0 y log →
  (∀ t', o = Some t' ↔ t' = t ∧ holds_mutex g ∨ t' ≠ t ∧ mutex_owner y = Some t') →
  ∀ t', o = Some t' ↔ ∃ st' g', <[t := (st, g)]> (callers y) !! t' = Some (st', g') ∧ holds_mutex g'.
Proof.
  intros Hok Ho t'. rewrite Ho, (mo_owner _ _ _ Hok). destruct (decide (t' = t)) as [->|Hne].
  - rewrite lookup_insert_eq. naive_solver.
  - rewrite lookup_insert_ne by done. naive_solver.
Qed.

(** A step of thread [t] that leaves the members and the replies alone. *)
Lemma mon_ok_move s0 y log t st g o :
  mon_ok s0 y log →
  (∀ st' g', callers y !! t = Some (st', g') → st' = st) →
  replied g = callers y !! t ≫= replied ∘ snd →
  st < ticks y + 1 → returned y !! st = None →
  (∀ t' g', callers y !! t' = Some (st, g') → t' = t) →
  (∀ c s, g = Writing c s → s = members_of y) →
  (∀ t', o = Some t' ↔ t' = t ∧ holds_mutex g ∨ t' ≠ t ∧ mutex_owner y = Some t') →
  mon_ok s0 (go_on y (members_of y) o t st g) log.
Proof.
  intros Hok Hst Hrep Hlt Hret Hinj Hwr Ho. split; simpl; try apply Hok.
  - by eapply owner_after.
  - intros t' st' c s. destruct (decide (t' = t)) as [->|].
    + rewrite lookup_insert_eq. intros [= <- ->]. by eapply Hwr.
    + rewrite lookup_insert_ne by done. apply Hok.
  - intros e He. destruct (mo_log _ _ _ Hok e He) as [? Hrec]. split; [lia|].
    destruct Hrec as [(t' & g' & Ht & Hr)|?]; [left|by right].
    destruct (decide (t' = t)) as [->|]; [|exists t', g'; simpl; by rewrite lookup_insert_ne].
    exists t, g. simpl. rewrite lookup_insert_eq, Hrep, Ht. pose proof (Hst _ _ Ht). naive_solver.
  - intros t' st' g' c r. destruct (decide (t' = t)) as [->|].
    + rewrite lookup_insert_eq. intros [= <- <-]. rewrite Hrep.
      destruct (callers y !! t) as [[st' g']|] eqn:Ht; [|done]. simpl. intros Hr.
      rewrite <-(Hst _ _ eq_refl). by eapply Hok.
    + rewrite lookup_insert_ne by done. apply Hok.
  - intros st' c Hc. destruct (mo_ret _ _ _ Hok st' c Hc). split; [lia|done].
  - intros t' st' g'. destruct (decide (t' = t)) as [->|].
    + rewrite lookup_insert_eq. by intros [= <- <-].
    + rewrite lookup_insert_ne by done. intros Ht. destruct (mo_thread _ _ _ Hok _ _ _ Ht). split; [lia|done].
  - intros t1 t2 st' g1 g2. destruct (decide (t1 = t)) as [->|], (decide (t2 = t)) as [->|];
      rewrite ?lookup_insert_eq, ?lookup_insert_ne by done; [done|..].
    + intros [= <- <-] H2. symmetry. by eapply Hinj.
    + intros H1 [= <- <-]. by eapply Hinj.
    + apply Hok.
Qed.

(** The step that writes the members puts the call last in the order. *)
Lemma mon_ok_commit s0 y log t st c r s' :
  mon_ok s0 y log → callers y !! t = Some (st, Writing c (members_of y)) → body c (members_of y) = Some (r, s') →
  mon_ok s0 (go_on y s' (mutex_owner y) t st (Leaving c r)) (log ++ [MkEntry st c r (ticks y)]).
Proof.
  intros Hok Ht Hb. pose proof (mo_thread _ _ _ Hok _ _ _ Ht) as [Hlt Hret].
  assert (mutex_owner y = Some t) as Hown by (apply Hok; by exists st, (Writing c (members_of y))).
  assert (∀ e, e ∈ log → me_start e ≠ st) as Hnew.
  { intros e He <-. destruct (mo_log _ _ _ Hok e He) as [_ [(t' & g' & Ht' & Hr)|(? & Hc & _)]]; [|congruence].
    assert (t' = t) as -> by by eapply Hok. rewrite Ht in Ht'. by injection Ht' as <-. }
  split; simpl.
  - rewrite !map_app. simpl. eapply seq_run_snoc; [apply Hok|done].
  - eapply owner_after; [done|]. intros t'. rewrite Hown. simpl. naive_solver.
  - intros t' st' c' s. destruct (decide (t' = t)) as [->|]; [by rewrite lookup_insert_eq|].
    rewrite lookup_insert_ne by done. intros Ht'. exfalso.
    assert (mutex_owner y = Some t') by (apply Hok; by eexists st', _). congruence.
  - intros e [He|He]%elem_of_app.
    + destruct (mo_log _ _ _ Hok e He) as [? [(t' & g' & Ht' & Hr)|?]]; (split; [simpl; lia|]); [left|by right].
      exists t', g'. simpl. rewrite lookup_insert_ne; [done|]. intros <-. rewrite Ht in Ht'. injection Ht' as _ <-. done.
    + apply list_elem_of_singleton in He as ->. simpl. split; [lia|]. left. exists t, (Leaving c r). simpl.
      by rewrite lookup_insert_eq.
  - intros t' st' g' c' r'. destruct (decide (t' = t)) as [->|].
    + rewrite lookup_insert_eq. intros [= <- <-] _. eexists. split; [by apply elem_of_app; right; left|done].
    + rewrite lookup_insert_ne by done. intros Ht' Hr. destruct (mo_out _ _ _ Hok _ _ _ _ _ Ht' Hr) as (e & ? & ?).
      exists e. rewrite elem_of_app. auto.
  - intros st' c' Hc. destruct (mo_ret _ _ _ Hok st' c' Hc) as [? (e & ? & ?)]. split; [lia|].
    exists e. rewrite elem_of_app. auto.
  - rewrite map_app. apply NoDup_app. split_and!; [apply Hok| |apply NoDup_singleton].
    intros x (e & -> & He)%list_elem_of_fmap Heq%list_elem_of_singleton. by destruct (Hnew e He).
  - apply StronglySorted_app_2; [|apply Hok|repeat constructor].
    intros e1 e2 He1 ->%list_elem_of_singleton. simpl. by apply (mo_log _ _ _ Hok e1).
  - intros t' st' g'. destruct (decide (t' = t)) as [->|].
    + rewrite lookup_insert_eq. intros [= <- <-]. split; [lia|done].
    + rewrite lookup_insert_ne by done. intros Ht'. destruct (mo_thread _ _ _ Hok _ _ _ Ht'). split; [lia|done].
  - intros t1 t2 st' g1 g2. destruct (decide (t1 = t)) as [->|], (decide (t2 = t)) as [->|];
      rewrite ?lookup_insert_eq, ?lookup_insert_ne by done; [done|..].
    + intros [= <- <-] H2. by eapply Hok.
    + intros H1 [= <- <-]. by eapply Hok.
    + apply Hok.
Qed.

(** A call returns. *)
Lemma mon_ok_return s0 y log t st c r :
  mon_ok s0 y log → callers y !! t = Some (st, Returning c r) →
  mon_ok s0 (MkMonSys (members_of y) (mutex_owner y) (delete t (callers y))
    (<[st := MkMonCall c r (ticks y)]> (returned y)) (ticks y + 1)) log.
Proof.
  intros Hok Ht. pose proof (mo_thread _ _ _ Hok _ _ _ Ht) as [Hlt Hret].
  assert (∀ t' st' g', delete t (callers y) !! t' = Some (st', g') ↔ t' ≠ t ∧ callers y !! t' = Some (st', g')) as Hdel.
  { intros t' st' g'. rewrite lookup_delete_Some. naive_solver. }
  split; simpl; try apply Hok.
  - intros t'. rewrite (mo_owner _ _ _ Hok). split; intros (st' & g' & Hg & Hh); exists st', g'.
    + split; [|done]. apply Hdel. split; [|done]. intros ->. rewrite Ht in Hg. by injection Hg as <- <-.
    + by apply Hdel in Hg as [_ ?].
  - intros t' st' c' s [_ Ht']%Hdel. by eapply Hok.
  - intros e He. destruct (mo_log _ _ _ Hok e He) as [? Hrec]. split; [lia|].
    destruct (decide (me_start e = st)) as [Heq|Hne].
    + right. exists (MkMonCall c r (ticks y)). simpl. rewrite Heq, lookup_insert_eq. split; [done|].
      destruct Hrec as [(t' & g' & Ht' & Hr)|(? & Hc & _)]; [|congruence].
      rewrite Heq in Ht'. assert (t' = t) as -> by by eapply Hok. rewrite Ht in Ht'. injection Ht' as <-.
      injection Hr as <- <-. split_and!; [done..|lia].
    + destruct Hrec as [(t' & g' & Ht' & Hr)|(c' & Hc & ?)]; [left|right].
      * exists t', g'. simpl. rewrite Hdel. split_and!; try done. intros ->. congruence.
      * exists c'. simpl. by rewrite lookup_insert_ne.
  - intros t' st' g' c' r' [_ Ht']%Hdel. by eapply Hok.
  - intros st' c'. rewrite lookup_insert_Some. intros [[<- <-]|[_ Hc]].
    + split; [lia|]. by eapply Hok.
    + destruct (mo_ret _ _ _ Hok _ _ Hc). split; [lia|done].
  - intros t' st' g' [Hne Ht']%Hdel. destruct (mo_thread _ _ _ Hok _ _ _ Ht') as [? Hn]. split; [lia|].
    rewrite lookup_insert_ne; [done|]. intros <-. apply Hne. by eapply Hok.
  - intros t1 t2 st' g1 g2 [_ H1]%Hdel [_ H2]%Hdel. by eapply Hok.
Qed.

(** Every step keeps the calls in an order. *)
Lemma mon_ok_step s0 y log e y' :
  mon_ok s0 y log → mon_step y e = Some y' → ∃ log', mon_ok s0 y' (log ++ log').
Proof.
  intros Hok. destruct e as [t c|t]; simpl.
  - destruct (callers y !! t) eqn:Ht; [done|]. intros [= <-]. exists []. rewrite app_nil_r.
    apply mon_ok_move; rewrite ?Ht; try done; [lia|..].
    + destruct (returned y !! ticks y) as [c'|] eqn:Hc; [|done]. apply (mo_ret _ _ _ Hok) in Hc as [? _]. lia.
    + intros t' g' Ht'. apply (mo_thread _ _ _ Hok) in Ht' as [? _]. lia.
    + intros t'. simpl. split; [|naive_solver]. intros Ho. right. split; [|done]. intros ->.
      apply (mo_owner _ _ _ Hok) in Ho as (? & ? & ? & _). congruence.
  - unfold mon_advance. destruct (callers y !! t) as [[st g]|] eqn:Ht; cbn [mbind option_bind]; [|done].
    pose proof (mo_thread _ _ _ Hok _ _ _ Ht) as [Hlt Hret].
    assert (holds_mutex g → mutex_owner y = Some t) as Hown by (intros ?; apply Hok; eauto).
    assert (∀ t' g', callers y !! t' = Some (st, g') → t' = t) as Hinj by (intros t' g' ?; by eapply Hok).
    destruct g as [c|c|c s|c r|c r].
    + destruct (mutex_owner y) eqn:Ho; [done|]. intros [= <-]. exists []. rewrite app_nil_r.
      apply mon_ok_move; rewrite ?Ht; try done; [naive_solver|lia|]. intros t'. simpl. rewrite Ho. naive_solver.
    + intros [= <-]. exists []. rewrite app_nil_r. specialize (Hown I).
      apply mon_ok_move; rewrite ?Ht; try done; [naive_solver|lia|naive_solver|]. intros t'. simpl. rewrite Hown. naive_solver.
    + assert (s = members_of y) as -> by by eapply Hok. destruct (body c (members_of y)) as [[r s']|] eqn:Hb; [|done].
      intros [= <-]. eexists. by eapply mon_ok_commit.
    + intros [= <-]. exists []. rewrite app_nil_r. specialize (Hown I).
      apply mon_ok_move; rewrite ?Ht; try done; [naive_solver|lia|]. intros t'. simpl. rewrite Hown. naive_solver.
    + intros [= <-]. exists []. rewrite app_nil_r. by apply mon_ok_return.
Qed.

Lemma mon_ok_exec s0 es y log y' : mon_ok s0 y log → mon_exec y es = Some y' → ∃ log', mon_ok s0 y' log'.
Proof.
  revert y log. induction es as [|e es IH]; intros y log Hok; simpl; [intros [= <-]; by exists log|].
  destruct (mon_step y e) as [y1|] eqn:Hs; cbn [mbind option_bind]; [|done].
  destruct (mon_ok_step _ _ _ _ _ Hok Hs) as (log1 & Hok1). by eapply IH.
Qed.

(** ** The calls of a run *)

(** The calls made by the events [es], each with its time. *)
Definition calls_made (es : list mon_event) : list (nat * C) :=
  omap (λ x, match x.2 with MCall _ c => Some (x.1, c) | MStep _ => None end) (zip (seq 0 (length es)) es).

Lemma calls_made_elem es i c : (i, c) ∈ calls_made es ↔ ∃ t, es !! i = Some (MCall t c).
Proof.
  unfold calls_made. rewrite list_elem_of_omap. split.
  - intros ([j e] & Hin & He). apply list_elem_of_lookup in Hin as (n & Hn). simpl in He.
    apply lookup_zip_Some in Hn as [Hs He']. apply lookup_seq in Hs as [-> _].
    destruct e as [t c'|t]; [|done]. injection He as -> ->. by exists t.
  - intros (t & Ht). exists (i, MCall t c). split; [|done]. apply list_elem_of_lookup. exists i.
    apply lookup_zip_Some. split; [|done]. apply lookup_seq. split; [done|by eapply lookup_lt_Some].
Qed.

Definition call_in (g : mon_stage) : C :=
  match g with Entering c | Reading c | Writing c _ | Leaving c _ | Returning c _ => c end.

(** Every call under way, and every call that has returned, was made. *)
Definition made (es : list mon_event) (y : mon_sys) : Prop :=
  ticks y = length es ∧
  (∀ t st g, callers y !! t = Some (st, g) → ∃ t', es !! st = Some (MCall t' (call_in g))) ∧
  (∀ st c, returned y !! st = Some c → ∃ t', es !! st = Some (MCall t' (mc_call c))).

Lemma made_go es e y s o t st g :
  made es y → (∃ t', (es ++ [e]) !! st = Some (MCall t' (call_in g))) → made (es ++ [e]) (go_on y s o t st g).
Proof.
  intros (H1 & H2 & H3) Hst. split_and!; simpl.
  - rewrite length_app. simpl. lia.
  - intros t' st' g'. rewrite lookup_insert_Some. intros [[<- [= <- <-]]|[_ Ht]]; [done|].
    destruct (H2 _ _ _ Ht) as (t2 & Ht2). exists t2. by apply lookup_app_l_Some.
  - intros st' c Hc. destruct (H3 _ _ Hc) as (t2 & Ht2). exists t2. by apply lookup_app_l_Some.
Qed.

Lemma made_step es y e y' : made es y → mon_step y e = Some y' → made (es ++ [e]) y'.
Proof.
  intros Hm. pose proof Hm as (H1 & H2 & H3). destruct e as [t c|t]; simpl.
  - destruct (callers y !! t); [done|]. intros [= <-]. apply made_go; [done|]. exists t.
    rewrite H1. by rewrite lookup_app_r, Nat.sub_diag.
  - unfold mon_advance. destruct (callers y !! t) as [[st g]|] eqn:Ht; cbn [mbind option_bind]; [|done].
    destruct (H2 _ _ _ Ht) as (t' & Hc).
    assert (∀ s o g', call_in g' = call_in g → made (es ++ [MStep t]) (go_on y s o t st g')) as Hgo.
    { intros s o g' E. apply made_go; [done|]. exists t'. rewrite E. by apply lookup_app_l_Some. }
    destruct g as [c|c|c s|c r|c r]; simpl in Hc.
    + destruct (mutex_owner y); [done|]. intros [= <-]. by apply Hgo.
    + intros [= <-]. by apply Hgo.
    + destruct (body c s) as [[r s']|]; [|done]. intros [= <-]. by apply Hgo.
    + intros [= <-]. by apply Hgo.
    + intros [= <-]. split_and!; simpl.
      * rewrite length_app. simpl. lia.
      * intros t2 st' g' [_ Ht2]%lookup_delete_Some. destruct (H2 _ _ _ Ht2) as (t3 & Ht3). exists t3.
        by apply lookup_app_l_Some.
      * intros st' c'. rewrite lookup_insert_Some. intros [[<- <-]|[_ Hr]].
        -- exists t'. by apply lookup_app_l_Some.
        -- destruct (H3 _ _ Hr) as (t3 & Ht3). exists t3. by apply lookup_app_l_Some.
Qed.

Lemma made_exec past es y y' : made past y → mon_exec y es = Some y' → made (past ++ es) y'.
Proof.
  revert past y. induction es as [|e es IH]; intros past y Hm; simpl; [intros [= <-]; by rewrite app_nil_r|].
  destruct (mon_step y e) as [y1|] eqn:Hs; cbn [mbind option_bind]; [|done]. intros He.
  pose proof (IH _ _ (made_step _ _ _ _ Hm Hs) He) as H. by rewrite <-app_assoc in H.
Qed.

Lemma made_run s es y : mon_exec (mon_init s) es = Some y → made es y.
Proof. apply (made_exec []). split_and!; [done|..]; simpl; intros *; by rewrite lookup_empty. Qed.

(** The calls in the order, and any other that is under way, were made. *)
Lemma log_made s0 es y log :
  mon_ok s0 y log → made es y → map me_call log ⊆+ map snd (calls_made es) ∧
  ∀ t st g, callers y !! t = Some (st, g) → replied g = None → map me_call log ++ [call_in g] ⊆+ map snd (calls_made es).
Proof.
  intros Hok (H1 & H2 & H3).
  assert (∀ e, e ∈ log → (me_start e, me_call e) ∈ calls_made es) as Hlog.
  { intros e He. apply calls_made_elem. destruct (mo_log _ _ _ Hok e He) as [_ [(t & g & Ht & Hr)|(c & Hc & <- & _)]].
    - destruct (H2 _ _ _ Ht) as (t' & Ht'). exists t'. by destruct g; simplify_eq/=.
    - by apply H3. }
  assert (NoDup (map (λ e, (me_start e, me_call e)) log)) as Hnd.
  { apply (NoDup_fmap_1 fst). change (NoDup (map fst (map (λ e, (me_start e, me_call e)) log))). rewrite map_map. apply Hok. }
  assert (map me_call log = map snd (map (λ e, (me_start e, me_call e)) log)) as Hmap by by rewrite map_map.
  split.
  - rewrite Hmap. apply (fmap_submseteq snd). apply NoDup_submseteq; [done|].
    intros x (e & -> & He)%list_elem_of_fmap. by apply Hlog.
  - intros t st g Ht Hg. change [call_in g] with (map snd [(st, call_in g)]). rewrite Hmap, <-map_app.
    apply (fmap_submseteq snd). apply NoDup_submseteq.
    + apply NoDup_app. split_and!; [done| |apply NoDup_singleton].
      intros x (e & -> & He)%list_elem_of_fmap [= Hst _]%list_elem_of_singleton.
      destruct (mo_log _ _ _ Hok e He) as [_ [(t' & g' & Ht' & Hr)|(c & Hc & _)]]; rewrite Hst in *.
      * assert (t' = t) as -> by by eapply Hok. rewrite Ht in Ht'. injection Ht' as <-. congruence.
      * destruct (mo_thread _ _ _ Hok _ _ _ Ht). congruence.
    + intros x [(e & -> & He)%list_elem_of_fmap| ->%list_elem_of_singleton]%elem_of_app; [by apply Hlog|].
      apply calls_made_elem. by eapply H2.
Qed.

(** ** What threads observe *)

(** [order] is a sequential order of the calls that have returned: it accounts
    for every reply, and no call comes before one that had returned when it was
    made. *)
Definition sequential (s0 : S) (y : mon_sys) (order : list (nat * mon_call)) : Prop :=
  order ≡ₚ map_to_list (returned y) ∧
  seq_run s0 (map (λ x, mc_call x.2) order) = Some (map (λ x, mc_reply x.2) order, members_of y) ∧
  StronglySorted (λ x1 x2, x1.1 < mc_end x2.2) order.

Definition returned_as (y : mon_sys) (e : mon_entry) : nat * mon_call :=
  (me_start e, default (MkMonCall (me_call e) (me_reply e) 0) (returned y !! me_start e)).

(** At any moment the members are those some of the calls made leave, one
    after the other. *)
Lemma monitor_members s0 es y :
  mon_exec (mon_init s0) es = Some y →
  ∃ cs rs, cs ⊆+ map snd (calls_made es) ∧ seq_run s0 cs = Some (rs, members_of y).
Proof.
  intros He. destruct (mon_ok_exec _ _ _ _ _ (mon_ok_init s0) He) as (log & Hok).
  exists (map me_call log), (map me_reply log). split; [by eapply log_made, made_run|apply Hok].
Qed.

(** Calls on a monitor are atomic. *)
Lemma monitor_sequential s0 es y :
  mon_exec (mon_init s0) es = Some y → callers y = ∅ →
  ∃ order, sequential s0 y order ∧ map (λ x, mc_call x.2) order ⊆+ map snd (calls_made es).
Proof.
  intros He Hq. destruct (mon_ok_exec _ _ _ _ _ (mon_ok_init s0) He) as (log & Hok).
  assert (∀ e, e ∈ log → ∃ c, returned y !! me_start e = Some c ∧ returned_as y e = (me_start e, c) ∧
    mc_call c = me_call e ∧ mc_reply c = me_reply e ∧ me_start e < me_commit e < mc_end c) as Hret.
  { intros e Hin. destruct (mo_log _ _ _ Hok e Hin) as [? [(t & g & Ht & _)|(c & Hc & ? & ? & ?)]].
    - by rewrite Hq, lookup_empty in Ht.
    - exists c. unfold returned_as. rewrite Hc. split_and!; try done; lia. }
  assert (map (λ x, mc_call x.2) (map (returned_as y) log) = map me_call log) as Hcalls.
  { rewrite map_map. apply map_ext_in. intros e Hin%list_elem_of_In. by destruct (Hret e Hin) as (c & _ & -> & ? & _). }
  exists (map (returned_as y) log). split; [|rewrite Hcalls; by eapply log_made, made_run]. split_and!.
  - apply NoDup_Permutation.
    + apply (NoDup_fmap_1 fst). change (NoDup (map fst (map (returned_as y) log))). rewrite map_map. apply Hok.
    + apply NoDup_map_to_list.
    + intros [st c]. rewrite elem_of_map_to_list. split.
      * intros (e & Heq & Hin)%list_elem_of_fmap. destruct (Hret e Hin) as (c' & Hc & Hr & _). rewrite Hr in Heq.
        by injection Heq as -> ->.
      * intros Hc. destruct (mo_ret _ _ _ Hok _ _ Hc) as [_ (e & Hin & <-)]. apply list_elem_of_fmap. exists e.
        split; [|done]. destruct (Hret e Hin) as (c' & Hc' & -> & _). by simplify_eq.
  - rewrite Hcalls, map_map. rewrite (map_ext_in _ me_reply); [apply Hok|].
    intros e Hin%list_elem_of_In; by destruct (Hret e Hin) as (c & _ & -> & ? & ? & _).
  - pose proof (mo_sorted _ _ _ Hok) as Hs. clear -Hs Hret. induction Hs as [|e log _ IH Hall]; simpl; constructor.
    + apply IH. intros e' ?. apply Hret. by right.
    + apply Forall_fmap, Forall_forall. intros e2 Hin. rewrite Forall_forall in Hall. simpl.
      destruct (Hret e) as (c & _ & _ & _ & _ & ?); [by left|]. destruct (Hret e2) as (c2 & _ & Hr2 & _ & _ & ?); [by right|].
      specialize (Hall e2 Hin). injection Hr2 as ->. simpl. lia.
Qed.

(** ** Every call returns *)
Definition steps_left (g : mon_stage) : nat :=
  match g with Entering _ => 5 | Reading _ => 4 | Writing _ _ => 3 | Leaving _ _ => 2 | Returning _ _ => 1 end.
Definition work (y : mon_sys) : nat := weigh (λ x, steps_left x.2) (callers y).

Lemma mon_advance_less y t y' : mon_advance y t = Some y' → work y' < work y.
Proof.
  unfold mon_advance, work. destruct (callers y !! t) as [[st g]|] eqn:Ht; cbn [mbind option_bind]; [|done].
  destruct g as [c|c|c s|c r|c r].
  - destruct (mutex_owner y); [done|]. intros [= <-]. apply (weigh_update _ _ _ _ _ Ht). simpl. lia.
  - intros [= <-]. apply (weigh_update _ _ _ _ _ Ht). simpl. lia.
  - destruct (body c s) as [[r s']|]; cbn [mbind option_bind]; [|done].
    intros [= <-]. apply (weigh_update _ _ _ _ _ Ht). simpl. lia.
  - intros [= <-]. apply (weigh_update _ _ _ _ _ Ht). simpl. lia.
  - intros [= <-]. simpl. rewrite (weigh_delete _ (callers y) t _ Ht). simpl. lia.
Qed.

(** The steps thread [t] makes. *)
Fixpoint steps_of (t : nat) (es : list mon_event) : nat :=
  match es with
  | [] => 0
  | MCall _ _ :: es' => steps_of t es'
  | MStep t' :: es' => (if decide (t' = t) then 1 else 0) + steps_of t es'
  end.

(** The calls under way end: some thread can go on as long as there is one; a
    call takes at most five steps of its own thread, whatever other threads do
    or call meanwhile; and when no further call is made, at most five steps for
    each call under way are left until all have returned.  A mutex promises no
    order, so that a thread that waits for it can be overtaken by ever new
    calls. *)
Definition calls_end (y : mon_sys) : Prop :=
  (callers y ≠ ∅ → ∃ t y', mon_step y (MStep t) = Some y') ∧
  (∀ t es y', mon_exec y es = Some y' → (∀ c, MCall t c ∉ es) → steps_of t es ≤ 5) ∧
  ∀ ts y', mon_exec y (map MStep ts) = Some y' → length ts ≤ 5 * size (callers y).

Definition own_left (y : mon_sys) (t : nat) : nat := from_option (λ x, steps_left x.2) 0 (callers y !! t).

(** A thread's own steps use up what is left of its call; no other's do. *)
Lemma own_advance y t u y' :
  mon_advance y t = Some y' → own_left y' u + (if decide (t = u) then 1 else 0) = own_left y u.
Proof.
  unfold mon_advance, own_left. destruct (callers y !! t) as [[st g]|] eqn:Ht; cbn [mbind option_bind]; [|done].
  assert (∀ s o g', callers (go_on y s o t st g') !! u = if decide (t = u) then Some (st, g') else callers y !! u) as Hgo.
  { intros s o g'. simpl. case_decide as E; [subst; apply lookup_insert_eq|by apply lookup_insert_ne]. }
  destruct g as [c|c|c s|c r|c r].
  - destruct (mutex_owner y); [done|]. intros [= <-]. rewrite Hgo. case_decide; [subst; rewrite Ht|]; simpl; lia.
  - intros [= <-]. rewrite Hgo. case_decide; [subst; rewrite Ht|]; simpl; lia.
  - destruct (body c s) as [[r s']|]; cbn [mbind option_bind]; [|done].
    intros [= <-]. rewrite Hgo. case_decide; [subst; rewrite Ht|]; simpl; lia.
  - intros [= <-]. rewrite Hgo. case_decide; [subst; rewrite Ht|]; simpl; lia.
  - intros [= <-]. simpl. case_decide; [subst; rewrite lookup_delete_eq, Ht; done|].
    rewrite lookup_delete_ne by done. lia.
Qed.

Lemma own_steps t es : ∀ y y',
  mon_exec y es = Some y' → (∀ c, MCall t c ∉ es) → steps_of t es + own_left y' t = own_left y t.
Proof.
  induction es as [|e es IH]; intros y y'; simpl; [by intros [= <-]|].
  destruct (mon_step y e) as [y1|] eqn:Hs; cbn [mbind option_bind]; [|done]. intros He Hno.
  pose proof (IH y1 y' He (λ c Hc, Hno c (list_elem_of_further _ _ _ Hc))) as Hrest.
  destruct e as [u c|u]; simpl in Hs.
  - destruct (callers y !! u) eqn:Hu; [done|]. injection Hs as <-. rewrite Hrest. unfold own_left. simpl.
    rewrite lookup_insert_ne; [done|]. intros ->. apply (Hno c). by left.
  - apply (own_advance _ _ t) in Hs. lia.
Qed.

(** When every sequential run of calls that were made is defined, threads never
    all wait, none meets undefined behaviour, and the calls end. *)
Lemma monitor_returns s0 es y :
  mon_exec (mon_init s0) es = Some y →
  (∀ cs c rs s, cs ++ [c] ⊆+ map snd (calls_made es) → seq_run s0 cs = Some (rs, s) → is_Some (body c s)) →
  calls_end y.
Proof.
  intros He Hb. destruct (mon_ok_exec _ _ _ _ _ (mon_ok_init s0) He) as (log & Hok).
  destruct (log_made _ _ _ _ Hok (made_run _ _ _ He)) as [_ Hmade].
  assert (∀ t st c s, callers y !! t = Some (st, Writing c s) → is_Some (mon_advance y t)) as Hwr.
  { intros t st c s Ht. unfold mon_advance. rewrite Ht. cbn [mbind option_bind].
    rewrite (mo_read _ _ _ Hok _ _ _ _ Ht).
    destruct (Hb _ c _ _ (Hmade t st _ Ht eq_refl) (mo_run _ _ _ Hok)) as [[r s'] ->]. by eexists. }
  split_and!.
  - intros Hne. enough (∃ t, is_Some (mon_advance y t)) as (t & y' & Hy'); [by exists t, y'|].
    destruct (mutex_owner y) as [t|] eqn:Ho.
    + exists t. pose proof Ho as (st & g & Ht & Hg)%(mo_owner _ _ _ Hok).
      destruct g as [c|c|c s|c r|c r]; try done; [|by eapply Hwr|]; unfold mon_advance; rewrite Ht; by eexists.
    + apply map_choose in Hne as (t & [st g] & Ht). exists t.
      destruct g as [c|c|c s|c r|c r]; [| |by eapply Hwr|..]; unfold mon_advance; rewrite Ht, ?Ho; by eexists.
  - intros t es' y' He' Hno. pose proof (own_steps t es' _ _ He' Hno). unfold own_left in *.
    destruct (callers y !! t) as [[st []]|]; simpl in *; lia.
  - intros ts y'. enough (mon_exec y (map MStep ts) = Some y' → length ts + work y' ≤ work y) as H.
    { intros H1%H. pose proof (weigh_bound (λ x, steps_left x.2) (callers y) 5) as Hw. unfold work in *.
      assert (∀ x : nat * mon_stage, steps_left x.2 ≤ 5) as Hx by (intros [? []]; simpl; lia).
      specialize (Hw Hx). lia. }
    clear. revert y. induction ts as [|t ts IH]; intros y; simpl; [intros [= <-]; lia|].
    destruct (mon_advance y t) as [y1|] eqn:Ha; cbn [mbind option_bind]; [|done]. intros H1%IH.
    apply mon_advance_less in Ha. lia.
Qed.
End monitor.

Arguments mon_stage : clear implicits.
Arguments mon_sys : clear implicits.
Arguments mon_call : clear implicits.
Arguments mon_event : clear implicits.
