(* ===== verification/Core.v ===== *)
(** * Core: [core/types.h], [core/error.h], [core/clock.cpp], [core/event.h]

    Sentinels and error codes, [Result<T>], the simulation clock and the
    observer list. *)
From S2P Require Import Prelude.

(** ** Sentinel constants *)
Definition INVALID_PID : Z := 0.
Definition NULL_ADDRESS : Z := 0xFFFFFFFF.
Definition INVALID_FRAME : Z := 0xFFFFFFFF.
Definition INVALID_INODE_ID : Z := 0.
Definition REGISTER_COUNT : nat := 16.
Definition DEFAULT_TIME_SLICE : nat := 4.
Definition MAX_PROCESSES : nat := 1024.

(** ** Error codes *)
Module ErrorCode.
Inductive t :=
| Ok | OutOfMemory | InvalidPid | InvalidAddress | DivisionByZero
| InvalidInstruction | SegmentationFault | DeviceError | ProcessNotFound
| PermissionDenied | Timeout | DeadlockDetected | InvalidState
| InvalidArgument | ResourceBusy | NotFound | AlreadyExists | BufferFull
| BufferEmpty | EndOfFile | NotImplemented.

#[global] Instance t_eq_dec : EqDecision t.
Proof. solve_decision. Defined.
End ErrorCode.

Definition errorCodeToString (code : ErrorCode.t) : string :=
  match code with
  | ErrorCode.Ok => "Ok"
  | ErrorCode.OutOfMemory => "OutOfMemory"
  | ErrorCode.InvalidPid => "InvalidPid"
  | ErrorCode.InvalidAddress => "InvalidAddress"
  | ErrorCode.DivisionByZero => "DivisionByZero"
  | ErrorCode.InvalidInstruction => "InvalidInstruction"
  | ErrorCode.SegmentationFault => "SegmentationFault"
  | ErrorCode.DeviceError => "DeviceError"
  | ErrorCode.ProcessNotFound => "ProcessNotFound"
  | ErrorCode.PermissionDenied => "PermissionDenied"
  | ErrorCode.Timeout => "Timeout"
  | ErrorCode.DeadlockDetected => "DeadlockDetected"
  | ErrorCode.InvalidState => "InvalidState"
  | ErrorCode.InvalidArgument => "InvalidArgument"
  | ErrorCode.ResourceBusy => "ResourceBusy"
  | ErrorCode.NotFound => "NotFound"
  | ErrorCode.AlreadyExists => "AlreadyExists"
  | ErrorCode.BufferFull => "BufferFull"
  | ErrorCode.BufferEmpty => "BufferEmpty"
  | ErrorCode.EndOfFile => "EndOfFile"
  | ErrorCode.NotImplemented => "NotImplemented"
  end.

(** ** [Result<T>]

    [Result<void>] is [Result unit]; its [Ok] code is the [ok] constructor. *)
Inductive Result (A : Type) :=
| ok (value : A)
| error (code : ErrorCode.t).
Arguments ok {A} value.
Arguments error {A} code.

#[global] Instance Result_eq_dec `{EqDecision A} : EqDecision (Result A).
Proof. solve_decision. Defined.

Definition isOk {A} (r : Result A) : bool :=
  match r with ok _ => true | error _ => false end.
Definition isError {A} (r : Result A) : bool :=
  match r with ok _ => false | error _ => true end.
Definition valueOr {A} (r : Result A) (defaultValue : A) : A :=
  match r with ok v => v | error _ => defaultValue end.

(** The code's early returns: a failing call ends the operation with the
    callee's error and the state the callee left. *)
Declare Scope contur_scope.
Delimit Scope contur_scope with contur.
Notation "'let*' ( x , s ) := c 'in' k" :=
  (match c with (ok x, s) => k | (error e, s) => (error e, s) end)
  (at level 10, x name, s name, c at level 100, k at level 200) : contur_scope.
Open Scope contur_scope.

(** ** The simulation clock *)
Module SimulationClock.
Record t := { currentTick : Z }.
Definition init : t := {| currentTick := 0 |}.
Definition now (c : t) : Z := currentTick c.
Definition tick (c : t) : t := {| currentTick := u64 (currentTick c + 1) |}.
Definition reset (c : t) : t := {| currentTick := 0 |}.

(** [n] ticks in a row. *)
Lemma iter_tick_now n c :
  now c = u64 (now c) → now (Nat.iter n tick c) = u64 (now c + Z.of_nat n).
Proof.
  intros Hc. induction n as [|n IH]; simpl.
  - by rewrite Z.add_0_r.
  - unfold now in *. rewrite IH, u64_add_l. f_equal. lia.
Qed.
End SimulationClock.

(** ** [Event]: an ordered list of subscribers *)
Module Event.
Section event.
Context {Callback : Type}.

Record t := { subscribers : list (Z * Callback); nextId : Z }.
Definition init : t := {| subscribers := []; nextId := 1 |}.

Definition subscribe (e : t) (callback : Callback) : Z * t :=
  (nextId e,
   {| subscribers := subscribers e ++ [(nextId e, callback)];
      nextId := u64 (nextId e + 1) |}).

(** [find_if] then [erase]: only the first match goes. *)
Fixpoint erase_first (id : Z) (l : list (Z * Callback)) : option (list (Z * Callback)) :=
  match l with
  | [] => None
  | (i, c) :: l' =>
      if (i =? id)%Z then Some l' else cons (i, c) <$> erase_first id l'
  end.

Definition unsubscribe (e : t) (id : Z) : bool * t :=
  match erase_first id (subscribers e) with
  | Some l => (true, {| subscribers := l; nextId := nextId e |})
  | None => (false, e)
  end.

(** The callbacks [emit] invokes, in order. *)
Definition emit (e : t) : list Callback := (subscribers e).*2.
Definition subscriberCount (e : t) : nat := length (subscribers e).
Definition clear (e : t) : t := {| subscribers := []; nextId := nextId e |}.
End event.
Arguments t : clear implicits.
End Event.
