(* ===== verification/Process.v ===== *)
(** * Process: [process/state.h], [process/priority.h], [process/pcb.cpp]

    The life cycle of a process and the bookkeeping the scheduler keeps per
    process. *)
From S2P Require Import Prelude Core.
Local Open Scope Z_scope.

(** ** Process states *)
Inductive ProcessState := New | Ready | Running | Blocked | Suspended | Terminated.

#[global] Instance ProcessState_eq_dec : EqDecision ProcessState.
Proof. solve_decision. Defined.

Definition isValidTransition (from to : ProcessState) : bool :=
  match from with
  | New => bool_decide (to = Ready)
  | Ready => bool_decide (to = Running) || bool_decide (to = Suspended)
  | Running =>
      bool_decide (to = Ready) || bool_decide (to = Blocked) || bool_decide (to = Terminated)
  | Blocked => bool_decide (to = Ready) || bool_decide (to = Suspended)
  | Suspended => bool_decide (to = Ready)
  | Terminated => false
  end.

Definition processStateName (s : ProcessState) : string :=
  match s with
  | New => "New" | Ready => "Ready" | Running => "Running"
  | Blocked => "Blocked" | Suspended => "Suspended" | Terminated => "Terminated"
  end.

(** ** Priorities *)
Inductive PriorityLevel :=
  Realtime | High | AboveNormal | Normal | BelowNormal | Low | Idle.

#[global] Instance PriorityLevel_eq_dec : EqDecision PriorityLevel.
Proof. solve_decision. Defined.

(** [static_cast<std::int8_t>(level)]. *)
Definition level_int (l : PriorityLevel) : Z :=
  match l with
  | Realtime => 0 | High => 1 | AboveNormal => 2 | Normal => 3
  | BelowNormal => 4 | Low => 5 | Idle => 6
  end.

#[global] Instance level_int_inj : Inj (=) (=) level_int.
Proof. by intros [] []. Qed.

Definition priorityLevelName (l : PriorityLevel) : string :=
  match l with
  | Realtime => "Realtime" | High => "High" | AboveNormal => "AboveNormal"
  | Normal => "Normal" | BelowNormal => "BelowNormal" | Low => "Low" | Idle => "Idle"
  end.

Definition NICE_MIN : Z := -20.
Definition NICE_MAX : Z := 19.
Definition NICE_DEFAULT : Z := 0.

Definition clampNice (value : Z) : Z :=
  if value <? NICE_MIN then NICE_MIN
  else if NICE_MAX <? value then NICE_MAX
  else value.

Record Priority := MkPriority {
  base : PriorityLevel;
  effective : PriorityLevel;
  nice : Z
}.

Definition Priority_default : Priority := MkPriority Normal Normal NICE_DEFAULT.
Definition Priority_of_level (level : PriorityLevel) : Priority :=
  MkPriority level level NICE_DEFAULT.
Definition Priority_make (b e : PriorityLevel) (n : Z) : Priority :=
  MkPriority b e (clampNice n).

Definition isHigherThan (p other : Priority) : bool :=
  if negb (bool_decide (effective p = effective other))
  then level_int (effective p) <? level_int (effective other)
  else nice p <? nice other.

(** ** The process control block *)
Record ProcessTiming := MkTiming {
  arrivalTime : Z;
  startTime : Z;
  finishTime : Z;
  totalCpuTime : Z;
  totalWaitTime : Z;
  totalBlockedTime : Z;
  lastStateChange : Z;
  estimatedBurst : Z;
  remainingBurst : Z
}.

Record ProcessAddressInfo := MkAddressInfo {
  virtualBase : Z;
  codeStart : Z;
  addrCodeSize : Z;
  slot : Z
}.

Record PCB := MkPCB {
  pcb_id : Z;
  pcb_name : string;
  state : ProcessState;
  priority : Priority;
  timing : ProcessTiming;
  addressInfo : ProcessAddressInfo
}.

(** The constructor; [None] when its assertion on the id fails. *)
Definition PCB_make (id : Z) (name : string) (prio : Priority) (arrival : Z) : option PCB :=
  if id =? INVALID_PID then None else
  Some {| pcb_id := id; pcb_name := name; state := New; priority := prio;
          timing := MkTiming arrival 0 0 0 0 0 arrival 0 0;
          addressInfo := MkAddressInfo NULL_ADDRESS NULL_ADDRESS 0 0 |}.

(** The bookkeeping of the state being left. *)
Definition charge_elapsed (s : ProcessState) (elapsed : Z) (t : ProcessTiming) : ProcessTiming :=
  let '(MkTiming a st f c w b l e r) := t in
  match s with
  | Running => MkTiming a st f (u64 (c + elapsed)) w b l e r
  | Ready => MkTiming a st f c (u64 (w + elapsed)) b l e r
  | Blocked => MkTiming a st f c w (u64 (b + elapsed)) l e r
  | _ => t
  end.

Definition record_start (newState : ProcessState) (now : Z) (t : ProcessTiming) : ProcessTiming :=
  let '(MkTiming a st f c w b l e r) := t in
  if bool_decide (newState = Running) && (st =? 0) then MkTiming a now f c w b l e r else t.

Definition record_finish (newState : ProcessState) (now : Z) (t : ProcessTiming) : ProcessTiming :=
  let '(MkTiming a st f c w b l e r) := t in
  if bool_decide (newState = Terminated) then MkTiming a st now c w b l e r else t.

Definition set_last_change (now : Z) (t : ProcessTiming) : ProcessTiming :=
  let '(MkTiming a st f c w b _ e r) := t in MkTiming a st f c w b now e r.

Definition setState (p : PCB) (newState : ProcessState) (currentTick : Z) : bool * PCB :=
  if negb (isValidTransition (state p) newState) then (false, p) else
  let elapsed := u64 (currentTick - lastStateChange (timing p)) in
  let t1 := charge_elapsed (state p) elapsed (timing p) in
  let t2 := record_start newState currentTick t1 in
  let t3 := record_finish newState currentTick t2 in
  (true, {| pcb_id := pcb_id p; pcb_name := pcb_name p; state := newState;
            priority := priority p; timing := set_last_change currentTick t3;
            addressInfo := addressInfo p |}).

Definition with_priority (p : PCB) (prio : Priority) : PCB :=
  MkPCB (pcb_id p) (pcb_name p) (state p) prio (timing p) (addressInfo p).
Definition with_timing (p : PCB) (t : ProcessTiming) : PCB :=
  MkPCB (pcb_id p) (pcb_name p) (state p) (priority p) t (addressInfo p).
Definition with_addressInfo (p : PCB) (a : ProcessAddressInfo) : PCB :=
  MkPCB (pcb_id p) (pcb_name p) (state p) (priority p) (timing p) a.

Definition setPriority := with_priority.
Definition setEffectivePriority (p : PCB) (level : PriorityLevel) : PCB :=
  with_priority p (MkPriority (base (priority p)) level (nice (priority p))).
Definition setNice (p : PCB) (n : Z) : PCB :=
  with_priority p (MkPriority (base (priority p)) (effective (priority p)) (clampNice n)).

Definition set_estimatedBurst (p : PCB) (v : Z) : PCB :=
  let '(MkTiming a st f c w b l _ r) := timing p in
  with_timing p (MkTiming a st f c w b l v r).

Definition addCpuTime (p : PCB) (ticks : Z) : PCB :=
  with_timing p (charge_elapsed Running ticks (timing p)).
Definition addWaitTime (p : PCB) (ticks : Z) : PCB :=
  with_timing p (charge_elapsed Ready ticks (timing p)).
Definition addBlockedTime (p : PCB) (ticks : Z) : PCB :=
  with_timing p (charge_elapsed Blocked ticks (timing p)).

(** ** Life-cycle specification

    The legal moves as a step relation, and the time a history spends in a
    state: the declarative counterpart of the accumulators of [ProcessTiming]. *)
Inductive lifecycle : ProcessState → ProcessState → Prop :=
| admit_step : lifecycle New Ready
| schedule_step : lifecycle Ready Running
| preempt_step : lifecycle Running Ready
| block_step : lifecycle Running Blocked
| exit_step : lifecycle Running Terminated
| wake_step : lifecycle Blocked Ready
| swap_out_step s : s = Ready ∨ s = Blocked → lifecycle s Suspended
| swap_in_step : lifecycle Suspended Ready.

(** A request to change state at a tick; [run_requests] applies them in order
    with [setState], rejected ones changing nothing. *)
Definition request : Type := ProcessState * Z.
Definition run_requests (p : PCB) (reqs : list request) : PCB :=
  foldl (λ p r, (setState p r.1 r.2).2) p reqs.

(** The time the history of accepted requests spends in state [s], [cur] and
    [since] being the current state and the tick it was entered at. *)
Fixpoint time_in (s cur : ProcessState) (since : Z) (reqs : list request) : Z :=
  match reqs with
  | [] => 0
  | (to, t) :: reqs' =>
      if isValidTransition cur to
      then (if decide (cur = s) then t - since else 0) + time_in s to t reqs'
      else time_in s cur since reqs'
  end.

(** ** Lemmas *)
Lemma isValidTransition_lifecycle from to :
  isValidTransition from to = true ↔ lifecycle from to.
Proof.
  split.
  - destruct from, to; simpl; intros; try done; try (by constructor; auto).
  - destruct 1 as [| | | | | |s [-> | ->]|]; done.
Qed.

Lemma setState_id p to t : pcb_id (setState p to t).2 = pcb_id p.
Proof. unfold setState. by destruct (negb _). Qed.
Lemma setState_priority p to t : priority (setState p to t).2 = priority p.
Proof. unfold setState. by destruct (negb _). Qed.

Lemma setState_ok p to t p' :
  setState p to t = (true, p') → lifecycle (state p) to ∧ state p' = to.
Proof.
  unfold setState. destruct (isValidTransition _ _) eqn:E; simpl; [|done].
  intros [= <-]. by rewrite <-isValidTransition_lifecycle.
Qed.
Lemma setState_rejected p to t : (setState p to t).1 = false → (setState p to t).2 = p.
Proof. unfold setState. by destruct (negb _). Qed.
Lemma setState_success p to t :
  isValidTransition (state p) to = true → (setState p to t).1 = true.
Proof. unfold setState. by intros ->. Qed.

Section setState_timing.
Context (p : PCB) (to : ProcessState) (now : Z).
Hypothesis Hvalid : isValidTransition (state p) to = true.
Let t' := timing (setState p to now).2.
Let elapsed := now - lastStateChange (timing p).

Lemma setState_lastStateChange : lastStateChange t' = now.
Proof.
  subst t'. unfold setState. rewrite Hvalid. simpl.
  destruct (timing p), (state p), to; simpl; by repeat case_match.
Qed.
Lemma setState_arrivalTime : arrivalTime t' = arrivalTime (timing p).
Proof.
  subst t'. unfold setState. rewrite Hvalid. simpl.
  destruct (timing p), (state p), to; simpl; by repeat case_match.
Qed.
Lemma setState_cpu :
  totalCpuTime t' = if decide (state p = Running)
    then u64 (totalCpuTime (timing p) + elapsed) else totalCpuTime (timing p).
Proof.
  subst t' elapsed. unfold setState. rewrite Hvalid. simpl.
  destruct (timing p), (state p), to; simpl;
    rewrite ?u64_add_r; by repeat case_match.
Qed.
Lemma setState_wait :
  totalWaitTime t' = if decide (state p = Ready)
    then u64 (totalWaitTime (timing p) + elapsed) else totalWaitTime (timing p).
Proof.
  subst t' elapsed. unfold setState. rewrite Hvalid. simpl.
  destruct (timing p), (state p), to; simpl;
    rewrite ?u64_add_r; by repeat case_match.
Qed.
Lemma setState_blocked :
  totalBlockedTime t' = if decide (state p = Blocked)
    then u64 (totalBlockedTime (timing p) + elapsed) else totalBlockedTime (timing p).
Proof.
  subst t' elapsed. unfold setState. rewrite Hvalid. simpl.
  destruct (timing p), (state p), to; simpl;
    rewrite ?u64_add_r; by repeat case_match.
Qed.
End setState_timing.

Lemma run_requests_cons p r reqs :
  run_requests p (r :: reqs) = run_requests (setState p r.1 r.2).2 reqs.
Proof. done. Qed.

(** One accumulator of [ProcessTiming]: any field that [setState] advances by
    the elapsed time exactly when it leaves state [s]. *)
Lemma accumulator_accounts (field : ProcessTiming → Z) (s : ProcessState) :
  (∀ p to now, isValidTransition (state p) to = true →
     field (timing (setState p to now).2) =
     if decide (state p = s) then u64 (field (timing p) + (now - lastStateChange (timing p)))
     else field (timing p)) →
  ∀ reqs p, field (timing p) = u64 (field (timing p)) →
    field (timing (run_requests p reqs)) =
    u64 (field (timing p) + time_in s (state p) (lastStateChange (timing p)) reqs).
Proof.
  intros Hfield reqs. induction reqs as [|[to t] reqs IH]; intros p Hp.
  { simpl. by rewrite Z.add_0_r. }
  rewrite run_requests_cons. simpl.
  destruct (isValidTransition (state p) to) eqn:E.
  - pose proof (setState_success p to t E) as Hs.
    destruct (setState_ok p to t (setState p to t).2) as [_ Hst];
      [by rewrite <-Hs, <-surjective_pairing|].
    rewrite IH.
    + rewrite Hst, setState_lastStateChange, Hfield by done.
      case_decide; rewrite ?u64_add_l; f_equal; lia.
    + rewrite Hfield by done. case_decide; [|done].
      unfold u64. by rewrite Z.mod_mod.
  - unfold setState. rewrite E. simpl. by apply IH.
Qed.

Definition all_states : list ProcessState :=
  [New; Ready; Running; Blocked; Suspended; Terminated].

Lemma time_in_total cur since reqs p :
  state p = cur → lastStateChange (timing p) = since →
  foldr (λ s acc, time_in s cur since reqs + acc) 0 all_states =
  lastStateChange (timing (run_requests p reqs)) - since.
Proof.
  revert cur since p. induction reqs as [|[to t] reqs IH]; intros cur since p Hs Hl.
  { simpl. lia. }
  rewrite run_requests_cons. simpl.
  destruct (isValidTransition cur to) eqn:E; subst cur.
  - pose proof (setState_success p to t E) as Hok.
    destruct (setState_ok p to t (setState p to t).2) as [_ Hst];
      [by rewrite <-Hok, <-surjective_pairing|].
    specialize (IH to t (setState p to t).2 Hst (setState_lastStateChange _ _ _ E)).
    simpl in IH. destruct (state p); simpl; lia.
  - unfold setState. rewrite E. simpl. by apply (IH (state p) since p).
Qed.

(** C25: the accumulated times of a process are exact.  For a freshly created
    PCB and any sequence of state-change requests (illegal ones are rejected by
    [setState]), the totals of CPU, waiting and blocked time are, modulo 2^64,
    the time the history spends in Running, Ready and Blocked, and the times
    spent in the six states add up to the age of the process at its last
    change. *)
Theorem pcb_time_accounting id name prio arrival p reqs :
  PCB_make id name prio arrival = Some p →
  let t := timing (run_requests p reqs) in
  totalCpuTime t = u64 (time_in Running New arrival reqs) ∧
  totalWaitTime t = u64 (time_in Ready New arrival reqs) ∧
  totalBlockedTime t = u64 (time_in Blocked New arrival reqs) ∧
  foldr (λ s acc, time_in s New arrival reqs + acc) 0 all_states =
    lastStateChange t - arrival.
Proof.
  unfold PCB_make. case_match; intros [= <-]. simpl.
  split_and!.
  - by rewrite (accumulator_accounts totalCpuTime Running setState_cpu).
  - by rewrite (accumulator_accounts totalWaitTime Ready setState_wait).
  - by rewrite (accumulator_accounts totalBlockedTime Blocked setState_blocked).
  - by apply (time_in_total New).
Qed.

Lemma pcb_time_accounting_witness :
  let reqs := [(Ready, 3); (Blocked, 4); (Running, 5); (Ready, 9); (Running, 10);
               (Blocked, 17)] in
  ∃ p, PCB_make 1 "init" Priority_default 2 = Some p ∧
    totalCpuTime (timing (run_requests p reqs)) = 11 ∧
    totalWaitTime (timing (run_requests p reqs)) = 3.
Proof.
  eexists. split; [reflexivity|].
  destruct (pcb_time_accounting 1 "init" Priority_default 2 _
    [(Ready, 3); (Blocked, 4); (Running, 5); (Ready, 9); (Running, 10); (Blocked, 17)]
    eq_refl) as (Hc & Hw & _ & _).
  split; [exact Hc | exact Hw].
Defined.
