(* ===== verification/BlockAlloc.v ===== *)
(** * BlockAlloc: [fs/block_allocator.cpp] and [fs/file_descriptor.cpp]

    The bitmap allocator of disk blocks and the table of open descriptors. *)
From S2P Require Import Prelude Core.

Module BlockAllocator.

Record t := mk { freeBitmap : list bool; freeCount : nat }.

Definition make (totalBlocks : nat) : t :=
  {| freeBitmap := replicate totalBlocks true; freeCount := totalBlocks |}.

(** The scan of [allocate]: the first free index. *)
Fixpoint first_free (l : list bool) : option nat :=
  match l with
  | [] => None
  | true :: _ => Some 0
  | false :: l' => S <$> first_free l'
  end.

Definition allocate (a : t) : Result nat * t :=
  if freeCount a =? 0 then (error ErrorCode.OutOfMemory, a) else
  match first_free (freeBitmap a) with
  | Some i =>
      (ok i, {| freeBitmap := <[i := false]> (freeBitmap a); freeCount := freeCount a - 1 |})
  | None => (error ErrorCode.OutOfMemory, a)
  end.

Definition free (a : t) (blockIndex : nat) : Result unit * t :=
  match freeBitmap a !! blockIndex with
  | None => (error ErrorCode.InvalidAddress, a)
  | Some true => (error ErrorCode.InvalidState, a)
  | Some false =>
      (ok tt, {| freeBitmap := <[blockIndex := true]> (freeBitmap a);
                 freeCount := freeCount a + 1 |})
  end.

Definition isFree (a : t) (blockIndex : nat) : bool :=
  match freeBitmap a !! blockIndex with Some b => b | None => false end.
Definition totalBlocks (a : t) : nat := length (freeBitmap a).
Definition freeBlocks (a : t) : nat := freeCount a.
Definition reset (a : t) : t :=
  {| freeBitmap := replicate (length (freeBitmap a)) true;
     freeCount := length (freeBitmap a) |}.

(** The counter agrees with the bitmap. *)
Definition inv (a : t) : Prop := freeCount a = count_true (freeBitmap a).

Lemma first_free_Some l i :
  first_free l = Some i ↔ l !! i = Some true ∧ ∀ j, j < i → l !! j = Some false.
Proof.
  revert i. induction l as [|[] l IH]; intros i; simpl.
  - split; [done|]. intros [? _]. done.
  - split; [intros [= <-]; split; [done|lia]|].
    intros [Hi Hlt]. destruct i as [|i]; [done|]. by specialize (Hlt 0 ltac:(lia)).
  - rewrite fmap_Some. split.
    + intros (j & [Hj Hlt]%IH & ->). split; [done|]. intros [|k] ?; [done|]. apply Hlt. lia.
    + intros [Hi Hlt]. destruct i as [|i]; [done|]. exists i. split; [|done].
      apply IH. split; [done|]. intros j ?. apply (Hlt (S j)). lia.
Qed.
Lemma first_free_None l : first_free l = None ↔ ∀ i : nat, l !! i ≠ Some true.
Proof.
  induction l as [|[] l IH]; simpl; [done|..].
  - split; [done|]. intros H. by specialize (H 0).
  - rewrite fmap_None, IH. split; intros H; [intros [|i]; [done|apply H]|].
    intros i. apply (H (S i)).
Qed.

Lemma inv_make n : inv (make n).
Proof. unfold inv. simpl. by rewrite count_true_replicate. Qed.

(** [allocate] on a consistent allocator fails exactly when nothing is free,
    and otherwise takes the lowest free block. *)
Lemma allocate_spec a :
  inv a →
  match allocate a with
  | (ok i, a') => freeBitmap a !! i = Some true ∧ (∀ j, j < i → freeBitmap a !! j = Some false) ∧
      freeBitmap a' = <[i := false]> (freeBitmap a) ∧ freeCount a = S (freeCount a') ∧ inv a'
  | (error e, a') => e = ErrorCode.OutOfMemory ∧ a' = a ∧ freeCount a = 0
  end.
Proof.
  intros Hinv. unfold allocate. destruct (Nat.eqb_spec (freeCount a) 0) as [|Hne]; [done|].
  destruct (first_free _) as [i|] eqn:E; simpl.
  - apply first_free_Some in E as [Hi Hlt]. split_and!; try done; [lia|].
    unfold inv in *. simpl. pose proof (count_true_insert _ _ false _ Hi). simpl in *. lia.
  - exfalso. apply Hne. rewrite first_free_None in E. unfold inv in Hinv.
    by rewrite Hinv, count_true_zero.
Qed.

Lemma free_spec a i :
  inv a →
  match free a i with
  | (ok _, a') => freeBitmap a !! i = Some false ∧
      freeBitmap a' = <[i := true]> (freeBitmap a) ∧ freeCount a' = S (freeCount a) ∧ inv a'
  | (error e, a') => a' = a ∧ freeBitmap a !! i ≠ Some false
  end.
Proof.
  intros Hinv. unfold free. destruct (freeBitmap a !! i) as [[]|] eqn:E; simpl; try done.
  split_and!; try done; [lia|].
  unfold inv in *. simpl. pose proof (count_true_insert _ _ true _ E). simpl in *. lia.
Qed.

Lemma free_allocated a i :
  freeBitmap a !! i = Some false →
  free a i = (ok tt, {| freeBitmap := <[i := true]> (freeBitmap a);
                        freeCount := freeCount a + 1 |}).
Proof. unfold free. by intros ->. Qed.

End BlockAllocator.

(** ** Open modes

    [enum class OpenMode : std::uint8_t], a set of flags. *)
Module OpenMode.
Definition None : Z := 0.
Definition Read : Z := 1.
Definition Write : Z := 2.
Definition Create : Z := 4.
Definition Truncate : Z := 8.
Definition Append : Z := 16.
Definition or_mode (lhs rhs : Z) : Z := Z.lor lhs rhs.
Definition and_mode (lhs rhs : Z) : Z := Z.land lhs rhs.
End OpenMode.

Definition hasOpenMode (value flag : Z) : bool :=
  negb (OpenMode.and_mode value flag =? 0)%Z.

(** ** Descriptors *)
Record OpenFileState := MkOpenFile { inodeId : Z; offset : nat; mode : Z }.

Module FileDescriptorTable.

Record t := mk { entries : gmap Z OpenFileState; nextFd : Z }.
Definition init : t := {| entries := ∅; nextFd := 0 |}.

(** [nextFd] is an [int32_t]: [nextFd++] is undefined at its maximum. *)
Definition open (ft : t) (st : OpenFileState) : option (Result Z * t) :=
  let fd := nextFd ft in
  if (fd =? INT_MAX)%Z then None else
  Some (ok fd,
   {| entries := emplace fd st (entries ft);
      nextFd := (nextFd ft + 1)%Z |}).

Definition close (ft : t) (fd : Z) : Result unit * t :=
  match entries ft !! fd with
  | None => (error ErrorCode.NotFound, ft)
  | Some _ => (ok tt, {| entries := delete fd (entries ft); nextFd := nextFd ft |})
  end.

Definition get (ft : t) (fd : Z) : Result OpenFileState :=
  match entries ft !! fd with
  | None => error ErrorCode.NotFound
  | Some st => ok st
  end.

Definition set (ft : t) (fd : Z) (st : OpenFileState) : Result unit * t :=
  match entries ft !! fd with
  | None => (error ErrorCode.NotFound, ft)
  | Some _ => (ok tt, {| entries := <[fd := st]> (entries ft); nextFd := nextFd ft |})
  end.

Definition contains (ft : t) (fd : Z) : bool :=
  match entries ft !! fd with None => false | Some _ => true end.
Definition openCount (ft : t) : nat := size (entries ft).

(** Every descriptor handed out is below the counter. *)
Definition fd_inv (ft : t) : Prop := ∀ fd st, entries ft !! fd = Some st → (fd < nextFd ft)%Z.

Lemma fd_inv_init : fd_inv init.
Proof. intros fd st. simpl. by rewrite lookup_empty. Qed.

Lemma open_fresh ft st :
  fd_inv ft → (nextFd ft < INT_MAX)%Z → entries ft !! nextFd ft = None ∧
  let ft' := {| entries := <[nextFd ft := st]> (entries ft); nextFd := (nextFd ft + 1)%Z |} in
  open ft st = Some (ok (nextFd ft), ft') ∧ fd_inv ft'.
Proof.
  intros Hinv Hmax.
  assert (entries ft !! nextFd ft = None) as Hn.
  { destruct (entries ft !! nextFd ft) eqn:E; [|done]. apply Hinv in E. lia. }
  split; [done|]. unfold open. rewrite emplace_fresh, (proj2 (Z.eqb_neq _ _)) by (done || lia). split; [done|].
  intros fd st' Hl. simpl in *. destruct (decide (fd = nextFd ft)) as [->|]; [lia|].
  rewrite lookup_insert_ne in Hl by done. apply Hinv in Hl. lia.
Qed.

Lemma fd_inv_close ft fd : fd_inv ft → fd_inv (close ft fd).2.
Proof.
  intros Hinv. unfold close. case_match; [|done]. intros fd' st' Hl. simpl in *.
  apply lookup_delete_Some in Hl as [_ Hl]. eauto.
Qed.
Lemma fd_inv_set ft fd st : fd_inv ft → fd_inv (set ft fd st).2.
Proof.
  intros Hinv. unfold set. case_match; [|done]. intros fd' st' Hl. simpl in *.
  destruct (decide (fd = fd')) as [->|]; [eauto|]. rewrite lookup_insert_ne in Hl by done. eauto.
Qed.

End FileDescriptorTable.
