(* ===== verification/SimpleFs.v ===== *)
(** * SimpleFs: [fs/simple_fs.cpp]

    The in-memory file system: path resolution over a table of inodes, file
    data in fixed-size disk blocks, the open-file operations. *)
From Stdlib Require Import Ascii String.
From S2P Require Import Prelude Core BlockAlloc.

Notation byte := Corelib.Init.Byte.byte.
Notation zero_byte := Corelib.Init.Byte.x00.

(** ** Paths *)
Definition ROOT_INODE_ID : Z := 1.

Definition is_slash (c : ascii) : bool := Ascii.eqb c "/"%char.

(** [while (path[start] == '/') ++start], the path from [start] on. *)
Fixpoint skip_slashes (s : string) : string :=
  match s with
  | EmptyString => EmptyString
  | String c s' => if is_slash c then skip_slashes s' else s
  end.

(** The text before the next slash and what follows it, if there is one. *)
Fixpoint cut_at_slash (s : string) : string * option string :=
  match s with
  | EmptyString => (EmptyString, None)
  | String c s' =>
      if is_slash c then (EmptyString, Some s')
      else let '(tok, rest) := cut_at_slash s' in (String c tok, rest)
  end.

(** The token loop, one iteration per unit of fuel. *)
Fixpoint scan_tokens (fuel : nat) (s : string) : list string :=
  match fuel with
  | 0 => []
  | S fuel' =>
      match skip_slashes s with
      | EmptyString => []
      | s' => match cut_at_slash s' with
              | (tok, None) => [tok]
              | (tok, Some rest) => tok :: scan_tokens fuel' rest
              end
      end
  end.

Definition bad_token (tok : string) : bool :=
  bool_decide (tok = ""%string) || bool_decide (tok = "."%string)
  || bool_decide (tok = ".."%string).

Definition splitPath (path : string) : Result (list string) :=
  match path with
  | String c rest =>
      if is_slash c then
        let tokens := scan_tokens (S (String.length rest)) rest in
        if existsb bad_token tokens then error ErrorCode.InvalidArgument
        else ok tokens
      else error ErrorCode.InvalidArgument
  | EmptyString => error ErrorCode.InvalidArgument
  end.

(** ** Inodes and the file system *)
Inductive InodeType := File | Directory.
#[global] Instance InodeType_eq_dec : EqDecision InodeType.
Proof. solve_decision. Defined.

Record Inode := MkInode {
  inode_id : Z;
  type : InodeType;
  inode_size : nat;
  blocks : list nat;
  parent : option Z;
  createdAt : Z;
  modifiedAt : Z
}.
Record Node := MkNode { inode : Inode; children : gmap string Z }.

Record DirectoryEntry := MkEntry { entry_name : string; entry_inode : Z; entry_type : InodeType }.
Record InodeInfo := MkInfo {
  info_id : Z; info_type : InodeType; info_size : nat; info_blockCount : nat;
  info_createdAt : Z; info_modifiedAt : Z
}.

Record fs_state := MkFs {
  blockSize : nat;
  disk : list (list byte);
  allocator : BlockAllocator.t;
  fdTable : FileDescriptorTable.t;
  nodes : gmap Z Node;
  nextInodeId : Z;
  tick : Z
}.

Definition set_storage (fs : fs_state) (d : list (list byte)) (a : BlockAllocator.t) : fs_state :=
  MkFs (blockSize fs) d a (fdTable fs) (nodes fs) (nextInodeId fs) (tick fs).
Definition set_fdTable (fs : fs_state) (ft : FileDescriptorTable.t) : fs_state :=
  MkFs (blockSize fs) (disk fs) (allocator fs) ft (nodes fs) (nextInodeId fs) (tick fs).
Definition set_nodes (fs : fs_state) (ns : gmap Z Node) : fs_state :=
  MkFs (blockSize fs) (disk fs) (allocator fs) (fdTable fs) ns (nextInodeId fs) (tick fs).
Definition set_counters (fs : fs_state) (next t : Z) : fs_state :=
  MkFs (blockSize fs) (disk fs) (allocator fs) (fdTable fs) (nodes fs) next t.
Definition set_blocks (n : Node) (bs : list nat) : Node :=
  let i := inode n in
  MkNode (MkInode (inode_id i) (type i) (inode_size i) bs (parent i) (createdAt i) (modifiedAt i))
    (children n).
Definition set_size (n : Node) (sz : nat) (t : Z) : Node :=
  let i := inode n in
  MkNode (MkInode (inode_id i) (type i) sz (blocks i) (parent i) (createdAt i) t) (children n).
Definition set_children (n : Node) (ch : gmap string Z) (t : Z) : Node :=
  let i := inode n in
  MkNode (MkInode (inode_id i) (type i) (size ch) (blocks i) (parent i) (createdAt i) t) ch.

Definition zero_block (bs : nat) : list byte := replicate bs zero_byte.

Definition SimpleFS_make (totalBlocksArg blockSizeArg : nat) : fs_state :=
  let total := Nat.max 1 totalBlocksArg in
  let bs := Nat.max 1 blockSizeArg in
  {| blockSize := bs;
     disk := replicate total (zero_block bs);
     allocator := BlockAllocator.make total;
     fdTable := FileDescriptorTable.init;
     nodes := {[ROOT_INODE_ID := MkNode (MkInode ROOT_INODE_ID Directory 0 [] None 0 0) ∅]};
     nextInodeId := ROOT_INODE_ID + 1;
     tick := 0 |}.

(** ** Path resolution *)
Fixpoint walk (ns : gmap Z Node) (current : Z) (tokens : list string) : Result Z :=
  match tokens with
  | [] => ok current
  | token :: tokens' =>
      match ns !! current with
      | None => error ErrorCode.NotFound
      | Some node =>
          if decide (type (inode node) = Directory) then
            match children node !! token with
            | None => error ErrorCode.NotFound
            | Some child => walk ns child tokens'
            end
          else error ErrorCode.NotFound
      end
  end.

Definition resolvePath (fs : fs_state) (path : string) : Result Z :=
  match splitPath path with
  | error e => error e
  | ok tokens => walk (nodes fs) ROOT_INODE_ID tokens
  end.

Definition resolveParent (fs : fs_state) (path : string) : Result (Z * string) :=
  match splitPath path with
  | error e => error e
  | ok tokens =>
      match last tokens with
      | None => error ErrorCode.InvalidArgument
      | Some name =>
          match walk (nodes fs) ROOT_INODE_ID (take (length tokens - 1) tokens) with
          | error e => error e
          | ok current => ok (current, name)
          end
      end
  end.

(** ** Block management of one file *)

(** [while (blocks.size() < requiredBlocks)], [n] iterations. *)
Fixpoint grow (n : nat) (a : BlockAllocator.t) (bs : list nat)
    : Result unit * (BlockAllocator.t * list nat) :=
  match n with
  | 0 => (ok tt, (a, bs))
  | S n' =>
      match BlockAllocator.allocate a with
      | (error e, a') => (error e, (a', bs))
      | (ok b, a') => grow n' a' (bs ++ [b])
      end
  end.

(** [while (blocks.size() > requiredBlocks)], [n] iterations. *)
Fixpoint shrink (n blk : nat) (d : list (list byte)) (a : BlockAllocator.t) (bs : list nat)
    : option (Result unit * (list (list byte) * BlockAllocator.t * list nat)) :=
  match n with
  | 0 => Some (ok tt, (d, a, bs))
  | S n' =>
      let! blockIndex := last bs in
      match BlockAllocator.free a blockIndex with
      | (error e, a') => Some (error e, (d, a', bs))
      | (ok _, a') =>
          let! _ := d !! blockIndex in
          shrink n' blk (<[blockIndex := zero_block blk]> d) a' (take (length bs - 1) bs)
      end
  end.

Definition requiredBlocks (blk requiredBytes : nat) : nat :=
  if requiredBytes =? 0 then 0 else (requiredBytes + blk - 1) / blk.

Definition ensureFileBlocks (fs : fs_state) (node : Node) (requiredBytes : nat)
    : option (Result unit * Node * fs_state) :=
  let required := requiredBlocks (blockSize fs) requiredBytes in
  let bs := blocks (inode node) in
  match grow (required - length bs) (allocator fs) bs with
  | (error e, (a, bs1)) => Some (error e, set_blocks node bs1, set_storage fs (disk fs) a)
  | (ok _, (a, bs1)) =>
      let! (r, (d, a2, bs2)) := shrink (length bs1 - required) (blockSize fs) (disk fs) a bs1 in
      Some (r, set_blocks node bs2, set_storage fs d a2)
  end.

(** The copy loop of [writeToNode]: one disk block per iteration. *)
Fixpoint write_loop (fuel blk : nat) (bs : list nat) (off : nat) (data : list byte)
    (written : nat) (d : list (list byte)) : option (list (list byte)) :=
  if length data <=? written then Some d else
  match fuel with
  | 0 => None
  | S fuel' =>
      let absolute := off + written in
      let blockSlot := absolute / blk in
      let blockOffset := absolute mod blk in
      let chunk := Nat.min (blk - blockOffset) (length data - written) in
      let! diskBlock := bs !! blockSlot in
      let! cells := d !! diskBlock in
      let cells' := splice cells blockOffset (take chunk (drop written data)) in
      write_loop fuel' blk bs off data (written + chunk) (<[diskBlock := cells']> d)
  end.

Definition writeToNode (fs : fs_state) (node : Node) (off : nat) (data : list byte)
    : option (Result nat * Node * fs_state) :=
  if decide (data = []) then Some (ok 0, node, fs) else
  let endOffset := off + length data in
  let! (ensured, node1, fs1) :=
    ensureFileBlocks fs node (Nat.max (inode_size (inode node)) endOffset) in
  match ensured with
  | error e => Some (error e, node1, fs1)
  | ok _ =>
      let! d := write_loop (length data) (blockSize fs) (blocks (inode node1)) off data 0
                  (disk fs1) in
      let tick' := u64 (tick fs1 + 1) in
      Some (ok (length data),
            set_size node1 (Nat.max (inode_size (inode node1)) endOffset) tick',
            set_counters (set_storage fs1 d (allocator fs1)) (nextInodeId fs1) tick')
  end.

(** The copy loop of [readFromNode], into the caller's buffer. *)
Fixpoint read_loop (fuel blk : nat) (bs : list nat) (d : list (list byte)) (off total : nat)
    (rd : nat) (buffer : list byte) : option (list byte) :=
  if total <=? rd then Some buffer else
  match fuel with
  | 0 => None
  | S fuel' =>
      let absolute := off + rd in
      let blockSlot := absolute / blk in
      let blockOffset := absolute mod blk in
      let chunk := Nat.min (blk - blockOffset) (total - rd) in
      let! diskBlock := bs !! blockSlot in
      let! cells := d !! diskBlock in
      read_loop fuel' blk bs d off total (rd + chunk)
        (splice buffer rd (take chunk (drop blockOffset cells)))
  end.

Definition readFromNode (fs : fs_state) (node : Node) (off : nat) (buffer : list byte)
    : option (Result nat * list byte) :=
  if decide (buffer = []) then Some (ok 0, buffer) else
  if inode_size (inode node) <=? off then Some (ok 0, buffer) else
  let remaining := inode_size (inode node) - off in
  let totalRead := Nat.min (length buffer) remaining in
  let! buffer' := read_loop totalRead (blockSize fs) (blocks (inode node)) (disk fs) off
                    totalRead 0 buffer in
  Some (ok totalRead, buffer').

Definition toInodeInfo (i : Inode) : InodeInfo :=
  MkInfo (inode_id i) (type i) (inode_size i) (length (blocks i)) (createdAt i) (modifiedAt i).

(** ** Operations *)

(** Whether the table of nodes rehashes when the node [id] is emplaced.  That is
    up to the standard library; within one history each identifier is emplaced
    once, so that a function of the identifier covers every growth policy. *)
Class NodeTable := rehashes : Z → bool.

Section creating.
Context `{NT : NodeTable}.

(** The creation of a child node, shared by [open] and [mkdir].  The iterator to
    the parent is used after [nodes.emplace], which invalidates it when the
    table rehashes: [None]. *)
Definition link_new (fs : fs_state) (parentId : Z) (parentNode : Node) (name : string)
    (ty : InodeType) : option (Z * fs_state) :=
  let newId := nextInodeId fs in
  if rehashes newId then None else
  let t1 := u64 (tick fs + 1) in
  let t2 := u64 (t1 + 1) in
  let fresh := MkNode (MkInode newId ty 0 [] (Some parentId) t1 t1) ∅ in
  let parent' := set_children parentNode (emplace name newId (children parentNode)) t2 in
  Some (newId,
   set_counters
     (set_nodes fs (<[parentId := parent']> (emplace newId fresh (nodes fs))))
     (u32 (nextInodeId fs + 1)) t2).

(** [open] after the path has been resolved to [inodeId]. *)
Definition open_node (fs : fs_state) (id m : Z) : option (Result Z * fs_state) :=
  match nodes fs !! id with
  | None => Some (error ErrorCode.NotFound, fs)
  | Some node =>
      if decide (type (inode node) = File) then
        let! (resized, node1, fs1) :=
          (if hasOpenMode m OpenMode.Truncate then
             let! (r, n1, f1) := ensureFileBlocks fs node 0 in
             match r with
             | error e => Some (error e, n1, set_nodes f1 (<[id := n1]> (nodes f1)))
             | ok _ =>
                 let t' := u64 (tick f1 + 1) in
                 let n2 := set_size n1 0 t' in
                 Some (ok tt, n2,
                       set_counters (set_nodes f1 (<[id := n2]> (nodes f1))) (nextInodeId f1) t')
             end
           else Some (ok tt, node, fs)) in
        match resized with
        | error e => Some (error e, fs1)
        | ok _ =>
            let st := {| inodeId := inode_id (inode node1);
                         offset := if hasOpenMode m OpenMode.Append
                                   then inode_size (inode node1) else 0;
                         mode := m |} in
            let! (r, ft) := FileDescriptorTable.open (fdTable fs1) st in
            Some (r, set_fdTable fs1 ft)
        end
      else Some (error ErrorCode.InvalidState, fs)
  end.

Definition open (fs : fs_state) (path : string) (m : Z) : option (Result Z * fs_state) :=
  if negb (hasOpenMode m OpenMode.Read) && negb (hasOpenMode m OpenMode.Write)
  then Some (error ErrorCode.InvalidArgument, fs) else
  match resolvePath fs path with
  | ok id => open_node fs id m
  | error e =>
      if negb (hasOpenMode m OpenMode.Create) then Some (error e, fs) else
      match resolveParent fs path with
      | error e' => Some (error e', fs)
      | ok (parentId, name) =>
          match nodes fs !! parentId with
          | None => Some (error ErrorCode.NotFound, fs)
          | Some parentNode =>
              if decide (type (inode parentNode) = Directory) then
                match children parentNode !! name with
                | Some _ => Some (error ErrorCode.AlreadyExists, fs)
                | None =>
                    let! (newId, fs1) := link_new fs parentId parentNode name File in
                    open_node fs1 newId m
                end
              else Some (error ErrorCode.NotFound, fs)
          end
      end
  end.

End creating.

Definition read (fs : fs_state) (fd : Z) (buffer : list byte)
    : option (Result nat * list byte * fs_state) :=
  match FileDescriptorTable.get (fdTable fs) fd with
  | error e => Some (error e, buffer, fs)
  | ok st =>
      if negb (hasOpenMode (mode st) OpenMode.Read)
      then Some (error ErrorCode.PermissionDenied, buffer, fs) else
      match nodes fs !! inodeId st with
      | None => Some (error ErrorCode.NotFound, buffer, fs)
      | Some node =>
          let! (r, buffer') := readFromNode fs node (offset st) buffer in
          match r with
          | error e => Some (error e, buffer', fs)
          | ok n =>
              let st' := MkOpenFile (inodeId st) (offset st + n) (mode st) in
              match FileDescriptorTable.set (fdTable fs) fd st' with
              | (error e, ft) => Some (error e, buffer', set_fdTable fs ft)
              | (ok _, ft) => Some (ok n, buffer', set_fdTable fs ft)
              end
          end
      end
  end.

Definition write (fs : fs_state) (fd : Z) (data : list byte) : option (Result nat * fs_state) :=
  match FileDescriptorTable.get (fdTable fs) fd with
  | error e => Some (error e, fs)
  | ok st =>
      if negb (hasOpenMode (mode st) OpenMode.Write)
      then Some (error ErrorCode.PermissionDenied, fs) else
      match nodes fs !! inodeId st with
      | None => Some (error ErrorCode.NotFound, fs)
      | Some node =>
          let off := if hasOpenMode (mode st) OpenMode.Append
                     then inode_size (inode node) else offset st in
          let! (r, node1, fs1) := writeToNode fs node off data in
          let fs2 := set_nodes fs1 (<[inodeId st := node1]> (nodes fs1)) in
          match r with
          | error e => Some (error e, fs2)
          | ok n =>
              let st' := MkOpenFile (inodeId st) (off + n) (mode st) in
              match FileDescriptorTable.set (fdTable fs2) fd st' with
              | (error e, ft) => Some (error e, set_fdTable fs2 ft)
              | (ok _, ft) => Some (ok n, set_fdTable fs2 ft)
              end
          end
      end
  end.

Definition close (fs : fs_state) (fd : Z) : Result unit * fs_state :=
  let '(r, ft) := FileDescriptorTable.close (fdTable fs) fd in (r, set_fdTable fs ft).

Definition mkdir `{NT : NodeTable} (fs : fs_state) (path : string) : option (Result unit * fs_state) :=
  match resolveParent fs path with
  | error e => Some (error e, fs)
  | ok (parentId, name) =>
      match nodes fs !! parentId with
      | None => Some (error ErrorCode.NotFound, fs)
      | Some parentNode =>
          if decide (type (inode parentNode) = Directory) then
            match children parentNode !! name with
            | Some _ => Some (error ErrorCode.AlreadyExists, fs)
            | None =>
                let! (_, fs1) := link_new fs parentId parentNode name Directory in Some (ok tt, fs1)
            end
          else Some (error ErrorCode.NotFound, fs)
      end
  end.

(** The loop of [remove] over the blocks of a file. *)
Fixpoint release_blocks (blk : nat) (bs : list nat) (d : list (list byte)) (a : BlockAllocator.t)
    : option (Result unit * (list (list byte) * BlockAllocator.t)) :=
  match bs with
  | [] => Some (ok tt, (d, a))
  | blockIndex :: bs' =>
      match BlockAllocator.free a blockIndex with
      | (error e, a') => Some (error e, (d, a'))
      | (ok _, a') =>
          let! _ := d !! blockIndex in
          release_blocks blk bs' (<[blockIndex := zero_block blk]> d) a'
      end
  end.

Definition unlink (fs : fs_state) (parentId : Z) (parentNode : Node) (name : string) (id : Z)
    : fs_state :=
  let t' := u64 (tick fs + 1) in
  let parent' := set_children parentNode (delete name (children parentNode)) t' in
  set_counters (set_nodes fs (<[parentId := parent']> (delete id (nodes fs)))) (nextInodeId fs) t'.

Definition remove (fs : fs_state) (path : string) : option (Result unit * fs_state) :=
  match resolveParent fs path with
  | error e => Some (error e, fs)
  | ok (parentId, name) =>
      match nodes fs !! parentId with
      | None => Some (error ErrorCode.NotFound, fs)
      | Some parentNode =>
          if decide (type (inode parentNode) = Directory) then
            match children parentNode !! name with
            | None => Some (error ErrorCode.NotFound, fs)
            | Some id =>
                match nodes fs !! id with
                | None => Some (error ErrorCode.NotFound, fs)
                | Some node =>
                    if (inode_id (inode node) =? ROOT_INODE_ID)%Z
                    then Some (error ErrorCode.PermissionDenied, fs) else
                    if bool_decide (type (inode node) = Directory)
                       && negb (bool_decide (children node = ∅))
                    then Some (error ErrorCode.InvalidState, fs) else
                    let! (r, (d, a)) :=
                      (if decide (type (inode node) = File)
                       then release_blocks (blockSize fs) (blocks (inode node)) (disk fs)
                              (allocator fs)
                       else Some (ok tt, (disk fs, allocator fs))) in
                    let fs1 := set_storage fs d a in
                    match r with
                    | error e => Some (error e, fs1)
                    | ok _ => Some (ok tt, unlink fs1 parentId parentNode name id)
                    end
                end
            end
          else Some (error ErrorCode.NotFound, fs)
      end
  end.

(** [lhs.name <= rhs.name], the order [std::sort] leaves the entries in. *)
Definition entry_le (e1 e2 : DirectoryEntry) : Prop :=
  String.leb (entry_name e1) (entry_name e2) = true.
#[global] Instance entry_le_dec : RelDecision entry_le.
Proof. intros e1 e2. unfold entry_le. apply _. Defined.

Definition listDir `{HO : HashOrder} (fs : fs_state) (path : string)
    : Result (list DirectoryEntry) :=
  match resolvePath fs path with
  | error e => error e
  | ok id =>
      match nodes fs !! id with
      | None => error ErrorCode.NotFound
      | Some node =>
          if decide (type (inode node) = Directory) then
            ok (merge_sort entry_le
                  (omap (λ '(name, cid),
                     (λ child, MkEntry name cid (type (inode child))) <$> nodes fs !! cid)
                     (map_order (children node))))
          else error ErrorCode.InvalidState
      end
  end.

Definition stat (fs : fs_state) (path : string) : Result InodeInfo :=
  match resolvePath fs path with
  | error e => error e
  | ok id =>
      match nodes fs !! id with
      | None => error ErrorCode.NotFound
      | Some node => ok (toInodeInfo (inode node))
      end
  end.
