(* ===== verification/FsStore.v ===== *)
(** * FsStore: the storage layer of the file system

    Who owns which disk block, what a file's bytes are, and what the block
    loops of [SimpleFs] do to them. *)
From S2P Require Import Prelude Core BlockAlloc SimpleFs.

(** Byte [k] of a file, through its block list. *)
Definition file_byte (blk : nat) (d : list (list byte)) (bs : list nat) (k : nat) : option byte :=
  b ← bs !! (k / blk); cells ← d !! b; cells !! (k mod blk).

(** The contents of a file: its first [size] bytes. *)
Definition contents (blk : nat) (d : list (list byte)) (n : Node) : list byte :=
  (λ k, default zero_byte (file_byte blk d (blocks (inode n)) k)) <$> seq 0 (inode_size (inode n)).

Definition owned (ns : gmap Z Node) (b : nat) : Prop :=
  ∃ i n, ns !! i = Some n ∧ b ∈ blocks (inode n).

Record storage_wf (blk : nat) (d : list (list byte)) (a : BlockAllocator.t)
    (ns : gmap Z Node) : Prop := {
  sw_pos : 0 < blk;
  sw_alloc : BlockAllocator.inv a;
  sw_len : length (BlockAllocator.freeBitmap a) = length d;
  sw_cells b cells : d !! b = Some cells → length cells = blk;
  sw_nodup i n : ns !! i = Some n → NoDup (blocks (inode n));
  sw_disjoint i j n m b : ns !! i = Some n → ns !! j = Some m →
    b ∈ blocks (inode n) → b ∈ blocks (inode m) → i = j;
  sw_owned b : BlockAllocator.freeBitmap a !! b = Some false ↔ owned ns b;
  sw_free_zero b : BlockAllocator.freeBitmap a !! b = Some true → d !! b = Some (zero_block blk)
}.

(** The size fits the blocks, and the allocated bytes past it are zero. *)
Record bytes_wf (blk : nat) (d : list (list byte)) (n : Node) : Prop := {
  by_size : inode_size (inode n) ≤ length (blocks (inode n)) * blk;
  by_tail k : inode_size (inode n) ≤ k → k < length (blocks (inode n)) * blk →
    file_byte blk d (blocks (inode n)) k = Some zero_byte
}.

(** ** Block arithmetic *)
Lemma div_lt_blocks blk n k : 0 < blk → k < n * blk → k / blk < n.
Proof. intros. apply Nat.Div0.div_lt_upper_bound. lia. Qed.

Lemma slot_offset blk k : 0 < blk → k = k / blk * blk + k mod blk ∧ k mod blk < blk.
Proof.
  intros. pose proof (Nat.div_mod_eq k blk). split; [lia|]. apply Nat.mod_upper_bound. lia.
Qed.

Lemma same_slot blk k k' c :
  0 < blk → k' mod blk + c ≤ blk →
  (k' ≤ k < k' + c) ↔ (k / blk = k' / blk ∧ k' mod blk ≤ k mod blk < k' mod blk + c).
Proof.
  intros Hb Hc. destruct (slot_offset blk k Hb) as [Hk Hm], (slot_offset blk k' Hb) as [Hk' Hm'].
  set (q := k / blk) in *; set (q' := k' / blk) in *.
  set (r := k mod blk) in *; set (r' := k' mod blk) in *. clearbody q q' r r'. subst k k'.
  split; intros [H1 H2].
  - assert (q = q') by nia. subst. lia.
  - subst. lia.
Qed.

Lemma requiredBlocks_covers blk req : 0 < blk → req ≤ requiredBlocks blk req * blk.
Proof.
  intros Hb. unfold requiredBlocks. destruct (Nat.eqb_spec req 0); [lia|].
  destruct (slot_offset blk (req + blk - 1) Hb) as [H1 H2]. nia.
Qed.

(** ** Reading a byte *)
Lemma file_byte_in_range blk d a ns i n k :
  storage_wf blk d a ns → ns !! i = Some n → k < length (blocks (inode n)) * blk →
  is_Some (file_byte blk d (blocks (inode n)) k).
Proof.
  intros Hw Hi Hk. unfold file_byte.
  destruct (lookup_lt_is_Some_2 (blocks (inode n)) (k / blk)) as [b Hb].
  { apply div_lt_blocks; [apply Hw|done]. }
  rewrite Hb. simpl.
  assert (b < length d) as Hlt.
  { rewrite <-(sw_len _ _ _ _ Hw). apply lookup_lt_is_Some.
    exists false. apply (sw_owned _ _ _ _ Hw). exists i, n. split; [done|].
    by eapply list_elem_of_lookup_2. }
  destruct (lookup_lt_is_Some_2 d b Hlt) as [cells Hc]. rewrite Hc. simpl.
  apply lookup_lt_is_Some. rewrite (sw_cells _ _ _ _ Hw b cells Hc).
  apply Nat.mod_upper_bound. pose proof (sw_pos _ _ _ _ Hw). lia.
Qed.

Lemma file_byte_ext blk d d' bs k :
  (∀ b, b ∈ bs → d' !! b = d !! b) → file_byte blk d' bs k = file_byte blk d bs k.
Proof.
  intros H. unfold file_byte. destruct (bs !! (k / blk)) as [b|] eqn:E; [|done].
  simpl. rewrite H; [done|]. by eapply list_elem_of_lookup_2.
Qed.

Lemma file_byte_app_l blk d bs new k :
  0 < blk → k < length bs * blk → file_byte blk d (bs ++ new) k = file_byte blk d bs k.
Proof.
  intros Hb Hk. unfold file_byte. rewrite lookup_app_l; [done|]. by apply div_lt_blocks.
Qed.

Lemma file_byte_take blk d bs m k :
  0 < blk → k < m * blk → file_byte blk d (take m bs) k = file_byte blk d bs k.
Proof.
  intros Hb Hk. unfold file_byte. rewrite lookup_take_lt; [done|]. by apply div_lt_blocks.
Qed.

Lemma file_byte_zero_block blk d bs k b :
  0 < blk → bs !! (k / blk) = Some b → d !! b = Some (zero_block blk) →
  file_byte blk d bs k = Some zero_byte.
Proof.
  intros Hb Hl Hd. unfold file_byte, zero_block in *. rewrite Hl. simpl. rewrite Hd. simpl.
  apply lookup_replicate_2. apply Nat.mod_upper_bound. lia.
Qed.

Lemma length_contents blk d n : length (contents blk d n) = inode_size (inode n).
Proof. unfold contents. by rewrite length_fmap, length_seq. Qed.

Lemma lookup_contents blk d n k :
  contents blk d n !! k =
  if decide (k < inode_size (inode n))
  then Some (default zero_byte (file_byte blk d (blocks (inode n)) k)) else None.
Proof.
  unfold contents. rewrite list_lookup_fmap. case_decide.
  - by rewrite lookup_seq_lt by done.
  - rewrite lookup_seq_ge by lia. done.
Qed.

Lemma contents_ext blk d d' n n' :
  inode_size (inode n') = inode_size (inode n) →
  (∀ k, k < inode_size (inode n) →
     file_byte blk d' (blocks (inode n')) k = file_byte blk d (blocks (inode n)) k) →
  contents blk d' n' = contents blk d n.
Proof.
  intros Hs Hb. apply list_eq. intros k. rewrite !lookup_contents, Hs.
  case_decide; [|done]. by rewrite Hb.
Qed.

(** ** Replacing one node

    The storage invariant sees a node table only through its block lists. *)
Lemma owned_insert ns i n b :
  owned (<[i := n]> ns) b ↔
  b ∈ blocks (inode n) ∨ ∃ j m, j ≠ i ∧ ns !! j = Some m ∧ b ∈ blocks (inode m).
Proof.
  unfold owned. split.
  - intros (j & m & Hj & Hb). destruct (decide (j = i)) as [->|].
    + rewrite lookup_insert_eq in Hj. simplify_eq. by left.
    + rewrite lookup_insert_ne in Hj by done. eauto 10.
  - intros [Hb|(j & m & Hne & Hj & Hb)].
    + exists i, n. by rewrite lookup_insert_eq.
    + exists j, m. by rewrite lookup_insert_ne by done.
Qed.

Section node_update.
Context (blk : nat) (ns : gmap Z Node) (i : Z).
Implicit Types (d : list (list byte)) (a : BlockAllocator.t) (n : Node).

(** The other owners are apart from node [i]'s blocks. *)
Lemma storage_other d a n b j m :
  storage_wf blk d a (<[i := n]> ns) → j ≠ i → ns !! j = Some m →
  b ∈ blocks (inode n) → b ∉ blocks (inode m).
Proof.
  intros Hw Hne Hj Hb Hb'. apply Hne. symmetry.
  eapply (sw_disjoint _ _ _ _ Hw i j n m b); [|by rewrite lookup_insert_ne|done|done].
  by rewrite lookup_insert_eq.
Qed.

Lemma storage_range d a n b :
  storage_wf blk d a (<[i := n]> ns) → b ∈ blocks (inode n) →
  BlockAllocator.freeBitmap a !! b = Some false ∧ ∃ cells, d !! b = Some cells ∧ length cells = blk.
Proof.
  intros Hw Hb.
  assert (BlockAllocator.freeBitmap a !! b = Some false) as Hf.
  { apply (sw_owned _ _ _ _ Hw), owned_insert. by left. }
  split; [done|].
  destruct (lookup_lt_is_Some_2 d b) as [cells Hc].
  { rewrite <-(sw_len _ _ _ _ Hw). by eapply lookup_lt_Some. }
  eauto using sw_cells.
Qed.

(** Changing the data of blocks, or the fields of a node other than its block
    list, keeps the invariant. *)
Lemma storage_wf_same_blocks d a n n' :
  blocks (inode n') = blocks (inode n) →
  storage_wf blk d a (<[i := n]> ns) → storage_wf blk d a (<[i := n']> ns).
Proof.
  intros Hb Hw.
  assert (∀ j m', <[i:=n']> ns !! j = Some m' →
    ∃ m, <[i:=n]> ns !! j = Some m ∧ blocks (inode m') = blocks (inode m)) as Hl.
  { intros j m' Hj. destruct (decide (j = i)) as [->|].
    - rewrite lookup_insert_eq in *. simplify_eq. eauto.
    - rewrite lookup_insert_ne in * by done. eauto. }
  split; [apply Hw..| | | |apply Hw].
  - intros j m' (m & Hm & ->)%Hl. by eapply sw_nodup.
  - intros j j' m1 m2 b (m & Hm & ->)%Hl (m' & Hm' & ->)%Hl ??. by eapply sw_disjoint.
  - intros b. rewrite (sw_owned _ _ _ _ Hw), !owned_insert. by rewrite Hb.
Qed.

Lemma storage_alloc_step d a a' n b :
  storage_wf blk d a (<[i := n]> ns) →
  BlockAllocator.allocate a = (ok b, a') →
  storage_wf blk d a' (<[i := set_blocks n (blocks (inode n) ++ [b])]> ns) ∧
  d !! b = Some (zero_block blk) ∧
  BlockAllocator.freeCount a = S (BlockAllocator.freeCount a').
Proof.
  intros Hw Ha. pose proof (BlockAllocator.allocate_spec a (sw_alloc _ _ _ _ Hw)) as Hs.
  rewrite Ha in Hs. destruct Hs as (Hfree & _ & Hbm & Hcnt & Hinv).
  assert (¬ owned (<[i:=n]> ns) b) as Hnew.
  { rewrite <-(sw_owned _ _ _ _ Hw), Hfree. congruence. }
  assert (b ∉ blocks (inode n) ∧ ∀ j m, j ≠ i → ns !! j = Some m → b ∉ blocks (inode m))
    as [Hn Hm].
  { rewrite owned_insert in Hnew. split; [tauto|]. intros j m ???. apply Hnew. eauto 10. }
  split_and!; [|by eapply sw_free_zero|done].
  split; simpl.
  - apply Hw.
  - done.
  - by rewrite Hbm, length_insert, (sw_len _ _ _ _ Hw).
  - apply Hw.
  - intros j m Hj. destruct (decide (j = i)) as [->|].
    + rewrite lookup_insert_eq in Hj. simplify_eq/=. apply NoDup_app.
      split_and!; [|set_solver|apply NoDup_singleton].
      eapply (sw_nodup _ _ _ _ Hw i). by rewrite lookup_insert_eq.
    + rewrite lookup_insert_ne in Hj by done. eapply (sw_nodup _ _ _ _ Hw j).
      by rewrite lookup_insert_ne.
  - intros j j' m m' b' Hj Hj' Hb Hb'.
    apply lookup_insert_Some in Hj as [[<- <-]|[? Hj]];
      apply lookup_insert_Some in Hj' as [[<- <-]|[? Hj']]; simpl in *; [done|..].
    + apply elem_of_app in Hb as [Hb|Hb%list_elem_of_singleton].
      * by edestruct (storage_other d a n b' j' m').
      * subst. by edestruct Hm.
    + apply elem_of_app in Hb' as [Hb'|Hb'%list_elem_of_singleton].
      * by edestruct (storage_other d a n b' j m).
      * subst. by edestruct Hm.
    + eapply (sw_disjoint _ _ _ _ Hw j j' m m' b'); by rewrite ?lookup_insert_ne.
  - intros b'. rewrite Hbm. destruct (decide (b' = b)) as [->|].
    + rewrite list_lookup_insert_eq by (by eapply lookup_lt_Some).
      rewrite owned_insert. simpl. set_solver.
    + rewrite list_lookup_insert_ne, (sw_owned _ _ _ _ Hw), !owned_insert by done. simpl.
      set_solver.
  - intros b'. rewrite Hbm. destruct (decide (b' = b)) as [->|].
    + rewrite list_lookup_insert_eq by (by eapply lookup_lt_Some). done.
    + rewrite list_lookup_insert_ne by done. apply Hw.
Qed.

Lemma storage_free_step d a n bs b :
  blocks (inode n) ≡ₚ b :: bs →
  storage_wf blk d a (<[i := n]> ns) →
  ∃ a', BlockAllocator.free a b = (ok tt, a') ∧ is_Some (d !! b) ∧
  storage_wf blk (<[b := zero_block blk]> d) a' (<[i := set_blocks n bs]> ns) ∧
  BlockAllocator.freeCount a' = S (BlockAllocator.freeCount a).
Proof.
  intros Hperm Hw.
  destruct (storage_range d a n b Hw) as [Hf (cells & Hc & Hlen)]; [rewrite Hperm; set_solver|].
  pose proof (BlockAllocator.free_spec a b (sw_alloc _ _ _ _ Hw)) as Hs.
  rewrite BlockAllocator.free_allocated in Hs by done.
  rewrite BlockAllocator.free_allocated by done.
  eexists; split; [done|]. split; [eauto|].
  destruct Hs as (_ & _ & Hcnt & Hinv).
  assert (NoDup (b :: bs)) as [Hbs Hnd]%NoDup_cons.
  { rewrite <-Hperm. eapply (sw_nodup _ _ _ _ Hw i). by rewrite lookup_insert_eq. }
  assert (∀ j m, j ≠ i → ns !! j = Some m → b ∉ blocks (inode m)) as Hm.
  { intros j m ??. eapply (storage_other d a n); eauto. rewrite Hperm. set_solver. }
  assert (∀ b', b' ∈ bs → b' ∈ blocks (inode n)) as Hsub by (intros; rewrite Hperm; set_solver).
  split; [|done]. split; simpl in *.
  - apply Hw.
  - done.
  - rewrite !length_insert. apply Hw.
  - intros b' cells' Hl. apply list_lookup_insert_Some in Hl as [(-> & <- & _)|[_ Hl]].
    + unfold zero_block. by rewrite length_replicate.
    + by eapply sw_cells.
  - intros j m Hj. destruct (decide (j = i)) as [->|].
    + rewrite lookup_insert_eq in Hj. by simplify_eq/=.
    + rewrite lookup_insert_ne in Hj by done. eapply (sw_nodup _ _ _ _ Hw j).
      by rewrite lookup_insert_ne.
  - intros j j' m m' b' Hj Hj' Hb Hb'.
    apply lookup_insert_Some in Hj as [[<- <-]|[? Hj]];
      apply lookup_insert_Some in Hj' as [[<- <-]|[? Hj']]; simpl in *; [done|..].
    + by edestruct (storage_other d a n b' j' m'); eauto.
    + by edestruct (storage_other d a n b' j m); eauto.
    + eapply (sw_disjoint _ _ _ _ Hw j j' m m' b'); by rewrite ?lookup_insert_ne.
  - intros b'. destruct (decide (b' = b)) as [->|].
    + rewrite list_lookup_insert_eq by (by eapply lookup_lt_Some).
      rewrite owned_insert. simpl. split; [done|]. intros [?|(?&?&?&?&?)]; [done|].
      by edestruct Hm.
    + rewrite list_lookup_insert_ne, (sw_owned _ _ _ _ Hw), !owned_insert by done. simpl.
      rewrite Hperm. set_solver.
  - intros b'. destruct (decide (b' = b)) as [->|].
    + intros _. apply list_lookup_insert_eq. by eapply lookup_lt_Some.
    + rewrite !list_lookup_insert_ne by done. apply Hw.
Qed.

End node_update.

(** ** The block loops *)
Section loops.
Context (blk : nat) (ns : gmap Z Node) (i : Z).
Implicit Types (d : list (list byte)) (a : BlockAllocator.t) (n : Node).

Lemma set_blocks_set_blocks n bs bs' : set_blocks (set_blocks n bs) bs' = set_blocks n bs'.
Proof. done. Qed.
Lemma set_blocks_id n : set_blocks n (blocks (inode n)) = n.
Proof. by destruct n as [[]]. Qed.

(** [grow] appends fresh zero blocks; it stops early only when none is left. *)
Lemma grow_spec k : ∀ d a n r a' bs',
  storage_wf blk d a (<[i := n]> ns) →
  grow k a (blocks (inode n)) = (r, (a', bs')) →
  storage_wf blk d a' (<[i := set_blocks n bs']> ns) ∧
  ∃ new, bs' = blocks (inode n) ++ new ∧
    Forall (λ b, d !! b = Some (zero_block blk)) new ∧
    BlockAllocator.freeCount a = length new + BlockAllocator.freeCount a' ∧
    (r = ok tt ∧ length new = k ∨
     r = error ErrorCode.OutOfMemory ∧ length new < k ∧ BlockAllocator.freeCount a' = 0).
Proof.
  induction k as [|k IH]; intros d a n r a' bs' Hw Hg; simpl in Hg.
  { simplify_eq. rewrite set_blocks_id. split; [done|]. exists [].
    rewrite app_nil_r. split_and!; try done. by left. }
  pose proof (BlockAllocator.allocate_spec a (sw_alloc _ _ _ _ Hw)) as Hs.
  destruct (BlockAllocator.allocate a) as [[b|e] a1] eqn:Ha.
  - destruct (storage_alloc_step blk ns i d a a1 n b Hw Ha) as (Hw1 & Hz & Hcnt).
    destruct (IH d a1 (set_blocks n (blocks (inode n) ++ [b])) r a' bs' Hw1 Hg)
      as (Hw2 & new & -> & Hnew & Hcnt' & Hr).
    rewrite set_blocks_set_blocks in Hw2. simpl in *. split; [done|].
    exists (b :: new). rewrite <-app_assoc. simpl.
    split_and!; [done|by constructor|lia|]. destruct Hr as [[-> ?]|(-> & ? & ?)]; [left|right];
      split_and!; (done || lia).
  - destruct Hs as (-> & -> & Hcnt). simplify_eq. rewrite set_blocks_id. split; [done|].
    exists []. rewrite app_nil_r. split_and!; try done. right. split_and!; [done|simpl; lia|done].
Qed.

(** [shrink] never fails on owned blocks: it frees and clears the last [k]. *)
Lemma shrink_spec k : ∀ d a n,
  storage_wf blk d a (<[i := n]> ns) → k ≤ length (blocks (inode n)) →
  let keep := take (length (blocks (inode n)) - k) (blocks (inode n)) in
  ∃ d' a',
    shrink k blk d a (blocks (inode n)) = Some (ok tt, (d', a', keep)) ∧
    storage_wf blk d' a' (<[i := set_blocks n keep]> ns) ∧
    length d' = length d ∧
    (∀ b, b ∉ drop (length (blocks (inode n)) - k) (blocks (inode n)) → d' !! b = d !! b) ∧
    BlockAllocator.freeCount a' = k + BlockAllocator.freeCount a.
Proof.
  induction k as [|k IH]; intros d a n Hw Hk keep; subst keep.
  { exists d, a. rewrite Nat.sub_0_r, take_ge by lia. rewrite set_blocks_id. split_and!; done. }
  destruct (blocks (inode n)) as [|b0 bs0 _] eqn:Hbs using rev_ind; [simpl in Hk; lia|].
  rename b0 into b, bs0 into bs.
  rewrite length_app in *. simpl in *. simpl.
  rewrite last_snoc.
  destruct (storage_free_step blk ns i d a n bs b) as (a1 & Hf & [cells Hc] & Hw1 & Hcnt);
    [by rewrite Hbs, Permutation_app_comm|done|].
  rewrite Hf, Hc, length_app. simpl. rewrite Nat.add_sub, take_app_length.
  destruct (IH (<[b:=zero_block blk]> d) a1 (set_blocks n bs) Hw1 ltac:(simpl; lia))
    as (d' & a' & Hs & Hw2 & Hlen & Hsame & Hcnt').
  simpl in *. rewrite set_blocks_set_blocks in Hw2.
  exists d', a'. replace (length bs + 1 - S k) with (length bs - k) by lia.
  rewrite take_app_le by lia. split_and!; [done..| | |].
  - by rewrite Hlen, length_insert.
  - intros b' Hb'. rewrite drop_app_le in Hb' by lia. apply not_elem_of_app in Hb' as [Hb1 Hb2].
    rewrite Hsame by done. apply list_lookup_insert_ne. set_solver.
  - lia.
Qed.

Lemma release_blocks_spec : ∀ bs d a n,
  storage_wf blk d a (<[i := n]> ns) → blocks (inode n) = bs →
  ∃ d' a',
    release_blocks blk bs d a = Some (ok tt, (d', a')) ∧
    storage_wf blk d' a' (<[i := set_blocks n []]> ns) ∧
    length d' = length d ∧
    (∀ b, b ∉ bs → d' !! b = d !! b) ∧
    BlockAllocator.freeCount a' = length bs + BlockAllocator.freeCount a.
Proof.
  induction bs as [|b bs IH]; intros d a n Hw Hbs; simpl.
  { exists d, a. rewrite <-Hbs, set_blocks_id. done. }
  destruct (storage_free_step blk ns i d a n bs b) as (a1 & Hf & [cells Hc] & Hw1 & Hcnt);
    [by rewrite Hbs|done|].
  rewrite Hf, Hc.
  destruct (IH (<[b:=zero_block blk]> d) a1 (set_blocks n bs) Hw1 eq_refl)
    as (d' & a' & Hs & Hw2 & Hlen & Hsame & Hcnt').
  rewrite set_blocks_set_blocks in Hw2.
  exists d', a'. split_and!; [done..| | |].
  - by rewrite Hlen, length_insert.
  - intros b' Hb'. rewrite Hsame by set_solver. apply list_lookup_insert_ne. set_solver.
  - lia.
Qed.
End loops.

(** ** Resizing a file *)

(** What one node's operations leave alone: the bytes of every other node. *)
Definition others_same (blk : nat) (d d' : list (list byte)) (ns : gmap Z Node) (i : Z) : Prop :=
  ∀ j m k, j ≠ i → ns !! j = Some m →
    file_byte blk d' (blocks (inode m)) k = file_byte blk d (blocks (inode m)) k.

Lemma others_same_trans blk d1 d2 d3 ns i :
  others_same blk d1 d2 ns i → others_same blk d2 d3 ns i → others_same blk d1 d3 ns i.
Proof. intros H1 H2 j m k ??. by rewrite (H2 j m), (H1 j m). Qed.

(** The number of blocks a request can reach. *)
Definition reachable_blocks (fs : fs_state) (n : Node) : nat :=
  length (blocks (inode n)) + BlockAllocator.freeCount (allocator fs).

(** A failed growth: the file keeps every block that was free. *)
Definition took_all (a : BlockAllocator.t) (bs : list nat) (a' : BlockAllocator.t) (bs' : list nat) : Prop :=
  BlockAllocator.freeBlocks a' = 0 ∧
  ∃ new, bs' = bs ++ new ∧ length new = BlockAllocator.freeBlocks a.

(** [ensureFileBlocks] is defined, keeps the storage invariant and the bytes of
    the kept blocks, adds only zero bytes, and fails exactly when the disk has
    too few free blocks; a failing call leaves all the free blocks with the file. *)
Lemma ensureFileBlocks_spec fs ns i n req :
  storage_wf (blockSize fs) (disk fs) (allocator fs) (<[i := n]> ns) →
  let blk := blockSize fs in
  let required := requiredBlocks blk req in
  ∃ r bs' d' a',
    ensureFileBlocks fs n req = Some (r, set_blocks n bs', set_storage fs d' a') ∧
    storage_wf blk d' a' (<[i := set_blocks n bs']> ns) ∧
    others_same blk (disk fs) d' ns i ∧
    (∀ k, k < length bs' * blk →
       file_byte blk d' bs' k =
       if decide (k < length (blocks (inode n)) * blk)
       then file_byte blk (disk fs) (blocks (inode n)) k else Some zero_byte) ∧
    (r = ok tt ∧ length bs' = required ∧ required ≤ reachable_blocks fs n ∨
     r = error ErrorCode.OutOfMemory ∧ d' = disk fs ∧
       took_all (allocator fs) (blocks (inode n)) a' bs' ∧ reachable_blocks fs n < required).
Proof.
  intros Hw blk required. unfold ensureFileBlocks. fold blk required.
  assert (0 < blk) as Hpos by apply Hw.
  destruct (grow (required - length (blocks (inode n))) (allocator fs) (blocks (inode n)))
    as [r [a1 bs1]] eqn:Hg.
  destruct (grow_spec blk ns i _ _ _ _ _ _ _ Hw Hg) as (Hw1 & new & -> & Hnew & Hcnt & Hr).
  assert (∀ k, k < length (blocks (inode n) ++ new) * blk →
    file_byte blk (disk fs) (blocks (inode n) ++ new) k =
    if decide (k < length (blocks (inode n)) * blk)
    then file_byte blk (disk fs) (blocks (inode n)) k else Some zero_byte) as Hbytes.
  { intros k Hk. case_decide as Hd; [by apply file_byte_app_l|].
    destruct (lookup_lt_is_Some_2 (blocks (inode n) ++ new) (k / blk)) as [b Hb];
      [by apply div_lt_blocks|].
    eapply file_byte_zero_block; [done..|].
    rewrite lookup_app_r in Hb by (apply Nat.div_le_lower_bound; lia).
    by eapply (Forall_lookup_1 (λ b, disk fs !! b = Some _)). }
  destruct Hr as [[-> Hlen]|(-> & Hlen & Hz)].
  - destruct (shrink_spec blk ns i (length (blocks (inode n) ++ new) - required) (disk fs) a1
      (set_blocks n (blocks (inode n) ++ new)) Hw1) as (d' & a' & Hs & Hw2 & _ & Hsame & _);
      [simpl; lia|].
    simpl in *. rewrite Hs. set (bs := blocks (inode n) ++ new) in *.
    set (keep := take (length bs - (length bs - required)) bs) in *.
    assert (length bs = length (blocks (inode n)) + length new) as Hbs by apply length_app.
    assert (length keep = required) as Hkeep by (subst keep; rewrite length_take; lia).
    exists (ok tt), keep, d', a'. split_and!; [done|done| | |].
    + intros j m k Hne Hj. apply file_byte_ext. intros b Hb. apply Hsame. intros Hin.
      eapply (storage_other blk ns i (disk fs) a1 (set_blocks n bs) b j m); [done..| |done].
      simpl. by eapply elem_of_list_drop_in.
    + intros k Hk. rewrite <-Hbytes by nia.
      transitivity (file_byte blk (disk fs) keep k).
      * apply file_byte_ext. intros b Hb. apply Hsame. intros Hin.
        assert (NoDup bs) as Hnd.
        { eapply (sw_nodup _ _ _ _ Hw1 i (set_blocks n bs)). by rewrite lookup_insert_eq. }
        rewrite <-(take_drop (length bs - (length bs - required)) bs) in Hnd.
        apply NoDup_app in Hnd as (_ & Hd & _). by apply (Hd b).
      * unfold keep. apply file_byte_take; [done|]. rewrite Hkeep in Hk. nia.
    + left. unfold reachable_blocks. split_and!; [done|done|lia].
  - exists (error ErrorCode.OutOfMemory), (blocks (inode n) ++ new), (disk fs), a1.
    split_and!; [done|done|done|done|]. right. unfold reachable_blocks.
    split_and!; [done|done| |lia]. split; [done|]. exists new. unfold BlockAllocator.freeBlocks. split; [done|lia].
Qed.

(** ** The copy loops *)
Section copy.
Context (blk : nat) (bs : list nat).
Hypothesis Hpos : 0 < blk.

Definition cells_ok (d : list (list byte)) : Prop :=
  ∀ b, b ∈ bs → ∃ cells, d !! b = Some cells ∧ length cells = blk.

(** One iteration: the bytes of one block change, and only those. *)
Lemma write_chunk_spec d off chunk b cells :
  NoDup bs → cells_ok d → bs !! (off / blk) = Some b → d !! b = Some cells →
  off mod blk + length chunk ≤ blk →
  let d' := <[b := splice cells (off mod blk) chunk]> d in
  cells_ok d' ∧ length d' = length d ∧ (∀ b', b' ∉ bs → d' !! b' = d !! b') ∧
  (∀ b' cells', d' !! b' = Some cells' → b' ≠ b → d !! b' = Some cells') ∧
  ∀ k, file_byte blk d' bs k =
    if decide (off ≤ k < off + length chunk) then chunk !! (k - off) else file_byte blk d bs k.
Proof.
  intros Hnd Hok Hb Hd Hc d'.
  assert (b ∈ bs) as Hin by (by eapply list_elem_of_lookup_2).
  destruct (Hok b Hin) as (cells0 & Hd0 & Hlen). simplify_eq.
  assert (b < length d) as Hblen by (by eapply lookup_lt_Some).
  assert (length (splice cells (off mod blk) chunk) = blk) as Hsl by (rewrite length_splice; lia).
  split_and!.
  - intros b' Hb'. subst d'. destruct (decide (b' = b)) as [->|].
    + rewrite list_lookup_insert_eq by done. eauto.
    + rewrite list_lookup_insert_ne by done. by apply Hok.
  - apply length_insert.
  - intros b' Hb'. apply list_lookup_insert_ne. set_solver.
  - intros b' cells' Hl Hne. subst d'. by rewrite list_lookup_insert_ne in Hl.
  - intros k. pose proof (same_slot blk k off (length chunk) Hpos Hc) as Hslot.
    unfold file_byte. destruct (decide (k / blk = off / blk)) as [Heq|Hne].
    + rewrite Heq, Hb. simpl. subst d'. rewrite list_lookup_insert_eq, Hd by done. simpl.
      rewrite lookup_splice by lia. destruct (decide (off ≤ k < off + length chunk)) as [Hr|Hr].
      * rewrite decide_True by tauto. f_equal.
        destruct (slot_offset blk k Hpos), (slot_offset blk off Hpos). rewrite Heq in *. lia.
      * rewrite decide_False by tauto. done.
    + rewrite decide_False by tauto. destruct (bs !! (k / blk)) as [b'|] eqn:Hb'; [|done]. simpl.
      subst d'. rewrite list_lookup_insert_ne; [done|]. intros <-. apply Hne.
      by eapply NoDup_lookup.
Qed.

Lemma write_loop_spec fuel : ∀ off data written d,
  NoDup bs → cells_ok d → off + length data ≤ length bs * blk →
  length data - written ≤ fuel →
  ∃ d', write_loop fuel blk bs off data written d = Some d' ∧
    cells_ok d' ∧ length d' = length d ∧ (∀ b, b ∉ bs → d' !! b = d !! b) ∧
    ∀ k, file_byte blk d' bs k =
      if decide (off + written ≤ k < off + length data) then data !! (k - off)
      else file_byte blk d bs k.
Proof.
  induction fuel as [|fuel IH]; intros off data written d Hnd Hok Hlen Hfuel; simpl;
    destruct (Nat.leb_spec (length data) written) as [Hle|Hlt]; try lia.
  1, 2: exists d; split_and!; try done; intros k; rewrite decide_False by lia; done.
  set (abs := off + written). set (o := abs mod blk).
  set (chunk := Nat.min (blk - o) (length data - written)).
  assert (o < blk) as Ho by (apply Nat.mod_upper_bound; lia).
  destruct (lookup_lt_is_Some_2 bs (abs / blk)) as [b Hb]; [apply div_lt_blocks; lia|].
  rewrite Hb. destruct (Hok b) as (cells & Hd & Hcl); [by eapply list_elem_of_lookup_2|].
  rewrite Hd.
  assert (length (take chunk (drop written data)) = chunk) as Hchunk
    by (rewrite length_take, length_drop; lia).
  destruct (write_chunk_spec d abs (take chunk (drop written data)) b cells)
    as (Hok1 & Hl1 & Hout1 & _ & Hb1); [done..|fold o; lia|]. fold o in Hok1, Hl1, Hout1, Hb1.
  destruct (IH off data (written + chunk)
    (<[b := splice cells o (take chunk (drop written data))]> d)) as (d' & -> & Hok2 & Hl2 & Hout2 & Hb2);
    [done..|lia|].
  exists d'. split_and!; [done|done|congruence|intros; rewrite Hout2, Hout1; done|].
  intros k. rewrite Hb2, Hb1, Hchunk. subst abs.
  repeat case_decide; try lia; try done.
  rewrite lookup_take_lt, lookup_drop by lia. f_equal. lia.
Qed.

Lemma read_loop_spec fuel : ∀ d off total rd buffer,
  cells_ok d → off + total ≤ length bs * blk → total ≤ length buffer →
  total - rd ≤ fuel →
  ∃ buffer', read_loop fuel blk bs d off total rd buffer = Some buffer' ∧
    length buffer' = length buffer ∧
    ∀ k, buffer' !! k =
      if decide (rd ≤ k < total) then file_byte blk d bs (off + k) else buffer !! k.
Proof.
  induction fuel as [|fuel IH]; intros d off total rd buffer Hok Hlen Hbuf Hfuel; simpl;
    destruct (Nat.leb_spec total rd) as [Hle|Hlt]; try lia.
  1, 2: exists buffer; split_and!; try done; intros k; rewrite decide_False by lia; done.
  set (abs := off + rd). set (o := abs mod blk).
  set (chunk := Nat.min (blk - o) (total - rd)).
  assert (o < blk) as Ho by (apply Nat.mod_upper_bound; lia).
  destruct (lookup_lt_is_Some_2 bs (abs / blk)) as [b Hb]; [apply div_lt_blocks; lia|].
  rewrite Hb. destruct (Hok b) as (cells & Hd & Hcl); [by eapply list_elem_of_lookup_2|].
  rewrite Hd.
  assert (length (take chunk (drop o cells)) = chunk) as Hchunk
    by (rewrite length_take, length_drop; lia).
  destruct (IH d off total (rd + chunk) (splice buffer rd (take chunk (drop o cells))))
    as (buffer' & -> & Hl & Hk); [done|done|rewrite length_splice; lia|lia|].
  rewrite length_splice in Hl by lia.
  exists buffer'. split_and!; [done|done|]. intros k. rewrite Hk, lookup_splice, Hchunk by lia.
  repeat case_decide; try lia; try done.
  pose proof (same_slot blk (off + k) abs chunk Hpos ltac:(fold o; lia)) as Hslot.
  unfold file_byte. destruct Hslot as [[Hs1 Hs2] _]; [subst abs; lia|].
  rewrite Hs1, Hb. simpl. rewrite Hd. simpl. rewrite lookup_take_lt, lookup_drop by lia.
  f_equal. destruct (slot_offset blk (off + k) Hpos), (slot_offset blk abs Hpos).
  subst o abs. rewrite Hs1 in *. lia.
Qed.
End copy.
