(* ===== verification/FsPath.v ===== *)
(** * FsPath: absolute paths of the file system

    A grammar of the paths [splitPath] accepts, and the proof that it parses
    exactly that grammar. *)
From Stdlib Require Import Ascii String.
From S2P Require Import Prelude Core BlockAlloc SimpleFs.
#[local] Arguments String.append : simpl nomatch.

Fixpoint slash_free (s : string) : bool :=
  match s with EmptyString => true | String c s' => negb (is_slash c) && slash_free s' end.

(** A run of [n] slashes. *)
Fixpoint slashes (n : nat) : string :=
  match n with 0 => EmptyString | S n' => String "/" (slashes n') end.

(** A component name: non-empty, without slashes, not [.] or [..]. *)
Definition valid_name (tok : string) : Prop := slash_free tok = true ∧ bad_token tok = false.
#[global] Instance valid_name_dec tok : Decision (valid_name tok).
Proof. unfold valid_name. apply _. Defined.

(** What may follow the leading slash: components separated by one or more
    slashes, with slashes allowed at both ends. *)
Inductive path_form : string → list string → Prop :=
| pf_end n : path_form (slashes n) []
| pf_last n tok : valid_name tok → path_form (slashes n +:+ tok) [tok]
| pf_cons n tok rest toks : valid_name tok → path_form rest toks →
    path_form (slashes n +:+ tok +:+ String "/" rest) (tok :: toks).

(** The canonical spelling of a list of components. *)
Definition path_of (toks : list string) : string :=
  match toks with
  | [] => "/"%string
  | _ => foldr (λ tok acc, String "/" (tok +:+ acc)) EmptyString toks
  end.

Lemma string_app_nil_r s : s +:+ EmptyString = s.
Proof. induction s as [|c s IH]; simpl; congruence. Qed.
Lemma string_app_length s1 s2 :
  String.length (s1 +:+ s2) = String.length s1 + String.length s2.
Proof. induction s1 as [|c s1 IH]; simpl; congruence. Qed.

Lemma skip_slashes_form s : ∃ n, s = slashes n +:+ skip_slashes s.
Proof.
  induction s as [|c s [n IH]]; simpl; [by exists 0|].
  unfold is_slash. destruct (Ascii.eqb_spec c "/") as [->|]; [|by exists 0].
  exists (S n). simpl. by f_equal.
Qed.

Lemma skip_slashes_slashes n s : skip_slashes (slashes n +:+ s) = skip_slashes s.
Proof. induction n; simpl; done. Qed.
Lemma skip_slashes_token tok rest :
  slash_free tok = true → tok ≠ EmptyString → skip_slashes (tok +:+ rest) = tok +:+ rest.
Proof.
  destruct tok as [|c tok]; simpl; [done|]. intros [Hc _]%andb_prop _.
  by destruct (is_slash c).
Qed.
Lemma skip_slashes_nonempty s c s' : skip_slashes s = String c s' → is_slash c = false.
Proof.
  induction s as [|c0 s IH]; simpl; [done|].
  destruct (is_slash c0) eqn:E; [done|]. intros [= <- <-]. done.
Qed.

Lemma cut_at_slash_spec s :
  match cut_at_slash s with
  | (tok, None) => s = tok ∧ slash_free tok = true
  | (tok, Some rest) => s = tok +:+ String "/" rest ∧ slash_free tok = true
  end.
Proof.
  induction s as [|c s IH]; simpl; [done|].
  destruct (is_slash c) eqn:E.
  - unfold is_slash in E. apply Ascii.eqb_eq in E as ->. done.
  - destruct (cut_at_slash s) as [tok [rest|]]; destruct IH as [-> Hf];
      simpl; rewrite E; done.
Qed.

Lemma cut_at_slash_token tok : slash_free tok = true → cut_at_slash tok = (tok, None).
Proof.
  induction tok as [|c tok IH]; simpl; [done|]. intros [Hc Ht]%andb_prop.
  destruct (is_slash c); [done|]. by rewrite IH.
Qed.
Lemma cut_at_slash_cons tok rest :
  slash_free tok = true → cut_at_slash (tok +:+ String "/" rest) = (tok, Some rest).
Proof.
  induction tok as [|c tok IH]; simpl; [done|]. intros [Hc Ht]%andb_prop.
  destruct (is_slash c); [done|]. by rewrite IH.
Qed.

#[local] Arguments cut_at_slash : simpl never.
#[local] Arguments skip_slashes : simpl never.

Lemma scan_tokens_slash_free fuel s :
  Forall (λ tok, slash_free tok = true ∧ tok ≠ EmptyString) (scan_tokens fuel s).
Proof.
  revert s. induction fuel as [|fuel IH]; intros s; simpl; [constructor|].
  destruct (skip_slashes s) as [|c s'] eqn:E; [constructor|].
  pose proof (cut_at_slash_spec (String c s')) as Hc.
  pose proof (skip_slashes_nonempty _ _ _ E) as Hn.
  destruct (cut_at_slash (String c s')) as [tok [rest|]]; destruct Hc as [Heq Hf].
  - constructor; [|apply IH]. split; [done|]. intros ->. simpl in Heq.
    injection Heq as -> _. done.
  - constructor; [|constructor]. split; [done|]. by intros ->.
Qed.

(** The scan of a well-formed path reads its components, given fuel for the
    characters of the path. *)
Lemma scan_tokens_form s toks :
  path_form s toks → ∀ fuel, String.length s < fuel → scan_tokens fuel s = toks.
Proof.
  assert (∀ tok, valid_name tok → tok ≠ EmptyString) as Hne.
  { intros tok [_ Hb] ->. done. }
  induction 1 as [n|n tok Hv|n tok rest toks Hv Hf IH]; intros [|fuel] Hl; simpl; try lia.
  - rewrite <-(string_app_nil_r (slashes n)), skip_slashes_slashes. done.
  - pose proof (skip_slashes_token tok "" (proj1 Hv) (Hne _ Hv)) as Hs.
    rewrite string_app_nil_r in Hs. rewrite skip_slashes_slashes, Hs.
    pose proof (cut_at_slash_token tok (proj1 Hv)) as Hcut.
    destruct tok; [by edestruct Hne|]. by rewrite Hcut.
  - rewrite skip_slashes_slashes, skip_slashes_token by (apply Hv || by apply Hne).
    pose proof (cut_at_slash_cons tok rest (proj1 Hv)) as Hcut.
    rewrite !string_app_length in Hl. simpl in Hl.
    destruct tok; [by edestruct Hne|]. simpl in *. rewrite Hcut, IH by lia. done.
Qed.

(** And what it reads from any path makes that path well formed. *)
Lemma scan_tokens_sound fuel : ∀ s, String.length s < fuel →
  Forall (λ tok, bad_token tok = false) (scan_tokens fuel s) → path_form s (scan_tokens fuel s).
Proof.
  induction fuel as [|fuel IH]; intros s Hl; [lia|].
  pose proof (scan_tokens_slash_free (S fuel) s) as Hfree.
  destruct (skip_slashes_form s) as [n Hn]. simpl in *.
  destruct (skip_slashes s) as [|c s'] eqn:E.
  { intros _. rewrite Hn, string_app_nil_r. constructor. }
  pose proof (cut_at_slash_spec (String c s')) as Hc.
  destruct (cut_at_slash (String c s')) as [tok [rest|]]; destruct Hc as [Heq Hf].
  - intros [Hb Hbs]%Forall_cons. apply Forall_cons in Hfree as [[_ Hne] _].
    rewrite Hn, Heq. constructor; [done|]. apply IH; [|done].
    rewrite Hn, Heq, !string_app_length in Hl. simpl in Hl. lia.
  - intros [Hb _]%Forall_cons. rewrite Hn, Heq. by constructor.
Qed.

Lemma existsb_bad_token toks :
  existsb bad_token toks = false ↔ Forall (λ tok, bad_token tok = false) toks.
Proof.
  rewrite Forall_forall. split.
  - intros H x Hx. destruct (bad_token x) eqn:E; [|done].
    rewrite <-not_true_iff_false in H. exfalso. apply H, existsb_exists.
    exists x. by rewrite <-list_elem_of_In.
  - intros H. apply not_true_iff_false. intros (x & Hx & Hb)%existsb_exists.
    rewrite <-list_elem_of_In in Hx. apply H in Hx. congruence.
Qed.

Lemma path_form_valid s toks : path_form s toks → Forall valid_name toks.
Proof. by induction 1; constructor. Qed.

Lemma path_form_path_of toks :
  Forall valid_name toks → ∃ s, path_of toks = String "/" s ∧ path_form s toks.
Proof.
  intros Hv. destruct toks as [|tok toks]; simpl; [exists ""%string; split; [done|apply (pf_end 0)]|].
  eexists; split; [done|]. apply Forall_cons in Hv as [Hv Hvs].
  revert tok Hv. induction toks as [|tok' toks IH]; intros tok Hv; simpl.
  - rewrite string_app_nil_r. by apply (pf_last 0).
  - apply Forall_cons in Hvs as [Hv' Hvs]. apply (pf_cons 0); [done|]. by apply IH.
Qed.

Lemma splitPath_valid path toks : splitPath path = ok toks → Forall valid_name toks.
Proof.
  unfold splitPath. destruct path as [|c rest]; [done|]. destruct (is_slash c); [|done].
  destruct (existsb _ _) eqn:E; [done|]. intros [= <-]. rewrite existsb_bad_token in E.
  pose proof (scan_tokens_slash_free (S (String.length rest)) rest) as Hf.
  rewrite Forall_forall in *. intros x Hx. split; [by apply Hf|by apply E].
Qed.

(** C24: [splitPath] accepts exactly the absolute paths of the grammar
    [path_form] and returns their components, whatever the number of slashes
    between and around them. *)
Theorem splitPath_grammar path toks :
  splitPath path = ok toks ↔ ∃ rest, path = String "/" rest ∧ path_form rest toks.
Proof.
  split.
  - unfold splitPath. destruct path as [|c rest]; [done|]. unfold is_slash.
    destruct (Ascii.eqb_spec c "/") as [->|]; [|done].
    destruct (existsb _ _) eqn:E; [done|]. intros [= <-]. exists rest. split; [done|].
    apply (scan_tokens_sound (S (String.length rest))); [lia|]. by apply existsb_bad_token.
  - intros (rest & -> & Hf). unfold splitPath. cbn -[scan_tokens].
    rewrite (scan_tokens_form _ _ Hf) by lia.
    apply path_form_valid in Hf.
    assert (existsb bad_token toks = false) as ->; [|done].
    apply existsb_bad_token. eapply Forall_impl; [exact Hf|]. by intros ? [].
Qed.

(** The canonical spelling of a list of names parses back to it. *)
Lemma splitPath_path_of toks : Forall valid_name toks → splitPath (path_of toks) = ok toks.
Proof.
  intros Hv. apply splitPath_grammar. by apply path_form_path_of.
Qed.
