(* ===== verification/FsInvariant.v ===== *)
(** * FsInvariant: well-formed file systems

    The invariant of a [SimpleFS] state and its preservation by every
    operation: the operations never leave the language (no index out of range)
    and keep the inode tree, the block ownership and the descriptors
    consistent. *)
From Stdlib Require Import Ascii String.
From S2P Require Import Prelude Core BlockAlloc SimpleFs FsStore FsPath.

(** ** The inode tree *)
Record tree_wf (ns : gmap Z Node) (next : Z) : Prop := {
  tw_root : ∃ n, ns !! ROOT_INODE_ID = Some n ∧ type (inode n) = Directory ∧
    parent (inode n) = None;
  tw_id i n : ns !! i = Some n → inode_id (inode n) = i ∧ (ROOT_INODE_ID ≤ i < next)%Z;
  tw_file i n : ns !! i = Some n → type (inode n) = File → children n = ∅;
  tw_dir i n : ns !! i = Some n → type (inode n) = Directory →
    blocks (inode n) = [] ∧ inode_size (inode n) = size (children n);
  tw_child i n name c : ns !! i = Some n → children n !! name = Some c →
    valid_name name ∧ ∃ m, ns !! c = Some m ∧ parent (inode m) = Some i;
  tw_one_name i n name1 name2 c : ns !! i = Some n →
    children n !! name1 = Some c → children n !! name2 = Some c → name1 = name2;
  tw_parent c m p : ns !! c = Some m → parent (inode m) = Some p →
    (p < c)%Z ∧ ∃ n name, ns !! p = Some n ∧ children n !! name = Some c;
  tw_orphan c m : ns !! c = Some m → parent (inode m) = None → c = ROOT_INODE_ID
}.

Record fs_wf (fs : fs_state) : Prop := {
  wf_storage : storage_wf (blockSize fs) (disk fs) (allocator fs) (nodes fs);
  wf_bytes i n : nodes fs !! i = Some n → type (inode n) = File →
    bytes_wf (blockSize fs) (disk fs) n;
  wf_tree : tree_wf (nodes fs) (nextInodeId fs);
  wf_next : (1 < nextInodeId fs)%Z;
  wf_fds : FileDescriptorTable.fd_inv (fdTable fs);
  wf_fd_file fd st : FileDescriptorTable.entries (fdTable fs) !! fd = Some st →
    (inodeId st < nextInodeId fs)%Z ∧
    ∀ n, nodes fs !! inodeId st = Some n → type (inode n) = File
}.

Definition node_contents (fs : fs_state) (n : Node) : list byte :=
  contents (blockSize fs) (disk fs) n.

(** ** Writing into one file *)

(** The specification of a write on byte strings: the gap up to the offset
    reads as zeros. *)
Definition write_at (c : list byte) (off : nat) (data : list byte) : list byte :=
  match data with
  | [] => c
  | _ => splice (c ++ replicate (off + length data - length c) zero_byte) off data
  end.

(** The part of a node the data operations keep. *)
Definition same_meta (n n' : Node) : Prop :=
  inode_id (inode n') = inode_id (inode n) ∧ type (inode n') = type (inode n) ∧
  parent (inode n') = parent (inode n) ∧ children n' = children n.

(** The part of the state the data operations keep. *)
Definition same_frame (fs fs' : fs_state) : Prop :=
  blockSize fs' = blockSize fs ∧ fdTable fs' = fdTable fs ∧ nodes fs' = nodes fs ∧
  nextInodeId fs' = nextInodeId fs.

Lemma lookup_write_at c off data k :
  data ≠ [] →
  write_at c off data !! k =
  if decide (k < Nat.max (length c) (off + length data)) then
    if decide (off ≤ k < off + length data) then data !! (k - off)
    else if decide (k < length c) then c !! k else Some zero_byte
  else None.
Proof.
  intros Hd. unfold write_at. destruct data as [|x data]; [done|].
  rewrite lookup_splice by (rewrite length_app, length_replicate; lia).
  set (l := length (x :: data)) in *.
  repeat case_decide; try lia; try done.
  - by apply lookup_app_l.
  - rewrite lookup_app_r by lia. apply lookup_replicate_2. lia.
  - rewrite lookup_app_r by lia. apply lookup_ge_None. rewrite length_replicate. lia.
Qed.

Lemma length_write_at c off data :
  length (write_at c off data) =
  if decide (data = []) then length c else Nat.max (length c) (off + length data).
Proof.
  case_decide; [by subst|]. destruct data; [done|]. unfold write_at.
  rewrite length_splice; rewrite length_app, length_replicate; lia.
Qed.

Lemma ensure_contents_grow blk d d' n bs' :
  inode_size (inode n) ≤ length (blocks (inode n)) * blk →
  inode_size (inode n) ≤ length bs' * blk →
  (∀ k, k < length bs' * blk → file_byte blk d' bs' k =
     if decide (k < length (blocks (inode n)) * blk)
     then file_byte blk d (blocks (inode n)) k else Some zero_byte) →
  contents blk d' (set_blocks n bs') = contents blk d n.
Proof.
  intros H1 H2 Hb. apply contents_ext; [done|]. intros k Hk. simpl.
  rewrite Hb by lia. by rewrite decide_True by lia.
Qed.

(** Rewriting the cells of one file's blocks keeps the storage sound. *)
Lemma storage_wf_written blk d d' a ns i n :
  storage_wf blk d a (<[i := n]> ns) → length d' = length d →
  (∀ b, b ∈ blocks (inode n) → ∃ cells, d' !! b = Some cells ∧ length cells = blk) →
  (∀ b, b ∉ blocks (inode n) → d' !! b = d !! b) → storage_wf blk d' a (<[i := n]> ns).
Proof.
  intros [H1 H2 H3 H4 H5 H6 H7 H8] Hlen Hok Hout. split; try done.
  - by rewrite Hlen.
  - intros b cells Hd. destruct (decide (b ∈ blocks (inode n))) as [Hin|Hnin].
    + destruct (Hok b Hin) as (c & ? & ?). by simplify_eq.
    + rewrite Hout in Hd by done. by eapply H4.
  - intros b Hfree. rewrite Hout; [by apply H8|]. intros Hin.
    assert (BlockAllocator.freeBitmap a !! b = Some false) by (apply H7, owned_insert; by left). congruence.
Qed.

(** The bytes of a file after its blocks were grown to [bs'] and then written:
    what [write_at] says. *)
Lemma written_contents blk d d1 d2 n bs' off data t :
  data ≠ [] → bytes_wf blk d n →
  Nat.max (inode_size (inode n)) (off + length data) ≤ length bs' * blk →
  (∀ k, k < length bs' * blk → file_byte blk d1 bs' k =
     if decide (k < length (blocks (inode n)) * blk)
     then file_byte blk d (blocks (inode n)) k else Some zero_byte) →
  (∀ k, file_byte blk d2 bs' k =
     if decide (off ≤ k < off + length data) then data !! (k - off) else file_byte blk d1 bs' k) →
  let n' := set_size (set_blocks n bs') (Nat.max (inode_size (inode n)) (off + length data)) t in
  bytes_wf blk d2 n' ∧ contents blk d2 n' = write_at (contents blk d n) off data.
Proof.
  intros Hdata [Hsize Htail] Hcov Hby1 Hby2 n'. split.
  - split; simpl; [lia|]. intros k Hk1 Hk2. rewrite Hby2, decide_False, Hby1 by lia.
    case_decide; [|done]. apply Htail; lia.
  - apply list_eq. intros k. rewrite lookup_write_at by done. rewrite length_contents. simpl.
    rewrite !lookup_contents. simpl. case_decide as Hk; [|done]. rewrite Hby2. case_decide as Hin.
    + destruct (lookup_lt_is_Some_2 data (k - off)) as [x Hx]; [lia|]. by rewrite Hx.
    + rewrite Hby1 by lia. case_decide as Hold; [|case_decide; [lia|done]].
      case_decide; [done|]. by rewrite Htail by lia.
Qed.

Lemma writeToNode_spec fs i n off data :
  storage_wf (blockSize fs) (disk fs) (allocator fs) (<[i := n]> (nodes fs)) →
  bytes_wf (blockSize fs) (disk fs) n →
  let needed := requiredBlocks (blockSize fs)
                  (Nat.max (inode_size (inode n)) (off + length data)) in
  ∃ r n' fs',
    writeToNode fs n off data = Some (r, n', fs') ∧
    storage_wf (blockSize fs) (disk fs') (allocator fs') (<[i := n']> (nodes fs)) ∧
    bytes_wf (blockSize fs) (disk fs') n' ∧
    others_same (blockSize fs) (disk fs) (disk fs') (nodes fs) i ∧
    same_frame fs fs' ∧ same_meta n n' ∧
    (r = ok (length data) ∧ node_contents fs' n' = write_at (node_contents fs n) off data ∧
       (data = [] ∨ needed ≤ reachable_blocks fs n) ∨
     r = error ErrorCode.OutOfMemory ∧ node_contents fs' n' = node_contents fs n ∧
       data ≠ [] ∧ reachable_blocks fs n < needed ∧
       fs' = set_storage fs (disk fs) (allocator fs') ∧ n' = set_blocks n (blocks (inode n')) ∧
       took_all (allocator fs) (blocks (inode n)) (allocator fs') (blocks (inode n'))).
Proof.
  intros Hw Hb needed. unfold writeToNode. case_decide as Hdata.
  { exists (ok 0), n, fs. subst data. split_and!; try done. left. split_and!; auto. }
  set (endo := off + length data) in *.
  destruct (ensureFileBlocks_spec fs (nodes fs) i n (Nat.max (inode_size (inode n)) endo) Hw)
    as (r & bs' & d1 & a1 & -> & Hw1 & Hoth1 & Hby1 & Hr).
  fold needed in Hr. pose proof (sw_pos _ _ _ _ Hw) as Hpos.
  destruct Hb as [Hsize Htail].
  destruct Hr as [(-> & Hlen & Hreach)|(-> & -> & Htook & Hreach)].
  - assert (Nat.max (inode_size (inode n)) endo ≤ length bs' * blockSize fs) as Hcov
      by (rewrite Hlen; by apply requiredBlocks_covers).
    assert (NoDup bs') as Hnd.
    { eapply (sw_nodup _ _ _ _ Hw1 i (set_blocks n bs')). by rewrite lookup_insert_eq. }
    destruct (write_loop_spec (blockSize fs) bs' Hpos (length data) off data 0 d1)
      as (d2 & Hl & Hok2 & Hlen2 & Hout2 & Hby2); [done| |subst endo; lia|lia|].
    { intros b Hbin. eapply (storage_range _ _ i d1 a1 (set_blocks n bs')) in Hbin as [_ ?]; done. }
    simpl. rewrite Hl. rewrite Nat.add_0_r in Hby2.
    destruct (written_contents (blockSize fs) (disk fs) d1 d2 n bs' off data (u64 (tick fs + 1))) as [Hbw Hct]; [done..|].
    eexists _, _, _. split; [done|]. split_and!; [|exact Hbw| |done|done|].
    + apply (storage_wf_same_blocks _ _ _ _ _ (set_blocks n bs')); [done|].
      by apply (storage_wf_written _ d1).
    + eapply others_same_trans; [exact Hoth1|]. intros j m k Hne Hj. apply file_byte_ext.
      intros b Hbm. apply Hout2. intros Hin.
      by eapply (storage_other _ _ i d1 a1 (set_blocks n bs') b j m).
    + left. split; [done|]. split; [exact Hct|by right].
  - eexists _, _, _. split; [done|]. simpl.
    assert (length (blocks (inode n)) ≤ length bs') as Hlen
      by (destruct Htook as (_ & new & -> & _); rewrite length_app; lia).
    assert (length (blocks (inode n)) * blockSize fs ≤ length bs' * blockSize fs) by nia.
    split_and!; try done.
    + split; simpl; [lia|]. intros k Hk1 Hk2. rewrite Hby1 by lia. case_decide; [|done].
      by apply Htail.
    + right. split_and!; [done| |done..]. apply ensure_contents_grow; [done|lia|done].
Qed.

(** Truncation: all blocks are returned. *)
Lemma truncate_spec fs i n :
  storage_wf (blockSize fs) (disk fs) (allocator fs) (<[i := n]> (nodes fs)) →
  ∃ d' a',
    ensureFileBlocks fs n 0 = Some (ok tt, set_blocks n [], set_storage fs d' a') ∧
    storage_wf (blockSize fs) d' a' (<[i := set_blocks n []]> (nodes fs)) ∧
    others_same (blockSize fs) (disk fs) d' (nodes fs) i.
Proof.
  intros Hw. destruct (ensureFileBlocks_spec fs (nodes fs) i n 0 Hw)
    as (r & bs' & d1 & a1 & -> & Hw1 & Hoth & _ & Hr).
  change (requiredBlocks (blockSize fs) 0) with 0 in Hr.
  destruct Hr as [(-> & Hlen & _)|(_ & _ & _ & ?)]; [|lia].
  destruct bs'; [|done]. eauto.
Qed.

(** Reading copies the requested range of the contents, cut at the end of the
    file, to the front of the buffer. *)
Definition read_at (c : list byte) (off len : nat) : list byte := take len (drop off c).

Lemma length_read_at c off len : length (read_at c off len) = Nat.min len (length c - off).
Proof. unfold read_at. by rewrite length_take, length_drop. Qed.

Lemma readFromNode_spec fs i n off buffer :
  storage_wf (blockSize fs) (disk fs) (allocator fs) (nodes fs) →
  nodes fs !! i = Some n → bytes_wf (blockSize fs) (disk fs) n →
  let data := read_at (node_contents fs n) off (length buffer) in
  readFromNode fs n off buffer = Some (ok (length data), splice buffer 0 data).
Proof.
  intros Hw Hi [Hsize _] data. pose proof (sw_pos _ _ _ _ Hw) as Hpos.
  assert (length data = Nat.min (length buffer) (inode_size (inode n) - off)) as Hlen.
  { subst data. rewrite length_read_at. unfold node_contents. by rewrite length_contents. }
  unfold readFromNode. case_decide as Hb.
  { destruct data; [|subst buffer; simpl in Hlen; lia]. by rewrite splice_nil. }
  destruct (Nat.leb_spec (inode_size (inode n)) off).
  { destruct data; [|simpl in Hlen; lia]. by rewrite splice_nil. }
  rewrite <-Hlen.
  destruct (read_loop_spec (blockSize fs) (blocks (inode n)) Hpos (length data) (disk fs) off
    (length data) 0 buffer) as (buffer' & -> & Hl & Hk); [|lia..|].
  { intros b Hin.
    eapply (storage_range _ (nodes fs) i _ _ n b) in Hin as [_ Hc]; [done|].
    by rewrite insert_id. }
  f_equal. f_equal. apply list_eq. intros k. rewrite Hk, lookup_splice by lia. rewrite Nat.sub_0_r.
  repeat case_decide; try lia; [|done].
  subst data. unfold read_at. rewrite lookup_take_lt, lookup_drop by lia.
  unfold node_contents. rewrite lookup_contents, decide_True by lia.
  destruct (file_byte_in_range _ _ _ _ i n (off + k) Hw Hi) as [x Hx]; [lia|]. by rewrite Hx.
Qed.

(** ** Changing the data of one file *)
Lemma tree_wf_same_meta ns next i n n' :
  tree_wf ns next → ns !! i = Some n → type (inode n) = File → same_meta n n' →
  tree_wf (<[i := n']> ns) next.
Proof.
  intros [Hr Hid Hf Hd Hc H1 Hp Ho] Hi Hty (E1 & E2 & E3 & E4).
  assert (∀ j m', <[i := n']> ns !! j = Some m' → ∃ m, ns !! j = Some m ∧ same_meta m m' ∧
    (type (inode m) = Directory → m' = m)) as Hback.
  { intros j m' [[<- <-]|[? Hm]]%lookup_insert_Some; [exists n|exists m'].
    - split; [done|]. split; [done|congruence].
    - done. }
  assert (∀ j m, ns !! j = Some m → ∃ m', <[i := n']> ns !! j = Some m' ∧ same_meta m m' ∧
    (type (inode m) = Directory → m' = m)) as Hfwd.
  { intros j m Hj. destruct (decide (i = j)) as [->|].
    - exists n'. rewrite lookup_insert_eq. simplify_eq. split; [done|]. split; [done|congruence].
    - exists m. by rewrite lookup_insert_ne. }
  split.
  - destruct Hr as (r & Hr & Ht & ?). destruct (Hfwd _ _ Hr) as (r' & ? & _ & Heq).
    specialize (Heq Ht) as ->. by exists r.
  - intros j m' Hj. destruct (Hback _ _ Hj) as (m & Hm & (-> & _) & _). by apply Hid.
  - intros j m' Hj Ht. destruct (Hback _ _ Hj) as (m & Hm & (_ & Et & _ & ->) & _).
    apply (Hf j m Hm). congruence.
  - intros j m' Hj Ht. destruct (Hback _ _ Hj) as (m & Hm & (_ & Et & _ & _) & Heq).
    assert (m' = m) as -> by (apply Heq; congruence). by apply (Hd j).
  - intros j m' name c Hj Hn. destruct (Hback _ _ Hj) as (m & Hm & (_ & _ & _ & Ec) & _).
    rewrite Ec in Hn. destruct (Hc _ _ _ _ Hm Hn) as (? & k & Hk & Hpk). split; [done|].
    destruct (Hfwd _ _ Hk) as (k' & ? & (_ & _ & Ep & _) & _). exists k'. by rewrite Ep.
  - intros j m' name1 name2 c Hj. destruct (Hback _ _ Hj) as (m & Hm & (_ & _ & _ & ->) & _).
    by eapply H1.
  - intros c m' p Hm' Hpm. destruct (Hback _ _ Hm') as (m & Hm & (_ & _ & Ep & _) & _).
    rewrite Ep in Hpm. destruct (Hp _ _ _ Hm Hpm) as (? & q & name & Hq & Hn). split; [done|].
    destruct (Hfwd _ _ Hq) as (q' & ? & (_ & _ & _ & Ec) & _). exists q', name. by rewrite Ec.
  - intros c m' Hm' Hpm. destruct (Hback _ _ Hm') as (m & Hm & (_ & _ & Ep & _) & _).
    apply (Ho c m); congruence.
Qed.

Lemma bytes_wf_ext blk d d' n :
  (∀ k, file_byte blk d' (blocks (inode n)) k = file_byte blk d (blocks (inode n)) k) →
  bytes_wf blk d n → bytes_wf blk d' n.
Proof. intros E [H1 H2]. split; [done|]. intros k ??. rewrite E. by apply H2. Qed.

Lemma fs_wf_update fs i n n' d a t :
  fs_wf fs → nodes fs !! i = Some n → type (inode n) = File → same_meta n n' →
  storage_wf (blockSize fs) d a (<[i := n']> (nodes fs)) →
  bytes_wf (blockSize fs) d n' → others_same (blockSize fs) (disk fs) d (nodes fs) i →
  fs_wf (MkFs (blockSize fs) d a (fdTable fs) (<[i := n']> (nodes fs)) (nextInodeId fs) t).
Proof.
  intros [Hs Hb Ht Hn Hfd Hff] Hi Hty Hm Hw Hby Hoth. split; simpl; try done.
  - intros j m [[<- <-]|[Hne Hj]]%lookup_insert_Some Hf; [done|].
    eapply bytes_wf_ext; [|by apply (Hb j)]. intros k. by apply (Hoth j m k).
  - by eapply tree_wf_same_meta.
  - intros fd st Hst. destruct (Hff fd st Hst) as [? Hfile]. split; [done|].
    intros m [[-> ->]|[Hne Hj]]%lookup_insert_Some; [|by apply Hfile].
    destruct Hm as (_ & -> & _). done.
Qed.

(** Only the descriptor table changes. *)
Lemma fs_wf_set_fdTable fs ft :
  fs_wf fs → FileDescriptorTable.fd_inv ft →
  (∀ fd st, FileDescriptorTable.entries ft !! fd = Some st →
    (inodeId st < nextInodeId fs)%Z ∧
    ∀ n, nodes fs !! inodeId st = Some n → type (inode n) = File) →
  fs_wf (set_fdTable fs ft).
Proof. intros [????? Hff] ? ?. by split. Qed.

(** ** Creating and removing nodes *)

(** A child of one directory is not a child of another, nor the root. *)
Lemma tree_child ns next i n name c :
  tree_wf ns next → ns !! i = Some n → children n !! name = Some c →
  valid_name name ∧ (i < c)%Z ∧ ∃ m, ns !! c = Some m ∧ parent (inode m) = Some i.
Proof.
  intros Ht Hi Hn. destruct (tw_child _ _ Ht _ _ _ _ Hi Hn) as (Hv & m & Hm & Hp).
  destruct (tw_parent _ _ Ht _ _ _ Hm Hp) as [? _]. split_and!; eauto.
Qed.

(** The two directions of the tree's links: [edge], from a directory to an
    entry; [up], from an inode to its parent. *)
Definition edge (ns : gmap Z Node) (i : Z) (name : string) (c : Z) : Prop :=
  ∃ n, ns !! i = Some n ∧ children n !! name = Some c.
Definition up (ns : gmap Z Node) (c i : Z) : Prop := ∃ m, ns !! c = Some m ∧ parent (inode m) = Some i.

(** The link fields of [tree_wf], on the two relations. *)
Record links_wf (ns : gmap Z Node) : Prop := {
  lw_child i name c : edge ns i name c → valid_name name ∧ up ns c i;
  lw_one_name i name1 name2 c : edge ns i name1 c → edge ns i name2 c → name1 = name2;
  lw_parent c i : up ns c i → (i < c)%Z ∧ ∃ name, edge ns i name c
}.

Lemma tree_links ns next : tree_wf ns next → links_wf ns.
Proof.
  intros Ht. split.
  - intros i name c (n & Hi & Hn). by destruct (tw_child _ _ Ht _ _ _ _ Hi Hn).
  - intros i name1 name2 c (n & Hi & Hn) (n' & Hi' & Hn'). simplify_eq. by eapply (tw_one_name _ _ Ht).
  - intros c i (m & Hm & Hp). destruct (tw_parent _ _ Ht _ _ _ Hm Hp) as (? & n & name & ? & ?).
    split; [done|]. by exists name, n.
Qed.

Lemma links_tree ns next :
  (∃ n, ns !! ROOT_INODE_ID = Some n ∧ type (inode n) = Directory ∧ parent (inode n) = None) →
  (∀ i n, ns !! i = Some n → (inode_id (inode n) = i ∧ (ROOT_INODE_ID ≤ i < next)%Z) ∧
    (type (inode n) = File → children n = ∅) ∧
    (type (inode n) = Directory → blocks (inode n) = [] ∧ inode_size (inode n) = size (children n)) ∧
    (parent (inode n) = None → i = ROOT_INODE_ID)) →
  links_wf ns → tree_wf ns next.
Proof.
  intros Hr Hn [H1 H2 H3]. split; [done|intros i n Hi; by destruct (Hn i n Hi) as (?&?&?&?)..| | | |].
  - intros i n name c Hi Hc. apply (H1 i name c). by exists n.
  - intros i n name1 name2 c Hi Hc1 Hc2. by apply (H2 i name1 name2 c); exists n.
  - intros c m p Hm Hp. destruct (H3 c p) as (? & name & n & ? & ?); [by exists m|]. eauto.
  - intros i n Hi. by destruct (Hn i n Hi) as (?&?&?&?).
Qed.

Lemma tree_edge_insert ns p pn i nm c :
  edge (<[p := pn]> ns) i nm c ↔ (i = p ∧ children pn !! nm = Some c) ∨ (i ≠ p ∧ edge ns i nm c).
Proof. unfold edge. setoid_rewrite lookup_insert_Some. naive_solver. Qed.
Lemma up_insert ns p pn c i :
  up (<[p := pn]> ns) c i ↔ (c = p ∧ parent (inode pn) = Some i) ∨ (c ≠ p ∧ up ns c i).
Proof. unfold up. setoid_rewrite lookup_insert_Some. naive_solver. Qed.
Lemma tree_edge_delete ns x i nm c : edge (delete x ns) i nm c ↔ i ≠ x ∧ edge ns i nm c.
Proof. unfold edge. setoid_rewrite lookup_delete_Some. naive_solver. Qed.
Lemma up_delete ns x c i : up (delete x ns) c i ↔ c ≠ x ∧ up ns c i.
Proof. unfold up. setoid_rewrite lookup_delete_Some. naive_solver. Qed.
Lemma edge_at ns p pn nm c : ns !! p = Some pn → edge ns p nm c ↔ children pn !! nm = Some c.
Proof. intros. unfold edge. naive_solver. Qed.
Lemma up_at ns p pn i : ns !! p = Some pn → up ns p i ↔ parent (inode pn) = Some i.
Proof. intros. unfold up. naive_solver. Qed.

(** Linking and unlinking one entry, on well-linked maps. *)
Lemma links_add ns ns' p name next :
  links_wf ns → valid_name name → (p < next)%Z → (∀ nm c, edge ns p nm c → c ≠ next) →
  (∀ i nm c, edge ns' i nm c ↔ edge ns i nm c ∨ (i = p ∧ nm = name ∧ c = next)) →
  (∀ c q, up ns' c q ↔ up ns c q ∨ (c = next ∧ q = p)) → links_wf ns'.
Proof.
  intros [H1 H2 H3] Hv Hlt Hfresh He Hu. split.
  - intros i nm c [Hin|(-> & -> & ->)]%He; [|split; [done|apply Hu; by right]].
    destruct (H1 _ _ _ Hin). split; [done|]. apply Hu. by left.
  - intros i n1 n2 c [Hi1|Hi1]%He [Hi2|Hi2]%He; [by eapply H2|..]; destruct_and?; subst; [| |done].
    + by destruct (Hfresh n1 next).
    + by destruct (Hfresh n2 next).
  - intros c q [Hq|[-> ->]]%Hu.
    + destruct (H3 _ _ Hq) as (? & nm & ?). split; [done|]. exists nm. apply He. by left.
    + split; [done|]. exists name. apply He. by right.
Qed.

Lemma links_remove ns ns' p name c :
  links_wf ns → edge ns p name c → (∀ nm k, ¬ edge ns c nm k) →
  (∀ i nm k, edge ns' i nm k ↔ edge ns i nm k ∧ (i ≠ p ∨ nm ≠ name) ∧ i ≠ c) →
  (∀ k q, up ns' k q ↔ up ns k q ∧ k ≠ c) → links_wf ns'.
Proof.
  intros [H1 H2 H3] Hpc Hleaf He Hu. split.
  - intros i nm k (Hin & Hor & Hic)%He. destruct (H1 _ _ _ Hin) as [? Hk]. split; [done|].
    apply Hu. split; [done|]. intros ->.
    destruct (H1 _ _ _ Hpc) as [_ (m & Hm & Hmp)], Hk as (m' & Hm' & Hmp').
    assert (i = p) as -> by congruence.
    destruct Hor as [|Hnm]; [done|]. by apply Hnm, (H2 p nm name c).
  - intros i n1 n2 k (Hi1 & _)%He (Hi2 & _)%He. by eapply H2.
  - intros k q (Hq & Hkc)%Hu. destruct (H3 _ _ Hq) as (? & nm & Hk). split; [done|]. exists nm.
    apply He. split_and!; [done| |by intros ->; eapply Hleaf].
    destruct (decide (q = p)) as [->|]; [|by left]. right. intros ->.
    destruct Hk as (? & ? & ?), Hpc as (? & ? & ?). congruence.
Qed.

Lemma link_new_tree ns next p pn name ty t1 t2 :
  tree_wf ns next → (1 < next)%Z → ns !! p = Some pn → type (inode pn) = Directory →
  children pn !! name = None → valid_name name →
  tree_wf (<[p := set_children pn (<[name := next]> (children pn)) t2]>
            (<[next := MkNode (MkInode next ty 0 [] (Some p) t1 t1) ∅]> ns)) (next + 1).
Proof.
  intros Ht Hnext Hp Hpt Hname Hv.
  assert (ns !! next = None) as Hfresh.
  { destruct (ns !! next) as [m|] eqn:E; [|done]. destruct (tw_id _ _ Ht _ _ E). lia. }
  assert (p ≠ next) as Hpn by congruence. destruct (tw_id _ _ Ht _ _ Hp) as [Hpid Hpr].
  set (pn' := set_children pn _ t2). set (fresh := MkNode _ ∅).
  apply links_tree.
  - destruct (tw_root _ _ Ht) as (r & Hr & Hrt & Hrp). destruct (decide (p = ROOT_INODE_ID)) as [->|].
    + exists pn'. rewrite lookup_insert_eq. by simplify_eq.
    + exists r. rewrite !lookup_insert_ne; [done|unfold ROOT_INODE_ID; lia|done].
  - intros i n [[<- <-]|[? [[<- <-]|[? Hi]]%lookup_insert_Some]]%lookup_insert_Some; simpl.
    + split_and!; [done|lia|lia|congruence| |].
      * intros _. by destruct (tw_dir _ _ Ht _ _ Hp Hpt).
      * intros. by eapply (tw_orphan _ _ Ht).
    + unfold ROOT_INODE_ID. split_and!; [done|lia|lia|done|done|done].
    + destruct (tw_id _ _ Ht _ _ Hi). split_and!; [done|lia|lia|by apply (tw_file _ _ Ht _ _ Hi)| |].
      * by apply (tw_dir _ _ Ht _ _ Hi).
      * by apply (tw_orphan _ _ Ht).
  - apply (links_add ns _ p name next); [by eapply tree_links|done|lia|..].
    + intros nm c Hc ->. destruct (lw_child _ (tree_links _ _ Ht) _ _ _ Hc) as (_ & m & ? & _). congruence.
    + intros i nm c. rewrite !tree_edge_insert. subst pn' fresh. simpl. rewrite lookup_insert_Some, lookup_empty.
      destruct (decide (i = p)) as [->|]; [|destruct (decide (i = next)) as [->|]].
      * rewrite (edge_at ns p pn) by done. destruct (decide (nm = name)) as [->|]; naive_solver.
      * unfold edge. rewrite Hfresh. naive_solver.
      * naive_solver.
    + intros c q. rewrite !up_insert. subst pn' fresh. simpl.
      destruct (decide (c = p)) as [->|]; [|destruct (decide (c = next)) as [->|]].
      * rewrite (up_at ns p pn) by done. naive_solver.
      * unfold up. rewrite Hfresh. naive_solver.
      * naive_solver.
Qed.

Lemma unlink_tree ns next p pn name c cn t :
  tree_wf ns next → ns !! p = Some pn → type (inode pn) = Directory →
  children pn !! name = Some c → ns !! c = Some cn → children cn = ∅ →
  tree_wf (<[p := set_children pn (delete name (children pn)) t]> (delete c ns)) next.
Proof.
  intros Ht Hp Hpt Hname Hcn Hleaf.
  destruct (tree_child _ _ _ _ _ _ Ht Hp Hname) as (_ & Hlt & cn' & Hcn' & Hcp). simplify_eq.
  set (pn' := set_children pn _ t). apply links_tree.
  - destruct (tw_root _ _ Ht) as (r & Hr & Hrt & Hrp). destruct (decide (p = ROOT_INODE_ID)) as [->|].
    + exists pn'. rewrite lookup_insert_eq. by simplify_eq.
    + exists r. destruct (tw_id _ _ Ht _ _ Hp). rewrite lookup_insert_ne, lookup_delete_ne; [done|lia|done].
  - intros i n [[<- <-]|[? [? Hi]%lookup_delete_Some]]%lookup_insert_Some; simpl.
    + destruct (tw_id _ _ Ht _ _ Hp). split_and!; [done|lia|lia|congruence| |].
      * intros _. by destruct (tw_dir _ _ Ht _ _ Hp Hpt).
      * by apply (tw_orphan _ _ Ht).
    + destruct (tw_id _ _ Ht _ _ Hi). split_and!; [done|lia|lia|by apply (tw_file _ _ Ht _ _ Hi)| |].
      * by apply (tw_dir _ _ Ht _ _ Hi).
      * by apply (tw_orphan _ _ Ht).
  - apply (links_remove ns _ p name c); [by eapply tree_links|by exists pn|..].
    + intros nm k. rewrite (edge_at _ _ _ _ _ Hcn), Hleaf. by rewrite lookup_empty.
    + intros i nm k. rewrite tree_edge_insert, tree_edge_delete. subst pn'. simpl. rewrite lookup_delete_Some.
      destruct (decide (i = p)) as [->|]; [|naive_solver]. rewrite (edge_at _ _ _ _ _ Hp).
      assert (p ≠ c) by lia. naive_solver.
    + intros k q. rewrite up_insert, up_delete. subst pn'. simpl.
      destruct (decide (k = p)) as [->|]; [|naive_solver]. rewrite (up_at _ _ _ _ Hp).
      assert (p ≠ c) by lia. naive_solver.
Qed.

(** The storage invariant sees only the non-empty block lists. *)
Lemma storage_wf_nodes blk d a ns ns' :
  (∀ j m', ns' !! j = Some m' → blocks (inode m') ≠ [] →
     ∃ m, ns !! j = Some m ∧ blocks (inode m) = blocks (inode m')) →
  (∀ j m, ns !! j = Some m → blocks (inode m) ≠ [] →
     ∃ m', ns' !! j = Some m' ∧ blocks (inode m') = blocks (inode m)) →
  storage_wf blk d a ns → storage_wf blk d a ns'.
Proof.
  intros Hb Hf Hw.
  assert (∀ (b : nat) l, b ∈ l → l ≠ []) as Hne by (intros ? []; [set_solver|done]).
  split; [apply Hw..| | | |apply Hw].
  - intros j m' Hj. destruct (decide (blocks (inode m') = [])) as [->|Hn]; [constructor|].
    destruct (Hb _ _ Hj Hn) as (m & Hm & <-). by eapply sw_nodup.
  - intros i j n m b Hi Hj Hbi Hbj.
    destruct (Hb _ _ Hi (Hne _ _ Hbi)) as (n0 & ? & E1), (Hb _ _ Hj (Hne _ _ Hbj)) as (m0 & ? & E2).
    eapply sw_disjoint; [done..|by rewrite E1|by rewrite E2].
  - intros b. rewrite (sw_owned _ _ _ _ Hw). split; intros (i & n & Hi & Hbi).
    + destruct (Hf _ _ Hi (Hne _ _ Hbi)) as (m & ? & E). exists i, m. by rewrite E.
    + destruct (Hb _ _ Hi (Hne _ _ Hbi)) as (m & ? & E). exists i, m. by rewrite E.
Qed.

(** A descriptor of a removed inode stays dangling: identifiers are not reused. *)
Lemma link_new_wf `{NT : NodeTable} fs p pn name ty :
  fs_wf fs → rehashes (nextInodeId fs) = false → (nextInodeId fs + 1 < 2 ^ 32)%Z → nodes fs !! p = Some pn →
  type (inode pn) = Directory → children pn !! name = None → valid_name name →
  ∃ id fs', link_new fs p pn name ty = Some (id, fs') ∧
  id = nextInodeId fs ∧ fs_wf fs' ∧ nextInodeId fs' = (nextInodeId fs + 1)%Z ∧
  (∃ t1 t2, let fresh := MkNode (MkInode id ty 0 [] (Some p) t1 t1) ∅ in
     nodes fs' !! id = Some fresh ∧
     nodes fs' = <[p := set_children pn (<[name := id]> (children pn)) t2]>
                   (<[id := fresh]> (nodes fs))) ∧
  disk fs' = disk fs ∧ allocator fs' = allocator fs ∧ blockSize fs' = blockSize fs ∧
  fdTable fs' = fdTable fs.
Proof.
  intros Hw Hre Hlt Hp Hpt Hname Hv. unfold link_new. rewrite Hre. do 2 eexists. split; [done|].
  pose proof (wf_tree _ Hw) as Ht. pose proof (wf_next _ Hw) as Hnext.
  assert (nodes fs !! nextInodeId fs = None) as Hfresh.
  { destruct (nodes fs !! nextInodeId fs) eqn:E; [|done].
    destruct (tw_id _ _ Ht _ _ E). lia. }
  assert (p ≠ nextInodeId fs) as Hne by congruence.
  rewrite !emplace_fresh by done. rewrite u32_small by lia.
  set (t1 := u64 (tick fs + 1)). set (t2 := u64 (t1 + 1)). set (id := nextInodeId fs) in *.
  set (fresh := MkNode _ ∅). set (pn' := set_children _ _ _).
  split; [done|]. split; [|split_and!; try done; exists t1, t2; split; [|done];
    simpl; by rewrite lookup_insert_ne, lookup_insert_eq].
  destruct Hw as [Hs Hb _ _ Hfd Hff].
  split; simpl; [| | |unfold id in *; lia|done|].
  - eapply storage_wf_nodes; [| |done].
    + intros j m [[<- <-]|[? [[<- <-]|[? ?]]%lookup_insert_Some]]%lookup_insert_Some; eauto; done.
    + intros j m Hj _. destruct (decide (j = p)) as [->|].
      * exists pn'. rewrite lookup_insert_eq. by simplify_eq.
      * exists m. rewrite !lookup_insert_ne by congruence. done.
  - intros j m [[<- <-]|[? [[<- <-]|[? ?]]%lookup_insert_Some]]%lookup_insert_Some Hty; simpl in *.
    + congruence.
    + split; simpl; intros; lia.
    + by eapply Hb.
  - by apply link_new_tree.
  - intros fd st Hst. destruct (Hff _ _ Hst) as [? Hfile]. fold id in H. split; [lia|].
    intros n [[Hi <-]|[? [[Hi <-]|[? ?]]%lookup_insert_Some]]%lookup_insert_Some; simpl.
    + apply Hfile. congruence.
    + rewrite Hi in H. lia.
    + by apply Hfile.
Qed.

Lemma unlink_wf fs p pn name c cn d a :
  fs_wf fs → nodes fs !! p = Some pn → type (inode pn) = Directory →
  children pn !! name = Some c → nodes fs !! c = Some cn → children cn = ∅ →
  storage_wf (blockSize fs) d a (<[c := set_blocks cn []]> (nodes fs)) →
  others_same (blockSize fs) (disk fs) d (nodes fs) c →
  fs_wf (unlink (set_storage fs d a) p pn name c).
Proof.
  intros Hw Hp Hpt Hname Hc Hleaf Hs' Hoth.
  destruct (tree_child _ _ _ _ _ _ (wf_tree _ Hw) Hp Hname) as (_ & Hlt & _).
  assert (p ≠ c) as Hne by lia.
  destruct Hw as [Hs Hb Ht Hn Hfd Hff]. unfold unlink.
  split; simpl; [| |by eapply unlink_tree|done|done|].
  - eapply storage_wf_nodes; [| |exact Hs'].
    + intros j m [[<- <-]|[? [? ?]%lookup_delete_Some]]%lookup_insert_Some _.
      * exists pn. by rewrite lookup_insert_ne.
      * exists m. by rewrite lookup_insert_ne.
    + intros j m [[<- <-]|[? ?]]%lookup_insert_Some Hm; [done|].
      destruct (decide (p = j)) as [<-|].
      * eexists. rewrite lookup_insert_eq. split; [done|]. simpl. by simplify_eq.
      * exists m. by rewrite lookup_insert_ne, lookup_delete_ne.
  - intros j m [[<- <-]|[? [? Hj]%lookup_delete_Some]]%lookup_insert_Some Hty; simpl in *.
    + congruence.
    + eapply bytes_wf_ext; [|by eapply Hb]. intros k. by apply (Hoth j m k).
  - intros fd st Hst. destruct (Hff _ _ Hst) as [? Hfile]. split; [done|].
    intros n [[Hi <-]|[? [? ?]%lookup_delete_Some]]%lookup_insert_Some; simpl.
    + apply Hfile. by rewrite <-Hi.
    + by apply Hfile.
Qed.

Lemma fs_wf_make total bs : fs_wf (SimpleFS_make total bs).
Proof.
  unfold SimpleFS_make. set (tot := Nat.max 1 total). set (b := Nat.max 1 bs).
  assert (∀ j m, ({[ROOT_INODE_ID := MkNode (MkInode ROOT_INODE_ID Directory 0 [] None 0 0) ∅]}
    : gmap Z Node) !! j = Some m → j = ROOT_INODE_ID ∧
    m = MkNode (MkInode ROOT_INODE_ID Directory 0 [] None 0 0) ∅) as Hl.
  { intros j m [<- <-]%lookup_singleton_Some. done. }
  split; simpl; [| | |done|apply FileDescriptorTable.fd_inv_init|done].
  - split; simpl.
    + unfold b. lia.
    + apply BlockAllocator.inv_make.
    + by rewrite !length_replicate.
    + intros j cells [-> _]%lookup_replicate. unfold zero_block. apply length_replicate.
    + intros i n [-> ->]%Hl. constructor.
    + intros i j n m k [-> ->]%Hl [-> ->]%Hl. done.
    + intros k. split.
      * intros Hk%lookup_replicate. naive_solver.
      * intros (i & n & [-> ->]%Hl & Hin). simpl in Hin. set_solver.
    + intros k [_ Hk]%lookup_replicate. by apply lookup_replicate_2.
  - intros i n [-> ->]%Hl. done.
  - split.
    + eexists. rewrite lookup_singleton_eq. done.
    + intros i n [-> ->]%Hl. done.
    + intros i n [-> ->]%Hl. done.
    + intros i n [-> ->]%Hl. done.
    + intros i n name c [-> ->]%Hl. done.
    + intros i n n1 n2 c [-> ->]%Hl. done.
    + intros c m p [-> ->]%Hl. done.
    + intros c m [-> ->]%Hl. done.
Qed.
