(* ===== verification/FsOps.v ===== *)
(** * FsOps: the file-system operations against an abstract file system

    The abstract file system has no blocks, no bitmap and no timestamps: a
    file is a byte string, a directory a finite map.  Every operation of
    [SimpleFs] is defined on well-formed states - but a creation that rehashes the
    table of nodes - keeps them well formed and refines the abstract operation;
    what the abstract system cannot predict is whether the disk is full and, in
    [stat]'s answer, the number of blocks and the times. *)
From Stdlib Require Import Ascii String.
From S2P Require Import Prelude Core BlockAlloc SimpleFs FsStore FsPath FsInvariant.

(** ** The abstract file system *)
Inductive anode := ADir (ch : gmap string Z) | AFile (c : list byte).

Record afs := MkAfs {
  a_nodes : gmap Z anode;
  a_next : Z;
  a_fds : FileDescriptorTable.t
}.

Fixpoint a_walk (ns : gmap Z anode) (current : Z) (tokens : list string) : Result Z :=
  match tokens with
  | [] => ok current
  | token :: tokens' =>
      match ns !! current with
      | Some (ADir ch) =>
          match ch !! token with Some c => a_walk ns c tokens' | None => error ErrorCode.NotFound end
      | _ => error ErrorCode.NotFound
      end
  end.

Definition a_resolve (s : afs) (path : string) : Result Z :=
  match splitPath path with
  | error e => error e
  | ok toks => a_walk (a_nodes s) ROOT_INODE_ID toks
  end.

(** The directory a path's last component lives in, with that component. *)
Definition a_parent (s : afs) (path : string) : Result (Z * gmap string Z * string) :=
  match splitPath path with
  | error e => error e
  | ok toks =>
      match last toks with
      | None => error ErrorCode.InvalidArgument
      | Some name =>
          match a_walk (a_nodes s) ROOT_INODE_ID (take (length toks - 1) toks) with
          | error e => error e
          | ok p => match a_nodes s !! p with
                    | Some (ADir ch) => ok (p, ch, name)
                    | _ => error ErrorCode.NotFound
                    end
          end
      end
  end.

Definition a_set (s : afs) (i : Z) (n : anode) : afs :=
  MkAfs (<[i := n]> (a_nodes s)) (a_next s) (a_fds s).
Definition a_set_fds (s : afs) (ft : FileDescriptorTable.t) : afs :=
  MkAfs (a_nodes s) (a_next s) ft.

(** The next descriptor, and the table with it. *)
Definition fd_opened (ft : FileDescriptorTable.t) (st : OpenFileState) : FileDescriptorTable.t :=
  {| FileDescriptorTable.entries := <[FileDescriptorTable.nextFd ft := st]> (FileDescriptorTable.entries ft);
     FileDescriptorTable.nextFd := FileDescriptorTable.nextFd ft + 1 |}.

Definition a_open_node (s : afs) (id m : Z) : Result Z * afs :=
  match a_nodes s !! id with
  | None => (error ErrorCode.NotFound, s)
  | Some (ADir _) => (error ErrorCode.InvalidState, s)
  | Some (AFile c) =>
      let c' := if hasOpenMode m OpenMode.Truncate then [] else c in
      let s' := if hasOpenMode m OpenMode.Truncate then a_set s id (AFile []) else s in
      let st := MkOpenFile id (if hasOpenMode m OpenMode.Append then length c' else 0) m in
      (ok (FileDescriptorTable.nextFd (a_fds s')), a_set_fds s' (fd_opened (a_fds s') st))
  end.

Definition a_link (s : afs) (p : Z) (ch : gmap string Z) (name : string) (n : anode) : afs :=
  MkAfs (<[p := ADir (<[name := a_next s]> ch)]> (<[a_next s := n]> (a_nodes s)))
    (a_next s + 1) (a_fds s).

Definition a_open (s : afs) (path : string) (m : Z) : Result Z * afs :=
  if negb (hasOpenMode m OpenMode.Read) && negb (hasOpenMode m OpenMode.Write)
  then (error ErrorCode.InvalidArgument, s) else
  match a_resolve s path with
  | ok id => a_open_node s id m
  | error e =>
      if negb (hasOpenMode m OpenMode.Create) then (error e, s) else
      match a_parent s path with
      | error e' => (error e', s)
      | ok (p, ch, name) =>
          match ch !! name with
          | Some _ => (error ErrorCode.AlreadyExists, s)
          | None => a_open_node (a_link s p ch name (AFile [])) (a_next s) m
          end
      end
  end.

Definition a_read (s : afs) (fd : Z) (buffer : list byte) : Result (nat * list byte) * afs :=
  match FileDescriptorTable.get (a_fds s) fd with
  | error e => (error e, s)
  | ok st =>
      if negb (hasOpenMode (mode st) OpenMode.Read)
      then (error ErrorCode.PermissionDenied, s) else
      match a_nodes s !! inodeId st with
      | Some (AFile c) =>
          let data := read_at c (offset st) (length buffer) in
          (ok (length data, splice buffer 0 data),
           a_set_fds s (FileDescriptorTable.set (a_fds s) fd
             (MkOpenFile (inodeId st) (offset st + length data) (mode st))).2)
      | _ => (error ErrorCode.NotFound, s)
      end
  end.

(** [full] is the disk's answer. *)
Definition a_write (full : bool) (s : afs) (fd : Z) (data : list byte) : Result nat * afs :=
  match FileDescriptorTable.get (a_fds s) fd with
  | error e => (error e, s)
  | ok st =>
      if negb (hasOpenMode (mode st) OpenMode.Write)
      then (error ErrorCode.PermissionDenied, s) else
      match a_nodes s !! inodeId st with
      | Some (AFile c) =>
          if full then (error ErrorCode.OutOfMemory, s) else
          let off := if hasOpenMode (mode st) OpenMode.Append then length c else offset st in
          let s' := a_set s (inodeId st) (AFile (write_at c off data)) in
          (ok (length data),
           a_set_fds s' (FileDescriptorTable.set (a_fds s) fd
             (MkOpenFile (inodeId st) (off + length data) (mode st))).2)
      | _ => (error ErrorCode.NotFound, s)
      end
  end.

Definition a_close (s : afs) (fd : Z) : Result unit * afs :=
  let '(r, ft) := FileDescriptorTable.close (a_fds s) fd in (r, a_set_fds s ft).

Definition a_mkdir (s : afs) (path : string) : Result unit * afs :=
  match a_parent s path with
  | error e => (error e, s)
  | ok (p, ch, name) =>
      match ch !! name with
      | Some _ => (error ErrorCode.AlreadyExists, s)
      | None => (ok tt, a_link s p ch name (ADir ∅))
      end
  end.

Definition nonempty_dir (n : option anode) : bool :=
  match n with Some (ADir ch) => negb (bool_decide (ch = ∅)) | _ => false end.

Definition a_remove (s : afs) (path : string) : Result unit * afs :=
  match a_parent s path with
  | error e => (error e, s)
  | ok (p, ch, name) =>
      match ch !! name with
      | None => (error ErrorCode.NotFound, s)
      | Some id =>
          if nonempty_dir (a_nodes s !! id) then (error ErrorCode.InvalidState, s)
          else (ok tt, MkAfs (<[p := ADir (delete name ch)]> (delete id (a_nodes s)))
                         (a_next s) (a_fds s))
      end
  end.

Definition a_type (n : anode) : InodeType := match n with ADir _ => Directory | AFile _ => File end.

Definition a_list (s : afs) (path : string) : Result (list DirectoryEntry) :=
  match a_resolve s path with
  | error e => error e
  | ok id =>
      match a_nodes s !! id with
      | None => error ErrorCode.NotFound
      | Some (AFile _) => error ErrorCode.InvalidState
      | Some (ADir ch) =>
          ok (merge_sort entry_le
                (omap (λ '(name, c), MkEntry name c ∘ a_type <$> a_nodes s !! c)
                   (map_to_list ch)))
      end
  end.

(** What [stat] reports.  The abstract system has neither blocks nor a clock:
    the number of blocks and the two times are [meta]'s. *)
Definition a_size (n : anode) : nat := match n with ADir ch => size ch | AFile c => length c end.
Definition a_stat (meta : nat * Z * Z) (s : afs) (path : string) : Result InodeInfo :=
  match a_resolve s path with
  | error e => error e
  | ok id =>
      match a_nodes s !! id with
      | None => error ErrorCode.NotFound
      | Some n => let '(nblocks, created, modified) := meta in
          ok (MkInfo id (a_type n) (a_size n) nblocks created modified)
      end
  end.

(** ** The abstraction *)
Definition anode_of (blk : nat) (d : list (list byte)) (n : Node) : anode :=
  match type (inode n) with
  | Directory => ADir (children n)
  | File => AFile (contents blk d n)
  end.
Definition abs_nodes (blk : nat) (d : list (list byte)) (ns : gmap Z Node) : gmap Z anode :=
  anode_of blk d <$> ns.
Definition abs (fs : fs_state) : afs :=
  MkAfs (abs_nodes (blockSize fs) (disk fs) (nodes fs)) (nextInodeId fs) (fdTable fs).

Lemma lookup_abs blk d ns i : abs_nodes blk d ns !! i = anode_of blk d <$> ns !! i.
Proof. apply lookup_fmap. Qed.

Lemma anode_dir blk d n : type (inode n) = Directory → anode_of blk d n = ADir (children n).
Proof. unfold anode_of. by intros ->. Qed.
Lemma anode_file blk d n : type (inode n) = File → anode_of blk d n = AFile (contents blk d n).
Proof. unfold anode_of. by intros ->. Qed.

Lemma walk_abs blk d ns cur toks : a_walk (abs_nodes blk d ns) cur toks = walk ns cur toks.
Proof.
  revert cur. induction toks as [|t toks IH]; intros cur; simpl; [done|].
  rewrite lookup_abs. destruct (ns !! cur) as [n|]; simpl; [|done].
  unfold anode_of. destruct (type (inode n)); simpl; [done|].
  by destruct (children n !! t).
Qed.

Lemma resolve_abs fs path : a_resolve (abs fs) path = resolvePath fs path.
Proof. unfold a_resolve, resolvePath. destruct splitPath; [apply walk_abs|done]. Qed.

(** [resolveParent] followed by the lookup of the parent directory. *)
Lemma parent_abs fs path :
  match resolveParent fs path with
  | error e => a_parent (abs fs) path = error e
  | ok (p, name) =>
      valid_name name ∧
      match nodes fs !! p with
      | Some pn => if decide (type (inode pn) = Directory)
                   then a_parent (abs fs) path = ok (p, children pn, name)
                   else a_parent (abs fs) path = error ErrorCode.NotFound
      | None => a_parent (abs fs) path = error ErrorCode.NotFound
      end
  end.
Proof.
  unfold resolveParent, a_parent. destruct (splitPath path) as [toks|] eqn:Hp; [|done].
  apply splitPath_valid in Hp. simpl.
  destruct (last toks) as [name|] eqn:Hl; [|done]. rewrite walk_abs.
  destruct (walk _ _ _) as [p|]; [|done]. split.
  - apply last_Some_elem_of in Hl. rewrite Forall_forall in Hp. by apply Hp.
  - rewrite lookup_abs. destruct (nodes fs !! p) as [pn|]; simpl; [|done].
    unfold anode_of. destruct (type (inode pn)); simpl; done.
Qed.

(** Replacing the data of one file. *)
Lemma abs_update blk d d' ns i n :
  others_same blk d d' ns i →
  abs_nodes blk d' (<[i := n]> ns) = <[i := anode_of blk d' n]> (abs_nodes blk d ns).
Proof.
  intros Hoth. unfold abs_nodes. rewrite fmap_insert. apply map_eq. intros j.
  destruct (decide (i = j)) as [->|]; [by rewrite !lookup_insert_eq|].
  rewrite !lookup_insert_ne, !lookup_fmap by done.
  destruct (ns !! j) as [m|] eqn:Hj; [|done]. simpl. f_equal. unfold anode_of.
  destruct (type (inode m)); [|done]. f_equal. apply contents_ext; [done|].
  intros k _. by apply (Hoth j m k).
Qed.

Lemma others_same_refl blk d ns i : others_same blk d d ns i.
Proof. done. Qed.

(** A descriptor-table update by [set] of an existing descriptor. *)
Lemma fs_wf_set_fd fs fd st st' :
  fs_wf fs → FileDescriptorTable.entries (fdTable fs) !! fd = Some st →
  inodeId st' = inodeId st →
  ∃ ft, FileDescriptorTable.set (fdTable fs) fd st' = (ok tt, ft) ∧ fs_wf (set_fdTable fs ft) ∧
    FileDescriptorTable.nextFd ft = FileDescriptorTable.nextFd (fdTable fs).
Proof.
  intros Hw Hst Hi. pose proof (FileDescriptorTable.fd_inv_set _ fd st' (wf_fds _ Hw)) as Hinv.
  unfold FileDescriptorTable.set in *. rewrite Hst in *. eexists; split; [done|]. split; [|done].
  apply fs_wf_set_fdTable; [done|done|]. intros fd' st0. simpl.
  intros [[<- <-]|[_ Hl]]%lookup_insert_Some; [rewrite Hi|]; by eapply wf_fd_file.
Qed.

Lemma wf_set_nodes_id fs i n :
  storage_wf (blockSize fs) (disk fs) (allocator fs) (nodes fs) → nodes fs !! i = Some n →
  storage_wf (blockSize fs) (disk fs) (allocator fs) (<[i := n]> (nodes fs)).
Proof. intros Hs Hi. by rewrite insert_id. Qed.

(** ** One lemma per operation: definedness, invariant, refinement *)

(** An operation uses at most one inode number and one descriptor; there is
    room for one more of each. *)
Notation next_fd fs := (FileDescriptorTable.nextFd (fdTable fs)).
Definition counts_up (fs fs' : fs_state) : Prop :=
  (nextInodeId fs ≤ nextInodeId fs' ≤ nextInodeId fs + 1)%Z ∧ (next_fd fs ≤ next_fd fs' ≤ next_fd fs + 1)%Z.
Definition has_room (fs : fs_state) : Prop := (nextInodeId fs + 1 < 2 ^ 32)%Z ∧ (next_fd fs < INT_MAX)%Z.

Lemma counts_up_refl fs : counts_up fs fs.
Proof. unfold counts_up. lia. Qed.
#[local] Hint Resolve counts_up_refl : core.

Definition op_ok {A} (fs : fs_state) (res : option (Result A * fs_state))
    (spec : bool → Result A * afs) : Prop :=
  ∃ r fs' full, res = Some (r, fs') ∧ fs_wf fs' ∧ spec full = (r, abs fs') ∧ counts_up fs fs'.

Lemma op_ok_pure {A} fs (r : Result A) spec :
  fs_wf fs → spec false = (r, abs fs) → op_ok fs (Some (r, fs)) spec.
Proof. intros. exists r, fs, false. by split_and!. Qed.

Lemma open_fd_wf fs id m off :
  fs_wf fs → (next_fd fs < INT_MAX)%Z → (∃ n, nodes fs !! id = Some n ∧ type (inode n) = File) →
  let ft := fd_opened (fdTable fs) (MkOpenFile id off m) in
  FileDescriptorTable.open (fdTable fs) (MkOpenFile id off m) = Some (ok (next_fd fs), ft) ∧
  fs_wf (set_fdTable fs ft).
Proof.
  intros Hw Hmax (n & Hi & Hty).
  destruct (FileDescriptorTable.open_fresh (fdTable fs) (MkOpenFile id off m) (wf_fds _ Hw) Hmax)
    as (_ & Heq & Hinv).
  split; [done|]. apply fs_wf_set_fdTable; [done|done|]. simpl.
  intros fd st [[_ <-]|[_ Hl]]%lookup_insert_Some; [|by eapply wf_fd_file]. simpl.
  split; [by eapply (tw_id _ _ (wf_tree _ Hw))|]. intros. by simplify_eq.
Qed.

Lemma open_node_ok fs id m :
  fs_wf fs → (next_fd fs < INT_MAX)%Z → op_ok fs (open_node fs id m) (λ _, a_open_node (abs fs) id m).
Proof.
  intros Hw Hmax. unfold open_node, a_open_node. simpl. rewrite lookup_abs.
  destruct (nodes fs !! id) as [n|] eqn:Hi; simpl; [|by apply op_ok_pure].
  destruct (tw_id _ _ (wf_tree _ Hw) _ _ Hi) as [Hid _].
  unfold anode_of at 1. destruct (type (inode n)) eqn:Hty; simpl; [|by apply op_ok_pure].
  destruct (hasOpenMode m OpenMode.Truncate) eqn:Htr.
  - destruct (truncate_spec fs id n) as (d' & a' & -> & Hs' & Hoth);
      [apply wf_set_nodes_id; [apply Hw|done]|]. cbn.
    set (t := u64 _). set (n2 := set_size (set_blocks n []) 0 t).
    set (fs2 := MkFs (blockSize fs) d' a' (fdTable fs) (<[id := n2]> (nodes fs))
      (nextInodeId fs) t).
    assert (fs_wf fs2) as Hw2.
    { apply (fs_wf_update fs id n); try done.
      - by eapply storage_wf_same_blocks; [|exact Hs'].
      - split; simpl; intros; lia. }
    destruct (open_fd_wf fs2 id m (if hasOpenMode m OpenMode.Append then 0 else 0) Hw2 Hmax) as [Ho Hwo].
    { exists n2. split; [apply lookup_insert_eq|done]. }
    change (fdTable fs2) with (fdTable fs) in Ho. rewrite Hid, Ho. cbn [mbind option_bind].
    eexists _, (set_fdTable fs2 _), false. split; [done|]. split_and!; [exact Hwo| |unfold counts_up; simpl; lia].
    + unfold abs, a_set_fds. simpl. rewrite (abs_update _ (disk fs)) by done.
      unfold anode_of, n2. simpl. rewrite Hty. done.
  - destruct (open_fd_wf fs id m (if hasOpenMode m OpenMode.Append then inode_size (inode n) else 0) Hw Hmax)
      as [Ho Hwo]; [eauto|]. cbn [mbind option_bind]. rewrite Hid, Ho. cbn [mbind option_bind].
    eexists _, (set_fdTable fs _), false. split; [done|]. split_and!; [exact Hwo| |unfold counts_up; simpl; lia].
    + unfold a_set_fds, abs. simpl. by rewrite length_contents.
Qed.

(** A freshly created node, in the abstract system. *)
Lemma link_new_abs `{NT : NodeTable} fs p pn name ty :
  fs_wf fs → rehashes (nextInodeId fs) = false → (nextInodeId fs + 1 < 2 ^ 32)%Z → nodes fs !! p = Some pn →
  type (inode pn) = Directory → children pn !! name = None → valid_name name →
  ∃ id fs', link_new fs p pn name ty = Some (id, fs') ∧
  id = a_next (abs fs) ∧ fs_wf fs' ∧ nextInodeId fs' = (nextInodeId fs + 1)%Z ∧ fdTable fs' = fdTable fs ∧
  abs fs' = a_link (abs fs) p (children pn) name
              (match ty with File => AFile [] | Directory => ADir ∅ end).
Proof.
  intros Hw Hre Hlt Hp Hpt Hname Hv.
  destruct (link_new_wf fs p pn name ty Hw Hre Hlt Hp Hpt Hname Hv)
    as (id & fs' & -> & -> & Hw' & Hn & (t1 & t2 & _ & Hns) & Hd & _ & Hb & Hft).
  eexists _, fs'. split; [done|]. split_and!; try done. unfold abs, a_link. rewrite Hns, Hd, Hb, Hft, Hn. simpl. f_equal.
  unfold abs_nodes. rewrite !fmap_insert. unfold anode_of at 1 2. simpl. rewrite Hpt.
  by destruct ty.
Qed.

Lemma a_open_node_next s id m : a_next (a_open_node s id m).2 = a_next s.
Proof.
  unfold a_open_node. destruct (a_nodes s !! id) as [[]|]; [done| |done].
  by destruct (hasOpenMode m OpenMode.Truncate).
Qed.

(** A creation that rehashes the table of nodes uses a dead iterator. *)
Definition creation_stuck `{NT : NodeTable} {A} (fs : fs_state) (res : option (Result A * fs_state)) : Prop :=
  res = None ∧ rehashes (nextInodeId fs) = true.

Lemma link_new_stuck `{NT : NodeTable} fs p pn name ty :
  rehashes (nextInodeId fs) = true → link_new fs p pn name ty = None.
Proof. unfold link_new. by intros ->. Qed.

Lemma op_ok_or_stuck `{NT : NodeTable} {A} fs (r : Result A) spec :
  fs_wf fs → spec false = (r, abs fs) →
  op_ok fs (Some (r, fs)) spec ∨ creation_stuck fs (Some (r, fs)).
Proof. intros. left. by apply op_ok_pure. Qed.

Lemma open_ok `{NT : NodeTable} fs path m :
  fs_wf fs → has_room fs →
  op_ok fs (open fs path m) (λ _, a_open (abs fs) path m) ∨ creation_stuck fs (open fs path m).
Proof.
  intros Hw [Hlt Hmax]. unfold open, a_open. rewrite resolve_abs.
  destruct (negb _ && negb _); [by apply op_ok_or_stuck|].
  destruct (resolvePath fs path) as [id|e]; [left; by apply open_node_ok|].
  destruct (negb _); [by apply op_ok_or_stuck|].
  pose proof (parent_abs fs path) as Hpar.
  destruct (resolveParent fs path) as [[p name]|e']; [|rewrite Hpar; by apply op_ok_or_stuck].
  destruct Hpar as [Hv Hpar].
  destruct (nodes fs !! p) as [pn|] eqn:Hp; [|rewrite Hpar; by apply op_ok_or_stuck].
  destruct (decide (type (inode pn) = Directory)) as [Hpt|]; rewrite Hpar; [|by apply op_ok_or_stuck].
  destruct (children pn !! name) eqn:Hname; [by apply op_ok_or_stuck|].
  destruct (rehashes (nextInodeId fs)) eqn:Hre.
  { right. split; [by rewrite link_new_stuck|done]. }
  left. destruct (link_new_abs fs p pn name File Hw Hre Hlt Hp Hpt Hname Hv)
    as (id & fs1 & -> & -> & Hw1 & Hn1 & Hfd1 & <-). cbn [mbind option_bind].
  destruct (open_node_ok fs1 (a_next (abs fs)) m Hw1) as (r & fs' & full & -> & ? & Ha & Hn');
    [by rewrite Hfd1|].
  assert (nextInodeId fs' = nextInodeId fs1).
  { pose proof (a_open_node_next (abs fs1) (a_next (abs fs)) m) as Hnx. by rewrite Ha in Hnx. }
  exists r, fs', full. split_and!; try done; unfold counts_up in *; rewrite Hfd1 in Hn'; lia.
Qed.

Lemma mkdir_ok `{NT : NodeTable} fs path :
  fs_wf fs → has_room fs →
  op_ok fs (mkdir fs path) (λ _, a_mkdir (abs fs) path) ∨ creation_stuck fs (mkdir fs path).
Proof.
  intros Hw [Hlt _]. unfold mkdir, a_mkdir. pose proof (parent_abs fs path) as Hpar.
  destruct (resolveParent fs path) as [[p name]|e']; [|rewrite Hpar; by apply op_ok_or_stuck].
  destruct Hpar as [Hv Hpar].
  destruct (nodes fs !! p) as [pn|] eqn:Hp; [|rewrite Hpar; by apply op_ok_or_stuck].
  destruct (decide (type (inode pn) = Directory)) as [Hpt|]; rewrite Hpar; [|by apply op_ok_or_stuck].
  destruct (children pn !! name) eqn:Hname; [by apply op_ok_or_stuck|].
  destruct (rehashes (nextInodeId fs)) eqn:Hre.
  { right. split; [by rewrite link_new_stuck|done]. }
  left. destruct (link_new_abs fs p pn name Directory Hw Hre Hlt Hp Hpt Hname Hv)
    as (id & fs1 & -> & -> & Hw1 & Hn1 & Hfd1 & <-). cbn [mbind option_bind].
  exists (ok tt), fs1, false. split_and!; try done; unfold counts_up; rewrite Hfd1; lia.
Qed.

Lemma fs_read_ok fs fd buffer :
  fs_wf fs →
  ∃ r buffer' fs', read fs fd buffer = Some (r, buffer', fs') ∧ fs_wf fs' ∧
    counts_up fs fs' ∧
    a_read (abs fs) fd buffer =
      (match r with ok n => ok (n, buffer') | error e => error e end, abs fs') ∧
    (isOk r = false → buffer' = buffer ∧ fs' = fs).
Proof.
  intros Hw. unfold read, a_read. simpl. unfold FileDescriptorTable.get.
  destruct (FileDescriptorTable.entries (fdTable fs) !! fd) as [st|] eqn:Hst;
    [|by eexists _, _, _; split_and!].
  destruct (negb _); [by eexists _, _, _; split_and!|]. rewrite lookup_abs.
  destruct (nodes fs !! inodeId st) as [n|] eqn:Hi; [|by eexists _, _, _; split_and!].
  destruct (wf_fd_file _ Hw _ _ Hst) as [_ Hty]. specialize (Hty _ Hi). simpl.
  rewrite anode_file by done.
  rewrite (readFromNode_spec fs (inodeId st)); [|apply Hw|done|by eapply wf_bytes].
  set (data := read_at (node_contents fs n) (offset st) (length buffer)).
  set (st' := MkOpenFile _ _ _).
  destruct (fs_wf_set_fd fs fd st st' Hw Hst eq_refl) as (ft & -> & Hw' & Hnx).
  eexists (ok _), _, _. split_and!; try done; unfold counts_up; simpl; rewrite ?Hnx; lia.
Qed.

Lemma fs_write_ok fs fd data :
  fs_wf fs → op_ok fs (write fs fd data) (λ full, a_write full (abs fs) fd data).
Proof.
  intros Hw. unfold write, a_write. simpl. unfold FileDescriptorTable.get.
  destruct (FileDescriptorTable.entries (fdTable fs) !! fd) as [st|] eqn:Hst; [|by apply op_ok_pure].
  destruct (negb _); [by apply op_ok_pure|]. rewrite lookup_abs.
  destruct (nodes fs !! inodeId st) as [n|] eqn:Hi; [|by apply op_ok_pure].
  destruct (wf_fd_file _ Hw _ _ Hst) as [_ Hty]. specialize (Hty _ Hi). simpl.
  rewrite anode_file, length_contents by done.
  set (off := if hasOpenMode _ _ then _ else _).
  destruct (writeToNode_spec fs (inodeId st) n off data) as
    (r & n' & fs1 & -> & Hs' & Hby & Hoth & (Eb & Ef & En & Ex) & Hm & Hr);
    [by apply wf_set_nodes_id; [apply Hw|]|by eapply wf_bytes|].
  set (fs2 := set_nodes fs1 _).
  assert (fs2 = MkFs (blockSize fs) (disk fs1) (allocator fs1) (fdTable fs)
    (<[inodeId st := n']> (nodes fs)) (nextInodeId fs) (tick fs1)) as Hfs2.
  { unfold fs2, set_nodes. by rewrite Eb, Ef, En, Ex. }
  assert (fs_wf fs2) as Hw2 by (rewrite Hfs2; by apply (fs_wf_update fs (inodeId st) n)).
  assert (abs fs2 = a_set (abs fs) (inodeId st) (AFile (node_contents fs1 n'))) as Habs.
  { rewrite Hfs2. unfold abs, a_set. simpl. rewrite (abs_update _ (disk fs)) by done.
    rewrite anode_file by (destruct Hm as (_ & -> & _); done). unfold node_contents. by rewrite Eb. }
  assert (fdTable fs2 = fdTable fs) as Hfd2 by by rewrite Hfs2.
  assert (nextInodeId fs2 = nextInodeId fs) as Hnx2 by by rewrite Hfs2.
  destruct Hr as [(-> & Hc & _)|(-> & Hc & _)].
  - set (st' := MkOpenFile _ _ _).
    destruct (fs_wf_set_fd fs2 fd st st' Hw2 ltac:(by rewrite Hfd2) eq_refl)
      as (ft & Hset & Hw3 & Hnx). rewrite Hfd2 in Hset. rewrite Ef, Hset.
    exists (ok (length data)), (set_fdTable fs2 ft), false. split_and!; try done; [|unfold counts_up; cbn [set_fdTable nextInodeId fdTable]; rewrite Hnx, Hnx2, Hfd2; lia].
    change (contents (blockSize fs) (disk fs) n) with (node_contents fs n).
    by rewrite <-Hc, <-Habs.
  - exists (error ErrorCode.OutOfMemory), fs2, true. split_and!; try done; [|unfold counts_up; rewrite Hfd2, Hnx2; lia].
    rewrite Habs, Hc. unfold a_set, abs. f_equal. simpl. f_equal.
    symmetry. apply insert_id. rewrite lookup_abs, Hi. simpl. by rewrite anode_file.
Qed.

Lemma close_ok fs fd : fs_wf fs → op_ok fs (Some (close fs fd)) (λ _, a_close (abs fs) fd).
Proof.
  intros Hw. unfold close, a_close. simpl.
  destruct (FileDescriptorTable.close (fdTable fs) fd) as [r ft] eqn:Hc.
  assert (FileDescriptorTable.nextFd ft = next_fd fs) as Hnx.
  { unfold FileDescriptorTable.close in Hc. by case_match; simplify_eq. }
  exists r, (set_fdTable fs ft), false.
  split_and!; try done; [|unfold counts_up; simpl; rewrite Hnx; lia].
  apply fs_wf_set_fdTable; [done| |].
  - pose proof (FileDescriptorTable.fd_inv_close (fdTable fs) fd (wf_fds _ Hw)) as H.
    by rewrite Hc in H.
  - intros fd' st. unfold FileDescriptorTable.close in Hc. case_match; simplify_eq/=.
    + intros [_ Hl]%lookup_delete_Some. by eapply wf_fd_file.
    + by apply wf_fd_file.
Qed.

Lemma nonempty_dir_abs blk d n :
  (type (inode n) = File → children n = ∅) →
  nonempty_dir (Some (anode_of blk d n)) =
  bool_decide (type (inode n) = Directory) && negb (bool_decide (children n = ∅)).
Proof. unfold anode_of. by destruct (type (inode n)). Qed.

Lemma remove_ok fs path : fs_wf fs → op_ok fs (remove fs path) (λ _, a_remove (abs fs) path).
Proof.
  intros Hw. unfold remove, a_remove. pose proof (parent_abs fs path) as Hpar.
  destruct (resolveParent fs path) as [[p name]|e']; [|rewrite Hpar; by apply op_ok_pure].
  destruct Hpar as [Hv Hpar].
  destruct (nodes fs !! p) as [pn|] eqn:Hp; [|rewrite Hpar; by apply op_ok_pure].
  destruct (decide (type (inode pn) = Directory)) as [Hpt|]; rewrite Hpar; [|by apply op_ok_pure].
  destruct (children pn !! name) as [c|] eqn:Hname; [|by apply op_ok_pure]. simpl.
  destruct (tree_child _ _ _ _ _ _ (wf_tree _ Hw) Hp Hname) as (_ & Hlt & cn & Hc & Hcp).
  destruct (tw_id _ _ (wf_tree _ Hw) _ _ Hc) as [Hcid _].
  destruct (tw_id _ _ (wf_tree _ Hw) _ _ Hp) as [_ Hpr].
  rewrite lookup_abs, Hc, Hcid. simpl fmap.
  destruct (Z.eqb_spec c ROOT_INODE_ID); [lia|].
  rewrite nonempty_dir_abs by (by apply (tw_file _ _ (wf_tree _ Hw) c)).
  destruct (bool_decide (type (inode cn) = Directory) && negb (bool_decide (children cn = ∅)))
    eqn:Hne; [by apply op_ok_pure|].
  assert (children cn = ∅) as Hleaf.
  { destruct (type (inode cn)) eqn:Hty; [by apply (tw_file _ _ (wf_tree _ Hw) c)|].
    apply andb_false_iff in Hne as [Hne|Hne].
    - by apply bool_decide_eq_false in Hne.
    - by apply negb_false_iff, bool_decide_eq_true in Hne. }
  assert (∃ d a, (if decide (type (inode cn) = File)
      then release_blocks (blockSize fs) (blocks (inode cn)) (disk fs) (allocator fs)
      else Some (ok tt, (disk fs, allocator fs))) = Some (ok tt, (d, a)) ∧
    storage_wf (blockSize fs) d a (<[c := set_blocks cn []]> (nodes fs)) ∧
    others_same (blockSize fs) (disk fs) d (nodes fs) c) as (d & a & -> & Hs & Hoth).
  { pose proof (wf_set_nodes_id fs c cn (wf_storage _ Hw) Hc) as Hs0.
    destruct (decide (type (inode cn) = File)) as [Hty|Hty].
    - destruct (release_blocks_spec _ _ _ _ _ _ _ Hs0 eq_refl) as (d & a & -> & Hs & _ & Hout & _).
      exists d, a. split_and!; try done. intros j m k Hj Hm. apply file_byte_ext.
      intros b Hb. apply Hout. intros Hb'. by eapply (storage_other _ _ c (disk fs) _ cn b j m).
    - exists (disk fs), (allocator fs). split_and!; try done.
      destruct (tw_dir _ _ (wf_tree _ Hw) c cn Hc) as [Hbl _]; [by destruct (type (inode cn))|].
      by eapply storage_wf_same_blocks; [|exact Hs0]. }
  eexists (ok tt), _, false. split; [done|]. split_and!; [by eapply unlink_wf| |unfold counts_up; simpl; lia].
  unfold abs, unlink. simpl. do 3 f_equal. unfold abs_nodes. rewrite fmap_insert, fmap_delete. f_equal.
  - unfold anode_of. simpl. by rewrite Hpt.
  - apply map_eq. intros j. destruct (decide (j = c)) as [->|]; [by rewrite !lookup_delete_eq|].
    rewrite !lookup_delete_ne, !lookup_fmap by done.
    destruct (nodes fs !! j) as [m|] eqn:Hj; [|done]. simpl. f_equal. unfold anode_of.
    destruct (type (inode m)); [|done]. f_equal. symmetry. apply contents_ext; [done|].
    intros k _. by apply (Hoth j m k).
Qed.

(** ** Directory listings *)
#[global] Instance entry_le_trans : Transitive entry_le.
Proof.
  intros e1 e2 e3. unfold entry_le. rewrite <-!Is_true_true. apply (transitivity (R := String.le)).
Qed.
#[global] Instance entry_le_total : Total entry_le.
Proof.
  intros e1 e2. unfold entry_le. destruct (String.leb_total (entry_name e1) (entry_name e2)); auto.
Qed.

(** Entries with distinct names have one sorted order. *)
Lemma merge_sort_entries l1 l2 :
  l1 ≡ₚ l2 → NoDup (entry_name <$> l2) → merge_sort entry_le l1 = merge_sort entry_le l2.
Proof.
  intros Hp Hnd. eapply StronglySorted_unique_strong;
    [|apply StronglySorted_merge_sort; apply _..|].
  - intros e1 e2. rewrite !merge_sort_Permutation, Hp. intros H1 H2 Hle1 Hle2.
    assert (entry_name e1 = entry_name e2) as Hn by by apply String.leb_antisym.
    apply list_elem_of_lookup in H1 as [i Hi], H2 as [j Hj].
    assert (i = j) as ->; [|congruence].
    eapply NoDup_lookup; [exact Hnd|by rewrite list_lookup_fmap, Hi|].
    rewrite list_lookup_fmap, Hj. simpl. by rewrite Hn.
  - by rewrite !merge_sort_Permutation.
Qed.

Lemma entries_NoDup (f : Z → option InodeType) (l : list (string * Z)) :
  NoDup l.*1 → NoDup (entry_name <$> omap (λ '(name, c), MkEntry name c <$> f c) l).
Proof.
  induction l as [|[name c] l IH]; simpl; [intros; constructor|].
  intros [Hn Hl]%NoDup_cons. destruct (f c) as [ty|]; simpl; [|by apply IH].
  constructor; [|by apply IH]. intros Hin. apply Hn.
  apply list_elem_of_fmap in Hin as (e & He & [[n' c'] [Hin Hf]]%list_elem_of_omap).
  destruct (f c'); simplify_eq/=. apply list_elem_of_fmap. by exists (n', c').
Qed.

Lemma listDir_abs `{HO : HashOrder} fs path : listDir fs path = a_list (abs fs) path.
Proof.
  unfold listDir, a_list. rewrite resolve_abs. destruct (resolvePath fs path) as [id|]; [|done].
  simpl. rewrite lookup_abs. destruct (nodes fs !! id) as [n|] eqn:Hi; simpl; [|done].
  unfold anode_of at 1. destruct (type (inode n)); simpl; [done|]. f_equal.
  set (f := λ c : Z, type ∘ inode <$> nodes fs !! c).
  assert (∀ (l1 l2 : list (string * Z)), l1 ≡ₚ l2 → NoDup l2.*1 →
    merge_sort entry_le (omap (λ '(name, c), MkEntry name c <$> f c) l1) =
    merge_sort entry_le (omap (λ '(name, c), MkEntry name c <$> f c) l2)) as Hsort.
  { intros l1 l2 Hp Hnd. apply merge_sort_entries; [by rewrite Hp|by apply entries_NoDup]. }
  etransitivity; [|etransitivity; [apply (Hsort _ _ (map_order_perm (children n)))|]].
  - f_equal. apply list_omap_ext, Forall2_same_length_lookup_2; [done|].
    intros i [nm c] y ??. simplify_eq. unfold f. by destruct (nodes fs !! c).
  - apply NoDup_fst_map_to_list.
  - f_equal. apply list_omap_ext, Forall2_same_length_lookup_2; [done|].
    intros i [nm c] y ??. simplify_eq. unfold f. rewrite lookup_abs.
    destruct (nodes fs !! c) as [m|]; [|done]. simpl. unfold anode_of.
    by destruct (type (inode m)).
Qed.

(** [stat] reports the identifier, the type and the size the abstract system
    has, whatever the blocks and the times are. *)
Lemma stat_abs fs path : fs_wf fs → ∃ meta, a_stat meta (abs fs) path = stat fs path.
Proof.
  intros Hw. unfold a_stat, stat. rewrite resolve_abs.
  destruct (resolvePath fs path) as [id|]; [|by exists (0, 0%Z, 0%Z)]. simpl. rewrite lookup_abs.
  destruct (nodes fs !! id) as [n|] eqn:Hi; simpl; [|by exists (0, 0%Z, 0%Z)].
  destruct (tw_id _ _ (wf_tree _ Hw) _ _ Hi) as [Hid _].
  exists (length (blocks (inode n)), createdAt (inode n), modifiedAt (inode n)).
  unfold toInodeInfo, anode_of. rewrite Hid. destruct (type (inode n)) eqn:Hty; simpl.
  - by rewrite length_contents.
  - by destruct (tw_dir _ _ (wf_tree _ Hw) _ _ Hi Hty) as [_ ->].
Qed.

(** ** Operation sequences *)
Inductive fs_op :=
| OpOpen (path : string) (m : Z) | OpRead (fd : Z) (buffer : list byte)
| OpWrite (fd : Z) (data : list byte) | OpClose (fd : Z) | OpMkdir (path : string)
| OpRemove (path : string) | OpList (path : string) | OpStat (path : string).

Inductive fs_value :=
| VUnit | VFd (fd : Z) | VCount (n : nat) | VRead (n : nat) (buffer : list byte)
| VEntries (l : list DirectoryEntry) | VStat (i : InodeInfo).

Definition res_map {A B} (f : A → B) (r : Result A) : Result B :=
  match r with ok x => ok (f x) | error e => error e end.
Definition opt_map {A B S} (f : A → B) (o : option (Result A * S)) : option (Result B * S) :=
  let! (r, s) := o in Some (res_map f r, s).
Definition pair_map {A B S} (f : A → B) (p : Result A * S) : Result B * S := (res_map f p.1, p.2).

Section runs.
Context `{HO : HashOrder} `{NT : NodeTable}.

Definition fs_step (fs : fs_state) (o : fs_op) : option (Result fs_value * fs_state) :=
  match o with
  | OpOpen path m => opt_map VFd (open fs path m)
  | OpRead fd buffer =>
      let! (r, buffer', fs') := read fs fd buffer in Some (res_map (λ n, VRead n buffer') r, fs')
  | OpWrite fd data => opt_map VCount (write fs fd data)
  | OpClose fd => Some (pair_map (λ _, VUnit) (close fs fd))
  | OpMkdir path => opt_map (λ _, VUnit) (mkdir fs path)
  | OpRemove path => opt_map (λ _, VUnit) (remove fs path)
  | OpList path => Some (res_map VEntries (listDir fs path), fs)
  | OpStat path => Some (res_map VStat (stat fs path), fs)
  end.

Definition a_step (full : bool) (meta : nat * Z * Z) (s : afs) (o : fs_op) : Result fs_value * afs :=
  match o with
  | OpOpen path m => pair_map VFd (a_open s path m)
  | OpRead fd buffer => pair_map (λ '(n, b), VRead n b) (a_read s fd buffer)
  | OpWrite fd data => pair_map VCount (a_write full s fd data)
  | OpClose fd => pair_map (λ _, VUnit) (a_close s fd)
  | OpMkdir path => pair_map (λ _, VUnit) (a_mkdir s path)
  | OpRemove path => pair_map (λ _, VUnit) (a_remove s path)
  | OpList path => (res_map VEntries (a_list s path), s)
  | OpStat path => (res_map VStat (a_stat meta s path), s)
  end.

Fixpoint fs_run (fs : fs_state) (ops : list fs_op) : option (list (Result fs_value) * fs_state) :=
  match ops with
  | [] => Some ([], fs)
  | o :: ops' =>
      let! (r, fs1) := fs_step fs o in
      let! (rs, fs2) := fs_run fs1 ops' in
      Some (r :: rs, fs2)
  end.

Inductive a_run : afs → list fs_op → list (Result fs_value) → afs → Prop :=
| a_run_nil s : a_run s [] [] s
| a_run_cons s o r s1 ops rs s2 full meta :
    a_step full meta s o = (r, s1) → a_run s1 ops rs s2 → a_run s (o :: ops) (r :: rs) s2.

(** A step refines its abstract counterpart, or is undefined because it creates
    a node that rehashes the table. *)
Definition step_ok (fs : fs_state) (o : fs_op) : Prop :=
  ∃ r fs' full meta, fs_step fs o = Some (r, fs') ∧ fs_wf fs' ∧
    a_step full meta (abs fs) o = (r, abs fs') ∧ counts_up fs fs'.
Definition creates (o : fs_op) : Prop :=
  match o with OpOpen _ m => hasOpenMode m OpenMode.Create = true | OpMkdir _ => True | _ => False end.
Definition step_stuck (fs : fs_state) (o : fs_op) : Prop :=
  fs_step fs o = None ∧ creates o ∧ rehashes (nextInodeId fs) = true.

Lemma op_ok_step {A} (f : A → fs_value) fs o res spec :
  op_ok fs res spec → fs_step fs o = opt_map f res →
  (∀ full, a_step full (0, 0%Z, 0%Z) (abs fs) o = pair_map f (spec full)) → step_ok fs o.
Proof.
  intros (r & fs' & full & -> & Hw & Hs & Hn) Hstep Ha.
  exists (res_map f r), fs', full, (0, 0%Z, 0%Z). rewrite Hstep, Ha, Hs. by split_and!.
Qed.

Lemma open_creates fs path m : fs_wf fs → has_room fs → open fs path m = None → hasOpenMode m OpenMode.Create = true.
Proof.
  intros Hw [_ Hfd]. unfold open. destruct (negb _ && negb _); [done|].
  destruct (resolvePath fs path) as [id|e].
  - destruct (open_node_ok fs id m Hw Hfd) as (r & fs' & ? & -> & _). done.
  - by destruct (hasOpenMode m OpenMode.Create).
Qed.

Lemma fs_step_ok fs o : fs_wf fs → has_room fs → step_ok fs o ∨ step_stuck fs o.
Proof.
  intros Hw Hr. destruct o as [path m|fd buffer|fd data|fd|path|path|path|path].
  - destruct (open_ok fs path m Hw Hr) as [H|[H Hre]]; [left; by eapply (op_ok_step VFd)|right].
    split_and!; [simpl; by rewrite H|by eapply open_creates|done].
  - left. destruct (fs_read_ok fs fd buffer Hw) as (r & b & fs' & Hrd & Hw' & Hn & Ha & _).
    exists (res_map (λ n, VRead n b) r), fs', false, (0, 0%Z, 0%Z). simpl. rewrite Hrd, Ha. clear Ha.
    split_and!; try done. unfold pair_map. by destruct r.
  - left. eapply (op_ok_step VCount); [by apply fs_write_ok|done..].
  - left. eapply (op_ok_step (λ _, VUnit)); [by apply close_ok| |done]. simpl. unfold opt_map, pair_map.
    by destruct (close fs fd).
  - destruct (mkdir_ok fs path Hw Hr) as [H|[H Hre]]; [left; by eapply (op_ok_step (λ _, VUnit))|right].
    split_and!; [simpl; by rewrite H|done|done].
  - left. eapply (op_ok_step (λ _, VUnit)); [by apply remove_ok|done..].
  - left. eexists _, fs, false, (0, 0%Z, 0%Z). simpl. by rewrite listDir_abs.
  - left. destruct (stat_abs fs path Hw) as [meta Hst].
    eexists _, fs, false, meta. simpl. by rewrite Hst.
Qed.

(** A run stops at an operation that is stuck. *)
Definition run_stuck (fs : fs_state) (ops : list fs_op) : Prop :=
  ∃ ops1 o ops2 rs fs1, ops = ops1 ++ o :: ops2 ∧ fs_run fs ops1 = Some (rs, fs1) ∧ fs_wf fs1 ∧
    a_run (abs fs) ops1 rs (abs fs1) ∧ step_stuck fs1 o.

Lemma fs_run_ok ops : ∀ fs,
  fs_wf fs → (nextInodeId fs + Z.of_nat (length ops) < 2 ^ 32)%Z →
  (next_fd fs + Z.of_nat (length ops) ≤ INT_MAX)%Z →
  (∃ rs fs', fs_run fs ops = Some (rs, fs') ∧ fs_wf fs' ∧ a_run (abs fs) ops rs (abs fs')) ∨
  (fs_run fs ops = None ∧ run_stuck fs ops).
Proof.
  induction ops as [|o ops IH]; intros fs Hw Hlt Hfd; simpl.
  { left. exists [], fs. split_and!; try done. constructor. }
  simpl in Hlt, Hfd.
  destruct (fs_step_ok fs o Hw) as [(r & fs1 & full & meta & Hstep & Hw1 & Hs & Hn)|Hst]; [split; lia|..].
  - unfold counts_up in Hn. rewrite Hstep. cbn [mbind option_bind].
    destruct (IH fs1 Hw1) as [(rs & fs2 & -> & Hw2 & Hr)|[-> (ops1 & o' & ops2 & rs & fs2 & -> & Hr1 & Hw2 & Hr & Hst)]];
      [lia|lia|left|right; split; [done|]].
    + exists (r :: rs), fs2. split_and!; try done. by econstructor.
    + exists (o :: ops1), o', ops2, (r :: rs), fs2. split_and!; try done; [simpl|by econstructor].
      rewrite Hstep. cbn [mbind option_bind]. by rewrite Hr1.
  - right. pose proof Hst as [-> _]. split; [done|].
    exists [], o, ops, [], fs. split_and!; try done. constructor.
Qed.
End runs.
