(* ===== verification/FsProps.v ===== *)
(** * FsProps: what the file system guarantees

    Reachable states, path uniqueness, block accounting and the read/write
    contract. *)
From Stdlib Require Import Ascii String.
From S2P Require Import Prelude Core BlockAlloc SimpleFs FsStore FsPath FsInvariant FsOps.

Definition a_init : afs := MkAfs {[ROOT_INODE_ID := ADir ∅]} 2 FileDescriptorTable.init.

Lemma abs_make total bs : abs (SimpleFS_make total bs) = a_init.
Proof. unfold abs, a_init, abs_nodes. simpl. by rewrite map_fmap_singleton. Qed.

(** C2: Every sequence of at most 2^31 - 1 file-system operations ([stat] included),
    started on a freshly constructed [SimpleFS] of any geometry, is defined (no
    index out of range), keeps the invariant [fs_wf] and returns what the
    abstract file system returns, up to one outcome: an operation that creates
    a node whose insertion rehashes the table of nodes uses a dead iterator and
    is undefined, and up to that operation the run refines the abstract one.
    Left open are the success of a write's allocation and, in [stat]'s answer,
    the number of blocks and the times; the iteration order of the hash maps is
    not observable. *)
Theorem fs_run_refines (HO : HashOrder) (NT : NodeTable) total bs ops :
  (Z.of_nat (length ops) ≤ INT_MAX)%Z →
  (∃ rs fs', fs_run (SimpleFS_make total bs) ops = Some (rs, fs') ∧ fs_wf fs' ∧
     a_run a_init ops rs (abs fs')) ∨
  fs_run (SimpleFS_make total bs) ops = None ∧
  ∃ ops1 o ops2 rs fs1, ops = ops1 ++ o :: ops2 ∧
    fs_run (SimpleFS_make total bs) ops1 = Some (rs, fs1) ∧ fs_wf fs1 ∧ a_run a_init ops1 rs (abs fs1) ∧
    fs_step fs1 o = None ∧ creates o ∧ rehashes (nextInodeId fs1) = true.
Proof.
  intros Hlen. rewrite <-(abs_make total bs). apply fs_run_ok; [apply fs_wf_make|..];
    simpl; unfold ROOT_INODE_ID, INT_MAX in *; lia.
Qed.

(** A table that never rehashes. *)
Definition roomy : NodeTable := λ _, false.

Lemma fs_run_refines_witness :
  let ops := [OpMkdir "/a"; OpOpen "/a/f" 6; OpWrite 0 [Byte.x41; Byte.x42]; OpList "//a/"; OpStat "/a/f"; OpRemove "/a"] in
  let HO := canonical_order in let NT := roomy in
  (∃ rs fs', fs_run (SimpleFS_make 4 1) ops = Some (rs, fs') ∧ fs_wf fs' ∧
     a_run a_init ops rs (abs fs')) ∨
  fs_run (SimpleFS_make 4 1) ops = None ∧
  ∃ ops1 o ops2 rs fs1, ops = ops1 ++ o :: ops2 ∧
    fs_run (SimpleFS_make 4 1) ops1 = Some (rs, fs1) ∧ fs_wf fs1 ∧ a_run a_init ops1 rs (abs fs1) ∧
    fs_step fs1 o = None ∧ creates o ∧ rehashes (nextInodeId fs1) = true.
Proof. intros ops HO NT. apply (fs_run_refines HO NT 4 1 ops). vm_compute. done. Defined.

(** Where nothing rehashes, every run is defined. *)
Lemma fs_run_defined (HO : HashOrder) (NT : NodeTable) total bs ops :
  (∀ id, rehashes id = false) → (Z.of_nat (length ops) ≤ INT_MAX)%Z →
  ∃ rs fs', fs_run (SimpleFS_make total bs) ops = Some (rs, fs') ∧ fs_wf fs' ∧ a_run a_init ops rs (abs fs').
Proof.
  intros Hno Hlen. rewrite <-(abs_make total bs).
  destruct (fs_run_ok ops (SimpleFS_make total bs)) as [H|[_ (?&?&?&?&fs1&_&_&_&_&_&_&Hre)]];
    [apply fs_wf_make|simpl; unfold ROOT_INODE_ID, INT_MAX in *; lia..|done|by rewrite Hno in Hre].
Qed.

(** A table of one bucket that doubles: the third node rehashes it, and the
    second [mkdir] writes through a dead iterator (simple_fs.cpp:322, :323). *)
Example creation_after_rehash :
  let NT : NodeTable := λ id, (id =? 3)%Z in let HO := canonical_order in
  is_Some (fs_run (SimpleFS_make 4 1) [OpMkdir "/a"]) ∧
  fs_run (SimpleFS_make 4 1) [OpMkdir "/a"; OpMkdir "/b"] = None.
Proof. split; [eexists|]; vm_compute; reflexivity. Qed.

(** ** Paths name inodes *)
Lemma walk_app ns cur toks1 toks2 :
  walk ns cur (toks1 ++ toks2) =
  match walk ns cur toks1 with ok mid => walk ns mid toks2 | error e => error e end.
Proof.
  revert cur. induction toks1 as [|t toks1 IH]; intros cur; simpl; [done|].
  destruct (ns !! cur) as [n|]; [|done]. case_decide; [|done].
  destruct (children n !! t); [apply IH|done].
Qed.

Section paths.
Context (ns : gmap Z Node) (next : Z) (Hw : tree_wf ns next).

Lemma walk_step_inv cur tok c :
  walk ns cur [tok] = ok c →
  ∃ n, ns !! cur = Some n ∧ children n !! tok = Some c ∧
    ∃ m, ns !! c = Some m ∧ parent (inode m) = Some cur ∧ (cur < c)%Z.
Proof.
  simpl. destruct (ns !! cur) as [n|] eqn:Hn; [|done]. case_decide; [|done].
  destruct (children n !! tok) as [c'|] eqn:Hc; [|done]. intros [= ->].
  destruct (tree_child _ _ _ _ _ _ Hw Hn Hc) as (_ & ? & m & ? & ?). eauto 10.
Qed.

Lemma walk_ge cur toks c : walk ns cur toks = ok c → (cur ≤ c)%Z ∧ (toks ≠ [] → (cur < c)%Z).
Proof.
  revert cur. induction toks as [|t toks IH]; intros cur; [intros [= ->]; split; [lia|done]|].
  change (t :: toks) with ([t] ++ toks). rewrite walk_app.
  destruct (walk ns cur [t]) as [mid|] eqn:E; [|done].
  destruct (walk_step_inv _ _ _ E) as (_ & _ & _ & _ & _ & _ & ?). intros [? _]%IH. split; lia.
Qed.

Lemma walk_inj toks1 : ∀ toks2 c,
  walk ns ROOT_INODE_ID toks1 = ok c → walk ns ROOT_INODE_ID toks2 = ok c → toks1 = toks2.
Proof.
  induction toks1 as [|t1 toks1 IH] using rev_ind; intros toks2 c H1 H2.
  { injection H1 as <-. destruct toks2 as [|t toks2]; [done|].
    apply walk_ge in H2 as [_ H2]. specialize (H2 ltac:(done)). lia. }
  destruct toks2 as [|t2 toks2 _] using rev_ind.
  { injection H2 as <-. apply walk_ge in H1 as [_ H1].
    assert (toks1 ++ [t1] ≠ []) by by destruct toks1. specialize (H1 ltac:(done)). lia. }
  rewrite walk_app in H1, H2.
  destruct (walk ns ROOT_INODE_ID toks1) as [m1|] eqn:E1; [|done].
  destruct (walk ns ROOT_INODE_ID toks2) as [m2|] eqn:E2; [|done].
  destruct (walk_step_inv _ _ _ H1) as (n1 & ? & ? & m & ? & Hp1 & _).
  destruct (walk_step_inv _ _ _ H2) as (n2 & ? & ? & m' & ? & Hp2 & _).
  assert (m2 = m1) as -> by congruence. rewrite (IH toks2 m1) by done. f_equal. f_equal.
  assert (n2 = n1) as -> by congruence. by eapply (tw_one_name _ _ Hw m1 n1).
Qed.

Lemma walk_total i : is_Some (ns !! i) → ∃ toks, Forall valid_name toks ∧ walk ns ROOT_INODE_ID toks = ok i.
Proof.
  assert (∀ k i, (i ≤ Z.of_nat k)%Z → is_Some (ns !! i) →
    ∃ toks, Forall valid_name toks ∧ walk ns ROOT_INODE_ID toks = ok i) as H.
  { clear i. induction k as [k IH] using lt_wf_ind. intros i Hi [n Hn].
    destruct (tw_id _ _ Hw _ _ Hn) as [_ Hr].
    destruct (parent (inode n)) as [p|] eqn:Hp.
    - destruct (tw_parent _ _ Hw _ _ _ Hn Hp) as (Hlt & pn & name & Hpn & Hname).
      destruct (tw_id _ _ Hw _ _ Hpn) as [_ Hpr]. unfold ROOT_INODE_ID in *.
      destruct (IH (Z.to_nat p) ltac:(lia) p ltac:(lia) ltac:(eauto)) as (toks & Hv & Hwk).
      destruct (tree_child _ _ _ _ _ _ Hw Hpn Hname) as (Hvn & _).
      exists (toks ++ [name]). split; [by apply Forall_app; auto|].
      rewrite walk_app, Hwk. simpl. rewrite Hpn, Hname. rewrite decide_True; [done|].
      destruct (type (inode pn)) eqn:Hty; [|done].
      by rewrite (tw_file _ _ Hw _ _ Hpn Hty), lookup_empty in Hname.
    - rewrite (tw_orphan _ _ Hw _ _ Hn Hp). by exists []. }
  intros Hi. apply (H (Z.to_nat i)); [|done]. destruct Hi as [n Hn].
  destruct (tw_id _ _ Hw _ _ Hn). unfold ROOT_INODE_ID in *. lia.
Qed.
End paths.

(** C21: In a well-formed file system the directory structure is a tree: every
    inode is named by exactly one list of valid components, and the canonical
    path of that list resolves to it. *)
Theorem inode_unique_path fs i :
  fs_wf fs → is_Some (nodes fs !! i) →
  ∃ toks, resolvePath fs (path_of toks) = ok i ∧
    ∀ path, resolvePath fs path = ok i → splitPath path = ok toks.
Proof.
  intros Hw Hi. pose proof (wf_tree _ Hw) as Ht.
  destruct (walk_total _ _ Ht i Hi) as (toks & Hv & Hwk). exists toks. split.
  - unfold resolvePath. by rewrite splitPath_path_of.
  - intros path. unfold resolvePath. destruct (splitPath path) as [toks'|]; [|done].
    intros Hp. f_equal. by eapply walk_inj.
Qed.

Definition one_dir : fs_state :=
  match mkdir (NT := roomy) (SimpleFS_make 4 1) "/a" with Some (_, fs) => fs | None => SimpleFS_make 4 1 end.

Lemma one_dir_wf : fs_wf one_dir.
Proof.
  unfold one_dir.
  destruct (mkdir_ok (NT := roomy) (SimpleFS_make 4 1) "/a" (fs_wf_make 4 1)) as [(r & fs' & full & -> & Hw & _)|[_ ?]];
    [by vm_compute|done|done].
Qed.

Lemma inode_unique_path_witness :
  ∃ toks, resolvePath one_dir (path_of toks) = ok 2%Z ∧
    ∀ path, resolvePath one_dir path = ok 2%Z → splitPath path = ok toks.
Proof. apply (inode_unique_path one_dir 2 one_dir_wf). vm_compute. eauto. Defined.

(** ** Block accounting *)
Lemma count_false_index l :
  count_true l + length (filter (λ i, l !! i = Some false) (seq 0 (length l))) = length l.
Proof.
  induction l as [|b l IH] using rev_ind; [done|].
  rewrite length_app, seq_app, filter_app, length_app. simpl.
  assert (count_true (l ++ [b]) = count_true l + (if b then 1 else 0)) as ->.
  { clear IH. induction l as [|x l IH]; simpl; [by destruct b|]. lia. }
  assert (filter (λ i, (l ++ [b]) !! i = Some false) (seq 0 (length l)) =
          filter (λ i, l !! i = Some false) (seq 0 (length l))) as ->.
  { assert (∀ js : list nat, (∀ j, j ∈ js → j < length l) →
      filter (λ i, (l ++ [b]) !! i = Some false) js = filter (λ i, l !! i = Some false) js) as H.
    { induction js as [|j js IHj]; intros Hjs; [done|].
      rewrite !filter_cons, IHj by (intros; apply Hjs; set_solver).
      assert ((l ++ [b]) !! j = l !! j) as E by (apply lookup_app_l, Hjs; set_solver).
      repeat case_decide; congruence. }
    apply H. intros j. rewrite elem_of_seq. lia. }
  rewrite filter_cons. pose proof (list_lookup_middle l [] b (length l) eq_refl) as E.
  destruct b; case_decide; simpl; rewrite ?length_app; simpl; congruence || lia.
Qed.

Definition all_blocks (ns : gmap Z Node) : list nat :=
  concat ((λ p, blocks (inode p.2)) <$> map_to_list ns).

Lemma elem_of_all_blocks ns b : b ∈ all_blocks ns ↔ owned ns b.
Proof.
  unfold all_blocks, owned. rewrite list_elem_of_In, in_concat. split.
  - intros (bs & Hbs & Hb). apply list_elem_of_In, list_elem_of_fmap in Hbs as ([i n] & -> & Hin).
    apply elem_of_map_to_list in Hin. exists i, n. split; [done|]. by apply list_elem_of_In.
  - intros (i & n & Hi & Hb). exists (blocks (inode n)). split; [|by apply list_elem_of_In].
    apply list_elem_of_In, list_elem_of_fmap. exists (i, n). split; [done|]. by apply elem_of_map_to_list.
Qed.

Lemma NoDup_all_blocks blk d a ns : storage_wf blk d a ns → NoDup (all_blocks ns).
Proof.
  intros Hw. unfold all_blocks.
  assert (∀ l : list (Z * Node), NoDup l.*1 → (∀ i n, (i, n) ∈ l → ns !! i = Some n) →
    NoDup (concat ((λ p, blocks (inode p.2)) <$> l))) as H.
  { induction l as [|[i n] l IH]; simpl; [intros; constructor|].
    intros [Hi Hnd]%NoDup_cons Hl. apply NoDup_app. split_and!.
    - apply (sw_nodup _ _ _ _ Hw i). apply Hl. set_solver.
    - intros b Hb Hin. apply list_elem_of_In, in_concat in Hin as (bs & Hbs & Hb').
      apply list_elem_of_In, list_elem_of_fmap in Hbs as ([j m] & -> & Hj).
      apply Hi. apply list_elem_of_fmap. exists (j, m). split; [|done]. simpl.
      eapply (sw_disjoint _ _ _ _ Hw i j n m b); [apply Hl; set_solver..|done|].
      by apply list_elem_of_In.
    - apply IH; [done|]. intros. apply Hl. set_solver. }
  apply H; [apply NoDup_fst_map_to_list|]. intros i n. apply elem_of_map_to_list.
Qed.

(** In a well-formed state the blocks of the inodes and the free ones are the disk. *)
Lemma blocks_partition fs :
  fs_wf fs →
  NoDup (all_blocks (nodes fs)) ∧
  length (all_blocks (nodes fs)) + BlockAllocator.freeBlocks (allocator fs) =
    BlockAllocator.totalBlocks (allocator fs) ∧
  ∀ b, BlockAllocator.isFree (allocator fs) b = false → b < BlockAllocator.totalBlocks (allocator fs) →
    b ∈ all_blocks (nodes fs).
Proof.
  intros [Hs _ _ _ _ _]. pose proof (NoDup_all_blocks _ _ _ _ Hs) as Hnd. split; [done|].
  unfold BlockAllocator.freeBlocks, BlockAllocator.totalBlocks, BlockAllocator.isFree.
  rewrite (sw_alloc _ _ _ _ Hs). set (bm := BlockAllocator.freeBitmap (allocator fs)) in *.
  assert (∀ b, b ∈ all_blocks (nodes fs) ↔ bm !! b = Some false) as Hb.
  { intros b. by rewrite elem_of_all_blocks, <-(sw_owned _ _ _ _ Hs). }
  split.
  - assert (all_blocks (nodes fs) ≡ₚ filter (λ i, bm !! i = Some false) (seq 0 (length bm))) as ->.
    { apply NoDup_Permutation; [done|apply NoDup_filter, NoDup_seq|]. intros b.
      rewrite Hb, list_elem_of_filter, elem_of_seq. split; [|naive_solver].
      intros Hl. split; [done|]. apply lookup_lt_Some in Hl. lia. }
    pose proof (count_false_index bm). lia.
  - intros b Hf [x Hx]%lookup_lt_is_Some_2. rewrite Hb. by rewrite Hx in Hf |- *; subst.
Qed.

(** No operation changes the geometry of the disk. *)
Notation total_of fs := (BlockAllocator.totalBlocks (allocator fs)).

Lemma allocate_total a : BlockAllocator.totalBlocks (BlockAllocator.allocate a).2 = BlockAllocator.totalBlocks a.
Proof. unfold BlockAllocator.allocate, BlockAllocator.totalBlocks. repeat case_match; simpl; by rewrite ?length_insert. Qed.
Lemma free_total a b : BlockAllocator.totalBlocks (BlockAllocator.free a b).2 = BlockAllocator.totalBlocks a.
Proof. unfold BlockAllocator.free, BlockAllocator.totalBlocks. repeat case_match; simpl; by rewrite ?length_insert. Qed.

Lemma grow_total k : ∀ a bs, BlockAllocator.totalBlocks (grow k a bs).2.1 = BlockAllocator.totalBlocks a.
Proof.
  induction k as [|k IH]; intros a bs; simpl; [done|]. pose proof (allocate_total a) as H.
  destruct (BlockAllocator.allocate a) as [[b|e] a']; simpl in *; [by rewrite IH|done].
Qed.

Lemma shrink_total k blk : ∀ d a bs r d' a' bs',
  shrink k blk d a bs = Some (r, (d', a', bs')) → BlockAllocator.totalBlocks a' = BlockAllocator.totalBlocks a.
Proof.
  induction k as [|k IH]; intros d a bs r d' a' bs'; simpl; [congruence|].
  destruct (last bs) as [b|]; simpl; [|done]. pose proof (free_total a b) as H.
  destruct (BlockAllocator.free a b) as [[[]|e] a1]; simpl in *; [|congruence].
  destruct (d !! b); simpl; [|done]. by intros ->%IH.
Qed.

Lemma release_total blk bs : ∀ d a r d' a',
  release_blocks blk bs d a = Some (r, (d', a')) → BlockAllocator.totalBlocks a' = BlockAllocator.totalBlocks a.
Proof.
  induction bs as [|b bs IH]; intros d a r d' a'; simpl; [congruence|]. pose proof (free_total a b) as H.
  destruct (BlockAllocator.free a b) as [[[]|e] a1]; simpl in *; [|congruence].
  destruct (d !! b); simpl; [|done]. by intros ->%IH.
Qed.

Lemma ensure_total fs n req r n' fs' :
  ensureFileBlocks fs n req = Some (r, n', fs') → total_of fs' = total_of fs.
Proof.
  unfold ensureFileBlocks. set (k := _ - _). pose proof (grow_total k (allocator fs) (blocks (inode n))) as Hg.
  destruct (grow k (allocator fs) (blocks (inode n))) as [[[]|e] [a bs]]; simpl in *; [|naive_solver].
  destruct (shrink _ _ _ _ _) as [[r' [[d a'] bs']]|] eqn:Hs; simpl; [|done].
  apply shrink_total in Hs. naive_solver congruence.
Qed.

Lemma open_node_total fs id m r fs' : open_node fs id m = Some (r, fs') → total_of fs' = total_of fs.
Proof.
  unfold open_node. destruct (nodes fs !! id) as [n|]; [|naive_solver]. case_decide; [|naive_solver].
  destruct (hasOpenMode m OpenMode.Truncate).
  - destruct (ensureFileBlocks fs n 0) as [[[r0 n1] f1]|] eqn:He; simpl; [|done].
    apply ensure_total in He. destruct r0; simpl; [|naive_solver].
    destruct (FileDescriptorTable.open _ _) as [[]|]; simpl; naive_solver.
  - simpl. destruct (FileDescriptorTable.open _ _) as [[]|]; simpl; naive_solver.
Qed.

Lemma link_new_total `{NT : NodeTable} fs p pn name ty id fs' :
  link_new fs p pn name ty = Some (id, fs') → total_of fs' = total_of fs.
Proof. unfold link_new. case_match; [done|]. by intros [= _ <-]. Qed.

Lemma open_total `{NT : NodeTable} fs path m r fs' : open fs path m = Some (r, fs') → total_of fs' = total_of fs.
Proof.
  unfold open. case_match; [naive_solver|]. case_match; [apply open_node_total|].
  case_match; [naive_solver|]. case_match; [|naive_solver]. case_match. case_match; [|naive_solver].
  case_decide; [|naive_solver]. case_match; [naive_solver|].
  destruct (link_new _ _ _ _ _) as [[id fs1]|] eqn:Hl; simpl; [|done].
  intros ->%open_node_total. by eapply link_new_total.
Qed.

Lemma mkdir_total `{NT : NodeTable} fs path r fs' : mkdir fs path = Some (r, fs') → total_of fs' = total_of fs.
Proof.
  unfold mkdir. case_match; [|naive_solver]. case_match. case_match; [|naive_solver].
  case_decide; [|naive_solver]. case_match; [naive_solver|].
  destruct (link_new _ _ _ _ _) as [[id fs1]|] eqn:Hl; simpl; [|done].
  intros [= _ <-]. by eapply link_new_total.
Qed.

Lemma writeToNode_total fs n off data r n' fs' :
  writeToNode fs n off data = Some (r, n', fs') → total_of fs' = total_of fs.
Proof.
  unfold writeToNode. case_decide; [naive_solver|].
  destruct (ensureFileBlocks _ _ _) as [[[r1 n1] f1]|] eqn:He; simpl; [|done]. apply ensure_total in He.
  destruct r1; [|naive_solver]. destruct (write_loop _ _ _ _ _ _ _); simpl; naive_solver.
Qed.

Lemma write_total fs fd data r fs' : write fs fd data = Some (r, fs') → total_of fs' = total_of fs.
Proof.
  unfold write. case_match; [|naive_solver]. case_match; [naive_solver|]. case_match; [|naive_solver].
  destruct (writeToNode _ _ _ _) as [[[r1 n1] f1]|] eqn:Hw; simpl; [|done]. apply writeToNode_total in Hw.
  repeat case_match; intros; simplify_eq; done.
Qed.

Lemma read_total fs fd buffer r b fs' : read fs fd buffer = Some (r, b, fs') → total_of fs' = total_of fs.
Proof.
  unfold read. case_match; [|naive_solver]. case_match; [naive_solver|]. case_match; [|naive_solver].
  destruct (readFromNode _ _ _ _) as [[r1 b1]|]; simpl; [|done].
  repeat case_match; intros; simplify_eq; done.
Qed.

Lemma remove_total fs path r fs' : remove fs path = Some (r, fs') → total_of fs' = total_of fs.
Proof.
  unfold remove. repeat (case_match || case_decide); simpl; intros; simplify_eq; try done.
  all: match goal with H : release_blocks _ _ _ _ = _ |- _ => by apply release_total in H end.
Qed.

Lemma opt_map_Some {A B S} (f : A → B) (o : option (Result A * S)) r s :
  opt_map f o = Some (r, s) → ∃ r0, o = Some (r0, s).
Proof. unfold opt_map. destruct o as [[r0 s0]|]; simpl; [|done]. intros [= _ ->]. eauto. Qed.

Lemma fs_step_total `{HO : HashOrder} `{NT : NodeTable} fs o r fs' :
  fs_step fs o = Some (r, fs') → total_of fs' = total_of fs.
Proof.
  destruct o; simpl; try (intros [r0 H]%opt_map_Some; revert H);
    eauto using open_total, write_total, mkdir_total, remove_total; try (intros; by simplify_eq).
  - destruct (read fs fd buffer) as [[[r0 b] f]|] eqn:Hr; simpl; [|done]. intros [= _ <-]. by eapply read_total.
  - unfold pair_map, close. destruct (FileDescriptorTable.close _ _). intros; by simplify_eq.
Qed.

Lemma fs_run_total `{HO : HashOrder} `{NT : NodeTable} ops : ∀ fs rs fs',
  fs_run fs ops = Some (rs, fs') → total_of fs' = total_of fs.
Proof.
  induction ops as [|o ops IH]; intros fs rs fs'; simpl; [congruence|].
  destruct (fs_step fs o) as [[r fs1]|] eqn:Hs; simpl; [|done].
  destruct (fs_run fs1 ops) as [[rs1 fs2]|] eqn:Hr; simpl; [|done].
  intros [= _ <-]. by rewrite (IH _ _ _ Hr), (fs_step_total _ _ _ _ Hs).
Qed.

(** C22: No block is lost or shared, whatever is done: after any defined run of
    at most 2^31 - 1 operations from a fresh disk, failed writes, truncations and
    removals included, no block belongs twice to the inodes, a block that is not
    free belongs to one, and the blocks of all inodes and the free blocks the
    allocator reports add up to the size the disk was made with. *)
Theorem blocks_conserved (HO : HashOrder) (NT : NodeTable) total bs ops rs fs :
  (Z.of_nat (length ops) ≤ INT_MAX)%Z → fs_run (SimpleFS_make total bs) ops = Some (rs, fs) →
  NoDup (all_blocks (nodes fs)) ∧
  (∀ b, b < Nat.max 1 total → BlockAllocator.isFree (allocator fs) b = false → b ∈ all_blocks (nodes fs)) ∧
  length (all_blocks (nodes fs)) + BlockAllocator.freeBlocks (allocator fs) = Nat.max 1 total.
Proof.
  intros Hlen Hrun. pose proof (fs_run_total ops _ _ _ Hrun) as Ht.
  assert (fs_wf fs) as Hw.
  { destruct (fs_run_ok ops (SimpleFS_make total bs)) as [(? & ? & H & ? & _)|[H _]];
      [apply fs_wf_make|simpl; unfold ROOT_INODE_ID, INT_MAX in *; lia..| |]; congruence. }
  assert (total_of fs = Nat.max 1 total) as Htot.
  { rewrite Ht. unfold BlockAllocator.totalBlocks. apply length_replicate. }
  destruct (blocks_partition fs Hw) as (Hnd & Hsum & Hall). rewrite Htot in *. split_and!; auto.
Qed.

(** Two files, a failed write that keeps what it grabbed, a truncation and a removal. *)
Definition busy_ops : list fs_op :=
  [OpOpen "/f" 7; OpWrite 0 [Byte.x41; Byte.x42; Byte.x43]; OpOpen "/g" 7;
   OpWrite 1 (replicate 9 Byte.x44); OpOpen "/f" 10; OpWrite 2 [Byte.x45]; OpMkdir "/d"].

Lemma blocks_conserved_witness :
  let HO := canonical_order in let NT := roomy in
  ∃ rs fs, fs_run (SimpleFS_make 4 1) busy_ops = Some (rs, fs) ∧
    rs !! 3 = Some (error ErrorCode.OutOfMemory) ∧
    length (all_blocks (nodes fs)) = 2 ∧
    NoDup (all_blocks (nodes fs)) ∧
    (∀ b, b < 4 → BlockAllocator.isFree (allocator fs) b = false → b ∈ all_blocks (nodes fs)) ∧
    length (all_blocks (nodes fs)) + BlockAllocator.freeBlocks (allocator fs) = 4.
Proof.
  intros HO NT. eexists _, _. split; [vm_compute; reflexivity|]. split; [reflexivity|].
  split; [vm_compute; reflexivity|].
  eapply (blocks_conserved HO NT 4 1 busy_ops); [by vm_compute|vm_compute; reflexivity].
Defined.

(** ** Writing and reading back *)

(** The bytes of an open file, and where a write through a descriptor lands. *)
Definition open_contents (fs : fs_state) (st : OpenFileState) : option (list byte) :=
  match nodes fs !! inodeId st with
  | Some n => if decide (type (inode n) = File) then Some (node_contents fs n) else None
  | None => None
  end.
Definition write_offset (st : OpenFileState) (c : list byte) : nat :=
  if hasOpenMode (mode st) OpenMode.Append then length c else offset st.

(** A write, outcome by outcome. *)
Lemma write_result fs fd st n data :
  fs_wf fs → FileDescriptorTable.get (fdTable fs) fd = ok st →
  hasOpenMode (mode st) OpenMode.Write = true → nodes fs !! inodeId st = Some n → data ≠ [] →
  let c := node_contents fs n in
  let off := write_offset st c in
  ∃ r fs', write fs fd data = Some (r, fs') ∧
    if requiredBlocks (blockSize fs) (Nat.max (length c) (off + length data))
         <=? reachable_blocks fs n
    then r = ok (length data) ∧ open_contents fs' st = Some (write_at c off data) ∧
         FileDescriptorTable.get (fdTable fs') fd =
           ok (MkOpenFile (inodeId st) (off + length data) (mode st))
    else r = error ErrorCode.OutOfMemory ∧ abs fs' = abs fs ∧
         ∃ new a', length new = BlockAllocator.freeBlocks (allocator fs) ∧ BlockAllocator.freeBlocks a' = 0 ∧
           fs' = set_nodes (set_storage fs (disk fs) a')
                   (<[inodeId st := set_blocks n (blocks (inode n) ++ new)]> (nodes fs)).
Proof.
  intros Hw Hget Hm Hi Hd c off. unfold FileDescriptorTable.get in Hget.
  destruct (FileDescriptorTable.entries (fdTable fs) !! fd) as [st0|] eqn:Hst; [|done].
  injection Hget as ->.
  destruct (wf_fd_file _ Hw _ _ Hst) as [_ Hty]. specialize (Hty _ Hi).
  pose proof (fs_write_ok fs fd data Hw) as (r & fs' & full & Hwr & _ & Habs & _).
  exists r, fs'. split; [done|].
  unfold write, a_write in Hwr, Habs. unfold FileDescriptorTable.get in *.
  simpl in Habs. rewrite Hst in Hwr, Habs. rewrite Hm in Hwr, Habs. simpl in Hwr, Habs.
  rewrite lookup_abs, Hi in Habs. rewrite Hi in Hwr. simpl in Habs.
  rewrite anode_file, length_contents in Habs by done.
  assert (length c = inode_size (inode n)) as Hlc by apply length_contents.
  unfold off, write_offset. rewrite Hlc. clear off. set (off := if hasOpenMode _ _ then _ else _) in *.
  destruct (writeToNode_spec fs (inodeId st) n off data) as
    (r1 & n' & fs1 & Heq & Hs' & Hby & Hoth & (Eb & Ef & En & Ex) & Hmeta & Hr);
    [by apply wf_set_nodes_id; [apply Hw|]|by eapply wf_bytes|].
  rewrite Heq in Hwr.
  destruct Hr as [(-> & Hc & Hle)|(-> & Hc & _ & Hlt & Hfs & Hn' & Hz & new & Hnew & Hl)].
  - destruct Hle as [?|Hle]; [done|]. rewrite (proj2 (Nat.leb_le _ _)) by done.
    unfold FileDescriptorTable.set in Hwr. simpl in Hwr. rewrite Ef, Hst in Hwr.
    injection Hwr as <- <-. split; [done|]. split.
    + unfold open_contents. simpl. rewrite lookup_insert_eq.
      destruct Hmeta as (_ & Et & _). rewrite Et, decide_True by done. f_equal.
      unfold node_contents in *. simpl. done.
    + simpl. by rewrite lookup_insert_eq.
  - rewrite (proj2 (Nat.leb_gt _ _)) by done. injection Hwr as <- <-. split; [done|]. split.
    + destruct full; [by apply (f_equal snd) in Habs|done].
    + exists new, (allocator fs1). split_and!; [done|done|]. rewrite Hn', Hnew, Hfs. done.
Qed.

(** C18: A write through a writable descriptor of an existing file either stores
    all of the data at the descriptor's position (the end of the file in append
    mode) and moves the descriptor, or reports [OutOfMemory].  It fails exactly when the
    blocks the grown file needs exceed those it has plus the free ones, and then
    no file's bytes or size and no descriptor change, but the file keeps every
    block that was free: its inode lists them after its own, none is free any
    more, and this is all that differs from the state before. *)
Theorem write_outcome fs fd st n data :
  fs_wf fs → FileDescriptorTable.get (fdTable fs) fd = ok st →
  hasOpenMode (mode st) OpenMode.Write = true → nodes fs !! inodeId st = Some n → data ≠ [] →
  let c := node_contents fs n in
  let off := write_offset st c in
  ∃ r fs', write fs fd data = Some (r, fs') ∧
    if requiredBlocks (blockSize fs) (Nat.max (length c) (off + length data))
         <=? reachable_blocks fs n
    then r = ok (length data) ∧ open_contents fs' st = Some (write_at c off data) ∧
         FileDescriptorTable.get (fdTable fs') fd =
           ok (MkOpenFile (inodeId st) (off + length data) (mode st))
    else r = error ErrorCode.OutOfMemory ∧ abs fs' = abs fs ∧
         ∃ new a', length new = BlockAllocator.freeBlocks (allocator fs) ∧ BlockAllocator.freeBlocks a' = 0 ∧
           fs' = set_nodes (set_storage fs (disk fs) a')
                   (<[inodeId st := set_blocks n (blocks (inode n) ++ new)]> (nodes fs)).
Proof. apply write_result. Qed.

(** Concrete reachable states, for the witnesses. *)
Definition run_state (total bs : nat) (ops : list fs_op) : fs_state :=
  match fs_run (HO := canonical_order) (NT := roomy) (SimpleFS_make total bs) ops with
  | Some (_, fs) => fs
  | None => SimpleFS_make total bs
  end.

Lemma run_state_wf total bs ops :
  (Z.of_nat (length ops) <=? INT_MAX)%Z = true → fs_wf (run_state total bs ops).
Proof.
  intros Hl%Z.leb_le. unfold run_state.
  by destruct (fs_run_defined canonical_order roomy total bs ops) as (rs & fs' & -> & Hw & _).
Qed.

Definition one_file : fs_state := run_state 2 2 [OpOpen "/f" 7; OpOpen "/f" 1].
Definition one_node : Node := MkNode (MkInode 2 File 0 [] (Some 1%Z) 1 1) ∅.
Definition five_bytes : list byte := replicate 5 Byte.x41.
Definition two_bytes : list byte := [Byte.x41; Byte.x42; Byte.x43].

Lemma write_outcome_witness :
  let st := MkOpenFile 2 0 7 in
  let c := node_contents one_file one_node in
  let off := write_offset st c in
  ∃ r fs', write one_file 0 five_bytes = Some (r, fs') ∧
    if requiredBlocks (blockSize one_file) (Nat.max (length c) (off + length five_bytes))
         <=? reachable_blocks one_file one_node
    then r = ok (length five_bytes) ∧ open_contents fs' st = Some (write_at c off five_bytes) ∧
         FileDescriptorTable.get (fdTable fs') 0 =
           ok (MkOpenFile (inodeId st) (off + length five_bytes) (mode st))
    else r = error ErrorCode.OutOfMemory ∧ abs fs' = abs one_file ∧
         ∃ new a', length new = BlockAllocator.freeBlocks (allocator one_file) ∧
           BlockAllocator.freeBlocks a' = 0 ∧
           fs' = set_nodes (set_storage one_file (disk one_file) a')
                   (<[inodeId st := set_blocks one_node (blocks (inode one_node) ++ new)]> (nodes one_file)).
Proof.
  apply (write_outcome one_file 0 (MkOpenFile 2 0 7) one_node five_bytes);
    [apply run_state_wf; reflexivity|..]; try (vm_compute; reflexivity); done.
Defined.

Lemma read_at_write_at c off data : data ≠ [] → read_at (write_at c off data) off (length data) = data.
Proof.
  intros Hd. unfold read_at. apply list_eq. intros k.
  destruct (decide (k < length data)).
  - rewrite lookup_take_lt, lookup_drop, lookup_write_at by done.
    rewrite !decide_True by lia. f_equal. lia.
  - rewrite lookup_take_ge by lia. symmetry. apply lookup_ge_None. lia.
Qed.

(** C19: What is written is read back: after a successful write, another readable
    descriptor of the same file whose position is where the write landed
    returns exactly the written bytes. *)
Theorem write_read_roundtrip fs fd st n data fs' fd2 st2 buffer k :
  fs_wf fs → FileDescriptorTable.get (fdTable fs) fd = ok st →
  nodes fs !! inodeId st = Some n → data ≠ [] →
  write fs fd data = Some (ok k, fs') →
  FileDescriptorTable.get (fdTable fs') fd2 = ok st2 → inodeId st2 = inodeId st →
  hasOpenMode (mode st2) OpenMode.Read = true →
  offset st2 = write_offset st (node_contents fs n) → length buffer = length data →
  ∃ fs'', read fs' fd2 buffer = Some (ok (length data), data, fs'').
Proof.
  intros Hw Hget Hi Hd Hwr Hget2 Hid Hr Hoff Hlen.
  destruct (hasOpenMode (mode st) OpenMode.Write) eqn:Hm.
  2: { unfold write in Hwr. by rewrite Hget, Hm in Hwr. }
  pose proof (fs_write_ok fs fd data Hw) as (r & fs0 & full & Hwr0 & Hw' & _).
  rewrite Hwr in Hwr0. injection Hwr0 as <- <-.
  destruct (write_result fs fd st n data Hw Hget Hm Hi Hd) as (r & fs0 & Hwr1 & Hout).
  rewrite Hwr in Hwr1. injection Hwr1 as <- <-. destruct (_ <=? _); [|by destruct Hout].
  destruct Hout as (_ & Hc & _).
  destruct (fs_read_ok fs' fd2 buffer Hw') as (r & b & fs'' & Hrd & _ & _ & Ha & _).
  unfold a_read in Ha. simpl in Ha. rewrite Hget2, Hr in Ha. simpl in Ha.
  rewrite lookup_abs, Hid in Ha. unfold open_contents in Hc.
  destruct (nodes fs' !! inodeId st) as [n'|]; [|done]. case_decide as Hty; [|done].
  simpl in Ha. rewrite anode_file in Ha by done. unfold node_contents at 1 in Hc.
  injection Hc as Hc. rewrite Hc, Hoff, Hlen, read_at_write_at in Ha by done.
  rewrite splice_all in Ha by done.
  destruct r; simplify_eq. by exists fs''.
Qed.

Definition after_write : fs_state :=
  match write one_file 0 two_bytes with Some (_, fs) => fs | None => one_file end.

Lemma write_read_roundtrip_witness :
  ∃ fs'', read after_write 1 (replicate 3 zero_byte) = Some (ok 3, two_bytes, fs'').
Proof.
  apply (write_read_roundtrip one_file 0 (MkOpenFile 2 0 7) one_node two_bytes after_write 1
    (MkOpenFile 2 0 1) (replicate 3 zero_byte) 3);
    [apply run_state_wf; reflexivity|..]; try (vm_compute; reflexivity); done.
Defined.
