(* ===== verification/Arch.v ===== *)
(** * Arch: [arch/] and [memory/physical_memory.cpp]

    The instruction set, the register file, and memory behind the interface
    [IMemory] that the CPU, the MMU and the interpreter are proved against. *)
From S2P Require Import Prelude Core.

(** ** Instructions: [arch/instruction.h], [arch/isa.h] *)
Inductive Instruction :=
| Nop | Mov | Add | Sub | Mul | Div | And | Or | Xor | ShiftLeft | ShiftRight | Compare
| JumpEqual | JumpNotEqual | JumpGreater | JumpLess | JumpGreaterEqual | JumpLessEqual
| Push | Pop | Call | Return | ReadMemory | WriteMemory | Interrupt_ | Halt.
#[global] Instance Instruction_eq_dec : EqDecision Instruction.
Proof. solve_decision. Defined.

(** The declared number of instructions, and all of them. *)
Definition INSTRUCTION_COUNT : nat := 25.
Definition all_instructions : list Instruction :=
  [Nop; Mov; Add; Sub; Mul; Div; And; Or; Xor; ShiftLeft; ShiftRight; Compare; JumpEqual;
   JumpNotEqual; JumpGreater; JumpLess; JumpGreaterEqual; JumpLessEqual; Push; Pop; Call;
   Return; ReadMemory; WriteMemory; Interrupt_; Halt].

Definition instructionName (instr : Instruction) : string :=
  (match instr with
  | Nop => "NOP" | Mov => "MOV" | Add => "ADD" | Sub => "SUB" | Mul => "MUL" | Div => "DIV"
  | And => "AND" | Or => "OR" | Xor => "XOR" | ShiftLeft => "SHL" | ShiftRight => "SHR"
  | Compare => "CMP" | JumpEqual => "JE" | JumpNotEqual => "JNE" | JumpGreater => "JG"
  | JumpLess => "JL" | JumpGreaterEqual => "JGE" | JumpLessEqual => "JLE" | Push => "PUSH"
  | Pop => "POP" | Call => "CALL" | Return => "RET" | ReadMemory => "RMEM"
  | WriteMemory => "WMEM" | Interrupt_ => "INT" | Halt => "HALT"
  end)%string.

Definition isArithmetic (i : Instruction) : bool := bool_decide (i ∈ [Add; Sub; Mul; Div]).
Definition isLogic (i : Instruction) : bool :=
  bool_decide (i ∈ [And; Or; Xor; ShiftLeft; ShiftRight]).
Definition isJump (i : Instruction) : bool :=
  bool_decide (i ∈ [JumpEqual; JumpNotEqual; JumpGreater; JumpLess; JumpGreaterEqual; JumpLessEqual]).
Definition isStackOp (i : Instruction) : bool := bool_decide (i ∈ [Push; Pop; Call; Return]).
Definition isMemoryOp (i : Instruction) : bool := bool_decide (i ∈ [ReadMemory; WriteMemory]).
Definition isHalt (i : Instruction) : bool := bool_decide (i = Halt).

(** ** Interrupt codes: [arch/interrupt.h]

    [enum class Interrupt : std::int32_t]; a program can raise any 32-bit code. *)
Module Interrupt.
Definition Ok : Z := 0.
Definition Error : Z := -1.
Definition DivByZero : Z := 3.
Definition SystemCall : Z := 11.
Definition PageFault : Z := 14.
Definition Exit : Z := 16.
Definition NetworkIO : Z := 32.
Definition Timer : Z := 64.
Definition DeviceIO : Z := 254.
End Interrupt.

Definition interruptName (intr : Z) : string :=
  (if (intr =? Interrupt.Ok)%Z then "OK" else
  if (intr =? Interrupt.Error)%Z then "ERROR" else
  if (intr =? Interrupt.DivByZero)%Z then "DIV_BY_ZERO" else
  if (intr =? Interrupt.SystemCall)%Z then "SYSCALL" else
  if (intr =? Interrupt.PageFault)%Z then "PAGE_FAULT" else
  if (intr =? Interrupt.Exit)%Z then "EXIT" else
  if (intr =? Interrupt.NetworkIO)%Z then "NETWORK_IO" else
  if (intr =? Interrupt.Timer)%Z then "TIMER" else
  if (intr =? Interrupt.DeviceIO)%Z then "DEVICE_IO" else "UNKNOWN")%string.

(** ** Memory cells: [arch/block.h] *)
Record Block := MkBlock { code : Instruction; reg : Z; operand : Z; state : Z }.
#[global] Instance Block_eq_dec : EqDecision Block.
Proof. solve_decision. Defined.

Definition Block_default : Block := MkBlock Nop 0 0 0.
(** [Block{Instruction::Nop, 0, v}]: a data cell. *)
Definition data_cell (v : Z) : Block := MkBlock Nop 0 v 0.

Definition block_wf (b : Block) : Prop := (0 ≤ reg b < 256)%Z ∧ is_i32 (operand b) ∧ is_i32 (state b).

Lemma data_cell_wf v : is_i32 v → block_wf (data_cell v).
Proof. unfold block_wf, is_i32, INT_MIN, INT_MAX. simpl. lia. Qed.
Lemma Block_default_wf : block_wf Block_default.
Proof. unfold block_wf, is_i32, INT_MIN, INT_MAX. simpl. lia. Qed.
#[export] Hint Resolve data_cell_wf Block_default_wf : width.

(** ** Registers: [arch/register_file.cpp]

    [std::array<RegisterValue, 16>]; an index past the end fails an assertion. *)
Module RegisterFile.

Definition ProgramCounter : nat := 14.
Definition StackPointer : nat := 15.
Definition init : list Z := replicate REGISTER_COUNT 0%Z.

Definition get (rf : list Z) (index : Z) : option Z := rf !! Z.to_nat index.
Definition set (rf : list Z) (index : Z) (v : Z) : option (list Z) :=
  if decide (Z.to_nat index < length rf) then Some (<[Z.to_nat index := v]> rf) else None.

Definition pc (rf : list Z) : Z := nth ProgramCounter rf 0%Z.
Definition setPc (rf : list Z) (v : Z) : list Z := <[ProgramCounter := v]> rf.
Definition sp (rf : list Z) : Z := nth StackPointer rf 0%Z.
Definition setSp (rf : list Z) (v : Z) : list Z := <[StackPointer := v]> rf.

Definition reset (rf : list Z) : list Z := replicate (length rf) 0%Z.
Definition snapshot (rf : list Z) : list Z := rf.
Definition restore (rf values : list Z) : list Z := values.

Definition registerName (r : nat) : string :=
  (match r with
  | 0 => "R0" | 1 => "R1" | 2 => "R2" | 3 => "R3" | 4 => "R4" | 5 => "R5" | 6 => "R6" | 7 => "R7"
  | 8 => "R8" | 9 => "R9" | 10 => "R10" | 11 => "R11" | 12 => "R12" | 13 => "R13"
  | 14 => "PC" | 15 => "SP" | _ => "??"
  end)%string.

Definition wf (rf : list Z) : Prop := length rf = REGISTER_COUNT ∧ Forall is_i32 rf.

Lemma init_wf : wf init.
Proof. split; [done|]. by repeat constructor. Qed.

Lemma get_Some rf i v : wf rf → get rf i = Some v → is_i32 v.
Proof. intros [_ Hf] Hg. by eapply Forall_lookup_1. Qed.
Lemma get_is_Some rf i : wf rf → (is_Some (get rf i) ↔ (i < 16)%Z).
Proof.
  intros [Hl _]. unfold get. rewrite lookup_lt_is_Some, Hl. unfold REGISTER_COUNT. lia.
Qed.
Lemma named_get rf (i : nat) : wf rf → i < 16 → rf !! i = Some (nth i rf 0%Z).
Proof.
  intros [Hl _] Hi. rewrite nth_lookup.
  destruct (lookup_lt_is_Some_2 rf i) as [v ->]; [|done].
  rewrite Hl. exact Hi.
Qed.
Lemma pc_get rf : wf rf → rf !! ProgramCounter = Some (pc rf).
Proof. intros. apply named_get; [done|]. unfold ProgramCounter. lia. Qed.
Lemma sp_get rf : wf rf → rf !! StackPointer = Some (sp rf).
Proof. intros. apply named_get; [done|]. unfold StackPointer. lia. Qed.
Lemma pc_wf rf : wf rf → is_i32 (pc rf).
Proof. intros Hw. eapply Forall_lookup_1; [apply Hw|by apply pc_get]. Qed.
Lemma sp_wf rf : wf rf → is_i32 (sp rf).
Proof. intros Hw. eapply Forall_lookup_1; [apply Hw|by apply sp_get]. Qed.

Lemma insert_wf rf (i : nat) v : wf rf → is_i32 v → wf (<[i := v]> rf).
Proof. intros [Hl Hf] Hv. split; [by rewrite length_insert|]. by apply Forall_insert. Qed.
Lemma setPc_wf rf v : wf rf → is_i32 v → wf (setPc rf v).
Proof. apply insert_wf. Qed.
Lemma setSp_wf rf v : wf rf → is_i32 v → wf (setSp rf v).
Proof. apply insert_wf. Qed.
Lemma set_wf rf i v rf' : wf rf → is_i32 v → set rf i v = Some rf' → wf rf'.
Proof. unfold set. case_decide; [|done]. intros ?? [= <-]. by apply insert_wf. Qed.

Lemma pc_setPc rf v : wf rf → pc (setPc rf v) = v.
Proof.
  intros [Hl _]. unfold pc, setPc. rewrite nth_lookup, list_lookup_insert_eq; [done|].
  rewrite Hl. unfold REGISTER_COUNT, ProgramCounter. lia.
Qed.
Lemma sp_setPc rf v : sp (setPc rf v) = sp rf.
Proof. unfold sp, setPc. by rewrite !nth_lookup, list_lookup_insert_ne. Qed.
Lemma sp_setSp rf v : wf rf → sp (setSp rf v) = v.
Proof.
  intros [Hl _]. unfold sp, setSp. rewrite nth_lookup, list_lookup_insert_eq; [done|].
  rewrite Hl. unfold REGISTER_COUNT, StackPointer. lia.
Qed.
Lemma pc_setSp rf v : pc (setSp rf v) = pc rf.
Proof. unfold pc, setSp. by rewrite !nth_lookup, list_lookup_insert_ne. Qed.

End RegisterFile.
#[export] Hint Resolve RegisterFile.pc_wf RegisterFile.sp_wf RegisterFile.setPc_wf
  RegisterFile.setSp_wf : width.

(** ** The memory interface: [memory/i_memory.h] *)
Class IMemory (M : Type) := {
  mem_read : M → Z → Result Block;
  mem_write : M → Z → Block → Result unit * M;
  mem_cells : M → nat
}.

(** What a memory promises its clients. *)
Class LawfulMemory (M : Type) `{!IMemory M} : Prop := {
  mem_read_bound m a : (0 ≤ a)%Z → isOk (mem_read m a) = (a <? Z.of_nat (mem_cells m))%Z;
  mem_write_bound m a b : (0 ≤ a)%Z →
    isOk (mem_write m a b).1 = (a <? Z.of_nat (mem_cells m))%Z;
  mem_write_error m a b : isOk (mem_write m a b).1 = false → (mem_write m a b).2 = m;
  mem_read_write m a b : isOk (mem_write m a b).1 = true → mem_read (mem_write m a b).2 a = ok b;
  mem_read_write_ne m a a' b : (0 ≤ a)%Z → (0 ≤ a')%Z → a ≠ a' →
    mem_read (mem_write m a b).2 a' = mem_read m a';
  mem_write_cells m a b : mem_cells (mem_write m a b).2 = mem_cells m
}.

(** ** [memory/physical_memory.cpp] *)
Module PhysicalMemory.

Record t := mk { cells : list Block }.
Definition make (cellCount : nat) : t := mk (replicate cellCount Block_default).

Definition read (m : t) (address : Z) : Result Block :=
  match cells m !! Z.to_nat address with
  | None => error ErrorCode.InvalidAddress
  | Some b => ok b
  end.
Definition write (m : t) (address : Z) (b : Block) : Result unit * t :=
  if length (cells m) <=? Z.to_nat address then (error ErrorCode.InvalidAddress, m)
  else (ok tt, mk (<[Z.to_nat address := b]> (cells m))).
Definition size (m : t) : nat := length (cells m).
Definition clear (m : t) : t := mk (replicate (length (cells m)) Block_default).
Definition writeRange (m : t) (startAddress : Z) (blocks : list Block) : Result unit * t :=
  if length (cells m) <? Z.to_nat startAddress + length blocks
  then (error ErrorCode.InvalidAddress, m)
  else (ok tt, mk (splice (cells m) (Z.to_nat startAddress) blocks)).
Definition readRange (m : t) (startAddress : Z) (count : nat) : Result (list Block) :=
  if length (cells m) <? Z.to_nat startAddress + count then error ErrorCode.InvalidAddress
  else ok (take count (drop (Z.to_nat startAddress) (cells m))).
Definition clearRange (m : t) (startAddress : Z) (count : nat) : Result unit * t :=
  if length (cells m) <? Z.to_nat startAddress + count then (error ErrorCode.InvalidAddress, m)
  else (ok tt, mk (splice (cells m) (Z.to_nat startAddress) (replicate count Block_default))).

Lemma write_ok m a b :
  Z.to_nat a < length (cells m) → write m a b = (ok tt, mk (<[Z.to_nat a := b]> (cells m))).
Proof. intros. unfold write. destruct (Nat.leb_spec (length (cells m)) (Z.to_nat a)); [lia|done]. Qed.
Lemma read_ok m a : Z.to_nat a < length (cells m) → ∃ b, read m a = ok b ∧ cells m !! Z.to_nat a = Some b.
Proof. intros H. unfold read. apply lookup_lt_is_Some in H as [b ->]. eauto. Qed.

(** [writeRange] then [readRange] of the same range returns the blocks
    written, and no cell outside the range changes; both fail together, exactly
    when the range leaves the memory. *)
Theorem range_roundtrip m a blocks :
  let '(r, m') := writeRange m a blocks in
  size m' = size m ∧
  (isOk r = true → readRange m' a (length blocks) = ok blocks) ∧
  (isOk r = false → m' = m ∧ readRange m a (length blocks) = error ErrorCode.InvalidAddress) ∧
  ∀ a', ¬ (Z.to_nat a ≤ Z.to_nat a' < Z.to_nat a + length blocks) → read m' a' = read m a'.
Proof.
  unfold writeRange, readRange. destruct (Nat.ltb_spec (length (cells m)) (Z.to_nat a + length blocks))
    as [|Hle].
  { by split_and!. }
  unfold size, read. simpl. rewrite length_splice by done. split_and!; [done| |done|].
  - intros _. rewrite (proj2 (Nat.ltb_ge _ _)) by done. f_equal. apply list_eq. intros k.
    destruct (decide (k < length blocks)).
    + rewrite lookup_take_lt, lookup_drop, lookup_splice, decide_True by lia. f_equal. lia.
    + rewrite lookup_take_ge by lia. symmetry. apply lookup_ge_None. lia.
  - intros a' Ha. rewrite lookup_splice, decide_False by lia. done.
Qed.

End PhysicalMemory.

#[global] Instance physical_memory : IMemory PhysicalMemory.t := {|
  mem_read := PhysicalMemory.read;
  mem_write := PhysicalMemory.write;
  mem_cells := PhysicalMemory.size
|}.

#[global] Instance physical_memory_lawful : LawfulMemory PhysicalMemory.t.
Proof.
  split; simpl; unfold PhysicalMemory.read, PhysicalMemory.write, PhysicalMemory.size; intros.
  - destruct (PhysicalMemory.cells m !! Z.to_nat a) eqn:E; simpl; symmetry.
    + apply lookup_lt_Some in E. apply Z.ltb_lt. lia.
    + apply lookup_ge_None in E. apply Z.ltb_ge. lia.
  - destruct (Nat.leb_spec (length (PhysicalMemory.cells m)) (Z.to_nat a)); simpl; symmetry.
    + apply Z.ltb_ge. lia.
    + apply Z.ltb_lt. lia.
  - by destruct (_ <=? _).
  - destruct (Nat.leb_spec (length (PhysicalMemory.cells m)) (Z.to_nat a)); simpl in *; [done|].
    by rewrite list_lookup_insert_eq.
  - destruct (_ <=? _); simpl; [done|]. rewrite list_lookup_insert_ne by lia. done.
  - destruct (_ <=? _); simpl; [done|]. apply length_insert.
Qed.
