(* ===== verification/Cpu.v ===== *)
(** * Cpu: [cpu/alu.cpp] and [cpu/cpu.cpp]

    The ALU on 32-bit integers, with the overflows C++ leaves undefined, and
    the fetch-decode-execute cycle over any memory of the interface. *)
From S2P Require Import Prelude Core Arch.
#[local] Open Scope Z_scope.

(** ** [cpu/alu.cpp] *)
Module ALU.

(** A signed result must be representable. *)
Definition checked (z : Z) : option Z := if decide (is_i32 z) then Some z else None.

Definition ZERO_FLAG : Z := 1.
Definition SIGN_FLAG : Z := 2.

Definition add (a b : Z) : option (Result Z) := let! v := checked (a + b) in Some (ok v).
Definition sub (a b : Z) : option (Result Z) := let! v := checked (a - b) in Some (ok v).
Definition mul (a b : Z) : option (Result Z) := let! v := checked (a * b) in Some (ok v).
Definition div (a b : Z) : option (Result Z) :=
  if b =? 0 then Some (error ErrorCode.DivisionByZero)
  else let! v := checked (Z.quot a b) in Some (ok v).
Definition bitwiseAnd (a b : Z) : option (Result Z) := Some (ok (Z.land a b)).
Definition bitwiseOr (a b : Z) : option (Result Z) := Some (ok (Z.lor a b)).
Definition bitwiseXor (a b : Z) : option (Result Z) := Some (ok (Z.lxor a b)).
(** C++20 shifts: the count must be below the width; a left shift wraps. *)
Definition shiftLeft (a b : Z) : option (Result Z) :=
  if decide (0 ≤ b < 32) then Some (ok (i32 (Z.shiftl a b))) else None.
Definition shiftRight (a b : Z) : option (Result Z) :=
  if decide (0 ≤ b < 32) then Some (ok (Z.shiftr a b)) else None.

Definition compare (a b : Z) : Z :=
  let flags := 0 in
  let flags := if a =? b then Z.lor flags ZERO_FLAG else flags in
  if a <? b then Z.lor flags SIGN_FLAG else flags.

End ALU.

(** ** [cpu/cpu.cpp] *)
Definition resolveOperand (b : Block) (regs : list Z) : option Z :=
  if state b =? 1 then RegisterFile.get regs (u8 (operand b)) else Some (operand b).

(** The dispatch of [executeAluOp]. *)
Definition alu_result (c : Instruction) (a b : Z) : option (option (Result Z)) :=
  match c with
  | Add => Some (ALU.add a b)
  | Sub => Some (ALU.sub a b)
  | Mul => Some (ALU.mul a b)
  | Div => Some (ALU.div a b)
  | And => Some (ALU.bitwiseAnd a b)
  | Or => Some (ALU.bitwiseOr a b)
  | Xor => Some (ALU.bitwiseXor a b)
  | ShiftLeft => Some (ALU.shiftLeft a b)
  | ShiftRight => Some (ALU.shiftRight a b)
  | _ => None
  end.

Definition executeAluOp (c : Instruction) (regs : list Z) (dstReg operandValue : Z)
    : option (Z * list Z) :=
  let! dstVal := RegisterFile.get regs dstReg in
  match alu_result c dstVal operandValue with
  | None => Some (Interrupt.Error, regs)
  | Some outcome =>
      let! r := outcome in
      match r with
      | error e => Some (if decide (e = ErrorCode.DivisionByZero) then Interrupt.DivByZero
                         else Interrupt.Error, regs)
      | ok v => let! regs' := RegisterFile.set regs dstReg v in Some (Interrupt.Ok, regs')
      end
  end.

Definition shouldJump (flags : Z) (c : Instruction) : bool :=
  let zeroSet := negb (Z.land flags ALU.ZERO_FLAG =? 0) in
  let signSet := negb (Z.land flags ALU.SIGN_FLAG =? 0) in
  match c with
  | JumpEqual => zeroSet
  | JumpNotEqual => negb zeroSet
  | JumpGreater => negb zeroSet && negb signSet
  | JumpLess => signSet
  | JumpGreaterEqual => negb signSet
  | JumpLessEqual => zeroSet || signSet
  | _ => false
  end.

Section cpu.
Context {M : Type} `{!IMemory M}.

(** The CPU's own state is its flags; memory is shared with its other users. *)
Record cpu_state := MkCpu { flags : Z; memory : M; regs : list Z }.

Definition outcome : Type := option (Z * cpu_state).
Definition finish (fl : Z) (m : M) (i : Z) (r : list Z) : outcome := Some (i, MkCpu fl m r).

Definition exec_push (fl : Z) (m : M) (r : list Z) (v : Z) (after : list Z → list Z) : outcome :=
  let! sp := ALU.checked (RegisterFile.sp r - 1) in
  match mem_write m (u32 sp) (data_cell v) with
  | (error _, m') => finish fl m' Interrupt.Error r
  | (ok _, m') => finish fl m' Interrupt.Ok (after (RegisterFile.setSp r sp))
  end.

Definition exec_pop (fl : Z) (m : M) (r : list Z) (store : Z → option (list Z)) : outcome :=
  match mem_read m (u32 (RegisterFile.sp r)) with
  | error _ => finish fl m Interrupt.Error r
  | ok cell =>
      let! r' := store (operand cell) in
      let! sp := ALU.checked (RegisterFile.sp r + 1) in
      finish fl m Interrupt.Ok (RegisterFile.setSp r' sp)
  end.

(** The [switch] of [step], after the program counter has been advanced. *)
Definition execute (fl : Z) (m : M) (r : list Z) (b : Block) : outcome :=
  match code b with
  | Nop => finish fl m Interrupt.Ok r
  | Mov =>
      let! v := resolveOperand b r in
      let! r' := RegisterFile.set r (reg b) v in
      finish fl m Interrupt.Ok r'
  | Add | Sub | Mul | Div | And | Or | Xor | ShiftLeft | ShiftRight =>
      let! v := resolveOperand b r in
      let! (i, r') := executeAluOp (code b) r (reg b) v in
      finish fl m i r'
  | Compare =>
      let! x := RegisterFile.get r (reg b) in
      let! y := resolveOperand b r in
      finish (ALU.compare x y) m Interrupt.Ok r
  | JumpEqual | JumpNotEqual | JumpGreater | JumpLess | JumpGreaterEqual | JumpLessEqual =>
      finish fl m Interrupt.Ok
        (if shouldJump fl (code b) then RegisterFile.setPc r (operand b) else r)
  | Push =>
      let! v := RegisterFile.get r (reg b) in
      exec_push fl m r v (λ r', r')
  | Pop => exec_pop fl m r (λ v, RegisterFile.set r (reg b) v)
  | Call => exec_push fl m r (RegisterFile.pc r) (λ r', RegisterFile.setPc r' (operand b))
  | Return => exec_pop fl m r (λ v, Some (RegisterFile.setPc r v))
  | ReadMemory =>
      let! a := resolveOperand b r in
      match mem_read m (u32 a) with
      | error _ => finish fl m Interrupt.Error r
      | ok cell =>
          let! r' := RegisterFile.set r (reg b) (operand cell) in
          finish fl m Interrupt.Ok r'
      end
  | WriteMemory =>
      let! v := RegisterFile.get r (reg b) in
      match mem_write m (u32 (operand b)) (data_cell v) with
      | (error _, m') => finish fl m' Interrupt.Error r
      | (ok _, m') => finish fl m' Interrupt.Ok r
      end
  | Interrupt_ => finish fl m (operand b) r
  | Halt => finish fl m Interrupt.Exit r
  end.

Definition step (s : cpu_state) : outcome :=
  let pc := RegisterFile.pc (regs s) in
  match mem_read (memory s) (u32 pc) with
  | error _ => Some (Interrupt.Error, s)
  | ok b =>
      let! pc' := ALU.checked (pc + 1) in
      execute (flags s) (memory s) (RegisterFile.setPc (regs s) pc') b
  end.

Definition cpu_reset (s : cpu_state) : cpu_state := MkCpu 0 (memory s) (regs s).
End cpu.
Arguments cpu_state : clear implicits.
Arguments outcome : clear implicits.

(** ** The ALU *)
Lemma i32_shiftr z : is_i32 z ↔ Z.shiftr z 31 = 0 ∨ Z.shiftr z 31 = -1.
Proof.
  unfold is_i32, INT_MIN, INT_MAX. rewrite Z.shiftr_div_pow2 by lia.
  pose proof (Z.div_mod z (2 ^ 31)). pose proof (Z.mod_pos_bound z (2 ^ 31)). lia.
Qed.
Lemma land_i32 a b : is_i32 a → is_i32 b → is_i32 (Z.land a b).
Proof. rewrite !i32_shiftr, Z.shiftr_land. intros [-> | ->] [-> | ->]; auto. Qed.
Lemma lor_i32 a b : is_i32 a → is_i32 b → is_i32 (Z.lor a b).
Proof. rewrite !i32_shiftr, Z.shiftr_lor. intros [-> | ->] [-> | ->]; auto. Qed.
Lemma lxor_i32 a b : is_i32 a → is_i32 b → is_i32 (Z.lxor a b).
Proof. rewrite !i32_shiftr, Z.shiftr_lxor. intros [-> | ->] [-> | ->]; auto. Qed.
Lemma shiftr_i32 a n : 0 ≤ n → is_i32 a → is_i32 (Z.shiftr a n).
Proof.
  rewrite !i32_shiftr, Z.shiftr_shiftr by lia. intros Hn.
  rewrite Z.add_comm, <-Z.shiftr_shiftr by lia. intros [-> | ->]; [left|right].
  - apply Z.shiftr_0_l.
  - rewrite Z.shiftr_div_pow2 by lia. pose proof (Z.pow_pos_nonneg 2 n).
    symmetry. apply (Z.div_unique _ _ _ (2 ^ n - 1)); lia.
Qed.
Lemma quot_i32 a b : is_i32 a → is_i32 b → b ≠ 0 → is_i32 (Z.quot a b) ↔ ¬ (a = INT_MIN ∧ b = -1).
Proof.
  unfold is_i32, INT_MIN, INT_MAX. intros Ha Hb Hz.
  assert (Z.abs (Z.quot a b) = Z.abs a / Z.abs b) as Habs.
  { rewrite <-Z.quot_abs by done. apply Z.quot_div_nonneg; lia. }
  destruct (decide (Z.abs b = 1)) as [H1|H1].
  - assert (b = 1 ∨ b = -1) as [-> | ->] by lia.
    + rewrite Z.quot_1_r. lia.
    + change (-1) with (- (1)). rewrite Z.quot_opp_r, Z.quot_1_r by lia. lia.
  - assert (Z.abs a / Z.abs b < 2 ^ 31) as Hlt.
    { apply Z.div_lt_upper_bound; nia. }
    split; [|lia]. intros _. intros [-> ->]. lia.
Qed.

(** When C++ leaves an ALU operation undefined. *)
Definition alu_undefined (c : Instruction) (a b : Z) : Prop :=
  match c with
  | Add => ¬ is_i32 (a + b)
  | Sub => ¬ is_i32 (a - b)
  | Mul => ¬ is_i32 (a * b)
  | Div => a = INT_MIN ∧ b = -1
  | ShiftLeft | ShiftRight => ¬ 0 ≤ b < 32
  | _ => False
  end.

(** C26: On 32-bit operands an ALU operation has a value exactly when it stays
    clear of the overflows and shift counts C++ leaves undefined; division
    fails exactly on a zero divisor, and every value it returns is again a
    32-bit integer. *)
Theorem alu_total c a b outcome :
  is_i32 a → is_i32 b → alu_result c a b = Some outcome →
  (outcome = None ↔ alu_undefined c a b) ∧
  (∀ e, outcome = Some (error e) ↔ c = Div ∧ b = 0 ∧ e = ErrorCode.DivisionByZero) ∧
  (∀ v, outcome = Some (ok v) → is_i32 v).
Proof.
  assert (∀ z, (∀ o : option (Result Z), o = (let! v := ALU.checked z in Some (ok v)) →
    (o = None ↔ ¬ is_i32 z) ∧ (∀ e, o ≠ Some (error e)) ∧ (∀ v, o = Some (ok v) → is_i32 v))) as Hchk.
  { intros z o ->. unfold ALU.checked. case_decide; split_and!; naive_solver. }
  intros Ha Hb. destruct c; simpl; intros [= <-]; try done.
  1-3: unfold ALU.add, ALU.sub, ALU.mul;
       match goal with |- context [ALU.checked ?z] =>
         destruct (Hchk z _ eq_refl) as (?&?&?) end; split_and!; naive_solver.
  - unfold ALU.div. destruct (Z.eqb_spec b 0) as [->|Hz].
    { split_and!; [|naive_solver|done]. split; [done|]. intros [_ ?]. lia. }
    destruct (Hchk (Z.quot a b) _ eq_refl) as (Hn & He & Hv).
    pose proof (quot_i32 a b Ha Hb Hz) as Hq. split_and!; [|naive_solver|done].
    rewrite Hn, Hq. unfold INT_MIN. split; [|naive_solver]. intros Hnn.
    destruct (decide (a = - 2 ^ 31)), (decide (b = -1)); tauto.
  - split_and!; [done|naive_solver|]. intros v [= <-]. by apply land_i32.
  - split_and!; [done|naive_solver|]. intros v [= <-]. by apply lor_i32.
  - split_and!; [done|naive_solver|]. intros v [= <-]. by apply lxor_i32.
  - unfold ALU.shiftLeft. case_decide; split_and!; try tauto.
    + split; [done|tauto].
    + intros e. split; [done|]. by intros (?&_).
    + intros v [= <-]. apply i32_range.
    + intros e. split; [done|]. by intros (?&_).
    + done.
  - unfold ALU.shiftRight. case_decide; split_and!; try tauto.
    + split; [done|tauto].
    + intros e. split; [done|]. by intros (?&_).
    + intros v [= <-]. apply shiftr_i32; [lia|done].
    + intros e. split; [done|]. by intros (?&_).
    + done.
Qed.

Lemma alu_total_witness :
  (ALU.mul 65536 32768 = None ↔ alu_undefined Mul 65536 32768) ∧
  (∀ e, ALU.mul 65536 32768 = Some (error e) ↔
     Mul = Div ∧ 32768 = 0 ∧ e = ErrorCode.DivisionByZero) ∧
  (∀ v, ALU.mul 65536 32768 = Some (ok v) → is_i32 v).
Proof.
  apply (alu_total Mul 65536 32768 (ALU.mul 65536 32768));
    [unfold is_i32, INT_MIN, INT_MAX; lia..|reflexivity].
Defined.

(** ** The cycle, over any lawful memory *)
Section cycle.
Context {M : Type} `{HM : !IMemory M, !LawfulMemory M}.
Implicit Types (s : cpu_state M) (m : M).

Definition memory_wf (m : M) : Prop := ∀ a b, 0 ≤ a → mem_read m a = ok b → block_wf b.

Record cpu_wf (s : cpu_state M) : Prop := {
  cw_regs : RegisterFile.wf (regs s);
  cw_memory : memory_wf (memory s);
  cw_flags : flags s ∈ [0; ALU.ZERO_FLAG; ALU.SIGN_FLAG]
}.

Lemma mem_write_cases m a b :
  0 ≤ a →
  (∃ e, mem_write m a b = (error e, m)) ∨
  (mem_write m a b = (ok tt, (mem_write m a b).2)).
Proof.
  intros Ha. pose proof (mem_write_error m a b) as He.
  destruct (mem_write m a b) as [[[]|e] m'] eqn:E; simpl in *; [by right|].
  left. exists e. by rewrite He.
Qed.

Lemma memory_wf_write m a v :
  0 ≤ a → memory_wf m → is_i32 v → memory_wf (mem_write m a (data_cell v)).2.
Proof.
  intros Ha Hm Hv a' b Ha' Hr. destruct (mem_write_cases m a (data_cell v) Ha) as [[e E]|E].
  - rewrite E in Hr. by eapply Hm.
  - destruct (decide (a = a')) as [<-|Hne].
    + rewrite mem_read_write in Hr by by rewrite E. simplify_eq. by apply data_cell_wf.
    + rewrite mem_read_write_ne in Hr by done. by eapply Hm.
Qed.

Lemma compare_flags a b : ALU.compare a b ∈ [0; ALU.ZERO_FLAG; ALU.SIGN_FLAG].
Proof.
  unfold ALU.compare. destruct (Z.eqb_spec a b), (Z.ltb_spec a b); try lia; vm_compute; set_solver.
Qed.

Lemma resolveOperand_wf b r v :
  block_wf b → RegisterFile.wf r → resolveOperand b r = Some v → is_i32 v.
Proof.
  intros (_ & Ho & _) Hr. unfold resolveOperand. destruct (_ =? _).
  - by apply RegisterFile.get_Some.
  - by intros [= <-].
Qed.

Lemma checked_Some z v : ALU.checked z = Some v ↔ v = z ∧ is_i32 z.
Proof. unfold ALU.checked. case_decide; naive_solver. Qed.

Lemma executeAluOp_wf c r i dst v r' :
  RegisterFile.wf r → is_i32 v → executeAluOp c r dst v = Some (i, r') →
  RegisterFile.wf r' ∧ is_i32 i ∧ (i ≠ Interrupt.Ok → r' = r).
Proof.
  intros Hr Hv. unfold executeAluOp. destruct (RegisterFile.get r dst) as [d|] eqn:Hd; [|done].
  pose proof (RegisterFile.get_Some _ _ _ Hr Hd) as Hdw.
  destruct (alu_result c d v) as [out|] eqn:Ho; [|by intros [= <- <-]].
  destruct (alu_total c d v out Hdw Hv Ho) as (_ & _ & Hok).
  destruct out as [[x|e]|]; [|intros [= <- <-]; by case_decide|done].
  destruct (RegisterFile.set r dst x) as [r1|] eqn:Hs; [|done]. intros [= <- <-].
  split_and!; [|done|done]. eapply RegisterFile.set_wf; [done| |done]. by apply Hok.
Qed.

(** What one instruction may do: stay well formed, touch one memory cell, and
    have no effect besides the advanced program counter when it raises
    anything but [Ok]. *)
Definition effect_ok (s : cpu_state M) (i : Z) (s' : cpu_state M) : Prop :=
  cpu_wf s' ∧ is_i32 i ∧
  (memory s' = memory s ∨
     ∃ a v, 0 ≤ a ∧ memory s' = (mem_write (memory s) a (data_cell v)).2) ∧
  (i ≠ Interrupt.Ok → memory s' = memory s ∧ flags s' = flags s ∧ regs s' = regs s).

Lemma effect_regs fl m r r' :
  cpu_wf (MkCpu fl m r) → RegisterFile.wf r' → effect_ok (MkCpu fl m r) Interrupt.Ok (MkCpu fl m r').
Proof. intros [] ?. split_and!; [by split|done|by left|done]. Qed.
Lemma effect_none s i : cpu_wf s → is_i32 i → effect_ok s i s.
Proof. intros. split_and!; [done|done|by left|done]. Qed.

Lemma exec_push_ok fl m r v after i s' :
  cpu_wf (MkCpu fl m r) → is_i32 v → (∀ r', RegisterFile.wf r' → RegisterFile.wf (after r')) →
  exec_push fl m r v after = Some (i, s') → effect_ok (MkCpu fl m r) i s'.
Proof.
  intros Hw Hv Ha. unfold exec_push. destruct (ALU.checked _) as [sp|] eqn:Hsp; [|done].
  apply checked_Some in Hsp as [-> Hsp]. set (a := u32 _).
  assert (0 ≤ a) as Ha0 by apply u32_range.
  destruct (mem_write_cases m a (data_cell v) Ha0) as [[e E]|E]; rewrite E; unfold finish;
    intros [= <- <-]; [by apply effect_none|].
  destruct Hw as [Hr Hm Hf]. simpl in *. split_and!; [|done|right; by exists a, v|done].
  split; simpl; [auto with width|by apply memory_wf_write|done].
Qed.

Lemma exec_pop_ok fl m r store i s' :
  cpu_wf (MkCpu fl m r) →
  (∀ v r', is_i32 v → store v = Some r' → RegisterFile.wf r') →
  exec_pop fl m r store = Some (i, s') → effect_ok (MkCpu fl m r) i s'.
Proof.
  intros Hw Hst. unfold exec_pop. destruct (mem_read _ _) as [cell|e] eqn:Hr;
    [|intros [= <- <-]; by apply effect_none].
  destruct (store _) as [r'|] eqn:Hs; [|done]. destruct (ALU.checked _) as [sp|] eqn:Hsp; [|done].
  apply checked_Some in Hsp as [-> Hsp]. intros [= <- <-]. apply effect_regs; [done|].
  apply RegisterFile.setSp_wf; [|done]. eapply Hst; [|done].
  apply (cw_memory _ Hw) in Hr as (_ & ? & _); [done|]. apply u32_range.
Qed.

Lemma execute_ok fl m r b i s' :
  cpu_wf (MkCpu fl m r) → block_wf b →
  execute fl m r b = Some (i, s') → effect_ok (MkCpu fl m r) i s'.
Proof.
  intros Hw Hb. pose proof Hw as [Hr Hm Hf]. simpl in Hr, Hm, Hf.
  assert (∀ v, resolveOperand b r = Some v → is_i32 v) as Hres by by (intros; eapply resolveOperand_wf).
  assert (∀ v, RegisterFile.get r (reg b) = Some v → is_i32 v) as Hget
    by by (intros; eapply RegisterFile.get_Some).
  assert (∀ v r', is_i32 v → RegisterFile.set r (reg b) v = Some r' → RegisterFile.wf r') as Hset
    by by (intros; eapply RegisterFile.set_wf).
  pose proof Hb as (_ & Hop & _).
  unfold execute, finish. destruct (code b); try (intros [= <- <-]; by apply effect_none).
  all: try (intros [= <- <-]; apply effect_regs; [done|];
    match goal with |- context [if ?x then _ else _] => destruct x end; auto with width; fail).
  2-10: destruct (resolveOperand b r) as [v|]; [|done];
    destruct (executeAluOp _ _ _ _) as [[i' r']|] eqn:E; [|done]; intros [= <- <-];
    destruct (executeAluOp_wf _ _ _ _ _ _ Hr (Hres _ eq_refl) E) as (Hr' & Hi & Hne);
    split_and!; [by split|done|by left|intros ?; by rewrite Hne].
  - destruct (resolveOperand b r) as [v|]; [|done].
    destruct (RegisterFile.set _ _ _) as [r'|] eqn:E; [|done]. intros [= <- <-].
    apply effect_regs; [done|]. eapply Hset; [|done]. by apply Hres.
  - destruct (RegisterFile.get r (reg b)); [|done]. destruct (resolveOperand b r); [|done].
    intros [= <- <-]. split_and!; [split; [done|done|apply compare_flags]|done|by left|done].
  - destruct (RegisterFile.get r (reg b)) as [v|]; [|done].
    apply exec_push_ok; [done|by apply Hget|by intros].
  - by apply exec_pop_ok.
  - apply exec_push_ok; auto with width.
  - apply exec_pop_ok; [done|]. intros v r' Hv [= <-]. auto with width.
  - destruct (resolveOperand b r) as [v|]; [|done].
    destruct (mem_read m _) as [cell|] eqn:Hrd; [|intros [= <- <-]; by apply effect_none].
    destruct (RegisterFile.set _ _ _) as [r'|] eqn:E; [|done]. intros [= <- <-].
    apply effect_regs; [done|]. eapply Hset; [|done].
    apply Hm in Hrd as (_ & ? & _); [done|]. apply u32_range.
  - destruct (RegisterFile.get r (reg b)) as [v|]; [|done]. set (a := u32 _).
    assert (0 ≤ a) as Ha0 by apply u32_range.
    destruct (mem_write_cases m a (data_cell v) Ha0) as [[e E]|E]; rewrite E;
      intros [= <- <-]; [by apply effect_none|].
    split_and!; [|done|right; by exists a, v|done]. split; simpl; [done| |done].
    apply memory_wf_write; [done|done|by apply Hget].
Qed.

Lemma step_effect s i s' :
  cpu_wf s → step s = Some (i, s') →
  (i = Interrupt.Error ∧ s' = s ∧ isOk (mem_read (memory s) (u32 (RegisterFile.pc (regs s)))) = false) ∨
  effect_ok (MkCpu (flags s) (memory s)
    (RegisterFile.setPc (regs s) (RegisterFile.pc (regs s) + 1))) i s'.
Proof.
  intros Hw. unfold step. destruct (mem_read _ _) as [b|e] eqn:Hr; [|by intros [= <- <-]; left].
  destruct (ALU.checked _) as [pc|] eqn:Hpc; [|done]. apply checked_Some in Hpc as [-> Hpc].
  intros Hs. right. destruct Hw as [Hrw Hm Hf]. eapply execute_ok; [|eapply Hm, Hr|exact Hs].
  - split; simpl; auto with width.
  - apply u32_range.
Qed.

(** C17: A CPU cycle keeps the machine well typed (sixteen 32-bit registers,
    flags of one bit, well-formed cells), writes at most one memory cell, and
    is atomic: a cycle that raises anything but [Ok] changes nothing except
    the advanced program counter. *)
Theorem step_preserves s i s' :
  cpu_wf s → step s = Some (i, s') →
  cpu_wf s' ∧ is_i32 i ∧
  (memory s' = memory s ∨
     ∃ a v, 0 ≤ a ∧ memory s' = (mem_write (memory s) a (data_cell v)).2) ∧
  (i ≠ Interrupt.Ok →
     memory s' = memory s ∧ flags s' = flags s ∧
     (regs s' = regs s ∨ regs s' = RegisterFile.setPc (regs s) (RegisterFile.pc (regs s) + 1))).
Proof.
  intros Hw Hs. destruct (step_effect _ _ _ Hw Hs) as [(-> & -> & _)|(H1 & H2 & H3 & H4)].
  - split_and!; [done|done|by left|]. intros _. split_and!; try done. by left.
  - split_and!; try done. intros Hi. destruct (H4 Hi) as (?&?&?). split_and!; auto.
Qed.

(** ** Comparison and conditional jumps *)

(** The signed relation a conditional jump tests. *)
Definition jump_relation (c : Instruction) (x y : Z) : bool :=
  match c with
  | JumpEqual => x =? y
  | JumpNotEqual => negb (x =? y)
  | JumpGreater => y <? x
  | JumpLess => x <? y
  | JumpGreaterEqual => y <=? x
  | JumpLessEqual => x <=? y
  | _ => false
  end.

Lemma shouldJump_compare c x y :
  shouldJump (ALU.compare x y) c = jump_relation c x y.
Proof.
  unfold shouldJump, ALU.compare.
  destruct c; simpl; destruct (Z.eqb_spec x y), (Z.ltb_spec x y); try lia; simpl; try done;
    symmetry; (apply Z.ltb_lt || apply Z.ltb_ge || apply Z.leb_le || apply Z.leb_gt); lia.
Qed.

(** A [Compare] followed by a conditional jump branches to the target exactly
    when the signed relation the jump names holds between the compared values,
    and falls through otherwise. *)
Theorem compare_jump s r x y c target cmp jmp s1 :
  cpu_wf s → code cmp = Compare → isJump c = true →
  code jmp = c → operand jmp = target → reg cmp = r →
  let pc := RegisterFile.pc (regs s) in
  0 ≤ pc → pc + 2 ≤ INT_MAX →
  mem_read (memory s) pc = ok cmp → mem_read (memory s) (pc + 1) = ok jmp →
  RegisterFile.get (RegisterFile.setPc (regs s) (pc + 1)) r = Some x →
  resolveOperand cmp (RegisterFile.setPc (regs s) (pc + 1)) = Some y →
  step s = Some (Interrupt.Ok, s1) →
  ∃ s2, step s1 = Some (Interrupt.Ok, s2) ∧
    RegisterFile.pc (regs s2) = (if jump_relation c x y then target else pc + 2) ∧
    memory s2 = memory s.
Proof.
  intros Hw Hcmp Hc Hj Ht Hr pc Hpc0 Hpc Hm1 Hm2 Hx Hy. pose proof Hw as [Hrw _ _].
  assert (∀ z, 0 ≤ z ≤ INT_MAX → u32 z = z) as Hu by (unfold INT_MAX; intros; apply u32_small; lia).
  assert (is_i32 (pc + 1) ∧ is_i32 (pc + 2)) as [Hi1 Hi2] by (unfold is_i32, INT_MIN, INT_MAX in *; lia).
  unfold step at 1. fold pc. rewrite Hu, Hm1 by lia.
  unfold ALU.checked. rewrite decide_True by done. unfold execute. rewrite Hcmp, Hr, Hx, Hy.
  unfold finish. intros [= <-]. unfold step. simpl.
  rewrite RegisterFile.pc_setPc, Hu, Hm2 by (done || lia).
  unfold ALU.checked. replace (pc + 1 + 1) with (pc + 2) by lia. rewrite decide_True by done.
  assert (RegisterFile.wf (RegisterFile.setPc (regs s) (pc + 1))) as Hw1 by auto with width.
  assert (RegisterFile.wf (RegisterFile.setPc (RegisterFile.setPc (regs s) (pc + 1)) (pc + 2)))
    as Hw2 by auto with width.
  eexists (MkCpu _ _ _). unfold execute. rewrite Hj.
  assert (jump_relation c x y = shouldJump (ALU.compare x y) c) as -> by by rewrite shouldJump_compare.
  destruct c; try done; (split; [done|]; split; [|done]); cbn [regs]; rewrite Ht;
    destruct (shouldJump _ _); by rewrite !RegisterFile.pc_setPc.
Qed.

(** ** The stack *)
Lemma step_fetch s b :
  0 ≤ RegisterFile.pc (regs s) → RegisterFile.pc (regs s) + 1 ≤ INT_MAX →
  mem_read (memory s) (RegisterFile.pc (regs s)) = ok b →
  step s = execute (flags s) (memory s)
             (RegisterFile.setPc (regs s) (RegisterFile.pc (regs s) + 1)) b.
Proof.
  intros H0 H1 Hm. unfold step. rewrite u32_small by (unfold INT_MAX in *; lia). rewrite Hm.
  unfold ALU.checked. rewrite decide_True; [done|]. unfold is_i32, INT_MIN, INT_MAX in *. lia.
Qed.

Lemma get_setPc r i v : 0 ≤ i < 14 → RegisterFile.get (RegisterFile.setPc r v) i = RegisterFile.get r i.
Proof.
  intros Hi. unfold RegisterFile.get, RegisterFile.setPc, RegisterFile.ProgramCounter.
  apply list_lookup_insert_ne. lia.
Qed.
Lemma get_setSp r i v : 0 ≤ i < 14 → RegisterFile.get (RegisterFile.setSp r v) i = RegisterFile.get r i.
Proof.
  intros Hi. unfold RegisterFile.get, RegisterFile.setSp, RegisterFile.StackPointer.
  apply list_lookup_insert_ne. lia.
Qed.

(** The pushed value is on top of the stack and the stack pointer is one below. *)
Lemma exec_push_top fl m r v after :
  1 ≤ RegisterFile.sp r ≤ INT_MAX → RegisterFile.sp r ≤ Z.of_nat (mem_cells m) →
  exec_push fl m r v after =
    Some (Interrupt.Ok, MkCpu fl (mem_write m (RegisterFile.sp r - 1) (data_cell v)).2
                          (after (RegisterFile.setSp r (RegisterFile.sp r - 1)))) ∧
  mem_read (mem_write m (RegisterFile.sp r - 1) (data_cell v)).2 (RegisterFile.sp r - 1) =
    ok (data_cell v).
Proof.
  intros Hsp Hm. set (a := RegisterFile.sp r - 1).
  assert (isOk (mem_write m a (data_cell v)).1 = true) as Hok.
  { rewrite mem_write_bound by lia. apply Z.ltb_lt. lia. }
  split; [|by apply mem_read_write]. unfold exec_push, ALU.checked. fold a.
  rewrite decide_True by (unfold is_i32, INT_MIN, INT_MAX in *; lia).
  rewrite u32_small by (unfold INT_MAX in *; lia).
  by destruct (mem_write m a (data_cell v)) as [[[]|] m'].
Qed.

Lemma exec_pop_top fl m r store v r' :
  0 ≤ RegisterFile.sp r < INT_MAX → mem_read m (RegisterFile.sp r) = ok (data_cell v) →
  store v = Some r' →
  exec_pop fl m r store =
    Some (Interrupt.Ok, MkCpu fl m (RegisterFile.setSp r' (RegisterFile.sp r + 1))).
Proof.
  intros Hsp Hm Hst. unfold exec_pop, ALU.checked. rewrite u32_small by (unfold INT_MAX in *; lia).
  rewrite Hm. simpl. rewrite Hst.
  by rewrite decide_True by (unfold is_i32, INT_MIN, INT_MAX in *; lia).
Qed.

(** Calling a subroutine and returning from it resumes right after the call
    with the stack pointer, the registers and the flags unchanged; only the
    stack cell below the old top is overwritten, with the return address. *)
Theorem call_return s call ret :
  cpu_wf s → let pc := RegisterFile.pc (regs s) in let sp := RegisterFile.sp (regs s) in
  0 ≤ pc → pc + 1 ≤ INT_MAX → 1 ≤ sp ≤ INT_MAX → sp ≤ Z.of_nat (mem_cells (memory s)) →
  mem_read (memory s) pc = ok call → code call = Call →
  let target := operand call in
  0 ≤ target → target + 1 ≤ INT_MAX → target ≠ sp - 1 →
  mem_read (memory s) target = ok ret → code ret = Return →
  ∃ s1, step s = Some (Interrupt.Ok, s1) ∧ RegisterFile.pc (regs s1) = target ∧
    step s1 = Some (Interrupt.Ok,
      MkCpu (flags s) (mem_write (memory s) (sp - 1) (data_cell (pc + 1))).2
        (RegisterFile.setPc (regs s) (pc + 1))).
Proof.
  intros Hw pc sp Hpc0 Hpc Hsp Hspm Hcall Hc target Ht0 Ht Hne Hret Hr.
  pose proof Hw as [Hrw Hm Hf].
  rewrite (step_fetch s call) by done. fold pc. set (r1 := RegisterFile.setPc (regs s) (pc + 1)).
  assert (RegisterFile.wf r1) as Hw1
    by (apply RegisterFile.setPc_wf; [done|unfold is_i32, INT_MIN, INT_MAX in *; lia]).
  assert (RegisterFile.sp r1 = sp) as Hsp1 by apply RegisterFile.sp_setPc.
  assert (RegisterFile.pc r1 = pc + 1) as Hpc1 by by apply RegisterFile.pc_setPc.
  unfold execute. rewrite Hc. fold target.
  destruct (exec_push_top (flags s) (memory s) r1 (RegisterFile.pc r1)
    (λ r', RegisterFile.setPc r' target)) as [-> Htop]; rewrite ?Hsp1 in *; [lia..|].
  rewrite Hpc1 in *. set (m1 := (mem_write _ _ _).2) in *.
  assert (RegisterFile.wf (RegisterFile.setSp r1 (sp - 1))) as Hw2
    by (apply RegisterFile.setSp_wf; [done|unfold is_i32, INT_MIN, INT_MAX in *; lia]).
  eexists; split; [done|]. simpl. split; [by apply RegisterFile.pc_setPc|].
  set (r2 := RegisterFile.setPc _ target).
  assert (RegisterFile.pc r2 = target) as Hpc2 by by apply RegisterFile.pc_setPc.
  rewrite (step_fetch (MkCpu (flags s) m1 r2) ret); simpl; rewrite ?Hpc2; [|done..|].
  2: { unfold m1. by rewrite mem_read_write_ne by lia. }
  unfold execute. rewrite Hr.
  assert (RegisterFile.sp (RegisterFile.setPc r2 (target + 1)) = sp - 1) as Hsp2.
  { unfold r2. rewrite !RegisterFile.sp_setPc. by apply RegisterFile.sp_setSp. }
  erewrite (exec_pop_top _ _ _ _ (pc + 1)); [|rewrite Hsp2; lia|by rewrite Hsp2|done].
  rewrite Hsp2. do 3 f_equal. unfold r2, r1. apply list_eq. intros i.
  unfold RegisterFile.setSp, RegisterFile.setPc.
  pose proof (RegisterFile.sp_get _ Hrw) as Hg. destruct Hrw as [Hl _]. unfold REGISTER_COUNT in Hl.
  destruct (decide (i = RegisterFile.StackPointer)) as [->|Hi1].
  { rewrite list_lookup_insert_eq by (rewrite !length_insert, Hl; unfold RegisterFile.StackPointer; lia).
    rewrite list_lookup_insert_ne by done. rewrite Hg. fold sp. f_equal. lia. }
  rewrite list_lookup_insert_ne by done.
  destruct (decide (i = RegisterFile.ProgramCounter)) as [->|Hi2].
  { by rewrite !list_lookup_insert_eq
      by (rewrite ?length_insert, Hl; unfold RegisterFile.ProgramCounter; lia). }
  by rewrite !list_lookup_insert_ne by done.
Qed.

(** Pushing a register and popping into a register moves the value: the
    target holds the pushed value, the stack pointer is back where it was, and
    no other general register changes. *)
Theorem push_pop s push pop v :
  cpu_wf s → let pc := RegisterFile.pc (regs s) in let sp := RegisterFile.sp (regs s) in
  0 ≤ pc → pc + 2 ≤ INT_MAX → 1 ≤ sp ≤ INT_MAX → sp ≤ Z.of_nat (mem_cells (memory s)) →
  mem_read (memory s) pc = ok push → code push = Push → 0 ≤ reg push < 14 →
  mem_read (memory s) (pc + 1) = ok pop → code pop = Pop → 0 ≤ reg pop < 14 →
  pc + 1 ≠ sp - 1 → RegisterFile.get (regs s) (reg push) = Some v →
  ∃ s1 s2, step s = Some (Interrupt.Ok, s1) ∧ step s1 = Some (Interrupt.Ok, s2) ∧
    RegisterFile.get (regs s2) (reg pop) = Some v ∧
    RegisterFile.sp (regs s2) = sp ∧ RegisterFile.pc (regs s2) = pc + 2 ∧
    ∀ i, 0 ≤ i < 14 → i ≠ reg pop → RegisterFile.get (regs s2) i = RegisterFile.get (regs s) i.
Proof.
  intros Hw pc sp Hpc0 Hpc Hsp Hspm Hpush Hc1 Hr1 Hpop Hc2 Hr2 Hne Hv.
  pose proof Hw as [Hrw Hm Hf].
  rewrite (step_fetch s push) by (done || (fold pc; lia)). fold pc.
  set (r1 := RegisterFile.setPc (regs s) (pc + 1)).
  assert (RegisterFile.wf r1) as Hw1
    by (apply RegisterFile.setPc_wf; [done|unfold is_i32, INT_MIN, INT_MAX in *; lia]).
  assert (RegisterFile.sp r1 = sp) as Hsp1 by apply RegisterFile.sp_setPc.
  unfold execute. rewrite Hc1. unfold r1 at 1. rewrite get_setPc, Hv by done.
  destruct (exec_push_top (flags s) (memory s) r1 v (λ r', r')) as [-> Htop];
    rewrite ?Hsp1 in *; [lia..|]. set (m1 := (mem_write _ _ _).2) in *.
  set (r2 := RegisterFile.setSp r1 (sp - 1)).
  assert (RegisterFile.wf r2) as Hw2
    by (apply RegisterFile.setSp_wf; [done|unfold is_i32, INT_MIN, INT_MAX in *; lia]).
  assert (RegisterFile.pc r2 = pc + 1) as Hpc2.
  { unfold r2. rewrite RegisterFile.pc_setSp. by apply RegisterFile.pc_setPc. }
  eexists _, _. split; [done|].
  rewrite (step_fetch (MkCpu (flags s) m1 r2) pop); simpl; rewrite ?Hpc2; [|lia..|].
  2: { unfold m1. by rewrite mem_read_write_ne by lia. }
  unfold execute. rewrite Hc2. set (r3 := RegisterFile.setPc r2 (pc + 1 + 1)).
  assert (RegisterFile.sp r3 = sp - 1) as Hsp3.
  { unfold r3. rewrite RegisterFile.sp_setPc. by apply RegisterFile.sp_setSp. }
  assert (RegisterFile.wf r3) as Hw3
    by (apply RegisterFile.setPc_wf; [done|unfold is_i32, INT_MIN, INT_MAX in *; lia]).
  assert (length r3 = 16%nat) as Hl3 by apply Hw3.
  erewrite (exec_pop_top (flags s) m1 r3 _ v); [|rewrite Hsp3; lia|by rewrite Hsp3|].
  2: { unfold RegisterFile.set. rewrite decide_True by (rewrite Hl3; lia). done. }
  rewrite Hsp3. split; [done|]. simpl. fold r3. split_and!.
  - rewrite get_setSp by done. unfold RegisterFile.get.
    rewrite list_lookup_insert_eq by (rewrite Hl3; lia). done.
  - rewrite RegisterFile.sp_setSp; [lia|]. apply RegisterFile.insert_wf; [done|].
    exact (RegisterFile.get_Some _ _ _ Hrw Hv).
  - rewrite RegisterFile.pc_setSp. unfold RegisterFile.pc. rewrite nth_lookup.
    rewrite list_lookup_insert_ne by (unfold RegisterFile.ProgramCounter; lia).
    rewrite RegisterFile.pc_get by done. simpl. unfold r3. rewrite RegisterFile.pc_setPc by done. lia.
  - intros i Hi Hir. rewrite get_setSp by done. unfold RegisterFile.get at 1.
    rewrite list_lookup_insert_ne by lia. fold (RegisterFile.get r3 i).
    unfold r3, r2, r1. by rewrite get_setPc, get_setSp, get_setPc.
Qed.
End cycle.

(** ** Concrete programs *)
Definition load_program (size : nat) (prog : list Block) : PhysicalMemory.t :=
  (PhysicalMemory.writeRange (PhysicalMemory.make size) 0 prog).2.
Definition boot (size : nat) (prog : list Block) (sp : Z) : cpu_state PhysicalMemory.t :=
  MkCpu 0 (load_program size prog) (RegisterFile.setSp RegisterFile.init sp).

Lemma boot_wf size prog sp :
  forallb (λ b, bool_decide ((0 ≤ reg b < 256) ∧ is_i32 (operand b) ∧ is_i32 (state b))) prog = true →
  is_i32 sp → cpu_wf (boot size prog sp).
Proof.
  intros Hf Hsp. split; simpl.
  - apply RegisterFile.setSp_wf; [apply RegisterFile.init_wf|done].
  - intros a b _. unfold load_program, PhysicalMemory.writeRange, PhysicalMemory.read.
    assert (∀ b (l : list Block), b ∈ l → forallb (λ b, bool_decide ((0 ≤ reg b < 256) ∧
      is_i32 (operand b) ∧ is_i32 (state b))) l = true → block_wf b) as Hin.
    { intros b' l Hb Hl. rewrite forallb_forall in Hl. apply list_elem_of_In in Hb.
      by apply Hl, bool_decide_eq_true in Hb. }
    assert (∀ b', b' ∈ replicate size Block_default → block_wf b') as Hrep.
    { intros b' [-> _]%elem_of_replicate. apply Block_default_wf. }
    destruct (_ <? _)%nat; simpl; unfold PhysicalMemory.read; simpl;
      match goal with |- context [?l !! Z.to_nat a] => destruct (l !! Z.to_nat a) eqn:E end;
      try done; intros [= <-]; apply list_elem_of_lookup_2 in E; [by apply Hrep|].
    unfold splice in E. apply elem_of_app in E as [E|[E|E]%elem_of_app].
    + apply Hrep. by eapply elem_of_list_take_in.
    + by eapply Hin.
    + apply Hrep. by eapply elem_of_list_drop_in.
  - set_solver.
Qed.

Lemma step_preserves_witness :
  let s := boot 8 [MkBlock Push 0 0 0] 8 in
  ∃ i s', step s = Some (i, s') ∧
  cpu_wf s' ∧ is_i32 i ∧
  (memory s' = memory s ∨
     ∃ a v, 0 ≤ a ∧ memory s' = (mem_write (memory s) a (data_cell v)).2) ∧
  (i ≠ Interrupt.Ok →
     memory s' = memory s ∧ flags s' = flags s ∧
     (regs s' = regs s ∨ regs s' = RegisterFile.setPc (regs s) (RegisterFile.pc (regs s) + 1))).
Proof.
  eexists _, _. split; [vm_compute; reflexivity|].
  apply (step_preserves (boot 8 [MkBlock Push 0 0 0] 8)).
  - apply boot_wf; [reflexivity|unfold is_i32, INT_MIN, INT_MAX; lia].
  - vm_compute. reflexivity.
Defined.

Lemma compare_jump_witness :
  let prog := [MkBlock Compare 0 5 0; MkBlock JumpLess 0 7 0] in
  let s := boot 8 prog 8 in
  ∃ s1 s2, step s = Some (Interrupt.Ok, s1) ∧ step s1 = Some (Interrupt.Ok, s2) ∧
    RegisterFile.pc (regs s2) = (if jump_relation JumpLess 0 5 then 7 else 0 + 2) ∧
    memory s2 = memory s.
Proof.
  eexists. set (s := boot 8 [MkBlock Compare 0 5 0; MkBlock JumpLess 0 7 0] 8).
  match goal with |- ∃ _, step _ = Some (_, ?s1) ∧ _ =>
    assert (step s = Some (Interrupt.Ok, s1)) as Hs by (vm_compute; reflexivity) end.
  destruct (compare_jump s 0 0 5 JumpLess 7 (MkBlock Compare 0 5 0) (MkBlock JumpLess 0 7 0) _
    ltac:(apply boot_wf; [reflexivity|unfold is_i32, INT_MIN, INT_MAX; lia])
    eq_refl eq_refl eq_refl eq_refl eq_refl ltac:(vm_compute; done) ltac:(vm_compute; done)
    eq_refl eq_refl eq_refl eq_refl Hs) as (s2 & ?).
  exists s2. by split.
Defined.

Lemma call_return_witness :
  let prog := [MkBlock Call 0 3 0; MkBlock Halt 0 0 0; MkBlock Nop 0 0 0; MkBlock Return 0 0 0] in
  let s := boot 8 prog 8 in
  ∃ s1, step s = Some (Interrupt.Ok, s1) ∧ RegisterFile.pc (regs s1) = 3 ∧
    step s1 = Some (Interrupt.Ok,
      MkCpu (flags s) (mem_write (memory s) (8 - 1) (data_cell (0 + 1))).2
        (RegisterFile.setPc (regs s) (0 + 1))).
Proof.
  apply (call_return (boot 8 [MkBlock Call 0 3 0; MkBlock Halt 0 0 0; MkBlock Nop 0 0 0;
    MkBlock Return 0 0 0] 8) (MkBlock Call 0 3 0) (MkBlock Return 0 0 0));
    try (vm_compute; done).
  apply boot_wf; [reflexivity|unfold is_i32, INT_MIN, INT_MAX; lia].
Defined.

Lemma push_pop_witness :
  let prog := [MkBlock Push 1 0 0; MkBlock Pop 2 0 0] in
  let s := boot 8 prog 8 in
  ∃ s1 s2, step s = Some (Interrupt.Ok, s1) ∧ step s1 = Some (Interrupt.Ok, s2) ∧
    RegisterFile.get (regs s2) 2 = Some 0 ∧
    RegisterFile.sp (regs s2) = 8 ∧ RegisterFile.pc (regs s2) = 0 + 2 ∧
    ∀ i, 0 ≤ i < 14 → i ≠ 2 → RegisterFile.get (regs s2) i = RegisterFile.get (regs s) i.
Proof.
  apply (push_pop (boot 8 [MkBlock Push 1 0 0; MkBlock Pop 2 0 0] 8)
    (MkBlock Push 1 0 0) (MkBlock Pop 2 0 0) 0); try (vm_compute; done).
  apply boot_wf; [reflexivity|unfold is_i32, INT_MIN, INT_MAX; lia].
Defined.
