(* ===== verification/Paging.v ===== *)
(** * Paging: [memory/page_table.cpp] and the replacement policies

    Page tables, the policy interface the MMU consults, and the four policies
    of [memory/*_replacement.cpp]. *)
From S2P Require Import Prelude Core.

(** ** [memory/page_table.cpp] *)
Record PageTableEntry := MkPte { frameId : Z; present : bool; dirty : bool; referenced : bool }.
#[global] Instance PageTableEntry_eq_dec : EqDecision PageTableEntry.
Proof. solve_decision. Defined.
Definition pte_default : PageTableEntry := MkPte INVALID_FRAME false false false.

Module PageTable.

Definition make (pageCount : nat) : list PageTableEntry := replicate pageCount pte_default.

Definition map (entries : list PageTableEntry) (virtualPage : nat) (frame : Z)
    : Result unit * list PageTableEntry :=
  match entries !! virtualPage with
  | None => (error ErrorCode.InvalidAddress, entries)
  | Some _ => (ok tt, <[virtualPage := MkPte frame true false true]> entries)
  end.
Definition unmap (entries : list PageTableEntry) (virtualPage : nat)
    : Result unit * list PageTableEntry :=
  match entries !! virtualPage with
  | None => (error ErrorCode.InvalidAddress, entries)
  | Some _ => (ok tt, <[virtualPage := pte_default]> entries)
  end.
Definition translate (entries : list PageTableEntry) (virtualPage : nat) : Result Z :=
  match entries !! virtualPage with
  | None => error ErrorCode.InvalidAddress
  | Some e => if present e then ok (frameId e) else error ErrorCode.SegmentationFault
  end.
Definition getEntry (entries : list PageTableEntry) (virtualPage : nat) : Result PageTableEntry :=
  match entries !! virtualPage with
  | None => error ErrorCode.InvalidAddress
  | Some e => ok e
  end.
Definition setReferenced (entries : list PageTableEntry) (virtualPage : nat) (value : bool)
    : Result unit * list PageTableEntry :=
  match entries !! virtualPage with
  | None => (error ErrorCode.InvalidAddress, entries)
  | Some e => (ok tt, <[virtualPage := MkPte (frameId e) (present e) (dirty e) value]> entries)
  end.
Definition setDirty (entries : list PageTableEntry) (virtualPage : nat) (value : bool)
    : Result unit * list PageTableEntry :=
  match entries !! virtualPage with
  | None => (error ErrorCode.InvalidAddress, entries)
  | Some e => (ok tt, <[virtualPage := MkPte (frameId e) (present e) value (referenced e)]> entries)
  end.
Definition clearReferenced (entries : list PageTableEntry) (virtualPage : nat) :=
  setReferenced entries virtualPage false.
Definition pageCount (entries : list PageTableEntry) : nat := length entries.
Definition presentCount (entries : list PageTableEntry) : nat :=
  length (filter (λ e, present e = true) entries).
Definition clear (entries : list PageTableEntry) : list PageTableEntry :=
  replicate (length entries) pte_default.

End PageTable.

(** ** The policy interface: [memory/i_page_replacement.h] *)
Class IPageReplacementPolicy (P : Type) := {
  selectVictim : P → list PageTableEntry → option (Z * P);
  onAccess : P → Z → P;
  onLoad : P → Z → P;
  policy_reset : P → P
}.

(** What the MMU relies on.  [tracked] is the set of frames the policy may
    return; [INVALID_FRAME] is the answer for an empty set only. *)
Class LawfulPolicy (P : Type) `{!IPageReplacementPolicy P} := {
  policy_ok : P → Prop;
  tracked : P → gset Z;
  select_lawful p t : policy_ok p → INVALID_FRAME ∉ tracked p → ∃ v p', selectVictim p t = Some (v, p') ∧
    policy_ok p' ∧
    (v = INVALID_FRAME ∧ tracked p = ∅ ∧ tracked p' = ∅ ∨
     v ∈ tracked p ∧ tracked p ∖ {[v]} ⊆ tracked p' ∧ tracked p' ⊆ tracked p);
  access_lawful p f : policy_ok p → policy_ok (onAccess p f) ∧
    tracked p ⊆ tracked (onAccess p f) ∧ tracked (onAccess p f) ⊆ tracked p ∪ {[f]};
  load_lawful p f : policy_ok p → policy_ok (onLoad p f) ∧ tracked (onLoad p f) = tracked p ∪ {[f]}
}.

(** ** [memory/fifo_replacement.cpp] *)
Module FifoReplacement.
Record t := mk { loadOrder : list Z }.
Definition init : t := mk [].
Definition selectVictim (p : t) (pageTable : list PageTableEntry) : option (Z * t) :=
  match loadOrder p with
  | [] => Some (INVALID_FRAME, p)
  | victim :: rest => Some (victim, mk rest)
  end.
Definition onAccess (p : t) (frame : Z) : t := p.
Definition onLoad (p : t) (frame : Z) : t := mk (loadOrder p ++ [frame]).
Definition reset (p : t) : t := mk [].
End FifoReplacement.

#[global] Instance fifo_policy : IPageReplacementPolicy FifoReplacement.t := {|
  selectVictim := FifoReplacement.selectVictim;
  onAccess := FifoReplacement.onAccess;
  onLoad := FifoReplacement.onLoad;
  policy_reset := FifoReplacement.reset
|}.

#[global, program] Instance fifo_lawful : LawfulPolicy FifoReplacement.t := {|
  policy_ok _ := True;
  tracked p := list_to_set (FifoReplacement.loadOrder p)
|}.
Next Obligation.
  intros [[|v l]] t _ Hn; simpl; unfold FifoReplacement.selectVictim; simpl.
  - eexists _, _. split; [done|]. split; [done|]. by left.
  - eexists _, _. split; [done|]. split; [done|]. right. simpl. set_solver.
Qed.
Next Obligation. intros p f _. simpl. unfold FifoReplacement.onAccess. set_solver. Qed.
Next Obligation.
  intros p f _. simpl. unfold FifoReplacement.onLoad. simpl. split; [done|].
  rewrite list_to_set_app_L. set_solver.
Qed.

(** ** [memory/lru_replacement.cpp] *)
Module LruReplacement.
Record t := mk { accessTime : gmap Z Z; clock : Z }.
Definition init : t := mk ∅ 0.
Definition older (a b : Z * Z) : bool := (a.2 <? b.2)%Z.
Definition touch (p : t) (frame : Z) : t :=
  let clock' := u64 (clock p + 1) in mk (<[frame := clock']> (accessTime p)) clock'.
Definition selectVictim `{HO : HashOrder} (p : t) (pageTable : list PageTableEntry)
    : option (Z * t) :=
  match min_element older (map_order (accessTime p)) with
  | None => Some (INVALID_FRAME, p)
  | Some (victim, _) => Some (victim, mk (delete victim (accessTime p)) (clock p))
  end.
Definition onAccess (p : t) (frame : Z) : t := touch p frame.
Definition onLoad (p : t) (frame : Z) : t := touch p frame.
Definition reset (p : t) : t := mk ∅ 0.

(** Every recorded time is one the clock has had, and no two frames share one. *)
Definition inv (p : t) : Prop :=
  (0 ≤ clock p < 2 ^ 64)%Z ∧
  (∀ f t, accessTime p !! f = Some t → (t ≤ clock p)%Z) ∧
  (∀ f g t, accessTime p !! f = Some t → accessTime p !! g = Some t → f = g).

Lemma inv_touch p f : inv p → (clock p + 1 < 2 ^ 64)%Z → inv (touch p f).
Proof.
  intros (Hc & Ht & Hi) Hlt. unfold touch, inv. rewrite u64_small by lia. simpl. split_and!; [lia..| |].
  - intros g t [[<- <-]|[? Hg]]%lookup_insert_Some; [lia|]. apply Ht in Hg. lia.
  - intros g h t [[<- <-]|[? Hg]]%lookup_insert_Some [[<- E]|[? Hh]]%lookup_insert_Some; try done.
    + apply Ht in Hh. lia.
    + apply Ht in Hg. lia.
    + by eapply Hi.
Qed.

Lemma select_spec `{HO : HashOrder} p t :
  match selectVictim p t with
  | None => False
  | Some (v, p') =>
      (accessTime p = ∅ ∧ v = INVALID_FRAME ∧ p' = p) ∨
      (∃ time, accessTime p !! v = Some time ∧
        (∀ f u, accessTime p !! f = Some u → (time ≤ u)%Z) ∧
        p' = mk (delete v (accessTime p)) (clock p))
  end.
Proof.
  unfold selectVictim. destruct (min_element _ _) as [[v time]|] eqn:Hm.
  - right. exists time. pose proof (min_element_in _ _ _ Hm) as Hin.
    apply elem_of_map_order in Hin. split_and!; [done| |done]. intros f u Hf.
    apply elem_of_map_order in Hf. pose proof (min_element_least older _ _ _ Hm Hf) as Hl.
    unfold older in Hl. simpl in Hl. apply Z.ltb_ge in Hl. done.
  - left. apply min_element_None in Hm. split; [|done].
    apply map_empty. intros f. destruct (accessTime p !! f) as [u|] eqn:E; [|done].
    apply elem_of_map_order in E. rewrite Hm in E. set_solver.
Qed.
End LruReplacement.

#[global] Instance lru_swo : StrictWeakOrder LruReplacement.older.
Proof. apply (key_swo snd). Qed.

#[global] Instance lru_policy `{HO : HashOrder} : IPageReplacementPolicy LruReplacement.t := {|
  selectVictim := LruReplacement.selectVictim;
  onAccess := LruReplacement.onAccess;
  onLoad := LruReplacement.onLoad;
  policy_reset := LruReplacement.reset
|}.

#[global, program] Instance lru_lawful `{HO : HashOrder} : LawfulPolicy LruReplacement.t := {|
  policy_ok _ := True;
  tracked p := dom (LruReplacement.accessTime p)
|}.
Next Obligation.
  intros HO p t _ Hn. simpl. pose proof (LruReplacement.select_spec p t) as Hs.
  destruct (LruReplacement.selectVictim p t) as [[v p']|]; [|done].
  exists v, p'. split; [done|]. split; [done|].
  destruct Hs as [(He & -> & ->)|(time & Hv & _ & ->)]; simpl.
  - left. rewrite He. split_and!; [done|set_solver..].
  - right. rewrite dom_delete_L. apply elem_of_dom_2 in Hv. set_solver.
Qed.
Next Obligation.
  intros HO p f _. simpl. unfold LruReplacement.onAccess, LruReplacement.touch. simpl.
  rewrite dom_insert_L. set_solver.
Qed.
Next Obligation.
  intros HO p f _. simpl. unfold LruReplacement.onLoad, LruReplacement.touch. simpl.
  rewrite dom_insert_L. set_solver.
Qed.

(** ** [memory/clock_replacement.cpp] *)
Module ClockReplacement.
Record t := mk { frames : list Z; refBits : gset Z; hand : nat }.
Definition init : t := mk [] ∅ 0.

(** The [while (true)] scan; each turn evicts or clears one reference bit. *)
Fixpoint scan (fuel : nat) (p : t) : option (Z * t) :=
  match fuel with
  | 0 => None
  | S fuel' =>
      let! current := frames p !! hand p in
      if decide (current ∈ refBits p) then
        scan fuel' (mk (frames p) (refBits p ∖ {[current]}) ((hand p + 1) mod length (frames p)))
      else
        let frames' := take (hand p) (frames p) ++ drop (hand p + 1) (frames p) in
        Some (current, mk frames' (refBits p)
                         (if decide (frames' = []) then 0 else hand p mod length frames'))
  end.
Definition selectVictim (p : t) (pageTable : list PageTableEntry) : option (Z * t) :=
  match frames p with
  | [] => Some (INVALID_FRAME, p)
  | _ => scan (S (length (frames p))) p
  end.
Definition onAccess (p : t) (frame : Z) : t := mk (frames p) (refBits p ∪ {[frame]}) (hand p).
Definition onLoad (p : t) (frame : Z) : t :=
  mk (frames p ++ [frame]) (refBits p ∪ {[frame]}) (hand p).
Definition reset (p : t) : t := mk [] ∅ 0.

Definition inv (p : t) : Prop := frames p = [] ∧ hand p = 0 ∨ hand p < length (frames p).

(** The frame under the hand after [k] turns. *)
Definition at_turn (p : t) (k : nat) : option Z :=
  frames p !! ((hand p + k) mod length (frames p)).

Lemma at_turn_0 p : hand p < length (frames p) → at_turn p 0 = frames p !! hand p.
Proof. intros. unfold at_turn. by rewrite Nat.add_0_r, Nat.mod_small. Qed.
Lemma at_turn_S p rb k :
  at_turn (mk (frames p) rb ((hand p + 1) mod length (frames p))) k = at_turn p (S k).
Proof.
  unfold at_turn. simpl. f_equal. rewrite Nat.Div0.add_mod_idemp_l. f_equal. lia.
Qed.

(** What a run of the scan has done: [k] turns over referenced frames, then the
    eviction of a frame whose bit was clear, or cleared on an earlier turn. *)
Definition scanned (p : t) (k : nat) (v : Z) (p' : t) : Prop :=
  let pos := (hand p + k) mod length (frames p) in
  at_turn p k = Some v ∧
  (∀ j, j < k → ∃ f, at_turn p j = Some f ∧ f ∈ refBits p) ∧
  (v ∉ refBits p ∨ ∃ j, j < k ∧ at_turn p j = Some v) ∧
  frames p' = take pos (frames p) ++ drop (pos + 1) (frames p) ∧
  (∀ f, f ∈ refBits p' ↔ f ∈ refBits p ∧ ∀ j, j < k → at_turn p j ≠ Some f) ∧
  inv p'.

Lemma inv_evicted (fs : list Z) rb h :
  inv (mk fs rb (if decide (fs = []) then 0 else h mod length fs)).
Proof.
  unfold inv. simpl. case_decide; [by left|]. right. apply Nat.mod_upper_bound. by destruct fs.
Qed.

Lemma scan_sound fuel : ∀ p v p',
  hand p < length (frames p) → scan fuel p = Some (v, p') → ∃ k, k < fuel ∧ scanned p k v p'.
Proof.
  induction fuel as [|fuel IH]; intros p v p' Hh; simpl; [done|].
  destruct (frames p !! hand p) as [cur|] eqn:Hcur; [|done]. case_decide as Hin.
  - intros Hs. apply IH in Hs as (k & Hk & Hv & Hset & Hclear & Hfr & Hrb & Hinv);
      [|simpl; apply Nat.mod_upper_bound; lia].
    rewrite at_turn_S in Hv. simpl in *.
    exists (S k). split; [lia|].
    assert (at_turn p 0 = Some cur) as H0 by by rewrite at_turn_0.
    assert (((hand p + 1) mod length (frames p) + k) mod length (frames p) =
            (hand p + S k) mod length (frames p)) as Hpos
      by (rewrite Nat.Div0.add_mod_idemp_l; f_equal; lia).
    rewrite Hpos in Hfr. unfold scanned. split_and!; [done| | |done| |done].
    + intros [|j] Hj; [eauto|]. destruct (Hset j) as (f & Hf & ?); [lia|].
      rewrite at_turn_S in Hf. exists f. set_solver.
    + destruct Hclear as [Hclear|(j & ? & Hj)].
      * destruct (decide (v = cur)) as [->|]; [right; exists 0; split; [lia|done]|left; set_solver].
      * right. exists (S j). rewrite at_turn_S in Hj. split; [lia|done].
    + intros f. rewrite Hrb. split.
      * intros [Hf Hj]. split; [set_solver|]. intros [|j] ?; [rewrite H0; set_solver|].
        rewrite <-(at_turn_S p (refBits p ∖ {[cur]})). apply Hj. lia.
      * intros [Hf Hj]. split.
        -- apply elem_of_difference. split; [done|]. intros ->%elem_of_singleton.
           by apply (Hj 0); [lia|].
        -- intros j ?. rewrite at_turn_S. apply Hj. lia.
  - intros [= <- <-]. exists 0. split; [lia|]. unfold scanned. rewrite at_turn_0 by done.
    rewrite Nat.add_0_r, (Nat.mod_small (hand p) (length (frames p))) by done. simpl.
    split_and!; try done.
    + intros; lia.
    + by left.
    + intros f. split; [|tauto]. intros. split; [done|]. intros; lia.
    + apply inv_evicted.
Qed.

(** Each turn that does not evict clears one reference bit of a loaded frame. *)
Lemma scan_total fuel : ∀ p,
  hand p < length (frames p) → size (refBits p ∩ list_to_set (frames p)) < fuel →
  is_Some (scan fuel p).
Proof.
  induction fuel as [|fuel IH]; intros p Hh Hf; [lia|]. simpl.
  destruct (lookup_lt_is_Some_2 _ _ Hh) as [cur Hcur]. rewrite Hcur. case_decide as Hin; [|eauto].
  apply list_elem_of_lookup_2 in Hcur.
  apply IH; simpl; [apply Nat.mod_upper_bound; lia|].
  assert (size ((refBits p ∖ {[cur]}) ∩ list_to_set (frames p)) <
          size (refBits p ∩ list_to_set (frames p))); [|lia].
  apply subset_size. split; [set_solver|]. intros Hsub.
  assert (cur ∈ refBits p ∩ list_to_set (frames p)) as Hc by set_solver.
  apply Hsub in Hc. set_solver.
Qed.

Lemma size_list_to_set (l : list Z) (X : gset Z) : size (X ∩ list_to_set l) ≤ length l.
Proof.
  transitivity (size (list_to_set l : gset Z)); [apply subseteq_size; set_solver|].
  clear X. induction l as [|x l IH]; simpl.
  { change (size (∅ : gset Z) ≤ 0). by rewrite size_empty. }
  rewrite size_union_alt, size_singleton.
  assert (size ((list_to_set l : gset Z) ∖ {[x]}) ≤ size (list_to_set l : gset Z)); [|lia].
  apply subseteq_size. set_solver.
Qed.

Lemma selectVictim_spec p pt :
  inv p → frames p ≠ [] →
  ∃ v p' k, selectVictim p pt = Some (v, p') ∧ k ≤ length (frames p) ∧ scanned p k v p'.
Proof.
  intros [[? _]|Hh] Hne; [done|]. unfold selectVictim.
  destruct (frames p) as [|f0 fs] eqn:Hfr; [done|]. rewrite <-Hfr in *.
  destruct (scan_total (S (length (frames p))) p Hh) as [[v p'] Hs].
  { pose proof (size_list_to_set (frames p) (refBits p)). lia. }
  destruct (scan_sound _ _ _ _ Hh Hs) as (k & Hk & Hsc). exists v, p', k.
  split_and!; [done|lia|done].
Qed.

Lemma inv_onLoad p f : inv p → inv (onLoad p f).
Proof. unfold inv. simpl. rewrite length_app. simpl. intros [[-> ->]|?]; right; simpl; lia. Qed.

Lemma at_turn_in p k v : at_turn p k = Some v → v ∈ frames p.
Proof. apply list_elem_of_lookup_2. Qed.
Lemma at_turn_all p f k :
  hand p < length (frames p) → length (frames p) ≤ k → f ∈ frames p → ∃ j, j < k ∧ at_turn p j = Some f.
Proof.
  intros Hh Hk [i Hi]%list_elem_of_lookup. pose proof (lookup_lt_Some _ _ _ Hi) as Hlt.
  set (n := length (frames p)) in *.
  exists ((i + n - hand p) mod n). split; [pose proof (Nat.mod_upper_bound (i + n - hand p) n); lia|].
  unfold at_turn. fold n. rewrite Nat.Div0.add_mod_idemp_r.
  replace (hand p + (i + n - hand p)) with (i + 1 * n) by lia.
  by rewrite Nat.Div0.mod_add, Nat.mod_small.
Qed.

End ClockReplacement.

#[global] Instance clock_policy : IPageReplacementPolicy ClockReplacement.t := {|
  selectVictim := ClockReplacement.selectVictim;
  onAccess := ClockReplacement.onAccess;
  onLoad := ClockReplacement.onLoad;
  policy_reset := ClockReplacement.reset
|}.

#[global, program] Instance clock_lawful : LawfulPolicy ClockReplacement.t := {|
  policy_ok := ClockReplacement.inv;
  tracked p := list_to_set (ClockReplacement.frames p)
|}.
Next Obligation.
  intros p t Hok Hn. simpl in *.
  destruct (decide (ClockReplacement.frames p = [])) as [He|He].
  { exists INVALID_FRAME, p. unfold ClockReplacement.selectVictim. rewrite He.
    split; [done|]. split; [done|]. by left. }
  destruct (ClockReplacement.selectVictim_spec p t Hok He) as (v & p' & k & -> & _ & Hs).
  destruct Hs as (Hv & _ & _ & Hfr & _ & Hinv). exists v, p'. split; [done|]. split; [done|]. right.
  unfold ClockReplacement.at_turn in Hv. set (pos := _ mod _) in *.
  pose proof (take_drop_middle _ _ _ Hv) as Hmid. rewrite Hfr.
  replace (S pos) with (pos + 1) in Hmid by lia.
  set (l1 := take pos _) in *. set (l2 := drop (pos + 1) _) in *. clearbody l1 l2.
  rewrite <-Hmid, !list_to_set_app_L. simpl. set_solver.
Qed.
Next Obligation.
  intros p f Hok. simpl. split; [exact Hok|]. split; set_solver.
Qed.
Next Obligation.
  intros p f Hok. split; [by apply ClockReplacement.inv_onLoad|]. simpl.
  rewrite list_to_set_app_L. set_solver.
Qed.

(** ** [memory/optimal_replacement.cpp] *)
Module OptimalReplacement.
Record t := mk { futureAccesses : list Z; currentIndex : nat; loadedFrames : gset Z }.
Definition make (future : list Z) : t := mk future 0 ∅.

(** The position of the next access, [std::find] from the current index on. *)
Fixpoint next_use (rest : list Z) (frame : Z) : option nat :=
  match rest with
  | [] => None
  | g :: rest' => if decide (g = frame) then Some 0 else S <$> next_use rest' frame
  end.

(** The loop over the loaded frames; a frame never used again ends it. *)
Fixpoint farthest (rest : list Z) (frames : list Z) (victim : Z) (farthestUse : nat) : Z :=
  match frames with
  | [] => victim
  | frame :: frames' =>
      match next_use rest frame with
      | None => frame
      | Some distance =>
          if (farthestUse <? distance) || (victim =? INVALID_FRAME)%Z
          then farthest rest frames' frame distance
          else farthest rest frames' victim farthestUse
      end
  end.

(** Forming an iterator past the end of the access list is undefined. *)
Definition selectVictim `{HO : HashOrder} (p : t) (pageTable : list PageTableEntry)
    : option (Z * t) :=
  if decide (loadedFrames p = ∅) then Some (INVALID_FRAME, p) else
  if decide (length (futureAccesses p) < currentIndex p) then None else
  let victim := farthest (drop (currentIndex p) (futureAccesses p)) (set_order (loadedFrames p))
                  INVALID_FRAME 0 in
  Some (victim, mk (futureAccesses p) (currentIndex p) (loadedFrames p ∖ {[victim]})).
Definition onAccess (p : t) (frame : Z) : t :=
  mk (futureAccesses p) (currentIndex p + 1) (loadedFrames p).
Definition onLoad (p : t) (frame : Z) : t :=
  mk (futureAccesses p) (currentIndex p) (loadedFrames p ∪ {[frame]}).
Definition reset (p : t) : t := mk (futureAccesses p) 0 ∅.

(** [v] is used no earlier than [g]. *)
Definition no_earlier (rest : list Z) (v g : Z) : Prop :=
  match next_use rest v, next_use rest g with
  | None, _ => True
  | Some d, Some d' => d' ≤ d
  | Some _, None => False
  end.

Lemma farthest_spec rest frames : ∀ victim far,
  INVALID_FRAME ∉ frames →
  (victim = INVALID_FRAME ∧ far = 0 ∨ next_use rest victim = Some far) →
  let v := farthest rest frames victim far in
  (v = victim ∨ v ∈ frames) ∧ (frames ≠ [] → v ≠ INVALID_FRAME ∨ victim ≠ INVALID_FRAME) ∧
  (victim ≠ INVALID_FRAME → no_earlier rest v victim) ∧ ∀ g, g ∈ frames → no_earlier rest v g.
Proof.
  induction frames as [|f fs IH]; intros victim far Hin Hv; simpl.
  { split_and!; [by left|done| |set_solver]. intros Hne. destruct Hv as [[? _]|Hv]; [done|].
    unfold no_earlier. rewrite Hv. lia. }
  assert (f ≠ INVALID_FRAME ∧ INVALID_FRAME ∉ fs) as [Hf Hfs] by set_solver.
  destruct (next_use rest f) as [d|] eqn:Hd.
  2: { split_and!; [right; set_solver|by left| |]; intros; unfold no_earlier; by rewrite Hd. }
  assert (∀ v1 v2 v3, no_earlier rest v1 v2 → no_earlier rest v2 v3 → no_earlier rest v1 v3) as Htr.
  { unfold no_earlier. intros v1 v2 v3.
    destruct (next_use rest v1), (next_use rest v2), (next_use rest v3); try done; lia. }
  assert (∀ v, v ∈ fs → v ≠ INVALID_FRAME) as Hnv by congruence.
  destruct (Nat.ltb_spec far d) as [Hlt|Hge]; simpl.
  - destruct (IH f d Hfs (or_intror Hd)) as (H1 & H2 & H3 & H4). specialize (H3 Hf).
    split_and!; [rewrite elem_of_cons; tauto| |intros Hne|].
    + intros _. left. destruct H1 as [->|H1]; [done|auto].
    + eapply Htr; [exact H3|]. destruct Hv as [[? _]|Hv]; [done|].
      unfold no_earlier. rewrite Hd, Hv. lia.
    + intros g [->|Hg]%elem_of_cons; auto.
  - destruct (Z.eqb_spec victim INVALID_FRAME) as [->|Hne].
    + destruct (IH f d Hfs (or_intror Hd)) as (H1 & H2 & H3 & H4). specialize (H3 Hf).
      split_and!; [rewrite elem_of_cons; tauto| |done|].
      * intros _. left. destruct H1 as [->|H1]; [done|auto].
      * intros g [->|Hg]%elem_of_cons; auto.
    + destruct Hv as [[? _]|Hv]; [done|].
      destruct (IH victim far Hfs (or_intror Hv)) as (H1 & H2 & H3 & H4). specialize (H3 Hne).
      split_and!; [rewrite elem_of_cons; tauto|by right|done|].
      intros g [->|Hg]%elem_of_cons; [|auto]. eapply Htr; [exact H3|].
      unfold no_earlier. rewrite Hv, Hd. lia.
Qed.
End OptimalReplacement.

(** ** The policies pick the frame they are named after *)

(** C23: Second chance: on a non-empty ring the clock terminates within one turn
    more than there are frames and evicts the first frame from the hand on
    whose reference bit is clear, or was cleared by this very scan; every frame
    it passed loses its bit and the order of the others is kept.  In
    particular a referenced frame is evicted only if every frame is referenced. *)
Theorem clock_second_chance p pt :
  ClockReplacement.inv p → ClockReplacement.frames p ≠ [] →
  ∃ v p' k, ClockReplacement.selectVictim p pt = Some (v, p') ∧
    k ≤ length (ClockReplacement.frames p) ∧ ClockReplacement.scanned p k v p' ∧
    (v ∈ ClockReplacement.refBits p → NoDup (ClockReplacement.frames p) →
       ∀ f, f ∈ ClockReplacement.frames p → f ∈ ClockReplacement.refBits p).
Proof.
  intros Hinv Hne. destruct (ClockReplacement.selectVictim_spec p pt Hinv Hne) as (v & p' & k & Hs & Hk & Hsc).
  exists v, p', k. split_and!; [done|done|done|]. intros Hv Hnd f Hf.
  destruct Hinv as [[? _]|Hh]; [done|].
  destruct Hsc as (Hkv & Hset & [?|(j & Hj & Hjv)] & _); [done|].
  set (n := length (ClockReplacement.frames p)) in *.
  assert (k = n) as ->.
  { unfold ClockReplacement.at_turn in Hkv, Hjv. fold n in Hkv, Hjv.
    pose proof (proj1 (NoDup_alt _) Hnd _ _ _ Hkv Hjv) as Heq.
    pose proof (Nat.div_mod_eq (ClockReplacement.hand p + k) n) as E1.
    pose proof (Nat.div_mod_eq (ClockReplacement.hand p + j) n) as E2.
    rewrite Heq in E1. clear -E1 E2 Hj Hk. revert E1 E2.
    generalize (ClockReplacement.hand p), ((ClockReplacement.hand p + k) / n),
      ((ClockReplacement.hand p + j) / n), ((ClockReplacement.hand p + j) mod n).
    intros h q1 q2 r E1 E2. assert (q2 < q1) by nia. nia. }
  destruct (ClockReplacement.at_turn_all p f n Hh ltac:(done) Hf) as (i & Hi & Hfi).
  destruct (Hset i Hi) as (g & Hg & ?). congruence.
Qed.

Lemma clock_second_chance_witness :
  let p := ClockReplacement.mk [7; 8; 9]%Z {[7; 8]}%Z 1 in
  ∃ v p' k, ClockReplacement.selectVictim p [] = Some (v, p') ∧
    k ≤ length (ClockReplacement.frames p) ∧ ClockReplacement.scanned p k v p' ∧
    (v ∈ ClockReplacement.refBits p → NoDup (ClockReplacement.frames p) →
       ∀ f, f ∈ ClockReplacement.frames p → f ∈ ClockReplacement.refBits p).
Proof.
  apply (clock_second_chance (ClockReplacement.mk [7; 8; 9]%Z {[7; 8]}%Z 1) []);
    [right; vm_compute; lia|done].
Defined.

(** Belady's rule: as long as the recorded future covers the accesses made,
    the optimal policy evicts a loaded frame whose next use is no earlier than
    that of any loaded frame, whatever order the hash set is iterated in; past
    the recorded future its behaviour is undefined. *)
Theorem optimal_farthest (HO : HashOrder) p pt :
  INVALID_FRAME ∉ OptimalReplacement.loadedFrames p → OptimalReplacement.loadedFrames p ≠ ∅ →
  if decide (OptimalReplacement.currentIndex p ≤ length (OptimalReplacement.futureAccesses p)) then
    ∃ v p', OptimalReplacement.selectVictim p pt = Some (v, p') ∧
      v ∈ OptimalReplacement.loadedFrames p ∧
      OptimalReplacement.loadedFrames p' = OptimalReplacement.loadedFrames p ∖ {[v]} ∧
      ∀ g, g ∈ OptimalReplacement.loadedFrames p →
        OptimalReplacement.no_earlier
          (drop (OptimalReplacement.currentIndex p) (OptimalReplacement.futureAccesses p)) v g
  else OptimalReplacement.selectVictim p pt = None.
Proof.
  intros Hin Hne. unfold OptimalReplacement.selectVictim. rewrite (decide_False (P:=_ = ∅)) by done.
  case_decide; [|by rewrite decide_True by lia].
  rewrite decide_False by lia. set (rest := drop _ _).
  destruct (OptimalReplacement.farthest_spec rest (set_order (OptimalReplacement.loadedFrames p))
    INVALID_FRAME 0) as (H1 & H2 & _ & H4); [by rewrite elem_of_set_order|by left|].
  eexists _, _. split; [done|]. simpl. split_and!; [|done|].
  - destruct H1 as [Heq|H1]; [|by rewrite elem_of_set_order in H1]. exfalso.
    assert (set_order (OptimalReplacement.loadedFrames p) ≠ []) as Hnn.
    { intros E. apply Hne, set_eq. intros x. rewrite <-elem_of_set_order, E. set_solver. }
    destruct (H2 Hnn) as [|]; done.
  - intros g Hg. apply H4. by rewrite elem_of_set_order.
Qed.

Lemma optimal_farthest_witness :
  let HO := canonical_order in
  let p := OptimalReplacement.mk [1; 2; 3; 1]%Z 1 {[1; 2; 3]}%Z in
  if decide (1 ≤ 4) then
    ∃ v p', OptimalReplacement.selectVictim p [] = Some (v, p') ∧
      v ∈ OptimalReplacement.loadedFrames p ∧
      OptimalReplacement.loadedFrames p' = OptimalReplacement.loadedFrames p ∖ {[v]} ∧
      ∀ g, g ∈ OptimalReplacement.loadedFrames p →
        OptimalReplacement.no_earlier [2; 3; 1]%Z v g
  else OptimalReplacement.selectVictim p [] = None.
Proof.
  apply (optimal_farthest canonical_order (OptimalReplacement.mk [1; 2; 3; 1]%Z 1 {[1; 2; 3]}%Z) []);
    simpl; [vm_compute; intros ?; set_solver|set_solver].
Defined.

(** The least recently used: with distinct access times the LRU policy's
    victim is the frame whose last access or load is strictly older than that
    of every other tracked frame, independently of the hash map's order. *)
Theorem lru_victim (HO : HashOrder) p pt :
  LruReplacement.inv p → LruReplacement.accessTime p ≠ ∅ →
  ∃ v time, LruReplacement.selectVictim p pt =
      Some (v, LruReplacement.mk (delete v (LruReplacement.accessTime p)) (LruReplacement.clock p)) ∧
    LruReplacement.accessTime p !! v = Some time ∧
    ∀ f u, f ≠ v → LruReplacement.accessTime p !! f = Some u → (time < u)%Z.
Proof.
  intros (_ & _ & Hinj) Hne. pose proof (LruReplacement.select_spec p pt) as Hs.
  destruct (LruReplacement.selectVictim p pt) as [[v p']|]; [|done].
  destruct Hs as [[? _]|(time & Hv & Hle & ->)]; [done|]. exists v, time. split_and!; [done|done|].
  intros f u Hfv Hf. pose proof (Hle f u Hf). destruct (decide (time = u)) as [->|]; [|lia].
  exfalso. apply Hfv. by eapply Hinj.
Qed.

Lemma lru_victim_witness :
  let HO := canonical_order in
  let p := LruReplacement.onAccess (LruReplacement.onLoad (LruReplacement.onLoad LruReplacement.init 5) 6) 5 in
  ∃ v time, LruReplacement.selectVictim p [] =
      Some (v, LruReplacement.mk (delete v (LruReplacement.accessTime p)) (LruReplacement.clock p)) ∧
    LruReplacement.accessTime p !! v = Some time ∧
    ∀ f u, f ≠ v → LruReplacement.accessTime p !! f = Some u → (time < u)%Z.
Proof.
  apply (lru_victim canonical_order
    (LruReplacement.onAccess (LruReplacement.onLoad (LruReplacement.onLoad LruReplacement.init 5) 6) 5) []).
  - repeat (apply LruReplacement.inv_touch; [|vm_compute; done]).
    unfold LruReplacement.inv. simpl. split_and!; [lia|lia|..]; intros *; by rewrite lookup_empty.
  - intros E. apply (f_equal (lookup 5%Z)) in E. vm_compute in E. done.
Defined.
