(* ===== verification/Mmu.v ===== *)
(** * Mmu: [memory/mmu.cpp]

    Frame allocation, translation and swapping, over any memory and any
    replacement policy of the interfaces. *)
From S2P Require Import Prelude Core Arch Paging.

Section mmu.
Context {M P : Type} `{!IMemory M} `{!IPageReplacementPolicy P} `{HO : HashOrder}.

Record mmu := MkMmu {
  memory : M;
  replacementPolicy : P;
  pageTables : gmap Z (list PageTableEntry);
  freeFrames : gset Z;
  frameOwners : gmap Z Z;
  swapSpace : gmap (Z * nat) Block;
  totalFrameCount : nat
}.

Definition Mmu_make (mem : M) (pol : P) : mmu :=
  MkMmu mem pol ∅ (list_to_set (Z.of_nat <$> seq 0 (mem_cells mem))) ∅ ∅ (mem_cells mem).

Definition set_memory (s : mmu) (m : M) : mmu :=
  MkMmu m (replacementPolicy s) (pageTables s) (freeFrames s) (frameOwners s) (swapSpace s)
    (totalFrameCount s).
Definition set_policy (s : mmu) (p : P) : mmu :=
  MkMmu (memory s) p (pageTables s) (freeFrames s) (frameOwners s) (swapSpace s)
    (totalFrameCount s).
Definition set_tables (s : mmu) (ts : gmap Z (list PageTableEntry)) : mmu :=
  MkMmu (memory s) (replacementPolicy s) ts (freeFrames s) (frameOwners s) (swapSpace s)
    (totalFrameCount s).
Definition set_frames (s : mmu) (free : gset Z) (owners : gmap Z Z) : mmu :=
  MkMmu (memory s) (replacementPolicy s) (pageTables s) free owners (swapSpace s)
    (totalFrameCount s).
Definition set_swap (s : mmu) (sw : gmap (Z * nat) Block) : mmu :=
  MkMmu (memory s) (replacementPolicy s) (pageTables s) (freeFrames s) (frameOwners s) sw
    (totalFrameCount s).

Definition allocateFrame (s : mmu) (pid : Z) : Z * mmu :=
  match set_begin (freeFrames s) with
  | None => (INVALID_FRAME, s)
  | Some frame =>
      (frame, set_frames s (freeFrames s ∖ {[frame]}) (<[frame := pid]> (frameOwners s)))
  end.
Definition freeFrame (s : mmu) (frame : Z) : mmu :=
  set_frames s (freeFrames s ∪ {[frame]}) (delete frame (frameOwners s)).

(** [(void)table.map(page, frame)] on the table of [pid]. *)
Definition map_page (s : mmu) (pid : Z) (page : nat) (frame : Z) : mmu :=
  match pageTables s !! pid with
  | None => s
  | Some t => set_tables s (<[pid := (PageTable.map t page frame).2]> (pageTables s))
  end.

Definition read (s : mmu) (processId : Z) (virtualAddress : nat) : Result Block * mmu :=
  match pageTables s !! processId with
  | None => (error ErrorCode.InvalidPid, s)
  | Some t =>
      match PageTable.translate t virtualAddress with
      | error e => (error e, s)
      | ok frame =>
          let t' := (PageTable.setReferenced t virtualAddress true).2 in
          let s1 := set_policy (set_tables s (<[processId := t']> (pageTables s)))
                      (onAccess (replacementPolicy s) frame) in
          (mem_read (memory s1) frame, s1)
      end
  end.

Definition write (s : mmu) (processId : Z) (virtualAddress : nat) (b : Block) : Result unit * mmu :=
  match pageTables s !! processId with
  | None => (error ErrorCode.InvalidPid, s)
  | Some t =>
      match PageTable.translate t virtualAddress with
      | error e => (error e, s)
      | ok frame =>
          let t1 := (PageTable.setReferenced t virtualAddress true).2 in
          let t2 := (PageTable.setDirty t1 virtualAddress true).2 in
          let s1 := set_policy (set_tables s (<[processId := t2]> (pageTables s)))
                      (onAccess (replacementPolicy s) frame) in
          let '(r, m) := mem_write (memory s1) frame b in (r, set_memory s1 m)
      end
  end.

(** The loop over the owner's table: the first page present in [frame]. *)
Fixpoint find_page (entries : list PageTableEntry) (frame : Z) : option nat :=
  match entries with
  | [] => None
  | e :: entries' =>
      if present e && (frameId e =? frame)%Z then Some 0 else S <$> find_page entries' frame
  end.

(** Saving the page of the frame's owner to swap, as in [allocate] and
    [swapIn]; [pageTables.at] throws when the owner has no table. *)
Definition evict (s : mmu) (frame : Z) : option mmu :=
  match frameOwners s !! frame with
  | None => Some s
  | Some owner =>
      match mem_read (memory s) frame with
      | error _ => Some s
      | ok b =>
          let! ownerTable := pageTables s !! owner in
          match find_page ownerTable frame with
          | None => Some s
          | Some vp =>
              Some (set_tables (set_swap s (<[(owner, vp) := b]> (swapSpace s)))
                      (<[owner := (PageTable.unmap ownerTable vp).2]> (pageTables s)))
          end
      end
  end.

(** Freeing the frames of the present entries, in page order. *)
Fixpoint free_pages (entries : list PageTableEntry) (s : mmu) : mmu :=
  match entries with
  | [] => s
  | e :: entries' => free_pages entries' (if present e then freeFrame s (frameId e) else s)
  end.

(** The victim of [allocate]: a frame of the allocating process is handed back
    to the policy and counts as none. *)
Definition select_other (s : mmu) (pid : Z) (t : list PageTableEntry) : option (Z * mmu) :=
  let! (frame, pol) := selectVictim (replacementPolicy s) t in
  let s1 := set_policy s pol in
  if bool_decide (frame ≠ INVALID_FRAME) && bool_decide (frameOwners s !! frame = Some pid)
  then Some (INVALID_FRAME, set_policy s1 (onLoad pol frame))
  else Some (frame, s1).

Fixpoint allocate_pages (n page : nat) (pid : Z) (s : mmu) : option (Result nat * mmu) :=
  match n with
  | 0 => Some (ok 0, s)
  | S n' =>
      let '(frame, s1) := allocateFrame s pid in
      let! t := pageTables s1 !! pid in
      if (frame =? INVALID_FRAME)%Z then
        let! (victim, s2) := select_other s1 pid t in
        if (victim =? INVALID_FRAME)%Z then
          let s3 := free_pages (take page t) s2 in
          Some (error ErrorCode.OutOfMemory, set_tables s3 (delete pid (pageTables s3)))
        else
          let! s3 := evict s2 victim in
          let s4 := set_frames s3 (freeFrames s3) (<[victim := pid]> (frameOwners s3)) in
          let s5 := map_page s4 pid page victim in
          allocate_pages n' (S page) pid (set_policy s5 (onLoad (replacementPolicy s5) victim))
      else
        let s5 := map_page s1 pid page frame in
        allocate_pages n' (S page) pid (set_policy s5 (onLoad (replacementPolicy s5) frame))
  end.

Definition allocate (s : mmu) (processId : Z) (pageCount : nat) : option (Result nat * mmu) :=
  if pageCount =? 0 then Some (error ErrorCode.InvalidAddress, s) else
  match pageTables s !! processId with
  | Some _ => Some (error ErrorCode.InvalidPid, s)
  | None =>
      allocate_pages pageCount 0 processId
        (set_tables s (<[processId := PageTable.make pageCount]> (pageTables s)))
  end.

Definition deallocate (s : mmu) (processId : Z) : Result unit * mmu :=
  match pageTables s !! processId with
  | None => (error ErrorCode.InvalidPid, s)
  | Some t =>
      let s1 := free_pages t s in
      let s2 := set_swap s1 (filter (λ kv, kv.1.1 ≠ processId) (swapSpace s1)) in
      (ok tt, set_tables s2 (delete processId (pageTables s2)))
  end.

(** The end of [swapIn], once [frame] belongs to the process. *)
Definition restore_page (s : mmu) (pid : Z) (page : nat) (frame : Z) : mmu :=
  let s1 := match swapSpace s !! (pid, page) with
            | Some b => set_swap (set_memory s (mem_write (memory s) frame b).2)
                          (delete (pid, page) (swapSpace s))
            | None => s
            end in
  let s2 := map_page s1 pid page frame in
  set_policy s2 (onLoad (replacementPolicy s2) frame).

Definition swapIn (s : mmu) (processId : Z) (virtualAddress : nat) : option (Result unit * mmu) :=
  match pageTables s !! processId with
  | None => Some (error ErrorCode.InvalidPid, s)
  | Some t =>
      match PageTable.getEntry t virtualAddress with
      | error e => Some (error e, s)
      | ok entry =>
          if present entry then Some (ok tt, s) else
          let '(frame, s1) := allocateFrame s processId in
          if (frame =? INVALID_FRAME)%Z then
            let! (victim, pol) := selectVictim (replacementPolicy s1) t in
            let s2 := set_policy s1 pol in
            if (victim =? INVALID_FRAME)%Z then Some (error ErrorCode.OutOfMemory, s2) else
            let! s3 := evict s2 victim in
            let s4 := set_frames s3 (freeFrames s3) (<[victim := processId]> (frameOwners s3)) in
            Some (ok tt, restore_page s4 processId virtualAddress victim)
          else Some (ok tt, restore_page s1 processId virtualAddress frame)
      end
  end.

Definition swapOut (s : mmu) (processId : Z) (virtualAddress : nat) : Result unit * mmu :=
  match pageTables s !! processId with
  | None => (error ErrorCode.InvalidPid, s)
  | Some t =>
      match PageTable.getEntry t virtualAddress with
      | error e => (error e, s)
      | ok entry =>
          if negb (present entry) then (ok tt, s) else
          let frame := frameId entry in
          let s1 := match mem_read (memory s) frame with
                    | ok b => set_swap s (<[(processId, virtualAddress) := b]> (swapSpace s))
                    | error _ => s
                    end in
          let t' := (PageTable.unmap t virtualAddress).2 in
          (ok tt, freeFrame (set_tables s1 (<[processId := t']> (pageTables s1))) frame)
      end
  end.

Definition totalFrames (s : mmu) : nat := totalFrameCount s.
Definition freeFrameCount (s : mmu) : nat := size (freeFrames s).
End mmu.
Arguments mmu : clear implicits.
