(* ===== verification/MmuInvariant.v ===== *)
(** * MmuInvariant: the frame bookkeeping of [Mmu]

    Free frames, owners, page tables and swap space describe one assignment of
    pages to frames; the view of an address space through it. *)
From S2P Require Import Prelude Core Arch Paging Mmu.

Lemma find_page_Some t f vp :
  find_page t f = Some vp → ∃ e, t !! vp = Some e ∧ present e = true ∧ frameId e = f.
Proof.
  revert vp. induction t as [|e t IH]; intros vp; simpl; [done|].
  destruct (present e && (frameId e =? f)%Z) eqn:E.
  - intros [= <-]. apply andb_prop in E as [? ?%Z.eqb_eq]. by exists e.
  - destruct (find_page t f) as [vp'|]; simpl; [|done]. intros [= <-]. by apply IH.
Qed.
Lemma find_page_None t f vp e :
  find_page t f = None → t !! vp = Some e → present e = true → frameId e ≠ f.
Proof.
  revert vp. induction t as [|e0 t IH]; intros vp; simpl; [done|].
  destruct (present e0 && (frameId e0 =? f)%Z) eqn:E; [done|].
  intros Hn%fmap_None. destruct vp as [|vp]; simpl; [|by apply IH].
  intros [= ->] Hp <-. rewrite Hp, Z.eqb_refl in E. done.
Qed.

Section invariant.
Context {M P : Type} `{HMem : !IMemory M} `{HLM : !LawfulMemory M}.
Context `{HPol : !IPageReplacementPolicy P} `{HLP : !LawfulPolicy P} `{HO : HashOrder}.
Implicit Types (s : mmu M P) (p q f : Z) (vp : nat).

Definition pte_at s p vp : option PageTableEntry := t ← pageTables s !! p; t !! vp.

(** What a page of a process holds, in memory or in swap. *)
Definition view s p vp : option Block :=
  match pte_at s p vp with
  | None => None
  | Some e =>
      if present e then match mem_read (memory s) (frameId e) with ok b => Some b | error _ => None end
      else swapSpace s !! (p, vp)
  end.

Definition frame_of s f : Prop := (0 ≤ f < Z.of_nat (totalFrameCount s))%Z.

(** A page table under construction has its first [k] pages mapped and no
    swap entries yet. *)
Definition unbuilt (b : option (Z * nat)) p vp : Prop := ∃ k, b = Some (p, k) ∧ k ≤ vp.

Record inv (b : option (Z * nat)) (flight : option Z) s : Prop := {
  i_total : totalFrameCount s = mem_cells (memory s) ∧
    (Z.of_nat (totalFrameCount s) ≤ INVALID_FRAME)%Z;
  i_frames f : frame_of s f ↔ f ∈ freeFrames s ∨ is_Some (frameOwners s !! f);
  i_disj f : f ∈ freeFrames s → frameOwners s !! f = None;
  i_flight f : flight = Some f → is_Some (frameOwners s !! f);
  i_owner f p : frameOwners s !! f = Some p → flight ≠ Some f →
    ∃ vp e, pte_at s p vp = Some e ∧ present e = true ∧ frameId e = f;
  i_present p vp e : pte_at s p vp = Some e → present e = true →
    frameOwners s !! frameId e = Some p ∧ flight ≠ Some (frameId e);
  i_inj p vp1 vp2 e1 e2 : pte_at s p vp1 = Some e1 → pte_at s p vp2 = Some e2 →
    present e1 = true → present e2 = true → frameId e1 = frameId e2 → vp1 = vp2;
  i_swap p vp : is_Some (swapSpace s !! (p, vp)) ↔
    (∃ e, pte_at s p vp = Some e ∧ present e = false) ∧ ¬ unbuilt b p vp;
  i_build q k : b = Some (q, k) → is_Some (pageTables s !! q) ∧
    ∀ vp e, pte_at s q vp = Some e → present e = (vp <? k);
  i_pos p : is_Some (pageTables s !! p) → (∀ k, b ≠ Some (p, k)) → 0 < totalFrameCount s
}.

(** The policy knows every owned frame but the exempt one, and only frames. *)
Record policy_inv (exempt : option Z) s : Prop := {
  p_ok : policy_ok (replacementPolicy s);
  p_owned f : is_Some (frameOwners s !! f) → exempt ≠ Some f → f ∈ tracked (replacementPolicy s);
  p_frames f : f ∈ tracked (replacementPolicy s) → frame_of s f
}.

Definition mmu_wf s : Prop := inv None None s ∧ policy_inv None s.

Lemma pte_at_tables s ts p vp : pte_at (set_tables s ts) p vp = t ← ts !! p; t !! vp.
Proof. done. Qed.
Lemma pte_at_insert s q t p vp :
  pte_at (set_tables s (<[q := t]> (pageTables s))) p vp =
  if decide (p = q) then t !! vp else pte_at s p vp.
Proof.
  rewrite pte_at_tables. case_decide as H; [subst; by rewrite lookup_insert_eq|].
  by rewrite lookup_insert_ne.
Qed.

(** Every page has contents. *)
Lemma frame_readable b fl s f : inv b fl s → frame_of s f → ∃ c, mem_read (memory s) f = ok c.
Proof.
  intros Hi [H0 H1]. destruct (i_total _ _ _ Hi) as [Ht _].
  pose proof (mem_read_bound (memory s) f H0) as Hb.
  rewrite (proj2 (Z.ltb_lt _ _)) in Hb by lia. destruct (mem_read _ _); [eauto|done].
Qed.
Lemma present_frame b fl s p vp e :
  inv b fl s → pte_at s p vp = Some e → present e = true → frame_of s (frameId e).
Proof.
  intros Hi He Hp. apply (i_frames _ _ _ Hi). right.
  destruct (i_present _ _ _ Hi _ _ _ He Hp) as [-> _]. done.
Qed.
Lemma view_is_Some b fl s p vp :
  inv b fl s → ¬ unbuilt b p vp → is_Some (view s p vp) ↔ is_Some (pte_at s p vp).
Proof.
  intros Hi Hb. unfold view. destruct (pte_at s p vp) as [e|] eqn:He; [|done].
  destruct (present e) eqn:Hp.
  - destruct (frame_readable _ _ _ _ Hi (present_frame _ _ _ _ _ _ Hi He Hp)) as [c ->]. done.
  - split; [done|]. intros _. apply (i_swap _ _ _ Hi). eauto.
Qed.

(** ** Taking a frame *)
Lemma frame_not_invalid b fl s f : inv b fl s → frame_of s f → f ≠ INVALID_FRAME.
Proof. intros Hi [? ?] ->. destruct (i_total _ _ _ Hi). lia. Qed.

Lemma allocateFrame_spec b s pid :
  inv b None s →
  match set_begin (freeFrames s) with
  | None => allocateFrame s pid = (INVALID_FRAME, s) ∧ ∀ f, frame_of s f ↔ is_Some (frameOwners s !! f)
  | Some f =>
      allocateFrame s pid =
        (f, set_frames s (freeFrames s ∖ {[f]}) (<[f := pid]> (frameOwners s))) ∧
      inv b (Some f) (set_frames s (freeFrames s ∖ {[f]}) (<[f := pid]> (frameOwners s))) ∧
      f ≠ INVALID_FRAME ∧ frameOwners s !! f = None
  end.
Proof.
  intros Hi. unfold allocateFrame. destruct (set_begin (freeFrames s)) as [f|] eqn:Hb.
  - apply set_begin_Some in Hb. split; [done|].
    assert (frame_of s f) as Hf by (apply (i_frames _ _ _ Hi); by left).
    pose proof (i_disj _ _ _ Hi _ Hb) as Hno.
    split; [|split; [by eapply frame_not_invalid|done]].
    destruct Hi as [It If Id Ifl Io Ip Ii Is Ib Ipos]. split; simpl; try done.
    + intros g. unfold frame_of in *. simpl. rewrite If, lookup_insert_is_Some'. set_unfold.
      destruct (decide (g = f)); naive_solver.
    + intros g [Hg Hne]%elem_of_difference. rewrite lookup_insert_ne by set_solver. by apply Id.
    + intros g [= <-]. by rewrite lookup_insert_eq.
    + intros g p [[<- <-]|[? Hg]]%lookup_insert_Some Hne; [done|]. by apply Io.
    + intros p vp e He Hp. destruct (Ip _ _ _ He Hp) as [Hg _].
      assert (frameId e ≠ f) by congruence. rewrite lookup_insert_ne by done. split; [done|congruence].
  - apply set_begin_None in Hb. split; [done|]. intros f. rewrite (i_frames _ _ _ Hi), Hb. set_solver.
Qed.

(** What [evict] does to the page that lives in an owned frame. *)
Definition evicted s q vp (c : Block) (t : list PageTableEntry) : mmu M P :=
  set_tables (set_swap s (<[(q, vp) := c]> (swapSpace s)))
    (<[q := <[vp := pte_default]> t]> (pageTables s)).

Lemma evict_spec b s f q :
  inv b None s → frameOwners s !! f = Some q →
  ∃ t vp e c, pageTables s !! q = Some t ∧ t !! vp = Some e ∧ present e = true ∧ frameId e = f ∧
    mem_read (memory s) f = ok c ∧ evict s f = Some (evicted s q vp c t).
Proof.
  intros Hi Hf. destruct (i_owner _ _ _ Hi _ _ Hf) as (vp & e & He & Hp & Hfe); [done|].
  unfold pte_at in He. destruct (pageTables s !! q) as [t|] eqn:Ht; [|done]. simpl in He.
  assert (frame_of s f) as Hfr by (apply (i_frames _ _ _ Hi); right; by rewrite Hf).
  destruct (frame_readable _ _ _ _ Hi Hfr) as [c Hc].
  destruct (find_page t f) as [vp'|] eqn:Hfp.
  - destruct (find_page_Some _ _ _ Hfp) as (e' & He' & Hp' & Hfe').
    exists t, vp', e', c. split_and!; try done.
    unfold evict. rewrite Hf, Hc, Ht, Hfp. unfold PageTable.unmap. by rewrite He'.
  - exfalso. by eapply find_page_None.
Qed.

Lemma evicted_pte s q vp c t p v :
  pageTables s !! q = Some t → is_Some (t !! vp) →
  pte_at (evicted s q vp c t) p v = if decide (p = q ∧ v = vp) then Some pte_default else pte_at s p v.
Proof.
  intros Ht [e He]. unfold evicted.
  transitivity (pte_at (set_tables s (<[q:=<[vp:=pte_default]> t]> (pageTables s))) p v); [done|].
  rewrite pte_at_insert. destruct (decide (p = q)) as [->|].
  - unfold pte_at. rewrite Ht. simpl. case_decide as Hd.
    + destruct Hd as [_ ->]. apply list_lookup_insert_eq. by eapply lookup_lt_Some.
    + rewrite list_lookup_insert_ne; [done|]. naive_solver.
  - by rewrite decide_False by naive_solver.
Qed.

(** The victim's page moves to swap, its frame to the new owner. *)
Lemma evict_inv b s f q t vp e c pid :
  inv b None s → frameOwners s !! f = Some q → (∀ k, b ≠ Some (q, k)) →
  pageTables s !! q = Some t → t !! vp = Some e → present e = true → frameId e = f →
  mem_read (memory s) f = ok c →
  let s' := set_frames (evicted s q vp c t) (freeFrames s) (<[f := pid]> (frameOwners s)) in
  inv b (Some f) s' ∧ ∀ p v, view s' p v = view s p v.
Proof.
  intros Hi Hf Hb Ht He Hp Hfe Hc s'.
  assert (pte_at s q vp = Some e) as Hpte by (unfold pte_at; by rewrite Ht).
  assert (∀ p v, pte_at s' p v = if decide (p = q ∧ v = vp) then Some pte_default else pte_at s p v)
    as Hpt by (intros; apply (evicted_pte s q vp c t); eauto).
  assert (∀ p v e', pte_at s p v = Some e' → present e' = true → frameId e' = f → p = q ∧ v = vp)
    as Huniq.
  { intros p v e' He' Hp' Hf'. destruct (i_present _ _ _ Hi _ _ _ He' Hp') as [Ho _].
    assert (p = q) as -> by congruence. split; [done|].
    eapply (i_inj _ _ _ Hi q v vp e' e); congruence. }
  split.
  - destruct Hi as [It If Id Ifl Io Ip Ii Is Ib Ipos]. split; simpl; try done.
    + intros g. unfold frame_of in *. simpl. rewrite If, lookup_insert_is_Some'.
      destruct (decide (f = g)) as [<-|]; [rewrite Hf; naive_solver|naive_solver].
    + intros g Hg. rewrite lookup_insert_ne; [by apply Id|]. intros <-. by rewrite (Id f Hg) in Hf.
    + intros g [= <-]. by rewrite lookup_insert_eq.
    + intros g p [[<- <-]|[? Hg]]%lookup_insert_Some Hne; [done|].
      destruct (Io g p Hg) as (v & e' & He' & Hp' & Hf'); [done|]. exists v, e'.
      rewrite Hpt, decide_False; [done|]. intros [-> ->]. congruence.
    + intros p v e'. rewrite Hpt. case_decide as Hd; [by intros [= <-]|]. intros He' Hp'.
      destruct (Ip _ _ _ He' Hp') as [Ho _].
      assert (frameId e' ≠ f) by (intros Hf'; by apply Hd, (Huniq p v e')).
      rewrite lookup_insert_ne by done. split; [done|congruence].
    + intros p v1 v2 e1 e2. rewrite !Hpt. do 2 case_decide;
        intros ????; simplify_eq/=; try done. by eapply Ii.
    + intros p v. rewrite Hpt. destruct (decide (p = q ∧ v = vp)) as [[-> ->]|Hd].
      * rewrite lookup_insert_eq. split; [|done]. intros _. split; [by exists pte_default|].
        intros (k & -> & _). by eapply Hb.
      * rewrite lookup_insert_ne by naive_solver. apply Is.
    + intros r k Hbk. destruct (Ib r k Hbk) as [Hs Hpr]. split.
      * apply lookup_insert_is_Some'. by right.
      * intros v e'. rewrite Hpt, decide_False; [apply Hpr|]. intros [-> _]. by eapply Hb.
    + intros p Hs Hbp. apply (Ipos p); [|done]. apply lookup_insert_is_Some' in Hs as [<-|]; [|done].
      by rewrite Ht.
  - intros p v. unfold view. rewrite Hpt. destruct (decide (p = q ∧ v = vp)) as [[-> ->]|Hd].
    + rewrite Hpte, Hp, Hfe, Hc. simpl. apply lookup_insert_eq.
    + destruct (pte_at s p v); [|done]. simpl. by rewrite lookup_insert_ne by naive_solver.
Qed.

(** ** Mapping a page into the frame in flight *)
Definition mapped_pte f : PageTableEntry := MkPte f true false true.

Lemma map_page_pte s pid t page f p v :
  pageTables s !! pid = Some t → is_Some (t !! page) →
  pte_at (map_page s pid page f) p v =
    if decide (p = pid ∧ v = page) then Some (mapped_pte f) else pte_at s p v.
Proof.
  intros Ht [e He]. unfold map_page, PageTable.map. rewrite Ht, He. simpl. rewrite pte_at_insert.
  destruct (decide (p = pid)) as [->|].
  - unfold pte_at. rewrite Ht. simpl. case_decide as Hd.
    + destruct Hd as [_ ->]. apply list_lookup_insert_eq. by eapply lookup_lt_Some.
    + rewrite list_lookup_insert_ne; [done|]. naive_solver.
  - by rewrite decide_False by naive_solver.
Qed.

(** [map_page] rewrites one table entry, and nothing else. *)
Lemma map_page_fields s pid t page f :
  pageTables s !! pid = Some t → is_Some (t !! page) →
  let s' := map_page s pid page f in
  frameOwners s' = frameOwners s ∧ freeFrames s' = freeFrames s ∧ swapSpace s' = swapSpace s ∧
  totalFrameCount s' = totalFrameCount s ∧ memory s' = memory s ∧
  pageTables s' = <[pid := <[page := mapped_pte f]> t]> (pageTables s).
Proof. intros Ht [e He]. unfold map_page. simpl. rewrite Ht. unfold PageTable.map. by rewrite He. Qed.

Section mapping.
Context (s : mmu M P) (m : M) (pid : Z) (page : nat) (t : list PageTableEntry)
  (e : PageTableEntry) (f : Z) (c : Block).
Context (Ht : pageTables s !! pid = Some t) (He : t !! page = Some e) (Hp : present e = false).
Context (Hc : mem_read m f = ok c)
  (Hrd : ∀ g, (0 ≤ g)%Z → g ≠ f → mem_read m g = mem_read (memory s) g).
Let s' := map_page (set_swap (set_memory s m) (delete (pid, page) (swapSpace s))) pid page f.

Lemma mapping_pte p v :
  pte_at s' p v = if decide (p = pid ∧ v = page) then Some (mapped_pte f) else pte_at s p v.
Proof. apply (map_page_pte (set_swap (set_memory s m) _) pid t); eauto. Qed.

(** No present page is in a frame in flight. *)
Lemma flight_empty b p v e' :
  inv b (Some f) s → pte_at s p v = Some e' → present e' = true → frameId e' ≠ f.
Proof. intros Hi He' Hp' Hfe. destruct (i_present _ _ _ Hi _ _ _ He' Hp') as [_ Hx]. congruence. Qed.

Lemma map_view b p v :
  inv b (Some f) s → view s' p v = if decide (p = pid ∧ v = page) then Some c else view s p v.
Proof.
  intros Hi. destruct (map_page_fields (set_swap (set_memory s m) (delete (pid, page) (swapSpace s)))
    pid t page f Ht ltac:(eauto)) as (_ & _ & Esw & _ & Em & _). fold s' in Esw, Em. simpl in Esw, Em.
  unfold view. rewrite mapping_pte, Em. case_decide as Hd; [simpl; by rewrite Hc|].
  destruct (pte_at s p v) as [e'|] eqn:He'; [|done]. destruct (present e') eqn:Hp'.
  - rewrite Hrd; [done| |by eapply flight_empty]. by destruct (present_frame _ _ _ _ _ _ Hi He' Hp').
  - rewrite Esw. by rewrite lookup_delete_ne by naive_solver.
Qed.

(** Mapping [page] of [pid] ends the flight.  [m] is the memory after restoring
    the page's contents, if there were any. *)
Lemma map_page_inv b b' :
  inv b (Some f) s → frameOwners s !! f = Some pid → mem_cells m = mem_cells (memory s) →
  (b = None ∧ b' = None ∨ b = Some (pid, page) ∧ b' = Some (pid, S page)) → inv b' None s'.
Proof.
  intros Hi Hf Hm Hb. pose proof (λ p v e', flight_empty b p v e' Hi) as Hne. pose proof mapping_pte as Hpt.
  destruct (map_page_fields (set_swap (set_memory s m) (delete (pid, page) (swapSpace s)))
    pid t page f Ht ltac:(eauto)) as (Ef & Er & Esw & Et & Em & Etab).
  fold s' in Ef, Er, Esw, Et, Em, Etab. simpl in Ef, Er, Esw, Et, Em, Etab. clearbody s'.
  assert (pte_at s pid page = Some e) as Hpte by (unfold pte_at; by rewrite Ht).
  destruct Hi as [It If Id Ifl Io Ip Ii Is Ib Ipos].
  split; try (unfold frame_of in *; rewrite ?Ef, ?Er, ?Et; done).
  - rewrite Et, Em, Hm. done.
  - intros g p. rewrite Ef. intros Hg _. destruct (decide (g = f)) as [->|Hgf].
    + assert (p = pid) as -> by congruence. exists page, (mapped_pte f).
      rewrite Hpt, decide_True by done. done.
    + destruct (Io g p Hg) as (v & e' & He' & Hp' & Hf'); [congruence|]. exists v, e'.
      rewrite Hpt, decide_False; [done|]. intros [-> ->]. congruence.
  - intros p v e'. rewrite Hpt, Ef. case_decide as Hd.
    + destruct Hd as [-> ->]. intros [= <-] _. done.
    + intros He' Hp'. destruct (Ip _ _ _ He' Hp'). done.
  - intros p v1 v2 e1 e2. rewrite !Hpt. destruct (decide (p = pid ∧ v1 = page)) as [Hd1|Hd1];
      destruct (decide (p = pid ∧ v2 = page)) as [Hd2|Hd2].
    + naive_solver.
    + intros [= <-] H2 _ Hp2 Hfe. destruct (Hne _ _ _ H2 Hp2). done.
    + intros H1 [= <-] Hp1 _ Hfe. by destruct (Hne _ _ _ H1 Hp1).
    + apply Ii.
  - intros p v. rewrite Esw, Hpt. destruct (decide (p = pid ∧ v = page)) as [[-> ->]|Hd].
    + rewrite lookup_delete_eq. split; [by intros []|]. intros [(e' & [= <-] & ?) _]. done.
    + rewrite lookup_delete_ne by naive_solver. rewrite Is. f_equiv. f_equiv.
      destruct Hb as [[-> ->]|[-> ->]]; unfold unbuilt; [done|].
      split; intros (k & [= <- <-] & Hk); eexists; (split; [done|]); [|lia].
      destruct (decide (v = page)) as [->|]; [|lia]. by destruct Hd.
  - intros q k Hq. destruct Hb as [[_ ->]|[-> ->]]; [done|]. injection Hq as <- <-.
    destruct (Ib pid page eq_refl) as [_ Hpr]. rewrite Etab, lookup_insert_eq. split; [done|].
    intros v e'. rewrite Hpt. case_decide as Hd.
    + destruct Hd as [_ ->]. intros [= <-]. simpl. symmetry. apply Nat.ltb_lt. lia.
    + intros He'. rewrite (Hpr v e' He').
      destruct (Nat.ltb_spec v page), (Nat.ltb_spec v (S page)); try done; lia.
  - intros p _ _. rewrite Et. assert (frame_of s f) as [? ?]; [|lia].
    apply If. right. rewrite Hf. done.
Qed.
End mapping.

Lemma map_inv b b' s m sw pid page t e f c :
  inv b (Some f) s → frameOwners s !! f = Some pid →
  pageTables s !! pid = Some t → t !! page = Some e → present e = false →
  mem_cells m = mem_cells (memory s) → mem_read m f = ok c →
  (∀ g, (0 ≤ g)%Z → g ≠ f → mem_read m g = mem_read (memory s) g) →
  sw = delete (pid, page) (swapSpace s) →
  (b = None ∧ b' = None ∨ b = Some (pid, page) ∧ b' = Some (pid, S page)) →
  let s' := map_page (set_swap (set_memory s m) sw) pid page f in
  inv b' None s' ∧
  ∀ p v, view s' p v = if decide (p = pid ∧ v = page) then Some c else view s p v.
Proof.
  intros Hi Hf Ht He Hp Hm Hc Hrd -> Hb s'. split.
  - by eapply map_page_inv.
  - intros p v. by eapply map_view.
Qed.

(** ** Giving frames back *)
Definition held (t : list PageTableEntry) f : Prop :=
  ∃ e, e ∈ t ∧ present e = true ∧ frameId e = f.

Lemma free_pages_spec t : ∀ s,
  let s' := free_pages t s in
  memory s' = memory s ∧ replacementPolicy s' = replacementPolicy s ∧ pageTables s' = pageTables s ∧
  swapSpace s' = swapSpace s ∧ totalFrameCount s' = totalFrameCount s ∧
  (∀ f, f ∈ freeFrames s' ↔ f ∈ freeFrames s ∨ held t f) ∧
  (∀ f p, frameOwners s' !! f = Some p ↔ frameOwners s !! f = Some p ∧ ¬ held t f).
Proof.
  induction t as [|e t IH]; intros s; simpl.
  { split_and!; try done.
    - intros f. split; [by left|]. intros [?|(e & He & _)]; [done|set_solver].
    - intros f p. split; [|tauto]. intros. split; [done|]. intros (e & He & _). set_solver. }
  assert (∀ f, held (e :: t) f ↔ (present e = true ∧ frameId e = f) ∨ held t f) as Hh.
  { intros f. unfold held. set_solver. }
  destruct (IH (if present e then freeFrame s (frameId e) else s)) as (H1&H2&H3&H4&H5&H6&H7).
  rewrite H1, H2, H3, H4, H5. destruct (present e) eqn:Hp; simpl in *; split_and!; try done.
  - intros f. rewrite H6, Hh. set_solver.
  - intros f p. rewrite H7, Hh, lookup_delete_Some. naive_solver.
  - intros f. rewrite H6, Hh. naive_solver.
  - intros f p. rewrite H7, Hh. naive_solver.
Qed.

(** Dropping the process whose frames were all freed. *)
Lemma drop_process_inv b fl s pid t sw :
  inv b fl s → (fl = None) → pageTables s !! pid = Some t →
  (b = None ∨ ∃ k, b = Some (pid, k)) →
  (∀ p v, sw !! (p, v) = if decide (p = pid) then None else swapSpace s !! (p, v)) →
  let s1 := free_pages t s in
  let s' := set_tables (set_swap s1 sw) (delete pid (pageTables s1)) in
  inv None None s' ∧
  ∀ p v, view s' p v = if decide (p = pid) then None else view s p v.
Proof.
  intros Hi -> Ht Hb Hsw s1 s'.
  destruct (free_pages_spec t s) as (E1&E2&E3&E4&E5&E6&E7). fold s1 in E1, E2, E3, E4, E5, E6, E7.
  assert (∀ p v, pte_at s' p v = if decide (p = pid) then None else pte_at s p v) as Hpt.
  { intros p v. unfold pte_at, s'. simpl. rewrite E3. case_decide as Hd.
    - subst. by rewrite lookup_delete_eq.
    - by rewrite lookup_delete_ne. }
  assert (∀ f, held t f ↔ frameOwners s !! f = Some pid) as Hheld.
  { intros f. split.
    - intros (e & He & Hp & <-). apply list_elem_of_lookup in He as [v Hv].
      apply (i_present _ _ _ Hi pid v); [|done]. unfold pte_at. by rewrite Ht.
    - intros Hf. destruct (i_owner _ _ _ Hi _ _ Hf) as (v & e & He & Hp & Hfe); [done|].
      exists e. split_and!; try done. unfold pte_at in He. rewrite Ht in He.
      by eapply list_elem_of_lookup_2. }
  split.
  - destruct Hi as [It If Id Ifl Io Ip Ii Is Ib Ipos]. split; simpl; try done.
    + rewrite E1, E5. done.
    + intros f. unfold frame_of in *. simpl. rewrite E5, If, E6, Hheld. split.
      * intros [?|[p Hp]]; [tauto|]. destruct (decide (p = pid)) as [->|]; [tauto|].
        right. exists p. apply E7. rewrite Hheld. split; [done|congruence].
      * intros [[?|?]|[p [? _]%E7]]; eauto.
    + intros f. rewrite E6, Hheld. intros Hf. destruct (frameOwners s1 !! f) as [p|] eqn:E; [|done].
      apply E7 in E as [Hp Hn]. rewrite Hheld in Hn. destruct Hf as [Hf|Hf]; [|done].
      apply Id in Hf. congruence.
    + intros f p Hf _. apply E7 in Hf as [Hf Hn]. rewrite Hheld in Hn.
      destruct (Io f p Hf) as (v & e & He & ?); [done|]. exists v, e.
      rewrite Hpt, decide_False; [done|]. congruence.
    + intros p v e. rewrite Hpt. case_decide as Hd; [done|]. intros He Hp.
      destruct (Ip _ _ _ He Hp) as [Ho _]. split; [|done]. apply E7. rewrite Hheld.
      split; [done|congruence].
    + intros p v1 v2 e1 e2. rewrite !Hpt. case_decide; [done|]. apply Ii.
    + intros p v. rewrite Hsw, Hpt. case_decide as Hd.
      * split; [by intros []|]. by intros [(?&?&?) _].
      * rewrite Is. f_equiv. f_equiv. split; intros (k & Hk & ?); [|done].
        destruct Hb as [->|[k' ->]]; [done|]. congruence.
    + intros p Hs _. rewrite E5. rewrite E3 in Hs. apply lookup_delete_is_Some in Hs as [Hne Hs].
      apply (Ipos p Hs). intros k Hk. destruct Hb as [->|[k' ->]]; [done|]. congruence.
  - intros p v. unfold view. rewrite Hpt. case_decide; [done|].
    destruct (pte_at s p v) as [e|]; [|done]. simpl. rewrite E1, Hsw, decide_False by done. done.
Qed.

(** ** Policy bookkeeping *)
Lemma invalid_not_tracked b fl ex s : inv b fl s → policy_inv ex s → INVALID_FRAME ∉ tracked (replacementPolicy s).
Proof. intros Hi Hp Hin. apply (p_frames _ _ Hp) in Hin. by eapply frame_not_invalid. Qed.

(** Every owned frame is a candidate, so the policy names one when none is free. *)
Lemma victim_spec b s t :
  inv b None s → policy_inv None s →
  ∃ v pol, selectVictim (replacementPolicy s) t = Some (v, pol) ∧
    (v = INVALID_FRAME ∧ (∀ f, frameOwners s !! f = None) ∧ policy_inv None (set_policy s pol) ∨
     v ≠ INVALID_FRAME ∧ frame_of s v ∧ policy_inv (Some v) (set_policy s pol)).
Proof.
  intros Hi Hp. pose proof (invalid_not_tracked _ _ _ _ Hi Hp) as Hinv.
  destruct (select_lawful _ t (p_ok _ _ Hp) Hinv) as (v & pol & -> & Hok & Hc).
  exists v, pol. split; [done|]. destruct Hc as [(-> & He & He')|(Hv & Hsub & Hsup)].
  - left. split; [done|].
    assert (∀ f, frameOwners s !! f = None) as Hno.
    { intros f. apply eq_None_not_Some. intros Hf. apply (p_owned _ _ Hp) in Hf; [|done].
      rewrite He in Hf. set_solver. }
    split; [done|]. split; simpl; [done| |].
    + intros f [? Hf]. by rewrite Hno in Hf.
    + intros f. rewrite He'. set_solver.
  - right. assert (frame_of s v) as Hfr by by apply (p_frames _ _ Hp).
    split; [by eapply frame_not_invalid|]. split; [done|]. split; simpl; [done| |].
    + intros f Hf Hne. apply Hsub. apply elem_of_difference. split; [by apply (p_owned _ _ Hp)|].
      rewrite elem_of_singleton. congruence.
    + intros f Hf. apply (p_frames _ _ Hp). by apply Hsup.
Qed.

(** [onLoad] of the exempt frame closes the gap. *)
Lemma policy_load s s' f :
  policy_inv (Some f) s → frame_of s f →
  (∀ g, is_Some (frameOwners s' !! g) → g = f ∨ is_Some (frameOwners s !! g)) →
  totalFrameCount s' = totalFrameCount s → replacementPolicy s' = replacementPolicy s →
  policy_inv None (set_policy s' (onLoad (replacementPolicy s') f)).
Proof.
  intros [H1 H2 H3] Hf Ho Ht Hpol. rewrite Hpol.
  destruct (load_lawful (replacementPolicy s) f H1) as [Hok Htr]. split; simpl.
  - done.
  - intros g Hg _. rewrite Htr. destruct (decide (f = g)) as [->|]; [set_solver|].
    destruct (Ho g Hg) as [->|?]; [done|]. apply elem_of_union_l. apply H2; [done|congruence].
  - intros g. rewrite Htr. unfold frame_of in *. simpl. rewrite Ht.
    intros [Hg|Hg]%elem_of_union; [by apply H3|]. apply elem_of_singleton in Hg as ->. done.
Qed.

Lemma policy_weaken f s : policy_inv None s → policy_inv (Some f) s.
Proof. intros [H1 H2 H3]. split; try done. intros g Hg _. by apply H2. Qed.

(** ** Flags and data of one page *)
Lemma inv_ext b fl s s' :
  inv b fl s →
  totalFrameCount s' = totalFrameCount s → mem_cells (memory s') = mem_cells (memory s) →
  freeFrames s' = freeFrames s → frameOwners s' = frameOwners s → swapSpace s' = swapSpace s →
  (∀ p, is_Some (pageTables s' !! p) ↔ is_Some (pageTables s !! p)) →
  (∀ p v e', pte_at s' p v = Some e' → ∃ e, pte_at s p v = Some e ∧
     present e' = present e ∧ frameId e' = frameId e) →
  (∀ p v e, pte_at s p v = Some e → ∃ e', pte_at s' p v = Some e' ∧
     present e' = present e ∧ frameId e' = frameId e) →
  inv b fl s'.
Proof.
  intros [It If Id Ifl Io Ip Ii Is Ib Ipos] Et Em Er Ef Es Ed Hb Hf.
  split; unfold frame_of in *; rewrite ?Et, ?Em, ?Er, ?Ef; try done.
  - intros f p Ho Hne. destruct (Io f p Ho Hne) as (v & e & He & Hp & Hfe).
    destruct (Hf _ _ _ He) as (e' & ? & E1 & E2). exists v, e'. by rewrite E1, E2.
  - intros p v e' He' Hp. destruct (Hb _ _ _ He') as (e & He & E1 & E2). rewrite E2.
    apply (Ip p v e); congruence.
  - intros p v1 v2 e1' e2' H1 H2 ???.
    destruct (Hb _ _ _ H1) as (e1 & ? & ? & ?), (Hb _ _ _ H2) as (e2 & ? & ? & ?).
    eapply (Ii p v1 v2 e1 e2); congruence.
  - intros p v. rewrite Es, Is. f_equiv. split.
    + intros (e & He & ?). destruct (Hf _ _ _ He) as (e' & ? & E & _). exists e'. by rewrite E.
    + intros (e' & He' & ?). destruct (Hb _ _ _ He') as (e & ? & E & _). exists e. by rewrite <-E.
  - intros q k Hk. destruct (Ib q k Hk) as [H1 H2]. split; [by apply Ed|].
    intros v e' He'. destruct (Hb _ _ _ He') as (e & He & -> & _). by apply H2.
  - intros p Hp. rewrite Ed in Hp. by apply Ipos.
Qed.

(** Rewriting one entry without moving its page. *)
Lemma inv_flags b fl s p va t e e' m :
  inv b fl s → pageTables s !! p = Some t → t !! va = Some e →
  present e' = present e → frameId e' = frameId e →
  mem_cells m = mem_cells (memory s) →
  let s' := set_memory (set_tables s (<[p := <[va := e']> t]> (pageTables s))) m in
  inv b fl s' ∧
  ∀ q v, pte_at s' q v = if decide (q = p ∧ v = va) then Some e' else pte_at s q v.
Proof.
  intros Hi Ht He Hp Hf Hm s'.
  assert (∀ q v, pte_at s' q v = if decide (q = p ∧ v = va) then Some e' else pte_at s q v) as Hpt.
  { intros q v. transitivity (pte_at (set_tables s (<[p := <[va := e']> t]> (pageTables s))) q v); [done|].
    rewrite pte_at_insert. destruct (decide (q = p)) as [->|].
    - unfold pte_at. rewrite Ht. simpl. case_decide as Hd.
      + destruct Hd as [_ ->]. apply list_lookup_insert_eq. by eapply lookup_lt_Some.
      + apply list_lookup_insert_ne. naive_solver.
    - by rewrite decide_False by naive_solver. }
  assert (pte_at s p va = Some e) as Hpte by (unfold pte_at; by rewrite Ht).
  split; [|done]. eapply inv_ext; [exact Hi|try done..].
  - intros q. simpl. rewrite lookup_insert_is_Some'. split; [|by right].
    intros [<-|?]; [by rewrite Ht|done].
  - intros q v e0. rewrite Hpt. case_decide as Hd; [|by eauto].
    destruct Hd as [-> ->]. intros [= <-]. eauto.
  - intros q v e0 He0. rewrite Hpt. case_decide as Hd; [|by eauto].
    destruct Hd as [-> ->]. exists e'. simplify_eq. done.
Qed.

Lemma policy_access s s' f :
  policy_inv None s → frame_of s f →
  frameOwners s' = frameOwners s → totalFrameCount s' = totalFrameCount s →
  replacementPolicy s' = onAccess (replacementPolicy s) f → policy_inv None s'.
Proof.
  intros [H1 H2 H3] Hf Ho Ht Hp. destruct (access_lawful (replacementPolicy s) f H1) as (Hok & Hs1 & Hs2).
  split; rewrite ?Hp, ?Ho.
  - done.
  - intros g Hg _. apply Hs1. by apply H2.
  - intros g Hg. unfold frame_of in *. rewrite Ht. apply Hs2 in Hg. set_unfold. naive_solver.
Qed.

(** ** Address spaces *)

(** The contents of every process's pages: what the rest of the kernel sees. *)
Definition spaces s : gmap Z (list Block) :=
  map_imap (λ p t, Some (imap (λ v _, default Block_default (view s p v)) t)) (pageTables s).

Lemma lookup_spaces s p :
  spaces s !! p = imap (λ v _, default Block_default (view s p v)) <$> pageTables s !! p.
Proof. unfold spaces. rewrite map_lookup_imap. by destruct (pageTables s !! p). Qed.

Lemma spaces_page s p l v :
  mmu_wf s → spaces s !! p = Some l → l !! v = view s p v.
Proof.
  intros [Hi _] Hl. rewrite lookup_spaces in Hl.
  destruct (pageTables s !! p) as [t|] eqn:Ht; [|done]. injection Hl as <-.
  rewrite list_lookup_imap.
  assert (is_Some (view s p v) ↔ is_Some (t !! v)) as Hv.
  { rewrite (view_is_Some _ _ _ _ _ Hi) by (by intros (k & ? & _)). unfold pte_at. by rewrite Ht. }
  destruct (t !! v) as [e|], (view s p v) as [b|]; simpl; try done.
  - by destruct (proj2 Hv ltac:(eauto)).
  - by destruct (proj1 Hv ltac:(eauto)).
Qed.
Lemma spaces_table s p l :
  spaces s !! p = Some l → ∃ t, pageTables s !! p = Some t ∧ length t = length l.
Proof.
  rewrite lookup_spaces. destruct (pageTables s !! p) as [t|]; [|done]. intros [= <-].
  exists t. by rewrite length_imap.
Qed.
Lemma spaces_None s p : spaces s !! p = None ↔ pageTables s !! p = None.
Proof. rewrite lookup_spaces. by destruct (pageTables s !! p). Qed.

(** Table shapes: which pages exist. *)
Definition shape s p : option nat := length <$> pageTables s !! p.

Lemma spaces_ext s s' :
  (∀ p, shape s' p = shape s p) → (∀ p v, view s' p v = view s p v) → spaces s' = spaces s.
Proof.
  intros Hs Hv. apply map_eq. intros p. rewrite !lookup_spaces. specialize (Hs p). unfold shape in Hs.
  destruct (pageTables s' !! p) as [t'|], (pageTables s !! p) as [t|]; simplify_eq/=; try done.
  f_equal. apply list_eq. intros v. rewrite !list_lookup_imap, Hv.
  destruct (t !! v) as [e|] eqn:E, (t' !! v) as [e'|] eqn:E'; try done; exfalso.
  - apply lookup_lt_Some in E. apply lookup_ge_None in E'. lia.
  - apply lookup_lt_Some in E'. apply lookup_ge_None in E. lia.
Qed.

Lemma spaces_insert s s' p l :
  (∀ q, q ≠ p → shape s' q = shape s q) → (∀ q v, q ≠ p → view s' q v = view s q v) →
  mmu_wf s' → shape s' p = Some (length l) → (∀ v, v < length l → view s' p v = l !! v) →
  spaces s' = <[p := l]> (spaces s).
Proof.
  intros Hs Hv Hw Hsp Hvp. apply map_eq. intros q. destruct (decide (q = p)) as [->|Hne].
  - rewrite lookup_insert_eq. destruct (spaces s' !! p) as [l'|] eqn:E.
    + destruct (spaces_table _ _ _ E) as (t & Ht & Hl). unfold shape in Hsp. rewrite Ht in Hsp.
      simplify_eq/=. f_equal. apply list_eq. intros v. rewrite (spaces_page _ _ _ _ Hw E).
      destruct (decide (v < length l)); [by apply Hvp|].
      rewrite (proj2 (lookup_ge_None l v)) by lia. rewrite <-(spaces_page _ _ _ _ Hw E).
      apply lookup_ge_None. lia.
    + apply spaces_None in E. unfold shape in Hsp. by rewrite E in Hsp.
  - rewrite lookup_insert_ne by done. rewrite !lookup_spaces. specialize (Hs q Hne). unfold shape in Hs.
    destruct (pageTables s' !! q) as [t'|], (pageTables s !! q) as [t|]; simplify_eq/=; try done.
    f_equal. apply list_eq. intros v. rewrite !list_lookup_imap, Hv by done.
    destruct (t !! v) as [e|] eqn:E, (t' !! v) as [e'|] eqn:E'; try done; exfalso.
    + apply lookup_lt_Some in E. apply lookup_ge_None in E'. lia.
    + apply lookup_lt_Some in E'. apply lookup_ge_None in E. lia.
Qed.

(** ** Resident pages *)

(** The pages that are in memory, by process and page number. *)
Definition residents s : gset (Z * nat) :=
  list_to_set (map_to_list (pageTables s) ≫= λ '(p, t),
    pair p <$> filter (λ v, present <$> t !! v = Some true) (seq 0 (length t))).

Lemma elem_of_residents s p v : (p, v) ∈ residents s ↔ ∃ e, pte_at s p v = Some e ∧ present e = true.
Proof.
  unfold residents. rewrite elem_of_list_to_set, list_elem_of_bind. split.
  - intros ([q t] & Hv & Ht%elem_of_map_to_list).
    apply list_elem_of_fmap in Hv as (w & [= <- <-] & [Hp _]%list_elem_of_filter).
    unfold pte_at. rewrite Ht. simpl. destruct (t !! v) as [e|]; [|done]. injection Hp as Hp. eauto.
  - intros (e & He & Hp). unfold pte_at in He. destruct (pageTables s !! p) as [t|] eqn:Ht; [|done].
    simpl in He. exists (p, t). split; [|by apply elem_of_map_to_list]. apply list_elem_of_fmap. exists v.
    split; [done|]. apply list_elem_of_filter. rewrite He. simpl. rewrite Hp. split; [done|].
    apply elem_of_seq. apply lookup_lt_Some in He. lia.
Qed.

(** Whatever keeps the entries of the tables keeps the resident pages. *)
Lemma residents_ext s' R :
  (∀ p v, (∃ e, pte_at s' p v = Some e ∧ present e = true) ↔ (p, v) ∈ R) → residents s' = R.
Proof. intros H. apply set_eq. intros [p v]. rewrite elem_of_residents. apply H. Qed.

Lemma residents_tables s s' : pageTables s' = pageTables s → residents s' = residents s.
Proof. unfold residents. by intros ->. Qed.

Lemma frames_count b fl s : inv b fl s → size (freeFrames s) + size (frameOwners s) = totalFrameCount s.
Proof.
  intros Hi. rewrite <-size_dom, <-size_union.
  2: { intros f Hf Ho. apply (i_disj _ _ _ Hi) in Hf. apply elem_of_dom in Ho as [? ?]. congruence. }
  assert (freeFrames s ∪ dom (frameOwners s) =
          list_to_set (Z.of_nat <$> seq 0 (totalFrameCount s))) as ->.
  { apply set_eq. intros f. rewrite elem_of_union, elem_of_dom, elem_of_list_to_set, list_elem_of_fmap.
    rewrite <-(i_frames _ _ _ Hi). unfold frame_of. split.
    - intros [? ?]. exists (Z.to_nat f). rewrite elem_of_seq. lia.
    - intros (k & -> & ?%elem_of_seq). lia. }
  rewrite size_list_to_set; [by rewrite length_fmap, length_seq|].
  apply NoDup_fmap_2; [intros ? ? ?; lia|apply NoDup_seq].
Qed.

(** Each frame in use holds one resident page. *)
Lemma residents_count b s : inv b None s → size (residents s) + size (freeFrames s) = totalFrameCount s.
Proof.
  intros Hi. rewrite <-(frames_count _ _ _ Hi), (Nat.add_comm (size (residents s))). f_equal.
  rewrite <-size_dom. unfold size at 1 2. unfold set_size. simpl.
  set (frame_at := λ x : Z * nat, default 0%Z (frameId <$> pte_at s x.1 x.2)).
  rewrite <-(length_fmap frame_at). apply Permutation_length, NoDup_Permutation.
  - apply NoDup_fmap_2_strong; [|apply NoDup_elements]. intros [p v] [q w].
    rewrite !elem_of_elements, !elem_of_residents. intros (e1 & H1 & P1) (e2 & H2 & P2).
    unfold frame_at. simpl. rewrite H1, H2. simpl. intros Hf.
    destruct (i_present _ _ _ Hi _ _ _ H1 P1) as [O1 _], (i_present _ _ _ Hi _ _ _ H2 P2) as [O2 _].
    assert (p = q) as <- by congruence. f_equal. by eapply (i_inj _ _ _ Hi p v w e1 e2).
  - apply NoDup_elements.
  - intros f. rewrite list_elem_of_fmap, elem_of_elements, elem_of_dom. split.
    + intros ([p v] & -> & Hin). rewrite elem_of_elements, elem_of_residents in Hin.
      destruct Hin as (e & He & Hp). unfold frame_at. simpl. rewrite He. simpl.
      destruct (i_present _ _ _ Hi _ _ _ He Hp) as [-> _]. done.
    + intros [p Hp]. destruct (i_owner _ _ _ Hi _ _ Hp) as (v & e & He & Hpe & Hf); [done|].
      exists (p, v). rewrite elem_of_elements, elem_of_residents. unfold frame_at. simpl. rewrite He. simpl.
      split; [done|eauto].
Qed.

(** Every resident page has a frame, so that there is room exactly when a frame
    is free. *)
Lemma residents_full b s : inv b None s →
  size (residents s) ≤ totalFrameCount s ∧ (set_begin (freeFrames s) = None ↔ size (residents s) = totalFrameCount s).
Proof.
  intros Hi. pose proof (residents_count _ _ Hi). split; [lia|]. rewrite set_begin_None, <-(leibniz_equiv_iff (freeFrames s)), <-size_empty_iff. lia.
Qed.

(** The pages of one process are not resident once its table is gone. *)
Lemma residents_no_table s p v : pageTables s !! p = None → (p, v) ∉ residents s.
Proof. rewrite elem_of_residents. unfold pte_at. intros -> (e & He & _). done. Qed.
End invariant.
