(* ===== verification/MmuProps.v ===== *)
(** * MmuProps: the MMU implements separate address spaces

    Whatever the replacement policy does, the MMU refines a map from processes
    to lists of blocks ([mem_spec]) with the set of the pages in memory
    ([res_spec]): contents survive swapping and eviction, an access faults
    exactly when its page is not in memory, and no process can reach the pages of
    another. *)
From S2P Require Import Prelude Core Arch Paging Mmu MmuInvariant.

Inductive mmu_op :=
| MRead (p : Z) (va : nat) | MWrite (p : Z) (va : nat) (b : Block)
| MAllocate (p : Z) (n : nat) | MDeallocate (p : Z)
| MSwapIn (p : Z) (va : nat) | MSwapOut (p : Z) (va : nat).

Inductive mmu_value := VBlock (b : Block) | VAddress (n : nat) | VDone.

Definition res_map {A B} (f : A → B) (r : Result A) : Result B :=
  match r with ok x => ok (f x) | error e => error e end.

(** ** The specification

    An address space is the list of its pages' contents.  [mem_spec] says what
    the operations do to contents, whatever is resident; [res_spec] says which
    pages are resident, and so when an access faults.  Left open are the page a
    replacement policy evicts, whether it finds a page of another process once
    the frames run out, and what fresh pages contain. *)
Definition page_op (o : mmu_op) : option (Z * nat) :=
  match o with
  | MRead p va | MWrite p va _ | MSwapIn p va | MSwapOut p va => Some (p, va)
  | _ => None
  end.

Inductive mem_spec : gmap Z (list Block) → mmu_op → Result mmu_value → gmap Z (list Block) → Prop :=
| ms_bad_pid A o p va : page_op o = Some (p, va) → A !! p = None →
    mem_spec A o (error ErrorCode.InvalidPid) A
| ms_bad_page A o p va l : page_op o = Some (p, va) → A !! p = Some l → l !! va = None →
    mem_spec A o (error ErrorCode.InvalidAddress) A
| ms_read A p va l b : A !! p = Some l → l !! va = Some b →
    mem_spec A (MRead p va) (ok (VBlock b)) A
| ms_read_fault A p va l b : A !! p = Some l → l !! va = Some b →
    mem_spec A (MRead p va) (error ErrorCode.SegmentationFault) A
| ms_write A p va b l old : A !! p = Some l → l !! va = Some old →
    mem_spec A (MWrite p va b) (ok VDone) (<[p := <[va := b]> l]> A)
| ms_write_fault A p va b l old : A !! p = Some l → l !! va = Some old →
    mem_spec A (MWrite p va b) (error ErrorCode.SegmentationFault) A
| ms_alloc_zero A p : mem_spec A (MAllocate p 0) (error ErrorCode.InvalidAddress) A
| ms_alloc_again A p n l : n ≠ 0 → A !! p = Some l →
    mem_spec A (MAllocate p n) (error ErrorCode.InvalidPid) A
| ms_alloc A p n l : n ≠ 0 → A !! p = None → length l = n →
    mem_spec A (MAllocate p n) (ok (VAddress 0)) (<[p := l]> A)
| ms_alloc_full A p n : n ≠ 0 → A !! p = None →
    mem_spec A (MAllocate p n) (error ErrorCode.OutOfMemory) A
| ms_dealloc_unknown A p : A !! p = None →
    mem_spec A (MDeallocate p) (error ErrorCode.InvalidPid) A
| ms_dealloc A p l : A !! p = Some l → mem_spec A (MDeallocate p) (ok VDone) (delete p A)
| ms_swap_in A p va l b : A !! p = Some l → l !! va = Some b → mem_spec A (MSwapIn p va) (ok VDone) A
| ms_swap_out A p va l b : A !! p = Some l → l !! va = Some b → mem_spec A (MSwapOut p va) (ok VDone) A.

(** The pages a process gets. *)
Definition pages (p : Z) (n : nat) : gset (Z * nat) := list_to_set (pair p <$> seq 0 n).

(** Which pages are resident, of [F] frames: an access succeeds on the resident
    pages and moves none; a page is brought in alone while there is room, and
    otherwise in the place of one other; an allocation evicts exactly as many
    pages as the frames are short of, and fails only if they are short. *)
Definition res_spec (F : nat) (R : gset (Z * nat)) (o : mmu_op) (r : Result mmu_value) (R' : gset (Z * nat)) : Prop :=
  match o, r with
  | MRead p va, _ | MWrite p va _, _ => R' = R ∧ (isOk r = true ↔ (p, va) ∈ R)
  | MSwapIn p va, ok _ =>
      if decide ((p, va) ∈ R) then R' = R
      else if decide (size R < F) then R' = R ∪ {[(p, va)]}
      else ∃ x, x ∈ R ∧ R' = R ∖ {[x]} ∪ {[(p, va)]}
  | MSwapOut p va, ok _ => R' = R ∖ {[(p, va)]}
  | MDeallocate p, ok _ => R' = filter (λ x, x.1 ≠ p) R
  | MAllocate p n, ok _ => ∃ out, out ⊆ R ∧ size out = size R + n - F ∧ R' = R ∖ out ∪ pages p n
  | MAllocate p n, error ErrorCode.OutOfMemory => R' ⊆ R ∧ F < size R + n
  | _, error _ => R' = R
  end.

Section totals.
Context {M Q : Type} `{HMem : !IMemory M} `{HPol : !IPageReplacementPolicy Q} `{HO : HashOrder}.
Implicit Types (s : mmu M Q) (p q f pid : Z) (va vp : nat).

Definition mmu_step s (o : mmu_op) : option (Result mmu_value * mmu M Q) :=
  match o with
  | MRead p va => let '(r, s') := read s p va in Some (res_map VBlock r, s')
  | MWrite p va b => let '(r, s') := write s p va b in Some (res_map (λ _, VDone) r, s')
  | MAllocate p n => let! (r, s') := allocate s p n in Some (res_map VAddress r, s')
  | MDeallocate p => let '(r, s') := deallocate s p in Some (res_map (λ _, VDone) r, s')
  | MSwapIn p va => let! (r, s') := swapIn s p va in Some (res_map (λ _, VDone) r, s')
  | MSwapOut p va => let '(r, s') := swapOut s p va in Some (res_map (λ _, VDone) r, s')
  end.

(** ** The number of frames stays *)
Lemma total_evict s f s' : evict s f = Some s' → totalFrameCount s' = totalFrameCount s.
Proof. unfold evict. intros H. binds H; by injection H as <-. Qed.
Lemma total_map_page s pid page f : totalFrameCount (map_page s pid page f) = totalFrameCount s.
Proof. unfold map_page. by destruct (pageTables s !! pid). Qed.
Lemma total_free_pages t s : totalFrameCount (free_pages t s) = totalFrameCount s.
Proof. revert s. induction t as [|e t IH]; intros s; simpl; [done|]. rewrite IH. by destruct (present e). Qed.
Lemma total_allocateFrame s pid : totalFrameCount (allocateFrame s pid).2 = totalFrameCount s.
Proof. unfold allocateFrame. by destruct (set_begin _). Qed.
Lemma total_select s pid t f s' : select_other s pid t = Some (f, s') → totalFrameCount s' = totalFrameCount s.
Proof. unfold select_other. intros H. binds H; by injection H as <- <-. Qed.

Lemma total_allocate_pages n page pid s r s' :
  allocate_pages n page pid s = Some (r, s') → totalFrameCount s' = totalFrameCount s.
Proof.
  revert page s. induction n as [|n IH]; intros page s; simpl; [by intros [= <- <-]|].
  pose proof (total_allocateFrame s pid) as Hf. destruct (allocateFrame s pid) as [f s1]. simpl in Hf.
  destruct (pageTables s1 !! pid) as [t|]; [|done]. cbn [mbind option_bind].
  destruct (f =? INVALID_FRAME)%Z; [|intros H%IH; simpl in H; by rewrite total_map_page in H; rewrite H].
  destruct (select_other s1 pid t) as [[v s2]|] eqn:Hs; [|done]. cbn [mbind option_bind].
  apply total_select in Hs. destruct (v =? INVALID_FRAME)%Z.
  - intros [= <- <-]. simpl. rewrite total_free_pages. congruence.
  - destruct (evict s2 v) as [s3|] eqn:He; [|done]. cbn [mbind option_bind]. apply total_evict in He.
    intros H%IH. simpl in H. rewrite total_map_page in H. simpl in H. congruence.
Qed.

Lemma total_step s o r s' : mmu_step s o = Some (r, s') → totalFrameCount s' = totalFrameCount s.
Proof.
  destruct o as [p va|p va b|p n|p|p va|p va]; cbn [mmu_step].
  - assert (totalFrameCount (read s p va).2 = totalFrameCount s) as Ht by (unfold read; by cases).
    destruct (read s p va). by intros [= <- <-].
  - assert (totalFrameCount (write s p va b).2 = totalFrameCount s) as Ht by (unfold write; by cases).
    destruct (write s p va b). by intros [= <- <-].
  - destruct (allocate s p n) as [[r1 s1]|] eqn:Ha; [|done]. cbn [mbind option_bind]. intros [= <- <-].
    revert Ha. unfold allocate. destruct (n =? 0)%nat; [by intros [= <- <-]|].
    destruct (pageTables s !! p); [by intros [= <- <-]|]. by intros ->%total_allocate_pages.
  - unfold deallocate. destruct (pageTables s !! p); intros [= <- <-]; [|done]. simpl. by rewrite total_free_pages.
  - assert (∀ s page f, totalFrameCount (restore_page s p page f) = totalFrameCount s) as Hr.
    { intros s0 page f. unfold restore_page. simpl. rewrite total_map_page. by destruct (swapSpace s0 !! _). }
    destruct (swapIn s p va) as [[r1 s1]|] eqn:Ha; [|done]. cbn [mbind option_bind]. intros [= <- <-].
    revert Ha. unfold swapIn. destruct (pageTables s !! p) as [t|]; [|by intros [= <- <-]].
    destruct (PageTable.getEntry t va) as [e|]; [|by intros [= <- <-]]. destruct (present e); [by intros [= <- <-]|].
    pose proof (total_allocateFrame s p) as Hf. destruct (allocateFrame s p) as [f s2]. simpl in Hf.
    intros H. binds H; injection H as <- <-; rewrite ?Hr; simpl; try done.
    match goal with He : evict _ _ = Some _ |- _ => apply total_evict in He; simpl in He end. congruence.
  - assert (totalFrameCount (swapOut s p va).2 = totalFrameCount s) as Ht by (unfold swapOut; by cases).
    destruct (swapOut s p va). by intros [= <- <-].
Qed.

End totals.

Section mmu_steps.
Context {M P : Type} `{HMem : !IMemory M} `{HLM : !LawfulMemory M}.
Context `{HPol : !IPageReplacementPolicy P} `{HLP : !LawfulPolicy P} `{HO : HashOrder}.
Implicit Types (s : mmu M P) (p q f : Z) (va vp : nat).

Definition step_ok s (o : mmu_op) : Prop :=
  ∃ r s', mmu_step s o = Some (r, s') ∧ mmu_wf s' ∧ mem_spec (spaces s) o r (spaces s') ∧
    res_spec (totalFrameCount s) (residents s) o r (residents s').

Lemma unchanged s o r : mmu_wf s → mmu_step s o = Some (r, s) →
  mem_spec (spaces s) o r (spaces s) →
  res_spec (totalFrameCount s) (residents s) o r (residents s) → step_ok s o.
Proof. intros. by exists r, s. Qed.

(** The page of an entry is resident when the entry is present. *)
Lemma resident_entry s p va t e :
  pageTables s !! p = Some t → t !! va = Some e → (p, va) ∈ residents s ↔ present e = true.
Proof.
  intros Ht He. rewrite elem_of_residents. unfold pte_at. rewrite Ht. simpl. rewrite He.
  split; [intros (e' & [= <-] & ?); done|eauto].
Qed.

(** An operation refused because there is no such page. *)
Lemma refused_page s o p va e F :
  page_op o = Some (p, va) → pte_at s p va = None → res_spec F (residents s) o (error e) (residents s).
Proof.
  intros Ho Hn. assert ((p, va) ∉ residents s) as Hr by (rewrite elem_of_residents, Hn; naive_solver).
  destruct o; simpl in *; simplify_eq; try done; naive_solver.
Qed.

(** Rewriting an entry without touching its presence keeps the residents. *)
Lemma residents_flags s s' p t va e e' :
  pageTables s !! p = Some t → t !! va = Some e → present e' = present e →
  pageTables s' = <[p := <[va := e']> t]> (pageTables s) → residents s' = residents s.
Proof.
  intros Ht He Hp Hts. apply residents_ext. intros q v. rewrite elem_of_residents.
  unfold pte_at. rewrite Hts. destruct (decide (q = p)) as [->|]; [|by rewrite lookup_insert_ne].
  rewrite lookup_insert_eq, Ht. simpl. destruct (decide (v = va)) as [->|]; [|by rewrite list_lookup_insert_ne].
  rewrite list_lookup_insert_eq, He by (by eapply lookup_lt_Some).
  split; intros (? & [= <-] & ?); eexists; (split; [done|congruence]).
Qed.

(** Clearing an entry drops its page. *)
Lemma residents_unmap s s' p t va :
  pageTables s !! p = Some t → is_Some (t !! va) →
  pageTables s' = <[p := <[va := pte_default]> t]> (pageTables s) → residents s' = residents s ∖ {[(p, va)]}.
Proof.
  intros Ht [e He] Hts. apply residents_ext. intros q v. rewrite elem_of_difference, elem_of_singleton, elem_of_residents.
  unfold pte_at. rewrite Hts. destruct (decide (q = p)) as [->|]; [|rewrite lookup_insert_ne by done; naive_solver].
  rewrite lookup_insert_eq, Ht. simpl. destruct (decide (v = va)) as [->|].
  - rewrite list_lookup_insert_eq by (by eapply lookup_lt_Some). naive_solver.
  - rewrite list_lookup_insert_ne by done. naive_solver.
Qed.

(** Mapping a page makes it resident. *)
Lemma residents_map s s' p t va f :
  pageTables s !! p = Some t → is_Some (t !! va) →
  pageTables s' = <[p := <[va := mapped_pte f]> t]> (pageTables s) → residents s' = residents s ∪ {[(p, va)]}.
Proof.
  intros Ht [e He] Hts. apply residents_ext. intros q v. rewrite elem_of_union, elem_of_singleton, elem_of_residents.
  unfold pte_at. rewrite Hts. destruct (decide (q = p)) as [->|]; [|rewrite lookup_insert_ne by done; naive_solver].
  rewrite lookup_insert_eq, Ht. simpl. destruct (decide (v = va)) as [->|].
  - rewrite list_lookup_insert_eq by (by eapply lookup_lt_Some). split; [by right|]. intros _. by eexists.
  - rewrite list_lookup_insert_ne by done. naive_solver.
Qed.

(** Dropping a table drops its pages. *)
Lemma residents_drop s s' p :
  pageTables s' = delete p (pageTables s) → residents s' = filter (λ x, x.1 ≠ p) (residents s).
Proof.
  intros Hts. apply residents_ext. intros q v. rewrite elem_of_filter, elem_of_residents. simpl.
  unfold pte_at. rewrite Hts. destruct (decide (q = p)) as [->|].
  - rewrite lookup_delete_eq. naive_solver.
  - rewrite lookup_delete_ne by done. naive_solver.
Qed.

(** The page an operation addresses: its table, its entry, its contents. *)
Lemma page_cases s o p va :
  mmu_wf s → page_op o = Some (p, va) →
  (pageTables s !! p = None ∧ mem_spec (spaces s) o (error ErrorCode.InvalidPid) (spaces s)) ∨
  (∃ t, pageTables s !! p = Some t ∧ t !! va = None ∧
     mem_spec (spaces s) o (error ErrorCode.InvalidAddress) (spaces s)) ∨
  (∃ t e l b, pageTables s !! p = Some t ∧ t !! va = Some e ∧ spaces s !! p = Some l ∧
     l !! va = Some b ∧ view s p va = Some b).
Proof.
  intros Hw Ho. destruct (spaces s !! p) as [l|] eqn:Hl.
  - right. destruct (spaces_table _ _ _ Hl) as (t & Ht & Hlen).
    destruct (t !! va) as [e|] eqn:He.
    + right. destruct (lookup_lt_is_Some_2 l va) as [b Hb].
      { rewrite <-Hlen. by eapply lookup_lt_Some. }
      exists t, e, l, b. rewrite <-(spaces_page _ _ _ _ Hw Hl). done.
    + left. exists t. split_and!; [done|done|]. eapply ms_bad_page; [done..|].
      apply lookup_ge_None in He. apply lookup_ge_None. lia.
  - left. split; [by apply spaces_None|]. by eapply ms_bad_pid.
Qed.

Lemma view_present s p va t e b :
  mmu_wf s → pageTables s !! p = Some t → t !! va = Some e → present e = true →
  view s p va = Some b → mem_read (memory s) (frameId e) = ok b ∧ frame_of s (frameId e).
Proof.
  intros [Hi _] Ht He Hp Hv.
  assert (pte_at s p va = Some e) as Hpte by (unfold pte_at; by rewrite Ht).
  split; [|by eapply present_frame]. unfold view in Hv. rewrite Hpte, Hp in Hv.
  destruct (mem_read _ _); by simplify_eq.
Qed.

Lemma shape_insert s p t t' q :
  pageTables s !! p = Some t → length t' = length t →
  shape (set_tables s (<[p := t']> (pageTables s))) q = shape s q.
Proof.
  intros Ht Hl. unfold shape. simpl. destruct (decide (q = p)) as [->|].
  - rewrite lookup_insert_eq, Ht. simpl. by rewrite Hl.
  - by rewrite lookup_insert_ne.
Qed.

Lemma read_step s p va : mmu_wf s → step_ok s (MRead p va).
Proof.
  intros Hw. pose proof (page_cases s (MRead p va) p va Hw eq_refl) as Hc.
  destruct Hc as [[Ht Hs]|[(t & Ht & He & Hs)|(t & e & l & b & Ht & He & Hl & Hb & Hv)]].
  - eapply unchanged; [exact Hw| |exact Hs|eapply refused_page; [done|unfold pte_at; by rewrite Ht]]. simpl. unfold read. by rewrite Ht.
  - eapply unchanged; [exact Hw| |exact Hs|eapply refused_page; [done|unfold pte_at; by rewrite Ht]]. simpl. unfold read, PageTable.translate. by rewrite Ht, He.
  - destruct (present e) eqn:Hp.
    2: { apply (unchanged s _ (error ErrorCode.SegmentationFault) Hw); [|by eapply ms_read_fault|].
         2: { split; [done|]. rewrite (resident_entry s p va t e) by done. by rewrite Hp. }
         simpl. unfold read, PageTable.translate. by rewrite Ht, He, Hp. }
    destruct (view_present _ _ _ _ _ _ Hw Ht He Hp Hv) as [Hr Hf].
    unfold step_ok. simpl. unfold read, PageTable.translate, PageTable.setReferenced.
    rewrite Ht, He, Hp. simpl. rewrite Hr.
    set (e' := MkPte _ _ _ _). set (s' := set_policy _ _).
    destruct Hw as [Hi Hpol].
    destruct (inv_flags _ _ s p va t e e' (memory s) Hi Ht He (eq_sym Hp) eq_refl eq_refl) as [Hi' Hpt].
    assert (mmu_wf s') as Hw'.
    { split; [|by eapply (policy_access s s' (frameId e))].
      eapply inv_ext; [exact Hi'|done..| |]; intros *; eauto. }
    eexists _, s'. split; [done|]. split; [done|]. simpl. split.
    2: { split; [by eapply (residents_flags s s' p t va e e')|]. rewrite (resident_entry s p va t e) by done. by rewrite Hp. }
    assert (spaces s' = spaces s) as ->; [|by eapply ms_read]. apply spaces_ext.
    + intros q. unfold s'. apply (shape_insert s p t); [done|]. by rewrite length_insert.
    + intros q v. unfold view. change (pte_at s' q v) with
        (pte_at (set_memory (set_tables s (<[p:=<[va:=e']> t]> (pageTables s))) (memory s)) q v).
      rewrite Hpt. case_decide as Hd; [|done]. destruct Hd as [-> ->].
      unfold pte_at. rewrite Ht. simpl. by rewrite He, Hp.
Qed.

(** A store into the frame of a present page, with any new flags, changes the
    view of that page only: no other page is in the frame. *)
Lemma store_view s p va t e e' b m :
  inv None None s → pageTables s !! p = Some t → t !! va = Some e → present e = true →
  present e' = true → frameId e' = frameId e →
  mem_write (memory s) (frameId e) b = (ok tt, m) →
  (∀ q v, pte_at (set_memory (set_tables s (<[p := <[va := e']> t]> (pageTables s))) m) q v =
     if decide (q = p ∧ v = va) then Some e' else pte_at s q v) →
  ∀ q v, view (set_memory (set_tables s (<[p := <[va := e']> t]> (pageTables s))) m) q v =
     if decide (q = p ∧ v = va) then Some b else view s q v.
Proof.
  intros Hi Ht He Hp Hp' Hf' Hwr Hpt q v.
  assert (pte_at s p va = Some e) as Hpte by (unfold pte_at; by rewrite Ht).
  destruct (present_frame _ _ _ _ _ _ Hi Hpte Hp) as [Hf0 _].
  unfold view. rewrite Hpt. case_decide as Hd.
  - pose proof (mem_read_write (memory s) (frameId e) b) as Hrd. rewrite Hwr in Hrd.
    rewrite Hp', Hf'. simpl in *. by rewrite Hrd.
  - destruct (pte_at s q v) as [e0|] eqn:He0; [|done]. destruct (present e0) eqn:Hp0; [|done].
    destruct (present_frame _ _ _ _ _ _ Hi He0 Hp0) as [H0 _].
    pose proof (mem_read_write_ne (memory s) (frameId e) (frameId e0) b) as Hne.
    rewrite Hwr in Hne. simpl in Hne. simpl. rewrite Hne; [done|done|done|]. intros Heq. apply Hd.
    destruct (i_present _ _ _ Hi _ _ _ He0 Hp0) as [Ho0 _].
    destruct (i_present _ _ _ Hi _ _ _ Hpte Hp) as [Ho _].
    assert (q = p) as -> by congruence. split; [done|]. by eapply (i_inj _ _ _ Hi p v va e0 e).
Qed.

(** Rewriting one byte of one address space, seen from the spaces. *)
Lemma spaces_store s s' p va l b :
  mmu_wf s → mmu_wf s' → spaces s !! p = Some l → (va < length l)%nat → (∀ q, shape s' q = shape s q) →
  (∀ q v, view s' q v = if decide (q = p ∧ v = va) then Some b else view s q v) →
  spaces s' = <[p := <[va := b]> l]> (spaces s).
Proof.
  intros Hw Hw' Hl Hva Hsh Hview. destruct (spaces_table _ _ _ Hl) as (t & Ht & Hlen).
  apply spaces_insert; [done| |done| |].
  - intros q v Hne. rewrite Hview, decide_False; [done|naive_solver].
  - rewrite Hsh, length_insert, <-Hlen. unfold shape. by rewrite Ht.
  - intros v Hv'. rewrite Hview. rewrite length_insert in Hv'. destruct (decide (v = va)) as [->|].
    + rewrite decide_True by done. by rewrite list_lookup_insert_eq.
    + rewrite decide_False by naive_solver. rewrite list_lookup_insert_ne by done.
      by rewrite (spaces_page _ _ _ _ Hw Hl).
Qed.

Lemma write_step s p va b : mmu_wf s → step_ok s (MWrite p va b).
Proof.
  intros Hw. pose proof (page_cases s (MWrite p va b) p va Hw eq_refl) as Hc.
  destruct Hc as [[Ht Hs]|[(t & Ht & He & Hs)|(t & e & l & old & Ht & He & Hl & Hb & Hv)]].
  - eapply unchanged; [exact Hw| |exact Hs|eapply refused_page; [done|unfold pte_at; by rewrite Ht]]. simpl. unfold write. by rewrite Ht.
  - eapply unchanged; [exact Hw| |exact Hs|eapply refused_page; [done|unfold pte_at; by rewrite Ht]]. simpl. unfold write, PageTable.translate. by rewrite Ht, He.
  - destruct (present e) eqn:Hp.
    2: { apply (unchanged s _ (error ErrorCode.SegmentationFault) Hw); [|by eapply ms_write_fault|].
         2: { split; [done|]. rewrite (resident_entry s p va t e) by done. by rewrite Hp. }
         simpl. unfold write, PageTable.translate. by rewrite Ht, He, Hp. }
    destruct (view_present _ _ _ _ _ _ Hw Ht He Hp Hv) as [Hr [Hf0 Hf1]].
    unfold step_ok. simpl. unfold write, PageTable.translate, PageTable.setReferenced, PageTable.setDirty.
    rewrite Ht, He, Hp. simpl. rewrite list_lookup_insert_eq by (by eapply lookup_lt_Some).
    simpl. rewrite list_insert_insert_eq. set (e' := MkPte _ _ _ _).
    pose proof Hw as [Hi Hpol]. destruct (i_total _ _ _ Hi) as [Htot _].
    destruct (mem_write (memory s) (frameId e) b) as [r m] eqn:Hwr.
    assert (isOk r = true) as Hok.
    { pose proof (mem_write_bound (memory s) (frameId e) b Hf0) as Hbd. rewrite Hwr in Hbd. simpl in Hbd.
      rewrite Hbd. apply Z.ltb_lt. lia. }
    destruct r as [[]|]; [|done]. set (s' := set_memory _ _).
    destruct (inv_flags _ _ s p va t e e' m Hi Ht He (eq_sym Hp) eq_refl) as [Hi' Hpt].
    { pose proof (mem_write_cells (memory s) (frameId e) b) as Hcl. by rewrite Hwr in Hcl. }
    assert (mmu_wf s') as Hw'.
    { split; [|by eapply (policy_access s s' (frameId e))].
      eapply inv_ext; [exact Hi'|done..| |]; intros *; eauto. }
    eexists _, s'. split; [done|]. split; [done|]. simpl. split.
    2: { split; [by eapply (residents_flags s s' p t va e e')|]. rewrite (resident_entry s p va t e) by done. by rewrite Hp. }
    assert (spaces s' = <[p := <[va := b]> l]> (spaces s)) as ->; [|by eapply ms_write].
    apply spaces_store; [done|done|done|by eapply lookup_lt_Some| |].
    + intros q. apply (shape_insert s p t); [done|]. by rewrite length_insert.
    + exact (store_view s p va t e e' b m Hi Ht He Hp eq_refl eq_refl Hwr Hpt).
Qed.

(** A frame in flight can be put back. *)
Lemma free_flight s f :
  inv None (Some f) s → inv None None (freeFrame s f).
Proof.
  intros [It If Id Ifl Io Ip Ii Is Ib Ipos]. unfold freeFrame. split; simpl; try done.
  - intros g. unfold frame_of in *. simpl. rewrite If, lookup_delete_is_Some.
    destruct (decide (g = f)) as [->|Hne]; [|set_solver].
    split; [intros _; left; set_solver|]. intros _. right. by apply Ifl.
  - intros g [Hg|Hg]%elem_of_union; [|apply elem_of_singleton in Hg as ->; apply lookup_delete_eq].
    destruct (decide (g = f)) as [->|]; [apply lookup_delete_eq|].
    rewrite lookup_delete_ne by done. by apply Id.
  - intros g p [Hne Hg]%lookup_delete_Some _. apply Io; [done|congruence].
  - intros p vp e He Hp. destruct (Ip _ _ _ He Hp) as [Ho Hfl].
    rewrite lookup_delete_ne by congruence. done.
Qed.

Lemma swapOut_step s p va : mmu_wf s → step_ok s (MSwapOut p va).
Proof.
  intros Hw. pose proof (page_cases s (MSwapOut p va) p va Hw eq_refl) as Hc.
  destruct Hc as [[Ht Hs]|[(t & Ht & He & Hs)|(t & e & l & b & Ht & He & Hl & Hb & Hv)]].
  - eapply unchanged; [exact Hw| |exact Hs|eapply refused_page; [done|unfold pte_at; by rewrite Ht]]. simpl. unfold swapOut. by rewrite Ht.
  - eapply unchanged; [exact Hw| |exact Hs|eapply refused_page; [done|unfold pte_at; by rewrite Ht]]. simpl. unfold swapOut, PageTable.getEntry. by rewrite Ht, He.
  - destruct (present e) eqn:Hp.
    2: { apply (unchanged s _ (ok VDone) Hw); [|by eapply ms_swap_out|].
         2: { simpl. assert ((p, va) ∉ residents s) by (rewrite (resident_entry s p va t e) by done; by rewrite Hp). set_solver. }
         simpl. unfold swapOut, PageTable.getEntry. by rewrite Ht, He, Hp. }
    destruct (view_present _ _ _ _ _ _ Hw Ht He Hp Hv) as [Hr Hf].
    unfold step_ok. simpl. unfold swapOut, PageTable.getEntry, PageTable.unmap.
    rewrite Ht, He, Hp, Hr. simpl.
    pose proof Hw as [Hi Hpol]. set (f := frameId e) in *.
    assert (frameOwners s !! f = Some p) as Hof.
    { apply (i_present _ _ _ Hi p va e); [unfold pte_at; by rewrite Ht|done]. }
    destruct (evict_inv None s f p t va e b p Hi Hof ltac:(done) Ht He Hp eq_refl Hr) as [Hi1 Hv1].
    apply free_flight in Hi1. set (s1 := set_frames _ _ _) in *.
    set (s' := freeFrame _ _).
    assert (freeFrame s1 f = s') as Heq.
    { unfold s', s1, freeFrame, evicted, set_frames. simpl. by rewrite delete_insert_eq. }
    rewrite Heq in Hi1. eexists _, s'. split; [done|]. split.
    + split; [done|]. destruct Hpol as [H1 H2 H3]. split; [done| |done].
      intros g Hg _. apply H2; [|done]. unfold s' in Hg. simpl in Hg.
      by apply lookup_delete_is_Some in Hg as [_ ?].
    + split; [|by eapply (residents_unmap s s' p t va)].
      simpl. assert (spaces s' = spaces s) as ->; [|by eapply ms_swap_out].
      rewrite <-Heq. apply spaces_ext.
      * intros q. apply (shape_insert s p t); [done|]. by rewrite length_insert.
      * intros q v. rewrite <-Hv1. done.
Qed.

Lemma deallocate_step s p : mmu_wf s → step_ok s (MDeallocate p).
Proof.
  intros Hw. pose proof Hw as [Hi Hpol]. unfold step_ok. simpl. unfold deallocate.
  destruct (pageTables s !! p) as [t|] eqn:Ht.
  2: { exists (error ErrorCode.InvalidPid), s. split_and!; [done|done| |done].
       apply ms_dealloc_unknown. by apply spaces_None. }
  destruct (free_pages_spec t s) as (E1&E2&E3&E4&E5&E6&E7).
  set (sw := filter _ _).
  assert (∀ q v, sw !! (q, v) = if decide (q = p) then None else swapSpace s !! (q, v)) as Hsw.
  { intros q v. unfold sw. rewrite E4. case_decide as Hd.
    - apply map_lookup_filter_None. right. intros x _. simpl. tauto.
    - apply option_eq. intros x. rewrite map_lookup_filter_Some. simpl. tauto. }
  destruct (drop_process_inv None None s p t sw Hi eq_refl Ht (or_introl eq_refl) Hsw) as [Hi' Hv'].
  set (s' := set_tables _ _) in *. eexists _, s'. split; [done|]. split; [split; [done|]|].
  - destruct Hpol as [H1 H2 H3]. split; simpl; rewrite ?E2; [done| |].
    + intros f [q Hq] _. apply H2; [|done]. apply E7 in Hq as [-> _]. done.
    + intros f Hf. apply H3 in Hf. unfold frame_of in *. simpl. by rewrite E5.
  - split; [|apply residents_drop; unfold s'; simpl; by rewrite E3].
    simpl. destruct (spaces s !! p) as [l|] eqn:Hl.
    2: { apply spaces_None in Hl. congruence. }
    assert (spaces s' = delete p (spaces s)) as ->; [|by eapply ms_dealloc].
    apply map_eq. intros q. destruct (decide (q = p)) as [->|Hne].
    + rewrite lookup_delete_eq. apply spaces_None. unfold s'. simpl. apply lookup_delete_eq.
    + rewrite lookup_delete_ne, !lookup_spaces by done. unfold s' at 2. simpl.
      rewrite lookup_delete_ne, E3 by done. destruct (pageTables s !! q) as [t'|]; [|done]. simpl.
      f_equal. apply imap_ext. intros v e _. by rewrite Hv', decide_False.
Qed.

(** ** Frames for a page: free, or taken from the policy's victim *)

(** The flight state a page is mapped from: the view is the old one. *)
Record flight_ok (b : option (Z * nat)) s (pid f : Z) (out : gset (Z * nat)) s' : Prop := {
  fo_inv : inv b (Some f) s';
  fo_policy : policy_inv (Some f) s';
  fo_owner : frameOwners s' !! f = Some pid;
  fo_shape q : shape s' q = shape s q;
  fo_view q v : view s' q v = view s q v;
  fo_frame : frame_of s' f;
  fo_res : residents s' = residents s ∖ out;
  fo_total : totalFrameCount s' = totalFrameCount s
}.

Lemma flight_free b s pid f :
  inv b None s → policy_inv None s → set_begin (freeFrames s) = Some f →
  ∃ s', allocateFrame s pid = (f, s') ∧ f ≠ INVALID_FRAME ∧ flight_ok b s pid f ∅ s'.
Proof.
  intros Hi Hp Hb. pose proof (allocateFrame_spec b s pid Hi) as Ha. rewrite Hb in Ha.
  destruct Ha as (-> & Hi' & Hne & Hno). eexists. split; [done|]. split; [done|].
  assert (frame_of s f) as Hf.
  { apply (i_frames _ _ _ Hi). left. by apply set_begin_Some in Hb. }
  split; try done.
  - destruct Hp as [H1 H2 H3]. split; [done| |done]. simpl. intros g Hg Hgf.
    apply lookup_insert_is_Some' in Hg as [<-|Hg]; [done|]. by apply H2.
  - simpl. by rewrite lookup_insert_eq.
  - rewrite difference_empty_L. by apply residents_tables.
Qed.

Lemma flight_evict b s pid f q :
  inv b None s → policy_inv (Some f) s → frameOwners s !! f = Some q → (∀ k, b ≠ Some (q, k)) →
  frame_of s f →
  ∃ s' vp, evict s f = Some s' ∧ (q, vp) ∈ residents s ∧
    flight_ok b s pid f {[(q, vp)]} (set_frames s' (freeFrames s') (<[f := pid]> (frameOwners s'))).
Proof.
  intros Hi Hp Hf Hb Hfr.
  destruct (evict_spec b s f q Hi Hf) as (t & vp & e & c & Ht & He & Hpe & Hfe & Hc & ->).
  eexists _, vp. split; [done|]. split; [by rewrite (resident_entry s q vp t e)|].
  destruct (evict_inv b s f q t vp e c pid Hi Hf Hb Ht He Hpe Hfe Hc) as [Hi' Hv'].
  split; [exact Hi'| |by simpl; rewrite lookup_insert_eq| |exact Hv'|exact Hfr|by eapply residents_unmap|done].
  - destruct Hp as [H1 H2 H3]. split; [done| |done]. simpl. intros g Hg Hgf.
    apply lookup_insert_is_Some' in Hg as [<-|Hg]; [done|]. by apply H2.
  - intros p. apply (shape_insert s q t); [done|]. by rewrite length_insert.
Qed.

Lemma shape_pte s s' q : shape s' q = shape s q → ∀ v, is_Some (pte_at s' q v) ↔ is_Some (pte_at s q v).
Proof.
  unfold shape, pte_at. destruct (pageTables s' !! q), (pageTables s !! q); intros Hs v; simplify_eq/=; try done.
  rewrite !lookup_lt_is_Some. by rewrite Hs.
Qed.

(** The end of [swapIn]. *)
Lemma restore_ok s s1 p va f b out :
  mmu_wf s → flight_ok None s p f out s1 → view s p va = Some b →
  (∀ e, pte_at s1 p va = Some e → present e = false) →
  mmu_wf (restore_page s1 p va f) ∧ spaces (restore_page s1 p va f) = spaces s ∧
  residents (restore_page s1 p va f) = residents s ∖ out ∪ {[(p, va)]}.
Proof.
  intros Hw [Hi Hpol Ho Hsh Hv Hfr Hres Htotal] Hb Habs. pose proof Hw as [Hi0 _].
  assert (is_Some (pte_at s p va)) as Hs.
  { rewrite <-(view_is_Some _ _ _ _ _ Hi0) by (by intros (?&?&_)). by rewrite Hb. }
  rewrite <-(shape_pte s s1) in Hs by done. destruct Hs as [e He].
  pose proof (Habs e He) as Hpe.
  assert (swapSpace s1 !! (p, va) = Some b) as Hsw.
  { rewrite <-Hb, <-Hv. unfold view. by rewrite He, Hpe. }
  unfold restore_page. rewrite Hsw.
  unfold pte_at in He. destruct (pageTables s1 !! p) as [t|] eqn:Ht; [|done]. simpl in He.
  destruct (i_total _ _ _ Hi) as [Htot _]. pose proof Hfr as [Hf0 Hf1].
  set (m := (mem_write (memory s1) f b).2).
  assert (mem_read m f = ok b) as Hrd.
  { apply mem_read_write. rewrite mem_write_bound by done. apply Z.ltb_lt. lia. }
  destruct (map_inv None None s1 m (delete (p, va) (swapSpace s1)) p va t e f b Hi Ho Ht He Hpe
    (mem_write_cells _ _ _) Hrd (λ g Hg Hne, mem_read_write_ne (memory s1) f g b Hf0 Hg (not_eq_sym Hne))
    eq_refl (or_introl (conj eq_refl eq_refl))) as [Hi' Hv'].
  set (s2 := map_page (set_swap (set_memory s1 m) (delete (p, va) (swapSpace s1))) p va f) in *.
  change (set_memory (set_swap s1 (delete (p, va) (swapSpace s1))) m)
    with (set_swap (set_memory s1 m) (delete (p, va) (swapSpace s1))) || idtac.
  assert (frameOwners s2 = frameOwners s1 ∧ totalFrameCount s2 = totalFrameCount s1 ∧
    replacementPolicy s2 = replacementPolicy s1 ∧ residents s2 = residents s1 ∪ {[(p, va)]} ∧
    ∀ q, shape s2 q = shape s1 q) as (Ef & Et & Ep & Er & Es).
  { unfold s2, map_page. simpl. rewrite Ht. unfold PageTable.map. rewrite He. split_and!; try done.
    { by eapply (residents_map s1 _ p t va f). }
    intros q. apply (shape_insert s1 p t); [done|]. simpl. by rewrite length_insert. }
  split; [split|].
  - eapply inv_ext; [exact Hi'|done..| |]; intros *; eauto.
  - apply (policy_load s1 s2 f); [done|done| |done|done]. intros g. rewrite Ef. by right.
  - split; [apply spaces_ext|].
    + intros q. change (shape s2 q = shape s q). by rewrite Es, Hsh.
    + intros q v. change (view s2 q v = view s q v). rewrite Hv'.
      case_decide as Hd; [destruct Hd as [-> ->]; by rewrite Hb|apply Hv].
    + change (residents s2 = residents s ∖ out ∪ {[(p, va)]}). by rewrite Er, Hres.
Qed.

(** With no free frame, the victim's frame takes the page: the branch of
    [swapIn] that evicts. *)
Lemma swapIn_evicts s p va t e b v pol :
  mmu_wf s → pageTables s !! p = Some t → t !! va = Some e → present e = false → view s p va = Some b →
  policy_inv (Some v) (set_policy s pol) → frame_of s v → is_Some (frameOwners s !! v) →
  ∃ s3 x, evict (set_policy s pol) v = Some s3 ∧ x ∈ residents s ∧
    let s4 := set_frames s3 (freeFrames s3) (<[v := p]> (frameOwners s3)) in
    mmu_wf (restore_page s4 p va v) ∧ spaces (restore_page s4 p va v) = spaces s ∧
    residents (restore_page s4 p va v) = residents s ∖ {[x]} ∪ {[(p, va)]}.
Proof.
  intros Hw Ht He Hp Hv Hpol1 Hfr [q Hq]. pose proof Hw as [Hi _].
  assert (pte_at s p va = Some e) as Hpte by (unfold pte_at; by rewrite Ht).
  assert (inv None None (set_policy s pol)) as Hi1 by
    (eapply inv_ext; [exact Hi|done..| |]; intros *; eauto).
  destruct (flight_evict None (set_policy s pol) p v q Hi1 Hpol1 Hq ltac:(done) Hfr) as (s3 & vp & Hev & Hin & Hfl).
  exists s3, (q, vp). split; [done|]. split; [exact Hin|]. cbv zeta. apply (restore_ok s _ p va v b _ Hw).
  - destruct Hfl as [F1 F2 F3 F4 F5 F6 F7 F8]. by split.
  - done.
  - intros e1 He1. destruct (evict_spec None (set_policy s pol) v q Hi1 Hq)
      as (t1 & vp' & e2 & c & Ht1 & He2 & Hp2 & _ & _ & Hev'). rewrite Hev in Hev'. injection Hev' as ->.
    pose proof (evicted_pte (set_policy s pol) q vp' c t1 p va Ht1 ltac:(eauto)) as Hpe.
    change (pte_at (evicted (set_policy s pol) q vp' c t1) p va = Some e1) in He1.
    rewrite Hpe in He1. case_decide; [by simplify_eq|].
    change (pte_at s p va = Some e1) in He1. congruence.
Qed.

Lemma swapIn_step s p va : mmu_wf s → step_ok s (MSwapIn p va).
Proof.
  intros Hw. pose proof (page_cases s (MSwapIn p va) p va Hw eq_refl) as Hc.
  destruct Hc as [[Ht Hs]|[(t & Ht & He & Hs)|(t & e & l & b & Ht & He & Hl & Hb & Hv)]].
  - eapply unchanged; [exact Hw| |exact Hs|eapply refused_page; [done|unfold pte_at; by rewrite Ht]]. simpl. unfold swapIn. by rewrite Ht.
  - eapply unchanged; [exact Hw| |exact Hs|eapply refused_page; [done|unfold pte_at; by rewrite Ht]]. simpl. unfold swapIn, PageTable.getEntry. by rewrite Ht, He.
  - pose proof (ms_swap_in (spaces s) p va l b Hl Hb) as Hspec.
    destruct (present e) eqn:Hp.
    { apply (unchanged s _ (ok VDone) Hw); [|done|].
      2: { simpl. rewrite decide_True; [done|]. by rewrite (resident_entry s p va t e). }
      simpl. unfold swapIn, PageTable.getEntry. by rewrite Ht, He, Hp. }
    pose proof Hw as [Hi Hpol]. unfold step_ok. simpl. unfold swapIn, PageTable.getEntry.
    rewrite Ht, He, Hp. pose proof (allocateFrame_spec None s p Hi) as Ha.
    assert (pte_at s p va = Some e) as Hpte by (unfold pte_at; by rewrite Ht).
    assert ((p, va) ∉ residents s) as Hout by (rewrite (resident_entry s p va t e) by done; by rewrite Hp).
    destruct (residents_full _ _ Hi) as [Hle Hfull].
    destruct (set_begin (freeFrames s)) as [f|] eqn:Hbeg.
    + destruct (flight_free None s p f Hi Hpol Hbeg) as (s1 & Hal & Hne & Hfl).
      rewrite Hal. destruct (Z.eqb_spec f INVALID_FRAME); [done|].
      destruct (restore_ok s s1 p va f b _ Hw Hfl Hv) as (Hw' & Hsp & Hr').
      { intros e1 He1. destruct Ha as (Hal' & _). rewrite Hal in Hal'. injection Hal' as ->.
        change (pte_at s p va = Some e1) in He1. congruence. }
      eexists _, _. split; [done|]. split; [done|]. rewrite Hsp, Hr', difference_empty_L. split; [done|].
      simpl. rewrite decide_False by done. rewrite decide_True; [done|].
      assert (size (residents s) ≠ totalFrameCount s) by (intros E%Hfull; done). lia.
    + destruct Ha as [-> Hall]. rewrite Z.eqb_refl.
      destruct (victim_spec None s t Hi Hpol) as (v & pol & -> & Hsel).
      assert (0 < totalFrameCount s) as Hpos.
      { apply (i_pos _ _ _ Hi p); [by rewrite Ht|done]. }
      destruct Hsel as [(_ & Hnone & _)|(Hne & Hfr & Hpol1)].
      { assert (is_Some (frameOwners s !! 0%Z)) as [? Hx] by (apply Hall; unfold frame_of; lia).
        by rewrite Hnone in Hx. }
      destruct (Z.eqb_spec v INVALID_FRAME); [done|].
      destruct (swapIn_evicts s p va t e b v pol Hw Ht He Hp Hv Hpol1 Hfr (proj1 (Hall v) Hfr))
        as (s3 & x & -> & Hx & Hw' & Hsp & Hr').
      eexists _, _. split; [done|]. split; [done|]. rewrite Hsp, Hr'. split; [done|].
      simpl. rewrite decide_False by done. rewrite decide_False; [by exists x|].
      rewrite (proj1 Hfull eq_refl). lia.
Qed.

(** ** Allocation *)

Lemma elem_of_pages p n q v : (q, v) ∈ pages p n ↔ q = p ∧ v < n.
Proof.
  unfold pages. rewrite elem_of_list_to_set, list_elem_of_fmap. split.
  - intros (w & [= -> ->] & Hw%elem_of_seq). split; [done|lia].
  - intros [-> ?]. exists v. rewrite elem_of_seq. split; [done|lia].
Qed.
Lemma size_pages p n : size (pages p n) = n.
Proof.
  unfold pages. rewrite size_list_to_set; [by rewrite length_fmap, length_seq|].
  apply NoDup_fmap_2; [by intros ? ? [= ->]|apply NoDup_seq].
Qed.

(** The state between two pages of [allocate]: [k] of the [N] pages of [pid]
    are mapped, every other process sees what it saw at the start, and the
    pages evicted so far are as many as the frames were short of. *)
Record building s0 (pid : Z) (N k : nat) s : Prop := {
  bd_inv : inv (Some (pid, k)) None s;
  bd_policy : policy_inv None s;
  bd_shape : shape s pid = Some N;
  bd_others q : q ≠ pid → shape s q = shape s0 q;
  bd_view q v : q ≠ pid → view s q v = view s0 q v;
  bd_total : totalFrameCount s = totalFrameCount s0;
  bd_res : ∃ out, out ⊆ residents s0 ∧ size out = size (residents s0) + k - totalFrameCount s0 ∧
    residents s = residents s0 ∖ out ∪ pages pid k
}.

(** The residents so far, counted. *)
Lemma building_size s0 s pid k out :
  pageTables s0 !! pid = None → out ⊆ residents s0 → residents s = residents s0 ∖ out ∪ pages pid k →
  size (residents s) = size (residents s0) - size out + k.
Proof.
  intros H0 Hsub ->. rewrite size_union; [by rewrite size_difference, size_pages|].
  intros [q v] [Hq _]%elem_of_difference [-> _]%elem_of_pages. by apply (residents_no_table s0 pid v).
Qed.

(** One more page, in a free frame or in the place of another process's page. *)
Lemma building_evicts s0 pid N k s out1 :
  building s0 pid N k s → pageTables s0 !! pid = None →
  (out1 = ∅ ∧ set_begin (freeFrames s) ≠ None ∨
   ∃ q v, out1 = {[(q, v)]} ∧ (q, v) ∈ residents s ∧ q ≠ pid ∧ set_begin (freeFrames s) = None) →
  ∃ out, out ⊆ residents s0 ∧ size out = size (residents s0) + S k - totalFrameCount s0 ∧
    residents s ∖ out1 ∪ {[(pid, k)]} = residents s0 ∖ out ∪ pages pid (S k).
Proof.
  intros [Hbi _ _ _ _ Ht (out & Hsub & Hsz & Hres)] H0 Hout.
  pose proof (building_size s0 s pid k out H0 Hsub Hres) as Hcount.
  destruct (residents_full _ _ Hbi) as [Hle Hfull]. rewrite Ht in *.
  assert (size out ≤ size (residents s0)) by by apply subseteq_size.
  assert (∀ q v, (q, v) ∈ pages pid (S k) ↔ (q, v) ∈ pages pid k ∨ (q, v) = (pid, k)) as HS.
  { intros q v. rewrite !elem_of_pages. split; [|intros [|[= -> ->]]; lia].
    intros [-> ?]. destruct (decide (v = k)) as [->|]; [by right|left; lia]. }
  destruct Hout as [[-> Hroom]|(q & v & -> & Hin & Hq & Hno)].
  - assert (size (residents s) ≠ totalFrameCount s0) by (intros E%Hfull; done).
    exists out. split_and!; [done|lia|]. rewrite difference_empty_L, Hres. apply set_eq.
    intros [a b]. rewrite !elem_of_union, HS, elem_of_singleton. tauto.
  - apply Hfull in Hno. rewrite Hres, elem_of_union, elem_of_difference, elem_of_pages in Hin.
    destruct Hin as [[Hin Hno']|[-> _]]; [|done].
    exists (out ∪ {[(q, v)]}). split_and!; [by apply union_subseteq; split; [|apply singleton_subseteq_l]| |].
    + rewrite size_union by by apply disjoint_singleton_r. rewrite size_singleton. lia.
    + apply set_eq. intros [a b]. rewrite Hres, !elem_of_union, !elem_of_difference, HS, elem_of_union, elem_of_difference.
      rewrite not_elem_of_union, !elem_of_singleton.
      assert ((a, b) ∈ pages pid k → (a, b) ≠ (q, v)) by (intros [-> _]%elem_of_pages; congruence). tauto.
Qed.

Lemma building_next s0 pid N k s s1 f out1 :
  building s0 pid N k s → k < N → flight_ok (Some (pid, k)) s pid f out1 s1 → pageTables s0 !! pid = None →
  (out1 = ∅ ∧ set_begin (freeFrames s) ≠ None ∨
   ∃ q v, out1 = {[(q, v)]} ∧ (q, v) ∈ residents s ∧ q ≠ pid ∧ set_begin (freeFrames s) = None) →
  let s2 := map_page s1 pid k f in
  building s0 pid N (S k) (set_policy s2 (onLoad (replacementPolicy s2) f)).
Proof.
  intros Hb Hk [Hi Hpol Ho Hsh Hv Hfr Hres Htot] Hnone Hout s2.
  destruct (building_evicts _ _ _ _ _ _ Hb Hnone Hout) as (out & Hsub & Hsz & Hres').
  destruct Hb as [Hbi Hbp Hbs Hbo Hbv Hbt _].
  pose proof (Hsh pid) as Hsp. rewrite Hbs in Hsp. unfold shape in Hsp.
  destruct (pageTables s1 !! pid) as [t|] eqn:Ht; [|done]. simpl in Hsp. injection Hsp as Hlen.
  destruct (lookup_lt_is_Some_2 t k) as [e He]; [lia|].
  assert (pte_at s1 pid k = Some e) as Hpte by (unfold pte_at; by rewrite Ht).
  assert (present e = false) as Hpe.
  { destruct (i_build _ _ _ Hi pid k eq_refl) as [_ Hb]. rewrite (Hb _ _ Hpte). apply Nat.ltb_irrefl. }
  assert (swapSpace s1 !! (pid, k) = None) as Hsw.
  { apply eq_None_not_Some. intros Hs. apply (i_swap _ _ _ Hi) in Hs as [_ Hn].
    apply Hn. exists k. split; [done|lia]. }
  destruct (frame_readable _ _ _ _ Hi Hfr) as [c Hc].
  destruct (map_inv (Some (pid, k)) (Some (pid, S k)) s1 (memory s1) (swapSpace s1) pid k t e f c Hi Ho
    Ht He Hpe eq_refl Hc ltac:(done) (eq_sym (delete_id _ _ Hsw)) (or_intror (conj eq_refl eq_refl)))
    as [Hi' Hv'].
  assert (set_swap (set_memory s1 (memory s1)) (swapSpace s1) = s1) as Hid by by destruct s1.
  rewrite Hid in Hi', Hv'. fold s2 in Hi', Hv'.
  assert (frameOwners s2 = frameOwners s1 ∧ totalFrameCount s2 = totalFrameCount s1 ∧
    replacementPolicy s2 = replacementPolicy s1 ∧ residents s2 = residents s1 ∪ {[(pid, k)]} ∧
    ∀ q, shape s2 q = shape s1 q) as (Ef & Et & Ep & Er & Es).
  { unfold s2, map_page. rewrite Ht. unfold PageTable.map. rewrite He. split_and!; try done.
    { by eapply (residents_map s1 _ pid t k f). }
    intros q. apply (shape_insert s1 pid t); [done|]. simpl. by rewrite length_insert. }
  split.
  - eapply inv_ext; [exact Hi'|done..| |]; intros *; eauto.
  - apply (policy_load s1 s2 f); [done|done| |done|done]. intros g. rewrite Ef. by right.
  - change (shape s2 pid = Some N). by rewrite Es, Hsh.
  - intros q Hq. change (shape s2 q = shape s0 q). rewrite Es, Hsh. by apply Hbo.
  - intros q v Hq. change (view s2 q v = view s0 q v). rewrite Hv', decide_False by naive_solver.
    rewrite Hv. by apply Hbv.
  - change (totalFrameCount s2 = totalFrameCount s0). congruence.
  - exists out. split_and!; [done|done|].
    change (residents s2 = residents s0 ∖ out ∪ pages pid (S k)). by rewrite Er, Hres.
Qed.

(** Giving up: the frames taken so far return to the pool. *)
Lemma building_rollback s0 pid N k s :
  building s0 pid N k s → pageTables s0 !! pid = None →
  ∀ t, pageTables s !! pid = Some t →
  let s1 := free_pages (take k t) s in
  let s' := set_tables s1 (delete pid (pageTables s1)) in
  mmu_wf s' ∧ spaces s' = spaces s0 ∧ residents s' ⊆ residents s0.
Proof.
  intros [Hbi Hbp Hbs Hbo Hbv Hbt (out & Hsub & Hsz & Hres)] H0 t Ht s1 s'.
  assert (s1 = free_pages t s) as Hs1.
  { assert (∀ v e, t !! v = Some e → present e = (v <? k)) as Hpr.
    { intros v e He. destruct (i_build _ _ _ Hbi pid k eq_refl) as [_ Hb]. apply Hb.
      unfold pte_at. by rewrite Ht. }
    unfold s1. clear -Hpr. revert k s Hpr.
    induction t as [|e t IH]; intros k s Hpr; [by rewrite take_nil|].
    destruct k as [|k]; simpl.
    - rewrite (Hpr 0 e eq_refl). simpl. rewrite <-(IH 0); [done|].
      intros v e0 He0. apply (Hpr (S v) e0 He0).
    - rewrite (Hpr 0 e eq_refl). apply IH. intros v e0 He0. apply (Hpr (S v) e0 He0). }
  destruct (free_pages_spec t s) as (E1&E2&E3&E4&E5&E6&E7).
  assert (∀ q v, swapSpace s !! (q, v) = if decide (q = pid) then None else swapSpace s !! (q, v)) as Hsw.
  { intros q v. case_decide as Hd; [|done]. subst. apply eq_None_not_Some.
    intros Hs. apply (i_swap _ _ _ Hbi) in Hs as [(e & He & Hpe) Hn].
    destruct (i_build _ _ _ Hbi pid k eq_refl) as [_ Hb]. rewrite (Hb _ _ He) in Hpe.
    apply Nat.ltb_ge in Hpe. apply Hn. by exists k. }
  destruct (drop_process_inv (Some (pid, k)) None s pid t (swapSpace s) Hbi eq_refl Ht
    (or_intror (ex_intro _ k eq_refl)) Hsw) as [Hi' Hv'].
  assert (set_tables (set_swap (free_pages t s) (swapSpace s))
    (delete pid (pageTables (free_pages t s))) = s') as Heq.
  { unfold s'. rewrite Hs1. rewrite <-E4 at 1. by destruct (free_pages t s). }
  rewrite Heq in Hi', Hv'.
  assert (pageTables s' = delete pid (pageTables s)) as Etab by (unfold s'; simpl; by rewrite Hs1, E3).
  split; [split; [done|]|].
  - destruct Hbp as [H1 H2 H3]. split; unfold s'; simpl; rewrite Hs1, ?E2; [done| |].
    + intros f [q Hq] _. apply H2; [|done]. apply E7 in Hq as [-> _]. done.
    + intros f Hf. apply H3 in Hf. unfold frame_of in *. simpl. by rewrite E5.
  - split; [apply spaces_ext|].
    + intros q. unfold shape. rewrite Etab. destruct (decide (q = pid)) as [->|Hne].
      * by rewrite lookup_delete_eq, H0.
      * rewrite lookup_delete_ne by done. by apply Hbo.
    + intros q v. rewrite Hv'. case_decide as Hd; [|by apply Hbv]. subst.
      unfold view, pte_at. by rewrite H0.
    + rewrite (residents_drop s s' pid Etab), Hres. intros [q v]. rewrite elem_of_filter, elem_of_union, elem_of_pages.
      simpl. rewrite elem_of_difference. intros [Hne [[? _]|[? _]]]; done.
Qed.

Lemma select_other_spec s0 pid N k s t :
  building s0 pid N k s → set_begin (freeFrames s) = None →
  ∃ v s', select_other s pid t = Some (v, s') ∧
    (v = INVALID_FRAME ∧ building s0 pid N k s' ∧ pageTables s' = pageTables s ∨
     v ≠ INVALID_FRAME ∧ frame_of s' v ∧ inv (Some (pid, k)) None s' ∧ policy_inv (Some v) s' ∧
     (∀ q, shape s' q = shape s q) ∧ (∀ q u, view s' q u = view s q u) ∧
     residents s' = residents s ∧ totalFrameCount s' = totalFrameCount s ∧
     ∃ q, q ≠ pid ∧ frameOwners s' !! v = Some q).
Proof.
  intros [Hbi Hbp Hbs Hbo Hbv Hbt Hbr] Hbeg. pose proof (allocateFrame_spec _ s pid Hbi) as Ha.
  rewrite Hbeg in Ha. destruct Ha as [_ Hall].
  destruct (victim_spec _ s t Hbi Hbp) as (v & pol & Hsel & Hc). unfold select_other. rewrite Hsel.
  assert (inv (Some (pid, k)) None (set_policy s pol)) as Hi1
    by (eapply inv_ext; [exact Hbi|done..| |]; intros *; eauto).
  destruct Hc as [(-> & Hnone & Hp1)|(Hne & Hfr & Hp1)].
  - rewrite bool_decide_eq_false_2 by (intros H; by apply H). simpl. eexists _, _. split; [done|].
    left. split; [done|]. split; [|done]. by split.
  - rewrite bool_decide_eq_true_2 by done. simpl.
    destruct (proj1 (Hall v) Hfr) as [q Hq].
    destruct (decide (q = pid)) as [->|Hqp].
    + rewrite bool_decide_eq_true_2 by done. eexists _, _. split; [done|]. left. split; [done|].
      split; [|done]. split; try done.
      * eapply inv_ext; [exact Hbi|done..| |]; intros *; eauto.
      * apply (policy_load (set_policy s pol) (set_policy s pol) v); try done. intros g. by right.
    + rewrite bool_decide_eq_false_2 by congruence. eexists _, _. split; [done|]. right.
      split_and!; try done. by exists q.
Qed.

Lemma allocate_pages_ok s0 pid N n : ∀ k s,
  building s0 pid N k s → k + n = N → pageTables s0 !! pid = None →
  ∃ r s', allocate_pages n k pid s = Some (r, s') ∧
    (r = ok 0 ∧ building s0 pid N N s' ∨
     r = error ErrorCode.OutOfMemory ∧ mmu_wf s' ∧ spaces s' = spaces s0 ∧
       residents s' ⊆ residents s0 ∧ totalFrameCount s0 < size (residents s0) + N).
Proof.
  induction n as [|n IH]; intros k s Hb Hk H0; simpl.
  { eexists _, s. split; [done|]. left. split; [done|]. assert (k = N) as -> by lia. done. }
  pose proof Hb as [Hbi Hbp Hbs Hbo Hbv Hbt (out & Hsub & Hsz & Hres)].
  pose proof (building_size s0 s pid k out H0 Hsub Hres) as Hcount.
  destruct (residents_full _ _ Hbi) as [_ Hfull].
  destruct (set_begin (freeFrames s)) as [f|] eqn:Hbeg.
  - destruct (flight_free _ s pid f Hbi Hbp Hbeg) as (s1 & -> & Hne & Hfl).
    pose proof (fo_shape _ _ _ _ _ _ Hfl pid) as Hsh. rewrite Hbs in Hsh. unfold shape in Hsh.
    destruct (pageTables s1 !! pid) as [t|] eqn:Ht; [|done].
    destruct (Z.eqb_spec f INVALID_FRAME); [done|].
    apply IH; [|lia|done]. eapply building_next; [exact Hb|lia|exact Hfl|done|]. left. by rewrite Hbeg.
  - pose proof (allocateFrame_spec _ s pid Hbi) as Ha. rewrite Hbeg in Ha. destruct Ha as [-> _].
    pose proof Hbs as Hsh. unfold shape in Hsh.
    destruct (pageTables s !! pid) as [t|] eqn:Ht; [|done]. rewrite Z.eqb_refl.
    destruct (select_other_spec s0 pid N k s t Hb Hbeg) as (v & s2 & -> & Hc).
    destruct Hc as [(-> & Hb2 & Htab)|(Hne & Hfr & Hi2 & Hp2 & Hs2 & Hv2 & Hrs2 & Hts2 & q & Hqp & Hq)].
    + rewrite Z.eqb_refl. rewrite <-Htab in Ht.
      destruct (building_rollback s0 pid N k s2 Hb2 H0 t Ht) as (Hw & Hsp & Hr).
      eexists _, _. split; [done|]. right. split_and!; try done.
      rewrite (proj1 Hfull eq_refl), Hbt in Hcount. assert (size out ≤ size (residents s0)) by by apply subseteq_size. lia.
    + destruct (Z.eqb_spec v INVALID_FRAME); [done|].
      destruct (flight_evict (Some (pid, k)) s2 pid v q Hi2 Hp2 Hq ltac:(congruence) Hfr)
        as (s3 & vp & -> & Hin & Hfl).
      apply IH; [|lia|done]. eapply (building_next _ _ _ _ s _ _ {[(q, vp)]}); [exact Hb|lia| |done|].
      * destruct Hfl as [F1 F2 F3 F4 F5 F6 F7 F8].
        split; try done; intros; [rewrite F4|rewrite F5|rewrite F7|rewrite F8]; by rewrite ?Hrs2.
      * right. exists q, vp. by rewrite <-Hrs2.
Qed.

Lemma building_start s pid N :
  mmu_wf s → pageTables s !! pid = None → N ≠ 0 →
  building s pid N 0 (set_tables s (<[pid := PageTable.make N]> (pageTables s))).
Proof.
  intros [Hi Hp] H0 HN. set (s' := set_tables _ _).
  assert (∀ q v, pte_at s' q v = if decide (q = pid) then PageTable.make N !! v else pte_at s q v) as Hpt
    by (intros; apply pte_at_insert).
  assert (∀ v e, PageTable.make N !! v = Some e → present e = false) as Hmk.
  { intros v e Hl. unfold PageTable.make in Hl. by apply lookup_replicate in Hl as [-> _]. }
  assert (∀ v, pte_at s pid v = None) as Hno by (intros; unfold pte_at; by rewrite H0).
  split.
  - destruct Hi as [It If Id Ifl Io Ip Ii Is Ib Ipos]. split; try done.
    + intros f p Hf _. destruct (Io f p Hf) as (v & e & He & ?); [done|]. exists v, e.
      rewrite Hpt, decide_False; [done|]. intros ->. by rewrite Hno in He.
    + intros p v e. rewrite Hpt. case_decide; [|apply Ip]. intros He Hpe. by rewrite (Hmk v e He) in Hpe.
    + intros p v1 v2 e1 e2. rewrite !Hpt. case_decide; [|apply Ii].
      intros He _ Hpe. by rewrite (Hmk _ _ He) in Hpe.
    + intros p v. rewrite Hpt. simpl. destruct (decide (p = pid)) as [->|Hne].
      * split.
        -- intros Hs. apply Is in Hs as [(e & He & _) _]. by rewrite Hno in He.
        -- intros [_ Hn]. exfalso. apply Hn. exists 0. split; [done|lia].
      * rewrite Is. f_equiv. split; [by intros _ (k & [= <- _] & _)|by intros _ (k & ? & _)].
    + intros q k [= <- <-]. split; [simpl; by rewrite lookup_insert_eq|].
      intros v e. rewrite Hpt, decide_True by done. apply Hmk.
    + intros p Hs Hb. apply (Ipos p); [|done]. simpl in Hs. apply lookup_insert_is_Some' in Hs as [<-|]; [|done].
      by destruct (Hb 0).
  - by destruct Hp as [H1 H2 H3].
  - unfold shape. simpl. rewrite lookup_insert_eq. simpl. unfold PageTable.make. by rewrite length_replicate.
  - intros q Hq. unfold shape. simpl. by rewrite lookup_insert_ne.
  - intros q v Hq. unfold view. by rewrite Hpt, decide_False.
  - done.
  - exists ∅. destruct (residents_full _ _ Hi) as [Hle _].
    split_and!; [apply empty_subseteq|rewrite size_empty; lia|].
    apply residents_ext. intros q v. rewrite Hpt, difference_empty_L, elem_of_union, elem_of_pages, elem_of_residents.
    case_decide as Hq; [subst|naive_solver lia]. rewrite Hno. split; [|naive_solver lia].
    intros (e & He & Hpe). by rewrite (Hmk v e He) in Hpe.
Qed.

Lemma building_done s0 pid N s : building s0 pid N N s → N ≠ 0 → mmu_wf s.
Proof.
  intros [Hi Hp Hs Ho Hv _ _] HN. split; [|done]. unfold shape in Hs.
  destruct (pageTables s !! pid) as [t|] eqn:Ht; [|done]. simpl in Hs. injection Hs as Hlen.
  assert (∀ v e, pte_at s pid v = Some e → v < N ∧ present e = true) as Hall.
  { intros v e He. destruct (i_build _ _ _ Hi pid N eq_refl) as [_ Hb]. rewrite (Hb _ _ He).
    unfold pte_at in He. rewrite Ht in He. simpl in He. apply lookup_lt_Some in He.
    split; [lia|]. apply Nat.ltb_lt. lia. }
  pose proof Hi as [It If Id Ifl Io Ip Ii Is Ib Ipos]. split; try done.
  - intros p v. rewrite Is. split; intros [(e & He & Hpe) Hn]; (split; [by exists e|]).
    + by intros (k & ? & _).
    + intros (k & [= -> ->] & _). destruct (Hall _ _ He). congruence.
  - intros p Hs _. destruct (decide (p = pid)) as [->|Hne].
    + destruct (lookup_lt_is_Some_2 t 0) as [e He]; [lia|].
      assert (pte_at s pid 0 = Some e) as Hpte by (unfold pte_at; by rewrite Ht).
      destruct (present_frame _ _ _ _ _ _ Hi Hpte (proj2 (Hall _ _ Hpte))). lia.
    + apply (Ipos p Hs). congruence.
Qed.

Lemma allocate_step s p n : mmu_wf s → step_ok s (MAllocate p n).
Proof.
  intros Hw. unfold step_ok. simpl. unfold allocate.
  destruct (Nat.eqb_spec n 0) as [->|Hn]; [by eexists _, s; split_and!; [done|done|constructor|done]|].
  destruct (pageTables s !! p) as [t|] eqn:Ht.
  { eexists _, s. split; [done|]. split; [done|]. split; [|done]. destruct (spaces s !! p) as [l|] eqn:Hl.
    - by eapply ms_alloc_again.
    - apply spaces_None in Hl. congruence. }
  pose proof (building_start s p n Hw Ht Hn) as Hb.
  destruct (allocate_pages_ok s p n n 0 _ Hb eq_refl Ht) as (r & s' & -> & Hc).
  assert (spaces s !! p = None) as Hnone by by apply spaces_None.
  eexists _, s'. split; [done|]. destruct Hc as [(-> & Hb')|(-> & Hw' & -> & Hr)].
  2: { split; [done|]. split; [by apply ms_alloc_full|exact Hr]. }
  pose proof (building_done _ _ _ _ Hb' Hn) as Hw'. split; [done|].
  destruct Hb' as [_ _ Hs Ho Hv Ht' Hr]. split; [|exact Hr]. destruct (spaces s' !! p) as [l|] eqn:Hl.
  2: { apply spaces_None in Hl. unfold shape in Hs. by rewrite Hl in Hs. }
  destruct (spaces_table _ _ _ Hl) as (t & Htab & Hlen).
  assert (length l = n) as Hln by (unfold shape in Hs; rewrite Htab in Hs; simpl in Hs; congruence).
  assert (spaces s' = <[p := l]> (spaces s)) as ->; [|by apply ms_alloc].
  apply spaces_insert; [done|done|done|by rewrite Hln|].
  intros v _. by rewrite <-(spaces_page _ _ _ _ Hw' Hl).
Qed.

Lemma mmu_step_full s o : mmu_wf s → step_ok s o.
Proof.
  intros Hw. destruct o; auto using read_step, write_step, allocate_step, deallocate_step,
    swapIn_step, swapOut_step.
Qed.

Lemma mmu_step_ok s o : mmu_wf s →
  ∃ r s', mmu_step s o = Some (r, s') ∧ mmu_wf s' ∧ mem_spec (spaces s) o r (spaces s').
Proof. intros Hw. destruct (mmu_step_full s o Hw) as (r & s' & ? & ? & ? & _). eauto. Qed.

Lemma mmu_wf_make (m : M) (pol : P) :
  (Z.of_nat (mem_cells m) ≤ INVALID_FRAME)%Z → policy_ok pol → tracked pol = ∅ →
  mmu_wf (Mmu_make m pol).
Proof.
  intros Hm Hok Htr.
  assert (∀ p v, pte_at (Mmu_make m pol) p v = None) as Hno
    by (intros; unfold pte_at; simpl; by rewrite lookup_empty).
  split; split; simpl; try done.
  - intros f. unfold frame_of. simpl. rewrite elem_of_list_to_set, list_elem_of_fmap. split.
    + intros [? ?]. left. exists (Z.to_nat f). rewrite elem_of_seq. lia.
    + intros [(i & -> & Hi%elem_of_seq)|[? Hf]]; [lia|]. by rewrite lookup_empty in Hf.
  - intros p v. rewrite lookup_empty. split; [by intros []|]. intros [(e & He & _) _]. by rewrite Hno in He.
  - intros p [? Hs]. by rewrite lookup_empty in Hs.
  - intros f [? Hf]. by rewrite lookup_empty in Hf.
  - intros f. rewrite Htr. set_solver.
Qed.
End mmu_steps.

(** ** Reachable states *)
Section mmu_runs.
Context {M P : Type} `{HMem : !IMemory M} `{HPol : !IPageReplacementPolicy P} `{HO : HashOrder}.

Fixpoint mmu_run (s : mmu M P) (ops : list mmu_op) : option (list (Result mmu_value) * mmu M P) :=
  match ops with
  | [] => Some ([], s)
  | o :: ops' =>
      let! (r, s1) := mmu_step s o in
      let! (rs, s2) := mmu_run s1 ops' in
      Some (r :: rs, s2)
  end.
End mmu_runs.

(** Contents and residents together. *)
Inductive spec_run (F : nat) : gmap Z (list Block) → gset (Z * nat) → list mmu_op → list (Result mmu_value) →
    gmap Z (list Block) → gset (Z * nat) → Prop :=
| spec_run_nil A R : spec_run F A R [] [] A R
| spec_run_cons A R o r A1 R1 ops rs A2 R2 :
    mem_spec A o r A1 → res_spec F R o r R1 → spec_run F A1 R1 ops rs A2 R2 →
    spec_run F A R (o :: ops) (r :: rs) A2 R2.

Lemma mmu_run_ok {M P} `{HMem : !IMemory M} `{HLM : !LawfulMemory M}
    `{HPol : !IPageReplacementPolicy P} `{HLP : !LawfulPolicy P} `{HO : HashOrder} ops :
  ∀ s : mmu M P, mmu_wf s →
  ∃ rs s', mmu_run s ops = Some (rs, s') ∧ mmu_wf s' ∧
    spec_run (totalFrameCount s) (spaces s) (residents s) ops rs (spaces s') (residents s').
Proof.
  induction ops as [|o ops IH]; intros s Hw; simpl.
  { exists [], s. split_and!; [done|done|constructor]. }
  destruct (mmu_step_full s o Hw) as (r & s1 & Hst & Hw1 & Hs & Hres). rewrite Hst. cbn [mbind option_bind].
  destruct (IH s1 Hw1) as (rs & s2 & -> & Hw2 & Hr). rewrite (total_step _ _ _ _ Hst) in Hr.
  eexists _, s2. split_and!; [done|done|]. by econstructor.
Qed.

(** Over any memory and any lawful replacement policy of the interfaces, every
    sequence of MMU operations from the initial state is defined, keeps the
    frame bookkeeping consistent and behaves as [mem_spec] and [res_spec] say:
    reads of resident pages return the last write to the same page of the same
    process, whatever was evicted, swapped or rolled back in between, and an
    access faults exactly on a page that is not resident. *)
Theorem mmu_refines {M P} {HMem : IMemory M} {HLM : LawfulMemory M}
    {HPol : IPageReplacementPolicy P} {HLP : LawfulPolicy P} {HO : HashOrder}
    (mem : M) (pol : P) ops :
  (Z.of_nat (mem_cells mem) ≤ INVALID_FRAME)%Z → policy_ok pol → tracked pol = ∅ →
  ∃ rs s', mmu_run (Mmu_make mem pol) ops = Some (rs, s') ∧ mmu_wf s' ∧
    spec_run (mem_cells mem) ∅ ∅ ops rs (spaces s') (residents s').
Proof.
  intros Hm Hok Htr.
  assert (spaces (Mmu_make mem pol) = ∅) as HS.
  { apply map_eq. intros p. rewrite lookup_spaces. simpl. by rewrite !lookup_empty. }
  assert (residents (Mmu_make mem pol) = ∅) as HR by (unfold residents; simpl; by rewrite map_to_list_empty).
  pose proof (mmu_run_ok ops (Mmu_make mem pol) (mmu_wf_make mem pol Hm Hok Htr)) as H.
  by rewrite HS, HR in H.
Qed.

Lemma mmu_refines_witness :
  let HO := canonical_order in
  let ops := [MAllocate 1 2; MWrite 1 0 (data_cell 7); MAllocate 2 1; MAllocate 3 1; MSwapIn 1 0;
              MRead 1 0; MDeallocate 2] in
  ∃ rs s', mmu_run (Mmu_make (PhysicalMemory.make 3) FifoReplacement.init) ops = Some (rs, s') ∧
    mmu_wf s' ∧ spec_run (mem_cells (PhysicalMemory.make 3)) ∅ ∅ ops rs (spaces s') (residents s').
Proof.
  intros HO ops. apply (mmu_refines (PhysicalMemory.make 3) FifoReplacement.init ops).
  - vm_compute. done.
  - exact I.
  - reflexivity.
Defined.

(** Frames are never shared or lost: in a consistent state each frame is
    either free or holds exactly one resident page of one process, the free
    frames the MMU reports and the owned ones add up to the memory, and a
    resident page's frame lies in the memory. *)
Theorem mmu_frames_partition {M P} {HMem : IMemory M} {HLM : LawfulMemory M}
    {HPol : IPageReplacementPolicy P} {HLP : LawfulPolicy P} {HO : HashOrder} (s : mmu M P) :
  mmu_wf s →
  freeFrameCount s + size (frameOwners s) = totalFrames s ∧
  (∀ p q vp vq e1 e2, pte_at s p vp = Some e1 → pte_at s q vq = Some e2 →
     present e1 = true → present e2 = true → frameId e1 = frameId e2 → p = q ∧ vp = vq) ∧
  (∀ p vp e, pte_at s p vp = Some e → present e = true →
     frame_of s (frameId e) ∧ frameId e ∉ freeFrames s) ∧
  (∀ f, frame_of s f → f ∉ freeFrames s → ∃ p vp e, pte_at s p vp = Some e ∧
     present e = true ∧ frameId e = f).
Proof.
  intros [Hi _]. split_and!.
  - by apply (frames_count _ _ _ Hi).
  - intros p q vp vq e1 e2 H1 H2 Hp1 Hp2 Hf.
    destruct (i_present _ _ _ Hi _ _ _ H1 Hp1) as [Ho1 _].
    destruct (i_present _ _ _ Hi _ _ _ H2 Hp2) as [Ho2 _].
    assert (p = q) as -> by congruence. split; [done|]. by eapply (i_inj _ _ _ Hi).
  - intros p vp e He Hp. split; [by eapply present_frame|]. intros Hf.
    apply (i_disj _ _ _ Hi) in Hf. destruct (i_present _ _ _ Hi _ _ _ He Hp). congruence.
  - intros f Hf Hn. apply (i_frames _ _ _ Hi) in Hf as [|[p Hp]]; [done|].
    destruct (i_owner _ _ _ Hi _ _ Hp) as (vp & e & ?); [done|]. by exists p, vp, e.
Qed.

Lemma mmu_frames_partition_witness :
  let HO := canonical_order in
  let s := Mmu_make (PhysicalMemory.make 5) LruReplacement.init in
  freeFrameCount s + size (frameOwners s) = totalFrames s ∧
  (∀ p q vp vq e1 e2, pte_at s p vp = Some e1 → pte_at s q vq = Some e2 →
     present e1 = true → present e2 = true → frameId e1 = frameId e2 → p = q ∧ vp = vq) ∧
  (∀ p vp e, pte_at s p vp = Some e → present e = true →
     frame_of s (frameId e) ∧ frameId e ∉ freeFrames s) ∧
  (∀ f, frame_of s f → f ∉ freeFrames s → ∃ p vp e, pte_at s p vp = Some e ∧
     present e = true ∧ frameId e = f).
Proof.
  intros HO s. apply (mmu_frames_partition s).
  apply mmu_wf_make; [vm_compute; done|exact I|reflexivity].
Defined.
