(* ===== verification/VirtualMem.v ===== *)
(** * VirtualMem: [memory/virtual_memory.cpp]

    Slots over the MMU, proved against what the MMU promises ([mem_spec]), not
    against its implementation. *)
From S2P Require Import Prelude Core Arch Paging Mmu MmuInvariant MmuProps.

(** ** The MMU interface: [memory/i_mmu.h] *)
Class IMMU (U : Type) := mmu_call : U → mmu_op → option (Result mmu_value * U).

Class LawfulMMU (U : Type) `{!IMMU U} := {
  mmu_inv : U → Prop;
  mmu_spaces : U → gmap Z (list Block);
  mmu_law u o : mmu_inv u → ∃ r u', mmu_call u o = Some (r, u') ∧ mmu_inv u' ∧
    mem_spec (mmu_spaces u) o r (mmu_spaces u')
}.

#[global] Instance mmu_interface {M P} `{!IMemory M} `{!IPageReplacementPolicy P}
  `{HO : HashOrder} : IMMU (mmu M P) := mmu_step.
#[global, program] Instance mmu_lawful {M P} `{HMem : !IMemory M, !LawfulMemory M}
    `{HPol : !IPageReplacementPolicy P, !LawfulPolicy P} `{HO : HashOrder} : LawfulMMU (mmu M P) := {|
  mmu_inv := mmu_wf;
  mmu_spaces := spaces
|}.
Next Obligation. intros. by apply mmu_step_ok. Qed.

Section virtual_memory.
Context {U : Type} `{!IMMU U}.

Record vm_state := MkVm { vm_mmu : U; maxSlots : nat; slots : gmap Z nat }.
Definition VirtualMemory_make (u : U) (max : nat) : vm_state := MkVm u max ∅.
Definition set_mmu (v : vm_state) (u : U) : vm_state := MkVm u (maxSlots v) (slots v).

Definition allocateSlot (v : vm_state) (processId : Z) (size : nat)
    : option (Result mmu_value * vm_state) :=
  if size =? 0 then Some (error ErrorCode.InvalidAddress, v) else
  if maxSlots v <=? base.size (slots v) then Some (error ErrorCode.OutOfMemory, v) else
  match slots v !! processId with
  | Some _ => Some (error ErrorCode.InvalidPid, v)
  | None =>
      let! (r, u) := mmu_call (vm_mmu v) (MAllocate processId size) in
      match r with
      | error e => Some (error e, set_mmu v u)
      | ok a => Some (ok a, MkVm u (maxSlots v) (<[processId := size]> (slots v)))
      end
  end.

Definition freeSlot (v : vm_state) (processId : Z) : option (Result unit * vm_state) :=
  match slots v !! processId with
  | None => Some (error ErrorCode.InvalidPid, v)
  | Some _ =>
      let! (r, u) := mmu_call (vm_mmu v) (MDeallocate processId) in
      match r with
      | error e => Some (error e, set_mmu v u)
      | ok _ => Some (ok tt, MkVm u (maxSlots v) (delete processId (slots v)))
      end
  end.

Fixpoint load_loop (u : U) (pid : Z) (i : nat) (data : list Block) : option (Result unit * U) :=
  match data with
  | [] => Some (ok tt, u)
  | b :: data' =>
      let! (r, u') := mmu_call u (MWrite pid i b) in
      match r with
      | error e => Some (error e, u')
      | ok _ => load_loop u' pid (S i) data'
      end
  end.
Definition loadSegment (v : vm_state) (processId : Z) (data : list Block)
    : option (Result unit * vm_state) :=
  match slots v !! processId with
  | None => Some (error ErrorCode.InvalidPid, v)
  | Some size =>
      if size <? length data then Some (error ErrorCode.OutOfMemory, v) else
      let! (r, u) := load_loop (vm_mmu v) processId 0 data in Some (r, set_mmu v u)
  end.

Fixpoint read_loop (u : U) (pid : Z) (i n : nat) (acc : list Block)
    : option (Result (list Block) * U) :=
  match n with
  | 0 => Some (ok acc, u)
  | S n' =>
      let! (r, u') := mmu_call u (MRead pid i) in
      match r with
      | ok (VBlock b) => read_loop u' pid (S i) n' (acc ++ [b])
      | ok _ => None
      | error e => Some (error e, u')
      end
  end.
Definition readSegment (v : vm_state) (processId : Z)
    : option (Result (list Block) * vm_state) :=
  match slots v !! processId with
  | None => Some (error ErrorCode.InvalidPid, v)
  | Some size =>
      let! (r, u) := read_loop (vm_mmu v) processId 0 size [] in Some (r, set_mmu v u)
  end.

Definition totalSlots (v : vm_state) : nat := maxSlots v.
Definition freeSlots (v : vm_state) : nat := maxSlots v - size (slots v).
Definition hasSlot (v : vm_state) (processId : Z) : bool := bool_decide (is_Some (slots v !! processId)).
Definition slotSize (v : vm_state) (processId : Z) : nat := default 0 (slots v !! processId).

Section proofs.
Context `{!LawfulMMU U}.

(** Every slot is an address space of its size; the table fits. *)
Record vm_wf (v : vm_state) : Prop := {
  vm_inv : mmu_inv (vm_mmu v);
  vm_slots p n : slots v !! p = Some n → ∃ l, mmu_spaces (vm_mmu v) !! p = Some l ∧ length l = n;
  vm_count : size (slots v) ≤ maxSlots v
}.

Lemma load_loop_ok data : ∀ u pid i l,
  mmu_inv u → mmu_spaces u !! pid = Some l → i + length data ≤ length l →
  ∃ r u' l', load_loop u pid i data = Some (r, u') ∧ mmu_inv u' ∧
    mmu_spaces u' = <[pid := l']> (mmu_spaces u) ∧ length l' = length l ∧
    (r = ok tt → l' = splice l i data) ∧ (r = ok tt ∨ r = error ErrorCode.SegmentationFault).
Proof.
  induction data as [|b data IH]; intros u pid i l Hu Hl Hlen; simpl.
  { exists (ok tt), u, l. rewrite insert_id, splice_nil by done. split_and!; auto. }
  simpl in Hlen. destruct (lookup_lt_is_Some_2 l i) as [old Hold]; [lia|].
  destruct (mmu_law u (MWrite pid i b) Hu) as (r & u1 & -> & Hu1 & Hs).
  inversion Hs; simplify_eq/=.
  - destruct (IH u1 pid (S i) (<[i := b]> l)) as (r & u2 & l2 & -> & Hu2 & Hs2 & Hlen2 & Hok & Hr).
    + done.
    + match goal with H : _ = mmu_spaces u1 |- _ => rewrite <-H end. by rewrite lookup_insert_eq.
    + rewrite length_insert. lia.
    + exists r, u2, l2. split_and!; try done.
      * rewrite Hs2. match goal with H : _ = mmu_spaces u1 |- _ => rewrite <-H end.
        by rewrite insert_insert_eq.
      * by rewrite Hlen2, length_insert.
      * intros Hrr. rewrite (Hok Hrr). apply list_eq. intros k.
        rewrite !lookup_splice by (rewrite ?length_insert; simpl; lia). simpl.
        destruct (decide (k = i)) as [->|Hk].
        -- rewrite decide_False, list_lookup_insert_eq, decide_True, Nat.sub_diag by lia. done.
        -- destruct (decide (S i ≤ k < S i + length data)).
           ++ rewrite !decide_True by lia. replace (k - i) with (S (k - S i)) by lia. done.
           ++ rewrite !decide_False, list_lookup_insert_ne by lia. done.
  - eexists _, u1, l. split_and!; try done; [|by right].
    match goal with H : _ = mmu_spaces u1 |- _ => rewrite <-H end. by rewrite insert_id.
Qed.

Lemma read_loop_ok n : ∀ u pid i acc l,
  mmu_inv u → mmu_spaces u !! pid = Some l → i + n = length l → acc = take i l →
  ∃ r u', read_loop u pid i n acc = Some (r, u') ∧ mmu_inv u' ∧ mmu_spaces u' = mmu_spaces u ∧
    (r = ok l ∨ r = error ErrorCode.SegmentationFault).
Proof.
  induction n as [|n IH]; intros u pid i acc l Hu Hl Hlen ->; simpl.
  { eexists _, u. split_and!; try done. left. f_equal. apply take_ge. lia. }
  destruct (lookup_lt_is_Some_2 l i) as [b Hb]; [lia|].
  destruct (mmu_law u (MRead pid i) Hu) as (r & u1 & -> & Hu1 & Hs).
  inversion Hs; simplify_eq/=.
  - match goal with H : _ = mmu_spaces u1 |- _ => symmetry in H; rename H into Heq end.
    destruct (IH u1 pid (S i) (take i l ++ [b]) l) as (r & u2 & -> & Hu2 & Hs2 & Hr);
      [done|by rewrite Heq|lia|by rewrite (take_S_r _ _ b)|].
    exists r, u2. split_and!; try done. congruence.
  - eexists _, u1. split_and!; try done. by right.
Qed.
End proofs.
End virtual_memory.
Arguments vm_state : clear implicits.

(** ** Properties *)
Section properties.
Context {U : Type} `{HI : !IMMU U} `{HL : !LawfulMMU U}.

(** The three outcomes of [allocateSlot] and [freeSlot] on the slot table. *)
Lemma allocateSlot_ok (v : vm_state U) p n :
  vm_wf v → ∃ r v', allocateSlot v p n = Some (r, v') ∧ vm_wf v' ∧
    (isOk r = true ↔ slots v' = <[p := n]> (slots v) ∧ slots v !! p = None) ∧
    (isOk r = false → slots v' = slots v ∧ mmu_spaces (vm_mmu v') = mmu_spaces (vm_mmu v)).
Proof.
  intros Hw. unfold allocateSlot.
  assert (∀ e, ∃ r v', Some (error e, v) = Some (r, v') ∧ vm_wf v' ∧
    (@isOk mmu_value r = true ↔ slots v' = <[p := n]> (slots v) ∧ slots v !! p = None) ∧
    (@isOk mmu_value r = false → slots v' = slots v ∧
       mmu_spaces (vm_mmu v') = mmu_spaces (vm_mmu v))) as Herr.
  { intros e. eexists _, v. split_and!; try done. split; [done|]. intros [He Hn].
    rewrite He, lookup_insert_eq in Hn. done. }
  destruct (n =? 0); [apply Herr|]. destruct (Nat.leb_spec (maxSlots v) (size (slots v))); [apply Herr|].
  destruct (slots v !! p) eqn:Hp; [apply Herr|].
  destruct (mmu_law (vm_mmu v) (MAllocate p n) (vm_inv _ Hw)) as (r & u & -> & Hu & Hs).
  inversion Hs; simplify_eq/=;
    match goal with H : _ = mmu_spaces u |- _ => symmetry in H; rename H into Heq end.
  1, 2, 4: eexists _, (set_mmu v u); split; [done|]; (split; [destruct Hw as [? Hsl ?];
      split; simpl; [done|by rewrite Heq|done]|]); (split; [|by intros]); simpl; split; [done|];
      intros [He _]; rewrite He, lookup_insert_eq in Hp; done.
  eexists _, _. split; [done|]. split; [|by split].
  destruct Hw as [Hi Hsl Hc]. split; simpl; [done| |].
  - intros q m [[<- <-]|[Hne Hq]]%lookup_insert_Some.
    + eexists. by rewrite Heq, lookup_insert_eq.
    + rewrite Heq, lookup_insert_ne by done. by apply Hsl.
  - rewrite map_size_insert_None by done. lia.
Qed.

(** Loading a segment and reading it back: on a slot, [readSegment] either
    faults on a swapped-out page or returns exactly the process's address
    space; after a successful [loadSegment] that is the loaded data followed by
    the rest of the old contents.  No operation touches another process's
    space, and a segment longer than the slot is refused without any write. *)
Theorem segment_roundtrip (v : vm_state U) p n l data :
  vm_wf v → slots v !! p = Some n → mmu_spaces (vm_mmu v) !! p = Some l →
  ∃ r v', loadSegment v p data = Some (r, v') ∧ vm_wf v' ∧
    (∀ q, q ≠ p → mmu_spaces (vm_mmu v') !! q = mmu_spaces (vm_mmu v) !! q) ∧
    (n < length data → r = error ErrorCode.OutOfMemory ∧ v' = v) ∧
    (isOk r = true →
       ∃ r2 v2, readSegment v' p = Some (r2, v2) ∧ vm_wf v2 ∧
         mmu_spaces (vm_mmu v2) = mmu_spaces (vm_mmu v') ∧
         (r2 = ok (data ++ drop (length data) l) ∨ r2 = error ErrorCode.SegmentationFault)).
Proof.
  intros Hw Hp Hl. unfold loadSegment. rewrite Hp.
  destruct (vm_slots _ Hw _ _ Hp) as (l0 & ? & Hlen). simplify_eq.
  destruct (Nat.ltb_spec (length l) (length data)) as [Hlt|Hge].
  { eexists _, v. by split_and!. }
  destruct (load_loop_ok data (vm_mmu v) p 0 l (vm_inv _ Hw) Hl ltac:(lia))
    as (r & u & l' & -> & Hu & Hs & Hlen' & Hok & Hr).
  assert (vm_wf (set_mmu v u)) as Hw'.
  { destruct Hw as [Hi Hsl Hc]. split; simpl; [done| |done]. intros q m Hq. rewrite Hs.
    destruct (decide (q = p)) as [->|]; [|rewrite lookup_insert_ne by done; by apply Hsl].
    rewrite lookup_insert_eq. eexists; split; [done|]. simplify_eq. congruence. }
  eexists _, _. split; [done|]. split; [done|]. split; [|split; [lia|]].
  - intros q Hq. simpl. by rewrite Hs, lookup_insert_ne.
  - intros Hrok. assert (r = ok tt) as -> by (destruct r as [[]|]; done).
    specialize (Hok eq_refl). unfold readSegment. simpl. rewrite Hp.
    destruct (read_loop_ok (length l) u p 0 [] l' Hu) as (r2 & u2 & -> & Hu2 & Hs2 & Hr2);
      [by rewrite Hs, lookup_insert_eq|lia|done|].
    eexists _, _. split; [done|]. split.
    + destruct Hw' as [Hi Hsl Hc]. split; simpl in *; [done|by rewrite Hs2|done].
    + split; [done|]. rewrite Hok in Hr2. unfold splice in Hr2. simpl in Hr2. done.
Qed.
End properties.

Section witness.
#[local] Instance order : HashOrder := canonical_order.
Definition witness_mmu : mmu PhysicalMemory.t ClockReplacement.t :=
  Mmu_make (PhysicalMemory.make 4) ClockReplacement.init.
Definition witness_vm : vm_state (mmu PhysicalMemory.t ClockReplacement.t) :=
  match allocateSlot (VirtualMemory_make witness_mmu 2) 7 3 with
  | Some (_, v) => v
  | None => VirtualMemory_make witness_mmu 2
  end.

Lemma witness_vm_wf : vm_wf witness_vm.
Proof.
  destruct (allocateSlot_ok (VirtualMemory_make witness_mmu 2) 7 3) as (r & v & Ha & Hw & _).
  - split; simpl; [|by intros ??|by rewrite map_size_empty; lia].
    apply mmu_wf_make; [vm_compute; done|by left|done].
  - unfold witness_vm. by rewrite Ha.
Qed.

Lemma segment_roundtrip_witness :
  let data := [data_cell 4; data_cell 5] in
  ∃ l r v', mmu_spaces (vm_mmu witness_vm) !! 7%Z = Some l ∧
    loadSegment witness_vm 7 data = Some (r, v') ∧ vm_wf v' ∧
    (∀ q, q ≠ 7%Z → mmu_spaces (vm_mmu v') !! q = mmu_spaces (vm_mmu witness_vm) !! q) ∧
    (3 < length data → r = error ErrorCode.OutOfMemory ∧ v' = witness_vm) ∧
    (isOk r = true →
       ∃ r2 v2, readSegment v' 7 = Some (r2, v2) ∧ vm_wf v2 ∧
         mmu_spaces (vm_mmu v2) = mmu_spaces (vm_mmu v') ∧
         (r2 = ok (data ++ drop (length data) l) ∨ r2 = error ErrorCode.SegmentationFault)).
Proof.
  intros data. assert (slots witness_vm !! 7%Z = Some 3) as Hs by (vm_compute; reflexivity).
  destruct (vm_slots _ witness_vm_wf _ _ Hs) as (l & Hl & _).
  destruct (segment_roundtrip witness_vm 7 3 l data witness_vm_wf Hs Hl) as (r & v' & H).
  exists l, r, v'. split; [exact Hl|exact H].
Defined.
End witness.
