(* ===== verification/Policies.v ===== *)
(** * Policies: [scheduling/*_policy.cpp] and [scheduling/statistics.cpp]

    The policy interface of the scheduler, the seven policies, and the burst
    statistics.  [double] arithmetic is IEEE binary64, rounding to nearest
    even, from the Standard Library's specification of floats. *)
From Stdlib Require Import Floats.SpecFloat.
From S2P Require Import Prelude Core Process.
Local Open Scope Z_scope.

(** ** Snapshots and the interface: [scheduling/i_scheduling_policy.h] *)
Record Snapshot := MkSnapshot {
  pid : Z;
  arrivalTime : Z;
  lastStateChange : Z;
  estimatedBurst : Z;
  remainingBurst : Z;
  totalWaitTime : Z;
  effectivePriority : PriorityLevel;
  nice : Z
}.

Class ISchedulingPolicy (P : Type) := {
  policyName : P → string;
  selectNext : P → list Snapshot → Z → Z;
  shouldPreempt : P → Snapshot → Snapshot → Z → bool
}.

(** A policy picks from the queue it is given. *)
Class LawfulSchedulingPolicy (P : Type) `{!ISchedulingPolicy P} : Prop := {
  select_member p q now : q ≠ [] → ∃ s, s ∈ q ∧ selectNext p q now = pid s;
  select_empty p now : selectNext p [] now = INVALID_PID
}.

(** The pid of the first least element, [INVALID_PID] for an empty queue. *)
Definition pid_of_best (best : option Snapshot) : Z :=
  match best with Some s => pid s | None => INVALID_PID end.
Definition pid_below (a b : Snapshot) : bool := (pid a <? pid b).

(** ** The comparators *)
Module FcfsPolicy.
Definition before : Snapshot → Snapshot → bool := lex_lt arrivalTime pid_below.
Definition selectNext (q : list Snapshot) (now : Z) : Z := pid_of_best (min_element before q).
Definition shouldPreempt (running candidate : Snapshot) (now : Z) : bool := false.
End FcfsPolicy.

Module RoundRobinPolicy.
Definition make (timeSlice : Z) : Z := if timeSlice =? 0 then 1 else timeSlice.
Definition before : Snapshot → Snapshot → bool := lex_lt lastStateChange pid_below.
Definition selectNext (q : list Snapshot) (now : Z) : Z := pid_of_best (min_element before q).
Definition shouldPreempt (timeSlice : Z) (running candidate : Snapshot) (now : Z) : bool :=
  timeSlice <=? u64 (now - lastStateChange running).
End RoundRobinPolicy.

Module SpnPolicy.
Definition serviceTime (s : Snapshot) : Z := if estimatedBurst s =? 0 then 1 else estimatedBurst s.
Definition before : Snapshot → Snapshot → bool := lex_lt serviceTime pid_below.
Definition selectNext (q : list Snapshot) (now : Z) : Z := pid_of_best (min_element before q).
Definition shouldPreempt (running candidate : Snapshot) (now : Z) : bool := false.
End SpnPolicy.

Module SrtPolicy.
Definition remaining (s : Snapshot) : Z :=
  if 0 <? remainingBurst s then remainingBurst s
  else if 0 <? estimatedBurst s then estimatedBurst s else 1.
Definition before : Snapshot → Snapshot → bool := lex_lt remaining pid_below.
Definition selectNext (q : list Snapshot) (now : Z) : Z := pid_of_best (min_element before q).
Definition shouldPreempt (running candidate : Snapshot) (now : Z) : bool :=
  remaining candidate <? remaining running.
End SrtPolicy.

Module PriorityPolicy.
Definition betterPriority (lhs rhs : Snapshot) : bool :=
  if negb (bool_decide (effectivePriority lhs = effectivePriority rhs))
  then level_int (effectivePriority lhs) <? level_int (effectivePriority rhs)
  else if negb (nice lhs =? nice rhs) then nice lhs <? nice rhs
  else pid lhs <? pid rhs.
Definition selectNext (q : list Snapshot) (now : Z) : Z := pid_of_best (min_element betterPriority q).
Definition shouldPreempt (running candidate : Snapshot) (now : Z) : bool :=
  betterPriority candidate running.
End PriorityPolicy.

Module MlfqPolicy.
Definition make (levelTimeSlices : list Z) : list Z :=
  (λ v, if v =? 0 then 1 else v) <$> (match levelTimeSlices with [] => [1] | _ => levelTimeSlices end).
Definition priorityToLevel (s : Snapshot) (levelCount : nat) : nat :=
  let level := Z.to_nat (level_int (effectivePriority s)) in
  if (levelCount =? 0)%nat then 0%nat
  else if (levelCount <=? level)%nat then (levelCount - 1)%nat else level.
Definition before (slices : list Z) : Snapshot → Snapshot → bool :=
  lex_lt (λ s, Z.of_nat (priorityToLevel s (length slices))) (lex_lt lastStateChange pid_below).
Definition selectNext (slices : list Z) (q : list Snapshot) (now : Z) : Z :=
  pid_of_best (min_element (before slices) q).
Definition shouldPreempt (slices : list Z) (running candidate : Snapshot) (now : Z) : bool :=
  let runningLevel := priorityToLevel running (length slices) in
  let candidateLevel := priorityToLevel candidate (length slices) in
  if (candidateLevel <? runningLevel)%nat then true
  else nth runningLevel slices 0 <=? u64 (now - lastStateChange running).
End MlfqPolicy.

(** ** [double] *)
Definition prec : Z := 53.
Definition emax : Z := 1024.
Definition double_of (n : Z) : spec_float := binary_normalize prec emax n 0 false.
Definition fadd := SFadd prec emax.
Definition fsub := SFsub prec emax.
Definition fmul := SFmul prec emax.
Definition fdiv := SFdiv prec emax.

Module HrrnPolicy.
Definition responseRatio (s : Snapshot) : spec_float :=
  let service := double_of (if estimatedBurst s =? 0 then 1 else estimatedBurst s) in
  let wait := double_of (totalWaitTime s) in
  fdiv (fadd wait service) service.
Definition before (a b : Snapshot) : bool :=
  let lhs := responseRatio a in
  let rhs := responseRatio b in
  if negb (SFeqb lhs rhs) then SFltb lhs rhs else pid b <? pid a.
Definition selectNext (q : list Snapshot) (now : Z) : Z := pid_of_best (max_element before q).
Definition shouldPreempt (running candidate : Snapshot) (now : Z) : bool := false.
End HrrnPolicy.

(** ** The policies as instances *)
Inductive policy := Fcfs | RoundRobin (timeSlice : Z) | Spn | Srt | PriorityBased | Hrrn
| Mlfq (levelTimeSlices : list Z).

#[global] Instance policies : ISchedulingPolicy policy := {|
  policyName p := match p with
    | Fcfs => "FCFS" | RoundRobin _ => "RoundRobin" | Spn => "SPN" | Srt => "SRT"
    | PriorityBased => "Priority" | Hrrn => "HRRN" | Mlfq _ => "MLFQ"
    end%string;
  selectNext p q now := match p with
    | Fcfs => FcfsPolicy.selectNext q now
    | RoundRobin _ => RoundRobinPolicy.selectNext q now
    | Spn => SpnPolicy.selectNext q now
    | Srt => SrtPolicy.selectNext q now
    | PriorityBased => PriorityPolicy.selectNext q now
    | Hrrn => HrrnPolicy.selectNext q now
    | Mlfq ts => MlfqPolicy.selectNext ts q now
    end;
  shouldPreempt p r c now := match p with
    | Fcfs => FcfsPolicy.shouldPreempt r c now
    | RoundRobin ts => RoundRobinPolicy.shouldPreempt ts r c now
    | Spn => SpnPolicy.shouldPreempt r c now
    | Srt => SrtPolicy.shouldPreempt r c now
    | PriorityBased => PriorityPolicy.shouldPreempt r c now
    | Hrrn => HrrnPolicy.shouldPreempt r c now
    | Mlfq ts => MlfqPolicy.shouldPreempt ts r c now
    end
|}.

Lemma min_pid_member lt q : q ≠ [] → ∃ s, s ∈ q ∧ pid_of_best (min_element lt q) = pid s.
Proof.
  intros Hq. destruct (min_element lt q) as [s|] eqn:E.
  - exists s. split; [by eapply min_element_in|done].
  - by apply min_element_None in E.
Qed.
Lemma max_pid_member lt q : q ≠ [] → ∃ s, s ∈ q ∧ pid_of_best (max_element lt q) = pid s.
Proof.
  intros Hq. destruct (max_element lt q) as [s|] eqn:E.
  - exists s. split; [by eapply max_element_in|done].
  - by apply max_element_None in E.
Qed.

#[global] Instance policies_lawful : LawfulSchedulingPolicy policy.
Proof.
  split.
  - intros [] q now Hq; simpl; by (apply min_pid_member || apply max_pid_member).
  - by intros [] now.
Qed.

(** ** What the comparator policies choose *)
#[global] Instance pid_below_swo : StrictWeakOrder pid_below := key_swo pid.

#[global] Instance betterPriority_swo : StrictWeakOrder PriorityPolicy.betterPriority.
Proof.
  assert (∀ a b, PriorityPolicy.betterPriority a b =
    lex_lt (λ s, level_int (effectivePriority s)) (lex_lt nice pid_below) a b) as Heq.
  { intros a b. unfold PriorityPolicy.betterPriority, lex_lt, pid_below.
    case_bool_decide as Hp; simpl.
    - rewrite Hp, Z.eqb_refl. done.
    - destruct (Z.eqb_spec (level_int (effectivePriority a)) (level_int (effectivePriority b)))
        as [E|]; [|done]. by apply level_int_inj in E. }
  destruct (lex_swo (λ s, level_int (effectivePriority s)) (lex_lt nice pid_below) _) as [H1 H2].
  split; intros *; rewrite !Heq; [apply H1|apply H2].
Qed.

(** [x] comes before or ties with [y] under lexicographic keys. *)
Fixpoint keys_le (keys : list (Snapshot → Z)) (x y : Snapshot) : Prop :=
  match keys with
  | [] => True
  | k :: keys' => k x < k y ∨ (k x = k y ∧ keys_le keys' x y)
  end.

Lemma lex_not_below key keys lt x y :
  (∀ x y, lt y x = false → keys_le keys x y) →
  lex_lt key lt y x = false → keys_le (key :: keys) x y.
Proof.
  intros H. unfold lex_lt. simpl. destruct (Z.eqb_spec (key y) (key x)); simpl.
  - intros ?%H. by right.
  - rewrite Z.ltb_ge. intros. left. lia.
Qed.
Lemma pid_not_below x y : pid_below y x = false → keys_le [pid] x y.
Proof. unfold pid_below. simpl. rewrite Z.ltb_ge. lia. Qed.

(** What a policy minimises, ties broken by the smaller pid. *)
Definition policy_keys (p : policy) : option (list (Snapshot → Z)) :=
  match p with
  | Fcfs => Some [arrivalTime; pid]
  | RoundRobin _ => Some [lastStateChange; pid]
  | Spn => Some [SpnPolicy.serviceTime; pid]
  | Srt => Some [SrtPolicy.remaining; pid]
  | PriorityBased => Some [λ s, level_int (effectivePriority s); nice; pid]
  | Mlfq ts => Some [λ s, Z.of_nat (MlfqPolicy.priorityToLevel s (length ts)); lastStateChange; pid]
  | Hrrn => None
  end.

Lemma better_not_below x y :
  PriorityPolicy.betterPriority y x = false →
  keys_le [λ s, level_int (effectivePriority s); nice; pid] x y.
Proof.
  unfold PriorityPolicy.betterPriority. simpl. case_bool_decide as Hp; simpl.
  - rewrite Hp. destruct (Z.eqb_spec (nice y) (nice x)); simpl; rewrite Z.ltb_ge; lia.
  - rewrite Z.ltb_ge. intros. assert (level_int (effectivePriority y) ≠ level_int (effectivePriority x)); [|lia].
    intros E. by apply level_int_inj in E.
Qed.

(** FCFS, round robin, SPN, SRT, priority and MLFQ each select a process of
    the ready queue that is least in the policy's own key (arrival, time since
    the last state change, service time, remaining time, priority and nice,
    level and waiting since), ties going to the smaller pid. *)
Theorem policies_select_least p keys q now :
  policy_keys p = Some keys → q ≠ [] →
  ∃ s, s ∈ q ∧ selectNext p q now = pid s ∧ ∀ t, t ∈ q → keys_le keys s t.
Proof.
  assert (∀ lt `{!StrictWeakOrder lt}, q ≠ [] → (∀ x y, lt y x = false → keys_le keys x y) →
    ∃ s, s ∈ q ∧ pid_of_best (min_element lt q) = pid s ∧ ∀ t, t ∈ q → keys_le keys s t) as H.
  { intros lt Hlt Hq Hk. destruct (min_element lt q) as [s|] eqn:E.
    - exists s. split_and!; [by eapply min_element_in|done|].
      intros t Ht. apply Hk. by eapply (min_element_least lt).
    - by apply min_element_None in E. }
  intros Hk Hq. destruct p; try done; injection Hk as <-; (apply H; [apply _|done|]).
  1-4: intros x y; apply lex_not_below; apply pid_not_below.
  - intros x y. apply better_not_below.
  - intros x y. apply lex_not_below. intros x' y'. apply lex_not_below. apply pid_not_below.
Qed.

Lemma policies_select_least_witness :
  let a := MkSnapshot 7 5 0 0 0 0 Normal 0 in
  let b := MkSnapshot 4 5 0 0 0 0 Normal 0 in
  ∃ s, s ∈ [a; b] ∧ selectNext Fcfs [a; b] 0 = pid s ∧
    ∀ t, t ∈ [a; b] → keys_le [arrivalTime; pid] s t.
Proof.
  apply (policies_select_least Fcfs [arrivalTime; pid]
    [MkSnapshot 7 5 0 0 0 0 Normal 0; MkSnapshot 4 5 0 0 0 0 Normal 0] 0); [reflexivity|done].
Defined.

(** ** [scheduling/statistics.cpp] *)

(** Converting a [double] to [Tick] is undefined outside the type's range;
    the value it then has is left open. *)
Class FloatCast := cast_out_of_range : spec_float → Z.

Definition double_to_tick `{FloatCast} (f : spec_float) : Z :=
  match f with
  | S754_zero _ => 0
  | S754_finite false m e =>
      let v := Z.shiftl (Z.pos m) e in
      if v <? 2 ^ 64 then v else cast_out_of_range f
  | S754_finite true m e =>
      if Z.shiftl (Z.pos m) e =? 0 then 0 else cast_out_of_range f
  | _ => cast_out_of_range f
  end.

Module Statistics.
Record t := mk { predictions : gmap Z Z; alpha : spec_float }.

(** [std::clamp(alpha, 0.01, 1.0)]. *)
Definition clamp_alpha (a : spec_float) : spec_float :=
  let lo := fdiv (double_of 1) (double_of 100) in
  let hi := double_of 1 in
  if SFltb a lo then lo else if SFltb hi a then hi else a.
Definition half : spec_float := fdiv (double_of 1) (double_of 2).
Definition make (a : spec_float) : t := mk ∅ (clamp_alpha a).

Definition recordBurst `{FloatCast} (s : t) (p burst : Z) : t :=
  match predictions s !! p with
  | None => mk (emplace p burst (predictions s)) (alpha s)
  | Some old =>
      let oldValue := double_of old in
      let newValue := double_of burst in
      let predicted := fadd (fmul (alpha s) newValue)
                            (fmul (fsub (double_of 1) (alpha s)) oldValue) in
      mk (<[p := double_to_tick (fadd predicted half)]> (predictions s)) (alpha s)
  end.
Definition predictedBurst (s : t) (p : Z) : Z := default 0 (predictions s !! p).
Definition hasPrediction (s : t) (p : Z) : bool := bool_decide (is_Some (predictions s !! p)).
Definition clear (s : t) (p : Z) : t := mk (delete p (predictions s)) (alpha s).
Definition reset (s : t) : t := mk ∅ (alpha s).

(** The rounding of the weighted average, on concrete bursts. *)
Example average_4_10 `{FloatCast} :
  predictedBurst (recordBurst (recordBurst (make half) 1 4) 1 10) 1 = 7.
Proof. vm_compute. reflexivity. Qed.
Example average_3_4 `{FloatCast} :
  predictedBurst (recordBurst (recordBurst (make half) 1 3) 1 4) 1 = 4.
Proof. vm_compute. reflexivity. Qed.
End Statistics.
