(* ===== verification/Scheduler.v ===== *)
(** * Scheduler: [scheduling/scheduler.cpp]

    Ready queues per lane, running slots and the blocked list, all holding
    references to process control blocks owned elsewhere.  A reference is an
    address in the heap of PCBs; dereferencing a dangling one is undefined. *)
From S2P Require Import Prelude Core Process Policies.
Local Open Scope Z_scope.

Notation heap := (gmap Z PCB).

Definition toSnapshot (p : PCB) : Snapshot :=
  MkSnapshot (pcb_id p) (Process.arrivalTime (timing p)) (Process.lastStateChange (timing p))
    (Process.estimatedBurst (timing p)) (Process.remainingBurst (timing p))
    (Process.totalWaitTime (timing p)) (effective (priority p)) (Process.nice (priority p)).

(** ** Queues of references *)
Definition pid_at (h : heap) (r : Z) : option Z := pcb_id <$> h !! r.

Fixpoint asConst (h : heap) (queue : list Z) : option (list Snapshot) :=
  match queue with
  | [] => Some []
  | r :: queue' =>
      let! p := h !! r in
      let! out := asConst h queue' in
      Some (toSnapshot p :: out)
  end.

Fixpoint removeFrom (h : heap) (queue : list Z) (pid : Z) : option (list Z) :=
  match queue with
  | [] => Some []
  | r :: queue' =>
      let! i := pid_at h r in
      let! rest := removeFrom h queue' pid in
      Some (if i =? pid then rest else r :: rest)
  end.

Fixpoint findIn (h : heap) (queue : list Z) (pid : Z) : option (option Z) :=
  match queue with
  | [] => Some None
  | r :: queue' =>
      let! i := pid_at h r in
      if i =? pid then Some (Some r) else findIn h queue' pid
  end.

Section scheduler.
Context {P : Type} `{!ISchedulingPolicy P} `{!FloatCast}.

Record sched := MkSched {
  policy : option P;
  statistics : Statistics.t;
  processes : gmap Z Z;
  processLane : gmap Z nat;
  runStart : gmap Z Z;
  readyByLane : list (list Z);
  blocked : list Z;
  runningByLane : list (option Z)
}.

Definition Scheduler_make (pol : option P) : sched :=
  MkSched pol (Statistics.make Statistics.half) ∅ ∅ ∅ [[]] [] [None].

Definition set_queues (s : sched) (ready : list (list Z)) (bl : list Z) (run : list (option Z)) : sched :=
  MkSched (policy s) (statistics s) (processes s) (processLane s) (runStart s) ready bl run.
Definition set_lane_of (s : sched) (m : gmap Z nat) : sched :=
  MkSched (policy s) (statistics s) (processes s) m (runStart s) (readyByLane s) (blocked s)
    (runningByLane s).
Definition set_processes (s : sched) (m : gmap Z Z) : sched :=
  MkSched (policy s) (statistics s) m (processLane s) (runStart s) (readyByLane s) (blocked s)
    (runningByLane s).
Definition set_bursts (s : sched) (st : Statistics.t) (rs : gmap Z Z) : sched :=
  MkSched (policy s) st (processes s) (processLane s) rs (readyByLane s) (blocked s)
    (runningByLane s).

Definition isKnown (s : sched) (pid : Z) : bool := bool_decide (is_Some (processes s !! pid)).

Definition recordRunningBurst (s : sched) (pid now : Z) : sched :=
  match runStart s !! pid with
  | None => s
  | Some started =>
      set_bursts s
        (if started <=? now then Statistics.recordBurst (statistics s) pid (now - started)
         else statistics s)
        (delete pid (runStart s))
  end.

(** The loop over the running slots: the first lane running [pid]. *)
Fixpoint running_lane (h : heap) (slots : list (option Z)) (pid : Z) : option (option nat) :=
  match slots with
  | [] => Some None
  | None :: slots' => let! l := running_lane h slots' pid in Some (S <$> l)
  | Some r :: slots' =>
      let! i := pid_at h r in
      if i =? pid then Some (Some 0%nat)
      else let! l := running_lane h slots' pid in Some (S <$> l)
  end.
Definition findRunningLane (h : heap) (s : sched) (pid : Z) : option (option nat) :=
  running_lane h (runningByLane s) pid.

Fixpoint remove_all (h : heap) (queues : list (list Z)) (pid : Z) : option (list (list Z)) :=
  match queues with
  | [] => Some []
  | q :: queues' =>
      let! q' := removeFrom h q pid in
      let! rest := remove_all h queues' pid in
      Some (q' :: rest)
  end.
Fixpoint find_ready (h : heap) (queues : list (list Z)) (pid : Z) : option (option (nat * Z)) :=
  match queues with
  | [] => Some None
  | q :: queues' =>
      let! o := findIn h q pid in
      match o with
      | Some r => Some (Some (0%nat, r))
      | None => let! l := find_ready h queues' pid in Some ((λ '(i, r), (S i, r)) <$> l)
      end
  end.

(** [pcb.setState(...)] through a reference. *)
Definition set_state (h : heap) (r : Z) (st : ProcessState) (now : Z) : option (bool * heap) :=
  let! p := h !! r in
  let '(b, p') := setState p st now in Some (b, <[r := p']> h).

Definition outcome (A : Type) : Type := option (Result A * sched * heap).

(** The last part of [selectNextForLane_nolock]: the candidate takes the lane. *)
Definition dispatch_candidate (s : sched) (h : heap) (lane : nat) (candidateId r now : Z)
    : outcome Z :=
  let! ready := readyByLane s !! lane in
  let! ready' := removeFrom h ready candidateId in
  let s1 := set_queues s (<[lane := ready']> (readyByLane s)) (blocked s) (runningByLane s) in
  let! (moved, h1) := set_state h r Running now in
  if negb moved then Some (error ErrorCode.InvalidState, s1, h1) else
  let! id := pid_at h1 r in
  let s2 := set_queues s1 (readyByLane s1) (blocked s1) (<[lane := Some r]> (runningByLane s1)) in
  let s3 := set_lane_of s2 (<[id := lane]> (processLane s2)) in
  Some (ok id, set_bursts s3 (statistics s3) (<[id := now]> (runStart s3)), h1).

Definition selectNextForLane (s : sched) (h : heap) (laneIndex : nat) (now : Z) : outcome Z :=
  match readyByLane s !! laneIndex with
  | None => Some (error ErrorCode.InvalidArgument, s, h)
  | Some ready =>
      match policy s with
      | None => Some (error ErrorCode.InvalidState, s, h)
      | Some pol =>
          let! running := runningByLane s !! laneIndex in
          match ready, running with
          | [], Some r => let! id := pid_at h r in Some (ok id, s, h)
          | [], None => Some (error ErrorCode.NotFound, s, h)
          | _, _ =>
              let! snap := asConst h ready in
              let candidateId := selectNext pol snap now in
              if candidateId =? INVALID_PID then Some (error ErrorCode.InvalidState, s, h) else
              let! found := findIn h ready candidateId in
              match found with
              | None => Some (error ErrorCode.InvalidState, s, h)
              | Some cand =>
                  match running with
                  | None => dispatch_candidate s h laneIndex candidateId cand now
                  | Some r =>
                      let! rp := h !! r in
                      let! cp := h !! cand in
                      if negb (shouldPreempt pol (toSnapshot rp) (toSnapshot cp) now)
                      then Some (ok (pcb_id rp), s, h) else
                      let s1 := recordRunningBurst s (pcb_id rp) now in
                      let! (moved, h1) := set_state h r Ready now in
                      if negb moved then Some (error ErrorCode.InvalidState, s1, h1) else
                      let s2 := set_queues s1 (<[laneIndex := ready ++ [r]]> (readyByLane s1))
                                  (blocked s1) (<[laneIndex := None]> (runningByLane s1)) in
                      let s3 := set_lane_of s2 (<[pcb_id rp := laneIndex]> (processLane s2)) in
                      dispatch_candidate s3 h1 laneIndex candidateId cand now
                  end
              end
          end
      end
  end.

Definition sched_selectNext (s : sched) (h : heap) (now : Z) : outcome Z := selectNextForLane s h 0 now.

Definition enqueueToLane (s : sched) (h : heap) (r : Z) (laneIndex : nat) (now : Z) : outcome unit :=
  let! p := h !! r in
  let pid := pcb_id p in
  if (length (readyByLane s) <=? laneIndex)%nat then Some (error ErrorCode.InvalidArgument, s, h) else
  if pid =? INVALID_PID then Some (error ErrorCode.InvalidPid, s, h) else
  let s1 := set_processes s (if isKnown s pid then processes s else emplace pid r (processes s)) in
  let! queued := find_ready h (readyByLane s1) pid in
  match queued with
  | Some _ => Some (ok tt, s1, h)
  | None =>
      let! running := findRunningLane h s1 pid in
      match running with
      | Some _ => Some (ok tt, s1, h)
      | None =>
          if decide (state p = Running) then Some (error ErrorCode.InvalidState, s1, h) else
          let! (moved, h1) := set_state h r Ready now in
          if negb moved then Some (error ErrorCode.InvalidState, s1, h1) else
          let! p1 := h1 !! r in
          let p2 := if Statistics.hasPrediction (statistics s1) pid
                    then set_estimatedBurst p1 (Statistics.predictedBurst (statistics s1) pid)
                    else p1 in
          let! q := readyByLane s1 !! laneIndex in
          let s2 := set_queues s1 (<[laneIndex := q ++ [r]]> (readyByLane s1)) (blocked s1)
                      (runningByLane s1) in
          Some (ok tt, set_lane_of s2 (<[pid := laneIndex]> (processLane s2)), <[r := p2]> h1)
      end
  end.
Definition enqueue (s : sched) (h : heap) (r now : Z) : outcome unit := enqueueToLane s h r 0 now.

(** Emptying the slots that run [pid]. *)
Fixpoint clear_running (h : heap) (slots : list (option Z)) (pid : Z) : option (list (option Z)) :=
  match slots with
  | [] => Some []
  | None :: slots' => let! rest := clear_running h slots' pid in Some (None :: rest)
  | Some r :: slots' =>
      let! i := pid_at h r in
      let! rest := clear_running h slots' pid in
      Some ((if i =? pid then None else Some r) :: rest)
  end.

(** Forgetting a process: the bookkeeping maps. *)
Definition forget (s : sched) (pid : Z) : sched :=
  MkSched (policy s) (Statistics.clear (statistics s) pid) (delete pid (processes s))
    (delete pid (processLane s)) (delete pid (runStart s)) (readyByLane s) (blocked s)
    (runningByLane s).

Definition dequeue (s : sched) (h : heap) (pid : Z) : outcome unit :=
  if negb (isKnown s pid) then Some (error ErrorCode.NotFound, s, h) else
  let! run := clear_running h (runningByLane s) pid in
  let! ready := remove_all h (readyByLane s) pid in
  let! bl := removeFrom h (blocked s) pid in
  Some (ok tt, forget (set_queues s ready bl run) pid, h).

(** The lane with the longest ready queue, the first of equals, besides the
    thief's. *)
Fixpoint longest_other (queues : list (list Z)) (lane thief : nat) (best : option nat) (size : nat)
    : option nat * nat :=
  match queues with
  | [] => (best, size)
  | q :: queues' =>
      if decide (lane = thief) then longest_other queues' (S lane) thief best size
      else if (size <? length q)%nat
           then longest_other queues' (S lane) thief (Some lane) (length q)
           else longest_other queues' (S lane) thief best size
  end.

Definition stealNextForLane (s : sched) (h : heap) (thiefLane : nat) (now : Z) : outcome Z :=
  if (length (readyByLane s) <=? thiefLane)%nat then Some (error ErrorCode.InvalidArgument, s, h) else
  match longest_other (readyByLane s) 0 thiefLane None 0 with
  | (None, _) => Some (error ErrorCode.NotFound, s, h)
  | (Some victim, size) =>
      if (size =? 0)%nat then Some (error ErrorCode.NotFound, s, h) else
      let! vq := readyByLane s !! victim in
      let! stolen := head vq in
      let! id := pid_at h stolen in
      let ready1 := <[victim := tail vq]> (readyByLane s) in
      let! tq := ready1 !! thiefLane in
      let s1 := set_queues s (<[thiefLane := tq ++ [stolen]]> ready1) (blocked s) (runningByLane s) in
      selectNextForLane (set_lane_of s1 (<[id := thiefLane]> (processLane s1))) h thiefLane now
  end.

(** Blocking the process of a running slot. *)
Definition block_slot (s : sched) (h : heap) (lane : nat) (r now : Z) : outcome unit :=
  let! pid := pid_at h r in
  let s1 := recordRunningBurst s pid now in
  let! (moved, h1) := set_state h r Blocked now in
  if negb moved then Some (error ErrorCode.InvalidState, s1, h1) else
  Some (ok tt, set_queues s1 (readyByLane s1) (blocked s1 ++ [r])
                 (<[lane := None]> (runningByLane s1)), h1).

Fixpoint first_running (slots : list (option Z)) (lane : nat) : option (nat * Z) :=
  match slots with
  | [] => None
  | Some r :: _ => Some (lane, r)
  | None :: slots' => first_running slots' (S lane)
  end.

Definition blockRunning (s : sched) (h : heap) (now : Z) : outcome unit :=
  match first_running (runningByLane s) 0 with
  | None => Some (error ErrorCode.NotFound, s, h)
  | Some (lane, r) => block_slot s h lane r now
  end.

Definition blockProcess (s : sched) (h : heap) (pid now : Z) : outcome unit :=
  if negb (isKnown s pid) then Some (error ErrorCode.NotFound, s, h) else
  let! running := findRunningLane h s pid in
  match running with
  | Some lane =>
      let! slot := runningByLane s !! lane in
      let! r := slot in
      block_slot s h lane r now
  | None =>
      let! queued := find_ready h (readyByLane s) pid in
      match queued with
      | None => Some (error ErrorCode.NotFound, s, h)
      | Some (lane, r) =>
          let! (moved, h1) := set_state h r Blocked now in
          if negb moved then Some (error ErrorCode.InvalidState, s, h1) else
          let! q := readyByLane s !! lane in
          let! q' := removeFrom h1 q pid in
          Some (ok tt, set_queues s (<[lane := q']> (readyByLane s)) (blocked s ++ [r])
                         (runningByLane s), h1)
      end
  end.

Definition unblock (s : sched) (h : heap) (pid now : Z) : outcome unit :=
  let! found := findIn h (blocked s) pid in
  match found with
  | None => Some (error ErrorCode.NotFound, s, h)
  | Some r =>
      let! (moved, h1) := set_state h r Ready now in
      if negb moved then Some (error ErrorCode.InvalidState, s, h1) else
      let! bl := removeFrom h1 (blocked s) pid in
      let lane := default 0%nat (processLane s !! pid) in
      let lane := if (length (readyByLane s) <=? lane)%nat then 0%nat else lane in
      let! q := readyByLane s !! lane in
      let s1 := set_queues s (<[lane := q ++ [r]]> (readyByLane s)) bl (runningByLane s) in
      Some (ok tt, set_lane_of s1 (<[pid := lane]> (processLane s1)), h1)
  end.

Definition terminate (s : sched) (h : heap) (pid now : Z) : outcome unit :=
  if negb (isKnown s pid) then Some (error ErrorCode.NotFound, s, h) else
  let! running := findRunningLane h s pid in
  let! (r, s1) :=
    match running with
    | Some lane =>
        let! slot := runningByLane s !! lane in
        let! r := slot in
        let s0 := recordRunningBurst s pid now in
        Some (r, set_queues s0 (readyByLane s0) (blocked s0) (<[lane := None]> (runningByLane s0)))
    | None =>
        let! r := processes s !! pid in
        let! ready := remove_all h (readyByLane s) pid in
        let! bl := removeFrom h (blocked s) pid in
        Some (r, set_queues s ready bl (runningByLane s))
    end in
  let! (moved, h1) := set_state h r Terminated now in
  if negb moved then Some (error ErrorCode.InvalidState, s1, h1) else
  Some (ok tt, forget s1 pid, h1).

Definition configureLanes (s : sched) (laneCount : nat) : Result unit * sched :=
  if (laneCount =? 0)%nat then (error ErrorCode.InvalidArgument, s) else
  if negb (bool_decide (processes s = ∅)) then (error ErrorCode.InvalidState, s) else
  (ok tt, MkSched (policy s) (statistics s) (processes s) ∅ (runStart s)
            (replicate laneCount []) (blocked s) (replicate laneCount None)).

Definition setPolicy (s : sched) (pol : option P) : Result unit * sched :=
  match pol with
  | None => (error ErrorCode.InvalidState, s)
  | Some _ => (ok tt, MkSched pol (statistics s) (processes s) (processLane s) (runStart s)
                        (readyByLane s) (blocked s) (runningByLane s))
  end.
Definition sched_policyName (s : sched) : string :=
  match policy s with None => "Unconfigured" | Some p => policyName p end.

Definition laneCount (s : sched) : nat := length (readyByLane s).
Definition getPerLaneQueueSnapshot (s : sched) (h : heap) : option (list (list Z)) :=
  mapM (mapM (pid_at h)) (readyByLane s).
Definition getQueueSnapshot (s : sched) (h : heap) : option (list Z) :=
  mapM (pid_at h) (concat (readyByLane s)).
Definition getBlockedSnapshot (s : sched) (h : heap) : option (list Z) := mapM (pid_at h) (blocked s).
Definition runningProcesses (s : sched) (h : heap) : option (list Z) :=
  mapM (pid_at h) (omap id (runningByLane s)).
End scheduler.
Arguments sched : clear implicits.
Arguments outcome : clear implicits.
