(* ===== verification/SchedInvariant.v ===== *)
(** * SchedInvariant: the queues of [Scheduler] and the states of processes

    A scheduled process is in exactly one place, and that place agrees with
    its state. *)
From S2P Require Import Prelude Core Process Policies Scheduler.
Local Open Scope Z_scope.

(** ** Lists of lanes *)
Lemma concat_lane {A} (qs : list (list A)) (lane : nat) q :
  qs !! lane = Some q →
  ∃ rest, concat qs ≡ₚ q ++ rest ∧ ∀ q', concat (<[lane := q']> qs) ≡ₚ q' ++ rest.
Proof.
  intros Hq. apply list_elem_of_split_length in Hq as (l1 & l2 & -> & ->).
  exists (concat l1 ++ concat l2). split.
  - rewrite concat_app. simpl. by rewrite !(assoc_L (++)), (Permutation_app_comm q).
  - intros q'. rewrite insert_app_r_alt, Nat.sub_diag by lia. simpl. rewrite concat_app. simpl.
    by rewrite !(assoc_L (++)), (Permutation_app_comm q').
Qed.

Lemma slots_lane {A} (slots : list (option A)) (lane : nat) o :
  slots !! lane = Some o →
  ∃ rest, omap id slots ≡ₚ option_list o ++ rest ∧
    ∀ o', omap id (<[lane := o']> slots) ≡ₚ option_list o' ++ rest.
Proof.
  intros Ho. apply list_elem_of_split_length in Ho as (l1 & l2 & -> & ->).
  exists (omap id l1 ++ omap id l2). split.
  - rewrite omap_app. simpl. destruct o as [x|]; simpl; [|done]. by rewrite <-Permutation_middle.
  - intros o'. rewrite insert_app_r_alt, Nat.sub_diag by lia. simpl. rewrite omap_app. simpl.
    destruct o' as [x|]; simpl; [|done]. by rewrite <-Permutation_middle.
Qed.

Lemma slots_unique {A} (slots : list (option A)) (i j : nat) (x : A) :
  NoDup (omap id slots) → slots !! i = Some (Some x) → slots !! j = Some (Some x) → i = j.
Proof.
  revert i j. induction slots as [|[y|] slots IH]; intros [|i] [|j]; simpl; try done.
  - intros [Hy _]%NoDup_cons [= <-] Hj. destruct Hy. apply list_elem_of_omap.
    exists (Some y). split; [by eapply list_elem_of_lookup_2|done].
  - intros [Hy _]%NoDup_cons Hi [= <-]. destruct Hy. apply list_elem_of_omap.
    exists (Some y). split; [by eapply list_elem_of_lookup_2|done].
  - intros [_ Hn]%NoDup_cons Hi Hj. f_equal. by apply IH.
  - intros Hn Hi Hj. f_equal. by apply IH.
Qed.

(** ** References that are known by their pid *)
Definition known (h : heap) (procs : gmap Z Z) (r : Z) : Prop :=
  ∃ p, h !! r = Some p ∧ procs !! pcb_id p = Some r.

(** The process table is the inverse of the ids. *)
Definition table_ok (h : heap) (procs : gmap Z Z) : Prop :=
  ∀ pid r, procs !! pid = Some r → pid_at h r = Some pid ∧ pid ≠ INVALID_PID.

Section lookup.
Context (h : heap) (procs : gmap Z Z) (Ht : table_ok h procs).
Implicit Types (q : list Z) (r pid : Z).

Lemma known_pid r : known h procs r →
  ∃ i, pid_at h r = Some i ∧ procs !! i = Some r ∧ ∀ pid, (i =? pid) = bool_decide (procs !! pid = Some r).
Proof.
  intros (p & Hp & Hk). unfold pid_at. rewrite Hp. exists (pcb_id p). split_and!; [done|done|].
  intros pid. destruct (Z.eqb_spec (pcb_id p) pid) as [<-|Hne].
  - by rewrite bool_decide_eq_true_2.
  - rewrite bool_decide_eq_false_2; [done|]. intros Hr. apply Ht in Hr as [Hr _].
    unfold pid_at in Hr. rewrite Hp in Hr. naive_solver.
Qed.

Lemma removeFrom_spec q pid :
  Forall (known h procs) q → removeFrom h q pid = Some (filter (λ r, procs !! pid ≠ Some r) q).
Proof.
  induction 1 as [|r q Hr _ IH]; simpl; [done|].
  destruct (known_pid r Hr) as (i & -> & _ & Hi). rewrite IH, Hi. f_equal.
  rewrite filter_cons. case_bool_decide; case_decide; by tauto || done.
Qed.

Lemma remove_all_spec qs pid :
  Forall (known h procs) (concat qs) →
  remove_all h qs pid = Some (filter (λ r, procs !! pid ≠ Some r) <$> qs).
Proof.
  induction qs as [|q qs IH]; simpl; [done|]. intros [Hq Hqs]%Forall_app.
  by rewrite removeFrom_spec, IH.
Qed.

Lemma findIn_spec q pid :
  Forall (known h procs) q →
  findIn h q pid = Some (r ← procs !! pid; if decide (r ∈ q) then Some r else None).
Proof.
  induction 1 as [|r q Hr _ IH]; simpl.
  { by destruct (procs !! pid). }
  destruct (known_pid r Hr) as (i & -> & _ & Hi). rewrite IH, Hi. case_bool_decide as Hp.
  - rewrite Hp. cbn [mbind option_bind]. by rewrite decide_True by set_solver.
  - f_equal. destruct (procs !! pid) as [r0|]; [|done]. cbn [mbind option_bind].
    assert (r0 ≠ r) by congruence. repeat case_decide; set_solver.
Qed.

Lemma find_ready_spec qs pid :
  Forall (known h procs) (concat qs) →
  ∃ o, find_ready h qs pid = Some o ∧
    match o with
    | Some (lane, r) => procs !! pid = Some r ∧ ∃ q, qs !! lane = Some q ∧ r ∈ q
    | None => ∀ r, procs !! pid = Some r → r ∉ concat qs
    end.
Proof.
  induction qs as [|q qs IH]; simpl; [intros _; exists None; split; [done|set_solver]|].
  intros [Hq Hqs]%Forall_app. rewrite findIn_spec by done.
  destruct (IH Hqs) as (o & -> & Ho).
  destruct (procs !! pid) as [r|] eqn:Hp; simpl.
  - destruct (decide (r ∈ q)).
    + exists (Some (0%nat, r)). split; [done|]. split; [done|]. by exists q.
    + exists ((λ '(i, r), (S i, r)) <$> o). split; [done|]. destruct o as [[i r']|]; simpl.
      * destruct Ho as [? Ho]. done.
      * intros r' [= <-]. rewrite elem_of_app. specialize (Ho r eq_refl). tauto.
  - exists ((λ '(i, r), (S i, r)) <$> o). split; [done|]. destruct o as [[i r']|]; simpl; [|done].
    by destruct Ho.
Qed.

Lemma running_lane_spec slots pid :
  Forall (known h procs) (omap id slots) →
  ∃ o, running_lane h slots pid = Some o ∧
    match o with
    | Some lane => ∃ r, procs !! pid = Some r ∧ slots !! lane = Some (Some r)
    | None => ∀ r, procs !! pid = Some r → r ∉ omap id slots
    end.
Proof.
  induction slots as [|[r|] slots IH]; simpl.
  - intros _. exists None. split; [done|set_solver].
  - intros [Hr Hs]%Forall_cons. destruct (known_pid r Hr) as (i & -> & _ & Hi). rewrite Hi.
    case_bool_decide as Hp; [exists (Some 0%nat); split; [done|]; by exists r|].
    destruct (IH Hs) as (o & -> & Ho). exists (S <$> o). split; [done|]. destruct o as [lane|]; simpl.
    + destruct Ho as (r' & ? & ?). by exists r'.
    + intros r' Hr'. specialize (Ho r' Hr'). set_unfold. naive_solver.
  - intros Hs. destruct (IH Hs) as (o & -> & Ho). exists (S <$> o). split; [done|].
    destruct o as [lane|]; simpl; [|done]. destruct Ho as (r' & ? & ?). by exists r'.
Qed.

(** The slots without the process known under [pid]. *)
Definition clear_slots pid (slots : list (option Z)) : list (option Z) :=
  (λ o, r ← o; if decide (procs !! pid = Some r) then None else Some r) <$> slots.

Lemma omap_clear pid slots :
  omap id (clear_slots pid slots) = filter (λ r, procs !! pid ≠ Some r) (omap id slots).
Proof.
  unfold clear_slots. induction slots as [|[r|] slots IH]; [done| |done]. cbn.
  destruct (decide (procs !! pid = Some r)); case_decide; try done; by f_equal.
Qed.

Lemma clear_running_spec slots pid :
  Forall (known h procs) (omap id slots) → clear_running h slots pid = Some (clear_slots pid slots).
Proof.
  induction slots as [|[r|] slots IH]; simpl; [done| |by intros Hs; rewrite IH].
  intros [Hr Hs]%Forall_cons. destruct (known_pid r Hr) as (i & -> & _ & Hi). rewrite IH, Hi by done. cbn.
  case_bool_decide; case_decide; done.
Qed.

Lemma asConst_spec q :
  Forall (known h procs) q →
  ∃ snap, asConst h q = Some snap ∧ length snap = length q ∧
    ∀ s, s ∈ snap → ∃ r p, r ∈ q ∧ h !! r = Some p ∧ s = toSnapshot p.
Proof.
  induction 1 as [|r q (p & Hp & _) _ (snap & Hsn & Hl & Hs)]; simpl.
  - exists []. split_and!; [done|done|set_solver].
  - rewrite Hp, Hsn. eexists. split; [done|]. split; [simpl; lia|]. intros s [->|Hin]%elem_of_cons.
    + exists r, p. set_solver.
    + destruct (Hs s Hin) as (r' & p' & ? & ? & ?). exists r', p'. set_solver.
Qed.
End lookup.

(** ** The invariant *)
Section invariant.
Context {P : Type} `{HP : !ISchedulingPolicy P} `{HF : !FloatCast}.
Implicit Types (s : sched P) (h : heap) (r pid now : Z) (st : ProcessState) (lane : nat).

(** Where a reference sits, as the state it should be in. *)
Definition member s r st : Prop :=
  (st = Ready ∧ r ∈ concat (readyByLane s)) ∨
  (st = Running ∧ r ∈ omap id (runningByLane s)) ∨
  (st = Blocked ∧ r ∈ blocked s).

Record sched_wf s h : Prop := {
  w_lanes : length (readyByLane s) = length (runningByLane s) ∧ (0 < length (readyByLane s))%nat;
  w_table : table_ok h (processes s);
  w_member r st : member s r st →
    ∃ p, h !! r = Some p ∧ state p = st ∧ processes s !! pcb_id p = Some r;
  w_ready_nodup : NoDup (concat (readyByLane s));
  w_running_nodup : NoDup (omap id (runningByLane s));
  w_blocked_nodup : NoDup (blocked s)
}.

Lemma wf_known s h r st : sched_wf s h → member s r st → known h (processes s) r.
Proof. intros Hw Hm. destruct (w_member _ _ Hw _ _ Hm) as (p & ? & _ & ?). by exists p. Qed.
Lemma ready_known s h : sched_wf s h → Forall (known h (processes s)) (concat (readyByLane s)).
Proof. intros Hw. apply Forall_forall. intros r Hr. eapply (wf_known s h r Ready Hw). by left. Qed.
Lemma lane_known s h lane q : sched_wf s h → readyByLane s !! lane = Some q →
  Forall (known h (processes s)) q.
Proof.
  intros Hw Hq. pose proof (ready_known _ _ Hw) as Hall.
  destruct (concat_lane _ _ _ Hq) as (rest & Hp & _). rewrite Hp in Hall.
  by apply Forall_app in Hall as [? _].
Qed.
Lemma running_known s h : sched_wf s h → Forall (known h (processes s)) (omap id (runningByLane s)).
Proof. intros Hw. apply Forall_forall. intros r Hr. eapply (wf_known s h r Running Hw). right. by left. Qed.
Lemma blocked_known s h : sched_wf s h → Forall (known h (processes s)) (blocked s).
Proof. intros Hw. apply Forall_forall. intros r Hr. eapply (wf_known s h r Blocked Hw). right. by right. Qed.

Lemma lane_member s lane q r : readyByLane s !! lane = Some q → r ∈ q → member s r Ready.
Proof.
  intros Hq Hr. left. split; [done|]. destruct (concat_lane _ _ _ Hq) as (rest & -> & _). set_solver.
Qed.
Lemma slot_member s lane r : runningByLane s !! lane = Some (Some r) → member s r Running.
Proof.
  intros Hs. right. left. split; [done|]. destruct (slots_lane _ _ _ Hs) as (rest & -> & _). set_solver.
Qed.

(** A reference sits in one kind of place only. *)
Lemma member_state s h r st st' : sched_wf s h → member s r st → member s r st' → st = st'.
Proof.
  intros Hw H1 H2. destruct (w_member _ _ Hw _ _ H1) as (p & Hp & <- & _).
  destruct (w_member _ _ Hw _ _ H2) as (p' & Hp' & <- & _). congruence.
Qed.

Lemma ready_not_running s h r : sched_wf s h → member s r Ready → ¬ member s r Running.
Proof. intros Hw H1 H2. by pose proof (member_state _ _ _ _ _ Hw H1 H2). Qed.
Lemma ready_not_blocked s h r : sched_wf s h → member s r Ready → ¬ member s r Blocked.
Proof. intros Hw H1 H2. by pose proof (member_state _ _ _ _ _ Hw H1 H2). Qed.
Lemma running_not_blocked s h r : sched_wf s h → member s r Running → ¬ member s r Blocked.
Proof. intros Hw H1 H2. by pose proof (member_state _ _ _ _ _ Hw H1 H2). Qed.

(** Updating a PCB in place. *)
Lemma pid_at_update h r p p' : h !! r = Some p → pcb_id p' = pcb_id p →
  ∀ r', pid_at (<[r := p']> h) r' = pid_at h r'.
Proof.
  intros Hp Hi r'. unfold pid_at. destruct (decide (r' = r)) as [->|].
  - rewrite lookup_insert_eq, Hp. simpl. by rewrite Hi.
  - by rewrite lookup_insert_ne.
Qed.
Lemma table_update h r p p' procs : h !! r = Some p → pcb_id p' = pcb_id p →
  table_ok h procs → table_ok (<[r := p']> h) procs.
Proof. intros Hp Hi Ht pid r' Hr. rewrite (pid_at_update h r p p' Hp Hi). by apply Ht. Qed.

(** One process changes state and place; everybody else stays. *)
Lemma wf_move s s' h r p p' :
  sched_wf s h → h !! r = Some p → pcb_id p' = pcb_id p → processes s' = processes s →
  (length (readyByLane s') = length (readyByLane s) ∧
   length (runningByLane s') = length (runningByLane s)) →
  (∀ r' st, r' ≠ r → member s' r' st → member s r' st) →
  (∀ st, member s' r st → state p' = st ∧ processes s !! pcb_id p = Some r) →
  NoDup (concat (readyByLane s')) → NoDup (omap id (runningByLane s')) → NoDup (blocked s') →
  sched_wf s' (<[r := p']> h).
Proof.
  intros Hw Hp Hi Hpr [Hl1 Hl2] Hother Hself ???. destruct Hw as [[Hw1 Hw1'] Hw2 Hw3 _ _ _].
  split; try done.
  - rewrite Hl1, Hl2. done.
  - rewrite Hpr. by eapply table_update.
  - intros r' st Hm. rewrite Hpr. destruct (decide (r' = r)) as [->|Hne].
    + exists p'. rewrite lookup_insert_eq, Hi. destruct (Hself st Hm). done.
    + rewrite lookup_insert_ne by done. apply Hw3. by apply Hother.
Qed.

Lemma setState_moves p st now :
  isValidTransition (state p) st = true →
  (setState p st now).1 = true ∧ state (setState p st now).2 = st ∧
  pcb_id (setState p st now).2 = pcb_id p.
Proof. intros H. split_and!; [| |apply setState_id]; unfold setState; by rewrite H. Qed.

Lemma set_state_ok h r p st now :
  h !! r = Some p → isValidTransition (state p) st = true →
  set_state h r st now = Some (true, <[r := (setState p st now).2]> h).
Proof.
  intros Hp Hv. unfold set_state. rewrite Hp. destruct (setState_moves p st now Hv) as (H1 & _ & _).
  destruct (setState p st now). by simpl in *; subst.
Qed.
Lemma set_state_refused h r p st now :
  h !! r = Some p → isValidTransition (state p) st = false →
  set_state h r st now = Some (false, h).
Proof.
  intros Hp Hv. unfold set_state, setState. rewrite Hp, Hv. simpl. by rewrite insert_id.
Qed.
End invariant.
