(* ===== verification/SchedProps.v ===== *)
(** * SchedProps: the scheduler's operations

    Every operation is defined on a well-formed scheduler and keeps it well
    formed; what each one does to the queues. *)
From S2P Require Import Prelude Core Process Policies Scheduler SchedInvariant.
Local Open Scope Z_scope.

(** The operation left the scheduler as it was. *)
Ltac stay := split; [reflexivity|]; split_and!; simpl; auto 10.

Section ops.
Context {P : Type} `{HP : !ISchedulingPolicy P} `{HL : !LawfulSchedulingPolicy P} `{HF : !FloatCast}.
Implicit Types (s : sched P) (h : heap) (r pid now : Z) (st : ProcessState) (lane : nat).

(** The state of a process after a legal move. *)
Definition moved_to h r st now : heap :=
  match h !! r with Some p => <[r := (setState p st now).2]> h | None => h end.

Lemma moved_to_eq h r p st now : h !! r = Some p → moved_to h r st now = <[r := (setState p st now).2]> h.
Proof. unfold moved_to. by intros ->. Qed.

(** What differs between two scheduler states, besides the queues, is only the
    bookkeeping. *)
Definition same_table s s' : Prop := processes s' = processes s ∧ policy s' = policy s.
Lemma same_table_refl s : same_table s s.
Proof. done. Qed.
Hint Resolve same_table_refl : core.

Lemma burst_queues s pid now :
  let s' := recordRunningBurst s pid now in
  readyByLane s' = readyByLane s ∧ runningByLane s' = runningByLane s ∧ blocked s' = blocked s ∧
  processes s' = processes s ∧ policy s' = policy s ∧ processLane s' = processLane s.
Proof. unfold recordRunningBurst. by destruct (runStart s !! pid). Qed.

(** Well-formedness does not look at bursts, lanes of origin or the policy. *)
Lemma wf_bookkeeping s s' h :
  sched_wf s h → readyByLane s' = readyByLane s → runningByLane s' = runningByLane s →
  blocked s' = blocked s → processes s' = processes s → sched_wf s' h.
Proof.
  intros [H1 H2 H3 H4 H5 H6] E1 E2 E3 E4.
  split; unfold member in *; rewrite ?E1, ?E2, ?E3, ?E4; done.
Qed.

Lemma filter_ne_elem r (q : list Z) x : x ∈ filter (λ x, Some r ≠ Some x) q ↔ x ≠ r ∧ x ∈ q.
Proof. rewrite list_elem_of_filter. split; intros [? ?]; split; congruence. Qed.

(** ** Giving a lane to a ready process *)
Lemma dispatch_ok s h lane ready r p now :
  sched_wf s h → readyByLane s !! lane = Some ready → r ∈ ready → h !! r = Some p →
  runningByLane s !! lane = Some None →
  ∃ s', dispatch_candidate s h lane (pcb_id p) r now = Some (ok (pcb_id p), s', moved_to h r Running now) ∧
    sched_wf s' (moved_to h r Running now) ∧ same_table s s' ∧
    readyByLane s' = <[lane := filter (λ x, Some r ≠ Some x) ready]> (readyByLane s) ∧
    runningByLane s' = <[lane := Some r]> (runningByLane s) ∧ blocked s' = blocked s ∧
    processLane s' = <[pcb_id p := lane]> (processLane s).
Proof.
  intros Hw Hq Hr Hp Hrun.
  destruct (concat_lane _ _ _ Hq) as (rest & Hc & Hci).
  destruct (slots_lane _ _ _ Hrun) as (rrest & Hsl & Hsli). simpl in Hsl.
  assert (member s r Ready) as Hm by (left; split; [done|]; rewrite Hc; set_solver).
  destruct (w_member _ _ Hw _ _ Hm) as (p' & Hp' & Hst & Hk). simplify_eq.
  destruct (setState_moves p Running now) as (H1 & H2 & H3); [by rewrite Hst|].
  pose proof (w_table _ _ Hw) as Ht.
  unfold dispatch_candidate. rewrite Hq, (removeFrom_spec h (processes s) Ht) by (by eapply lane_known).
  rewrite (set_state_ok h r p) by (done || by rewrite Hst). rewrite (moved_to_eq h r p) by done.
  unfold pid_at. rewrite lookup_insert_eq. simpl. rewrite H3, Hk.
  eexists. split; [done|]. split; [|done].
  pose proof (w_ready_nodup _ _ Hw) as Hnd. rewrite Hc in Hnd.
  apply NoDup_app in Hnd as (Hn1 & Hn2 & Hn3).
  eapply (wf_move s _ h r p); try done; simpl.
  - by rewrite !length_insert.
  - intros r' st Hne. unfold member. simpl. rewrite Hci, Hc, Hsli, Hsl. simpl.
    rewrite !elem_of_app, filter_ne_elem. set_solver.
  - intros st. unfold member. simpl. rewrite Hci, Hsli. simpl.
    rewrite !elem_of_app, filter_ne_elem, H2. intros [[-> Hin]|[[-> _]|[-> Hin]]].
    + exfalso. destruct Hin as [[? _]|Hin]; [done|]. by apply (Hn2 r).
    + done.
    + exfalso. assert (member s r Blocked) as Hb by (right; by right).
      by pose proof (member_state _ _ _ _ _ Hw Hm Hb).
  - rewrite Hci. apply NoDup_app. split_and!; [by apply NoDup_filter| |done].
    intros x [_ Hx]%filter_ne_elem. by apply Hn2.
  - rewrite Hsli. simpl. apply NoDup_cons. split.
    + rewrite <-Hsl. intros Hin. assert (member s r Running) as Hb by (right; by left).
      by pose proof (member_state _ _ _ _ _ Hw Hm Hb).
    + rewrite <-Hsl. apply Hw.
  - apply Hw.
Qed.

(** A running process goes back to the end of its lane's queue. *)
Lemma preempt_wf s s' h lane ready r now :
  sched_wf s h → readyByLane s !! lane = Some ready → runningByLane s !! lane = Some (Some r) →
  processes s' = processes s → readyByLane s' = <[lane := ready ++ [r]]> (readyByLane s) →
  runningByLane s' = <[lane := None]> (runningByLane s) → blocked s' = blocked s →
  sched_wf s' (moved_to h r Ready now) ∧
  ∃ p, h !! r = Some p ∧ state p = Running ∧ processes s !! pcb_id p = Some r.
Proof.
  intros Hw Hq Hrun E1 E2 E3 E4.
  destruct (concat_lane _ _ _ Hq) as (rest & Hc & Hci).
  destruct (slots_lane _ _ _ Hrun) as (rrest & Hsl & Hsli). simpl in Hsl.
  assert (member s r Running) as Hm by (right; left; split; [done|]; rewrite Hsl; set_solver).
  destruct (w_member _ _ Hw _ _ Hm) as (p & Hp & Hst & Hk). split; [|by exists p].
  destruct (setState_moves p Ready now) as (H1 & H2 & H3); [by rewrite Hst|].
  rewrite (moved_to_eq h r p) by done.
  assert (r ∉ concat (readyByLane s)) as Hnr.
  { intros Hin. assert (member s r Ready) as Hb by (by left).
    by pose proof (member_state _ _ _ _ _ Hw Hm Hb). }
  assert (r ∉ blocked s) as Hnb.
  { intros Hin. assert (member s r Blocked) as Hb by (right; by right).
    by pose proof (member_state _ _ _ _ _ Hw Hm Hb). }
  pose proof (w_running_nodup _ _ Hw) as Hnd. rewrite Hsl in Hnd. apply NoDup_cons in Hnd as [Hnd1 Hnd2].
  eapply (wf_move s s' h r p); try done.
  - rewrite E2, E3. by rewrite !length_insert.
  - intros r' st Hne. unfold member. rewrite E2, E3, E4, Hci, Hc, Hsli, Hsl. simpl. set_solver.
  - intros st. unfold member. rewrite E2, E3, E4, Hsli, H2. simpl.
    intros [[-> _]|[[-> Hin]|[-> Hin]]]; [done|..]; exfalso; [by apply Hnd1|done].
  - rewrite E2, Hci, (Permutation_app_comm ready), <-(assoc_L (++)), <-Hc. simpl.
    apply NoDup_cons. split; [done|]. apply Hw.
  - rewrite E3, Hsli. simpl. done.
  - rewrite E4. apply Hw.
Qed.

(** The state the preempted lane is left in before the candidate takes it. *)
Definition requeued s lane (ready : list Z) r pid now : sched P :=
  let s1 := recordRunningBurst s pid now in
  let s2 := set_queues s1 (<[lane := ready ++ [r]]> (readyByLane s1)) (blocked s1)
              (<[lane := None]> (runningByLane s1)) in
  set_lane_of s2 (<[pid := lane]> (processLane s2)).

Lemma preempt_ok s h lane ready r now :
  sched_wf s h → readyByLane s !! lane = Some ready → runningByLane s !! lane = Some (Some r) →
  ∃ p, h !! r = Some p ∧ state p = Running ∧ processes s !! pcb_id p = Some r ∧
    let s3 := requeued s lane ready r (pcb_id p) now in
    readyByLane s3 = <[lane := ready ++ [r]]> (readyByLane s) ∧
    runningByLane s3 = <[lane := None]> (runningByLane s) ∧ blocked s3 = blocked s ∧
    processes s3 = processes s ∧ policy s3 = policy s ∧
    processLane s3 = <[pcb_id p := lane]> (processLane s) ∧ sched_wf s3 (moved_to h r Ready now).
Proof.
  intros Hw Hq Hrun.
  destruct (preempt_wf s (set_queues s (<[lane := ready ++ [r]]> (readyByLane s)) (blocked s)
    (<[lane := None]> (runningByLane s))) h lane ready r now Hw Hq Hrun) as [Hw' (p & Hp & Hst & Hk)]; [done..|].
  exists p. split_and!; [done..|]. destruct (burst_queues s (pcb_id p) now) as (E1 & E2 & E3 & E4 & E5 & E6).
  unfold requeued. simpl. rewrite E1, E2, E3, E4, E5, E6. split_and!; [done..|].
  eapply wf_bookkeeping; [exact Hw'|..]; simpl; by rewrite ?E1, ?E2, ?E3, ?E4.
Qed.

(** The candidate a lawful policy names is in the queue. *)
Lemma candidate_ok s h lane ready pol now :
  sched_wf s h → readyByLane s !! lane = Some ready → ready ≠ [] →
  ∃ snap r p, asConst h ready = Some snap ∧ r ∈ ready ∧ h !! r = Some p ∧
    selectNext pol snap now = pcb_id p ∧ pcb_id p ≠ INVALID_PID ∧
    findIn h ready (pcb_id p) = Some (Some r).
Proof.
  intros Hw Hq Hne. pose proof (lane_known _ _ _ _ Hw Hq) as Hk.
  pose proof (w_table _ _ Hw) as Ht.
  destruct (asConst_spec h (processes s) Ht ready Hk) as (snap & Hs & Hl & Hin).
  destruct (select_member pol snap now) as (sn & Hsn & Hsel); [by destruct ready, snap|].
  destruct (Hin sn Hsn) as (r & p & Hr & Hp & ->). exists snap, r, p.
  rewrite Forall_forall in Hk. destruct (Hk r Hr) as (p' & Hp' & Hpr). simplify_eq.
  split_and!; try done; [by eapply Ht|].
  rewrite (findIn_spec h (processes s) Ht) by (by apply Forall_forall). rewrite Hpr.
  cbn [mbind option_bind]. by rewrite decide_True.
Qed.

(** The preempted process has its home on the lane. *)
Definition back_on lane h (running : option Z) (home : gmap Z nat) : gmap Z nat :=
  match running ≫= pid_at h with Some i => <[i := lane]> home | None => home end.

(** What [selectNextForLane] did, when it answered a pid. *)
Definition selected s h lane pid s' h' now : Prop :=
  ∃ r ready running, readyByLane s !! lane = Some ready ∧ runningByLane s !! lane = Some running ∧
    processes s !! pid = Some r ∧ runningByLane s' !! lane = Some (Some r) ∧
    (running = Some r ∧ s' = s ∧ h' = h ∨
     r ∈ ready ∧ processLane s' = <[pid := lane]> (back_on lane h running (processLane s)) ∧
     readyByLane s' = <[lane := filter (λ x, Some r ≠ Some x) (ready ++ option_list running)]> (readyByLane s) ∧
     runningByLane s' = <[lane := Some r]> (runningByLane s) ∧
     h' = moved_to (match running with Some x => moved_to h x Ready now | None => h end) r Running now).

(** A lane that names [r] running after dispatching it. *)
Lemma ran_selected s s' h h' lane ready running r p now :
  readyByLane s !! lane = Some ready → runningByLane s !! lane = Some running →
  r ∈ ready → processes s !! pcb_id p = Some r →
  processLane s' = <[pcb_id p := lane]> (back_on lane h running (processLane s)) →
  readyByLane s' = <[lane := filter (λ x, Some r ≠ Some x) (ready ++ option_list running)]> (readyByLane s) →
  runningByLane s' = <[lane := Some r]> (runningByLane s) →
  h' = moved_to (match running with Some x => moved_to h x Ready now | None => h end) r Running now →
  selected s h lane (pcb_id p) s' h' now.
Proof.
  intros Hq Hrun Hr Hpr Hl Hrd Hrn Hh. exists r, ready, running. split_and!; [done..| |by right].
  rewrite Hrn. apply list_lookup_insert_eq. by eapply lookup_lt_Some.
Qed.

(** The candidate of a busy lane displaces the process running there. *)
Lemma displace_ok s h lane ready x r p now :
  sched_wf s h → readyByLane s !! lane = Some ready → runningByLane s !! lane = Some (Some x) →
  r ∈ ready → h !! r = Some p → processes s !! pcb_id p = Some r → member s r Ready →
  ∃ px s', h !! x = Some px ∧ state px = Running ∧ processes s !! pcb_id px = Some x ∧
    let h' := moved_to (moved_to h x Ready now) r Running now in
    dispatch_candidate (requeued s lane ready x (pcb_id px) now) (moved_to h x Ready now) lane (pcb_id p) r now =
      Some (ok (pcb_id p), s', h') ∧
    sched_wf s' h' ∧ same_table s s' ∧ blocked s' = blocked s ∧ selected s h lane (pcb_id p) s' h' now.
Proof.
  intros Hw Hq Hrun Hr Hp Hpr Hmr.
  destruct (preempt_ok s h lane ready x now Hw Hq Hrun)
    as (px & Hpx & Hsx & Hkx & E1 & E2 & E3 & E4 & E5 & E6 & Hw3).
  exists px. set (s3 := requeued _ _ _ _ _ _) in *.
  assert (x ≠ r) as Hxr.
  { intros ->. pose proof (w_member s h Hw r Ready Hmr) as (? & ? & ? & _). congruence. }
  assert (moved_to h x Ready now !! r = Some p) as Hp3.
  { rewrite (moved_to_eq h x px) by done. by rewrite lookup_insert_ne. }
  assert (readyByLane s3 !! lane = Some (ready ++ [x])) as Hq3.
  { rewrite E1. apply list_lookup_insert_eq. by eapply lookup_lt_Some. }
  assert (runningByLane s3 !! lane = Some None) as Hr3.
  { rewrite E2. apply list_lookup_insert_eq. by eapply lookup_lt_Some. }
  destruct (dispatch_ok s3 (moved_to h x Ready now) lane (ready ++ [x]) r p now Hw3 Hq3 ltac:(set_solver) Hp3 Hr3)
    as (s' & Hd & Hw' & [Hst1 Hst2] & Hrd & Hrn & Hbl & Hpl).
  exists s'. cbv zeta. split_and!; [done..|split; congruence|congruence|].
  apply (ran_selected s s' h _ lane ready (Some x) r p now); try done.
  - unfold back_on, pid_at. simpl. by rewrite Hpx, Hpl, E6.
  - by rewrite Hrd, E1, list_insert_insert_eq.
  - by rewrite Hrn, E2, list_insert_insert_eq.
Qed.

(** A lane with nobody waiting keeps its process, or has none to give. *)
Lemma keep_selected s h lane ready r now :
  sched_wf s h → readyByLane s !! lane = Some ready → runningByLane s !! lane = Some (Some r) →
  ∃ p, h !! r = Some p ∧ selected s h lane (pcb_id p) s h now.
Proof.
  intros Hw Hq Hrun. assert (member s r Running) as Hm.
  { right; left. split; [done|]. destruct (slots_lane _ _ _ Hrun) as (rest & -> & _). set_solver. }
  destruct (w_member _ _ Hw _ _ Hm) as (p & Hp & _ & Hk). exists p. split; [done|].
  exists r, ready, (Some r). split_and!; auto.
Qed.

Lemma selectNext_ok s h lane now :
  sched_wf s h →
  ∃ res s' h', selectNextForLane s h lane now = Some (res, s', h') ∧ sched_wf s' h' ∧ same_table s s' ∧
    blocked s' = blocked s ∧
    match res with
    | ok pid => selected s h lane pid s' h' now
    | error e => s' = s ∧ h' = h ∧
        (e = ErrorCode.InvalidArgument ∧ readyByLane s !! lane = None ∨
         e = ErrorCode.InvalidState ∧ policy s = None ∨
         e = ErrorCode.NotFound ∧ readyByLane s !! lane = Some [] ∧ runningByLane s !! lane = Some None)
    end.
Proof.
  intros Hw. unfold selectNextForLane. destruct (readyByLane s !! lane) as [ready|] eqn:Hq.
  2: { eexists _, s, h. stay. }
  destruct (policy s) as [pol|] eqn:Hpol; [|eexists _, s, h; stay].
  destruct (w_lanes _ _ Hw) as [Hlen _].
  destruct (lookup_lt_is_Some_2 (runningByLane s) lane) as [running Hrun].
  { rewrite <-Hlen. by eapply lookup_lt_Some. }
  rewrite Hrun. destruct (decide (ready = [])) as [->|Hne].
  { destruct running as [r|]; [|eexists _, s, h; stay].
    destruct (keep_selected s h lane [] r now Hw Hq Hrun) as (p & Hp & Hsel).
    unfold pid_at. rewrite Hp. simpl. eexists _, s, h. stay. }
  destruct (candidate_ok s h lane ready pol now Hw Hq Hne)
    as (snap & r & p & Hs & Hr & Hp & Hsel & Hinv & Hfind).
  assert (member s r Ready) as Hmr.
  { left; split; [done|]. destruct (concat_lane _ _ _ Hq) as (rest & -> & _). set_solver. }
  assert (processes s !! pcb_id p = Some r) as Hpr.
  { destruct (w_member s h Hw r Ready Hmr) as (p' & Hp' & _ & Hk). by simplify_eq. }
  destruct ready as [|r0 q0]; [done|].
  destruct running as [x|]; rewrite Hs, Hsel; destruct (Z.eqb_spec (pcb_id p) INVALID_PID); try done; rewrite Hfind.
  - destruct (displace_ok s h lane (r0 :: q0) x r p now Hw Hq Hrun Hr Hp Hpr Hmr)
      as (px & s' & Hpx & Hsx & _ & Hd & Hw' & Hst & Hbl & Hse).
    rewrite Hpx, Hp. destruct (shouldPreempt pol (toSnapshot px) (toSnapshot p) now); simpl.
    2: { destruct (keep_selected s h lane (r0 :: q0) x now Hw Hq Hrun) as (? & ? & ?). simplify_eq.
         eexists _, s, h. stay. }
    rewrite (set_state_ok h x px Ready now Hpx) by by rewrite Hsx. cbn [negb].
    rewrite <-(moved_to_eq h x px) by done. 
    match goal with |- context [dispatch_candidate ?s3] =>
      change s3 with (requeued s lane (r0 :: q0) x (pcb_id px) now) end.
    rewrite Hd. eauto 10.
  - destruct (dispatch_ok s h lane (r0 :: q0) r p now Hw Hq Hr Hp Hrun)
      as (s' & -> & Hw' & Hst & Hrd & Hrn & Hbl & Hpl).
    eexists _, s', _. split_and!; [done..|].
    apply (ran_selected s s' h _ lane (r0 :: q0) None r p now); try done. by rewrite app_nil_r.
Qed.

(** Selection loses nobody: whoever was queued, running or blocked still is. *)
Lemma selected_members s h lane pid s' h' now x st :
  selected s h lane pid s' h' now → blocked s' = blocked s → member s x st → ∃ st', member s' x st'.
Proof.
  intros (r & ready & running & Hq & Hrun & _ & _ & Hcase) Hb Hm.
  destruct Hcase as [(_ & -> & _)|(Hin & _ & Hrd & Hrn & _)]; [by exists st|].
  destruct (concat_lane _ _ _ Hq) as (rest & Hc & Hci).
  destruct (slots_lane _ _ _ Hrun) as (rrest & Hsl & Hsli).
  assert (∀ y, y ∈ concat (readyByLane s') ↔
    (y ≠ r ∧ (y ∈ ready ∨ y ∈ option_list running)) ∨ y ∈ rest) as HR.
  { intros y. by rewrite Hrd, Hci, elem_of_app, filter_ne_elem, elem_of_app. }
  assert (∀ y, y ∈ omap id (runningByLane s') ↔ y = r ∨ y ∈ rrest) as HU.
  { intros y. rewrite Hrn, Hsli. simpl. apply elem_of_cons. }
  unfold member in *. rewrite Hc, Hsl in Hm.
  destruct (decide (x = r)) as [->|Hne].
  { exists Running. right. left. split; [done|]. apply HU. by left. }
  destruct Hm as [[_ [H|H]%elem_of_app]|[[_ [H|H]%elem_of_app]|[_ H]]].
  - exists Ready. left. split; [done|]. apply HR. auto.
  - exists Ready. left. split; [done|]. apply HR. auto.
  - exists Ready. left. split; [done|]. apply HR. auto.
  - exists Running. right. left. split; [done|]. apply HU. auto.
  - exists Blocked. right. right. split; [done|]. by rewrite Hb.
Qed.
End ops.
