(* ===== verification/SchedSteps.v ===== *)
(** * SchedSteps: blocking, stealing, leaving and entering the scheduler

    The remaining operations of [Scheduler], and runs of all of them. *)
From S2P Require Import Prelude Core Process Policies Scheduler SchedInvariant SchedProps.
Local Open Scope Z_scope.

Section steps.
Context {P : Type} `{HP : !ISchedulingPolicy P} `{HL : !LawfulSchedulingPolicy P} `{HF : !FloatCast}.
Implicit Types (s : sched P) (h : heap) (r pid now : Z) (st : ProcessState) (lane : nat).

(** ** Shared facts *)
Lemma removeFrom_pids h h1 q pid :
  (∀ r, pid_at h1 r = pid_at h r) → removeFrom h1 q pid = removeFrom h q pid.
Proof. intros He. induction q as [|r q IH]; simpl; [done|]. by rewrite He, IH. Qed.

Lemma moved_pids h r st now r' : pid_at (moved_to h r st now) r' = pid_at h r'.
Proof.
  unfold moved_to. destruct (h !! r) as [p|] eqn:Hp; [|done].
  apply (pid_at_update h r p); [done|]. apply setState_id.
Qed.

(** Only membership, up to the order inside and between the queues, matters. *)
Lemma wf_subset s s' h :
  sched_wf s h → processes s' = processes s →
  length (readyByLane s') = length (readyByLane s) →
  length (runningByLane s') = length (runningByLane s) →
  (∀ r st, member s' r st → member s r st) →
  NoDup (concat (readyByLane s')) → NoDup (omap id (runningByLane s')) → NoDup (blocked s') →
  sched_wf s' h.
Proof.
  intros [[Hl Hl'] Ht Hm _ _ _] Hp L1 L2 Hsub ???. split; try done; [|by rewrite Hp|].
  - rewrite L1, L2. done.
  - intros r st H'. rewrite Hp. by apply Hm, Hsub.
Qed.

(** A process nobody queues can be forgotten. *)
Lemma wf_forget s h pid :
  sched_wf s h → (∀ r st, processes s !! pid = Some r → ¬ member s r st) → sched_wf (forget s pid) h.
Proof.
  intros [Hl Ht Hm ???] Hno. split; try done; simpl.
  - intros pid' r. rewrite lookup_delete_Some. intros [_ Hr]. by apply Ht.
  - intros r st Hmem. destruct (Hm r st Hmem) as (p & Hp & Hst & Hk). exists p. split_and!; try done.
    rewrite lookup_delete_ne; [done|]. intros ->. by apply (Hno r st Hk).
Qed.

(** The two ways to drop a pid from every queue. *)
Lemma filtered_not_in s pid r (l : list Z) :
  processes s !! pid = Some r → r ∉ filter (λ x, processes s !! pid ≠ Some x) l.
Proof. rewrite list_elem_of_filter. intros Hr [? _]. done. Qed.
Lemma concat_filter (Q : Z → Prop) `{!∀ x, Decision (Q x)} (qs : list (list Z)) :
  concat (filter Q <$> qs) = filter Q (concat qs).
Proof. induction qs as [|q qs IH]; [done|]. cbn. by rewrite filter_app, <-IH. Qed.

(** ** Blocking *)
Lemma block_slot_ok s h lane r now :
  sched_wf s h → runningByLane s !! lane = Some (Some r) →
  ∃ p s', h !! r = Some p ∧ state p = Running ∧ processes s !! pcb_id p = Some r ∧
    block_slot s h lane r now = Some (ok tt, s', moved_to h r Blocked now) ∧
    sched_wf s' (moved_to h r Blocked now) ∧ same_table s s' ∧ processLane s' = processLane s ∧
    readyByLane s' = readyByLane s ∧ runningByLane s' = <[lane := None]> (runningByLane s) ∧
    blocked s' = blocked s ++ [r].
Proof.
  intros Hw Hrun. destruct (slots_lane _ _ _ Hrun) as (rrest & Hsl & Hsli). simpl in Hsl.
  assert (member s r Running) as Hm by (right; left; split; [done|]; rewrite Hsl; set_solver).
  destruct (w_member _ _ Hw _ _ Hm) as (p & Hp & Hst & Hk).
  destruct (setState_moves p Blocked now) as (H1 & H2 & H3); [by rewrite Hst|].
  destruct (burst_queues s (pcb_id p) now) as (E1 & E2 & E3 & E4 & E5 & E6).
  unfold block_slot, pid_at. rewrite Hp. simpl.
  rewrite (set_state_ok h r p) by (done || by rewrite Hst). rewrite <-(moved_to_eq h r p) by done. simpl.
  exists p. eexists. split; [done|]. split; [done|]. split; [done|]. split; [done|].
  split; [|split_and!; simpl; by rewrite ?E1, ?E2, ?E3].
  assert (∀ st, member s r st → st = Running) as Honly by (intros st Hb; by eapply member_state).
  pose proof (w_running_nodup _ _ Hw) as Hnd. rewrite Hsl in Hnd. apply NoDup_cons in Hnd as [Hnd1 Hnd2].
  rewrite (moved_to_eq h r p) by done. eapply (wf_move s _ h r p); try done; simpl.
  - rewrite E1, E2. by rewrite length_insert.
  - intros r' st Hne. unfold member. simpl. rewrite E1, E2, E3, Hsli, Hsl. set_solver.
  - intros st. unfold member. simpl. rewrite E1, E2, Hsli, H2. intros [[-> Hin]|[[-> Hin]|[-> Hin]]].
    + exfalso. assert (member s r Ready) as Hb by by left. by apply Honly in Hb.
    + by destruct Hnd1.
    + done.
  - rewrite E1. apply Hw.
  - rewrite E2, Hsli. done.
  - rewrite E3. apply NoDup_app. split_and!; [apply Hw| |apply NoDup_singleton].
    intros x Hx ->%list_elem_of_singleton. assert (member s r Blocked) as Hb by (right; by right).
    by apply Honly in Hb.
Qed.

Lemma first_running_spec (slots : list (option Z)) n :
  match first_running slots n with
  | Some (lane, r) => ∃ i, lane = (n + i)%nat ∧ slots !! i = Some (Some r) ∧ ∃ l, omap id slots = r :: l
  | None => omap id slots = []
  end.
Proof.
  revert n. induction slots as [|[r|] slots IH]; intros n; simpl; [done|exists 0%nat; split; [lia|]; eauto|].
  specialize (IH (S n)). destruct (first_running slots (S n)) as [[lane r]|]; [|done].
  destruct IH as (i & -> & Hi). exists (S i). split; [lia|done].
Qed.

(** Outcomes of an operation that keeps the scheduler well formed. *)
Definition safe {A} (o : outcome P A) : Prop := ∃ res s' h', o = Some (res, s', h') ∧ sched_wf s' h'.
Lemma safe_stay {A} s h (res : Result A) : sched_wf s h → safe (Some (res, s, h)).
Proof. intros. by exists res, s, h. Qed.

Lemma blockRunning_safe s h now : sched_wf s h → safe (blockRunning s h now).
Proof.
  intros Hw. unfold blockRunning. pose proof (first_running_spec (runningByLane s) 0) as Hf.
  destruct (first_running _ _) as [[lane r]|]; [|by apply safe_stay]. destruct Hf as (i & -> & Hi & _).
  destruct (block_slot_ok s h i r now Hw Hi) as (p & s' & _ & _ & _ & Hb & Hw' & _).
  exists (ok tt), s', (moved_to h r Blocked now). done.
Qed.

(** A ready process cannot be blocked: the transition table has no edge from
    [Ready] to [Blocked]. *)
Lemma blockProcess_ok s h pid now :
  sched_wf s h →
  (∃ lane r s', runningByLane s !! lane = Some (Some r) ∧ processes s !! pid = Some r ∧
     blockProcess s h pid now = Some (ok tt, s', moved_to h r Blocked now) ∧
     sched_wf s' (moved_to h r Blocked now) ∧ same_table s s' ∧ processLane s' = processLane s ∧
     readyByLane s' = readyByLane s ∧ runningByLane s' = <[lane := None]> (runningByLane s) ∧
     blocked s' = blocked s ++ [r]) ∨
  (∃ e, blockProcess s h pid now = Some (error e, s, h) ∧
     ((∃ r, processes s !! pid = Some r ∧ r ∈ concat (readyByLane s)) ∧ e = ErrorCode.InvalidState ∨
      (∀ r, processes s !! pid = Some r → r ∉ concat (readyByLane s)) ∧ e = ErrorCode.NotFound) ∧
     ∀ r, processes s !! pid = Some r → r ∉ omap id (runningByLane s)).
Proof.
  intros Hw. pose proof (w_table _ _ Hw) as Ht. unfold blockProcess, isKnown.
  case_bool_decide as Hk; simpl.
  2: { right. eexists. split; [done|]. split; [right; split; [|done]|]; intros r Hr; destruct Hk; by exists r. }
  destruct (running_lane_spec h (processes s) Ht (runningByLane s) pid (running_known _ _ Hw)) as (o & Ho & Hos).
  unfold findRunningLane. rewrite Ho. destruct o as [lane|].
  { left. destruct Hos as (r & Hr & Hl). rewrite Hl.
    destruct (block_slot_ok s h lane r now Hw Hl) as (p & s' & Hp & _ & Hpr & Hb & ?).
    exists lane, r, s'. done. }
  right. destruct (find_ready_spec h (processes s) Ht (readyByLane s) pid (ready_known _ _ Hw)) as (o & -> & Hf).
  destruct o as [[lane r]|].
  - destruct Hf as (Hr & q & Hq & Hin). assert (member s r Ready) as Hm.
    { left. split; [done|]. destruct (concat_lane _ _ _ Hq) as (rest & -> & _). set_solver. }
    destruct (w_member _ _ Hw _ _ Hm) as (p & Hp & Hst & _).
    rewrite (set_state_refused h r p) by (done || by rewrite Hst). simpl. eexists. split; [done|].
    split; [|done]. left. split; [|done]. exists r. split; [done|]. destruct (concat_lane _ _ _ Hq) as (rest & -> & _). set_solver.
  - eexists. split; [done|]. split; [|done]. by right.
Qed.

(** ** Unblocking: the process goes to the end of its lane's queue *)
Definition home_lane s pid : nat :=
  let lane := default 0%nat (processLane s !! pid) in
  if (length (readyByLane s) <=? lane)%nat then 0%nat else lane.

Lemma home_lane_lt s h pid : sched_wf s h → (home_lane s pid < length (readyByLane s))%nat.
Proof.
  intros Hw. destruct (w_lanes _ _ Hw) as [_ H0]. unfold home_lane.
  destruct (Nat.leb_spec (length (readyByLane s)) (default 0%nat (processLane s !! pid))); lia.
Qed.

Lemma unblock_ok s h pid now :
  sched_wf s h →
  (∃ r q s', processes s !! pid = Some r ∧ r ∈ blocked s ∧ readyByLane s !! home_lane s pid = Some q ∧
     unblock s h pid now = Some (ok tt, s', moved_to h r Ready now) ∧
     sched_wf s' (moved_to h r Ready now) ∧ same_table s s' ∧
     readyByLane s' = <[home_lane s pid := q ++ [r]]> (readyByLane s) ∧
     runningByLane s' = runningByLane s ∧
     blocked s' = filter (λ x, processes s !! pid ≠ Some x) (blocked s) ∧
     processLane s' = <[pid := home_lane s pid]> (processLane s)) ∨
  unblock s h pid now = Some (error ErrorCode.NotFound, s, h) ∧
    ∀ r, processes s !! pid = Some r → r ∉ blocked s.
Proof.
  intros Hw. pose proof (w_table _ _ Hw) as Ht. unfold unblock.
  rewrite (findIn_spec h (processes s) Ht) by by apply blocked_known.
  destruct (processes s !! pid) as [r|] eqn:Hpr; [|right; split; [done|congruence]].
  cbn [mbind option_bind]. destruct (decide (r ∈ blocked s)) as [Hin|Hout].
  2: { right. split; [done|]. by intros ? [= <-]. }
  left. assert (member s r Blocked) as Hm by (right; by right).
  destruct (w_member _ _ Hw _ _ Hm) as (p & Hp & Hst & Hk).
  destruct (setState_moves p Ready now) as (H1 & H2 & H3); [by rewrite Hst|].
  rewrite (set_state_ok h r p) by (done || by rewrite Hst). rewrite <-(moved_to_eq h r p) by done. simpl.
  rewrite (removeFrom_pids h) by apply moved_pids.
  rewrite (removeFrom_spec h (processes s) Ht) by by apply blocked_known.
  destruct (lookup_lt_is_Some_2 (readyByLane s) (home_lane s pid) (home_lane_lt _ _ _ Hw)) as [q Hq].
  fold (home_lane s pid). rewrite Hq. exists r, q. eexists. rewrite Hpr.
  split; [done|]. split; [done|]. split; [done|]. split; [done|]. split; [|done].
  destruct (concat_lane _ _ _ Hq) as (rest & Hc & Hci).
  assert (∀ st, member s r st → st = Blocked) as Honly by (intros st Hb; by eapply member_state).
  assert (r ∉ concat (readyByLane s)) as Hnr.
  { intros Hb. assert (member s r Ready) as Hb' by by left. by apply Honly in Hb'. }
  rewrite (moved_to_eq h r p) by done. eapply (wf_move s _ h r p); try done; simpl.
  - by rewrite length_insert.
  - intros r' st Hne. unfold member. simpl. rewrite Hci, Hc, filter_ne_elem. set_solver.
  - intros st. unfold member. simpl. rewrite filter_ne_elem, H2. intros [[-> _]|[[-> Hb]|[-> Hb]]].
    + done.
    + exfalso. assert (member s r Running) as Hb' by (right; by left). by apply Honly in Hb'.
    + by destruct Hb.
  - rewrite Hci, (Permutation_app_comm q), <-(assoc_L (++)), <-Hc. simpl.
    apply NoDup_cons. split; [done|apply Hw].
  - apply Hw.
  - apply NoDup_filter, Hw.
Qed.
End steps.
