(* ===== verification/SchedRun.v ===== *)
(** * SchedRun: entering, leaving, stealing, and runs of the scheduler *)
From S2P Require Import Prelude Core Process Policies Scheduler SchedInvariant SchedProps SchedSteps.
Local Open Scope Z_scope.

Section leave.
Context {P : Type} `{HP : !ISchedulingPolicy P} `{HL : !LawfulSchedulingPolicy P} `{HF : !FloatCast}.
Implicit Types (s : sched P) (h : heap) (r pid now : Z) (st : ProcessState) (lane : nat).

(** ** Dropping a pid from every queue *)
Lemma list_filter_all {A} (Q : A → Prop) `{!∀ x, Decision (Q x)} (l : list A) :
  Forall Q l → filter Q l = l.
Proof. induction 1 as [|x l Hx _ IH]; [done|]. by rewrite filter_cons_True, IH. Qed.

Definition dropped s pid (s' : sched P) : Prop :=
  processes s' = processes s ∧ policy s' = policy s ∧
  readyByLane s' = (filter (λ r, processes s !! pid ≠ Some r) <$> readyByLane s) ∧
  runningByLane s' = clear_slots (processes s) pid (runningByLane s) ∧
  blocked s' = filter (λ r, processes s !! pid ≠ Some r) (blocked s) ∧
  processLane s' = processLane s.

Lemma dropped_member s pid s' r st :
  dropped s pid s' → member s' r st ↔ processes s !! pid ≠ Some r ∧ member s r st.
Proof.
  intros (_ & _ & E1 & E2 & E3 & _). unfold member. rewrite E1, E2, E3, concat_filter, omap_clear.
  rewrite !list_elem_of_filter. tauto.
Qed.

Lemma dropped_wf s h pid s' : sched_wf s h → dropped s pid s' → sched_wf s' h.
Proof.
  intros Hw Hd. pose proof Hd as (E0 & _ & E1 & E2 & E3 & _). eapply (wf_subset s); try done.
  - by rewrite E1, length_fmap.
  - rewrite E2. apply length_fmap.
  - intros r st. rewrite (dropped_member s pid) by done. tauto.
  - rewrite E1, concat_filter. apply NoDup_filter, Hw.
  - rewrite E2, omap_clear. apply NoDup_filter, Hw.
  - rewrite E3. apply NoDup_filter, Hw.
Qed.

Lemma dropped_forget s h pid s' : sched_wf s h → dropped s pid s' → sched_wf (forget s' pid) h.
Proof.
  intros Hw Hd. apply wf_forget; [by eapply dropped_wf|]. 
  intros r st. rewrite (proj1 Hd), (dropped_member s pid) by done. tauto.
Qed.

Lemma dequeue_ok s h pid :
  sched_wf s h →
  (is_Some (processes s !! pid) ∧
   ∃ s1, dropped s pid s1 ∧ dequeue s h pid = Some (ok tt, forget s1 pid, h)) ∨
  (processes s !! pid = None ∧ dequeue s h pid = Some (error ErrorCode.NotFound, s, h)).
Proof.
  intros Hw. pose proof (w_table _ _ Hw) as Ht. unfold dequeue, isKnown.
  case_bool_decide as Hk; simpl; [left|right; split; [by apply eq_None_not_Some|done]].
  split; [done|].
  rewrite (clear_running_spec h (processes s) Ht) by by apply running_known.
  rewrite (remove_all_spec h (processes s) Ht) by by apply ready_known.
  rewrite (removeFrom_spec h (processes s) Ht) by by apply blocked_known.
  eexists. split; [|done]. by split_and!.
Qed.

(** Emptying the one slot of a process. *)
Lemma clear_slots_at (procs : gmap Z Z) (slots : list (option Z)) pid lane r :
  NoDup (omap id slots) → procs !! pid = Some r → slots !! lane = Some (Some r) →
  <[lane := None]> slots = clear_slots procs pid slots.
Proof.
  intros Hn Hpr Hl. apply list_eq. intros j. unfold clear_slots. rewrite list_lookup_fmap, Hpr.
  destruct (decide (j = lane)) as [->|Hne].
  - rewrite list_lookup_insert_eq by (by eapply lookup_lt_Some). rewrite Hl. simpl. by rewrite decide_True.
  - rewrite list_lookup_insert_ne by done. destruct (slots !! j) as [[r'|]|] eqn:Hj; simpl; try done.
    rewrite decide_False; [done|]. intros [= <-]. apply Hne. by eapply (slots_unique slots).
Qed.

(** ** Termination *)
Lemma clear_slot_dropped s h pid lane r s1 :
  sched_wf s h → processes s !! pid = Some r → runningByLane s !! lane = Some (Some r) →
  processes s1 = processes s → policy s1 = policy s → readyByLane s1 = readyByLane s →
  blocked s1 = blocked s → runningByLane s1 = <[lane := None]> (runningByLane s) →
  processLane s1 = processLane s → dropped s pid s1.
Proof.
  intros Hw Hpr Hl E1 E2 E3 E4 E5 E6. pose proof (slot_member _ _ _ Hl) as Hm. unfold dropped.
  split_and!; [done|done|..].
  - rewrite E3. symmetry. etransitivity; [|apply list_fmap_id]. apply list_fmap_ext. intros i q Hq. simpl.
    apply list_filter_all, Forall_forall. rewrite Hpr. intros x Hx [= <-].
    eapply (ready_not_running s h r Hw); [by eapply lane_member|done].
  - rewrite E5. eapply clear_slots_at; [apply Hw|done..].
  - rewrite E4. symmetry. apply list_filter_all, Forall_forall. rewrite Hpr. intros x Hx [= <-].
    eapply (running_not_blocked s h r Hw); [done|by right; right].
  - done.
Qed.

Lemma update_unqueued s h r p p' :
  sched_wf s h → h !! r = Some p → pcb_id p' = pcb_id p → (∀ st, ¬ member s r st) →
  sched_wf s (<[r := p']> h).
Proof.
  intros Hw Hp Hi Hno. eapply (wf_move s s h r p); try done; try apply Hw.
  intros st Hm. by destruct (Hno st).
Qed.

(** Taking a known process out of the queues, as [terminate] does. *)
Lemma terminate_drop s h pid r now :
  sched_wf s h → processes s !! pid = Some r →
  ∃ o s1, findRunningLane h s pid = Some o ∧ dropped s pid s1 ∧
    match o with
    | Some lane =>
       let! slot := runningByLane s !! lane in
       let! x := slot in
       let s0 := recordRunningBurst s pid now in
       Some (x, set_queues s0 (readyByLane s0) (blocked s0) (<[lane := None]> (runningByLane s0)))
    | None =>
       let! x := processes s !! pid in
       let! ready := remove_all h (readyByLane s) pid in
       let! bl := removeFrom h (blocked s) pid in
       Some (x, set_queues s ready bl (runningByLane s))
    end = Some (r, s1).
Proof.
  intros Hw Hr. pose proof (w_table _ _ Hw) as Ht.
  destruct (running_lane_spec h (processes s) Ht (runningByLane s) pid (running_known _ _ Hw)) as (o & Ho & Hos).
  exists o. unfold findRunningLane. destruct o as [lane|].
  - destruct Hos as (r' & Hr' & Hl). assert (r' = r) as -> by congruence. rewrite Hl. cbn [mbind option_bind].
    destruct (burst_queues s pid now) as (B1 & B2 & B3 & B4 & B5 & B6).
    eexists. split; [done|]. split; [|done]. eapply (clear_slot_dropped s h pid lane r); simpl; by rewrite ?B1, ?B2, ?B3, ?B4, ?B5, ?B6.
  - rewrite Hr. cbn [mbind option_bind].
    rewrite (remove_all_spec h (processes s) Ht) by by apply ready_known.
    rewrite (removeFrom_spec h (processes s) Ht) by by apply blocked_known.
    eexists. split; [done|]. split; [|done]. split_and!; try done. simpl. symmetry. unfold clear_slots.
    etransitivity; [|apply list_fmap_id]. apply list_fmap_ext. intros i [x|] Hx; [|done]. simpl. rewrite decide_False; [done|].
    intros Hpx. apply (Hos x Hpx). apply list_elem_of_omap. exists (Some x). split; [by eapply list_elem_of_lookup_2|done].
Qed.

(** A running process terminates and is forgotten; a known process that is
    not running is dropped from the queues, and then refused unless its state
    allows the transition. *)
Lemma terminate_ok s h pid now :
  sched_wf s h →
  match processes s !! pid with
  | None => terminate s h pid now = Some (error ErrorCode.NotFound, s, h)
  | Some r =>
      ∃ p s1, h !! r = Some p ∧ processes s1 = processes s ∧ dropped s pid s1 ∧
        (∀ r' st, member s1 r' st ↔ r' ≠ r ∧ member s r' st) ∧
        if isValidTransition (state p) Terminated
        then terminate s h pid now = Some (ok tt, forget s1 pid, moved_to h r Terminated now) ∧
             sched_wf (forget s1 pid) (moved_to h r Terminated now)
        else terminate s h pid now = Some (error ErrorCode.InvalidState, s1, h) ∧ sched_wf s1 h
  end.
Proof.
  intros Hw. pose proof (w_table _ _ Hw) as Ht. unfold terminate, isKnown.
  destruct (processes s !! pid) as [r|] eqn:Hr; simpl; [|done].
  destruct (Ht pid r Hr) as [Hpid _]. unfold pid_at in Hpid. destruct (h !! r) as [p|] eqn:Hp; [|done].
  destruct (terminate_drop s h pid r now Hw Hr) as (o & s1 & -> & Hd & Hpair). rewrite Hr in Hpair.
  assert (∀ r' st, member s1 r' st ↔ r' ≠ r ∧ member s r' st) as Hmem.
  { intros r' st. rewrite (dropped_member s pid) by done. rewrite Hr. naive_solver. }
  simpl in Hpair. rewrite Hpair. exists p, s1. split; [done|]. split; [apply Hd|]. split; [done|]. split; [done|].
  destruct (isValidTransition (state p) Terminated) eqn:Hv.
  - rewrite (set_state_ok h r p) by done. rewrite <-(moved_to_eq h r p) by done. simpl. split; [done|].
    apply wf_forget.
    + rewrite (moved_to_eq h r p) by done. eapply update_unqueued; try done; [by eapply dropped_wf|apply setState_id|].
      intros st Hm. apply Hmem in Hm. naive_solver.
    + intros r' st. rewrite (proj1 Hd), Hr. intros [= <-] Hm. apply Hmem in Hm. naive_solver.
  - rewrite (set_state_refused h r p) by done. split; [done|]. by eapply dropped_wf.
Qed.
End leave.

(** ** Entering the scheduler *)
Section enter.
Context {P : Type} `{HP : !ISchedulingPolicy P} `{HL : !LawfulSchedulingPolicy P} `{HF : !FloatCast}.
Implicit Types (s : sched P) (h : heap) (r pid now : Z) (st : ProcessState) (lane : nat).

(** What callers of [enqueueToLane] owe: the reference is valid, its pid is not
    taken by another process, and the process is not in the blocked list. *)
Definition admissible s h r : Prop :=
  ∃ p, h !! r = Some p ∧ (processes s !! pcb_id p = None ∨ processes s !! pcb_id p = Some r) ∧
    r ∉ blocked s.

Lemma register_eq s pid r :
  processes s !! pid = None ∨ processes s !! pid = Some r →
  (if isKnown s pid then processes s else emplace pid r (processes s)) = <[pid := r]> (processes s).
Proof.
  unfold isKnown. intros [Hn|Hs].
  - rewrite bool_decide_eq_false_2 by (rewrite Hn; by intros [? ?]). by apply emplace_fresh.
  - rewrite bool_decide_eq_true_2 by by exists r. by rewrite insert_id.
Qed.

Lemma register_wf s h r p :
  sched_wf s h → h !! r = Some p → pcb_id p ≠ INVALID_PID →
  processes s !! pcb_id p = None ∨ processes s !! pcb_id p = Some r →
  sched_wf (set_processes s (<[pcb_id p := r]> (processes s))) h.
Proof.
  intros [Hl Ht Hm ???] Hp Hi Hor. split; try done; simpl.
  - intros pid r'. rewrite lookup_insert_Some. intros [[<- <-]|[_ Hr]]; [|by apply Ht].
    unfold pid_at. by rewrite Hp.
  - intros r' st Hmem. destruct (Hm r' st Hmem) as (p' & Hp' & Hst & Hk). exists p'. split_and!; try done.
    destruct (decide (pcb_id p' = pcb_id p)) as [E|]; [|by rewrite lookup_insert_ne].
    rewrite E, lookup_insert_eq. rewrite E in Hk. destruct Hor; congruence.
Qed.

(** A process that is nowhere joins the end of a lane's queue. *)
Lemma queued_wf s s' h r p p' lane q :
  sched_wf s h → h !! r = Some p → processes s !! pcb_id p = Some r → pcb_id p' = pcb_id p → state p' = Ready →
  ¬ member s r Ready → ¬ member s r Running → r ∉ blocked s → readyByLane s !! lane = Some q →
  processes s' = processes s → readyByLane s' = <[lane := q ++ [r]]> (readyByLane s) →
  runningByLane s' = runningByLane s → blocked s' = blocked s → sched_wf s' (<[r := p']> h).
Proof.
  intros Hw Hp Hk Hi Hst HnR HnU Hnb Hq E1 E2 E3 E4.
  destruct (concat_lane _ _ _ Hq) as (rest & Hc & Hci).
  assert (r ∉ concat (readyByLane s)) as Hnr by (intros ?; apply HnR; by left).
  assert (r ∉ omap id (runningByLane s)) as Hnu by (intros ?; apply HnU; right; by left).
  eapply (wf_move s s' h r p); rewrite ?E2, ?E3, ?E4; try done; [by rewrite length_insert|..].
  - intros r' st Hne. unfold member. rewrite E2, E3, E4, Hci, Hc. set_solver.
  - intros st Hm. split; [|done]. unfold member in Hm. rewrite E3, E4 in Hm.
    destruct Hm as [[-> _]|[[-> Hin]|[-> Hin]]]; done.
  - rewrite Hci, (Permutation_app_comm q), <-(assoc_L (++)), <-Hc. simpl.
    apply NoDup_cons. split; [done|apply Hw].
  - apply Hw.
  - apply Hw.
Qed.

(** What [enqueueToLane] leaves: the process is registered, and either it was
    already scheduled, or its state refuses, or it is now last of its lane. *)
Lemma enqueueToLane_ok s h r lane now :
  sched_wf s h → admissible s h r →
  ∃ p, h !! r = Some p ∧
  let s1 := set_processes s (<[pcb_id p := r]> (processes s)) in
  (enqueueToLane s h r lane now = Some (error ErrorCode.InvalidArgument, s, h) ∧ readyByLane s !! lane = None) ∨
  (enqueueToLane s h r lane now = Some (error ErrorCode.InvalidPid, s, h) ∧ pcb_id p = INVALID_PID ∧
     is_Some (readyByLane s !! lane)) ∨
  (enqueueToLane s h r lane now = Some (ok tt, s1, h) ∧ sched_wf s1 h ∧
     (member s r Ready ∨ member s r Running) ∧ is_Some (readyByLane s !! lane) ∧ pcb_id p ≠ INVALID_PID) ∨
  (enqueueToLane s h r lane now = Some (error ErrorCode.InvalidState, s1, h) ∧ sched_wf s1 h ∧
     ¬ member s r Ready ∧ ¬ member s r Running ∧
     (state p = Running ∨ isValidTransition (state p) Ready = false) ∧
     is_Some (readyByLane s !! lane) ∧ pcb_id p ≠ INVALID_PID) ∨
  ∃ s' h' q p', enqueueToLane s h r lane now = Some (ok tt, s', h') ∧ sched_wf s' h' ∧
     readyByLane s !! lane = Some q ∧ readyByLane s' = <[lane := q ++ [r]]> (readyByLane s) ∧
     runningByLane s' = runningByLane s ∧ blocked s' = blocked s ∧
     processes s' = processes s1 ∧ processLane s' = <[pcb_id p := lane]> (processLane s) ∧
     h' = <[r := p']> h ∧ state p' = Ready ∧ pcb_id p' = pcb_id p ∧ ¬ member s r Ready ∧ ¬ member s r Running ∧
     state p ≠ Running ∧ isValidTransition (state p) Ready = true ∧ pcb_id p ≠ INVALID_PID ∧
     policy s' = policy s.
Proof.
  intros Hw (p & Hp & Hor & Hnb). exists p. split; [done|]. intros s1. unfold enqueueToLane.
  rewrite Hp, register_eq by done. fold s1.
  destruct (Nat.leb_spec (length (readyByLane s)) lane) as [Hge|Hlt].
  { left. split; [done|]. by apply lookup_ge_None. }
  assert (is_Some (readyByLane s !! lane)) as Hlane by by apply lookup_lt_is_Some_2.
  right. destruct (Z.eqb_spec (pcb_id p) INVALID_PID) as [Hi|Hi]; [by left|]. right.
  assert (sched_wf s1 h) as Hw1 by by apply register_wf.
  pose proof (w_table _ _ Hw1) as Ht.
  assert (processes s1 !! pcb_id p = Some r) as Hself by apply lookup_insert_eq.
  destruct (find_ready_spec h (processes s1) Ht (readyByLane s1) (pcb_id p) (ready_known _ _ Hw1))
    as (o & -> & Hf).
  destruct o as [[l r']|].
  { left. split_and!; [done..| |done|done]. left. left. split; [done|]. destruct Hf as (Hr' & q & Hq & Hin).
    assert (r' = r) as -> by congruence. destruct (concat_lane _ _ _ Hq) as (rest & Hc & _).
    simpl in Hc. rewrite Hc. set_solver. }
  assert (¬ member s r Ready) as HnR.
  { intros [[_ Hin]|[[? _]|[? _]]]; try done. by apply (Hf r Hself). }
  destruct (running_lane_spec h (processes s1) Ht (runningByLane s1) (pcb_id p) (running_known _ _ Hw1))
    as (o & Ho & Hos). unfold findRunningLane. rewrite Ho.
  destruct o as [l|].
  { left. split_and!; [done..| |done|done]. right. right. left. split; [done|]. destruct Hos as (r' & Hr' & Hl).
    assert (r' = r) as -> by congruence. destruct (slots_lane _ _ _ Hl) as (rest & Hs & _).
    simpl in Hs. rewrite Hs. set_solver. }
  assert (¬ member s r Running) as HnU.
  { intros [[? _]|[[_ Hin]|[? _]]]; try done. by apply (Hos r Hself). }
  right. case_decide as HR; [left; split_and!; auto|].
  destruct (isValidTransition (state p) Ready) eqn:Hv.
  2: { left. rewrite (set_state_refused h r p) by done. split_and!; auto. }
  right. rewrite (set_state_ok h r p) by done. cbn [negb]. rewrite lookup_insert_eq.
  destruct (setState_moves p Ready now Hv) as (_ & H2 & H3).
  destruct (lookup_lt_is_Some_2 _ _ Hlt) as [q Hq].
  change (readyByLane s1) with (readyByLane s). rewrite Hq. rewrite insert_insert_eq.
  set (p' := if Statistics.hasPrediction _ _ then _ else _).
  assert (state p' = Ready ∧ pcb_id p' = pcb_id p) as [Hs' Hi'].
  { unfold p', set_estimatedBurst. destruct (Statistics.hasPrediction _ _); [|done]. by destruct (timing _). }
  eexists _, _, q, p'. split; [done|]. split; [|by split_and!].
  by apply (queued_wf s1 _ h r p p' lane q).
Qed.

(** ** Stealing *)
Lemma longest_other_spec (qs : list (list Z)) (lane thief : nat) best size :
  let '(b, n) := longest_other qs lane thief best size in
  (size ≤ n)%nat ∧
  (∀ i q, qs !! i = Some q → (lane + i)%nat ≠ thief → (length q ≤ n)%nat) ∧
  (b = best ∧ n = size ∨
   ∃ i q, b = Some (lane + i)%nat ∧ (lane + i)%nat ≠ thief ∧ qs !! i = Some q ∧ length q = n ∧
     (size < n)%nat ∧ ∀ j q', (j < i)%nat → qs !! j = Some q' → (lane + j)%nat ≠ thief → (length q' < n)%nat).
Proof.
  revert lane best size. induction qs as [|q qs IH]; intros lane best size; simpl.
  { split_and!; [done| |by left]. intros i q. by rewrite lookup_nil. }
  assert (∀ i, (S lane + i)%nat = (lane + S i)%nat) as Hadd by lia.
  destruct (decide (lane = thief ∨ (length q ≤ size)%nat)) as [Hskip|Htake].
  - assert ((if decide (lane = thief) then longest_other qs (S lane) thief best size
             else if (size <? length q)%nat then longest_other qs (S lane) thief (Some lane) (length q)
                  else longest_other qs (S lane) thief best size)
            = longest_other qs (S lane) thief best size) as ->.
    { case_decide; [done|]. destruct (Nat.ltb_spec size (length q)); [lia|done]. }
    specialize (IH (S lane) best size). destruct (longest_other _ _ _ _ _) as [b n].
    destruct IH as (IH1 & IH2 & IH3). split_and!; [done| |].
    + intros [|i] q'; simpl; [intros [= <-]; lia|]. rewrite <-Hadd. apply IH2.
    + destruct IH3 as [?|(i & q' & -> & Hi & Hq & Hl & Hn & Hf)]; [by left|right].
      exists (S i), q'. rewrite <-Hadd. split_and!; try done. intros [|j] q0 Hj; simpl.
      * intros [= <-] ?. lia.
      * rewrite <-Hadd. apply Hf. lia.
  - rewrite decide_False by tauto. rewrite (proj2 (Nat.ltb_lt _ _)) by lia.
    specialize (IH (S lane) (Some lane) (length q)). destruct (longest_other _ _ _ _ _) as [b n].
    destruct IH as (IH1 & IH2 & IH3). split_and!; [lia| |].
    + intros [|i] q'; simpl; [intros [= <-]; lia|]. rewrite <-Hadd. apply IH2.
    + right. destruct IH3 as [[-> ->]|(i & q' & -> & Hi & Hq & Hl & Hn & Hf)].
      * exists 0%nat, q. rewrite Nat.add_0_r. split_and!; try done; lia.
      * exists (S i), q'. rewrite <-Hadd. split_and!; try done; [lia|]. intros [|j] q0 Hj; simpl.
        -- intros [= <-] _. done.
        -- rewrite <-Hadd. apply Hf. lia.
Qed.

(** A thief takes the head of the longest other lane to the end of its own. *)
Definition stolen_state s thief victim (stolen pid : Z) (rest tq : list Z) : sched P :=
  let s1 := set_queues s (<[thief := tq ++ [stolen]]> (<[victim := rest]> (readyByLane s)))
              (blocked s) (runningByLane s) in
  set_lane_of s1 (<[pid := thief]> (processLane s1)).

Lemma steal_ok s h thief now :
  sched_wf s h →
  (stealNextForLane s h thief now = Some (error ErrorCode.InvalidArgument, s, h) ∧
     readyByLane s !! thief = None) ∨
  (stealNextForLane s h thief now = Some (error ErrorCode.NotFound, s, h) ∧
     ∀ lane q, readyByLane s !! lane = Some q → lane ≠ thief → q = []) ∨
  ∃ victim stolen rest tq p,
    victim ≠ thief ∧ readyByLane s !! victim = Some (stolen :: rest) ∧ readyByLane s !! thief = Some tq ∧
    h !! stolen = Some p ∧ processes s !! pcb_id p = Some stolen ∧
    (∀ lane q, readyByLane s !! lane = Some q → lane ≠ thief →
       (length q ≤ length (stolen :: rest))%nat ∧ ((lane < victim)%nat → (length q < length (stolen :: rest))%nat)) ∧
    sched_wf (stolen_state s thief victim stolen (pcb_id p) rest tq) h ∧
    stealNextForLane s h thief now =
      selectNextForLane (stolen_state s thief victim stolen (pcb_id p) rest tq) h thief now.
Proof.
  intros Hw. unfold stealNextForLane.
  destruct (Nat.leb_spec (length (readyByLane s)) thief) as [Hge|Hlt].
  { left. split; [done|]. by apply lookup_ge_None. }
  right. pose proof (longest_other_spec (readyByLane s) 0 thief None 0) as Hlong.
  destruct (longest_other _ _ _ _ _) as [b n]. destruct Hlong as (_ & Hmax & Hbest). simpl in *.
  destruct Hbest as [[-> ->]|(v & q & -> & Hv & Hq & Hlen & Hn & Hfirst)].
  { left. split; [done|]. intros lane q Hq Hne. specialize (Hmax lane q Hq Hne).
    destruct q; [done|simpl in Hmax; lia]. }
  right. rewrite (proj2 (Nat.eqb_neq n 0)) by lia. rewrite Hq.
  destruct q as [|stolen rest]; [simpl in Hlen; lia|]. simpl.
  assert (member s stolen Ready) as Hm.
  { left. split; [done|]. destruct (concat_lane _ _ _ Hq) as (l & -> & _). set_solver. }
  destruct (w_member _ _ Hw _ _ Hm) as (p & Hp & _ & Hk). unfold pid_at. rewrite Hp. simpl.
  destruct (lookup_lt_is_Some_2 _ _ Hlt) as [tq Htq].
  assert (<[v := rest]> (readyByLane s) !! thief = Some tq) as Htq' by by rewrite list_lookup_insert_ne.
  rewrite Htq'. exists v, stolen, rest, tq, p. split_and!; try done.
  { intros lane q Hl Hne. simpl in Hlen. rewrite Hlen. split; [by apply (Hmax lane q)|]. intros ?. by apply (Hfirst lane q). }
  destruct (concat_lane _ _ _ Hq) as (l & Hc & Hci). destruct (concat_lane _ _ _ Htq') as (l' & Hc' & Hci').
  assert (concat (readyByLane (stolen_state s thief v stolen (pcb_id p) rest tq)) ≡ₚ concat (readyByLane s)) as Hperm.
  { simpl. rewrite Hci', Hc. rewrite (Permutation_app_comm tq), <-(assoc_L (++)), <-Hc', Hci. done. }
  eapply (wf_subset s); try done; [by simpl; rewrite !length_insert| |by rewrite Hperm; apply Hw|apply Hw|apply Hw].
  intros r st. unfold member. by rewrite Hperm.
Qed.
End enter.
