(* ===== verification/IScheduler.v ===== *)
(** * IScheduler: the interface [scheduling/i_scheduler.h], and runs of its calls

    The pure virtual class as a record of operations over the implementation's
    state and the heap of control blocks; [Scheduler] as its instance; and runs
    of calls, interleaved with the owner of the processes creating and
    destroying control blocks. *)
From S2P Require Import Prelude Core Process Policies Scheduler SchedInvariant SchedProps SchedSteps SchedRun.
Local Open Scope Z_scope.

(** ** The interface *)
Class IScheduler (P S : Type) := {
  is_enqueue : S → heap → Z → Z → option (Result unit * S * heap);
  is_dequeue : S → heap → Z → option (Result unit * S * heap);
  is_selectNext : S → heap → Z → option (Result Z * S * heap);
  is_blockRunning : S → heap → Z → option (Result unit * S * heap);
  is_blockProcess : S → heap → Z → Z → option (Result unit * S * heap);
  is_unblock : S → heap → Z → Z → option (Result unit * S * heap);
  is_terminate : S → heap → Z → Z → option (Result unit * S * heap);
  is_getQueueSnapshot : S → heap → option (list Z);
  is_getBlockedSnapshot : S → heap → option (list Z);
  is_configureLanes : S → nat → Result unit * S;
  is_laneCount : S → nat;
  is_enqueueToLane : S → heap → Z → nat → Z → option (Result unit * S * heap);
  is_selectNextForLane : S → heap → nat → Z → option (Result Z * S * heap);
  is_stealNextForLane : S → heap → nat → Z → option (Result Z * S * heap);
  is_getPerLaneQueueSnapshot : S → heap → option (list (list Z));
  is_runningProcesses : S → heap → option (list Z);
  is_setPolicy : S → option P → Result unit * S;
  is_policyName : S → string
}.

#[export] Instance Scheduler_IScheduler {P : Type} `{!ISchedulingPolicy P} `{!FloatCast} :
  IScheduler P (sched P) := {|
  is_enqueue := enqueue;
  is_dequeue := dequeue;
  is_selectNext := sched_selectNext;
  is_blockRunning := blockRunning;
  is_blockProcess := blockProcess;
  is_unblock := unblock;
  is_terminate := terminate;
  is_getQueueSnapshot := getQueueSnapshot;
  is_getBlockedSnapshot := getBlockedSnapshot;
  is_configureLanes := configureLanes;
  is_laneCount := laneCount;
  is_enqueueToLane := enqueueToLane;
  is_selectNextForLane := selectNextForLane;
  is_stealNextForLane := stealNextForLane;
  is_getPerLaneQueueSnapshot := getPerLaneQueueSnapshot;
  is_runningProcesses := runningProcesses;
  is_setPolicy := setPolicy;
  is_policyName := sched_policyName
|}.

(** ** Calls and their replies *)
Inductive sched_op (P : Type) :=
| OpCreate (r : Z) (p : PCB)
| OpDestroy (r : Z)
| OpEnqueue (r : Z) (lane : nat) (now : Z)
| OpDequeue (pid : Z)
| OpSelect (lane : nat) (now : Z)
| OpSteal (lane : nat) (now : Z)
| OpBlock (pid now : Z)
| OpBlockRunning (now : Z)
| OpUnblock (pid now : Z)
| OpTerminate (pid now : Z)
| OpConfigure (lanes : nat)
| OpSetPolicy (pol : option P).
Arguments OpCreate {P}. Arguments OpDestroy {P}. Arguments OpEnqueue {P}. Arguments OpDequeue {P}.
Arguments OpSelect {P}. Arguments OpSteal {P}. Arguments OpBlock {P}. Arguments OpBlockRunning {P}.
Arguments OpUnblock {P}. Arguments OpTerminate {P}. Arguments OpConfigure {P}. Arguments OpSetPolicy {P}.

(** A call as its caller sees it: processes by pid; entering the scheduler,
    with the state of the control block handed over. *)
Inductive call :=
| CEnqueue (pid : Z) (st : ProcessState) (lane : nat)
| CDequeue (pid : Z)
| CSelect (lane : nat)
| CSteal (lane : nat)
| CBlock (pid : Z)
| CBlockRunning
| CUnblock (pid : Z)
| CTerminate (pid : Z)
| CConfigure (lanes : nat)
| CSetPolicy (present : bool).

(** The void replies and the replies with a pid. *)
Inductive reply :=
| RVoid (res : Result unit)
| RPid (res : Result Z).

Section runs.
Context {P S : Type} `{!IScheduler P S}.
Implicit Types (s : S) (h : heap).

Definition call_of h (op : sched_op P) : option call :=
  match op with
  | OpCreate _ _ | OpDestroy _ => None
  | OpEnqueue r lane _ => p ← h !! r; Some (CEnqueue (pcb_id p) (state p) lane)
  | OpDequeue pid => Some (CDequeue pid)
  | OpSelect lane _ => Some (CSelect lane)
  | OpSteal lane _ => Some (CSteal lane)
  | OpBlock pid _ => Some (CBlock pid)
  | OpBlockRunning _ => Some CBlockRunning
  | OpUnblock pid _ => Some (CUnblock pid)
  | OpTerminate pid _ => Some (CTerminate pid)
  | OpConfigure lanes => Some (CConfigure lanes)
  | OpSetPolicy pol => Some (CSetPolicy (bool_decide (is_Some pol)))
  end.

Definition replies {A} (f : Result A → reply) (o : option (Result A * S * heap)) : option (reply * S * heap) :=
  let! (res, s, h) := o in Some (f res, s, h).

Definition sched_step s h (op : sched_op P) : option (reply * S * heap) :=
  match op with
  | OpCreate r p => Some (RVoid (ok tt), s, <[r := p]> h)
  | OpDestroy r => Some (RVoid (ok tt), s, delete r h)
  | OpEnqueue r lane now => replies RVoid (is_enqueueToLane s h r lane now)
  | OpDequeue pid => replies RVoid (is_dequeue s h pid)
  | OpSelect lane now => replies RPid (is_selectNextForLane s h lane now)
  | OpSteal lane now => replies RPid (is_stealNextForLane s h lane now)
  | OpBlock pid now => replies RVoid (is_blockProcess s h pid now)
  | OpBlockRunning now => replies RVoid (is_blockRunning s h now)
  | OpUnblock pid now => replies RVoid (is_unblock s h pid now)
  | OpTerminate pid now => replies RVoid (is_terminate s h pid now)
  | OpConfigure lanes => let '(res, s') := is_configureLanes s lanes in Some (RVoid res, s', h)
  | OpSetPolicy pol => let '(res, s') := is_setPolicy s pol in Some (RVoid res, s', h)
  end.

(** The calls made, in order, each with its reply. *)
Fixpoint sched_run s h (ops : list (sched_op P)) : option (list (call * reply) * S * heap) :=
  match ops with
  | [] => Some ([], s, h)
  | op :: ops' =>
      let! (rep, s1, h1) := sched_step s h op in
      let! (evs, s2, h2) := sched_run s1 h1 ops' in
      Some (match call_of h op with Some c => (c, rep) :: evs | None => evs end, s2, h2)
  end.
End runs.

Section safety.
Context {P : Type} `{HP : !ISchedulingPolicy P} `{HL : !LawfulSchedulingPolicy P} `{HF : !FloatCast}.
Implicit Types (s : sched P) (h : heap) (r pid now : Z) (st : ProcessState) (lane : nat).

(** What the owner and the callers owe. *)
Definition op_allowed s h (op : sched_op P) : Prop :=
  match op with
  | OpCreate r _ => h !! r = None
  | OpDestroy r => ∀ pid, processes s !! pid ≠ Some r
  | OpEnqueue r _ _ => admissible s h r
  | _ => True
  end.

Fixpoint run_allowed s h (ops : list (sched_op P)) : Prop :=
  match ops with
  | [] => True
  | op :: ops' =>
      op_allowed s h op ∧ ∀ rep s1 h1, sched_step s h op = Some (rep, s1, h1) → run_allowed s1 h1 ops'
  end.

Lemma sched_wf_make (pol : option P) h : sched_wf (Scheduler_make pol) h.
Proof.
  split; simpl; try done; try apply NoDup_nil_2; [lia|].
  intros r st [[_ H]|[[_ H]|[_ H]]]; set_solver.
Qed.

Lemma configureLanes_wf s h lanes : sched_wf s h → sched_wf (configureLanes s lanes).2 h.
Proof.
  intros Hw. unfold configureLanes. destruct (Nat.eqb_spec lanes 0) as [|Hn]; [done|].
  case_bool_decide as Hp; [|done]. simpl.
  assert (∀ r st, ¬ member s r st) as Hno.
  { intros r st Hm. destruct (w_member _ _ Hw r st Hm) as (p & _ & _ & Hk). by rewrite Hp in Hk. }
  assert (blocked s = []) as Hb.
  { destruct (blocked s) as [|r l] eqn:E; [done|]. destruct (Hno r Blocked). right. right.
    rewrite E. set_solver. }
  assert (concat (replicate lanes ([] : list Z)) = []) as Hc.
  { clear. induction lanes; simpl; auto. }
  assert (omap id (replicate lanes (None : option Z)) = []) as Ho.
  { clear. induction lanes; simpl; auto. }
  split; unfold member; simpl; rewrite ?Hc, ?Ho, ?Hb, ?length_replicate; try done; try apply NoDup_nil_2.
  - split; [done|lia].
  - apply Hw.
  - intros r st [[_ H]|[[_ H]|[_ H]]]; set_solver.
Qed.

(** An allowed call is defined, and keeps the scheduler well formed. *)
Lemma sched_step_ok s h op :
  sched_wf s h → op_allowed s h op →
  ∃ b s' h', sched_step s h op = Some (b, s', h') ∧ sched_wf s' h'.
Proof.
  intros Hw Ha. destruct op; simpl in *.
  - eexists _, _, _. split; [done|]. destruct Hw as [H1 H2 H3 ???]. split; try done.
    + intros pid r' Hr. destruct (H2 _ _ Hr) as [Hi Hn]. split; [|done]. unfold pid_at in *.
      rewrite lookup_insert_ne; [done|]. intros ->. by rewrite Ha in Hi.
    + intros r' st Hm. destruct (H3 r' st Hm) as (p' & Hp & ?). exists p'. split; [|done].
      rewrite lookup_insert_ne; congruence.
  - eexists _, _, _. split; [done|]. destruct Hw as [H1 H2 H3 ???]. split; try done.
    + intros pid r' Hr. destruct (H2 _ _ Hr) as [Hi Hn]. split; [|done]. unfold pid_at in *.
      rewrite lookup_delete_ne; [done|]. intros ->. by destruct (Ha pid).
    + intros r' st Hm. destruct (H3 r' st Hm) as (p' & Hp & ? & Hk). exists p'. split; [|done].
      rewrite lookup_delete_ne; [done|]. intros ->. by destruct (Ha (pcb_id p')).
  - destruct (enqueueToLane_ok s h r lane now Hw Ha) as (p & Hp &
      [[-> _]|[[-> _]|[[-> [? _]]|[[-> [? _]]|(s' & h' & q & p' & -> & ? & _)]]]]); by eexists _, _, _.
  - destruct (dequeue_ok s h pid Hw) as [(_ & s1 & Hd & ->)|[_ ->]]; eexists _, _, _; split; try done.
    by eapply dropped_forget.
  - destruct (selectNext_ok s h lane now Hw) as (res & s' & h' & -> & ? & _). by eexists _, _, _.
  - destruct (steal_ok s h lane now Hw) as [[-> _]|[[-> _]|(v & r & q & tq & p & _ & _ & _ & _ & _ & _ & Hw' & ->)]];
      try by eexists _, _, _.
    destruct (selectNext_ok _ h lane now Hw') as (res & s' & h' & -> & ? & _). by eexists _, _, _.
  - destruct (blockProcess_ok s h pid now Hw) as [(l & r & s' & _ & _ & -> & ? & _)|(e & -> & _)];
      by eexists _, _, _.
  - destruct (blockRunning_safe s h now Hw) as (res & s' & h' & -> & ?). by eexists _, _, _.
  - destruct (unblock_ok s h pid now Hw) as [(r & q & s' & _ & _ & _ & -> & ? & _)|[-> _]]; by eexists _, _, _.
  - pose proof (terminate_ok s h pid now Hw) as Ht. destruct (processes s !! pid) as [r|].
    + destruct Ht as (p & s1 & _ & _ & _ & _ & Ht). destruct (isValidTransition _ _), Ht as [-> ?]; by eexists _, _, _.
    + rewrite Ht. by eexists _, _, _.
  - pose proof (configureLanes_wf s h lanes Hw). destruct (configureLanes s lanes). by eexists _, _, _.
  - destruct pol; eexists _, _, _; (split; [done|]); [|done]. by apply (wf_bookkeeping s).
Qed.

Lemma sched_run_ok ops s h :
  sched_wf s h → run_allowed s h ops →
  ∃ bs s' h', sched_run s h ops = Some (bs, s', h') ∧ sched_wf s' h'.
Proof.
  revert s h. induction ops as [|op ops IH]; intros s h Hw Ha; simpl.
  { by exists [], s, h. }
  destruct Ha as [Ha Hn]. destruct (sched_step_ok s h op Hw Ha) as (b & s1 & h1 & Hs & Hw1).
  rewrite Hs. destruct (IH s1 h1 Hw1 (Hn _ _ _ Hs)) as (bs & s' & h' & -> & Hw'). by eexists _, s', h'.
Qed.
End safety.

