(* ===== verification/SchedSpec.v ===== *)
(** * SchedSpec: what a scheduler promises, on process identifiers

    The contract of [scheduling/i_scheduler.h] as the code keeps it, as a
    machine of its own (where a comment of the header says something else, the
    machine follows the code): which processes are known and in which state, the
    ready queue and the running process of each lane, the blocked list, and
    the lane each process returns to.  No control blocks, no references and no
    clock: what a policy may choose is left open, everything else is a
    function. *)
From S2P Require Import Prelude Core Process IScheduler.
Local Open Scope Z_scope.

Record queues := MkQueues {
  q_states : gmap Z ProcessState;
  q_ready : list (list Z);
  q_running : list (option Z);
  q_blocked : list Z;
  q_home : gmap Z nat;
  q_policy : bool
}.

Definition no_queues (policy : bool) : queues := MkQueues ∅ [[]] [None] [] ∅ policy.

(** Every place of [pid] but the table. *)
Definition without (pid : Z) (l : list Z) : list Z := filter (λ x, x ≠ pid) l.
Definition idle_without (pid : Z) (slots : list (option Z)) : list (option Z) :=
  (λ o, x ← o; if decide (x = pid) then None else Some x) <$> slots.
Definition drop_pid (q : queues) (pid : Z) : queues :=
  MkQueues (q_states q) (without pid <$> q_ready q) (idle_without pid (q_running q))
    (without pid (q_blocked q)) (q_home q) (q_policy q).
Definition forget_pid (q : queues) (pid : Z) : queues :=
  MkQueues (delete pid (q_states q)) (q_ready q) (q_running q) (q_blocked q) (delete pid (q_home q))
    (q_policy q).

(** ** Entering and leaving *)
Definition spec_enqueue (q : queues) (pid : Z) (st : ProcessState) (lane : nat) : Result unit * queues :=
  match q_ready q !! lane with
  | None => (error ErrorCode.InvalidArgument, q)
  | Some ready =>
      if decide (pid = INVALID_PID) then (error ErrorCode.InvalidPid, q) else
      let known := MkQueues (<[pid := st]> (q_states q)) (q_ready q) (q_running q) (q_blocked q) (q_home q)
                     (q_policy q) in
      if decide (pid ∈ concat (q_ready q) ∨ Some pid ∈ q_running q) then (ok tt, known) else
      if decide (st = Running ∨ isValidTransition st Ready = false) then (error ErrorCode.InvalidState, known)
      else (ok tt, MkQueues (<[pid := Ready]> (q_states q)) (<[lane := ready ++ [pid]]> (q_ready q))
                     (q_running q) (q_blocked q) (<[pid := lane]> (q_home q)) (q_policy q))
  end.

Definition spec_dequeue (q : queues) (pid : Z) : Result unit * queues :=
  match q_states q !! pid with
  | None => (error ErrorCode.NotFound, q)
  | Some _ => (ok tt, forget_pid (drop_pid q pid) pid)
  end.

(** Only a process in a state with an edge to [Terminated] ends; the others
    leave the queues all the same. *)
Definition spec_terminate (q : queues) (pid : Z) : Result unit * queues :=
  match q_states q !! pid with
  | None => (error ErrorCode.NotFound, q)
  | Some st =>
      if isValidTransition st Terminated then (ok tt, forget_pid (drop_pid q pid) pid)
      else (error ErrorCode.InvalidState, drop_pid q pid)
  end.

(** ** Blocking and unblocking *)
Definition block_running (q : queues) (pid : Z) : queues :=
  MkQueues (<[pid := Blocked]> (q_states q)) (q_ready q) (idle_without pid (q_running q))
    (q_blocked q ++ [pid]) (q_home q) (q_policy q).
(** The comment of [blockProcess] says a ready process moves to the blocked list;
    in the code Ready to Blocked is not a transition and the call is refused. *)
Definition spec_block (q : queues) (pid : Z) : Result unit * queues :=
  if decide (Some pid ∈ q_running q) then (ok tt, block_running q pid) else
  if decide (pid ∈ concat (q_ready q)) then (error ErrorCode.InvalidState, q)
  else (error ErrorCode.NotFound, q).
Definition spec_blockRunning (q : queues) : Result unit * queues :=
  match omap id (q_running q) with
  | [] => (error ErrorCode.NotFound, q)
  | pid :: _ => (ok tt, block_running q pid)
  end.

(** The lane an unblocked process returns to: the one it was last queued or
    ran on, the first one when it has none. *)
Definition return_lane (q : queues) (pid : Z) : nat :=
  let lane := default 0%nat (q_home q !! pid) in
  if (length (q_ready q) <=? lane)%nat then 0%nat else lane.
Definition spec_unblock (q : queues) (pid : Z) : Result unit * queues :=
  if decide (pid ∈ q_blocked q) then
    let lane := return_lane q pid in
    (ok tt, MkQueues (<[pid := Ready]> (q_states q)) (alter (λ ready, ready ++ [pid]) lane (q_ready q))
              (q_running q) (without pid (q_blocked q)) (<[pid := lane]> (q_home q)) (q_policy q))
  else (error ErrorCode.NotFound, q).

(** ** Lanes and policy *)
Definition spec_configure (q : queues) (lanes : nat) : Result unit * queues :=
  if decide (lanes = 0%nat) then (error ErrorCode.InvalidArgument, q) else
  if decide (q_states q = ∅) then
    (ok tt, MkQueues ∅ (replicate lanes []) (replicate lanes None) (q_blocked q) ∅ (q_policy q))
  else (error ErrorCode.InvalidState, q).
Definition spec_setPolicy (q : queues) (present : bool) : Result unit * queues :=
  if present then (ok tt, MkQueues (q_states q) (q_ready q) (q_running q) (q_blocked q) (q_home q) true)
  else (error ErrorCode.InvalidState, q).

(** ** Selecting and stealing *)
(** [pid] takes the lane; the process it preempts goes to the queue's end. *)
Definition take (q : queues) (lane : nat) (ready : list Z) (running : option Z) (pid : Z) : queues :=
  let back {A} (v : A) (m : gmap Z A) := match running with Some x => <[x := v]> m | None => m end in
  MkQueues (<[pid := Running]> (back Ready (q_states q)))
    (<[lane := without pid (ready ++ option_list running)]> (q_ready q))
    (<[lane := Some pid]> (q_running q)) (q_blocked q)
    (<[pid := lane]> (back lane (q_home q))) (q_policy q).

Inductive spec_select (q : queues) (lane : nat) : Result Z → queues → Prop :=
| select_bad_lane :
    q_ready q !! lane = None → spec_select q lane (error ErrorCode.InvalidArgument) q
| select_unconfigured ready :
    q_ready q !! lane = Some ready → q_policy q = false →
    spec_select q lane (error ErrorCode.InvalidState) q
| select_nobody :
    q_ready q !! lane = Some [] → q_running q !! lane = Some None → q_policy q = true →
    spec_select q lane (error ErrorCode.NotFound) q
| select_keep pid ready :
    q_ready q !! lane = Some ready → q_running q !! lane = Some (Some pid) → q_policy q = true →
    spec_select q lane (ok pid) q
| select_take pid ready running :
    q_ready q !! lane = Some ready → q_running q !! lane = Some running → q_policy q = true →
    pid ∈ ready → spec_select q lane (ok pid) (take q lane ready running pid).

(** The first of the longest lanes besides the thief's. *)
Definition longest (q : queues) (thief victim : nat) (stolen : Z) (rest : list Z) : Prop :=
  victim ≠ thief ∧ q_ready q !! victim = Some (stolen :: rest) ∧
  ∀ lane ready, q_ready q !! lane = Some ready → lane ≠ thief →
    (length ready ≤ length (stolen :: rest))%nat ∧
    ((lane < victim)%nat → (length ready < length (stolen :: rest))%nat).
Definition stolen_to (q : queues) (thief victim : nat) (stolen : Z) (rest tq : list Z) : queues :=
  MkQueues (q_states q) (<[thief := tq ++ [stolen]]> (<[victim := rest]> (q_ready q))) (q_running q)
    (q_blocked q) (<[stolen := thief]> (q_home q)) (q_policy q).

Inductive spec_steal (q : queues) (thief : nat) : Result Z → queues → Prop :=
| steal_bad_lane :
    q_ready q !! thief = None → spec_steal q thief (error ErrorCode.InvalidArgument) q
| steal_nothing tq :
    q_ready q !! thief = Some tq →
    (∀ lane ready, q_ready q !! lane = Some ready → lane ≠ thief → ready = []) →
    spec_steal q thief (error ErrorCode.NotFound) q
| steal_longest victim stolen rest tq res q' :
    q_ready q !! thief = Some tq → longest q thief victim stolen rest →
    spec_select (stolen_to q thief victim stolen rest tq) thief res q' → spec_steal q thief res q'.

(** ** Steps and runs *)
Inductive spec_step (q : queues) : call → reply → queues → Prop :=
| step_enqueue pid st lane :
    spec_step q (CEnqueue pid st lane) (RVoid (spec_enqueue q pid st lane).1) (spec_enqueue q pid st lane).2
| step_dequeue pid :
    spec_step q (CDequeue pid) (RVoid (spec_dequeue q pid).1) (spec_dequeue q pid).2
| step_select lane res q' :
    spec_select q lane res q' → spec_step q (CSelect lane) (RPid res) q'
| step_steal lane res q' :
    spec_steal q lane res q' → spec_step q (CSteal lane) (RPid res) q'
| step_block pid :
    spec_step q (CBlock pid) (RVoid (spec_block q pid).1) (spec_block q pid).2
| step_blockRunning :
    spec_step q CBlockRunning (RVoid (spec_blockRunning q).1) (spec_blockRunning q).2
| step_unblock pid :
    spec_step q (CUnblock pid) (RVoid (spec_unblock q pid).1) (spec_unblock q pid).2
| step_terminate pid :
    spec_step q (CTerminate pid) (RVoid (spec_terminate q pid).1) (spec_terminate q pid).2
| step_configure lanes :
    spec_step q (CConfigure lanes) (RVoid (spec_configure q lanes).1) (spec_configure q lanes).2
| step_setPolicy present :
    spec_step q (CSetPolicy present) (RVoid (spec_setPolicy q present).1) (spec_setPolicy q present).2.

Inductive spec_run : queues → list (call * reply) → queues → Prop :=
| run_done q : spec_run q [] q
| run_call q c rep q1 evs q2 :
    spec_step q c rep q1 → spec_run q1 evs q2 → spec_run q ((c, rep) :: evs) q2.
