(* ===== verification/SchedTheorems.v ===== *)
(** * SchedTheorems: what the scheduler guarantees *)
From S2P Require Import Prelude Core Process Policies Scheduler SchedInvariant SchedProps SchedSteps SchedRun IScheduler.
Local Open Scope Z_scope.

(** ** The guarantees *)
Section guarantees.
Context {P : Type} `{HP : !ISchedulingPolicy P} `{HL : !LawfulSchedulingPolicy P} `{HF : !FloatCast}.
Implicit Types (s : sched P) (h : heap) (r pid now : Z) (st : ProcessState) (lane : nat).

(** C3: every run of allowed calls from a new scheduler is free of undefined
    behaviour, whatever the policy answers among the queued processes; at its
    end each reference occurs at most once over all ready queues, running
    slots and the blocked list, and where it occurs is the state of the
    process, which the process table knows under its pid. *)
Theorem scheduler_run_safe (pol : option P) (ops : list (sched_op P)) :
  run_allowed (Scheduler_make pol) ∅ ops →
  ∃ bs s h, sched_run (Scheduler_make pol) ∅ ops = Some (bs, s, h) ∧
    NoDup (concat (readyByLane s) ++ omap id (runningByLane s) ++ blocked s) ∧
    (∀ r st, member s r st →
       ∃ p, h !! r = Some p ∧ state p = st ∧ processes s !! pcb_id p = Some r) ∧
    (∀ pid r, processes s !! pid = Some r → ∃ p, h !! r = Some p ∧ pcb_id p = pid).
Proof.
  intros Ha. destruct (sched_run_ok ops (Scheduler_make pol) ∅) as (bs & s & h & Hr & Hw);
    [apply sched_wf_make|done|]. exists bs, s, h. split; [done|]. split; [|split].
  - apply NoDup_app. split; [apply Hw|]. split; [|apply NoDup_app; split_and!; try apply Hw].
    + intros r H1 [H2|H2]%elem_of_app.
      * eapply (ready_not_running s h r Hw); [by left|by right; left].
      * eapply (ready_not_blocked s h r Hw); [by left|by right; right].
    + intros r H1 H2. eapply (running_not_blocked s h r Hw); [by right; left|by right; right].
  - apply Hw.
  - intros pid r Hpr. destruct (w_table _ _ Hw _ _ Hpr) as [Hi _]. unfold pid_at in Hi.
    destruct (h !! r) as [p|]; [|done]. exists p. split; [done|]. by injection Hi.
Qed.

(** [selectNextForLane] on a well-formed scheduler.  With an idle lane and
    an empty queue it reports [NotFound].  Otherwise a process runs on the lane
    afterwards: the one already running, nothing changed; or a process of the
    ready queue, which leaves the queue, while the process it preempts goes to
    the queue's end as [Ready].  Nothing else moves. *)
Theorem select_next_outcome s h lane pol ready running now :
  sched_wf s h → policy s = Some pol →
  readyByLane s !! lane = Some ready → runningByLane s !! lane = Some running →
  (ready = [] ∧ running = None ∧
     selectNextForLane s h lane now = Some (error ErrorCode.NotFound, s, h)) ∨
  ∃ pid r s' h', selectNextForLane s h lane now = Some (ok pid, s', h') ∧
    processes s !! pid = Some r ∧ runningByLane s' !! lane = Some (Some r) ∧
    (∀ p, h' !! r = Some p → state p = Running) ∧
    blocked s' = blocked s ∧ processes s' = processes s ∧
    (running = Some r ∧ s' = s ∧ h' = h ∨
     r ∈ ready ∧ running ≠ Some r ∧
     readyByLane s' =
       <[lane := filter (λ x, Some r ≠ Some x) (ready ++ option_list running)]> (readyByLane s) ∧
     ∀ x p, running = Some x → h' !! x = Some p → state p = Ready).
Proof.
  intros Hw Hpol Hq Hrun.
  destruct (selectNext_ok s h lane now Hw) as (res & s' & h' & Hsel & Hw' & [Ht _] & Hb & Hres).
  destruct res as [pid|e].
  - right. destruct Hres as (r & ready' & running' & H1 & H2 & Hpr & Hrun' & Hcase).
    rewrite Hq in H1. rewrite Hrun in H2. injection H1 as <-. injection H2 as <-.
    assert (∀ p, h' !! r = Some p → state p = Running) as Hst.
    { intros p Hp. destruct (w_member _ _ Hw' r Running) as (p' & Hp' & ? & _); [|congruence].
      by eapply slot_member. }
    exists pid, r, s', h'. split_and!; [done..|]. destruct Hcase as [?|(Hin & _ & Hrd & _ & Hh)]; [by left|right].
    split_and!; [done| |done|].
    + intros ->. eapply (ready_not_running s h r Hw); [by eapply lane_member|by eapply slot_member].
    + intros x p -> Hp. destruct (w_member _ _ Hw' x Ready) as (p' & Hp' & ? & _); [|congruence].
      assert (x ≠ r) as Hne.
      { intros ->. eapply (ready_not_running s h r Hw); [by eapply lane_member|by eapply slot_member]. }
      eapply (lane_member s' lane); [|apply filter_ne_elem; split; [exact Hne|]].
      * rewrite Hrd. apply list_lookup_insert_eq. by eapply lookup_lt_Some.
      * set_solver.
  - left. destruct Hres as (-> & -> & [(_ & H)|[(_ & H)|(-> & H1 & H2)]]); [congruence..|].
    rewrite Hq in H1. rewrite Hrun in H2. injection H1 as ->. injection H2 as ->. done.
Qed.

(** Stealing.  The thief gets the head of the longest other queue, the
    first lane of equals, appended to its own queue, and then selects from
    that queue; with no process waiting on another lane nothing changes. *)
Theorem steal_from_longest s h thief now :
  sched_wf s h → (thief < length (readyByLane s))%nat →
  (stealNextForLane s h thief now = Some (error ErrorCode.NotFound, s, h) ∧
     ∀ lane q, readyByLane s !! lane = Some q → lane ≠ thief → q = []) ∨
  ∃ victim stolen rest tq s1 res s' h',
    victim ≠ thief ∧ readyByLane s !! victim = Some (stolen :: rest) ∧ readyByLane s !! thief = Some tq ∧
    (∀ lane q, readyByLane s !! lane = Some q → lane ≠ thief →
       (length q ≤ length (stolen :: rest))%nat ∧
       ((lane < victim)%nat → (length q < length (stolen :: rest))%nat)) ∧
    readyByLane s1 = <[thief := tq ++ [stolen]]> (<[victim := rest]> (readyByLane s)) ∧
    runningByLane s1 = runningByLane s ∧ blocked s1 = blocked s ∧ processes s1 = processes s ∧
    stealNextForLane s h thief now = selectNextForLane s1 h thief now ∧
    selectNextForLane s1 h thief now = Some (res, s', h') ∧ sched_wf s' h' ∧
    (policy s ≠ None → ∃ pid r, res = ok pid ∧ runningByLane s' !! thief = Some (Some r)).
Proof.
  intros Hw Hlt. destruct (steal_ok s h thief now Hw) as
    [[_ Hn]|[?|(v & r & rest & tq & p & H1 & H2 & H3 & _ & _ & H4 & Hw1 & H5)]].
  { apply lookup_ge_None in Hn. lia. }
  { by left. }
  right. destruct (selectNext_ok _ h thief now Hw1) as (res & s' & h' & Hsel & Hw' & _ & _ & Hres).
  exists v, r, rest, tq, (stolen_state s thief v r (pcb_id p) rest tq), res, s', h'.
  split_and!; try done. intros Hpol. simpl in Hres.
  assert (<[thief := tq ++ [r]]> (<[v := rest]> (readyByLane s)) !! thief = Some (tq ++ [r])) as Hl.
  { apply list_lookup_insert_eq. by rewrite length_insert. }
  destruct res as [pid|e].
  - destruct Hres as (r' & ? & ? & _ & _ & _ & Hrun & _). by exists pid, r'.
  - destruct Hres as (_ & _ & [(_ & H)|[(_ & H)|(_ & H & _)]]); rewrite ?Hl in H; try done.
    by destruct tq.
Qed.

(** A process that blocks gives up its lane, and when it is unblocked it is
    ready again, last in the queue of the lane it ran on and not of the first
    lane, with the blocked list as it was. *)
Theorem block_unblock_same_lane s h lane r pid q now now' :
  sched_wf s h → runningByLane s !! lane = Some (Some r) → processes s !! pid = Some r →
  processLane s !! pid = Some lane → readyByLane s !! lane = Some q →
  ∃ s1 h1 s2 h2, blockProcess s h pid now = Some (ok tt, s1, h1) ∧
    blocked s1 = blocked s ++ [r] ∧ runningByLane s1 = <[lane := None]> (runningByLane s) ∧
    unblock s1 h1 pid now' = Some (ok tt, s2, h2) ∧
    readyByLane s2 = <[lane := q ++ [r]]> (readyByLane s) ∧
    runningByLane s2 = <[lane := None]> (runningByLane s) ∧ blocked s2 = blocked s ∧
    sched_wf s2 h2.
Proof.
  intros Hw Hl Hpr Hlane Hq. destruct (blockProcess_ok s h pid now Hw) as
    [(l & r' & s1 & Hl' & Hpr' & Hb & Hw1 & [Ht1 _] & Hpl & Hrd & Hrn & Hbl)|(e & _ & _ & Hno)].
  2: { exfalso. apply (Hno r Hpr). destruct (slots_lane _ _ _ Hl) as (rest & -> & _). set_solver. }
  assert (r' = r) as -> by congruence. assert (l = lane) as ->.
  { by eapply (slots_unique (runningByLane s)); [apply Hw|..]. }
  exists s1, (moved_to h r Blocked now). destruct (unblock_ok s1 _ pid now' Hw1) as
    [(r' & q' & s2 & Hr' & Hin & Hq' & Hu & Hw2 & _ & Hrd2 & Hrn2 & Hbl2 & _)|[_ Hno]].
  2: { destruct (Hno r); [by rewrite Ht1|]. rewrite Hbl. set_solver. }
  assert (r' = r) as -> by congruence.
  assert (home_lane s1 pid = lane) as Hh.
  { unfold home_lane. rewrite Hpl, Hlane. simpl. rewrite Hrd.
    destruct (Nat.leb_spec (length (readyByLane s)) lane); [|done].
    apply lookup_lt_Some in Hq. lia. }
  rewrite Hh, Hrd in *. assert (q' = q) as -> by congruence.
  exists s2, (moved_to (moved_to h r Blocked now) r Ready now'). split_and!; try done; try congruence.
  rewrite Hbl2, Hbl, Ht1, Hpr, filter_app. rewrite filter_cons_False by (intros H; by apply H).
  rewrite filter_nil, app_nil_r. apply list_filter_all. apply Forall_forall. intros x Hx [= <-].
  eapply (running_not_blocked s h r Hw); [by eapply slot_member|by right; right].
Qed.

(** [blockProcess] only blocks running processes: on a ready one it always
    reports [InvalidState] and changes nothing. *)
Theorem block_ready_refused s h pid r now :
  sched_wf s h → processes s !! pid = Some r → r ∈ concat (readyByLane s) →
  blockProcess s h pid now = Some (error ErrorCode.InvalidState, s, h).
Proof.
  intros Hw Hpr Hin. destruct (blockProcess_ok s h pid now Hw) as
    [(l & r' & s1 & Hl & Hpr' & _)|(e & -> & He & _)].
  - assert (r' = r) as -> by congruence. exfalso.
    eapply (ready_not_running s h r Hw); [by left|by eapply slot_member].
  - destruct He as [[_ ->]|[Hno _]]; [done|]. by destruct (Hno r Hpr).
Qed.

(** [terminate] of a running process ends it and forgets it; of a ready or
    blocked one it removes it from every queue and then reports
    [InvalidState], so that the process is still known but scheduled nowhere. *)
Theorem terminate_outcome s h pid r now :
  sched_wf s h → processes s !! pid = Some r →
  (member s r Running →
     ∃ s' h', terminate s h pid now = Some (ok tt, s', h') ∧ processes s' = delete pid (processes s) ∧
       (∀ st, ¬ member s' r st) ∧ sched_wf s' h' ∧ ∀ p, h' !! r = Some p → state p = Terminated) ∧
  (member s r Ready ∨ member s r Blocked →
     ∃ s', terminate s h pid now = Some (error ErrorCode.InvalidState, s', h) ∧
       processes s' = processes s ∧ (∀ st, ¬ member s' r st)).
Proof.
  intros Hw Hpr. pose proof (terminate_ok s h pid now Hw) as Ht. rewrite Hpr in Ht.
  destruct Ht as (p & s1 & Hp & E1 & E2 & Hmem & Hres).
  assert (∀ st, ¬ member s1 r st) as Hnone by (intros st Hm; apply Hmem in Hm; tauto). split.
  - intros Hm. destruct (w_member _ _ Hw _ _ Hm) as (p' & Hp' & Hst & _).
    assert (p' = p) as -> by congruence. rewrite Hst in Hres. simpl in Hres. destruct Hres as [Hr Hw'].
    exists (forget s1 pid), (moved_to h r Terminated now). split_and!; try done; [by rewrite <-E1|].
    intros p0. rewrite (moved_to_eq h r p), lookup_insert_eq by done. intros [= <-].
    apply setState_moves. by rewrite Hst.
  - intros Hm. assert (∃ p', h !! r = Some p' ∧ (state p' = Ready ∨ state p' = Blocked)) as (p' & Hp' & Hst).
    { destruct Hm as [Hm|Hm]; destruct (w_member _ _ Hw _ _ Hm) as (p' & ? & ? & _); eauto. }
    assert (p' = p) as -> by congruence. exists s1. by destruct Hst as [Hst|Hst]; rewrite Hst in Hres; destruct Hres.
Qed.
End guarantees.

(** ** Concrete runs *)
Definition demo_pcb (id : Z) : PCB :=
  MkPCB id "p" New (MkPriority Normal Normal 0) (MkTiming 0 0 0 0 0 0 0 0 0) (MkAddressInfo 0 0 0 0).

(** Three processes on two lanes; the first is running. *)
Definition demo_ops : list (sched_op Policies.policy) :=
  [OpCreate 100 (demo_pcb 1); OpCreate 200 (demo_pcb 2); OpCreate 300 (demo_pcb 3); OpConfigure 2;
   OpEnqueue 100 0 1; OpEnqueue 200 0 2; OpEnqueue 300 0 3; OpSelect 0 4].

#[local] Instance demo_cast : FloatCast := λ _, 0.

Ltac run_allowed_tac :=
  repeat match goal with
  | |- run_allowed _ _ (_ :: _) => split
  | |- run_allowed _ _ [] => exact I
  | |- ∀ b s h, _ = Some _ → _ =>
      let E := fresh in intros ??? E; vm_compute in E; injection E as <- <- <-
  | |- op_allowed _ _ (OpCreate _ _) => vm_compute; reflexivity
  | |- op_allowed _ _ (OpEnqueue _ _ _) =>
      eexists; split; [vm_compute; reflexivity|split; [left; vm_compute; reflexivity|apply not_elem_of_nil]]
  | |- op_allowed _ _ _ => exact I
  end.

Lemma demo_allowed : run_allowed (Scheduler_make (Some Fcfs)) ∅ demo_ops.
Proof. unfold demo_ops. run_allowed_tac. Qed.

Definition demo : sched Policies.policy * heap :=
  match sched_run (Scheduler_make (Some Fcfs)) ∅ demo_ops with
  | Some (_, s, h) => (s, h)
  | None => (Scheduler_make None, ∅)
  end.

Lemma demo_wf : sched_wf demo.1 demo.2.
Proof.
  unfold demo. destruct (sched_run_ok demo_ops (Scheduler_make (Some Fcfs)) ∅) as (bs & s & h & -> & Hw);
    [apply sched_wf_make|apply demo_allowed|exact Hw].
Qed.

Lemma scheduler_run_safe_witness :
  ∃ bs s h, sched_run (Scheduler_make (Some Fcfs)) ∅ demo_ops = Some (bs, s, h) ∧
    NoDup (concat (readyByLane s) ++ omap id (runningByLane s) ++ blocked s).
Proof.
  destruct (scheduler_run_safe (Some Fcfs) demo_ops demo_allowed) as (bs & s & h & H1 & H2 & _).
  exists bs, s, h. split; [exact H1|exact H2].
Defined.

Lemma select_next_outcome_witness :
  ∃ pid r s' h', selectNextForLane demo.1 demo.2 0 9 = Some (ok pid, s', h') ∧
    runningByLane s' !! 0%nat = Some (Some r).
Proof.
  destruct (select_next_outcome demo.1 demo.2 0 Fcfs [200; 300] (Some 100) 9) as
    [(H & _)|(pid & r & s' & h' & H1 & _ & H2 & _)];
    [apply demo_wf|vm_compute; reflexivity..|discriminate H|].
  exists pid, r, s', h'. split; [exact H1|exact H2].
Defined.

Lemma steal_from_longest_witness :
  (1 < length (readyByLane demo.1))%nat ∧
  ∃ s1, stealNextForLane demo.1 demo.2 1 9 = selectNextForLane s1 demo.2 1 9.
Proof.
  split; [vm_compute; lia|].
  destruct (steal_from_longest demo.1 demo.2 1 9) as [(_ & H)|(v & r & rest & tq & s1 & res & s' & h' & _ & _ & _ & _ & _ & _ & _ & _ & H & _)];
    [apply demo_wf|vm_compute; lia| |exists s1; exact H].
  assert (readyByLane demo.1 !! 0%nat = Some [200; 300]) as E by (vm_compute; reflexivity).
  discriminate (H 0%nat [200; 300] E (Nat.neq_0_succ 0)).
Defined.

Lemma block_unblock_same_lane_witness :
  ∃ s1 h1 s2 h2, blockProcess demo.1 demo.2 1 9 = Some (ok tt, s1, h1) ∧
    unblock s1 h1 1 12 = Some (ok tt, s2, h2) ∧
    readyByLane s2 = <[0%nat := [200; 300] ++ [100]]> (readyByLane demo.1).
Proof.
  destruct (block_unblock_same_lane demo.1 demo.2 0 100 1 [200; 300] 9 12) as
    (s1 & h1 & s2 & h2 & H1 & _ & _ & H2 & H3 & _);
    [apply demo_wf|vm_compute; reflexivity..|].
  exists s1, h1, s2, h2. split; [exact H1|split; [exact H2|exact H3]].
Defined.

Lemma block_ready_refused_witness :
  blockProcess demo.1 demo.2 2 9 = Some (error ErrorCode.InvalidState, demo.1, demo.2).
Proof.
  apply (block_ready_refused demo.1 demo.2 2 200 9); [apply demo_wf|vm_compute; reflexivity|].
  vm_compute. apply list_elem_of_here.
Defined.

Lemma terminate_outcome_witness :
  ∃ s', terminate demo.1 demo.2 2 9 = Some (error ErrorCode.InvalidState, s', demo.2) ∧
    ∀ st, ¬ member s' 200 st.
Proof.
  destruct (terminate_outcome demo.1 demo.2 2 200 9) as [_ H]; [apply demo_wf|vm_compute; reflexivity|].
  destruct H as (s' & H1 & _ & H2); [|exists s'; split; [exact H1|exact H2]].
  left. left. split; [reflexivity|]. vm_compute. apply list_elem_of_here.
Defined.

(** [enqueueToLane] does not look at the blocked list: a blocked process that
    is enqueued is in a ready queue and in the blocked list at once. *)
Example enqueue_blocked_duplicates :
  match sched_run (Scheduler_make (Some Fcfs)) ∅
          (demo_ops ++ [OpBlock 1 5; OpEnqueue 100 0 6]) with
  | Some (_, s, _) => 100 ∈ concat (readyByLane s) ∧ 100 ∈ blocked s
  | None => False
  end.
Proof.
  vm_compute. split; [|apply list_elem_of_here].
  do 2 apply list_elem_of_further. apply list_elem_of_here.
Qed.
