(* ===== verification/SchedRefine.v ===== *)
(** * SchedRefine: [Scheduler] implements its contract

    The view of a scheduler and its heap as the queues of [SchedSpec], and the
    simulation: every call of the interface is a step of the contract with the
    same reply. *)
From S2P Require Import Prelude Core Process Policies Scheduler SchedInvariant SchedProps SchedSteps SchedRun.
From S2P Require Import IScheduler SchedSpec SchedTheorems.
Local Open Scope Z_scope.

(** ** The view *)
Definition pid_of (h : heap) (r : Z) : Z := default INVALID_PID (pid_at h r).
Definition state_of (h : heap) (r : Z) : ProcessState := default New (state <$> h !! r).
Definition pids (h : heap) (l : list Z) : list Z := pid_of h <$> l.
Definition slot_pids (h : heap) (l : list (option Z)) : list (option Z) := fmap (M:=option) (pid_of h) <$> l.

Section view.
Context (h : heap) (procs : gmap Z Z) (Ht : table_ok h procs).
Implicit Types (l : list Z) (r pid : Z).

Lemma pid_of_known pid r : procs !! pid = Some r → pid_of h r = pid.
Proof. intros Hr. unfold pid_of. by rewrite (proj1 (Ht _ _ Hr)). Qed.

Lemma pid_of_iff pid r : known h procs r → pid_of h r = pid ↔ procs !! pid = Some r.
Proof.
  intros (p & Hp & Hk). unfold pid_of, pid_at. rewrite Hp. simpl. split; [by intros <-|].
  intros Hr. apply Ht in Hr as [Hr _]. unfold pid_at in Hr. rewrite Hp in Hr. by injection Hr.
Qed.

Lemma pids_elem pid l : Forall (known h procs) l →
  pid ∈ pids h l ↔ ∃ r, procs !! pid = Some r ∧ r ∈ l.
Proof.
  rewrite Forall_forall. intros Hl. unfold pids. rewrite list_elem_of_fmap. split.
  - intros (r & E & Hr). exists r. split; [|done]. by apply pid_of_iff; [apply Hl|].
  - intros (r & Hp & Hr). exists r. split; [|done]. symmetry. by apply pid_of_known.
Qed.

Lemma pids_without pid l : Forall (known h procs) l →
  pids h (filter (λ x, procs !! pid ≠ Some x) l) = without pid (pids h l).
Proof.
  unfold pids, without. induction 1 as [|r l Hr _ IH]; [done|]. rewrite fmap_cons.
  destruct (decide (procs !! pid = Some r)) as [E|E].
  - rewrite filter_cons_False by tauto. rewrite filter_cons_False; [done|].
    intros H. by apply H, pid_of_iff.
  - rewrite filter_cons_True by done. rewrite filter_cons_True; [by rewrite fmap_cons, IH|].
    by rewrite pid_of_iff.
Qed.

Lemma slot_pids_clear pid (slots : list (option Z)) : Forall (known h procs) (omap id slots) →
  slot_pids h (clear_slots procs pid slots) = idle_without pid (slot_pids h slots).
Proof.
  unfold slot_pids, idle_without, clear_slots.
  induction slots as [|[r|] slots IH]; cbn; [done| |by intros Hs; rewrite <-IH].
  intros [Hr Hs]%Forall_cons. rewrite IH by done. f_equal. cbn.
  destruct (decide (procs !! pid = Some r)) as [E|E]; case_decide as E'; try done; by apply pid_of_iff in E || apply pid_of_iff in E'.
Qed.

(** One process changes state. *)
Lemma states_update pid r p p' : procs !! pid = Some r → h !! r = Some p → pcb_id p' = pcb_id p →
  state_of (<[r := p']> h) <$> procs = <[pid := state p']> (state_of h <$> procs).
Proof.
  intros Hr Hp Hi. apply map_eq. intros pid'. rewrite lookup_fmap.
  destruct (decide (pid' = pid)) as [->|Hne].
  - rewrite lookup_insert_eq, Hr. simpl. unfold state_of. by rewrite lookup_insert_eq.
  - rewrite lookup_insert_ne, lookup_fmap by done. destruct (procs !! pid') as [r'|] eqn:Hr'; [|done].
    simpl. f_equal. unfold state_of. rewrite lookup_insert_ne; [done|]. intros ->.
    apply Hne. by rewrite <-(pid_of_known _ _ Hr), <-(pid_of_known _ _ Hr').
Qed.
End view.

Lemma pids_ext h h' l : (∀ r, pid_at h' r = pid_at h r) → pids h' l = pids h l.
Proof. intros He. apply list_fmap_ext. intros i r _. unfold pid_of. by rewrite He. Qed.
Lemma slot_pids_ext h h' l : (∀ r, pid_at h' r = pid_at h r) → slot_pids h' l = slot_pids h l.
Proof.
  intros He. apply list_fmap_ext. intros i [r|] _; [|done]. simpl. unfold pid_of. by rewrite He.
Qed.

Lemma alter_insert {A} (f : A → A) (l : list A) i x : l !! i = Some x → alter f i l = <[i := f x]> l.
Proof.
  intros Hx. apply list_eq. intros j. destruct (decide (j = i)) as [->|].
  - by rewrite list_lookup_alter_eq, list_lookup_insert_eq, Hx by by eapply lookup_lt_Some.
  - by rewrite list_lookup_alter_ne, list_lookup_insert_ne.
Qed.

Section refine.
Context {P : Type} `{HP : !ISchedulingPolicy P} `{HL : !LawfulSchedulingPolicy P} `{HF : !FloatCast}.
Implicit Types (s : sched P) (h : heap) (r pid now : Z) (st : ProcessState) (lane : nat).

Definition view s h : queues :=
  MkQueues (state_of h <$> processes s) (pids h <$> readyByLane s) (slot_pids h (runningByLane s))
    (pids h (blocked s)) (processLane s) (bool_decide (is_Some (policy s))).

(** The view of a later heap with the same identifiers. *)
Lemma view_move s s' h r p p' pid :
  table_ok h (processes s) → processes s !! pid = Some r → h !! r = Some p → pcb_id p' = pcb_id p →
  processes s' = processes s → policy s' = policy s →
  view s' (<[r := p']> h) =
  MkQueues (<[pid := state p']> (q_states (view s h))) (pids h <$> readyByLane s')
    (slot_pids h (runningByLane s')) (pids h (blocked s')) (processLane s') (q_policy (view s h)).
Proof.
  intros Ht Hr Hp Hi E1 E2. unfold view. rewrite E1, E2. simpl.
  rewrite (states_update h _ Ht pid r p p') by done.
  assert (∀ x, pid_at (<[r := p']> h) x = pid_at h x) as He by by apply (pid_at_update h r p p').
  rewrite (slot_pids_ext h), (pids_ext h _ (blocked s')) by done. f_equal.
  apply list_fmap_ext. intros i l _. by apply pids_ext.
Qed.

Lemma view_ready s h lane : q_ready (view s h) !! lane = pids h <$> readyByLane s !! lane.
Proof. apply list_lookup_fmap. Qed.
Lemma view_running s h lane : q_running (view s h) !! lane = fmap (M:=option) (pid_of h) <$> runningByLane s !! lane.
Proof. apply list_lookup_fmap. Qed.
Lemma view_state s h pid : q_states (view s h) !! pid = state_of h <$> processes s !! pid.
Proof. apply lookup_fmap. Qed.

Lemma view_forget s h pid : view (forget s pid) h = forget_pid (view s h) pid.
Proof. unfold view, forget_pid. simpl. by rewrite fmap_delete. Qed.
Lemma state_of_at h r p : h !! r = Some p → state_of h r = state p.
Proof. unfold state_of. by intros ->. Qed.

Lemma pids_concat h (qs : list (list Z)) : concat (pids h <$> qs) = pids h (concat qs).
Proof. unfold pids. induction qs as [|q qs IH]; [done|]. cbn. by rewrite fmap_app, IH. Qed.
Lemma slot_pids_omap h (slots : list (option Z)) : omap id (slot_pids h slots) = pids h (omap id slots).
Proof. unfold slot_pids, pids. induction slots as [|[r|] slots IH]; cbn; [done|by f_equal|done]. Qed.

Lemma some_omap (slots : list (option Z)) x : Some x ∈ slots ↔ x ∈ omap id slots.
Proof.
  rewrite list_elem_of_omap. split; [intros H; by exists (Some x)|]. intros (o & Ho & E). unfold id in E. by subst.
Qed.

Section step.
Context s h (Hw : sched_wf s h).

Lemma in_ready pid : pid ∈ concat (q_ready (view s h)) ↔
  ∃ r, processes s !! pid = Some r ∧ member s r Ready.
Proof.
  simpl. rewrite pids_concat, (pids_elem h _ (w_table _ _ Hw)) by by apply ready_known.
  apply exist_proper. intros r. unfold member. naive_solver.
Qed.
Lemma in_running pid : Some pid ∈ q_running (view s h) ↔
  ∃ r, processes s !! pid = Some r ∧ member s r Running.
Proof.
  simpl. rewrite some_omap, slot_pids_omap, (pids_elem h _ (w_table _ _ Hw)) by by apply running_known.
  apply exist_proper. intros r. unfold member. naive_solver.
Qed.
Lemma in_blocked pid : pid ∈ q_blocked (view s h) ↔
  ∃ r, processes s !! pid = Some r ∧ member s r Blocked.
Proof.
  simpl. rewrite (pids_elem h _ (w_table _ _ Hw)) by by apply blocked_known.
  apply exist_proper. intros r. unfold member. naive_solver.
Qed.

(** ** Leaving *)
Lemma view_dropped pid s' : dropped s pid s' → view s' h = drop_pid (view s h) pid.
Proof.
  intros (E1 & E2 & E3 & E4 & E5 & E6). pose proof (w_table _ _ Hw) as Ht. unfold view, drop_pid. simpl.
  rewrite E1, E2, E3, E4, E5, E6. f_equal.
  - rewrite <-!list_fmap_compose. apply list_fmap_ext. intros i q Hq. simpl.
    eapply (pids_without h _ Ht), lane_known; done.
  - apply (slot_pids_clear h _ Ht). by apply running_known.
  - apply (pids_without h _ Ht). by apply blocked_known.
Qed.

Lemma dequeue_refines pid : ∃ res s' h', dequeue s h pid = Some (res, s', h') ∧
  spec_dequeue (view s h) pid = (res, view s' h').
Proof.
  unfold spec_dequeue. rewrite view_state.
  destruct (dequeue_ok s h pid Hw) as [([r Hr] & s1 & Hd & ->)|[Hn ->]]; eexists _, _, _; (split; [done|]).
  - rewrite Hr. simpl. by rewrite <-(view_dropped _ _ Hd), view_forget.
  - by rewrite Hn.
Qed.

Lemma terminate_refines pid now : ∃ res s' h', terminate s h pid now = Some (res, s', h') ∧
  spec_terminate (view s h) pid = (res, view s' h').
Proof.
  unfold spec_terminate. rewrite view_state. pose proof (terminate_ok s h pid now Hw) as Ho.
  destruct (processes s !! pid) as [r|] eqn:Hr; [|by eexists _, _, _].
  destruct Ho as (p & s1 & Hp & E1 & Hd & _ & Ho). simpl. rewrite (state_of_at _ _ _ Hp).
  rewrite <-(view_dropped _ _ Hd). destruct (isValidTransition (state p) Terminated) eqn:Hv.
  - destruct Ho as [-> _]. eexists _, _, _. split; [done|]. f_equal. rewrite (moved_to_eq h r p) by done.
    rewrite view_forget. rewrite (view_move s s1 h r p _ pid); try done; try apply Hd; [|apply Hw|apply setState_id].
    unfold forget_pid, view. simpl. rewrite delete_insert_eq, E1. by rewrite (proj1 (proj2 Hd)).
  - destruct Ho as [-> _]. by eexists _, _, _.
Qed.

(** ** Entering *)
Lemma enqueue_refines r lane now : admissible s h r → ∃ p res s' h', h !! r = Some p ∧
  enqueueToLane s h r lane now = Some (res, s', h') ∧
  spec_enqueue (view s h) (pcb_id p) (state p) lane = (res, view s' h').
Proof.
  intros Ha. destruct (enqueueToLane_ok s h r lane now Hw Ha) as (p & Hp & Ho). exists p. simpl in Ho.
  assert (view (set_processes s (<[pcb_id p := r]> (processes s))) h =
    MkQueues (<[pcb_id p := state p]> (q_states (view s h))) (q_ready (view s h)) (q_running (view s h))
      (q_blocked (view s h)) (q_home (view s h)) (q_policy (view s h))) as Hreg.
  { unfold view. simpl. by rewrite fmap_insert, (state_of_at _ _ _ Hp). }
  assert (∀ st, member s r st → ∃ x, processes s !! pcb_id p = Some x ∧ member s x st) as Hown.
  { intros st Hm. exists r. split; [|done]. destruct (w_member _ _ Hw _ _ Hm) as (? & ? & ? & ?). by simplify_eq. }
  assert (∀ x, processes s !! pcb_id p = Some x → x = r) as Honly.
  { intros x Hx. destruct Ha as (? & ? & [?|?] & _); by simplify_eq. }
  unfold spec_enqueue. rewrite view_ready.
  assert (pcb_id p ∈ concat (q_ready (view s h)) ∨ Some (pcb_id p) ∈ q_running (view s h) ↔
    member s r Ready ∨ member s r Running) as Hin.
  { rewrite in_ready, in_running. split; [|naive_solver]. intros [(x & Hx & ?)|(x & Hx & ?)]; rewrite <-(Honly x Hx); auto. }
  destruct Ho as [[-> ->]|[(-> & Hi & [q ->])|[(-> & _ & Hm & [q ->] & Hi)|
    [(-> & _ & HnR & HnU & Hst & [q ->] & Hi)|Ho]]]]; [eexists _, _, _; split_and!; [done..|]; simpl..|].
  - done.
  - by rewrite decide_True.
  - rewrite decide_False, decide_True by (done || by apply Hin). by rewrite Hreg.
  - rewrite decide_False, decide_False by (done || (rewrite Hin; tauto)). rewrite decide_True by done. by rewrite Hreg.
  - destruct Ho as (s' & h' & q & p' & -> & Hw' & Hq & E1 & E2 & E3 & E4 & E5 & -> & Hst' & Hid & HnR & HnU & Hne & Hv & Hi & Hpol).
    eexists _, _, _. split_and!; [done..|]. rewrite Hq. simpl.
    rewrite decide_False, decide_False by (done || (rewrite Hin; tauto)).
    rewrite decide_False by (rewrite Hv; by intros [?|?]). f_equal.
    assert (sched_wf (set_processes s (<[pcb_id p := r]> (processes s))) h) as Hw1.
    { destruct Ha as (? & ? & ? & _). simplify_eq. by apply register_wf. }
    rewrite (view_move (set_processes s (<[pcb_id p := r]> (processes s))) s' h r p p' (pcb_id p));
      [|apply Hw1|apply lookup_insert_eq|done..].
    simpl. rewrite E1, E2, E3, E5, Hst', fmap_insert, insert_insert_eq. f_equal.
    rewrite list_fmap_insert. unfold pids. rewrite fmap_app. simpl. unfold pid_of, pid_at. by rewrite Hp.
Qed.

(** ** Blocking and unblocking *)
Lemma blocked_view pid r lane p now s' :
  processes s !! pid = Some r → runningByLane s !! lane = Some (Some r) → h !! r = Some p → state p = Running →
  same_table s s' → processLane s' = processLane s → readyByLane s' = readyByLane s →
  runningByLane s' = <[lane := None]> (runningByLane s) → blocked s' = blocked s ++ [r] →
  view s' (moved_to h r Blocked now) = block_running (view s h) pid.
Proof.
  intros Hr Hl Hp Hst [E1 E2] E3 E4 E5 E6. pose proof (w_table _ _ Hw) as Ht.
  destruct (setState_moves p Blocked now) as (_ & H2 & _); [by rewrite Hst|].
  rewrite (moved_to_eq h r p) by done.
  rewrite (view_move s s' h r p _ pid); try done; [|apply setState_id].
  unfold block_running. simpl. rewrite E3, E4, E5, E6, H2. f_equal.
  - rewrite (clear_slots_at (processes s) _ pid lane r) by (done || apply Hw).
    apply (slot_pids_clear h _ Ht). by apply running_known.
  - unfold pids. rewrite fmap_app. simpl. by rewrite (pid_of_known h _ Ht pid r).
Qed.

Lemma block_refines pid now : ∃ res s' h', blockProcess s h pid now = Some (res, s', h') ∧
  spec_block (view s h) pid = (res, view s' h').
Proof.
  unfold spec_block.
  destruct (blockProcess_ok s h pid now Hw) as
    [(lane & r & s' & Hl & Hr & -> & _ & E1 & E2 & E3 & E4 & E5)|(e & -> & He & Hno)]; eexists _, _, _; (split; [done|]).
  - assert (member s r Running) as Hm by by eapply slot_member.
    rewrite decide_True by (apply in_running; by exists r).
    destruct (w_member _ _ Hw _ _ Hm) as (p & Hp & Hst & _). f_equal. symmetry. by eapply blocked_view.
  - rewrite decide_False; [|intros (r & Hr & [[? _]|[[_ Hin]|[? _]]])%in_running; try done; by destruct (Hno r)].
    destruct He as [[(r & Hr & Hin) ->]|[Hout ->]].
    + rewrite decide_True; [done|]. apply in_ready. exists r. split; [done|]. by left.
    + rewrite decide_False; [done|]. intros (r & Hr & [[_ ?]|[[? _]|[? _]]])%in_ready; try done. by destruct (Hout r).
Qed.

Lemma blockRunning_refines now : ∃ res s' h', blockRunning s h now = Some (res, s', h') ∧
  spec_blockRunning (view s h) = (res, view s' h').
Proof.
  unfold spec_blockRunning, blockRunning. simpl. rewrite slot_pids_omap.
  pose proof (first_running_spec (runningByLane s) 0) as Hf.
  destruct (first_running _ _) as [[lane r]|] eqn:Hr; [|rewrite Hf; by eexists _, _, _].
  destruct Hf as (i & -> & Hi & l & ->). simpl.
  destruct (block_slot_ok s h i r now Hw Hi) as (p & s' & Hp & Hst & Hk & -> & _ & E1 & E2 & E3 & E4 & E5).
  eexists _, _, _. split; [done|]. f_equal. symmetry.
  rewrite (pid_of_known h _ (w_table _ _ Hw) (pcb_id p) r) by done. by eapply blocked_view.
Qed.

Lemma unblock_refines pid now : ∃ res s' h', unblock s h pid now = Some (res, s', h') ∧
  spec_unblock (view s h) pid = (res, view s' h').
Proof.
  unfold spec_unblock. pose proof (w_table _ _ Hw) as Ht.
  destruct (unblock_ok s h pid now Hw) as
    [(r & q & s' & Hr & Hin & Hq & -> & _ & [E1 E2] & E3 & E4 & E5 & E6)|[-> Hno]]; eexists _, _, _; (split; [done|]).
  - assert (member s r Blocked) as Hm by (right; by right).
    rewrite decide_True by (apply in_blocked; by exists r).
    destruct (w_member _ _ Hw _ _ Hm) as (p & Hp & Hst & _).
    destruct (setState_moves p Ready now) as (_ & H2 & _); [by rewrite Hst|].
    assert (return_lane (view s h) pid = home_lane s pid) as ->.
    { unfold return_lane, home_lane. simpl. by rewrite length_fmap. }
    rewrite (moved_to_eq h r p) by done.
    rewrite (view_move s s' h r p _ pid); try done; [|apply setState_id].
    f_equal. simpl. rewrite E3, E4, E5, E6, H2. f_equal.
    + rewrite (alter_insert _ _ _ (pids h q)) by (by rewrite list_lookup_fmap, Hq).
      rewrite list_fmap_insert. unfold pids. rewrite fmap_app. simpl. by rewrite (pid_of_known h _ Ht pid r).
    + symmetry. apply (pids_without h _ Ht). by apply blocked_known.
  - rewrite decide_False; [done|]. intros (r & Hr & [[? _]|[[? _]|[_ ?]]])%in_blocked; try done. by destruct (Hno r).
Qed.

(** ** Selecting and stealing *)
Lemma slot_known lane x : runningByLane s !! lane = Some (Some x) →
  ∃ p, h !! x = Some p ∧ state p = Running ∧ processes s !! pcb_id p = Some x.
Proof. intros Hl. by eapply w_member, slot_member. Qed.

(** The view after the preempted process, if any, went back. *)
Lemma back_view lane running now : runningByLane s !! lane = Some running →
  (∀ x, pid_at (match running with Some x => moved_to h x Ready now | None => h end) x = pid_at h x) ∧
  state_of (match running with Some x => moved_to h x Ready now | None => h end) <$> processes s =
    match pid_of h <$> running with
    | Some i => <[i := Ready]> (state_of h <$> processes s)
    | None => state_of h <$> processes s
    end ∧
  back_on lane h running (processLane s) =
    match pid_of h <$> running with Some i => <[i := lane]> (processLane s) | None => processLane s end.
Proof.
  intros Hl. destruct running as [x|]; [|done]. destruct (slot_known lane x Hl) as (p & Hp & Hst & Hk).
  destruct (setState_moves p Ready now) as (_ & H2 & H3); [by rewrite Hst|].
  split_and!; [intros; apply moved_pids|..].
  - rewrite (moved_to_eq h x p) by done.
    rewrite (states_update h _ (w_table _ _ Hw) (pcb_id p) x p), H2 by done. simpl.
    by rewrite (pid_of_known h _ (w_table _ _ Hw) (pcb_id p) x).
  - unfold back_on. simpl. unfold pid_of, pid_at. by rewrite Hp.
Qed.

Lemma take_view lane ready running r pid now s' h' :
  readyByLane s !! lane = Some ready → runningByLane s !! lane = Some running → r ∈ ready →
  processes s !! pid = Some r → same_table s s' → blocked s' = blocked s →
  processLane s' = <[pid := lane]> (back_on lane h running (processLane s)) →
  readyByLane s' = <[lane := filter (λ x, Some r ≠ Some x) (ready ++ option_list running)]> (readyByLane s) →
  runningByLane s' = <[lane := Some r]> (runningByLane s) →
  h' = moved_to (match running with Some x => moved_to h x Ready now | None => h end) r Running now →
  view s' h' = take (view s h) lane (pids h ready) (pid_of h <$> running) pid.
Proof.
  intros Hq Hl Hin Hr [E1 E2] E3 E4 E5 E6 ->. pose proof (w_table _ _ Hw) as Ht.
  destruct (back_view lane running now Hl) as (Hids & Hstates & Hhome).
  set (hb := match running with Some x => _ | None => h end) in *.
  destruct (w_member _ _ Hw r Ready) as (p & Hp & Hst & Hk); [by eapply lane_member|].
  assert (hb !! r = Some p) as Hpb.
  { unfold hb. destruct running as [x|]; [|done]. destruct (slot_known lane x Hl) as (px & Hpx & _).
    rewrite (moved_to_eq h x px) by done. rewrite lookup_insert_ne; [done|]. intros ->.
    eapply (ready_not_running s h r Hw); [by eapply lane_member|by eapply slot_member]. }
  assert (table_ok hb (processes s)) as Htb by (intros i x Hx; rewrite Hids; by apply Ht).
  assert (∀ x, pid_at (moved_to hb r Running now) x = pid_at h x) as He by (intros x; by rewrite moved_pids, Hids).
  assert (pid_of h r = pid) as Hpid by by apply (pid_of_known h _ Ht).
  destruct (setState_moves p Running now) as (_ & H2 & H3); [by rewrite Hst|].
  unfold view, take. simpl. rewrite E1, E2, E3, E4, E5, E6, <-Hhome. f_equal.
  - rewrite (moved_to_eq hb r p), (states_update hb _ Htb pid r p), H2 by done. by rewrite Hstates.
  - rewrite list_fmap_insert. f_equal; [|apply list_fmap_ext; intros i l _; by apply pids_ext].
    rewrite (pids_ext h) by done. rewrite <-Hr. rewrite (pids_without h _ Ht).
    + unfold pids. rewrite fmap_app. by destruct running.
    + apply Forall_app. split; [by eapply lane_known|]. destruct running as [x|]; [|done].
      apply Forall_singleton. destruct (slot_known lane x Hl) as (px & ? & _ & ?). by exists px.
  - rewrite (slot_pids_ext h) by done. unfold slot_pids. rewrite list_fmap_insert. simpl. by rewrite Hpid.
  - by apply pids_ext.
Qed.

Lemma select_refines lane now : ∃ res s' h', selectNextForLane s h lane now = Some (res, s', h') ∧
  sched_wf s' h' ∧ spec_select (view s h) lane res (view s' h').
Proof.
  destruct (readyByLane s !! lane) as [ready|] eqn:Hq.
  2: { exists (error ErrorCode.InvalidArgument), s, h. unfold selectNextForLane. rewrite Hq. split_and!; [done..|].
       constructor. by rewrite view_ready, Hq. }
  assert (q_ready (view s h) !! lane = Some (pids h ready)) as Hvq by by rewrite view_ready, Hq.
  destruct (policy s) as [pol|] eqn:Hpol.
  2: { exists (error ErrorCode.InvalidState), s, h. unfold selectNextForLane. rewrite Hq, Hpol. split_and!; [done..|].
       econstructor; [done|]. simpl. by rewrite Hpol. }
  assert (q_policy (view s h) = true) as Hvp by (simpl; by rewrite Hpol).
  destruct (selectNext_ok s h lane now Hw) as (res & s' & h' & -> & Hw' & Hst & Hb & Hres).
  eexists _, _, _. split_and!; [done..|]. destruct res as [pid|e].
  - destruct Hres as (r & ready' & running & Hq' & Hl & Hr & _ & Hcase). simplify_eq.
    assert (q_running (view s h) !! lane = Some (pid_of h <$> running)) as Hvl by by rewrite view_running, Hl.
    destruct Hcase as [(-> & -> & ->)|(Hin & E1 & E2 & E3 & E4)].
    + eapply select_keep; [done| |done]. rewrite Hvl. simpl. by rewrite (pid_of_known h _ (w_table _ _ Hw) pid r).
    + rewrite (take_view lane ready running r pid now s' h') by done. apply select_take; try done.
      apply (pids_elem h _ (w_table _ _ Hw)); [by eapply lane_known|]. by exists r.
  - destruct Hres as (-> & -> & [(_ & H)|[(_ & H)|(-> & H1 & H2)]]); [congruence..|].
    apply select_nobody; [by rewrite view_ready, H1|by rewrite view_running, H2|done].
Qed.
End step.

Section calls.
Context s h (Hw : sched_wf s h).

Lemma steal_refines lane now : ∃ res s' h', stealNextForLane s h lane now = Some (res, s', h') ∧
  sched_wf s' h' ∧ spec_steal (view s h) lane res (view s' h').
Proof.
  destruct (readyByLane s !! lane) as [tq0|] eqn:Hlane.
  2: { unfold stealNextForLane. rewrite (proj2 (Nat.leb_le _ _)) by by apply lookup_ge_None.
       eexists _, _, _. split_and!; [done..|]. constructor. by rewrite view_ready, Hlane. }
  destruct (steal_ok s h lane now Hw) as
    [[-> Hn]|[[-> Hn]|(v & r & rest & tq & p & H1 & H2 & H3 & H4 & H5 & H6 & Hw1 & ->)]].
  - congruence.
  - eexists _, _, _. split_and!; [done..|]. eapply steal_nothing; [by rewrite view_ready, Hlane|].
    intros i l. rewrite view_ready, fmap_Some. intros (q & Hi & ->) Hne. by rewrite (Hn i q).
  - destruct (select_refines _ _ Hw1 lane now) as (res & s' & h' & -> & Hw' & Hsel).
    eexists _, _, _. split_and!; [done..|].
    assert (pid_of h r = pcb_id p) as Hpid by (unfold pid_of, pid_at; by rewrite H4).
    apply (steal_longest _ _ v (pcb_id p) (pids h rest) (pids h tq)).
    + by rewrite view_ready, H3.
    + unfold longest. rewrite view_ready, H2. simpl. rewrite Hpid. split_and!; [done..|].
      intros i l. rewrite list_lookup_fmap_Some. unfold pids. intros (q & -> & Hi) Hne. rewrite !length_fmap. by apply H6.
    + enough (view (stolen_state s lane v r (pcb_id p) rest tq) h =
        stolen_to (view s h) lane v (pcb_id p) (pids h rest) (pids h tq)) as <- by done.
      unfold view, stolen_to. simpl. f_equal. rewrite !list_fmap_insert. unfold pids. rewrite fmap_app.
      simpl. by rewrite Hpid.
Qed.

Lemma configure_refines lanes :
  spec_configure (view s h) lanes = ((configureLanes s lanes).1, view (configureLanes s lanes).2 h).
Proof.
  unfold spec_configure, configureLanes. destruct (Nat.eqb_spec lanes 0) as [->|Hn]; [done|].
  rewrite decide_False by done. simpl.
  destruct (decide (processes s = ∅)) as [Hp|Hp];
    [rewrite (bool_decide_eq_true_2 (processes s = ∅)) by done|rewrite (bool_decide_eq_false_2 (processes s = ∅)) by done]; simpl.
  - rewrite decide_True by (by rewrite Hp, fmap_empty). f_equal. unfold view. simpl. rewrite Hp, fmap_empty.
    unfold slot_pids. by rewrite !fmap_replicate.
  - rewrite decide_False; [done|]. intros He. apply Hp. by eapply fmap_empty_inv.
Qed.

Lemma setPolicy_refines pol :
  spec_setPolicy (view s h) (bool_decide (is_Some pol)) = ((setPolicy s pol).1, view (setPolicy s pol).2 h).
Proof. by destruct pol. Qed.

(** The owner's calls do not show. *)
Lemma owner_view r (h' : heap) : (∀ x, x ≠ r → h' !! x = h !! x) →
  (∀ pid, processes s !! pid ≠ Some r) → view s h' = view s h.
Proof.
  intros Hh Hno.
  assert (∀ l, Forall (known h (processes s)) l → pids h' l = pids h l) as Hl.
  { intros l Hk. apply list_fmap_ext. intros i x Hx. unfold pid_of, pid_at. rewrite Hh; [done|]. intros ->.
    rewrite Forall_forall in Hk. destruct (Hk r) as (p & _ & Hp); [by eapply list_elem_of_lookup_2|].
    by destruct (Hno _ Hp). }
  unfold view. f_equal.
  - apply map_eq. intros pid. rewrite !lookup_fmap. destruct (processes s !! pid) as [x|] eqn:Hx; [|done].
    simpl. f_equal. unfold state_of. rewrite Hh; [done|]. intros ->. by destruct (Hno pid).
  - apply list_fmap_ext. intros i l Hi. by eapply Hl, lane_known.
  - apply list_fmap_ext. intros i [x|] Hi; [|done]. simpl. f_equal. unfold pid_of, pid_at. rewrite Hh; [done|].
    intros ->. destruct (slot_known s h Hw i r Hi) as (p & _ & _ & Hp). by destruct (Hno _ Hp).
  - by apply Hl, blocked_known.
Qed.

(** Every allowed call is a step of the contract: [H] says what the operation
    does, [step] names the contract's step. *)
Ltac replied_by Hs H step :=
  let Hq := fresh in let Hspec := fresh in let Hstep := fresh in
  destruct H as (? & ? & ? & Hq & Hspec); rewrite Hq in Hs; simpl in Hs; injection Hs as <- <- <-;
  pose proof step as Hstep; by rewrite Hspec in Hstep.
Ltac chosen_by Hs H :=
  let Hq := fresh in
  destruct H as (? & ? & ? & Hq & _ & ?); rewrite Hq in Hs; simpl in Hs; injection Hs as <- <- <-; by constructor.

Lemma step_refines op : op_allowed s h op → ∃ rep s' h', sched_step s h op = Some (rep, s', h') ∧
  sched_wf s' h' ∧
  match call_of h op with
  | Some c => spec_step (view s h) c rep (view s' h')
  | None => view s' h' = view s h
  end.
Proof.
  intros Ha. destruct (sched_step_ok s h op Hw Ha) as (rep & s' & h' & Hs & Hw'). exists rep, s', h'.
  split_and!; [done..|]. destruct op; simpl in Ha, Hs |- *.
  - injection Hs as <- <- <-. apply (owner_view r); [by intros x Hx; apply lookup_insert_ne|].
    intros pid Hp. destruct (w_table _ _ Hw _ _ Hp) as [Hi _]. unfold pid_at in Hi. by rewrite Ha in Hi.
  - injection Hs as <- <- <-. apply (owner_view r); [by intros x Hx; apply lookup_delete_ne|done].
  - destruct (enqueue_refines s h Hw r lane now Ha) as (p & res & s1 & h1 & -> & Hq & Hspec).
    rewrite Hq in Hs. simpl in Hs. injection Hs as <- <- <-.
    pose proof (step_enqueue (view s h) (pcb_id p) (state p) lane) as H. by rewrite Hspec in H.
  - replied_by Hs (dequeue_refines s h Hw pid) (step_dequeue (view s h) pid).
  - chosen_by Hs (select_refines s h Hw lane now).
  - chosen_by Hs (steal_refines lane now).
  - replied_by Hs (block_refines s h Hw pid now) (step_block (view s h) pid).
  - replied_by Hs (blockRunning_refines s h Hw now) (step_blockRunning (view s h)).
  - replied_by Hs (unblock_refines s h Hw pid now) (step_unblock (view s h) pid).
  - replied_by Hs (terminate_refines s h Hw pid now) (step_terminate (view s h) pid).
  - pose proof (configure_refines lanes) as Hspec. destruct (configureLanes s lanes). injection Hs as <- <- <-.
    pose proof (step_configure (view s h) lanes) as H. by rewrite Hspec in H.
  - pose proof (setPolicy_refines pol) as Hspec. destruct (setPolicy s pol). injection Hs as <- <- <-.
    pose proof (step_setPolicy (view s h) (bool_decide (is_Some pol))) as H. by rewrite Hspec in H.
Qed.
End calls.

(** The observers show the queues. *)
Lemma mapM_pids h procs l : Forall (known h procs) l → mapM (pid_at h) l = Some (pids h l).
Proof.
  intros Hk. apply mapM_Some. induction Hk as [|r l (p & Hp & _) _ IH]; constructor; [|done].
  unfold pid_of, pid_at. by rewrite Hp.
Qed.

Lemma observers_view s h : sched_wf s h →
  getPerLaneQueueSnapshot s h = Some (q_ready (view s h)) ∧
  getQueueSnapshot s h = Some (concat (q_ready (view s h))) ∧
  runningProcesses s h = Some (omap id (q_running (view s h))) ∧
  getBlockedSnapshot s h = Some (q_blocked (view s h)) ∧ laneCount s = length (q_ready (view s h)).
Proof.
  intros Hw. simpl. rewrite pids_concat, slot_pids_omap, length_fmap. split_and!.
  - unfold getPerLaneQueueSnapshot. apply mapM_Some. pose proof (ready_known s h Hw) as Hk.
    induction (readyByLane s) as [|q qs IH]; constructor.
    + simpl in Hk. apply Forall_app in Hk as [Hk _]. by eapply mapM_pids.
    + apply IH. simpl in Hk. by apply Forall_app in Hk as [_ Hk].
  - by eapply mapM_pids, ready_known.
  - by eapply mapM_pids, running_known.
  - by eapply mapM_pids, blocked_known.
  - done.
Qed.

Lemma run_refines ops s h : sched_wf s h → run_allowed s h ops →
  ∃ evs s' h', sched_run s h ops = Some (evs, s', h') ∧ sched_wf s' h' ∧ spec_run (view s h) evs (view s' h').
Proof.
  revert s h. induction ops as [|op ops IH]; intros s h Hw Ha; simpl.
  { exists [], s, h. split_and!; [done..|constructor]. }
  destruct Ha as [Ha Hn]. destruct (step_refines s h Hw op Ha) as (rep & s1 & h1 & Hs & Hw1 & Hspec). rewrite Hs.
  destruct (IH s1 h1 Hw1 (Hn _ _ _ Hs)) as (evs & s' & h' & -> & Hw' & Hrun). eexists _, s', h'.
  split_and!; [done..|]. destruct (call_of h op); [by econstructor|by rewrite <-Hspec].
Qed.

(** C4: [Scheduler] implements the contract of [IScheduler].  In every run of
    allowed calls from a new scheduler, whatever the policy answers and the
    clock shows, each call replies as the contract's machine on process
    identifiers does, result and error code alike, and at the end the
    snapshots the interface offers are the queues of that machine. *)
Theorem scheduler_refines (pol : option P) (ops : list (sched_op P)) :
  run_allowed (Scheduler_make pol) ∅ ops →
  ∃ evs s h q, sched_run (Scheduler_make pol) ∅ ops = Some (evs, s, h) ∧
    spec_run (no_queues (bool_decide (is_Some pol))) evs q ∧
    is_getPerLaneQueueSnapshot s h = Some (q_ready q) ∧
    is_runningProcesses s h = Some (omap id (q_running q)) ∧
    is_getBlockedSnapshot s h = Some (q_blocked q) ∧
    is_laneCount s = length (q_ready q) ∧
    ∀ pid r p, processes s !! pid = Some r → h !! r = Some p → q_states q !! pid = Some (state p).
Proof.
  intros Ha. destruct (run_refines ops (Scheduler_make pol) ∅) as (evs & s & h & Hr & Hw & Hspec);
    [apply sched_wf_make|done|]. exists evs, s, h, (view s h).
  destruct (observers_view s h Hw) as (H1 & _ & H3 & H4 & H5). split_and!; try done.
  intros pid r p Hpid Hp. by rewrite view_state, Hpid, <-(state_of_at _ _ _ Hp).
Qed.
End refine.

Lemma scheduler_refines_witness :
  ∃ evs q, evs = [(CConfigure 2, RVoid (ok tt)); (CEnqueue 1 New 0, RVoid (ok tt));
      (CEnqueue 2 New 0, RVoid (ok tt)); (CEnqueue 3 New 0, RVoid (ok tt)); (CSelect 0, RPid (ok 1))] ∧
    spec_run (no_queues true) evs q ∧ q_ready q = [[2; 3]; []] ∧ omap id (q_running q) = [1].
Proof.
  destruct (scheduler_refines (Some Fcfs) demo_ops demo_allowed) as (evs & s & h & q & Hr & Hs & H1 & H2 & _).
  vm_compute in Hr. injection Hr as <- <- <-. vm_compute in H1, H2. injection H1 as H1. injection H2 as H2.
  eexists _, q. split; [reflexivity|]. split; [exact Hs|]. split; [symmetry; exact H1|symmetry; exact H2].
Defined.
