(* ===== verification/SchedConcurrent.v ===== *)
(** * SchedConcurrent: the scheduler called by host threads

    Every method of [Scheduler] holds the scheduler's mutex ([scheduler.cpp],
    "Callers of public methods hold this lock"), so it is a monitor: calls by
    any number of threads implement the contract of [SchedSpec] in some order.
    What is left to the callers is to hand each process over once. *)
From S2P Require Import Prelude Monitor Core Process Policies Scheduler SchedInvariant SchedProps SchedSteps SchedRun.
From S2P Require Import IScheduler SchedSpec SchedTheorems SchedRefine.
Local Open Scope Z_scope.

Section concurrent.
Context {P : Type} `{HP : !ISchedulingPolicy P} `{HL : !LawfulSchedulingPolicy P} `{HF : !FloatCast}.
Implicit Types (s : sched P) (h : heap) (r pid now : Z) (st : ProcessState) (lane : nat) (op : sched_op P).

(** A method of the scheduler; the owner's work on control blocks is none. *)
Definition is_method op : Prop := match op with OpCreate _ _ | OpDestroy _ => False | _ => True end.
#[export] Instance is_method_dec op : Decision (is_method op).
Proof. destruct op; apply _. Defined.
Definition scheduler_body op (x : sched P * heap) : option (reply * (sched P * heap)) :=
  if decide (is_method op) then let! (rep, s', h') := sched_step x.1 x.2 op in Some (rep, (s', h')) else None.

(** ** Handing processes over *)
Definition handed op : option Z := match op with OpEnqueue r _ _ => Some r | _ => None end.

(** The calls are methods; the processes they hand over exist, have different
    identifiers and are new to the scheduler. *)
Record handed_once s h (ops : list (sched_op P)) : Prop := {
  ho_methods : Forall is_method ops;
  ho_distinct : NoDup (pid_at h <$> omap handed ops);
  ho_new r : r ∈ omap handed ops → ∃ p, h !! r = Some p ∧ processes s !! pcb_id p = None
}.

Lemma handed_submset s h ops ops' : ops' ⊆+ ops → handed_once s h ops → handed_once s h ops'.
Proof.
  intros (k & Hk)%submseteq_Permutation [H1 H2 H3].
  assert (omap handed ops ≡ₚ omap handed ops' ++ omap handed k) as Ho by by rewrite Hk, omap_app.
  rewrite Ho, fmap_app in H2. rewrite Hk in H1. split.
  - by apply Forall_app in H1 as [? _].
  - by apply NoDup_app in H2 as [? _].
  - intros r Hr. apply H3. rewrite Ho. apply elem_of_app. by left.
Qed.

(** What a call may change: identifiers stay, and only a handed-over process
    becomes known. *)
Definition grows s h op s' h' : Prop :=
  (∀ r, pid_at h' r = pid_at h r) ∧
  ∀ pid, processes s !! pid = None → (∀ r, handed op = Some r → pid_at h r ≠ Some pid) → processes s' !! pid = None.

Lemma grows_same s h op s' h' :
  (∀ r, pid_at h' r = pid_at h r) → processes s' = processes s → grows s h op s' h'.
Proof. intros H1 H2. split; [done|]. by rewrite H2. Qed.

Lemma grows_forget s h op s1 pid h' :
  (∀ r, pid_at h' r = pid_at h r) → processes s1 = processes s → grows s h op (forget s1 pid) h'.
Proof. intros H1 H2. split; [done|]. intros i Hi _. simpl. rewrite H2, lookup_delete_None. by right. Qed.

Lemma select_ids s h lane now rep s' h' :
  sched_wf s h → replies RPid (selectNextForLane s h lane now) = Some (rep, s', h') →
  (∀ r, pid_at h' r = pid_at h r) ∧ processes s' = processes s.
Proof.
  intros Hw Hs. destruct (selectNext_ok s h lane now Hw) as (res & s1 & h1 & E & _ & [E1 _] & _ & Hres).
  rewrite E in Hs. simpl in Hs. injection Hs as <- <- <-. split; [|done]. destruct res as [pid|e].
  - destruct Hres as (r & ready & running & _ & _ & _ & _ & [(_ & _ & ->)|(_ & _ & _ & _ & ->)]); [done|].
    intros x. rewrite moved_pids. destruct running; [apply moved_pids|done].
  - by destruct Hres as (_ & -> & _).
Qed.

Lemma step_grows s h op rep s' h' :
  sched_wf s h → op_allowed s h op → is_method op → sched_step s h op = Some (rep, s', h') → grows s h op s' h'.
Proof.
  intros Hw Ha Hm Hs. destruct op as [| |r lane now|pid|lane now|lane now|pid now|now|pid now|pid now|lanes|pol]; try done; simpl in Hs.
  - destruct (enqueueToLane_ok s h r lane now Hw Ha) as (p & Hp & Ho). simpl in Ho.
    assert (∀ h' s', (∀ x, pid_at h' x = pid_at h x) → processes s' = <[pcb_id p := r]> (processes s) →
      grows s h (OpEnqueue r lane now) s' h') as Hreg.
    { intros h1 s1 E1 E2. split; [done|]. intros pid Hn Hne. rewrite E2, lookup_insert_ne; [done|]. intros <-.
      apply (Hne r eq_refl). unfold pid_at. by rewrite Hp. }
    destruct Ho as [[E _]|[(E & _)|[(E & _)|[(E & _)|Ho]]]].
    1-4: rewrite E in Hs; simpl in Hs; injection Hs as <- <- <-; first [by apply grows_same|by apply Hreg].
    destruct Ho as (s1 & h1 & q & p' & E & _ & _ & _ & _ & _ & E4 & _ & E5 & _ & Hid & _).
    rewrite E in Hs. simpl in Hs. injection Hs as <- <- <-. apply Hreg; [|done].
    rewrite E5. intros x. by apply (pid_at_update h r p p').
  - destruct (dequeue_ok s h pid Hw) as [(_ & s1 & Hd & E)|[_ E]]; rewrite E in Hs; simpl in Hs; injection Hs as <- <- <-;
      [apply grows_forget|apply grows_same]; try done; apply Hd.
  - apply grows_same; by eapply select_ids.
  - destruct (steal_ok s h lane now Hw) as [[E _]|[[E _]|(v & x & rest & tq & p & _ & _ & _ & _ & _ & _ & Hw1 & E)]];
      rewrite E in Hs.
    1-2: simpl in Hs; injection Hs as <- <- <-; by apply grows_same.
    apply grows_same; [eapply (select_ids _ h lane now rep s' h' Hw1 Hs)|].
    by destruct (select_ids _ h lane now rep s' h' Hw1 Hs).
  - destruct (blockProcess_ok s h pid now Hw) as [(l & r & s1 & _ & _ & E & _ & [E1 _] & _)|(e & E & _)];
      rewrite E in Hs; simpl in Hs; injection Hs as <- <- <-; by apply grows_same; [intros; apply moved_pids || done|].
  - unfold blockRunning in Hs. pose proof (first_running_spec (runningByLane s) 0) as Hf.
    destruct (first_running _ _) as [[lane r]|]; [|simpl in Hs; injection Hs as <- <- <-; by apply grows_same].
    destruct Hf as (i & -> & Hi & _).
    destruct (block_slot_ok s h i r now Hw Hi) as (p & s1 & _ & _ & _ & E & _ & [E1 _] & _).
    simpl in *. rewrite E in Hs. simpl in Hs. injection Hs as <- <- <-. apply grows_same; [intros; apply moved_pids|done].
  - destruct (unblock_ok s h pid now Hw) as [(r & q & s1 & _ & _ & _ & E & _ & [E1 _] & _)|[E _]];
      rewrite E in Hs; simpl in Hs; injection Hs as <- <- <-; (apply grows_same; [|done]); intros; by try apply moved_pids.
  - pose proof (terminate_ok s h pid now Hw) as Ho. destruct (processes s !! pid) as [r|].
    2: { rewrite Ho in Hs. simpl in Hs. injection Hs as <- <- <-. by apply grows_same. }
    destruct Ho as (p & s1 & _ & E1 & _ & _ & Ho). destruct (isValidTransition _ _); destruct Ho as [E _];
      rewrite E in Hs; simpl in Hs; injection Hs as <- <- <-; [apply grows_forget|apply grows_same]; try done.
    intros. apply moved_pids.
  - unfold configureLanes in Hs. destruct (lanes =? 0)%nat; [|destruct (negb _)]; simpl in Hs; injection Hs as <- <- <-;
      by apply grows_same.
  - destruct pol; simpl in Hs; injection Hs as <- <- <-; by apply grows_same.
Qed.

Lemma handed_allowed s h op ops : sched_wf s h → handed_once s h (op :: ops) → op_allowed s h op.
Proof.
  intros Hw [Hm _ Hn]. apply Forall_cons in Hm as [Hm _]. destruct op as [| |r lane now| | | | | | | | |]; try done.
  destruct (Hn r) as (p & Hp & Hnone); [by left|]. exists p. split_and!; [done|by left|]. intros Hb.
  destruct (w_member _ _ Hw r Blocked) as (p' & Hp' & _ & Hk); [by right; right|]. congruence.
Qed.

Lemma handed_next s h op ops rep s1 h1 :
  sched_wf s h → handed_once s h (op :: ops) → sched_step s h op = Some (rep, s1, h1) → handed_once s1 h1 ops.
Proof.
  intros Hw Ho Hs. pose proof (handed_allowed _ _ _ _ Hw Ho) as Ha. destruct Ho as [Hm Hd Hn].
  apply Forall_cons in Hm as [Hm1 Hm]. destruct (step_grows _ _ _ _ _ _ Hw Ha Hm1 Hs) as [Hids Hnew].
  assert (omap handed (op :: ops) = option_list (handed op) ++ omap handed ops) as Hcons by (simpl; by destruct (handed op)).
  rewrite Hcons in Hd, Hn. split; [done|..].
  - rewrite (list_fmap_ext _ (pid_at h)) by (intros; apply Hids). rewrite fmap_app in Hd. by apply NoDup_app in Hd as (_ & _ & ?).
  - intros r Hr. destruct (Hn r) as (p & Hp & Hnone); [by apply elem_of_app; right|].
    pose proof (Hids r) as Hid. unfold pid_at in Hid. rewrite Hp in Hid. destruct (h1 !! r) as [p1|]; [|done].
    injection Hid as Hid. exists p1. split; [done|]. rewrite Hid. apply Hnew; [done|]. intros r0 Hr0 Hpid.
    rewrite Hr0, fmap_app in Hd. apply NoDup_app in Hd as (_ & Hd & _). apply (Hd (pid_at h r0)); [by left|].
    apply list_elem_of_fmap. exists r. split; [|done]. rewrite Hpid. unfold pid_at. by rewrite Hp.
Qed.

(** The contract's name for a call. *)
Definition called_as h op (c : call) : Prop :=
  match op with
  | OpEnqueue r lane _ => ∃ st, c = CEnqueue (pid_of h r) st lane
  | _ => call_of h op = Some c
  end.

(** A sequential order of the calls is a run of the contract. *)
Lemma handed_run ops s h :
  sched_wf s h → handed_once s h ops →
  ∃ evs s' h', seq_run scheduler_body (s, h) ops = Some (map snd evs, (s', h')) ∧ sched_wf s' h' ∧
    spec_run (view s h) evs (view s' h') ∧ Forall2 (called_as h) ops (map fst evs).
Proof.
  revert s h. induction ops as [|op ops IH]; intros s h Hw Ho; simpl.
  { exists [], s, h. split_and!; [done..|constructor|constructor]. }
  pose proof (handed_allowed _ _ _ _ Hw Ho) as Ha. pose proof (ho_methods _ _ _ Ho) as Hm.
  apply Forall_cons in Hm as [Hm _].
  destruct (step_refines s h Hw op Ha) as (rep & s1 & h1 & Hs & Hw1 & Hspec).
  destruct (IH s1 h1 Hw1 (handed_next _ _ _ _ _ _ _ Hw Ho Hs)) as (evs & s' & h' & Hr & Hw' & Hrun & Hall).
  unfold scheduler_body at 1. rewrite decide_True by done. simpl. rewrite Hs. cbn [mbind option_bind]. rewrite Hr.
  destruct (step_grows _ _ _ _ _ _ Hw Ha Hm Hs) as [Hids _].
  assert (∃ c, call_of h op = Some c ∧ called_as h op c) as (c & Hc & Hcas).
  { destruct op as [| |r lane now| | | | | | | | |]; try done; [|by eexists..].
    destruct Ha as (p & Hp & _). simpl. rewrite Hp. eexists. split; [done|]. exists (state p).
    unfold pid_of, pid_at. by rewrite Hp. }
  rewrite Hc in Hspec. exists ((c, rep) :: evs), s', h'. split_and!; [done..|by econstructor|].
  constructor; [done|]. eapply Forall2_impl; [exact Hall|]. intros op' c'. destruct op'; simpl; try done.
  - intros (st & ->). exists st. unfold pid_of. by rewrite Hids.
Qed.

(** C5: the scheduler between threads.  Threads call the methods of one scheduler
    in any interleaving, and in the whole run each process is handed over
    ([enqueue]) at most once, none of those the scheduler has to begin with, so
    that a process is not enqueued again and no identifier is used again.  Then
    no call meets undefined behaviour and the calls end: while one is under way
    some thread can go on, a call takes at most five steps of its own thread, and
    without further calls at most five for each call under way are left; and when
    none is, the calls have an order, no call before one that had
    returned when it was made, in which their replies are those of the contract
    of [IScheduler], and the snapshots show the contract's queues. *)
Theorem scheduler_concurrent s0 h0 es y :
  sched_wf s0 h0 → handed_once s0 h0 (map snd (calls_made es)) →
  mon_exec scheduler_body (mon_init (s0, h0)) es = Some y →
  calls_end scheduler_body y ∧
  (callers y = ∅ → ∃ order evs q, sequential scheduler_body (s0, h0) y order ∧
     map snd evs = map (λ x, mc_reply x.2) order ∧
     Forall2 (called_as h0) (map (λ x, mc_call x.2) order) (map fst evs) ∧ spec_run (view s0 h0) evs q ∧
     is_getPerLaneQueueSnapshot (members_of y).1 (members_of y).2 = Some (q_ready q) ∧
     is_runningProcesses (members_of y).1 (members_of y).2 = Some (omap id (q_running q)) ∧
     is_getBlockedSnapshot (members_of y).1 (members_of y).2 = Some (q_blocked q)).
Proof.
  intros Hw Ho He. split.
  - apply (monitor_returns _ _ _ _ He). intros cs c rs x Hsub Hr.
    destruct (handed_run (cs ++ [c]) s0 h0 Hw (handed_submset _ _ _ _ Hsub Ho)) as (evs & s' & h' & Hall & _).
    apply (seq_run_last _ _ _ _ _ _ Hr). by eexists.
  - intros Hq. destruct (monitor_sequential _ _ _ _ He Hq) as (order & Hs & Hsub).
    destruct (handed_run _ s0 h0 Hw (handed_submset _ _ _ _ Hsub Ho)) as (evs & s' & h' & Hall & Hw' & Hspec & Hcas).
    pose proof (proj1 (proj2 Hs)) as Hr. rewrite Hr in Hall. injection Hall as Hevs Hm.
    destruct (observers_view s' h' Hw') as (H1 & _ & H3 & H4 & _).
    exists order, evs, (view s' h'). rewrite Hm. by split_and!.
Qed.
End concurrent.

(** ** A concrete interleaving *)
#[local] Existing Instance demo_cast.

(** Two threads hand a process over, a third selects; all three meet. *)
Definition idle_scheduler : sched Policies.policy := Scheduler_make (Some Fcfs).
Definition two_processes : heap := <[100 := demo_pcb 1]> (<[200 := demo_pcb 2]> ∅).
Definition meeting : list (mon_event (sched_op Policies.policy)) :=
  [MCall 1 (OpEnqueue 100 0 1); MCall 2 (OpEnqueue 200 0 1); MStep 2; MCall 3 (OpSelect 0 2); MStep 2; MStep 2; MStep 2;
   MStep 3; MStep 2; MStep 3; MStep 3; MStep 3; MStep 1; MStep 3; MStep 1; MStep 1; MStep 1; MStep 1].
Definition met : mon_sys (sched Policies.policy * heap) (sched_op Policies.policy) reply :=
  default (mon_init (idle_scheduler, two_processes))
    (mon_exec scheduler_body (mon_init (idle_scheduler, two_processes)) meeting).

Lemma met_exec : mon_exec scheduler_body (mon_init (idle_scheduler, two_processes)) meeting = Some met.
Proof. vm_compute. reflexivity. Qed.
Lemma met_quiet : callers met = ∅.
Proof. vm_compute. reflexivity. Qed.
Example met_queues :
  runningProcesses (members_of met).1 (members_of met).2 = Some [2] ∧
  getQueueSnapshot (members_of met).1 (members_of met).2 = Some [1].
Proof. vm_compute. done. Qed.

Lemma meeting_handed : handed_once idle_scheduler two_processes (map snd (calls_made meeting)).
Proof.
  assert (map snd (calls_made meeting) = [OpEnqueue 100 0 1; OpEnqueue 200 0 1; OpSelect 0 2]) as ->
    by (vm_compute; reflexivity).
  split.
  - repeat constructor.
  - vm_compute. apply NoDup_cons. split; [|apply NoDup_singleton]. intros H%list_elem_of_singleton. discriminate H.
  - intros r Hr. assert (r ∈ [100; 200]) as Hin by exact Hr.
    repeat (apply elem_of_cons in Hin as [->|Hin]; [eexists; split; vm_compute; reflexivity|]).
    by apply elem_of_nil in Hin.
Qed.

Lemma scheduler_concurrent_witness :
  ∃ order q, order ≡ₚ map_to_list (returned met) ∧ q_ready q = [[1]] ∧ omap id (q_running q) = [2].
Proof.
  destruct (scheduler_concurrent idle_scheduler two_processes meeting met) as [_ H];
    [apply sched_wf_make|apply meeting_handed|apply met_exec|].
  destruct (H met_quiet) as (order & evs & q & (H1 & _) & _ & _ & _ & H2 & H3 & _). exists order, q.
  split; [exact H1|]. vm_compute in H2, H3. injection H2 as H2. injection H3 as H3.
  split; [symmetry; exact H2|symmetry; exact H3].
Defined.
