(* ===== verification/Sync.v ===== *)
(** * Sync: [sync/mutex.cpp], [sync/semaphore.cpp], [sync/critical_section.cpp]

    The simulated synchronisation primitives.  Waiting is a queue of pids: a
    process that is refused is queued and receives the resource by hand-off. *)
From S2P Require Import Prelude Core Process.
Local Open Scope Z_scope.

Definition isHigherPriority (lhs rhs : PriorityLevel) : bool := level_int lhs <? level_int rhs.

(** ** The two priority maps of a primitive *)
Record ptable := MkPTable {
  basePriorityByPid : gmap Z PriorityLevel;
  effectivePriorityByPid : gmap Z PriorityLevel
}.
Definition no_priorities : ptable := MkPTable ∅ ∅.
Definition set_effective (t : ptable) (e : gmap Z PriorityLevel) : ptable :=
  MkPTable (basePriorityByPid t) e.

(** [unordered_map::operator[]] inserts a zero value for a missing key. *)
Definition subscript {V} (zero : V) (m : gmap Z V) (k : Z) : V * gmap Z V :=
  let v := default zero (m !! k) in (v, <[k := v]> m).

Definition ensure_registered (t : ptable) (pid : Z) : ptable :=
  if pid =? INVALID_PID then t else
  let base := emplace pid Normal (basePriorityByPid t) in
  MkPTable base (emplace pid (default Realtime (base !! pid)) (effectivePriorityByPid t)).

(** Every effective priority goes back to the registered one. *)
Definition reset_effective (t : ptable) : ptable :=
  set_effective t (basePriorityByPid t ∪ effectivePriorityByPid t).

(** The loop over the waiters: the highest effective priority among them. *)
Fixpoint scan_waiters (ws : list Z) (best : option PriorityLevel) (t : ptable)
    : option PriorityLevel * ptable :=
  match ws with
  | [] => (best, t)
  | waiter :: ws' =>
      let t1 := ensure_registered t waiter in
      let '(p, e) := subscript Realtime (effectivePriorityByPid t1) waiter in
      let best' := match best with
                   | None => Some p
                   | Some b => if isHigherPriority p b then Some p else best
                   end in
      scan_waiters ws' best' (set_effective t1 e)
  end.

(** Raising one holder to the highest waiter. *)
Definition inherit (t : ptable) (pid : Z) (highest : PriorityLevel) : ptable :=
  let t1 := ensure_registered t pid in
  let '(current, e) := subscript Realtime (effectivePriorityByPid t1) pid in
  set_effective t1 (if isHigherPriority highest current then <[pid := highest]> e else e).

Definition effective_of (t : ptable) (pid : Z) : PriorityLevel :=
  match effectivePriorityByPid t !! pid with
  | Some p => p
  | None => default Normal (basePriorityByPid t !! pid)
  end.
Definition base_of (t : ptable) (pid : Z) : PriorityLevel :=
  default Normal (basePriorityByPid t !! pid).
Definition register_base (t : ptable) (pid : Z) (p : PriorityLevel) : ptable :=
  MkPTable (<[pid := p]> (basePriorityByPid t)) (<[pid := p]> (effectivePriorityByPid t)).

(** ** The interface *)
Inductive SyncLayer := KernelInternal | SimulatedResource.

Class ISyncPrimitive (S : Type) := {
  acquire : S → Z → Result unit * S;
  release : S → Z → Result unit * S;
  tryAcquire : S → Z → Result unit * S;
  sync_name : S → string;
  layer : S → SyncLayer
}.

(** Queueing a waiter once. *)
Definition push_waiter (q : list Z) (pid : Z) : list Z := if decide (pid ∈ q) then q else q ++ [pid].

Module Mutex.
Record t := mk {
  owner : option Z;
  recursionDepth : nat;
  waitQueue : list Z;
  priorities : ptable
}.
Definition make : t := mk None 0 [] no_priorities.
Definition set_priorities (m : t) (p : ptable) : t := mk (owner m) (recursionDepth m) (waitQueue m) p.
Definition ensurePriorityRegistered (m : t) (pid : Z) : t :=
  set_priorities m (ensure_registered (priorities m) pid).

Definition recomputePriorities (m : t) : t :=
  let t0 := reset_effective (priorities m) in
  set_priorities m
    match owner m, waitQueue m with
    | None, _ | _, [] => t0
    | Some o, q =>
        let '(best, t1) := scan_waiters q None t0 in
        match best with None => t1 | Some h => inherit t1 o h end
    end.

Definition acquire (m0 : t) (pid : Z) : Result unit * t :=
  if pid =? INVALID_PID then (error ErrorCode.InvalidPid, m0) else
  let m := ensurePriorityRegistered m0 pid in
  match owner m with
  | None => (ok tt, recomputePriorities (mk (Some pid) 1 (waitQueue m) (priorities m)))
  | Some o =>
      if o =? pid then (ok tt, mk (owner m) (S (recursionDepth m)) (waitQueue m) (priorities m))
      else (error ErrorCode.ResourceBusy,
            recomputePriorities
              (mk (owner m) (recursionDepth m) (push_waiter (waitQueue m) pid) (priorities m)))
  end.

Definition release (m : t) (pid : Z) : Result unit * t :=
  match owner m with
  | None => (error ErrorCode.InvalidState, m)
  | Some o =>
      if negb (o =? pid) then (error ErrorCode.PermissionDenied, m) else
      if (1 <? recursionDepth m)%nat
      then (ok tt, recomputePriorities (mk (owner m) (pred (recursionDepth m)) (waitQueue m) (priorities m)))
      else match waitQueue m with
           | [] => (ok tt, recomputePriorities (mk None 0 [] (priorities m)))
           | next :: q => (ok tt, recomputePriorities (mk (Some next) 1 q (priorities m)))
           end
  end.

Definition tryAcquire (m0 : t) (pid : Z) : Result unit * t :=
  if pid =? INVALID_PID then (error ErrorCode.InvalidPid, m0) else
  let m := ensurePriorityRegistered m0 pid in
  match owner m with
  | None => (ok tt, recomputePriorities (mk (Some pid) 1 (waitQueue m) (priorities m)))
  | Some o =>
      if o =? pid
      then (ok tt, recomputePriorities (mk (owner m) (S (recursionDepth m)) (waitQueue m) (priorities m)))
      else (error ErrorCode.ResourceBusy, m)
  end.

Definition registerProcessPriority (m : t) (pid : Z) (p : PriorityLevel) : Result unit * t :=
  if pid =? INVALID_PID then (error ErrorCode.InvalidPid, m) else
  (ok tt, recomputePriorities (set_priorities m (register_base (priorities m) pid p))).

Definition effectivePriority (m : t) (pid : Z) : PriorityLevel := effective_of (priorities m) pid.
Definition basePriority (m : t) (pid : Z) : PriorityLevel := base_of (priorities m) pid.
Definition isLocked (m : t) : bool := bool_decide (is_Some (owner m)).
Definition waitingCount (m : t) : nat := length (waitQueue m).
End Mutex.

Module Semaphore.
Record t := mk {
  count : nat;
  maxCount : nat;
  waitQueue : list Z;
  holderCounts : gmap Z nat;
  priorities : ptable
}.
Definition make (initialCount maxCountArg : nat) : t :=
  mk (min initialCount (max 1 maxCountArg)) (max 1 maxCountArg) [] ∅ no_priorities.
Definition set_priorities (s : t) (p : ptable) : t :=
  mk (count s) (maxCount s) (waitQueue s) (holderCounts s) p.
Definition ensurePriorityRegistered (s : t) (pid : Z) : t :=
  set_priorities s (ensure_registered (priorities s) pid).

Fixpoint inherit_all (holders : list (Z * nat)) (highest : PriorityLevel) (p : ptable) : ptable :=
  match holders with
  | [] => p
  | (pid, n) :: holders' =>
      inherit_all holders' highest (if (n =? 0)%nat then p else inherit p pid highest)
  end.

Definition recomputePriorities `{HO : HashOrder} (s : t) : t :=
  let t0 := reset_effective (priorities s) in
  set_priorities s
    match waitQueue s with
    | [] => t0
    | q =>
        let '(best, t1) := scan_waiters q None t0 in
        match best with None => t1 | Some h => inherit_all (map_order (holderCounts s)) h t1 end
    end.

(** [++holderCounts[pid]] *)
Definition add_unit (m : gmap Z nat) (pid : Z) : gmap Z nat := <[pid := S (default 0%nat (m !! pid))]> m.
Definition drop_unit (m : gmap Z nat) (pid : Z) : gmap Z nat :=
  match m !! pid with
  | None => m
  | Some n => if (pred n =? 0)%nat then delete pid m else <[pid := pred n]> m
  end.

Definition take_unit `{HO : HashOrder} (s : t) (pid : Z) : t :=
  recomputePriorities
    (mk (pred (count s)) (maxCount s) (waitQueue s) (add_unit (holderCounts s) pid) (priorities s)).

Definition acquire `{HO : HashOrder} (s0 : t) (pid : Z) : Result unit * t :=
  if pid =? INVALID_PID then (error ErrorCode.InvalidPid, s0) else
  let s := ensurePriorityRegistered s0 pid in
  if (0 <? count s)%nat then (ok tt, take_unit s pid) else
  (error ErrorCode.ResourceBusy,
   recomputePriorities
     (mk (count s) (maxCount s) (push_waiter (waitQueue s) pid) (holderCounts s) (priorities s))).

Definition release `{HO : HashOrder} (s0 : t) (pid : Z) : Result unit * t :=
  if pid =? INVALID_PID then (error ErrorCode.InvalidPid, s0) else
  let s := ensurePriorityRegistered s0 pid in
  let holders := drop_unit (holderCounts s) pid in
  match waitQueue s with
  | next :: q =>
      (ok tt, recomputePriorities
                (mk (count s) (maxCount s) q (add_unit holders next)
                   (ensure_registered (priorities s) next)))
  | [] =>
      if (maxCount s <=? count s)%nat
      then (error ErrorCode.InvalidState,
            recomputePriorities (mk (count s) (maxCount s) [] holders (priorities s)))
      else (ok tt, recomputePriorities (mk (S (count s)) (maxCount s) [] holders (priorities s)))
  end.

Definition tryAcquire `{HO : HashOrder} (s0 : t) (pid : Z) : Result unit * t :=
  if pid =? INVALID_PID then (error ErrorCode.InvalidPid, s0) else
  let s := ensurePriorityRegistered s0 pid in
  if (count s =? 0)%nat then (error ErrorCode.ResourceBusy, s) else (ok tt, take_unit s pid).

Definition registerProcessPriority `{HO : HashOrder} (s : t) (pid : Z) (p : PriorityLevel)
    : Result unit * t :=
  if pid =? INVALID_PID then (error ErrorCode.InvalidPid, s) else
  (ok tt, recomputePriorities (set_priorities s (register_base (priorities s) pid p))).

Definition effectivePriority (s : t) (pid : Z) : PriorityLevel := effective_of (priorities s) pid.
Definition basePriority (s : t) (pid : Z) : PriorityLevel := base_of (priorities s) pid.
Definition waitingCount (s : t) : nat := length (waitQueue s).
End Semaphore.

#[global] Instance mutex_primitive : ISyncPrimitive Mutex.t := {|
  acquire := Mutex.acquire; release := Mutex.release; tryAcquire := Mutex.tryAcquire;
  sync_name _ := "Mutex"%string; layer _ := SimulatedResource
|}.
#[global] Instance semaphore_primitive `{HO : HashOrder} : ISyncPrimitive Semaphore.t := {|
  acquire := Semaphore.acquire; release := Semaphore.release; tryAcquire := Semaphore.tryAcquire;
  sync_name _ := "Semaphore"%string; layer _ := SimulatedResource
|}.

(** [CriticalSection] owns any primitive; a null pointer gives it a mutex. *)
Module CriticalSection.
Section critical_section.
Context {S : Type} `{!ISyncPrimitive S}.
Definition enter (primitive : S) (pid : Z) : Result unit * S := acquire primitive pid.
Definition leave (primitive : S) (pid : Z) : Result unit * S := release primitive pid.
Definition tryEnter (primitive : S) (pid : Z) : Result unit * S := tryAcquire primitive pid.
Definition layer (primitive : S) : SyncLayer := Sync.layer primitive.
End critical_section.
Definition make {S} (primitive : option S) : S + Mutex.t :=
  match primitive with Some p => inl p | None => inr Mutex.make end.
End CriticalSection.
