(* ===== verification/SyncProps.v ===== *)
(** * SyncProps: the priority tables and the mutex *)
From S2P Require Import Prelude Core Process Sync.
Local Open Scope Z_scope.

(** ** Priority tables *)
Section table.
Implicit Types (t : ptable) (pid p w : Z) (ws : list Z) (h : PriorityLevel).

Definition registered t pid : Prop := is_Some (basePriorityByPid t !! pid).
(** Both maps know the same processes. *)
Definition ptable_ok t : Prop :=
  ∀ pid, is_Some (basePriorityByPid t !! pid) ↔ is_Some (effectivePriorityByPid t !! pid).

(** What priority inheritance should give a process: the best of its own base
    priority and, if it holds the resource, those of the waiters. *)
Definition inherited_level t (holds : bool) ws p : Z :=
  foldr Z.min (level_int (base_of t p)) (if holds then (λ w, level_int (base_of t w)) <$> ws else []).

(** The same bases: nothing a priority depends on has changed. *)
Definition same_bases t t' : Prop := ∀ p, base_of t' p = base_of t p.

Lemma level_higher a b : isHigherPriority a b = true ↔ level_int a < level_int b.
Proof. unfold isHigherPriority. apply Z.ltb_lt. Qed.
Lemma min_higher a b : level_int (if isHigherPriority a b then a else b) = Z.min (level_int a) (level_int b).
Proof. unfold isHigherPriority. destruct (Z.ltb_spec (level_int a) (level_int b)); lia. Qed.
Lemma foldr_min a b (l : list Z) : foldr Z.min (Z.min a b) l = Z.min a (foldr Z.min b l).
Proof. induction l as [|x l IH]; simpl; lia. Qed.

Lemma ensure_ok t pid : ptable_ok t → ptable_ok (ensure_registered t pid).
Proof.
  intros Hok p. unfold ensure_registered. destruct (pid =? INVALID_PID); [done|]. simpl. specialize (Hok p).
  unfold emplace. destruct (basePriorityByPid t !! pid) eqn:E1, (effectivePriorityByPid t !! pid) eqn:E2;
    destruct (decide (p = pid)) as [->|]; rewrite ?lookup_insert_eq, ?lookup_insert_ne by done;
    rewrite ?E1, ?E2 in *; naive_solver.
Qed.

Lemma ensure_registers t pid p :
  (p = pid ∧ pid ≠ INVALID_PID) ∨ registered t p → registered (ensure_registered t pid) p.
Proof.
  unfold ensure_registered, registered. destruct (Z.eqb_spec pid INVALID_PID); [naive_solver|]. simpl.
  unfold emplace. destruct (basePriorityByPid t !! pid) eqn:E; [naive_solver|].
  destruct (decide (p = pid)) as [->|]; [by rewrite lookup_insert_eq|]. rewrite lookup_insert_ne by done.
  naive_solver.
Qed.

Lemma ensure_base t pid : same_bases t (ensure_registered t pid).
Proof.
  intros p. unfold base_of, ensure_registered. destruct (pid =? INVALID_PID); [done|]. simpl. unfold emplace.
  destruct (basePriorityByPid t !! pid) eqn:E; [done|].
  destruct (decide (p = pid)) as [->|]; [by rewrite lookup_insert_eq, E|by rewrite lookup_insert_ne].
Qed.

Lemma ensure_effective t pid p : ptable_ok t → effective_of (ensure_registered t pid) p = effective_of t p.
Proof.
  intros Hok. unfold effective_of, ensure_registered. destruct (pid =? INVALID_PID); [done|]. simpl.
  specialize (Hok pid). unfold emplace.
  destruct (basePriorityByPid t !! pid) eqn:E1, (effectivePriorityByPid t !! pid) eqn:E2; try done.
  - exfalso. destruct Hok as [H _]. by destruct H.
  - exfalso. destruct Hok as [_ H]. by destruct H.
  - rewrite lookup_insert_eq. simpl. destruct (decide (p = pid)) as [->|].
    + by rewrite lookup_insert_eq, E1, E2.
    + by rewrite !lookup_insert_ne.
Qed.

Lemma ensure_id t pid : ptable_ok t → registered t pid → ensure_registered t pid = t.
Proof.
  intros Hok [b Hb]. unfold ensure_registered. destruct (pid =? INVALID_PID); [done|].
  destruct (proj1 (Hok pid)) as [e He]; [by exists b|]. unfold emplace. rewrite Hb, He. by destruct t.
Qed.

Lemma reset_eq t : ptable_ok t → reset_effective t = MkPTable (basePriorityByPid t) (basePriorityByPid t).
Proof.
  intros Hok. unfold reset_effective, set_effective. f_equal. apply map_eq. intros p.
  rewrite lookup_union. specialize (Hok p).
  destruct (basePriorityByPid t !! p), (effectivePriorityByPid t !! p); simpl; try done.
  exfalso. destruct Hok as [_ H]. by destruct H.
Qed.

Lemma flat_ok b : ptable_ok (MkPTable b b).
Proof. by intros p. Qed.
Lemma flat_effective b p : effective_of (MkPTable b b) p = base_of (MkPTable b b) p.
Proof. unfold effective_of, base_of. simpl. by destruct (b !! p). Qed.

Lemma subscript_some {V} (zero : V) (m : gmap Z V) k v : m !! k = Some v → subscript zero m k = (v, m).
Proof. intros Hk. unfold subscript. rewrite Hk. simpl. by rewrite insert_id. Qed.

(** Reading the priority of a registered process does not change the table. *)
Lemma subscript_flat b p : is_Some (b !! p) →
  subscript Realtime b p = (base_of (MkPTable b b) p, b).
Proof. intros [v Hv]. unfold subscript, base_of. simpl. rewrite Hv. simpl. by rewrite insert_id. Qed.

Lemma scan_waiters_some b ws h :
  Forall (λ w, is_Some (b !! w)) ws →
  ∃ h', scan_waiters ws (Some h) (MkPTable b b) = (Some h', MkPTable b b) ∧
    level_int h' = foldr Z.min (level_int h) ((λ w, level_int (base_of (MkPTable b b) w)) <$> ws).
Proof.
  intros Hall. revert h. induction Hall as [|w ws Hw _ IH]; intros h; [by exists h|].
  cbn [scan_waiters]. rewrite (ensure_id (MkPTable b b) w (flat_ok b) Hw). simpl effectivePriorityByPid.
  rewrite subscript_flat by done. cbv iota beta zeta.
  change (set_effective (MkPTable b b) b) with (MkPTable b b).
  set (p := base_of (MkPTable b b) w).
  assert ((if isHigherPriority p h then Some p else Some h) = Some (if isHigherPriority p h then p else h)) as ->
    by by destruct (isHigherPriority p h).
  destruct (IH (if isHigherPriority p h then p else h)) as (h' & -> & Hh). exists h'. split; [done|].
  rewrite Hh, min_higher. rewrite foldr_min. done.
Qed.

Lemma scan_waiters_spec b w ws :
  Forall (λ w, is_Some (b !! w)) (w :: ws) →
  ∃ h, scan_waiters (w :: ws) None (MkPTable b b) = (Some h, MkPTable b b) ∧
    ∀ own, Z.min own (level_int h) =
      foldr Z.min own ((λ w, level_int (base_of (MkPTable b b) w)) <$> (w :: ws)).
Proof.
  intros [Hw Hall]%Forall_cons. cbn [scan_waiters]. rewrite (ensure_id (MkPTable b b) w (flat_ok b) Hw).
  simpl effectivePriorityByPid. rewrite subscript_flat by done. cbv iota beta zeta.
  change (set_effective (MkPTable b b) b) with (MkPTable b b).
  destruct (scan_waiters_some b ws (base_of (MkPTable b b) w) Hall) as (h & Hs & Hh).
  exists h. split; [exact Hs|]. intros own. rewrite Hh. rewrite fmap_cons. cbn [foldr].
  rewrite <-!foldr_min. f_equal. lia.
Qed.

(** One holder inherits; the others are untouched. *)
Lemma inherit_spec t pid h :
  ptable_ok t → registered t pid →
  basePriorityByPid (inherit t pid h) = basePriorityByPid t ∧ ptable_ok (inherit t pid h) ∧
  level_int (effective_of (inherit t pid h) pid) = Z.min (level_int (effective_of t pid)) (level_int h) ∧
  ∀ p, p ≠ pid → effective_of (inherit t pid h) p = effective_of t p.
Proof.
  intros Hok Hr. destruct (proj1 (Hok pid) Hr) as [e He]. unfold inherit. rewrite (ensure_id t pid) by done.
  rewrite (subscript_some Realtime _ _ _ He).
  unfold effective_of. rewrite He. simpl. split_and!; [done| | |].
  - intros p. simpl. pose proof (Hok p) as Hp. destruct (isHigherPriority h e); [|done]. rewrite Hp.
    destruct (decide (p = pid)) as [->|]; [rewrite lookup_insert_eq, He; split; by eexists|].
    by rewrite lookup_insert_ne.
  - pose proof (min_higher h e). destruct (isHigherPriority h e); simpl.
    + rewrite lookup_insert_eq. lia.
    + rewrite He. lia.
  - intros p Hp. destruct (isHigherPriority h e); simpl; [|done]. by rewrite lookup_insert_ne.
Qed.

Lemma inherited_level_ext t t' holds ws p :
  same_bases t t' → inherited_level t' holds ws p = inherited_level t holds ws p.
Proof.
  intros Hs. unfold inherited_level. rewrite Hs. f_equal. destruct holds; [|done].
  apply list_fmap_ext. intros i w _. by rewrite Hs.
Qed.
End table.

#[local] Arguments scan_waiters : simpl never.
#[local] Arguments inherit : simpl never.

(** ** Mutex *)
Section mutex.
Implicit Types (m : Mutex.t) (pid o p : Z).
Import Mutex.

Record mutex_wf m : Prop := {
  mw_table : ptable_ok (priorities m);
  mw_free : owner m = None → recursionDepth m = 0%nat ∧ waitQueue m = [];
  mw_owned o : owner m = Some o →
    o ≠ INVALID_PID ∧ (0 < recursionDepth m)%nat ∧ o ∉ waitQueue m ∧ registered (priorities m) o;
  mw_nodup : NoDup (waitQueue m);
  mw_waiters : Forall (λ w, w ≠ INVALID_PID ∧ registered (priorities m) w) (waitQueue m);
  mw_levels p : level_int (effectivePriority m p) =
    inherited_level (priorities m) (bool_decide (owner m = Some p)) (waitQueue m) p
}.

(** Recomputing establishes the inherited priorities from any table. *)
Lemma recompute_spec m :
  ptable_ok (priorities m) → (∀ o, owner m = Some o → registered (priorities m) o) →
  Forall (registered (priorities m)) (waitQueue m) →
  let m' := recomputePriorities m in
  owner m' = owner m ∧ recursionDepth m' = recursionDepth m ∧ waitQueue m' = waitQueue m ∧
  basePriorityByPid (priorities m') = basePriorityByPid (priorities m) ∧ ptable_ok (priorities m') ∧
  ∀ p, level_int (effectivePriority m' p) =
    inherited_level (priorities m') (bool_decide (owner m = Some p)) (waitQueue m) p.
Proof.
  intros Hok Ho Hw. unfold recomputePriorities. rewrite reset_eq by done.
  set (b := basePriorityByPid (priorities m)) in *. unfold effectivePriority, inherited_level. simpl.
  destruct (owner m) as [o|] eqn:Eo.
  2: { split_and!; try done. intros p. rewrite flat_effective. simpl. done. }
  destruct (waitQueue m) as [|w ws] eqn:Eq.
  { split_and!; try done. intros p. rewrite flat_effective. by destruct (bool_decide _). }
  destruct (scan_waiters_spec b w ws Hw) as (h & -> & Hh).
  destruct (inherit_spec (MkPTable b b) o h (flat_ok b) (Ho o eq_refl)) as (H1 & H2 & H3 & H4).
  assert (same_bases (MkPTable b b) (inherit (MkPTable b b) o h)) as Hsame.
  { intros p. unfold base_of. by rewrite H1. }
  split_and!; [done..|]. intros p. pose proof (inherited_level_ext _ _ (bool_decide (Some o = Some p)) (w :: ws) p Hsame) as E.
  unfold inherited_level in E. rewrite E. clear E. case_bool_decide as Hp.
  - injection Hp as ->. rewrite H3, flat_effective. apply Hh.
  - rewrite H4, flat_effective by congruence. done.
Qed.

#[local] Opaque recomputePriorities.

(** The common end of the operations. *)
Lemma recompute_wf (o : option Z) (d : nat) (q : list Z) (t : ptable) :
  ptable_ok t →
  (o = None → d = 0%nat ∧ q = []) →
  (∀ x, o = Some x → x ≠ INVALID_PID ∧ (0 < d)%nat ∧ x ∉ q ∧ registered t x) →
  NoDup q → Forall (λ w, w ≠ INVALID_PID ∧ registered t w) q →
  let m' := recomputePriorities (mk o d q t) in
  mutex_wf m' ∧ owner m' = o ∧ recursionDepth m' = d ∧ waitQueue m' = q ∧ same_bases t (priorities m').
Proof.
  intros Hok H1 H2 H3 H4. destruct (recompute_spec (mk o d q t)) as (E1 & E2 & E3 & E4 & E5 & E6); simpl in *.
  - done.
  - intros x Hx. by apply H2.
  - eapply Forall_impl; [done|]. by intros w [_ ?].
  - assert (∀ p, registered (priorities (recomputePriorities (mk o d q t))) p ↔ registered t p) as Hreg.
    { intros p. unfold registered. by rewrite E4. }
    split_and!; try done; [|intros p; unfold base_of; by rewrite E4].
    split; rewrite ?E1, ?E2, ?E3; try done.
    + intros x Hx. rewrite Hreg. by apply H2.
    + eapply Forall_impl; [done|]. intros w. by rewrite Hreg.
Qed.

Lemma ensure_wf m pid : mutex_wf m → mutex_wf (ensurePriorityRegistered m pid).
Proof.
  intros [H1 H2 H3 H4 H5 H6]. split; simpl; try done.
  - by apply ensure_ok.
  - intros o Ho. destruct (H3 o Ho) as (?&?&?&?). split_and!; try done. apply ensure_registers. by right.
  - eapply Forall_impl; [done|]. intros w [? ?]. split; [done|]. apply ensure_registers. by right.
  - intros p. unfold effectivePriority. simpl. rewrite ensure_effective by done.
    rewrite (inherited_level_ext (priorities m)) by apply ensure_base. apply H6.
Qed.

Lemma mutex_make_wf : mutex_wf make.
Proof.
  split; simpl; try done. apply NoDup_nil_2.
Qed.

Lemma push_waiter_spec (q : list Z) (pid : Z) : NoDup q →
  NoDup (push_waiter q pid) ∧ ∀ x, x ∈ push_waiter q pid ↔ x = pid ∨ x ∈ q.
Proof.
  intros Hn. unfold push_waiter. case_decide as Hin.
  - split; [done|]. intros x. naive_solver.
  - split.
    + apply NoDup_app. split_and!; [done|set_solver|apply NoDup_singleton].
    + intros x. rewrite elem_of_app, list_elem_of_singleton. tauto.
Qed.

(** What a request for the mutex does: the three cases of [acquire]. *)
Lemma acquire_spec m pid :
  mutex_wf m → pid ≠ INVALID_PID →
  let '(res, m') := acquire m pid in
  mutex_wf m' ∧ same_bases (priorities m) (priorities m') ∧
  match owner m with
  | None => res = ok tt ∧ owner m' = Some pid ∧ recursionDepth m' = 1%nat ∧ waitQueue m' = []
  | Some o =>
      if decide (o = pid)
      then res = ok tt ∧ owner m' = Some o ∧ recursionDepth m' = S (recursionDepth m) ∧
           waitQueue m' = waitQueue m
      else res = error ErrorCode.ResourceBusy ∧ owner m' = Some o ∧
           recursionDepth m' = recursionDepth m ∧ waitQueue m' = push_waiter (waitQueue m) pid
  end.
Proof.
  intros Hw Hp. unfold acquire. destruct (Z.eqb_spec pid INVALID_PID); [done|].
  pose proof (ensure_wf m pid Hw) as He. pose proof (ensure_base (priorities m) pid) as Hsame.
  assert (registered (priorities (ensurePriorityRegistered m pid)) pid) as Hreg.
  { apply ensure_registers. by left. }
  set (m1 := ensurePriorityRegistered m pid) in *. change (owner m1) with (owner m).
  change (waitQueue m1) with (waitQueue m). change (recursionDepth m1) with (recursionDepth m).
  destruct He as [H1 H2 H3 H4 H5 H6]. destruct (owner m) as [o|] eqn:Eo.
  - destruct (H3 o Eo) as (Hoi & Hd & Hoq & Hor). destruct (Z.eqb_spec o pid) as [->|Hne].
    + rewrite decide_True by done. split; [|done].
      split; simpl; rewrite ?Eo; try done.
      * intros x [= <-]. split_and!; try done; lia.
      * intros p. rewrite <-Eo. apply H6.
    + rewrite decide_False by done. destruct (push_waiter_spec (waitQueue m) pid H4) as [Hn Hx].
      destruct (recompute_wf (Some o) (recursionDepth m) (push_waiter (waitQueue m) pid) (priorities m1))
        as (Hw' & E1 & E2 & E3 & E4); try done.
      * intros x [= <-]. split_and!; try done. rewrite Hx. naive_solver.
      * rewrite Forall_forall in H5 |- *. intros x [->|Hin]%Hx; [done|]. by apply H5.
      * split; [done|]. split; [|done]. intros p. by rewrite E4.
  - destruct (H2 Eo) as [Hd Hq]. change (waitQueue m1) with (waitQueue m) in Hq. rewrite Hq.
    destruct (recompute_wf (Some pid) 1 [] (priorities m1)) as (Hw' & E1 & E2 & E3 & E4); try done.
    + intros x [= <-]. split_and!; try done; [lia|set_solver].
    + apply NoDup_nil_2.
Qed.

Lemma tryAcquire_spec m pid :
  mutex_wf m → pid ≠ INVALID_PID →
  let '(res, m') := tryAcquire m pid in
  mutex_wf m' ∧ same_bases (priorities m) (priorities m') ∧ waitQueue m' = waitQueue m ∧
  match owner m with
  | None => res = ok tt ∧ owner m' = Some pid ∧ recursionDepth m' = 1%nat
  | Some o =>
      owner m' = Some o ∧
      if decide (o = pid)
      then res = ok tt ∧ recursionDepth m' = S (recursionDepth m)
      else res = error ErrorCode.ResourceBusy ∧ recursionDepth m' = recursionDepth m
  end.
Proof.
  intros Hw Hp. unfold tryAcquire. destruct (Z.eqb_spec pid INVALID_PID); [done|].
  pose proof (ensure_wf m pid Hw) as He. pose proof (ensure_base (priorities m) pid) as Hsame.
  assert (registered (priorities (ensurePriorityRegistered m pid)) pid) as Hreg.
  { apply ensure_registers. by left. }
  set (m1 := ensurePriorityRegistered m pid) in *. change (owner m1) with (owner m).
  change (recursionDepth m1) with (recursionDepth m).
  pose proof He as [H1 H2 H3 H4 H5 H6]. destruct (owner m) as [o|] eqn:Eo.
  - destruct (H3 o Eo) as (Hoi & Hd & Hoq & Hor). destruct (Z.eqb_spec o pid) as [->|Hne].
    + rewrite decide_True by done.
      destruct (recompute_wf (Some pid) (S (recursionDepth m)) (waitQueue m) (priorities m1))
        as (Hw' & E1 & E2 & E3 & E4); try done.
      * intros x [= <-]. split_and!; try done; lia.
      * split; [done|]. split; [|done]. intros p. by rewrite E4.
    + rewrite decide_False by done. done.
  - destruct (H2 Eo) as [Hd Hq]. change (waitQueue m1) with (waitQueue m) in *. rewrite Hq.
    destruct (recompute_wf (Some pid) 1 [] (priorities m1)) as (Hw' & E1 & E2 & E3 & E4); try done.
    + intros x [= <-]. split_and!; try done; [lia|set_solver].
    + apply NoDup_nil_2.
Qed.

(** What the owner's release does: one level of re-entrance, then the hand-off
    to the first waiter. *)
Lemma release_spec m pid :
  mutex_wf m → owner m = Some pid →
  let '(res, m') := release m pid in
  res = ok tt ∧ mutex_wf m' ∧ same_bases (priorities m) (priorities m') ∧
  if decide (recursionDepth m = 1%nat)
  then owner m' = head (waitQueue m) ∧ waitQueue m' = tail (waitQueue m) ∧
       recursionDepth m' = match waitQueue m with [] => 0%nat | _ => 1%nat end
  else owner m' = Some pid ∧ waitQueue m' = waitQueue m ∧
       recursionDepth m' = pred (recursionDepth m) ∧ (0 < recursionDepth m')%nat.
Proof.
  intros [H1 H2 H3 H4 H5 H6] Eo. destruct (H3 pid Eo) as (Hoi & Hd & Hoq & Hor).
  unfold release. rewrite Eo, Z.eqb_refl. simpl negb. cbv iota.
  destruct (Nat.ltb_spec 1 (recursionDepth m)) as [Hlt|Hge].
  - rewrite decide_False by lia.
    destruct (recompute_wf (Some pid) (pred (recursionDepth m)) (waitQueue m) (priorities m))
      as (Hw' & E1 & E2 & E3 & E4); try done.
    + intros x [= <-]. split_and!; try done; lia.
    + split_and!; try done. rewrite E2. lia.
  - destruct (waitQueue m) as [|next q] eqn:Eq; rewrite decide_True by lia.
    + destruct (recompute_wf None 0 [] (priorities m)) as (Hw' & E1 & E2 & E3 & E4); done.
    + apply Forall_cons in H5 as [[Hni Hnr] H5]. apply NoDup_cons in H4 as [Hnq Hn].
      destruct (recompute_wf (Some next) 1 q (priorities m)) as (Hw' & E1 & E2 & E3 & E4); try done.
      intros x [= <-]. split_and!; try done; lia.
Qed.

Lemma release_refused m pid :
  owner m ≠ Some pid →
  release m pid = (error (if decide (owner m = None) then ErrorCode.InvalidState else ErrorCode.PermissionDenied), m).
Proof.
  intros Hne. unfold release. destruct (owner m) as [o|]; [|done].
  destruct (Z.eqb_spec o pid) as [->|]; [done|]. done.
Qed.

Lemma registerProcessPriority_wf m pid (p : PriorityLevel) : mutex_wf m → mutex_wf (registerProcessPriority m pid p).2.
Proof.
  intros Hw. unfold registerProcessPriority. destruct (Z.eqb_spec pid INVALID_PID); [done|]. simpl.
  destruct Hw as [H1 H2 H3 H4 H5 H6].
  assert (∀ x, registered (priorities m) x → registered (register_base (priorities m) pid p) x) as Hreg.
  { intros x Hx. unfold registered, register_base in *. simpl. destruct (decide (x = pid)) as [->|];
      [rewrite lookup_insert_eq; by eexists|by rewrite lookup_insert_ne]. }
  apply (recompute_wf (owner m) (recursionDepth m) (waitQueue m)); try done.
  - intros x. simpl. specialize (H1 x). destruct (decide (x = pid)) as [->|];
      [rewrite !lookup_insert_eq; split; by eexists|by rewrite !lookup_insert_ne].
  - intros x Hx. destruct (H3 x Hx) as (?&?&?&?). split_and!; auto.
  - eapply Forall_impl; [done|]. intros w [? ?]. auto.
Qed.
End mutex.
