(* ===== verification/SyncTheorems.v ===== *)
(** * SyncTheorems: mutual exclusion, hand-off and priority inheritance *)
From S2P Require Import Prelude Monitor Core Process Sync SyncProps.
Local Open Scope Z_scope.

(** ** Runs of a mutex *)
Inductive sync_op := Acquire (pid : Z) | TryAcquire (pid : Z) | Release (pid : Z)
| RegisterPriority (pid : Z) (base : PriorityLevel).

Definition mutex_step (m : Mutex.t) (op : sync_op) : Result unit * Mutex.t :=
  match op with
  | Acquire pid => Mutex.acquire m pid
  | TryAcquire pid => Mutex.tryAcquire m pid
  | Release pid => Mutex.release m pid
  | RegisterPriority pid p => Mutex.registerProcessPriority m pid p
  end.
Fixpoint mutex_run (m : Mutex.t) (ops : list sync_op) : Mutex.t :=
  match ops with [] => m | op :: ops' => mutex_run (mutex_step m op).2 ops' end.

Lemma mutex_step_wf m op : mutex_wf m → mutex_wf (mutex_step m op).2.
Proof.
  intros Hw. destruct op as [pid|pid|pid|pid p]; simpl.
  - destruct (decide (pid = INVALID_PID)) as [->|Hp]; [done|].
    pose proof (acquire_spec m pid Hw Hp) as H. destruct (Mutex.acquire m pid). apply H.
  - destruct (decide (pid = INVALID_PID)) as [->|Hp]; [done|].
    pose proof (tryAcquire_spec m pid Hw Hp) as H. destruct (Mutex.tryAcquire m pid). apply H.
  - destruct (decide (Mutex.owner m = Some pid)) as [Ho|Ho].
    + pose proof (release_spec m pid Hw Ho) as H. destruct (Mutex.release m pid). apply H.
    + by rewrite release_refused.
  - by apply registerProcessPriority_wf.
Qed.

Lemma mutex_run_wf ops m : mutex_wf m → mutex_wf (mutex_run m ops).
Proof. revert m. induction ops as [|op ops IH]; intros m Hw; [done|]. by apply IH, mutex_step_wf. Qed.

(** Priority inheritance: the owner's effective priority is the best of its own
    base priority and the base priorities of all waiters, and every other
    process runs at its base priority; the owner does not wait, and nobody waits
    twice or on a free mutex. *)
Definition inherits (m : Mutex.t) : Prop :=
  (∀ p, level_int (Mutex.effectivePriority m p) =
     foldr Z.min (level_int (Mutex.basePriority m p))
       (if decide (Mutex.owner m = Some p)
        then (λ w, level_int (Mutex.basePriority m w)) <$> Mutex.waitQueue m else [])) ∧
  NoDup (option_list (Mutex.owner m) ++ Mutex.waitQueue m) ∧
  (Mutex.owner m = None ↔ Mutex.recursionDepth m = 0%nat) ∧
  (Mutex.owner m = None → Mutex.waitQueue m = []).

Lemma mutex_run_inherits ops : inherits (mutex_run Mutex.make ops).
Proof.
  destruct (mutex_run_wf ops Mutex.make mutex_make_wf) as [H1 H2 H3 H4 H5 H6].
  set (m := mutex_run Mutex.make ops) in *. split; [|split; [|split]].
  - intros p. rewrite H6. unfold inherited_level. f_equal.
    by destruct (decide (Mutex.owner m = Some p)) as [E|E]; case_bool_decide.
  - destruct (Mutex.owner m) as [o|]; [|done]. destruct (H3 o eq_refl) as (_ & _ & Hn & _).
    by apply NoDup_cons.
  - split; [intros Hn; by apply H2|]. intros Hd. destruct (Mutex.owner m) as [o|]; [|done].
    destruct (H3 o eq_refl) as (_ & ? & _). lia.
  - intros Hn. by apply H2.
Qed.

(** ** Calls by host threads

    Every method of [Mutex] holds its guard, so a mutex is a monitor. *)
Definition mutex_body (op : sync_op) (m : Mutex.t) : option (Result unit * Mutex.t) := Some (mutex_step m op).

Lemma mutex_order_run cs m rs m' : seq_run mutex_body m cs = Some (rs, m') → m' = mutex_run m cs.
Proof.
  revert m rs. induction cs as [|c cs IH]; intros m rs; simpl; [by intros [= _ ->]|].
  destruct (mutex_step m c) as [r m1]. cbn [mbind option_bind].
  destruct (seq_run mutex_body m1 cs) as [[rs1 m2]|] eqn:Hr; cbn [mbind option_bind]; [|done].
  intros [= _ <-]. by eapply IH.
Qed.

(** C27: priority inheritance between threads.  Whatever the interleaving of
    threads that acquire, try, release and register priorities, at every moment
    the owner's effective priority is the best of its own base priority and
    the base priorities of all waiters, and every other process runs at its
    base priority; the owner does not wait, and nobody waits twice or on a free
    mutex.  The calls end: while one is under way some thread can go on, a call
    takes at most five steps of its own thread, and without further calls at
    most five for each call under way are left until all have returned. *)
Theorem mutex_concurrent es y :
  mon_exec mutex_body (mon_init Mutex.make) es = Some y →
  inherits (members_of y) ∧ calls_end mutex_body y.
Proof.
  intros He. split.
  - destruct (monitor_members _ _ _ _ He) as (cs & rs & _ & ->%mutex_order_run). apply mutex_run_inherits.
  - apply (monitor_returns _ _ _ _ He). by intros.
Qed.

(** Two threads contend for the mutex; the second is of higher priority. *)
Lemma mutex_concurrent_witness :
  ∃ y, mon_exec mutex_body (mon_init Mutex.make)
      [MCall 1 (Acquire 1); MStep 1; MCall 2 (Acquire 2); MStep 1; MStep 1; MStep 1; MStep 2; MStep 2; MStep 2] = Some y ∧
    inherits (members_of y) ∧ Mutex.owner (members_of y) = Some 1 ∧ Mutex.waitQueue (members_of y) = [2].
Proof.
  eexists. split; [vm_compute; reflexivity|]. split; [|split; vm_compute; reflexivity].
  eapply (mutex_concurrent
    [MCall 1 (Acquire 1); MStep 1; MCall 2 (Acquire 2); MStep 1; MStep 1; MStep 1; MStep 2; MStep 2; MStep 2]).
  vm_compute. reflexivity.
Defined.

(** ** First come, first served *)

(** The process a call makes wait: it asks for a mutex another one holds, and
    does not wait for it already. *)
Definition starts_waiting (m : Mutex.t) (op : sync_op) : list Z :=
  match op, Mutex.owner m with
  | Acquire p, Some o => if decide (p = o ∨ p = INVALID_PID ∨ p ∈ Mutex.waitQueue m) then [] else [p]
  | _, _ => []
  end.
(** The process a call hands the mutex to: the owner's last release has a new owner. *)
Definition handed_to (m : Mutex.t) (op : sync_op) : list Z :=
  match op with
  | Release p =>
      if decide (Mutex.owner m = Some p ∧ Mutex.recursionDepth m = 1%nat)
      then option_list (Mutex.owner (Mutex.release m p).2) else []
  | _ => []
  end.
Fixpoint arrivals (m : Mutex.t) (ops : list sync_op) : list Z :=
  match ops with [] => [] | op :: ops' => starts_waiting m op ++ arrivals (mutex_step m op).2 ops' end.
Fixpoint grants (m : Mutex.t) (ops : list sync_op) : list Z :=
  match ops with [] => [] | op :: ops' => handed_to m op ++ grants (mutex_step m op).2 ops' end.

Lemma mutex_step_fifo m op :
  mutex_wf m → Mutex.waitQueue m ++ starts_waiting m op = handed_to m op ++ Mutex.waitQueue (mutex_step m op).2.
Proof.
  intros Hw. destruct op as [p|p|p|p b]; simpl.
  - destruct (decide (p = INVALID_PID)) as [->|Hp].
    { assert ((Mutex.acquire m INVALID_PID).2 = m) as -> by done.
      destruct (Mutex.owner m); [rewrite decide_True by auto|]; apply app_nil_r. }
    pose proof (acquire_spec m p Hw Hp) as Ha. destruct (Mutex.acquire m p) as [r m']. simpl.
    destruct Ha as (_ & _ & Ha). destruct (Mutex.owner m) as [o|] eqn:Ho.
    + destruct (decide (o = p)) as [->|Hne].
      * destruct Ha as (_ & _ & _ & ->). rewrite decide_True by auto. apply app_nil_r.
      * destruct Ha as (_ & _ & _ & ->). unfold push_waiter.
        destruct (decide (p ∈ Mutex.waitQueue m)); [rewrite decide_True by auto; apply app_nil_r|].
        by rewrite decide_False by (intros [?|[?|?]]; congruence).
    + destruct Ha as (_ & _ & _ & ->). rewrite app_nil_r. by apply (mw_free _ Hw Ho).
  - rewrite app_nil_r. destruct (decide (p = INVALID_PID)) as [->|Hp]; [done|].
    pose proof (tryAcquire_spec m p Hw Hp) as Ha. destruct (Mutex.tryAcquire m p). simpl. by destruct Ha as (_ & _ & -> & _).
  - rewrite app_nil_r. destruct (decide (Mutex.owner m = Some p)) as [Ho|Ho].
    + pose proof (release_spec m p Hw Ho) as Hr. destruct (Mutex.release m p) as [r m'].
      destruct Hr as (_ & _ & _ & Hr). simpl. destruct (decide (Mutex.recursionDepth m = 1%nat)).
      * rewrite decide_True by done. destruct Hr as (-> & -> & _). by destruct (Mutex.waitQueue m).
      * rewrite decide_False by tauto. by destruct Hr as (_ & -> & _).
    + rewrite decide_False by tauto. by rewrite release_refused.
  - rewrite app_nil_r. unfold Mutex.registerProcessPriority. by destruct (p =? INVALID_PID).
Qed.

(** Who waited and got the mutex, or still waits, did so in the order of arrival. *)
Lemma mutex_run_fifo ops : ∀ m, mutex_wf m →
  Mutex.waitQueue m ++ arrivals m ops = grants m ops ++ Mutex.waitQueue (mutex_run m ops).
Proof.
  induction ops as [|op ops IH]; intros m Hw; simpl; [apply app_nil_r|].
  rewrite app_assoc, (mutex_step_fifo m op Hw), <-!app_assoc. f_equal. by apply IH, mutex_step_wf.
Qed.

Fixpoint release_times (n : nat) (m : Mutex.t) (pid : Z) : list (Result unit) * Mutex.t :=
  match n with
  | 0%nat => ([], m)
  | S n' =>
      let '(r, m1) := Mutex.release m pid in
      let '(rs, m2) := release_times n' m1 pid in (r :: rs, m2)
  end.

(** C28: mutual exclusion with re-entrance and first-come hand-off, after any calls.
    A mutex held [d] levels deep refuses every other process: an [acquire] puts
    it behind those that wait, once; a stranger's release has no effect; and the
    mutex stays held until the owner's [d]-th release, which gives it to the
    first in the queue.  The order is that of arrival: the processes that ever
    had to wait, in the order in which they began to, are those the mutex was
    handed to, in the order of the hand-offs, followed by the queue. *)
Theorem mutex_handoff ops o :
  let m := mutex_run Mutex.make ops in
  Mutex.owner m = Some o →
  (∀ p, p ≠ o → p ≠ INVALID_PID →
     (Mutex.tryAcquire m p).1 = error ErrorCode.ResourceBusy ∧
     (Mutex.acquire m p).1 = error ErrorCode.ResourceBusy ∧
     Mutex.owner (Mutex.acquire m p).2 = Some o ∧
     Mutex.recursionDepth (Mutex.acquire m p).2 = Mutex.recursionDepth m ∧
     Mutex.waitQueue (Mutex.acquire m p).2 =
       (if decide (p ∈ Mutex.waitQueue m) then Mutex.waitQueue m else Mutex.waitQueue m ++ [p]) ∧
     Mutex.release m p = (error ErrorCode.PermissionDenied, m)) ∧
  (∀ n, (n < Mutex.recursionDepth m)%nat →
     let '(rs, m') := release_times n m o in
     Forall (eq (ok tt)) rs ∧ Mutex.owner m' = Some o ∧ Mutex.waitQueue m' = Mutex.waitQueue m) ∧
  (let '(rs, m') := release_times (Mutex.recursionDepth m) m o in
   Forall (eq (ok tt)) rs ∧ Mutex.owner m' = head (Mutex.waitQueue m) ∧
   Mutex.waitQueue m' = tail (Mutex.waitQueue m)) ∧
  arrivals Mutex.make ops = grants Mutex.make ops ++ Mutex.waitQueue m.
Proof.
  intros m Ho. assert (mutex_wf m) as Hw by apply mutex_run_wf, mutex_make_wf. split_and!; [| | |apply (mutex_run_fifo ops Mutex.make), mutex_make_wf].
  - intros p Hne Hp. pose proof (tryAcquire_spec m p Hw Hp) as Ht. pose proof (acquire_spec m p Hw Hp) as Ha.
    destruct (Mutex.tryAcquire m p) as [r1 m1], (Mutex.acquire m p) as [r2 m2]. rewrite Ho in Ht, Ha.
    rewrite decide_False in Ht by done. rewrite decide_False in Ha by done. simpl.
    destruct Ht as (_ & _ & _ & _ & -> & _), Ha as (_ & _ & -> & -> & -> & ->). split_and!; try done.
    + rewrite release_refused by congruence. rewrite decide_False by congruence. done.
  - intros n Hn. clearbody m. revert m Ho Hw Hn. induction n as [|n IH]; intros m Ho Hw Hn; simpl; [done|].
    pose proof (release_spec m o Hw Ho) as Hr. destruct (Mutex.release m o) as [r m1].
    destruct Hr as (-> & Hw1 & _ & Hr). rewrite decide_False in Hr by lia.
    destruct Hr as (Ho1 & Hq1 & Hd1 & _). specialize (IH m1 Ho1 Hw1 ltac:(lia)).
    destruct (release_times n m1 o) as [rs m']. destruct IH as (IH1 & IH2 & IH3).
    split_and!; [by constructor|done|congruence].
  - clearbody m. remember (Mutex.recursionDepth m) as d eqn:Hd. revert m Ho Hw Hd.
    induction d as [|d IH]; intros m Ho Hw Hd; simpl.
    { destruct (mw_owned _ Hw o Ho) as (_ & ? & _). lia. }
    pose proof (release_spec m o Hw Ho) as Hr. destruct (Mutex.release m o) as [r m1].
    destruct Hr as (-> & Hw1 & _ & Hr). rewrite <-Hd in Hr. case_decide as Hone.
    + destruct Hr as (Ho1 & Hq1 & _). assert (d = 0%nat) as -> by lia. simpl. by split_and!; [constructor| |].
    + destruct Hr as (Ho1 & Hq1 & Hd1 & _). specialize (IH m1 Ho1 Hw1 ltac:(lia)).
      destruct (release_times d m1 o) as [rs m']. destruct IH as (IH1 & IH2 & IH3). rewrite Hq1 in *.
      by split_and!; [constructor| |].
Qed.

(** Process 2 waits, then 3; 2 asks again and keeps its place. *)
Definition queueing : list sync_op := [Acquire 1; Acquire 4; Release 1; Release 4; Acquire 1; Acquire 1; Acquire 2; Acquire 3; Acquire 2].
Lemma mutex_handoff_witness :
  let m := mutex_run Mutex.make queueing in
  Mutex.owner m = Some 1 ∧ Mutex.waitQueue m = [2; 3] ∧ grants Mutex.make queueing = [4] ∧
  arrivals Mutex.make queueing = grants Mutex.make queueing ++ Mutex.waitQueue m ∧
  let '(rs, m') := release_times 2 m 1 in
  Mutex.owner m' = Some 2 ∧ Mutex.waitQueue m' = [3].
Proof.
  destruct (mutex_handoff queueing 1) as (_ & _ & H & Hf); [reflexivity|].
  split; [reflexivity|]. split; [reflexivity|]. split; [reflexivity|]. split; [exact Hf|].
  vm_compute in H |- *. destruct H as (_ & H1 & H2). split; [exact H1|exact H2].
Defined.
