(* ===== verification/SemProps.v ===== *)
(** * SemProps: the semaphore's units, holders and waiters *)
From S2P Require Import Prelude Core Process Sync SyncProps SyncTheorems.
Local Open Scope Z_scope.

(** ** Counting units *)
Definition tokens (h : gmap Z nat) : nat := map_fold (λ _ n acc, (n + acc)%nat) 0%nat h.

Lemma tokens_empty : tokens ∅ = 0%nat.
Proof. apply map_fold_empty. Qed.
Lemma tokens_insert h p n : h !! p = None → tokens (<[p := n]> h) = (n + tokens h)%nat.
Proof. intros Hp. unfold tokens. rewrite map_fold_insert_L; [done|lia|done]. Qed.
Lemma tokens_delete h p n : h !! p = Some n → tokens h = (n + tokens (delete p h))%nat.
Proof.
  intros Hp. rewrite <-(insert_id h p n) at 1 by done. rewrite <-insert_delete_eq.
  apply tokens_insert, lookup_delete_eq.
Qed.
Lemma tokens_add h p : tokens (Semaphore.add_unit h p) = S (tokens h).
Proof.
  unfold Semaphore.add_unit. destruct (h !! p) as [n|] eqn:E; simpl; [|by rewrite tokens_insert].
  rewrite <-insert_delete_eq, tokens_insert by apply lookup_delete_eq. by rewrite (tokens_delete h p n).
Qed.
Lemma tokens_drop h p : map_Forall (λ _ n, 0 < n)%nat h →
  tokens (Semaphore.drop_unit h p) = (tokens h - match h !! p with Some _ => 1 | None => 0 end)%nat.
Proof.
  intros Hpos. unfold Semaphore.drop_unit. destruct (h !! p) as [n|] eqn:E; [|lia].
  specialize (Hpos p n E). simpl in Hpos. pose proof (tokens_delete h p n E).
  destruct (Nat.eqb_spec (pred n) 0); [lia|].
  rewrite <-insert_delete_eq, tokens_insert by apply lookup_delete_eq. lia.
Qed.
Lemma size_tokens h : map_Forall (λ _ n, 0 < n)%nat h → (size h ≤ tokens h)%nat.
Proof.
  induction h as [|p n h Hp IH] using map_ind; [done|]. intros [Hn Hh]%map_Forall_insert; [|done].
  rewrite map_size_insert_None, tokens_insert by done. specialize (IH Hh). lia.
Qed.

(** ** Inheritance by all holders *)
Section inherit_all.
Implicit Types (t : ptable) (p : Z) (h : PriorityLevel).

Lemma inherit_all_spec (holders : list (Z * nat)) h t :
  ptable_ok t → Forall (λ e, registered t e.1 ∧ (0 < e.2)%nat) holders → NoDup holders.*1 →
  let t' := Semaphore.inherit_all holders h t in
  basePriorityByPid t' = basePriorityByPid t ∧ ptable_ok t' ∧
  ∀ p, level_int (effective_of t' p) =
    if decide (p ∈ holders.*1) then Z.min (level_int (effective_of t p)) (level_int h)
    else level_int (effective_of t p).
Proof.
  revert t. induction holders as [|[q n] holders IH]; intros t Hok Hall Hnd; [done|].
  apply Forall_cons in Hall as [[Hr Hn] Hall]. apply NoDup_cons in Hnd as [Hq Hnd]. simpl in Hr, Hn, Hq.
  cbn [Semaphore.inherit_all]. destruct (Nat.eqb_spec n 0); [lia|].
  destruct (inherit_spec t q h Hok Hr) as (E1 & E2 & E3 & E4).
  destruct (IH (inherit t q h) E2) as (F1 & F2 & F3); [|done|].
  { eapply Forall_impl; [exact Hall|]. intros e [He ?]. split; [|done]. unfold registered. by rewrite E1. }
  split_and!; [by rewrite F1|done|]. intros p. rewrite F3. rewrite fmap_cons. simpl.
  destruct (decide (p = q)) as [->|Hp].
  - rewrite decide_False by done. rewrite decide_True by set_solver. exact E3.
  - rewrite E4 by done. destruct (decide (p ∈ holders.*1)).
    + by rewrite decide_True by set_solver.
    + by rewrite decide_False by set_solver.
Qed.
End inherit_all.

(** ** The invariant *)
Section semaphore.
Context `{HO : HashOrder}.
Implicit Types (s : Semaphore.t) (pid p : Z) (c mx : nat) (q : list Z) (h : gmap Z nat) (t : ptable).
Import Semaphore.

Record sem_parts c mx q h t : Prop := {
  sp_table : ptable_ok t;
  sp_count : (c ≤ mx)%nat;
  sp_max : (1 ≤ mx)%nat;
  sp_queue : q ≠ [] → c = 0%nat;
  sp_nodup : NoDup q;
  sp_waiters : Forall (λ w, w ≠ INVALID_PID ∧ registered t w) q;
  sp_holders : map_Forall (λ p n, (0 < n)%nat ∧ p ≠ INVALID_PID ∧ registered t p) h
}.

Record semaphore_wf s : Prop := {
  sw_parts : sem_parts (count s) (maxCount s) (waitQueue s) (holderCounts s) (priorities s);
  sw_levels p : level_int (effectivePriority s p) =
    inherited_level (priorities s) (bool_decide (is_Some (holderCounts s !! p))) (waitQueue s) p
}.

Lemma parts_table t t' c mx q h :
  ptable_ok t' → (∀ p, registered t p → registered t' p) → sem_parts c mx q h t → sem_parts c mx q h t'.
Proof.
  intros Hok Hreg [H1 H2 H3 H4 H5 H6 H7]. split; try done.
  - eapply Forall_impl; [done|]. naive_solver.
  - eapply map_Forall_impl; [done|]. naive_solver.
Qed.

Lemma holders_list h t c mx q : sem_parts c mx q h t →
  Forall (λ e, registered t e.1 ∧ (0 < e.2)%nat) (map_order h) ∧ NoDup (map_order h).*1 ∧
  ∀ p, p ∈ (map_order h).*1 ↔ is_Some (h !! p).
Proof.
  intros Hp. split_and!.
  - apply Forall_forall. intros [p n] Hin%elem_of_map_order. by destruct (sp_holders _ _ _ _ _ Hp p n Hin) as (?&?&?).
  - apply NoDup_map_order_fst.
  - intros p. rewrite list_elem_of_fmap. split.
    + intros ([p' n] & -> & Hin%elem_of_map_order). by exists n.
    + intros [n Hn]. exists (p, n). split; [done|]. by apply elem_of_map_order.
Qed.

Lemma recompute_sem c mx q h t :
  sem_parts c mx q h t →
  let s' := recomputePriorities (mk c mx q h t) in
  semaphore_wf s' ∧ count s' = c ∧ maxCount s' = mx ∧ waitQueue s' = q ∧ holderCounts s' = h ∧
  same_bases t (priorities s').
Proof.
  intros Hp. destruct (holders_list _ _ _ _ _ Hp) as (Hall & Hnd & Hin).
  unfold recomputePriorities. cbn [priorities waitQueue holderCounts].
  rewrite reset_eq by apply Hp. set (b := basePriorityByPid t).
  assert (∀ p, registered (MkPTable b b) p ↔ registered t p) as Hreg by done.
  assert (same_bases t (MkPTable b b)) as Hb by done.
  destruct q as [|w ws].
  - split; [|done]. split; cbn [set_priorities count maxCount waitQueue holderCounts priorities].
    + eapply parts_table; [apply flat_ok| |exact Hp]. done.
    + intros p. unfold effectivePriority, inherited_level. simpl. rewrite flat_effective. by destruct (bool_decide _).
  - destruct (scan_waiters_spec b w ws) as (hi & -> & Hh).
    { eapply Forall_impl; [apply Hp|]. by intros x [_ ?]. }
    destruct (inherit_all_spec (map_order h) hi (MkPTable b b)) as (E1 & E2 & E3); [apply flat_ok|done|done|].
    set (t' := inherit_all _ _ _) in *.
    assert (same_bases t t') as Hsame by (intros p; unfold base_of; by rewrite E1).
    split; [|done]. split; cbn [set_priorities count maxCount waitQueue holderCounts priorities].
    + eapply parts_table; [exact E2| |exact Hp]. intros p. unfold registered. by rewrite E1.
    + intros p. unfold effectivePriority. cbn [priorities waitQueue holderCounts]. rewrite E3.
      rewrite (inherited_level_ext (MkPTable b b)) by (intros x; unfold base_of; by rewrite E1).
      unfold inherited_level. rewrite flat_effective. case_decide as Hd.
      * rewrite bool_decide_eq_true_2 by by apply Hin. apply Hh.
      * rewrite bool_decide_eq_false_2 by by rewrite <-Hin. done.
Qed.

Lemma ensure_sem s pid : semaphore_wf s → semaphore_wf (ensurePriorityRegistered s pid).
Proof.
  intros [Hp Hl]. split; simpl.
  - eapply parts_table; [apply ensure_ok, Hp| |exact Hp]. intros p Hr. apply ensure_registers. by right.
  - intros p. unfold effectivePriority. simpl. rewrite ensure_effective by apply Hp.
    rewrite (inherited_level_ext (priorities s)) by apply ensure_base. apply Hl.
Qed.

Lemma make_sem initial mx : semaphore_wf (make initial mx).
Proof.
  split; simpl.
  - split; simpl; try done; try lia; first [apply NoDup_nil_2|apply map_Forall_empty].
  - intros p. unfold effectivePriority, inherited_level. simpl. by destruct (bool_decide _).
Qed.

Lemma add_unit_holders h t pid :
  map_Forall (λ p n, (0 < n)%nat ∧ p ≠ INVALID_PID ∧ registered t p) h →
  pid ≠ INVALID_PID → registered t pid →
  map_Forall (λ p n, (0 < n)%nat ∧ p ≠ INVALID_PID ∧ registered t p) (add_unit h pid).
Proof. intros Hh Hp Hr. apply map_Forall_insert_2; [|done]. split_and!; [lia|done|done]. Qed.
Lemma drop_unit_holders h t pid :
  map_Forall (λ p n, (0 < n)%nat ∧ p ≠ INVALID_PID ∧ registered t p) h →
  map_Forall (λ p n, (0 < n)%nat ∧ p ≠ INVALID_PID ∧ registered t p) (drop_unit h pid).
Proof.
  intros Hh. unfold drop_unit. destruct (h !! pid) as [n|] eqn:E; [|done].
  destruct (Hh pid n E) as (? & ? & ?). destruct (Nat.eqb_spec (pred n) 0).
  - by apply map_Forall_delete.
  - apply map_Forall_insert_2; [split_and!; [lia|done|done]|done].
Qed.

(** Taking a unit that is available. *)
Lemma take_unit_spec s pid :
  semaphore_wf s → pid ≠ INVALID_PID → registered (priorities s) pid → (0 < count s)%nat →
  let s' := take_unit s pid in
  semaphore_wf s' ∧ count s' = pred (count s) ∧ maxCount s' = maxCount s ∧ waitQueue s' = waitQueue s ∧
  holderCounts s' = add_unit (holderCounts s) pid ∧ same_bases (priorities s) (priorities s').
Proof.
  intros [[H1 H2 H3 H4 H5 H6 H7] _] Hp Hr Hc. apply recompute_sem. split; try done; [lia| |].
  - intros Hq. specialize (H4 Hq). lia.
  - by apply add_unit_holders.
Qed.

Lemma sem_acquire_spec s pid :
  semaphore_wf s → pid ≠ INVALID_PID →
  let '(res, s') := acquire s pid in
  semaphore_wf s' ∧ maxCount s' = maxCount s ∧ same_bases (priorities s) (priorities s') ∧
  if decide (count s = 0%nat)
  then res = error ErrorCode.ResourceBusy ∧ count s' = 0%nat ∧ holderCounts s' = holderCounts s ∧
       waitQueue s' = push_waiter (waitQueue s) pid
  else res = ok tt ∧ count s = S (count s') ∧ holderCounts s' = add_unit (holderCounts s) pid ∧
       waitQueue s' = waitQueue s.
Proof.
  intros Hw Hp. unfold acquire. destruct (Z.eqb_spec pid INVALID_PID); [done|].
  pose proof (ensure_sem s pid Hw) as He. pose proof (ensure_base (priorities s) pid) as Hsame.
  assert (registered (priorities (ensurePriorityRegistered s pid)) pid) as Hreg.
  { apply ensure_registers. by left. }
  set (s1 := ensurePriorityRegistered s pid) in *.
  change (count s) with (count s1). change (maxCount s) with (maxCount s1).
  change (waitQueue s) with (waitQueue s1). change (holderCounts s) with (holderCounts s1).
  destruct (Nat.ltb_spec 0 (count s1)) as [Hc|Hc].
  - rewrite decide_False by lia.
    destruct (take_unit_spec s1 pid He Hp Hreg Hc) as (Hw' & E1 & E2 & E3 & E4 & E5).
    split_and!; try done; [intros x; by rewrite E5|rewrite E1; lia].
  - rewrite decide_True by lia. destruct He as [[H1 H2 H3 H4 H5 H6 H7] _].
    destruct (push_waiter_spec (waitQueue s1) pid H5) as [Hn Hx].
    destruct (recompute_sem (count s1) (maxCount s1) (push_waiter (waitQueue s1) pid) (holderCounts s1)
      (priorities s1)) as (Hw' & E1 & E2 & E3 & E4 & E5).
    { split; try done; [intros _; lia|].
      rewrite Forall_forall in H6 |- *. intros x [->|Hin]%Hx; [done|]. by apply H6. }
    split_and!; try done; [intros x; by rewrite E5|rewrite E1; lia].
Qed.

Lemma sem_tryAcquire_spec s pid :
  semaphore_wf s → pid ≠ INVALID_PID →
  let '(res, s') := tryAcquire s pid in
  semaphore_wf s' ∧ maxCount s' = maxCount s ∧ same_bases (priorities s) (priorities s') ∧
  waitQueue s' = waitQueue s ∧
  if decide (count s = 0%nat)
  then res = error ErrorCode.ResourceBusy ∧ count s' = 0%nat ∧ holderCounts s' = holderCounts s
  else res = ok tt ∧ count s = S (count s') ∧ holderCounts s' = add_unit (holderCounts s) pid.
Proof.
  intros Hw Hp. unfold tryAcquire. destruct (Z.eqb_spec pid INVALID_PID); [done|].
  pose proof (ensure_sem s pid Hw) as He. pose proof (ensure_base (priorities s) pid) as Hsame.
  assert (registered (priorities (ensurePriorityRegistered s pid)) pid) as Hreg.
  { apply ensure_registers. by left. }
  set (s1 := ensurePriorityRegistered s pid) in *.
  change (count s) with (count s1). change (maxCount s) with (maxCount s1).
  change (waitQueue s) with (waitQueue s1). change (holderCounts s) with (holderCounts s1).
  destruct (Nat.eqb_spec (count s1) 0) as [Hc|Hc].
  - by rewrite decide_True.
  - rewrite decide_False by done.
    destruct (take_unit_spec s1 pid He Hp Hreg ltac:(lia)) as (Hw' & E1 & E2 & E3 & E4 & E5).
    split_and!; try done; [intros x; by rewrite E5|rewrite E1; lia].
Qed.

(** Returning a unit: to the longest waiter if there is one. *)
Lemma sem_release_spec s pid :
  semaphore_wf s → pid ≠ INVALID_PID →
  let '(res, s') := release s pid in
  semaphore_wf s' ∧ maxCount s' = maxCount s ∧ same_bases (priorities s) (priorities s') ∧
  match waitQueue s with
  | next :: q => res = ok tt ∧ count s' = count s ∧ waitQueue s' = q ∧
      holderCounts s' = add_unit (drop_unit (holderCounts s) pid) next
  | [] => holderCounts s' = drop_unit (holderCounts s) pid ∧ waitQueue s' = [] ∧
      if decide (count s = maxCount s)
      then res = error ErrorCode.InvalidState ∧ count s' = count s
      else res = ok tt ∧ count s' = S (count s)
  end.
Proof.
  intros Hw Hp. unfold release. destruct (Z.eqb_spec pid INVALID_PID); [done|].
  pose proof (ensure_sem s pid Hw) as He. pose proof (ensure_base (priorities s) pid) as Hsame.
  set (s1 := ensurePriorityRegistered s pid) in *.
  change (count s) with (count s1). change (maxCount s) with (maxCount s1).
  change (waitQueue s) with (waitQueue s1). change (holderCounts s) with (holderCounts s1).
  destruct He as [[H1 H2 H3 H4 H5 H6 H7] _]. destruct (waitQueue s1) as [|next q] eqn:Eq.
  - assert (∀ c, (c ≤ maxCount s1)%nat →
      sem_parts c (maxCount s1) [] (drop_unit (holderCounts s1) pid) (priorities s1)) as Hparts.
    { intros c Hc. split; try done; try lia. by apply drop_unit_holders. }
    destruct (Nat.leb_spec (maxCount s1) (count s1)) as [Hle|Hlt].
    + rewrite decide_True by lia.
      destruct (recompute_sem _ _ _ _ _ (Hparts (count s1) H2)) as (Hw' & E1 & E2 & E3 & E4 & E5).
      split_and!; try done; intros x; by rewrite E5.
    + rewrite decide_False by lia.
      destruct (recompute_sem _ _ _ _ _ (Hparts (S (count s1)) Hlt)) as (Hw' & E1 & E2 & E3 & E4 & E5).
      split_and!; try done; intros x; by rewrite E5.
  - apply NoDup_cons in H5 as [_ H5]. apply Forall_cons in H6 as [[Hni Hnr] H6].
    rewrite (ensure_id _ next) by done.
    destruct (recompute_sem (count s1) (maxCount s1) q (add_unit (drop_unit (holderCounts s1) pid) next)
      (priorities s1)) as (Hw' & E1 & E2 & E3 & E4 & E5).
    { split; try done; [intros _; by apply H4|]. apply add_unit_holders; [by apply drop_unit_holders|done..]. }
    split_and!; try done. intros x; by rewrite E5.
Qed.

Lemma sem_register_wf s pid (p : PriorityLevel) :
  semaphore_wf s →
  let s' := (registerProcessPriority s pid p).2 in
  semaphore_wf s' ∧ count s' = count s ∧ maxCount s' = maxCount s ∧ holderCounts s' = holderCounts s ∧
  waitQueue s' = waitQueue s.
Proof.
  intros Hw. unfold registerProcessPriority. destruct (Z.eqb_spec pid INVALID_PID); [done|]. cbn [snd].
  destruct (recompute_sem (count s) (maxCount s) (waitQueue s) (holderCounts s)
    (register_base (priorities s) pid p)) as (Hw' & E1 & E2 & E3 & E4 & _); [|done].
  eapply parts_table; [| |apply Hw].
  - intros x. pose proof (sp_table _ _ _ _ _ (sw_parts _ Hw) x) as H1. simpl.
    destruct (decide (x = pid)) as [->|]; [rewrite !lookup_insert_eq; split; by eexists|by rewrite !lookup_insert_ne].
  - intros x Hx. unfold registered, register_base in *. simpl. destruct (decide (x = pid)) as [->|];
      [rewrite lookup_insert_eq; by eexists|by rewrite lookup_insert_ne].
Qed.
End semaphore.
