(* ===== verification/SemTheorems.v ===== *)
(** * SemTheorems: the units of a semaphore *)
From S2P Require Import Prelude Monitor Core Process Sync SyncProps SyncTheorems SemProps.
Local Open Scope Z_scope.

Section runs.
Context `{HO : HashOrder}.
Implicit Types (s : Semaphore.t) (pid p : Z).

Definition sem_step s (op : sync_op) : Result unit * Semaphore.t :=
  match op with
  | Acquire pid => Semaphore.acquire s pid
  | TryAcquire pid => Semaphore.tryAcquire s pid
  | Release pid => Semaphore.release s pid
  | RegisterPriority pid p => Semaphore.registerProcessPriority s pid p
  end.
Fixpoint sem_run s (ops : list sync_op) : Semaphore.t :=
  match ops with [] => s | op :: ops' => sem_run (sem_step s op).2 ops' end.

(** Only processes that hold a unit release one. *)
Fixpoint disciplined s (ops : list sync_op) : Prop :=
  match ops with
  | [] => True
  | op :: ops' =>
      match op with Release pid => is_Some (Semaphore.holderCounts s !! pid) | _ => True end ∧
      disciplined (sem_step s op).2 ops'
  end.

Lemma sem_step_wf s op : semaphore_wf s → semaphore_wf (sem_step s op).2 ∧
  Semaphore.maxCount (sem_step s op).2 = Semaphore.maxCount s.
Proof.
  intros Hw. destruct op as [pid|pid|pid|pid p]; simpl.
  - destruct (decide (pid = INVALID_PID)) as [->|Hp]; [done|].
    pose proof (sem_acquire_spec s pid Hw Hp) as H. destruct (Semaphore.acquire s pid). split; apply H.
  - destruct (decide (pid = INVALID_PID)) as [->|Hp]; [done|].
    pose proof (sem_tryAcquire_spec s pid Hw Hp) as H. destruct (Semaphore.tryAcquire s pid). split; apply H.
  - destruct (decide (pid = INVALID_PID)) as [->|Hp]; [done|].
    pose proof (sem_release_spec s pid Hw Hp) as H. destruct (Semaphore.release s pid). split; apply H.
  - split; apply (sem_register_wf s pid p Hw).
Qed.

Lemma sem_run_wf ops s : semaphore_wf s → semaphore_wf (sem_run s ops).
Proof. revert s. induction ops as [|op ops IH]; intros s Hw; [done|]. by apply IH, sem_step_wf. Qed.

Lemma holders_positive s : semaphore_wf s → map_Forall (λ _ n, 0 < n)%nat (Semaphore.holderCounts s).
Proof.
  intros Hw. eapply map_Forall_impl; [apply (sp_holders _ _ _ _ _ (sw_parts _ Hw))|]. naive_solver.
Qed.

(** Units are neither made nor lost when only holders release. *)
Definition units s : nat := (Semaphore.count s + tokens (Semaphore.holderCounts s))%nat.

Lemma sem_release_held s pid n :
  semaphore_wf s → Semaphore.holderCounts s !! pid = Some n → (units s ≤ Semaphore.maxCount s)%nat →
  pid ≠ INVALID_PID ∧
  let '(res, s') := Semaphore.release s pid in
  res = ok tt ∧ units s' = units s ∧
  Semaphore.holderCounts s' =
    match Semaphore.waitQueue s with
    | next :: _ => Semaphore.add_unit (Semaphore.drop_unit (Semaphore.holderCounts s) pid) next
    | [] => Semaphore.drop_unit (Semaphore.holderCounts s) pid
    end.
Proof.
  intros Hw Hh Hu. destruct (sp_holders _ _ _ _ _ (sw_parts _ Hw) pid n Hh) as (Hn & Hp & _). split; [done|].
  pose proof (sem_release_spec s pid Hw Hp) as Hr. destruct (Semaphore.release s pid) as [res s'].
  destruct Hr as (_ & _ & _ & Hr). pose proof (tokens_drop _ pid (holders_positive s Hw)) as Ht.
  rewrite Hh in Ht. pose proof (tokens_delete _ _ _ Hh) as Hd. unfold units in *.
  destruct (Semaphore.waitQueue s) as [|next q].
  - destruct Hr as (E1 & _ & Hr). rewrite decide_False in Hr by lia. destruct Hr as [-> E2].
    rewrite E1, E2, Ht. split_and!; [done|lia|done].
  - destruct Hr as (-> & E1 & _ & E2). rewrite E1, E2, tokens_add, Ht. split_and!; [done|lia|done].
Qed.

Lemma sem_step_units s op :
  semaphore_wf s → (units s ≤ Semaphore.maxCount s)%nat →
  match op with Release pid => is_Some (Semaphore.holderCounts s !! pid) | _ => True end →
  units (sem_step s op).2 = units s.
Proof.
  intros Hw Hu Hd. destruct op as [pid|pid|pid|pid p]; simpl.
  - destruct (decide (pid = INVALID_PID)) as [->|Hp]; [done|].
    pose proof (sem_acquire_spec s pid Hw Hp) as H. destruct (Semaphore.acquire s pid) as [res s'].
    destruct H as (_ & _ & _ & H). unfold units. simpl. case_decide; destruct H as (_ & H1 & -> & _).
    + lia.
    + rewrite tokens_add. lia.
  - destruct (decide (pid = INVALID_PID)) as [->|Hp]; [done|].
    pose proof (sem_tryAcquire_spec s pid Hw Hp) as H. destruct (Semaphore.tryAcquire s pid) as [res s'].
    destruct H as (_ & _ & _ & _ & H). unfold units. simpl. case_decide; destruct H as (_ & H1 & ->).
    + lia.
    + rewrite tokens_add. lia.
  - destruct Hd as [n Hn]. destruct (sem_release_held s pid n Hw Hn Hu) as [_ H].
    destruct (Semaphore.release s pid). apply H.
  - destruct (sem_register_wf s pid p Hw) as (_ & H1 & _ & H2 & _). unfold units. by rewrite H1, H2.
Qed.

(** Conservation of units: the available units and the held ones add up to the
    initial count, so that at most [maxCount] processes hold the semaphore at
    once; processes wait only when no unit is available, each at most once. *)
Definition conserves (initial mx : nat) s : Prop :=
  (Semaphore.count s + tokens (Semaphore.holderCounts s) = min initial (max 1 mx))%nat ∧
  (size (Semaphore.holderCounts s) ≤ max 1 mx)%nat ∧
  (Semaphore.waitQueue s ≠ [] → Semaphore.count s = 0%nat) ∧ NoDup (Semaphore.waitQueue s).

Lemma semaphore_conserves initial mx ops :
  disciplined (Semaphore.make initial mx) ops → conserves initial mx (sem_run (Semaphore.make initial mx) ops).
Proof.
  intros Hd.
  assert (∀ ops s, semaphore_wf s → (units s ≤ Semaphore.maxCount s)%nat → disciplined s ops →
    semaphore_wf (sem_run s ops) ∧ units (sem_run s ops) = units s ∧
    Semaphore.maxCount (sem_run s ops) = Semaphore.maxCount s) as Hrun.
  { clear. induction ops as [|op ops IH]; intros s Hw Hu Hd; [done|]. destruct Hd as [Hop Hd]. simpl.
    destruct (sem_step_wf s op Hw) as [Hw1 Hm1]. pose proof (sem_step_units s op Hw Hu Hop) as Hu1.
    destruct (IH (sem_step s op).2 Hw1 ltac:(lia) Hd) as (H1 & H2 & H3). split_and!; [done|congruence|congruence]. }
  destruct (Hrun ops (Semaphore.make initial mx)) as (Hw & Hu & Hm); [apply make_sem| |done|].
  { unfold units. simpl. rewrite tokens_empty. lia. }
  set (s := sem_run _ _) in *. unfold units in Hu. simpl in Hu, Hm.
  rewrite tokens_empty, Nat.add_0_r in Hu. split_and!.
  - done.
  - pose proof (size_tokens _ (holders_positive s Hw)). lia.
  - apply (sw_parts _ Hw).
  - apply (sw_parts _ Hw).
Qed.

(** Priority inheritance: every holder's effective priority is the best of its
    own and of all waiters', and everybody else runs at the base priority. *)
Definition holders_inherit s : Prop :=
  ∀ p, level_int (Semaphore.effectivePriority s p) =
    foldr Z.min (level_int (Semaphore.basePriority s p))
      (if decide (is_Some (Semaphore.holderCounts s !! p))
       then (λ w, level_int (Semaphore.basePriority s w)) <$> Semaphore.waitQueue s else []).

(** It holds after any sequence of calls on a new semaphore, disciplined or not,
    whatever the order the hash maps are iterated in. *)
Lemma semaphore_run_inherits initial mx ops : holders_inherit (sem_run (Semaphore.make initial mx) ops).
Proof.
  intros p. rewrite (sw_levels _ (sem_run_wf ops _ (make_sem initial mx))). unfold inherited_level. f_equal.
  by destruct (decide (is_Some (Semaphore.holderCounts (sem_run _ ops) !! p))); case_bool_decide.
Qed.

(** ** Calls by host threads

    Every method of [Semaphore] holds its guard, so a semaphore is a monitor. *)
Definition sem_body (op : sync_op) s : option (Result unit * Semaphore.t) := Some (sem_step s op).

Lemma sem_order_run cs s rs s' : seq_run sem_body s cs = Some (rs, s') → s' = sem_run s cs.
Proof.
  revert s rs. induction cs as [|c cs IH]; intros s rs; simpl; [by intros [= _ ->]|].
  destruct (sem_step s c) as [r s1]. cbn [mbind option_bind].
  destruct (seq_run sem_body s1 cs) as [[rs1 s2]|] eqn:Hr; cbn [mbind option_bind]; [|done].
  intros [= _ <-]. by eapply IH.
Qed.

(** C29: a semaphore between threads.  Whatever the interleaving of threads that
    acquire, try, release and register priorities, the calls end: while one is
    under way some thread can go on, a call takes at most five steps of its own
    thread, and without further calls at most five for each call under way are
    left until all have returned.  At every moment each holder's effective
    priority is the best of its own and of all waiters', and everybody else's
    the base priority.  When no call is under way, the calls have an order, no call before
    one that had returned when it was made; and if in that order only holders
    release, the available units and the held ones add up to the initial count,
    so that at most [maxCount] processes hold the semaphore at once, and processes
    wait only when no unit is available, each at most once. *)
Theorem semaphore_concurrent initial mx es y :
  mon_exec sem_body (mon_init (Semaphore.make initial mx)) es = Some y →
  holders_inherit (members_of y) ∧ calls_end sem_body y ∧
  (callers y = ∅ → ∃ order, sequential sem_body (Semaphore.make initial mx) y order ∧
     (disciplined (Semaphore.make initial mx) (map (λ x, mc_call x.2) order) → conserves initial mx (members_of y))).
Proof.
  intros He. split_and!.
  - destruct (monitor_members _ _ _ _ He) as (cs & rs & _ & ->%sem_order_run). apply semaphore_run_inherits.
  - apply (monitor_returns _ _ _ _ He). by intros.
  - intros Hq. destruct (monitor_sequential _ _ _ _ He Hq) as (order & Hs & _). exists order. split; [done|].
    pose proof (proj1 (proj2 Hs)) as ->%sem_order_run. apply semaphore_conserves.
Qed.
End runs.

(** Three threads ask for two units; the first gives its unit back. *)
Definition contested : list (mon_event sync_op) :=
  [MCall 1 (Acquire 1); MCall 2 (Acquire 2); MStep 2; MStep 2; MStep 2; MStep 2; MStep 1; MStep 2; MCall 3 (Acquire 3);
   MStep 1; MStep 1; MStep 1; MStep 3; MStep 1; MStep 3; MStep 3; MStep 3; MCall 2 (Release 2); MStep 2; MStep 3;
   MStep 2; MStep 2; MStep 2; MStep 2].
Definition contested_state : mon_sys Semaphore.t sync_op (Result unit) :=
  default (mon_init (Semaphore.make 2 2)) (mon_exec (sem_body (HO:=canonical_order)) (mon_init (Semaphore.make 2 2)) contested).

Lemma semaphore_concurrent_witness :
  mon_exec (sem_body (HO:=canonical_order)) (mon_init (Semaphore.make 2 2)) contested = Some contested_state ∧
  callers contested_state = ∅ ∧ holders_inherit (members_of contested_state) ∧
  Semaphore.count (members_of contested_state) = 0%nat ∧
  Semaphore.holderCounts (members_of contested_state) = <[1 := 1%nat]> (<[3 := 1%nat]> ∅) ∧
  ∃ order, order ≡ₚ map_to_list (returned contested_state).
Proof.
  assert (mon_exec (sem_body (HO:=canonical_order)) (mon_init (Semaphore.make 2 2)) contested = Some contested_state) as He
    by (vm_compute; reflexivity).
  assert (callers contested_state = ∅) as Hq by (vm_compute; reflexivity).
  destruct (semaphore_concurrent (HO:=canonical_order) 2 2 contested contested_state He) as (H1 & _ & H2).
  destruct (H2 Hq) as (order & (H3 & _) & _).
  split; [exact He|]. split; [exact Hq|]. split; [exact H1|]. split; [vm_compute; reflexivity|].
  split; [vm_compute; reflexivity|]. exists order. exact H3.
Defined.

(** A release by a process that holds nothing hands a unit to a waiter: one
    unit, two holders. *)
Example semaphore_stranger_release :
  let s := sem_run (HO:=canonical_order) (Semaphore.make 1 1) [Acquire 1; Acquire 2; Release 3] in
  Semaphore.maxCount s = 1%nat ∧ map_to_list (Semaphore.holderCounts s) ≡ₚ [(1, 1%nat); (2, 1%nat)].
Proof. vm_compute. split; [reflexivity|]. apply Permutation_refl || constructor. Qed.
