(* ===== verification/SyncClient.v ===== *)
(** * SyncClient: [CriticalSection] against the interface of primitives

    What a primitive promises, the proofs that the mutex and the semaphore
    keep it, and what a critical section gets from any primitive that does; and,
    answer by answer, the abstract lock and pool of units that a section over
    them is. *)
From S2P Require Import Prelude Core Process Sync SyncProps SyncTheorems SemProps SemTheorems.
Local Open Scope Z_scope.

Class LawfulSync (S : Type) `{!ISyncPrimitive S} := {
  sync_wf : S → Prop;
  inside : S → gset Z;
  capacity : S → nat;
  sync_bound s : sync_wf s → (size (inside s) ≤ capacity s)%nat;
  sync_acquire s pid : sync_wf s →
    sync_wf (acquire s pid).2 ∧ capacity (acquire s pid).2 = capacity s ∧
    inside (acquire s pid).2 = (if isOk (acquire s pid).1 then {[pid]} ∪ inside s else inside s);
  sync_try s pid : sync_wf s →
    sync_wf (tryAcquire s pid).2 ∧ capacity (tryAcquire s pid).2 = capacity s ∧
    inside (tryAcquire s pid).2 = (if isOk (tryAcquire s pid).1 then {[pid]} ∪ inside s else inside s);
  sync_release s pid : sync_wf s → pid ∈ inside s →
    (release s pid).1 = ok tt ∧ sync_wf (release s pid).2 ∧ capacity (release s pid).2 = capacity s ∧
    inside s ∖ {[pid]} ⊆ inside (release s pid).2
}.

(** ** The mutex *)
Definition mutex_inside (m : Mutex.t) : gset Z := match Mutex.owner m with Some o => {[o]} | None => ∅ end.

#[global] Program Instance mutex_lawful : LawfulSync Mutex.t := {|
  sync_wf := mutex_wf; inside := mutex_inside; capacity _ := 1%nat
|}.
Next Obligation.
  intros m _. unfold mutex_inside. destruct (Mutex.owner m); [by rewrite size_singleton|by rewrite size_empty; lia].
Qed.
Next Obligation.
  intros m pid Hw. simpl. destruct (decide (pid = INVALID_PID)) as [->|Hp]; [done|].
  pose proof (acquire_spec m pid Hw Hp) as H. destruct (Mutex.acquire m pid) as [res m'].
  destruct H as (Hw' & _ & H). split; [done|]. split; [done|]. unfold mutex_inside. simpl.
  destruct (Mutex.owner m) as [o|].
  - case_decide as E; destruct H as (-> & -> & _); simpl; [set_solver|done].
  - destruct H as (-> & -> & _). simpl. set_solver.
Qed.
Next Obligation.
  intros m pid Hw. simpl. destruct (decide (pid = INVALID_PID)) as [->|Hp]; [done|].
  pose proof (tryAcquire_spec m pid Hw Hp) as H. destruct (Mutex.tryAcquire m pid) as [res m'].
  destruct H as (Hw' & _ & _ & H). split; [done|]. split; [done|]. unfold mutex_inside. simpl.
  destruct (Mutex.owner m) as [o|].
  - destruct H as [-> H]. case_decide as E; destruct H as (-> & _); simpl; [set_solver|done].
  - destruct H as (-> & -> & _). simpl. set_solver.
Qed.
Next Obligation.
  intros m pid Hw Hin. simpl. assert (Mutex.owner m = Some pid) as Ho.
  { unfold mutex_inside in Hin. destruct (Mutex.owner m); set_solver. }
  pose proof (release_spec m pid Hw Ho) as H. destruct (Mutex.release m pid) as [res m'].
  destruct H as (-> & Hw' & _). split_and!; try done. unfold mutex_inside. rewrite Ho. set_solver.
Qed.

(** ** The semaphore *)
Definition sem_inside (s : Semaphore.t) : gset Z := dom (Semaphore.holderCounts s).

Lemma dom_add_unit (h : gmap Z nat) pid : dom (Semaphore.add_unit h pid) = {[pid]} ∪ dom h.
Proof. unfold Semaphore.add_unit. by rewrite dom_insert_L. Qed.
Lemma dom_drop_unit (h : gmap Z nat) pid : dom h ∖ {[pid]} ⊆ dom (Semaphore.drop_unit h pid).
Proof.
  unfold Semaphore.drop_unit. destruct (h !! pid); [|set_solver].
  destruct (_ =? 0)%nat; rewrite ?dom_delete_L, ?dom_insert_L; set_solver.
Qed.

#[global] Program Instance semaphore_lawful `{HO : HashOrder} : LawfulSync Semaphore.t := {|
  sync_wf s := semaphore_wf s ∧ (units s ≤ Semaphore.maxCount s)%nat; inside := sem_inside;
  capacity := Semaphore.maxCount
|}.
Next Obligation.
  intros HO s [Hw Hu]. unfold sem_inside. rewrite size_dom.
  pose proof (size_tokens _ (holders_positive s Hw)). unfold units in Hu. lia.
Qed.
Next Obligation.
  intros HO s pid [Hw Hu]. simpl. pose proof (sem_step_units s (Acquire pid) Hw Hu I) as Hu'.
  destruct (sem_step_wf s (Acquire pid) Hw) as [Hw' Hm]. simpl in Hu', Hw', Hm.
  split; [split; [done|lia]|]. split; [done|].
  destruct (decide (pid = INVALID_PID)) as [->|Hp]; [done|].
  pose proof (sem_acquire_spec s pid Hw Hp) as H. destruct (Semaphore.acquire s pid) as [res s'].
  destruct H as (_ & _ & _ & H). unfold sem_inside. simpl.
  case_decide; destruct H as (-> & _ & -> & _); simpl; [done|apply dom_add_unit].
Qed.
Next Obligation.
  intros HO s pid [Hw Hu]. simpl. pose proof (sem_step_units s (TryAcquire pid) Hw Hu I) as Hu'.
  destruct (sem_step_wf s (TryAcquire pid) Hw) as [Hw' Hm]. simpl in Hu', Hw', Hm.
  split; [split; [done|lia]|]. split; [done|].
  destruct (decide (pid = INVALID_PID)) as [->|Hp]; [done|].
  pose proof (sem_tryAcquire_spec s pid Hw Hp) as H. destruct (Semaphore.tryAcquire s pid) as [res s'].
  destruct H as (_ & _ & _ & _ & H). unfold sem_inside. simpl.
  case_decide; destruct H as (-> & _ & ->); simpl; [done|apply dom_add_unit].
Qed.
Next Obligation.
  intros HO s pid [Hw Hu] Hin. simpl. unfold sem_inside in Hin. apply elem_of_dom in Hin as [n Hn].
  destruct (sem_release_held s pid n Hw Hn Hu) as [Hp H].
  destruct (sem_step_wf s (Release pid) Hw) as [Hw' Hm]. simpl in Hw', Hm.
  destruct (Semaphore.release s pid) as [res s']. simpl in *. destruct H as (-> & Hu' & Hh).
  split_and!; [done|done|lia|done|]. unfold sem_inside. rewrite Hh.
  pose proof (dom_drop_unit (Semaphore.holderCounts s) pid).
  destruct (Semaphore.waitQueue s); rewrite ?dom_add_unit; set_solver.
Qed.

(** ** The critical section *)
Inductive cs_op := Enter (pid : Z) | TryEnter (pid : Z) | Leave (pid : Z).

Section client.
Context {S : Type} `{HS : !ISyncPrimitive S} `{HL : !LawfulSync S}.
Implicit Types (s : S) (pid : Z).

Definition cs_step s (op : cs_op) : Result unit * S :=
  match op with
  | Enter pid => CriticalSection.enter s pid
  | TryEnter pid => CriticalSection.tryEnter s pid
  | Leave pid => CriticalSection.leave s pid
  end.

(** Who is inside, as the answers tell it: a successful entry or a hand-off
    puts a process in, and only those inside leave. *)
Fixpoint cs_run s (ops : list cs_op) : S :=
  match ops with [] => s | op :: ops' => cs_run (cs_step s op).2 ops' end.
Fixpoint cs_polite s (ops : list cs_op) : Prop :=
  match ops with
  | [] => True
  | op :: ops' => match op with Leave pid => pid ∈ inside s | _ => True end ∧ cs_polite (cs_step s op).2 ops'
  end.

Lemma cs_step_wf s op :
  sync_wf s → match op with Leave pid => pid ∈ inside s | _ => True end →
  sync_wf (cs_step s op).2 ∧ capacity (cs_step s op).2 = capacity s.
Proof.
  intros Hw Hp. destruct op as [pid|pid|pid].
  - split; apply (sync_acquire s pid Hw).
  - split; apply (sync_try s pid Hw).
  - split; apply (sync_release s pid Hw Hp).
Qed.

(** Over any lawful primitive, a critical section that is only left by
    processes inside it never holds more processes than the primitive's
    capacity (one, for the default mutex); a successful entry puts the caller
    in, a refused one changes nobody's presence, and leaving always succeeds
    and evicts nobody else. *)
Theorem critical_section_bound s ops :
  sync_wf s → cs_polite s ops →
  let s' := cs_run s ops in
  (size (inside s') ≤ capacity s)%nat ∧
  (∀ pid, inside (CriticalSection.enter s' pid).2 =
     if isOk (CriticalSection.enter s' pid).1 then {[pid]} ∪ inside s' else inside s') ∧
  (∀ pid, pid ∈ inside s' →
     (CriticalSection.leave s' pid).1 = ok tt ∧
     inside s' ∖ {[pid]} ⊆ inside (CriticalSection.leave s' pid).2).
Proof.
  revert s. induction ops as [|op ops IH]; intros s Hw Hp; simpl.
  - split_and!.
    + by apply sync_bound.
    + intros pid. by apply sync_acquire.
    + intros pid Hin. by destruct (sync_release s pid Hw Hin) as (?&?&?&?).
  - destruct Hp as [Hop Hp]. destruct (cs_step_wf s op Hw Hop) as [Hw1 <-]. by apply IH.
Qed.
End client.

Lemma critical_section_bound_witness :
  let ops := [Enter 1; TryEnter 2; Enter 2; Leave 1] in
  cs_polite Mutex.make ops ∧ (size (inside (cs_run Mutex.make ops)) ≤ 1)%nat.
Proof.
  assert (cs_polite Mutex.make [Enter 1; TryEnter 2; Enter 2; Leave 1]) as Hp.
  { split; [exact I|]. split; [exact I|]. split; [exact I|]. split; [|exact I].
    vm_compute. reflexivity. }
  split; [exact Hp|].
  exact (proj1 (critical_section_bound Mutex.make [Enter 1; TryEnter 2; Enter 2; Leave 1] mutex_make_wf Hp)).
Defined.

(** ** Exactly: a fair re-entrant lock, or a fair pool of units

    What callers see of a critical section, without priorities: the default one,
    over a mutex, is a lock with a holder, a depth and a queue; one over a
    semaphore is a pool of units with a queue. *)
Record lock := MkLock { l_holder : option (Z * nat); l_queue : list Z }.
Definition lock_step (l : lock) (op : cs_op) : Result unit * lock :=
  match op, l_holder l with
  | Enter p, h | TryEnter p, h =>
      if decide (p = INVALID_PID) then (error ErrorCode.InvalidPid, l) else
      match h with
      | None => (ok tt, MkLock (Some (p, 1%nat)) (l_queue l))
      | Some (o, d) =>
          if decide (o = p) then (ok tt, MkLock (Some (o, S d)) (l_queue l)) else
          (error ErrorCode.ResourceBusy,
           match op with
           | Enter _ => MkLock h (if decide (p ∈ l_queue l) then l_queue l else l_queue l ++ [p])
           | _ => l
           end)
      end
  | Leave p, None => (error ErrorCode.InvalidState, l)
  | Leave p, Some (o, d) =>
      if decide (o ≠ p) then (error ErrorCode.PermissionDenied, l) else
      (ok tt, match d with
              | 0%nat | 1%nat => MkLock ((λ next, (next, 1%nat)) <$> head (l_queue l)) (tail (l_queue l))
              | S d' => MkLock (Some (o, d')) (l_queue l)
              end)
  end.

Record pool := MkPool { p_free : nat; p_max : nat; p_held : gmap Z nat; p_queue : list Z }.
(** Units by process; a process without a unit has no entry. *)
Definition unit_more (h : gmap Z nat) (p : Z) : gmap Z nat := <[p := S (default 0%nat (h !! p))]> h.
Definition unit_less (h : gmap Z nat) (p : Z) : gmap Z nat :=
  match h !! p with Some (S (S n)) => <[p := S n]> h | _ => delete p h end.
Definition pool_step (l : pool) (op : cs_op) : Result unit * pool :=
  match op with
  | Enter p | TryEnter p =>
      if decide (p = INVALID_PID) then (error ErrorCode.InvalidPid, l) else
      match p_free l with
      | S n => (ok tt, MkPool n (p_max l) (unit_more (p_held l) p) (p_queue l))
      | 0%nat =>
          (error ErrorCode.ResourceBusy,
           match op with
           | Enter _ => MkPool 0 (p_max l) (p_held l) (if decide (p ∈ p_queue l) then p_queue l else p_queue l ++ [p])
           | _ => l
           end)
      end
  | Leave p =>
      if decide (p = INVALID_PID) then (error ErrorCode.InvalidPid, l) else
      match p_queue l with
      | next :: q => (ok tt, MkPool (p_free l) (p_max l) (unit_more (unit_less (p_held l) p) next) q)
      | [] =>
          if decide (p_free l = p_max l)
          then (error ErrorCode.InvalidState, MkPool (p_free l) (p_max l) (unit_less (p_held l) p) [])
          else (ok tt, MkPool (S (p_free l)) (p_max l) (unit_less (p_held l) p) [])
      end
  end.

(** The answers of a sequence of calls, and the state after it. *)
Section answers.
Context {A : Type} (step : A → cs_op → Result unit * A).
Fixpoint answers (s : A) (ops : list cs_op) : list (Result unit) * A :=
  match ops with
  | [] => ([], s)
  | op :: ops' => let '(r, s1) := step s op in let '(rs, s2) := answers s1 ops' in (r :: rs, s2)
  end.
End answers.

Lemma answers_refine {A B} (step : A → cs_op → Result unit * A) (spec : B → cs_op → Result unit * B)
    (wf : A → Prop) (view : A → B) :
  (∀ s op, wf s → wf (step s op).2 ∧ spec (view s) op = ((step s op).1, view (step s op).2)) →
  ∀ ops s, wf s → answers spec (view s) ops = ((answers step s ops).1, view (answers step s ops).2).
Proof.
  intros Hstep. induction ops as [|op ops IH]; intros s Hw; simpl; [done|].
  destruct (Hstep s op Hw) as [Hw1 ->]. destruct (step s op) as [r s1]. simpl in *.
  rewrite (IH s1 Hw1). by destruct (answers step s1 ops).
Qed.

Definition lock_of (m : Mutex.t) : lock :=
  MkLock ((λ o, (o, Mutex.recursionDepth m)) <$> Mutex.owner m) (Mutex.waitQueue m).
Definition pool_of (s : Semaphore.t) : pool :=
  MkPool (Semaphore.count s) (Semaphore.maxCount s) (Semaphore.holderCounts s) (Semaphore.waitQueue s).

Lemma lock_step_refines m op :
  mutex_wf m → mutex_wf (cs_step m op).2 ∧ lock_step (lock_of m) op = ((cs_step m op).1, lock_of (cs_step m op).2).
Proof.
  intros Hw. unfold cs_step, CriticalSection.enter, CriticalSection.tryEnter, CriticalSection.leave, lock_step, lock_of.
  destruct op as [p|p|p]; simpl.
  - case_decide as Hp; [by subst|]. pose proof (acquire_spec m p Hw Hp) as H.
    destruct (Mutex.acquire m p) as [r m']. destruct H as (Hw' & _ & H). split; [done|].
    destruct (Mutex.owner m) as [o|] eqn:Ho; simpl.
    + case_decide; destruct H as (-> & -> & -> & ->); done.
    + destruct H as (-> & -> & -> & ->). by destruct (mw_free _ Hw Ho) as [_ ->].
  - case_decide as Hp; [by subst|]. pose proof (tryAcquire_spec m p Hw Hp) as H.
    destruct (Mutex.tryAcquire m p) as [r m']. destruct H as (Hw' & _ & Hq & H). split; [done|]. simpl. rewrite Hq.
    destruct (Mutex.owner m) as [o|] eqn:Ho; simpl.
    + destruct H as [-> H]. case_decide; destruct H as (-> & ->); done.
    + by destruct H as (-> & -> & ->).
  - destruct (decide (Mutex.owner m = Some p)) as [Ho|Ho].
    + pose proof (release_spec m p Hw Ho) as H. destruct (Mutex.release m p) as [r m'].
      destruct H as (-> & Hw' & _ & H). split; [done|]. rewrite Ho. simpl. rewrite decide_False by tauto.
      destruct (mw_owned _ Hw p Ho) as (_ & Hd & _). case_decide as Hone.
      * destruct H as (-> & -> & ->). rewrite Hone. by destruct (Mutex.waitQueue m).
      * destruct H as (-> & -> & -> & _). by destruct (Mutex.recursionDepth m) as [|[|d]]; [lia|lia|].
    + rewrite release_refused by done. split; [done|]. unfold lock_of. simpl.
      destruct (Mutex.owner m) as [o|]; simpl; [by rewrite decide_True by congruence|done].
Qed.

Lemma unit_less_drop h p : unit_less h p = Semaphore.drop_unit h p.
Proof.
  unfold unit_less, Semaphore.drop_unit. destruct (h !! p) as [[|[|n]]|] eqn:Hp; simpl; try done.
  by apply delete_id.
Qed.

Lemma pool_step_refines `{HO : HashOrder} s op :
  semaphore_wf s → semaphore_wf (cs_step s op).2 ∧ pool_step (pool_of s) op = ((cs_step s op).1, pool_of (cs_step s op).2).
Proof.
  intros Hw. unfold cs_step, CriticalSection.enter, CriticalSection.tryEnter, CriticalSection.leave, pool_step, pool_of.
  destruct op as [p|p|p]; simpl; (case_decide as Hp; [by subst|]).
  - pose proof (sem_acquire_spec s p Hw Hp) as H. destruct (Semaphore.acquire s p) as [r s'].
    destruct H as (Hw' & Hm & _ & H). split; [done|]. simpl. rewrite Hm.
    case_decide as Hc; destruct H as (-> & H1 & -> & ->); [by rewrite Hc, H1|by rewrite H1].
  - pose proof (sem_tryAcquire_spec s p Hw Hp) as H. destruct (Semaphore.tryAcquire s p) as [r s'].
    destruct H as (Hw' & Hm & _ & Hq & H). split; [done|]. simpl. rewrite Hm, Hq.
    case_decide as Hc; destruct H as (-> & H1 & ->); [by rewrite Hc, H1|by rewrite H1].
  - pose proof (sem_release_spec s p Hw Hp) as H. destruct (Semaphore.release s p) as [r s'].
    destruct H as (Hw' & Hm & _ & H). split; [done|]. rewrite unit_less_drop. simpl. rewrite Hm.
    destruct (Semaphore.waitQueue s) as [|next q].
    + destruct H as (-> & -> & H). case_decide; destruct H as (-> & ->); done.
    + by destruct H as (-> & -> & -> & ->).
Qed.

(** C30: a critical section is a fair lock.  Whatever calls are made, answer by
    answer the default critical section is a re-entrant lock: entering a held one
    is refused and queues the caller once, [tryEnter] does not queue, only the
    holder can leave, the last [leave] passes the lock to the first in the queue
    or frees it.  Over a semaphore it is a pool of units: an entry takes a unit or
    queues, a [leave] passes a unit on to the first in the queue, and without a
    queue returns it, refused when all are there. *)
Theorem critical_section_refines (HO : HashOrder) ops initial mx :
  (let '(rs, m) := answers cs_step Mutex.make ops in
   answers lock_step (MkLock None []) ops = (rs, lock_of m)) ∧
  (let '(rs, s) := answers cs_step (Semaphore.make initial mx) ops in
   answers pool_step (MkPool (initial `min` (1 `max` mx)) (1 `max` mx) ∅ []) ops = (rs, pool_of s)).
Proof.
  split.
  - pose proof (answers_refine cs_step lock_step mutex_wf lock_of lock_step_refines ops Mutex.make mutex_make_wf) as H.
    destruct (answers cs_step Mutex.make ops). exact H.
  - pose proof (answers_refine cs_step pool_step semaphore_wf pool_of pool_step_refines ops _ (make_sem initial mx)) as H.
    destruct (answers cs_step (Semaphore.make initial mx) ops). exact H.
Qed.

(** Process 2 queues behind 1 and gets the section when 1 leaves. *)
Example critical_section_answers :
  answers cs_step Mutex.make [Enter 1; TryEnter 2; Enter 2; Leave 2; Leave 1; Leave 2] =
  ([ok tt; error ErrorCode.ResourceBusy; error ErrorCode.ResourceBusy; error ErrorCode.PermissionDenied; ok tt; ok tt],
   (answers cs_step Mutex.make [Enter 1; TryEnter 2; Enter 2; Leave 2; Leave 1; Leave 2]).2).
Proof. vm_compute. reflexivity. Qed.
