(* ===== verification/Deadlock.v ===== *)
(** * Deadlock: [sync/deadlock_detector.cpp]

    The wait-for graph and the lock-order graph, their depth-first searches,
    and the events that maintain them.  The banker's check is in Banker.v. *)
From S2P Require Import Prelude Core.
Local Open Scope Z_scope.

(** ** Depth-first search over hashed adjacency sets

    The two pairs of searches of the source differ only in the type of nodes.
    [None] stands for recursion deeper than the fuel; the lemmas of
    DeadlockProps.v show that the fuel used is enough. *)
Section dfs.
Context `{HO : HashOrder} {K : Type} `{Countable K}.
Notation graph := (gmap K (gset K)).

Definition successors (g : graph) (node : K) : list K :=
  match g !! node with Some out => set_order out | None => [] end.

(** A loop over nodes that stops at the first [true]. *)
Fixpoint any_node {S} (visit : K → S → option (bool * S)) (nodes : list K) (s : S)
    : option (bool * S) :=
  match nodes with
  | [] => Some (false, s)
  | next :: nodes' =>
      let! (found, s1) := visit next s in
      if found : bool then Some (true, s1) else any_node visit nodes' s1
  end.

Record search := MkSearch { visited : gset K; onStack : gset K }.

Fixpoint dfs (fuel : nat) (g : graph) (node : K) (s : search) : option (bool * search) :=
  match fuel with
  | 0%nat => None
  | S fuel' =>
      if decide (node ∈ onStack s) then Some (true, s) else
      if decide (node ∈ visited s) then Some (false, s) else
      let s1 := MkSearch ({[node]} ∪ visited s) ({[node]} ∪ onStack s) in
      let! (found, s2) := any_node (dfs fuel' g) (successors g node) s1 in
      if found : bool then Some (true, s2)
      else Some (false, MkSearch (visited s2) (onStack s2 ∖ {[node]}))
  end.

Definition hasCycle (g : graph) : option bool :=
  let! (found, _) := any_node (dfs (size g + 2) g) (map_order g).*1 (MkSearch ∅ ∅) in
  Some found.

(** The search that collects the nodes of the cycles it closes: [stack] is the
    vector of nodes being visited, pushed at the end. *)
Record collect := MkCollect { cycleSet : gset K; seen : gset K }.

Fixpoint each_node {S} (visit : K → S → option S) (nodes : list K) (s : S) : option S :=
  match nodes with
  | [] => Some s
  | next :: nodes' => let! s1 := visit next s in each_node visit nodes' s1
  end.

(** The stack from the first occurrence of [next] on. *)
Fixpoint from_node (stack : list K) (next : K) : option (list K) :=
  match stack with
  | [] => None
  | x :: stack' => if decide (x = next) then Some (x :: stack') else from_node stack' next
  end.

Fixpoint dfs_collect (fuel : nat) (g : graph) (stack0 : list K) (node : K) (c : collect)
    : option collect :=
  match fuel with
  | 0%nat => None
  | S fuel' =>
      let stack := stack0 ++ [node] in
      each_node
        (λ next c,
          match from_node stack next with
          | Some cyc => Some (MkCollect (list_to_set cyc ∪ cycleSet c) (seen c))
          | None =>
              if decide (next ∈ seen c) then Some c else dfs_collect fuel' g stack next c
          end)
        (successors g node) (MkCollect (cycleSet c) ({[node]} ∪ seen c))
  end.

Definition cycleNodes (g : graph) : option (gset K) :=
  let! c := each_node
              (λ node c, if decide (node ∈ seen c) then Some c
                         else dfs_collect (size g + 2) g [] node c)
              (map_order g).*1 (MkCollect ∅ ∅) in
  Some (cycleSet c).
End dfs.

(** ** The detector *)
Notation node := (Z * Z)%type.

Record detector := MkDetector {
  resourceOwners : gmap Z (gset node);
  waitFor : gmap node (gset node);
  heldInternalLocks : gmap Z (list Z);
  lockOrderGraph : gmap Z (gset Z)
}.
Definition DeadlockDetector_make : detector := MkDetector ∅ ∅ ∅ ∅.

Definition add_edge {K} `{Countable K} (g : gmap K (gset K)) (x y : K) : gmap K (gset K) :=
  <[x := {[y]} ∪ default ∅ (g !! x)]> g.

Definition onAcquire (d : detector) (pid resource threadToken : Z) : detector :=
  if pid =? INVALID_PID then d else
  MkDetector
    (<[resource := {[(pid, threadToken)]} ∪ default ∅ (resourceOwners d !! resource)]> (resourceOwners d))
    (delete (pid, threadToken) (waitFor d)) (heldInternalLocks d) (lockOrderGraph d).

Definition onRelease (d : detector) (pid resource threadToken : Z) : detector :=
  match resourceOwners d !! resource with
  | None => d
  | Some owners =>
      let owners' := owners ∖ {[(pid, threadToken)]} in
      MkDetector
        (if decide (owners' = ∅) then delete resource (resourceOwners d)
         else <[resource := owners']> (resourceOwners d))
        (waitFor d) (heldInternalLocks d) (lockOrderGraph d)
  end.

(** The loop over the owners of the resource waited for. *)
Fixpoint add_waits (g : gmap node (gset node)) (waiting : node) (owners : list node)
    : gmap node (gset node) :=
  match owners with
  | [] => g
  | owner :: owners' =>
      add_waits (if decide (owner = waiting) then g else add_edge g waiting owner) waiting owners'
  end.

Definition onWait `{HO : HashOrder} (d : detector) (pid resource threadToken : Z) : detector :=
  if pid =? INVALID_PID then d else
  let waiting := (pid, threadToken) in
  let cleared := delete waiting (waitFor d) in
  MkDetector (resourceOwners d)
    (match resourceOwners d !! resource with
     | None => cleared
     | Some owners => add_waits cleared waiting (set_order owners)
     end)
    (heldInternalLocks d) (lockOrderGraph d).

Definition hasLockOrderCycle `{HO : HashOrder} (d : detector) : option bool :=
  hasCycle (lockOrderGraph d).
Definition hasDeadlock `{HO : HashOrder} (d : detector) : option bool :=
  let! waits := hasCycle (waitFor d) in
  if waits : bool then Some true else hasLockOrderCycle d.

(** A [std::set] of identifiers, read in ascending order. *)
Definition ascending (s : gset Z) : list Z := merge_sort (≤) (elements s).

Definition getDeadlockedProcesses `{HO : HashOrder} (d : detector) : option (list Z) :=
  let! nodes := cycleNodes (waitFor d) in
  Some (ascending (list_to_set (elements nodes).*1)).

(** Internal locks: every lock held by the thread precedes the new one. *)
Fixpoint add_orders (g : gmap Z (gset Z)) (held : list Z) (lockId : Z) : gmap Z (gset Z) :=
  match held with
  | [] => g
  | heldLock :: held' =>
      add_orders (if heldLock =? lockId then g else add_edge g heldLock lockId) held' lockId
  end.

Definition onInternalLockAcquire (d : detector) (threadToken lockId : Z) : detector :=
  let held := default [] (heldInternalLocks d !! threadToken) in
  MkDetector (resourceOwners d) (waitFor d)
    (<[threadToken := held ++ [lockId]]> (heldInternalLocks d))
    (add_orders (lockOrderGraph d) held lockId).

Fixpoint erase_lock (held : list Z) (lockId : Z) : list Z :=
  match held with
  | [] => []
  | x :: held' => if x =? lockId then held' else x :: erase_lock held' lockId
  end.

Definition onInternalLockRelease (d : detector) (threadToken lockId : Z) : detector :=
  match heldInternalLocks d !! threadToken with
  | None => d
  | Some held =>
      let held' := erase_lock held lockId in
      MkDetector (resourceOwners d) (waitFor d)
        (match held' with
         | [] => delete threadToken (heldInternalLocks d)
         | _ => <[threadToken := held']> (heldInternalLocks d)
         end)
        (lockOrderGraph d)
  end.

Definition lockOrderCycleNodes `{HO : HashOrder} (d : detector) : option (list Z) :=
  let! locks := cycleNodes (lockOrderGraph d) in Some (ascending locks).
Definition hasInternalLockOrderCycle `{HO : HashOrder} (d : detector) : option bool :=
  hasLockOrderCycle d.
Definition getInternalLockOrderCycle `{HO : HashOrder} (d : detector) : option (list Z) :=
  lockOrderCycleNodes d.
