(* ===== verification/DeadlockProps.v ===== *)
(** * DeadlockProps: the searches decide cyclicity *)
From S2P Require Import Prelude Core Deadlock.
From stdpp Require Import relations.
Local Open Scope Z_scope.

Section graph.
Context `{HO : HashOrder} {K : Type} `{Countable K}.
Notation graph := (gmap K (gset K)).
Implicit Types (g : graph) (x y node : K) (V S : gset K).

Definition edge g x y : Prop := ∃ out, g !! x = Some out ∧ y ∈ out.
Definition on_cycle g x : Prop := tc (edge g) x x.

Lemma elem_of_successors g x y : y ∈ successors g x ↔ edge g x y.
Proof.
  unfold successors, edge. destruct (g !! x) as [out|] eqn:E.
  - rewrite elem_of_set_order. naive_solver.
  - split; [set_solver|]. naive_solver.
Qed.

(** Finished nodes: closed under edges, and on no cycle. *)
Definition finished g (B : gset K) : Prop :=
  (∀ x y, x ∈ B → edge g x y → y ∈ B) ∧ ∀ x, x ∈ B → ¬ on_cycle g x.

Lemma finished_tc g B x y : finished g B → x ∈ B → tc (edge g) x y → y ∈ B.
Proof. intros [Hc _] Hx Ht. induction Ht as [x y He|x y z He _ IH]; eauto. Qed.

(** A node whose successors are all finished is finished, unless it was. *)
Lemma finished_add g B node :
  finished g B → node ∉ B → (∀ y, edge g node y → y ∈ B) → finished g ({[node]} ∪ B).
Proof.
  intros Hf Hn Hs. pose proof Hf as [Hc Ha].
  assert (∀ x, x = node ∨ x ∈ B → ∀ y, edge g x y → y ∈ B) as Hout by naive_solver.
  split.
  - intros x y Hx He. apply elem_of_union_r. apply (Hout x); [set_solver|done].
  - intros x Hx Hcyc. apply elem_of_union in Hx as [->%elem_of_singleton|Hx]; [|by eapply Ha].
    apply Hn. inversion Hcyc as [? ? He|? y ? He Ht]; subst; [by apply Hs|].
    eapply finished_tc; [done|by apply Hs|done].
Qed.

(** Everything on the stack reaches the node about to be visited. *)
Definition reaches g (S : gset K) node : Prop := ∀ x, x ∈ S → tc (edge g) x node.

Lemma reaches_push g S node y :
  reaches g S node → edge g node y → reaches g ({[node]} ∪ S) y.
Proof.
  intros Hr He x [->%elem_of_singleton|Hx]%elem_of_union; [by apply tc_once|].
  eapply tc_r; [by apply Hr|done].
Qed.

(** The contract of a visit: it answers [true] only on a cyclic graph, and
    otherwise restores the stack and finishes the node. *)
Definition visit_ok g S (s : search) (r : option (bool * search)) (nodes : list K) : Prop :=
  ∃ b s', r = Some (b, s') ∧
    if b : bool then ∃ x, on_cycle g x
    else onStack s' = S ∧ visited s ⊆ visited s' ∧ finished g (visited s' ∖ S) ∧
         ∀ y, y ∈ nodes → y ∈ visited s' ∖ S.

Definition todo g V : nat := size (dom g ∖ V).
Lemma todo_le g V V' : V ⊆ V' → (todo g V' ≤ todo g V)%nat.
Proof. intros. apply subseteq_size. set_solver. Qed.
Lemma todo_lt g V node : is_Some (g !! node) → node ∉ V → (todo g ({[node]} ∪ V) < todo g V)%nat.
Proof. intros Hi Hn. apply subset_size. split; [set_solver|]. intros Hs. apply elem_of_dom in Hi. set_solver. Qed.

(** Pushing a fresh node leaves the finished ones, popping it adds it. *)
Lemma black_push (V S : gset K) node : node ∉ V → ({[node]} ∪ V) ∖ ({[node]} ∪ S) = V ∖ S.
Proof. intros Hn. apply set_eq. intros x. destruct (decide (x = node)) as [->|]; set_solver. Qed.
Lemma black_pop (V S : gset K) node :
  node ∈ V → node ∉ S → V ∖ S = {[node]} ∪ V ∖ ({[node]} ∪ S).
Proof. intros ??. apply set_eq. intros x. destruct (decide (x = node)) as [->|]; set_solver. Qed.
Lemma stack_pop (S : gset K) node : node ∉ S → ({[node]} ∪ S) ∖ {[node]} = S.
Proof. intros ?. apply set_eq. intros x. destruct (decide (x = node)) as [->|]; set_solver. Qed.

(** A state of the search, about to visit nodes below the stack [S]. *)
Record search_ok g S (s : search) (n : nat) : Prop := {
  so_stack : onStack s = S;
  so_seen : S ⊆ visited s;
  so_finished : finished g (visited s ∖ S);
  so_fuel : (todo g (visited s) < n)%nat
}.

Lemma visit_next g S (s s1 : search) n y :
  search_ok g S s n → onStack s1 = S → visited s ⊆ visited s1 → finished g (visited s1 ∖ S) →
  search_ok g S s1 n.
Proof.
  intros [H1 H2 H3 H4] ???. split; try done; [by etrans|].
  eapply Nat.le_lt_trans; [by apply todo_le|done].
Qed.

Lemma any_node_ok g S (visit : K → search → option (bool * search)) (nodes : list K) (s : search) n :
  (∀ y s0, y ∈ nodes → search_ok g S s0 n → visit_ok g S s0 (visit y s0) [y]) →
  search_ok g S s n → visit_ok g S s (any_node visit nodes s) nodes.
Proof.
  intros Hv. revert s. induction nodes as [|y nodes IH]; intros s Hs; simpl.
  { exists false, s. split; [done|]. split_and!; [apply Hs|done|apply Hs|]. intros y Hy. by apply elem_of_nil in Hy. }
  destruct (Hv y s) as (b & s1 & -> & Hb); [by left|done|]. destruct b; [by exists true, s1|].
  destruct Hb as (Hs1 & Hsub & Hf1 & Hy).
  destruct (IH ltac:(intros; apply Hv; [by right|done]) s1) as (b & s2 & -> & Hb).
  { by eapply visit_next. }
  exists b, s2. split; [done|]. destruct b; [done|]. destruct Hb as (Hs2 & Hsub2 & Hf2 & Hrest).
  split_and!; try done; [by etrans|]. intros z [->|Hz]%elem_of_cons; [|by apply Hrest].
  specialize (Hy y ltac:(by left)). apply elem_of_difference in Hy as [Hy1 Hy2].
  apply elem_of_difference. split; [by apply Hsub2|done].
Qed.

Lemma dfs_ok fuel g S node s :
  search_ok g S s fuel → reaches g S node → visit_ok g S s (dfs (Datatypes.S fuel) g node s) [node].
Proof.
  revert S node s. induction fuel as [|fuel IH]; intros S node s [Hst Hsub Hf Hfuel] Hr; [lia|].
  cbn [dfs]. rewrite Hst. destruct (decide (node ∈ S)) as [Hin|Hout].
  { exists true, s. split; [done|]. exists node. by apply Hr. }
  destruct (decide (node ∈ visited s)) as [Hvis|Hnew].
  { exists false, s. split; [done|]. split_and!; try done.
    intros y ->%list_elem_of_singleton. by apply elem_of_difference. }
  set (s1 := MkSearch _ _).
  assert (visit_ok g ({[node]} ∪ S) s1 (any_node (dfs (Datatypes.S fuel) g) (successors g node) s1)
    (successors g node)) as (b & s2 & E & Hb).
  { destruct (g !! node) as [out|] eqn:Eg.
    - apply (any_node_ok _ _ _ _ _ fuel).
      + intros y s0 Hy Hs0. apply IH; [done|]. apply reaches_push; [done|]. by apply elem_of_successors.
      + split; simpl; [done|set_solver|by rewrite black_push|].
        pose proof (todo_lt g (visited s) node ltac:(by eexists) Hnew). lia.
    - unfold successors. rewrite Eg. exists false, s1. split; [done|]. split_and!; try done.
      + simpl. by rewrite black_push.
      + intros y Hy. by apply elem_of_nil in Hy. }
  cbn [dfs] in E. rewrite E. destruct b; [by exists true, s2|].
  destruct Hb as (Hs2 & Hsub2 & Hf2 & Hall). simpl in Hsub2.
  eexists false, _. split; [done|]. simpl. rewrite Hs2. split_and!.
  - by apply stack_pop.
  - set_solver.
  - rewrite (black_pop _ S node) by set_solver. apply finished_add; [done|set_solver|].
    intros y Hy. by apply Hall, elem_of_successors.
  - intros y ->%list_elem_of_singleton. apply elem_of_difference. set_solver.
Qed.

Lemma finished_empty g : finished g ∅.
Proof. split; set_solver. Qed.

(** When every node with an edge is finished the graph is acyclic. *)
Lemma finished_acyclic g (B : gset K) x : finished g B → (∀ y, y ∈ dom g → y ∈ B) → ¬ on_cycle g x.
Proof.
  intros [_ Ha] Hd Hc. apply (Ha x); [|done]. apply Hd, elem_of_dom.
  inversion Hc as [? ? (out & Ho & _)|? ? ? (out & Ho & _)]; by exists out.
Qed.

Lemma hasCycle_spec g : ∃ b, hasCycle g = Some b ∧ (b = true ↔ ∃ x, on_cycle g x).
Proof.
  unfold hasCycle. rewrite Nat.add_comm. cbn [Nat.add].
  destruct (any_node_ok g ∅ (dfs (S (S (size g))) g) (map_order g).*1 (MkSearch ∅ ∅) (S (size g)))
    as (b & s' & -> & Hb).
  - intros y s0 _ Hs0. apply dfs_ok; [done|]. intros x. set_solver.
  - split; simpl; [done|set_solver| |].
    + rewrite difference_empty_L. apply finished_empty.
    + unfold todo. rewrite difference_empty_L, size_dom. lia.
  - exists b. split; [done|]. destruct b; [done|]. split; [done|]. intros [x Hx]. exfalso.
    destruct Hb as (_ & _ & Hf & Hall). rewrite difference_empty_L in Hf, Hall.
    eapply (finished_acyclic g); [done| |done]. intros y [out Hy]%elem_of_dom. apply Hall.
    apply list_elem_of_fmap. exists (y, out). split; [done|]. by apply elem_of_map_order.
Qed.

(** ** Collecting the nodes of cycles *)

(** The stack is a path of the graph, oldest node first. *)
Definition stacked g (l : list K) : Prop :=
  ∀ (i : nat) x y, l !! i = Some x → l !! S i = Some y → edge g x y.

Lemma stacked_rtc g l (i j : nat) x y :
  stacked g l → (i ≤ j)%nat → l !! i = Some x → l !! j = Some y → rtc (edge g) x y.
Proof.
  intros Hl Hij Hx. revert y. induction j as [|j IH]; intros y Hy.
  { assert (i = 0%nat) as -> by lia. simplify_eq. apply rtc_refl. }
  destruct (decide (i = S j)) as [->|Hne]; [simplify_eq; apply rtc_refl|].
  destruct (lookup_lt_is_Some_2 l j) as [z Hz]; [apply lookup_lt_Some in Hy; lia|].
  eapply rtc_r; [by apply IH; [lia|]|by eapply Hl].
Qed.

Lemma stacked_snoc g l x y : stacked g (l ++ [x]) → edge g x y → stacked g ((l ++ [x]) ++ [y]).
Proof.
  intros Hl He i a b Ha Hb. destruct (decide (S i = length (l ++ [x]))) as [E|Hne].
  - rewrite lookup_app_r in Hb by lia. replace (S i - length (l ++ [x]))%nat with 0%nat in Hb by lia. simplify_eq/=.
    rewrite length_app in E. simpl in E. assert (i = length l) as -> by lia.
    rewrite lookup_app_l in Ha by (rewrite length_app; simpl; lia). rewrite lookup_app_r in Ha by lia.
    rewrite Nat.sub_diag in Ha. by simplify_eq/=.
  - pose proof (lookup_lt_Some _ _ _ Hb) as Hlt. rewrite (length_app (l ++ [x])) in Hlt. simpl in Hlt.
    rewrite lookup_app_l in Ha by lia. rewrite lookup_app_l in Hb by lia. by eapply Hl.
Qed.

Lemma from_node_Some (stack : list K) next cyc :
  from_node stack next = Some cyc → ∃ pre post, stack = pre ++ cyc ∧ cyc = next :: post.
Proof.
  induction stack as [|x stack IH]; simpl; [done|]. case_decide as E.
  - intros [= <-]. subst x. exists [], stack. done.
  - intros Hc. destruct (IH Hc) as (pre & post & -> & ->). by exists (x :: pre), post.
Qed.
Lemma from_node_None (stack : list K) next : from_node stack next = None → next ∉ stack.
Proof. induction stack as [|x stack IH]; simpl; [set_solver|]. case_decide; [done|]. set_solver. Qed.

(** The part of the stack an edge back closes lies on a cycle. *)
Lemma back_edge_cycle g stack node next cyc x :
  stacked g (stack ++ [node]) → edge g node next →
  from_node (stack ++ [node]) next = Some cyc → x ∈ cyc → on_cycle g x.
Proof.
  intros Hs He Hf Hx. destruct (from_node_Some _ _ _ Hf) as (pre & post & E & ->).
  apply list_elem_of_lookup in Hx as [j Hj].
  assert ((stack ++ [node]) !! length pre = Some next) as Hn.
  { rewrite E. rewrite lookup_app_r by lia. by rewrite Nat.sub_diag. }
  assert ((stack ++ [node]) !! (length pre + j)%nat = Some x) as Hxj.
  { rewrite E. rewrite lookup_app_r by lia. replace (length pre + j - length pre)%nat with j by lia. done. }
  assert ((stack ++ [node]) !! length stack = Some node) as Ht.
  { rewrite lookup_app_r by lia. by rewrite Nat.sub_diag. }
  pose proof (lookup_lt_Some _ _ _ Hxj) as Hlt. rewrite length_app in Hlt. simpl in Hlt.
  unfold on_cycle. eapply tc_rtc_l.
  { apply (stacked_rtc g _ _ _ _ _ Hs) with (2 := Hxj) (3 := Ht). lia. }
  eapply tc_rtc_r; [by apply tc_once|].
  apply (stacked_rtc g _ _ _ _ _ Hs) with (2 := Hn) (3 := Hxj). lia.
Qed.

Record collect_pre g S (c : collect) (n : nat) : Prop := {
  cp_seen : S ⊆ seen c;
  cp_finished : cycleSet c = ∅ → finished g (seen c ∖ S);
  cp_fuel : (todo g (seen c) < n)%nat
}.
Definition collect_ok g S (c : collect) (r : option collect) (nodes : list K) : Prop :=
  ∃ c', r = Some c' ∧ seen c ⊆ seen c' ∧ cycleSet c ⊆ cycleSet c' ∧
    (∀ x, x ∈ cycleSet c' → x ∈ cycleSet c ∨ on_cycle g x) ∧
    (cycleSet c' = ∅ → finished g (seen c' ∖ S) ∧ ∀ y, y ∈ nodes → y ∈ seen c' ∖ S).

Lemma each_node_ok g S (visit : K → collect → option collect) (nodes : list K) (c : collect) n :
  (∀ y c0, y ∈ nodes → collect_pre g S c0 n → collect_ok g S c0 (visit y c0) [y]) →
  collect_pre g S c n → collect_ok g S c (each_node visit nodes c) nodes.
Proof.
  intros Hv. revert c. induction nodes as [|y nodes IH]; intros c Hc; simpl.
  { exists c. split_and!; try done; [by left|]. intros He. split; [by apply Hc|].
    intros y Hy. by apply elem_of_nil in Hy. }
  destruct (Hv y c) as (c1 & -> & Hsub1 & Hcyc1 & Hin1 & Hf1); [by left|done|].
  assert (collect_pre g S c1 n) as Hc1.
  { destruct Hc as [H1 H2 H3]. split; [by etrans|intros He; by apply Hf1|].
    eapply Nat.le_lt_trans; [by apply todo_le|done]. }
  destruct (IH ltac:(intros; apply Hv; [by right|done]) c1 Hc1) as (c2 & -> & Hsub2 & Hcyc2 & Hin2 & Hf2).
  exists c2. split; [done|]. split; [by etrans|]. split; [by etrans|]. split.
  - intros x Hx. destruct (Hin2 x Hx) as [Hx1|]; [|by right]. by apply Hin1.
  - intros He. destruct (Hf2 He) as [Hf Hall]. split; [done|].
    assert (cycleSet c1 = ∅) as He1 by (apply equiv_empty_L; by rewrite <-He). destruct (Hf1 He1) as [_ Hy].
    intros z [->|Hz]%elem_of_cons; [|by apply Hall].
    specialize (Hy y ltac:(by left)). apply elem_of_difference in Hy as [Hy1 Hy2].
    apply elem_of_difference. split; [by apply Hsub2|done].
Qed.

Lemma dfs_collect_ok fuel g stack node (c : collect) :
  collect_pre g (list_to_set stack) c fuel → node ∉ seen c → stacked g (stack ++ [node]) →
  collect_ok g (list_to_set stack) c (dfs_collect (S fuel) g stack node c) [node].
Proof.
  revert stack node c. induction fuel as [|fuel IH]; intros stack node c Hc Hnew Hst; [destruct Hc; lia|].
  pose proof Hc as [Hsub Hf Hfuel]. set (S0 := list_to_set stack : gset K) in *.
  assert (list_to_set (stack ++ [node]) = {[node]} ∪ S0) as HS.
  { unfold S0. rewrite list_to_set_app_L. simpl. set_solver. }
  assert (node ∉ S0) as Hout by set_solver.
  set (c1 := MkCollect (cycleSet c) ({[node]} ∪ seen c)).
  assert (collect_ok g ({[node]} ∪ S0) c1 (dfs_collect (S (S fuel)) g stack node c) (successors g node))
    as (c2 & -> & Hsub2 & Hcyc2 & Hin2 & Hf2).
  { cbn [dfs_collect]. fold c1. rewrite <-HS. destruct (g !! node) as [out|] eqn:Eg.
    2: { unfold successors. rewrite Eg. exists c1. split_and!; try done; [by left|]. intros He. split.
      - rewrite HS. simpl. rewrite black_push by done. by apply Hf.
      - intros y Hy. by apply elem_of_nil in Hy. }
    apply (each_node_ok _ _ _ _ _ fuel).
    - intros y c0 Hy%elem_of_successors Hc0. destruct (from_node (stack ++ [node]) y) as [cyc|] eqn:Ef.
      + eexists. split; [done|]. simpl. split_and!; [done|set_solver| |].
        * intros x [Hx|Hx]%elem_of_union; [right|by left]. apply elem_of_list_to_set in Hx.
          by eapply back_edge_cycle.
        * intros He. exfalso. destruct (from_node_Some _ _ _ Ef) as (pre & post & _ & ->). set_solver.
      + apply from_node_None in Ef. case_decide as Hseen.
        * exists c0. split_and!; try done; [by left|]. intros He. split; [by apply Hc0|].
          intros z ->%list_elem_of_singleton. apply elem_of_difference. split; [done|].
          by rewrite elem_of_list_to_set.
        * apply IH; [done|done|]. by apply stacked_snoc.
    - split; simpl; [rewrite HS; set_solver| |].
      + intros He. rewrite HS, black_push by done. by apply Hf.
      + pose proof (todo_lt g (seen c) node ltac:(by eexists) Hnew). lia. }
  simpl in Hsub2, Hcyc2, Hin2. exists c2. split; [done|]. split; [set_solver|]. split; [done|]. split; [done|].
  intros He. destruct (Hf2 He) as [Hfin Hall]. split.
  - rewrite (black_pop _ S0 node) by set_solver. apply finished_add; [done|set_solver|].
    intros y Hy. by apply Hall, elem_of_successors.
  - intros y ->%list_elem_of_singleton. apply elem_of_difference. set_solver.
Qed.

Lemma cycleNodes_spec g :
  ∃ ns, cycleNodes g = Some ns ∧ (∀ x, x ∈ ns → on_cycle g x) ∧ (ns ≠ ∅ ↔ ∃ x, on_cycle g x).
Proof.
  unfold cycleNodes. rewrite Nat.add_comm. cbn [Nat.add].
  destruct (each_node_ok g ∅ (λ node c, if decide (node ∈ seen c) then Some c
      else dfs_collect (S (S (size g))) g [] node c) (map_order g).*1 (MkCollect ∅ ∅) (S (size g)))
    as (c & -> & _ & _ & Hin & Hf).
  - intros y c0 _ Hc0. case_decide as Hseen.
    + exists c0. split_and!; try done; [by left|]. intros He. split; [by apply Hc0|].
      intros z ->%list_elem_of_singleton. set_solver.
    + apply (dfs_collect_ok _ _ []); [done|done|]. intros i x z. by destruct i.
  - split; simpl; [set_solver| |].
    + intros _. rewrite difference_empty_L. apply finished_empty.
    + unfold todo. rewrite difference_empty_L, size_dom. lia.
  - simpl in Hin. exists (cycleSet c). split; [done|].
    assert (∀ x, x ∈ cycleSet c → on_cycle g x) as Hs by (intros x Hx; destruct (Hin x Hx); [set_solver|done]).
    split; [done|]. split.
    + intros Hne. apply set_choose_L in Hne as [x Hx]. exists x. by apply Hs.
    + intros [x Hx] He. destruct (Hf He) as [Hfin Hall]. rewrite difference_empty_L in Hfin, Hall.
      eapply (finished_acyclic g); [done| |done]. intros y [out Hy]%elem_of_dom. apply Hall.
      apply list_elem_of_fmap. exists (y, out). split; [done|]. by apply elem_of_map_order.
Qed.
End graph.
