(* ===== verification/DeadlockTheorems.v ===== *)
(** * DeadlockTheorems: what the detector answers *)
From S2P Require Import Prelude Core Deadlock DeadlockProps.
From stdpp Require Import relations sorting.
Local Open Scope Z_scope.

Lemma elem_of_ascending (s : gset Z) x : x ∈ ascending s ↔ x ∈ s.
Proof. unfold ascending. by rewrite merge_sort_Permutation, elem_of_elements. Qed.

Lemma edge_add_edge {K} `{Countable K} (g : gmap K (gset K)) (a b x y : K) :
  edge (add_edge g a b) x y ↔ x = a ∧ y = b ∨ edge g x y.
Proof.
  unfold edge, add_edge. destruct (decide (x = a)) as [->|Hne].
  - split.
    + intros (out & Ho & Hy). rewrite lookup_insert_eq in Ho. injection Ho as <-.
      destruct (g !! a) as [old|] eqn:E; simpl in Hy; [|set_solver].
      apply elem_of_union in Hy as [->%elem_of_singleton|Hy]; [by left|right; by exists old].
    + intros [[_ ->]|(old & Ho & Hy)]; eexists; rewrite lookup_insert_eq; (split; [done|]); [set_solver|].
      rewrite Ho. simpl. set_solver.
  - rewrite lookup_insert_ne by done. naive_solver.
Qed.

Lemma edge_add_waits (g : gmap node (gset node)) (w : node) owners x y :
  edge (add_waits g w owners) x y ↔ x = w ∧ y ∈ owners ∧ y ≠ w ∨ edge g x y.
Proof.
  revert g. induction owners as [|o owners IH]; intros g; simpl; [set_solver|].
  rewrite IH, elem_of_cons. case_decide as E; [|rewrite edge_add_edge]; naive_solver.
Qed.

Lemma edge_add_orders (g : gmap Z (gset Z)) held l x y :
  edge (add_orders g held l) x y ↔ y = l ∧ x ∈ held ∧ x ≠ l ∨ edge g x y.
Proof.
  revert g. induction held as [|o held IH]; intros g; simpl; [set_solver|].
  rewrite IH, elem_of_cons. destruct (Z.eqb_spec o l); [|rewrite edge_add_edge]; naive_solver.
Qed.

Lemma edge_delete {K} `{Countable K} (g : gmap K (gset K)) (a x y : K) :
  edge (delete a g) x y ↔ x ≠ a ∧ edge g x y.
Proof.
  unfold edge. destruct (decide (x = a)) as [->|Hne].
  - rewrite lookup_delete_eq. naive_solver.
  - rewrite lookup_delete_ne by done. naive_solver.
Qed.

(** C31: deadlock detection is exact and total.  [hasDeadlock] terminates and
    answers whether the wait-for graph or the lock-order graph has a cycle,
    whatever order the hash sets are iterated in; the processes reported are in
    ascending order, all wait on a cycle, and some are reported exactly when
    the wait-for graph has one. *)
Theorem has_deadlock_exact (HO : HashOrder) (d : detector) :
  ∃ b l, hasDeadlock d = Some b ∧ getDeadlockedProcesses d = Some l ∧
    (b = true ↔ (∃ n, on_cycle (waitFor d) n) ∨ ∃ r, on_cycle (lockOrderGraph d) r) ∧
    (∀ p, p ∈ l → ∃ token, on_cycle (waitFor d) (p, token)) ∧
    (l ≠ [] ↔ ∃ n, on_cycle (waitFor d) n) ∧ StronglySorted Z.le l.
Proof.
  unfold hasDeadlock, hasLockOrderCycle, getDeadlockedProcesses.
  destruct (hasCycle_spec (waitFor d)) as (b1 & -> & H1).
  destruct (hasCycle_spec (lockOrderGraph d)) as (b2 & -> & H2).
  destruct (cycleNodes_spec (waitFor d)) as (ns & -> & H3 & H4).
  exists (if b1 then true else b2), (ascending (list_to_set (elements ns).*1)). split; [by destruct b1|].
  assert (∀ p, p ∈ ascending (list_to_set (elements ns).*1) ↔ ∃ token, (p, token) ∈ ns) as Hp.
  { intros p. rewrite elem_of_ascending, elem_of_list_to_set, list_elem_of_fmap. split.
    - intros ([p' tk] & -> & Hin%elem_of_elements). by exists tk.
    - intros [tk Hin]. exists (p, tk). split; [done|]. by apply elem_of_elements. }
  split_and!.
  - done.
  - destruct b1; naive_solver.
  - intros p Hin. apply Hp in Hin as [tk Hin]. exists tk. by apply H3.
  - rewrite <-H4. split.
    + intros Hne ->. destruct (ascending _) as [|p l] eqn:E; [done|].
      destruct (proj1 (Hp p) ltac:(by left)) as [tk Htk]. by apply elem_of_empty in Htk.
    + intros Hne E. apply set_choose_L in Hne as [[p tk] Hin]. rewrite E in Hp.
      apply (not_elem_of_nil p). apply Hp. by exists tk.
  - unfold ascending. apply (StronglySorted_merge_sort Z.le).
Qed.

(** the wait-for edges.  Waiting for a resource replaces all of the waiter's
    edges by edges to the resource's current owners other than itself, and
    acquiring one removes them; no other node's edges change, and releasing
    changes no edge at all. *)
Theorem wait_edges (HO : HashOrder) (d : detector) pid resource token x y :
  let w := (pid, token) in pid ≠ INVALID_PID →
  (edge (waitFor (onWait d pid resource token)) x y ↔
     if decide (x = w)
     then y ≠ w ∧ ∃ owners, resourceOwners d !! resource = Some owners ∧ y ∈ owners
     else edge (waitFor d) x y) ∧
  (edge (waitFor (onAcquire d pid resource token)) x y ↔ x ≠ w ∧ edge (waitFor d) x y) ∧
  (∃ owners, resourceOwners (onAcquire d pid resource token) !! resource = Some owners ∧ w ∈ owners) ∧
  (edge (waitFor (onRelease d pid resource token)) x y ↔ edge (waitFor d) x y).
Proof.
  intros w Hp. unfold onWait, onAcquire. destruct (Z.eqb_spec pid INVALID_PID); [done|].
  cbn [waitFor resourceOwners]. fold w. split; [|split; [|split]].
  - destruct (resourceOwners d !! resource) as [owners|].
    + rewrite edge_add_waits, edge_delete, elem_of_set_order. case_decide; naive_solver.
    + rewrite edge_delete. case_decide; naive_solver.
  - apply edge_delete.
  - eexists. rewrite lookup_insert_eq. split; [done|]. set_solver.
  - unfold onRelease. by destruct (resourceOwners d !! resource).
Qed.

Lemma wait_edges_witness :
  7 ≠ INVALID_PID ∧
  (edge (waitFor (onWait (HO:=canonical_order) (onAcquire DeadlockDetector_make 1 5 0) 7 5 0)) (7, 0) (1, 0)).
Proof.
  assert (7 ≠ INVALID_PID) as Hp by discriminate. split; [exact Hp|].
  apply (wait_edges canonical_order (onAcquire DeadlockDetector_make 1 5 0) 7 5 0 (7, 0) (1, 0) Hp).
  rewrite decide_True by reflexivity. split; [discriminate|].
  exists {[(1, 0)]}. split; [vm_compute; reflexivity|]. by apply elem_of_singleton.
Defined.

(** ** Lock order *)
Inductive lock_event := LockAcquire (token lock : Z) | LockRelease (token lock : Z).
Definition lock_step (d : detector) (e : lock_event) : detector :=
  match e with
  | LockAcquire t l => onInternalLockAcquire d t l
  | LockRelease t l => onInternalLockRelease d t l
  end.
Fixpoint lock_run (d : detector) (es : list lock_event) : detector :=
  match es with [] => d | e :: es' => lock_run (lock_step d e) es' end.
Definition held_by (d : detector) (token : Z) : list Z := default [] (heldInternalLocks d !! token).

(** A hierarchy: every lock is taken above those its thread already holds. *)
Fixpoint hierarchical (d : detector) (es : list lock_event) : Prop :=
  match es with
  | [] => True
  | e :: es' =>
      match e with
      | LockAcquire t l => Forall (λ h, h ≤ l) (held_by d t)
      | LockRelease _ _ => True
      end ∧ hierarchical (lock_step d e) es'
  end.

Lemma lock_edge_step d e x y :
  edge (lockOrderGraph (lock_step d e)) x y ↔
    edge (lockOrderGraph d) x y ∨
    ∃ t, e = LockAcquire t y ∧ x ∈ held_by d t ∧ x ≠ y.
Proof.
  destruct e as [t l|t l]; simpl.
  - rewrite edge_add_orders. unfold held_by. naive_solver.
  - unfold onInternalLockRelease. destruct (heldInternalLocks d !! t); simpl; naive_solver.
Qed.

Lemma lock_run_edge es d x y :
  edge (lockOrderGraph (lock_run d es)) x y ↔
    edge (lockOrderGraph d) x y ∨
    ∃ es1 t es2, es = es1 ++ LockAcquire t y :: es2 ∧ x ∈ held_by (lock_run d es1) t ∧ x ≠ y.
Proof.
  revert d. induction es as [|e es IH]; intros d; simpl.
  { split; [by left|]. intros [?|([|? ?] & t & es2 & [=] & _)]; done. }
  rewrite IH, lock_edge_step. split.
  - intros [[?|(t & -> & ?)]|(es1 & t & es2 & -> & ?)]; [by left|right|right].
    + by exists [], t, es.
    + by exists (e :: es1), t, es2.
  - intros [?|([|e' es1] & t & es2 & [= -> ->] & ?)]; [by left; left|left; right; by exists t|right].
    by exists es1, t, es2.
Qed.

(** The lock-order graph is the history.  After any sequence of internal
    lock events there is an edge from [x] to [y] exactly when some thread
    acquired [y] while holding [x]; and threads that follow a lock hierarchy are
    never reported, whatever their interleaving. *)
Theorem lock_order_history (HO : HashOrder) es :
  let d := lock_run DeadlockDetector_make es in
  (∀ x y, edge (lockOrderGraph d) x y ↔
     ∃ es1 t es2, es = es1 ++ LockAcquire t y :: es2 ∧ x ≠ y ∧
       x ∈ held_by (lock_run DeadlockDetector_make es1) t) ∧
  (hierarchical DeadlockDetector_make es → hasInternalLockOrderCycle d = Some false ∧
     getInternalLockOrderCycle d = Some []).
Proof.
  intros d. split.
  - intros x y. unfold d. rewrite lock_run_edge. split.
    + intros [(out & Ho & _)|(es1 & t & es2 & ? & ? & ?)]; [done|]. by exists es1, t, es2.
    + intros (es1 & t & es2 & ? & ? & ?). right. by exists es1, t, es2.
  - intros Hh.
    assert (∀ es d, hierarchical d es → (∀ x y, edge (lockOrderGraph d) x y → x < y) →
      ∀ x y, edge (lockOrderGraph (lock_run d es)) x y → x < y) as Hinc.
    { clear. induction es as [|e es IH]; intros d Hh Hd; [done|]. destruct Hh as [He Hh]. simpl.
      apply IH; [done|]. intros x y [?|(t & -> & Hx & Hne)]%lock_edge_step; [by apply Hd|].
      rewrite Forall_forall in He. specialize (He x Hx). lia. }
    assert (∀ x y, tc (edge (lockOrderGraph d)) x y → x < y) as Htc.
    { intros x y Ht. assert (∀ x y, edge (lockOrderGraph d) x y → x < y) as Hd.
      { apply Hinc; [done|]. intros a b (out & Ho & _). done. }
      induction Ht as [x y He|x y z He _ IH]; [by apply Hd|]. specialize (Hd x y He). lia. }
    assert (¬ ∃ x, on_cycle (lockOrderGraph d) x) as Hno by (intros [x Hx%Htc]; lia).
    unfold hasInternalLockOrderCycle, getInternalLockOrderCycle, hasLockOrderCycle, lockOrderCycleNodes.
    destruct (hasCycle_spec (lockOrderGraph d)) as (b & -> & Hb).
    destruct (cycleNodes_spec (lockOrderGraph d)) as (ns & -> & _ & Hns).
    assert (ns = ∅) as ->.
    { destruct (decide (ns = ∅)) as [|Hne]; [done|]. exfalso. by apply Hno, Hns. }
    split; [|done]. f_equal. destruct b; [|done]. exfalso. apply Hno. by apply Hb.
Qed.

Lemma lock_order_history_witness :
  let es := [LockAcquire 1 10; LockAcquire 2 20; LockAcquire 1 30; LockRelease 1 30; LockAcquire 2 40] in
  hierarchical DeadlockDetector_make es ∧
  hasInternalLockOrderCycle (HO:=canonical_order) (lock_run DeadlockDetector_make es) = Some false.
Proof.
  set (es := [_; _; _; _; _]).
  assert (hierarchical DeadlockDetector_make es) as Hh.
  { repeat first [exact I | split | apply Forall_nil_2 | apply Forall_cons_2]; vm_compute; discriminate. }
  split; [exact Hh|]. exact (proj1 (proj2 (lock_order_history canonical_order es) Hh)).
Defined.

(** A release leaves the edges of those who waited for the resource: process 2
    waits for a lock that 1 has released, 1 waits for 2's, and a deadlock is
    reported. *)
Example stale_edge_deadlock :
  let d := onAcquire DeadlockDetector_make 1 10 0 in
  let d := onAcquire d 2 20 0 in
  let d := onWait (HO:=canonical_order) d 2 10 0 in
  let d := onRelease d 1 10 0 in
  let d := onWait (HO:=canonical_order) d 1 20 0 in
  resourceOwners d !! 10 = None ∧ hasDeadlock (HO:=canonical_order) d = Some true.
Proof. vm_compute. done. Qed.

(** The report can miss a deadlocked process: 3 waits for 2 and 1, 2 waits for
    3, and 1 waits for 2, so that 1 is on the cycle 3, 1, 2; but the search has
    finished 2 when it comes to 1. *)
Example missed_process :
  let d := onAcquire DeadlockDetector_make 2 1 0 in
  let d := onAcquire d 1 1 0 in
  let d := onAcquire d 3 2 0 in
  let d := onAcquire d 2 3 0 in
  let d := onWait (HO:=canonical_order) d 3 1 0 in
  let d := onWait (HO:=canonical_order) d 2 2 0 in
  let d := onWait (HO:=canonical_order) d 1 3 0 in
  getDeadlockedProcesses (HO:=canonical_order) d = Some [2; 3] ∧ on_cycle (waitFor d) (1, 0).
Proof.
  intros d1 d2 d3 d4 d5 d6 d7. split; [vm_compute; reflexivity|].
  assert (∀ x y, bool_decide (y ∈ default ∅ (waitFor d7 !! x)) = true → edge (waitFor d7) x y) as Hedge.
  { intros x y. unfold edge. destruct (waitFor d7 !! x) as [out|]; simpl.
    - rewrite bool_decide_eq_true. intros Hy. by exists out.
    - rewrite bool_decide_eq_true. intros Hy. by apply elem_of_empty in Hy. }
  apply tc_l with (2, 0); [apply Hedge; vm_compute; reflexivity|].
  apply tc_l with (3, 0); [apply Hedge; vm_compute; reflexivity|].
  apply tc_once, Hedge. vm_compute. reflexivity.
Qed.
