(* ===== verification/Banker.v ===== *)
(** * Banker: [DeadlockDetector::isSafeState]

    The banker's safety check on allocation matrices, against its
    specification: some order in which every process can obtain its maximum
    and finish. *)
From S2P Require Import Prelude Core.
Local Open Scope Z_scope.

Record ResourceAllocation := MkAllocation { alloc_pid : Z; resources : list Z }.

(** The first loop: matching, valid and distinct pids, rows of the right size. *)
Fixpoint rows_valid (rows : list (ResourceAllocation * ResourceAllocation)) (resourceCount : nat)
    (seen : gset Z) : bool :=
  match rows with
  | [] => true
  | (cur, max) :: rows' =>
      if (alloc_pid cur =? INVALID_PID) || (alloc_pid max =? INVALID_PID) then false else
      if negb (alloc_pid cur =? alloc_pid max) then false else
      if negb (bool_decide (length (resources cur) = resourceCount)) ||
         negb (bool_decide (length (resources max) = resourceCount)) then false else
      if bool_decide (alloc_pid cur ∈ seen) then false else
      rows_valid rows' resourceCount ({[alloc_pid cur]} ∪ seen)
  end.

(** [a <= b] at every index. *)
Fixpoint all_le (a b : list Z) : bool :=
  match a, b with
  | x :: a', y :: b' => (x <=? y) && all_le a' b'
  | _, _ => true
  end.

(** A row of the matrices: what is held, and the maximum. *)
Notation row := (list Z * list Z)%type.
Definition need (r : row) : list Z := zip_with (λ m c, u32 (m - c)) r.2 r.1.
Definition returned (work held : list Z) : list Z := zip_with (λ w c, u32 (w + c)) work held.

(** One pass of the [while] loop over the processes. *)
Fixpoint sweep (rows : list row) (finished : list bool) (work : list Z)
    : list bool * list Z * nat :=
  match rows, finished with
  | r :: rows', fin :: finished' =>
      if fin then
        let '(f, w, n) := sweep rows' finished' work in (true :: f, w, n)
      else if all_le (need r) work then
        let '(f, w, n) := sweep rows' finished' (returned work r.1) in (true :: f, w, S n)
      else
        let '(f, w, n) := sweep rows' finished' work in (false :: f, w, n)
  | _, _ => (finished, work, 0%nat)
  end.

Fixpoint sweeps (fuel : nat) (rows : list row) (finished : list bool) (work : list Z)
    (finishCount : nat) : option nat :=
  match fuel with
  | 0%nat => None
  | S fuel' =>
      let '(f, w, n) := sweep rows finished work in
      if (n =? 0)%nat then Some finishCount
      else sweeps fuel' rows f w (finishCount + n)
  end.

Definition isSafeState (current maximum : list ResourceAllocation) (available : list Z) : option bool :=
  if negb (bool_decide (length current = length maximum)) then Some false else
  match current, available with
  | [], _ => Some true
  | _, [] => Some true
  | _, _ =>
      let rows := zip current maximum in
      if negb (rows_valid rows (length available) ∅) then Some false else
      if negb (forallb (λ r, all_le (resources r.1) (resources r.2)) rows) then Some false else
      let matrix := (λ r, (resources r.1, resources r.2)) <$> rows in
      let! finishCount :=
        sweeps (S (length current)) matrix (replicate (length current) false) available 0 in
      Some (finishCount =? length current)%nat
  end.

(** ** The specification *)
Definition vle (a b : list Z) : Prop := Forall2 Z.le a b.
Definition vadd (a b : list Z) : list Z := zip_with Z.add a b.
Definition vsub (a b : list Z) : list Z := zip_with Z.sub a b.

(** All processes can finish one after the other: the next one's remaining
    need is available, and it returns what it holds. *)
Inductive safe : list Z → list row → Prop :=
| safe_done work : safe work []
| safe_next work r rest rows :
    rows ≡ₚ r :: rest → vle (vsub r.2 r.1) work → safe (vadd work r.1) rest → safe work rows.

(** Rows of the right size holding no more than their maxima. *)
Definition row_ok (n : nat) (r : row) : Prop :=
  length r.1 = n ∧ length r.2 = n ∧ Forall is_u32 r.1 ∧ Forall is_u32 r.2 ∧ vle r.1 r.2.

(** No total overflows a 32-bit counter. *)
Fixpoint total (work : list Z) (rows : list row) : list Z :=
  match rows with [] => work | r :: rows' => total (vadd work r.1) rows' end.
Definition in_range (work : list Z) (rows : list row) : Prop :=
  Forall (λ x, 0 ≤ x < 2 ^ 32) (total work rows).
