(* ===== verification/BankerProps.v ===== *)
(** * BankerProps: the greedy sweeps find a safe order if there is one *)
From S2P Require Import Prelude Core Banker.
Local Open Scope Z_scope.

(** ** Vectors *)
Section vectors.
Implicit Types (a b c w : list Z).

Lemma length_vadd a b n : length a = n → length b = n → length (vadd a b) = n.
Proof. intros. unfold vadd. rewrite length_zip_with. lia. Qed.

Lemma vadd_swap w a b : vadd (vadd w a) b = vadd (vadd w b) a.
Proof.
  revert a b. induction w as [|x w IH]; intros [|y a] [|z b]; simpl; try done.
  unfold vadd in *. simpl. rewrite IH. f_equal. lia.
Qed.

Lemma vle_refl a : vle a a.
Proof. by apply Forall2_same_length_lookup_2; [|intros ? ? ? ? ?; simplify_eq]. Qed.
Lemma vle_trans a b c : vle a b → vle b c → vle a c.
Proof.
  intros Hab. revert c. induction Hab as [|x y a b Hxy _ IH]; intros c Hc; inversion Hc; subst; constructor;
    [lia|by apply IH].
Qed.

Lemma vle_vadd a b c : vle a b → vle (vadd a c) (vadd b c).
Proof. intros Hab. revert c. induction Hab; intros [|z c]; simpl; constructor; [lia|]. apply IHHab. Qed.

Lemma vle_grow w a : length w = length a → Forall is_u32 a → vle w (vadd w a).
Proof.
  intros Hl Ha. revert w Hl. induction Ha as [|x a Hx _ IH]; intros [|y w]; simpl; try done; intros Hl;
    constructor; [unfold is_u32 in *; lia|]. apply IH. lia.
Qed.
End vectors.

(** ** Safe states *)
Section safe.
Context (n : nat).
Implicit Types (w : list Z) (r : row) (rows U O : list row).

Lemma vle_vsub_grow w r0 (d : list Z) : length w = n → row_ok n r0 →
  vle d w → vle d (vadd w r0.1).
Proof. intros Hl (H1 & _ & H3 & _) Hd. eapply vle_trans; [done|]. apply vle_grow; [lia|done]. Qed.

Lemma safe_perm w rows rows' : rows ≡ₚ rows' → safe w rows → safe w rows'.
Proof.
  intros Hp Hs. destruct Hs as [w|w r rest rows Hr Hv Hs].
  - apply Permutation_nil in Hp as ->. constructor.
  - econstructor; [|exact Hv|exact Hs]. by rewrite <-Hp.
Qed.

Lemma safe_mono w w' rows : vle w w' → safe w rows → safe w' rows.
Proof.
  intros Hw Hs. revert w' Hw. induction Hs as [w|w r rest rows Hr Hv _ IH]; intros w' Hw; [constructor|].
  econstructor; [exact Hr|by eapply vle_trans|]. by apply IH, vle_vadd.
Qed.

(** Exchange: a process that can finish now may finish first. *)
Lemma safe_pick w rows r rest :
  length w = n → Forall (row_ok n) rows → rows ≡ₚ r :: rest → vle (vsub r.2 r.1) w →
  safe w rows → safe (vadd w r.1) rest.
Proof.
  intros Hl Hok Hp Hn Hs. revert r rest Hl Hok Hp Hn.
  induction Hs as [w|w r0 rest0 rows Hr0 Hv Hs IH]; intros r rest Hl Hok Hp Hn.
  { by apply Permutation_nil in Hp. }
  rewrite Hr0 in Hp, Hok. apply Forall_cons in Hok as [Hok0 Hok].
  assert (r0 ∈ r :: rest) as [->|Hin]%elem_of_cons by (rewrite <-Hp; by left).
  - apply Permutation.Permutation_cons_inv in Hp. by eapply safe_perm.
  - apply elem_of_Permutation in Hin as [rest' Hrest]. rewrite Hrest in Hp.
    rewrite Permutation_swap in Hp. apply Permutation.Permutation_cons_inv in Hp.
    assert (row_ok n r) as Hokr.
    { rewrite Forall_forall in Hok. apply Hok. rewrite Hp. by left. }
    assert (length (vadd w r0.1) = n) as Hl0 by (apply length_vadd; [done|apply Hok0]).
    specialize (IH r rest' Hl0 Hok Hp (vle_vsub_grow _ _ _ Hl Hok0 Hn)).
    econstructor; [exact Hrest|by apply vle_vsub_grow|]. by rewrite vadd_swap.
Qed.

Lemma safe_step w r rows :
  length w = n → Forall (row_ok n) (r :: rows) → vle (vsub r.2 r.1) w →
  safe w (r :: rows) ↔ safe (vadd w r.1) rows.
Proof.
  intros Hl Hok Hn. split; [by apply safe_pick|]. intros Hs. by eapply safe_next.
Qed.

(** When nobody can finish, only the empty state is safe. *)
Lemma safe_stuck w rows : (∀ r, r ∈ rows → ¬ vle (vsub r.2 r.1) w) → safe w rows ↔ rows = [].
Proof.
  intros Hno. split; [|intros ->; constructor]. intros Hs. destruct Hs as [|w r rest rows Hr Hv _]; [done|].
  exfalso. apply (Hno r); [|done]. rewrite Hr. by left.
Qed.

(** ** Staying in 32 bits *)
Lemma total_perm w rows rows' : rows ≡ₚ rows' → total w rows = total w rows'.
Proof.
  intros Hp. revert w. induction Hp as [|r l1 l2 _ IH|r1 r2 l|l1 l2 l3 _ IH1 _ IH2]; intros w; simpl; try done.
  - by rewrite vadd_swap.
  - by rewrite IH1.
Qed.
Lemma in_range_perm w rows rows' : rows ≡ₚ rows' → in_range w rows → in_range w rows'.
Proof. intros Hp. unfold in_range. by rewrite (total_perm w rows rows'). Qed.

Lemma total_grow w rows : length w = n → Forall (row_ok n) rows → vle w (total w rows).
Proof.
  intros Hl Hok. revert w Hl. induction Hok as [|r rows Hr _ IH]; intros w Hl; simpl; [apply vle_refl|].
  eapply vle_trans; [|apply IH; apply length_vadd; [done|apply Hr]].
  apply vle_grow; [destruct Hr; lia|apply Hr].
Qed.

Lemma returned_exact w r rows :
  length w = n → Forall is_u32 w → Forall (row_ok n) (r :: rows) → in_range w (r :: rows) →
  returned w r.1 = vadd w r.1 ∧ Forall is_u32 (vadd w r.1).
Proof.
  intros Hl Hw Hok Hr. apply Forall_cons in Hok as [Hokr Hok]. unfold in_range in Hr. simpl in Hr.
  pose proof (total_grow (vadd w r.1) rows ltac:(apply length_vadd; [done|apply Hokr]) Hok) as Hg.
  assert (Forall (λ x, x < 2 ^ 32) (vadd w r.1)) as Hlt.
  { clear -Hg Hr. induction Hg; [done|]. apply Forall_cons in Hr as [? ?]. constructor; [lia|auto]. }
  destruct Hokr as (Hl1 & _ & Hu & _). clear -Hlt Hw Hu. revert Hlt Hw. generalize (r.1) Hu. clear.
  intros c Hc. revert w. induction Hc as [|y c Hy _ IH]; intros [|x w] Hlt Hw; try (split; [done|constructor]).
  unfold returned, vadd in *. simpl in *. apply Forall_cons in Hlt as [Hx Hlt].
  apply Forall_cons in Hw as [Hxw Hw]. destruct (IH w Hlt Hw) as [-> Hrest]. unfold is_u32 in *.
  split; [by rewrite u32_small by lia|constructor; [lia|done]].
Qed.

Lemma need_exact w r : length w = n → row_ok n r →
  all_le (need r) w = true ↔ vle (vsub r.2 r.1) w.
Proof.
  destruct r as [c m]. intros Hl (H1 & H2 & Hc & Hm & Hle). simpl in *.
  assert (need (c, m) = vsub m c) as ->.
  { unfold need, vsub. simpl. clear -Hc Hm Hle. induction Hle as [|x y c m Hxy _ IH]; [done|].
    apply Forall_cons in Hc as [Hx Hc]. apply Forall_cons in Hm as [Hy Hm]. simpl. rewrite IH by done.
    unfold is_u32 in *. by rewrite u32_small by lia. }
  assert (length (vsub m c) = length w) as Hlen by (unfold vsub; rewrite length_zip_with; lia).
  revert Hlen. generalize (vsub m c). clear. induction w as [|y w IH]; intros [|x d]; simpl; try done.
  - intros _. split; [constructor|done].
  - intros Hl. rewrite andb_true_iff, Z.leb_le, IH by lia. unfold vle. rewrite Forall2_cons. done.
Qed.
End safe.

(** ** The sweeps *)
Fixpoint unfinished (rows : list row) (finished : list bool) : list row :=
  match rows, finished with
  | r :: rows', fin :: finished' =>
      if fin then unfinished rows' finished' else r :: unfinished rows' finished'
  | _, _ => []
  end.

Lemma unfinished_count rows finished : length rows = length finished →
  (length (unfinished rows finished) + count_true finished)%nat = length rows.
Proof.
  revert finished. induction rows as [|r rows IH]; intros [|[|] finished]; simpl; try done; intros Hl;
    rewrite <-(IH finished) by lia; simpl; lia.
Qed.
Lemma unfinished_all rows : unfinished rows (replicate (length rows) false) = rows.
Proof. induction rows as [|r rows IH]; simpl; [done|]. by rewrite IH. Qed.

(** Everything the algorithm keeps: the rows not finished here and elsewhere. *)
Record bank_ok (n : nat) (w : list Z) (rows : list row) : Prop := {
  bk_len : length w = n;
  bk_u32 : Forall is_u32 w;
  bk_rows : Forall (row_ok n) rows;
  bk_range : in_range w rows
}.
Lemma bank_perm n w rows rows' : rows ≡ₚ rows' → bank_ok n w rows → bank_ok n w rows'.
Proof. intros Hp [H1 H2 H3 H4]. split; try done; [by rewrite <-Hp|by eapply in_range_perm]. Qed.

Lemma sweep_ok n rows finished w O :
  length rows = length finished → bank_ok n w (unfinished rows finished ++ O) →
  let '(f, w', k) := sweep rows finished w in
  length f = length finished ∧ count_true f = (count_true finished + k)%nat ∧
  bank_ok n w' (unfinished rows f ++ O) ∧
  (safe w (unfinished rows finished ++ O) ↔ safe w' (unfinished rows f ++ O)) ∧
  (k = 0%nat → f = finished ∧ w' = w ∧
     ∀ r, r ∈ unfinished rows finished → ¬ vle (vsub r.2 r.1) w).
Proof.
  revert finished w O. induction rows as [|r rows IH]; intros [|fin finished] w O Hl Hb; try done.
  { simpl. split_and!; try done. intros _. split_and!; try done. set_solver. }
  simpl in Hl. destruct fin; simpl in Hb |- *.
  { specialize (IH finished w O ltac:(lia) Hb). destruct (sweep rows finished w) as [[f w'] k].
    destruct IH as (H1 & H2 & H3 & H4 & H5). simpl. split_and!; try done; [lia|lia|].
    intros Hk. destruct (H5 Hk) as (-> & -> & ?). done. }
  pose proof Hb as [Hlen Hu Hrows Hrange].
  assert (row_ok n r) as Hr by by apply Forall_cons in Hrows as [? _].
  pose proof (need_exact n w r Hlen Hr) as Hneed. destruct (all_le (need r) w) eqn:En.
  - destruct (returned_exact n w r _ Hlen Hu Hrows Hrange) as [-> Hu'].
    assert (bank_ok n (vadd w r.1) (unfinished rows finished ++ O)) as Hb'.
    { split; try done; [apply length_vadd; [done|apply Hr]|by apply Forall_cons in Hrows as [_ ?]]. }
    specialize (IH finished (vadd w r.1) O ltac:(lia) Hb').
    destruct (sweep rows finished (vadd w r.1)) as [[f w'] k].
    destruct IH as (H1 & H2 & H3 & H4 & H5). simpl. split_and!; try done; [lia|lia|].
    rewrite <-H4. apply (safe_step n); [done|done|]. by apply Hneed.
  - assert (r :: unfinished rows finished ++ O ≡ₚ unfinished rows finished ++ r :: O) as Hp.
    { by rewrite Permutation_middle. }
    specialize (IH finished w (r :: O) ltac:(lia) (bank_perm _ _ _ _ Hp Hb)).
    destruct (sweep rows finished w) as [[f w'] k]. destruct IH as (H1 & H2 & H3 & H4 & H5). simpl.
    assert (unfinished rows f ++ r :: O ≡ₚ r :: unfinished rows f ++ O) as Hp'.
    { by rewrite Permutation_middle. }
    split_and!; [lia|lia|by eapply bank_perm| |].
    + split; intros Hs.
      * eapply safe_perm; [exact Hp'|]. apply H4. by eapply safe_perm.
      * eapply safe_perm; [symmetry; exact Hp|]. apply H4. eapply safe_perm; [symmetry; exact Hp'|done].
    + intros Hk. destruct (H5 Hk) as (-> & -> & Hno). split_and!; try done.
      intros x [->|Hx]%elem_of_cons; [|by apply Hno]. intros Hv. by apply Hneed in Hv.
Qed.

Lemma sweeps_ok n fuel rows finished w :
  length rows = length finished → bank_ok n w (unfinished rows finished) →
  (length (unfinished rows finished) < fuel)%nat →
  ∃ c, sweeps fuel rows finished w (count_true finished) = Some c ∧
    (c = length rows ↔ safe w (unfinished rows finished)).
Proof.
  revert finished w. induction fuel as [|fuel IH]; intros finished w Hl Hb Hfuel; [lia|].
  pose proof (sweep_ok n rows finished w [] Hl) as Hs. rewrite !app_nil_r in Hs. specialize (Hs Hb). simpl.
  destruct (sweep rows finished w) as [[f w'] k]. rewrite !app_nil_r in Hs.
  destruct Hs as (H1 & H2 & H3 & H4 & H5). pose proof (unfinished_count rows finished Hl) as Hcount.
  destruct (Nat.eqb_spec k 0) as [Hk|Hk].
  - exists (count_true finished). split; [done|]. destruct (H5 Hk) as (_ & _ & Hno).
    rewrite safe_stuck by done. split.
    + intros E. apply length_zero_iff_nil. lia.
    + intros E. rewrite E in Hcount. simpl in Hcount. lia.
  - pose proof (unfinished_count rows f ltac:(lia)) as Hcount'.
    destruct (IH f w') as (c & Hc & Hiff); [lia|done|lia|]. exists c. rewrite <-H2. split; [done|].
    by rewrite H4.
Qed.

(** The loop ends whatever the matrices hold. *)
Lemma sweep_counts rows finished w :
  let '(f, _, k) := sweep rows finished w in
  length f = length finished ∧ count_true f = (count_true finished + k)%nat.
Proof.
  revert finished w. induction rows as [|r rows IH]; intros [|fin finished] w; simpl; try (split; lia).
  destruct fin; [|destruct (all_le (need r) w)];
    match goal with |- context [sweep rows finished ?w'] => specialize (IH finished w') end;
    destruct (sweep rows finished _) as [[f w'] k]; simpl; lia.
Qed.
Lemma count_true_length (l : list bool) : (count_true l ≤ length l)%nat.
Proof. induction l as [|[] l IH]; simpl; lia. Qed.
Lemma sweeps_total fuel rows finished w c :
  (length finished - count_true finished < fuel)%nat → is_Some (sweeps fuel rows finished w c).
Proof.
  revert finished w c. induction fuel as [|fuel IH]; intros finished w c Hfuel; [lia|]. simpl.
  pose proof (sweep_counts rows finished w) as Hs. destruct (sweep rows finished w) as [[f w'] k].
  destruct Hs as [H1 H2]. destruct (Nat.eqb_spec k 0); [by eexists|]. apply IH.
  pose proof (count_true_length f). lia.
Qed.

Lemma rows_valid_spec rows n (seen : gset Z) :
  Forall (λ r, alloc_pid r.1 = alloc_pid r.2 ∧ alloc_pid r.1 ≠ INVALID_PID ∧
               length (resources r.1) = n ∧ length (resources r.2) = n) rows →
  NoDup ((λ r, alloc_pid r.1) <$> rows) → (∀ r, r ∈ rows → alloc_pid r.1 ∉ seen) →
  rows_valid rows n seen = true.
Proof.
  intros Hall. revert seen. induction Hall as [|[cur max] rows (H1 & H2 & H3 & H4) _ IH]; intros seen Hnd Hs;
    simpl in *; [done|]. apply NoDup_cons in Hnd as [Hn Hnd]. rewrite <-H1.
  destruct (Z.eqb_spec (alloc_pid cur) INVALID_PID); [done|]. rewrite Z.eqb_refl. simpl.
  rewrite !bool_decide_eq_true_2 by done. simpl.
  rewrite bool_decide_eq_false_2 by (apply (Hs (cur, max)); by left).
  apply IH; [done|]. intros r Hr [Hin%elem_of_singleton|Hin]%elem_of_union.
  - apply Hn. rewrite <-Hin. apply list_elem_of_fmap. by exists r.
  - apply (Hs r); [by right|done].
Qed.

Lemma all_le_spec (a b : list Z) : length a = length b → all_le a b = true ↔ vle a b.
Proof.
  revert b. induction a as [|x a IH]; intros [|y b]; simpl; try done; intros Hl.
  - split; [constructor|done].
  - rewrite andb_true_iff, Z.leb_le, IH by lia. unfold vle. by rewrite Forall2_cons.
Qed.

(** What a caller must supply: the two matrices list the same valid, distinct
    processes, with one 32-bit count per resource. *)
Definition matrices_ok (current maximum : list ResourceAllocation) (n : nat) : Prop :=
  length current = length maximum ∧
  Forall (λ r, alloc_pid r.1 = alloc_pid r.2 ∧ alloc_pid r.1 ≠ INVALID_PID ∧
               length (resources r.1) = n ∧ length (resources r.2) = n) (zip current maximum) ∧
  NoDup ((λ r, alloc_pid r.1) <$> zip current maximum) ∧
  Forall (λ r, Forall is_u32 (resources r.1) ∧ Forall is_u32 (resources r.2)) (zip current maximum).
Definition matrix_of (current maximum : list ResourceAllocation) : list row :=
  (λ r, (resources r.1, resources r.2)) <$> zip current maximum.

(** C32: the banker's check always terminates, and on matching matrices over at
    least one resource whose totals fit 32 bits it answers [true] exactly when
    nobody holds more than its maximum and some order lets every process obtain
    its maximum and finish. *)
Theorem banker_exact current maximum available :
  let rows := matrix_of current maximum in
  (∃ b, isSafeState current maximum available = Some b) ∧
  (matrices_ok current maximum (length available) → available ≠ [] → Forall is_u32 available →
   in_range available rows →
   isSafeState current maximum available = Some true ↔
     Forall (λ r, vle r.1 r.2) rows ∧ safe available rows).
Proof.
  intros rows. unfold isSafeState. split.
  { case_bool_decide as Hlen; cbn [negb]; [|by eexists]. destruct current as [|c cs]; [by eexists|].
    destruct available as [|a av]; [by eexists|]. destruct (negb (rows_valid _ _ _)); [by eexists|].
    destruct (negb (forallb _ _)); [by eexists|].
    match goal with |- context [sweeps ?n ?m ?f ?w ?k] =>
      destruct (sweeps_total n m f w k) as [c' ->]; [rewrite length_replicate; lia|by eexists] end. }
  intros (Hlen & Hvalid & Hnd & Hu) Hav Hua Hrange. rewrite bool_decide_eq_true_2 by done. simpl negb. cbv iota.
  assert (rows = matrix_of current maximum) as Hrows by done. clearbody rows.
  destruct current as [|c cs].
  { subst rows. simpl. split; [|done]. intros _. split; [constructor|]. constructor. }
  destruct available as [|a av]; [done|]. set (available := a :: av) in *. set (current := c :: cs) in *.
  rewrite (rows_valid_spec _ _ ∅) by (done || set_solver). simpl negb. cbv iota.
  change ((λ r, (resources r.1, resources r.2)) <$> zip current maximum) with (matrix_of current maximum).
  rewrite <-Hrows. assert (length rows = length current) as Hlr.
  { subst rows. unfold matrix_of. rewrite length_fmap, length_zip_with. lia. }
  assert (forallb (λ r, all_le (resources r.1) (resources r.2)) (zip current maximum) = true ↔
    Forall (λ r, vle r.1 r.2) rows) as Hle.
  { subst rows. unfold matrix_of. rewrite Forall_fmap. clear -Hvalid.
    induction Hvalid as [|[x y] l (_ & _ & H1 & H2) _ IH]; simpl in *; [split; [constructor|done]|].
    rewrite andb_true_iff, IH, Forall_cons. simpl. rewrite all_le_spec by lia. done. }
  destruct (forallb _ _).
  2: { simpl. split; [done|]. intros [H _]. by apply Hle in H. }
  simpl negb. cbv iota. assert (Forall (row_ok (length available)) rows) as Hok.
  { pose proof (proj1 Hle eq_refl) as Hv. subst rows. unfold matrix_of in *. rewrite Forall_fmap in Hv |- *.
    rewrite Forall_forall in Hvalid, Hu, Hv |- *. intros r Hr.
    destruct (Hvalid r Hr) as (_ & _ & ? & ?), (Hu r Hr) as [? ?]. specialize (Hv r Hr). by split_and!. }
  destruct (sweeps_ok (length available) (S (length current)) rows (replicate (length current) false) available)
    as (k & Hk & Hiff).
  - by rewrite length_replicate.
  - rewrite <-Hlr, unfinished_all. by split.
  - rewrite <-Hlr, unfinished_all. lia.
  - assert (count_true (replicate (length current) false) = 0%nat) as Hz.
    { clear. induction (length current); simpl; auto. }
    rewrite Hz in Hk. rewrite Hk. rewrite <-Hlr, unfinished_all in Hiff. rewrite <-Hiff.
    split.
    + intros [= E%Nat.eqb_eq]. split; [by apply Hle|]. by rewrite Hlr.
    + intros [_ E]. f_equal. apply Nat.eqb_eq. by rewrite <-Hlr.
Qed.

Lemma banker_exact_witness :
  let current := [MkAllocation 1 [1; 0]; MkAllocation 2 [0; 1]] in
  let maximum := [MkAllocation 1 [1; 1]; MkAllocation 2 [1; 1]] in
  matrices_ok current maximum 2 ∧ in_range [1; 0] (matrix_of current maximum) ∧
  safe [1; 0] (matrix_of current maximum).
Proof.
  set (current := [_; _]). set (maximum := [_; _]).
  assert (matrices_ok current maximum 2) as Hm.
  { split; [reflexivity|]. split; [|split].
    - repeat constructor; discriminate.
    - repeat (apply NoDup_cons_2; [simpl; set_solver|]). apply NoDup_nil_2.
    - repeat constructor; vm_compute; discriminate. }
  assert (in_range [1; 0] (matrix_of current maximum)) as Hr.
  { repeat constructor; vm_compute; discriminate || reflexivity. }
  assert (Forall is_u32 [1; 0]) as Hu by (repeat constructor; vm_compute; discriminate || reflexivity).
  split; [exact Hm|]. split; [exact Hr|].
  apply (banker_exact current maximum [1; 0]); [exact Hm|discriminate|exact Hu|exact Hr|].
  vm_compute. reflexivity.
Defined.
