(* ===== verification/Ipc.v ===== *)
(** * Ipc: pipes, shared memory, message queues and their manager

    [contur/ipc]: the channel interface, its three implementations and the
    manager that owns them by name.  A reading operation returns the caller's
    buffer with the bytes copied into its front. *)
From Stdlib Require Export Strings.Byte.
From S2P Require Import Prelude Core.

(** ** The interface [IIpcChannel] *)
Class IIpcChannel (C : Type) := {
  ch_write : C → list byte → Result nat * C;
  ch_read : C → list byte → Result nat * list byte * C;
  ch_close : C → C;
  ch_isOpen : C → bool;
  ch_name : C → string
}.

(** [std::copy_n(src, n, dst.begin())]. *)
Definition copy_n (src : list byte) (n : nat) (dst : list byte) : list byte := take n src ++ drop n dst.

Module Pipe.
Record t := mk {
  name : string;
  capacity : nat;
  open : bool;
  buffer : list byte
}.
Definition make (n : string) (cap : nat) : t := mk n (max 1 cap) true [].

Fixpoint push_loop (toWrite : nat) (data q : list byte) : list byte :=
  match toWrite, data with
  | S n, b :: data' => push_loop n data' (q ++ [b])
  | _, _ => q
  end.

Fixpoint pop_loop (toRead i : nat) (q out : list byte) : list byte * list byte :=
  match toRead, q with
  | S n, b :: q' => pop_loop n (S i) q' (<[i := b]> out)
  | _, _ => (out, q)
  end.

Definition write (c : t) (data : list byte) : Result nat * t :=
  if negb (open c) then (error ErrorCode.InvalidState, c) else
  if decide (data = []) then (ok 0, c) else
  let available := capacity c - length (buffer c) in
  if available =? 0 then (error ErrorCode.BufferFull, c) else
  let toWrite := min available (length data) in
  (ok toWrite, mk (name c) (capacity c) (open c) (push_loop toWrite data (buffer c))).

Definition read (c : t) (out : list byte) : Result nat * list byte * t :=
  if negb (open c) then (error ErrorCode.InvalidState, out, c) else
  if decide (out = []) then (ok 0, out, c) else
  if decide (buffer c = []) then (error ErrorCode.BufferEmpty, out, c) else
  let toRead := min (length out) (length (buffer c)) in
  let '(out', q') := pop_loop toRead 0 (buffer c) out in
  (ok toRead, out', mk (name c) (capacity c) (open c) q').

Definition close (c : t) : t := mk (name c) (capacity c) false [].
Definition isOpen (c : t) : bool := open c.
Definition size (c : t) : nat := length (buffer c).
End Pipe.

Module SharedMemory.
Record t := mk {
  name : string;
  open : bool;
  region : list byte;
  attached : gset Z
}.
Definition make (n : string) (bytes : nat) : t := mk n true (replicate (max 1 bytes) x00) ∅.

Definition write (c : t) (data : list byte) : Result nat * t :=
  if negb (open c) then (error ErrorCode.InvalidState, c) else
  if decide (data = []) then (ok 0, c) else
  let toWrite := min (length data) (length (region c)) in
  (ok toWrite, mk (name c) (open c) (copy_n data toWrite (region c)) (attached c)).

Definition read (c : t) (out : list byte) : Result nat * list byte * t :=
  if negb (open c) then (error ErrorCode.InvalidState, out, c) else
  if decide (out = []) then (ok 0, out, c) else
  let toRead := min (length out) (length (region c)) in
  (ok toRead, copy_n (region c) toRead out, c).

Definition close (c : t) : t := mk (name c) false (replicate (length (region c)) x00) ∅.
Definition isOpen (c : t) : bool := open c.

Definition attach (c : t) (pid : Z) : Result unit * t :=
  if negb (open c) then (error ErrorCode.InvalidState, c) else
  if (pid =? INVALID_PID)%Z then (error ErrorCode.InvalidPid, c) else
  (ok tt, mk (name c) (open c) (region c) ({[pid]} ∪ attached c)).
Definition detach (c : t) (pid : Z) : Result unit * t :=
  if (pid =? INVALID_PID)%Z then (error ErrorCode.InvalidPid, c) else
  if decide (pid ∈ attached c)
  then (ok tt, mk (name c) (open c) (region c) (attached c ∖ {[pid]}))
  else (error ErrorCode.NotFound, c).
Definition isAttached (c : t) (pid : Z) : bool := bool_decide (pid ∈ attached c).
Definition attachedCount (c : t) : nat := base.size (attached c).
Definition size (c : t) : nat := length (region c).
End SharedMemory.

Record Message := MkMessage { msg_type : Z; msg_priority : Z; payload : list byte }.

Module MessageQueue.
Record t := mk {
  name : string;
  maxMessages : nat;
  priorityMode : bool;
  open : bool;
  queue : list Message
}.
Definition make (n : string) (maxMsgs : nat) (prio : bool) : t := mk n (max 1 maxMsgs) prio true [].

(** Insertion before the first message of lower priority. *)
Fixpoint insert_before_lower (m : Message) (q : list Message) : list Message :=
  match q with
  | [] => [m]
  | existing :: q' =>
      if (msg_priority existing <? msg_priority m)%Z then m :: q
      else existing :: insert_before_lower m q'
  end.

Definition send (c : t) (m : Message) : Result unit * t :=
  if negb (open c) then (error ErrorCode.InvalidState, c) else
  if maxMessages c <=? length (queue c) then (error ErrorCode.BufferFull, c) else
  (ok tt, mk (name c) (maxMessages c) (priorityMode c) (open c)
            (if priorityMode c then insert_before_lower m (queue c) else queue c ++ [m])).

Definition receive (c : t) : Result Message * t :=
  if negb (open c) then (error ErrorCode.InvalidState, c) else
  match queue c with
  | [] => (error ErrorCode.BufferEmpty, c)
  | m :: q => (ok m, mk (name c) (maxMessages c) (priorityMode c) (open c) q)
  end.

Definition write (c : t) (data : list byte) : Result nat * t :=
  match send c (MkMessage 0 0 data) with
  | (error e, c') => (error e, c')
  | (ok _, c') => (ok (length data), c')
  end.

Definition read (c : t) (out : list byte) : Result nat * list byte * t :=
  match receive c with
  | (error e, c') => (error e, out, c')
  | (ok m, c') =>
      let toCopy := min (length out) (length (payload m)) in
      (ok toCopy, copy_n (payload m) toCopy out, c')
  end.

Definition close (c : t) : t := mk (name c) (maxMessages c) (priorityMode c) false [].
Definition isOpen (c : t) : bool := open c.
Definition size (c : t) : nat := length (queue c).
End MessageQueue.

#[global] Instance pipe_channel : IIpcChannel Pipe.t := {|
  ch_write := Pipe.write; ch_read := Pipe.read; ch_close := Pipe.close;
  ch_isOpen := Pipe.isOpen; ch_name := Pipe.name |}.
#[global] Instance shared_channel : IIpcChannel SharedMemory.t := {|
  ch_write := SharedMemory.write; ch_read := SharedMemory.read; ch_close := SharedMemory.close;
  ch_isOpen := SharedMemory.isOpen; ch_name := SharedMemory.name |}.
#[global] Instance queue_channel : IIpcChannel MessageQueue.t := {|
  ch_write := MessageQueue.write; ch_read := MessageQueue.read; ch_close := MessageQueue.close;
  ch_isOpen := MessageQueue.isOpen; ch_name := MessageQueue.name |}.

(** A [unique_ptr<IIpcChannel>]: any of the three, with virtual dispatch. *)
Inductive channel :=
| PipeChannel (c : Pipe.t)
| SharedChannel (c : SharedMemory.t)
| QueueChannel (c : MessageQueue.t).

#[global] Instance any_channel : IIpcChannel channel := {|
  ch_write ch d := match ch with
    | PipeChannel c => let '(r, c') := ch_write c d in (r, PipeChannel c')
    | SharedChannel c => let '(r, c') := ch_write c d in (r, SharedChannel c')
    | QueueChannel c => let '(r, c') := ch_write c d in (r, QueueChannel c')
    end;
  ch_read ch b := match ch with
    | PipeChannel c => let '(r, c') := ch_read c b in (r, PipeChannel c')
    | SharedChannel c => let '(r, c') := ch_read c b in (r, SharedChannel c')
    | QueueChannel c => let '(r, c') := ch_read c b in (r, QueueChannel c')
    end;
  ch_close ch := match ch with
    | PipeChannel c => PipeChannel (ch_close c)
    | SharedChannel c => SharedChannel (ch_close c)
    | QueueChannel c => QueueChannel (ch_close c)
    end;
  ch_isOpen ch := match ch with
    | PipeChannel c => ch_isOpen c | SharedChannel c => ch_isOpen c | QueueChannel c => ch_isOpen c end;
  ch_name ch := match ch with
    | PipeChannel c => ch_name c | SharedChannel c => ch_name c | QueueChannel c => ch_name c end |}.

(** ** The manager

    The map owns its channels through pointers and [getChannel] hands out
    references, so the channels live in a heap; a reference whose channel was
    destroyed dangles. *)
Module IpcManager.
Record t := mk {
  channels : gmap string nat;
  heap : gmap nat channel;
  next_ref : nat
}.
Definition make : t := mk ∅ ∅ 0.

Definition emplace (m : t) (name : string) (ch : channel) : t :=
  mk (<[name := next_ref m]> (channels m)) (<[next_ref m := ch]> (heap m)) (S (next_ref m)).

Definition createPipe (m : t) (name : string) (capacity : nat) : Result unit * t :=
  if decide (name = EmptyString) then (error ErrorCode.InvalidArgument, m) else
  if decide (is_Some (channels m !! name)) then (ok tt, m) else
  (ok tt, emplace m name (PipeChannel (Pipe.make name capacity))).
Definition createSharedMemory (m : t) (name : string) (bytes : nat) : Result unit * t :=
  if decide (name = EmptyString) then (error ErrorCode.InvalidArgument, m) else
  if decide (is_Some (channels m !! name)) then (ok tt, m) else
  (ok tt, emplace m name (SharedChannel (SharedMemory.make name bytes))).
Definition createMessageQueue (m : t) (name : string) (maxMessages : nat) (priorityMode : bool)
    : Result unit * t :=
  if decide (name = EmptyString) then (error ErrorCode.InvalidArgument, m) else
  if decide (is_Some (channels m !! name)) then (ok tt, m) else
  (ok tt, emplace m name (QueueChannel (MessageQueue.make name maxMessages priorityMode))).

Definition getChannel (m : t) (name : string) : Result nat :=
  match channels m !! name with
  | None => error ErrorCode.NotFound
  | Some r => ok r
  end.

Definition destroyChannel (m : t) (name : string) : Result unit * t :=
  match channels m !! name with
  | None => (error ErrorCode.NotFound, m)
  | Some r => (ok tt, mk (delete name (channels m)) (delete r (heap m)) (next_ref m))
  end.

Definition exists_ (m : t) (name : string) : bool := bool_decide (is_Some (channels m !! name)).
Definition channelCount (m : t) : nat := size (channels m).

(** Using a channel through a reference; [None]: the reference dangles. *)
Definition deref (m : t) (r : nat) : option channel := heap m !! r.
Definition update (m : t) (r : nat) (ch : channel) : t :=
  mk (channels m) (<[r := ch]> (heap m)) (next_ref m).
End IpcManager.
