(* ===== verification/IpcProps.v ===== *)
(** * IpcProps: what the channels and their manager guarantee

    A pipe is a bounded lossless FIFO, a message queue delivers in stable
    priority order, and the manager keeps distinct names on distinct live
    channels. *)
From S2P Require Import Prelude Core Ipc.

(** ** Copying loops *)
Lemma copy_n_spec src n dst :
  n ≤ length src → n ≤ length dst →
  length (copy_n src n dst) = length dst ∧ take n (copy_n src n dst) = take n src ∧
  drop n (copy_n src n dst) = drop n dst.
Proof.
  intros H1 H2. unfold copy_n. assert (length (take n src) = n) as Hl by (rewrite length_take; lia).
  split_and!.
  - rewrite length_app, length_drop, Hl. lia.
  - by rewrite take_app_le, take_take, Nat.min_id by lia.
  - rewrite drop_app_ge by lia. rewrite Hl, Nat.sub_diag. done.
Qed.

Lemma push_loop_spec n data q : Pipe.push_loop n data q = q ++ take n data.
Proof.
  revert data q. induction n as [|n IH]; intros [|b data] q; simpl; rewrite ?app_nil_r; [done..|].
  by rewrite IH, <-app_assoc.
Qed.

Lemma pop_loop_spec n i q out :
  n ≤ length q → i + n ≤ length out →
  Pipe.pop_loop n i q out = (take i out ++ take n q ++ drop (i + n) out, drop n q).
Proof.
  revert i q out. induction n as [|n IH]; intros i q out Hq Ho; simpl.
  - by rewrite Nat.add_0_r, take_drop.
  - destruct q as [|b q]; simpl in *; [lia|]. rewrite IH by (rewrite ?length_insert; lia). f_equal.
    rewrite drop_insert_lt by lia. replace (S i + n) with (i + S n) by lia.
    rewrite (take_S_r _ _ b) by (apply list_lookup_insert_eq; lia).
    rewrite take_insert_ge by lia. by rewrite <-app_assoc.
Qed.

(** ** Sequences of calls

    What a call puts into a channel and takes out of it, joined over a sequence
    of calls. *)
Fixpoint stream_run {S C A : Type} (step : S → C → list A * list A * S) (c : S) (ops : list C)
    : list A * list A * S :=
  match ops with
  | [] => ([], [], c)
  | op :: ops' =>
      let '(a, d, c1) := step c op in
      let '(a', d', c2) := stream_run step c1 ops' in (a ++ a', d ++ d', c2)
  end.

(** ** Pipes *)
Inductive pipe_op := PWrite (data : list byte) | PRead (out : list byte) | PClose.
#[export] Instance byte_eq_decision : EqDecision byte := Byte.byte_eq_dec.
#[export] Instance pipe_op_eq_dec : EqDecision pipe_op.
Proof. solve_decision. Defined.

(** One call, with the bytes it accepted and the bytes it delivered. *)
Definition pipe_step (c : Pipe.t) (op : pipe_op) : list byte * list byte * Pipe.t :=
  match op with
  | PWrite data =>
      let '(r, c') := Pipe.write c data in (take (valueOr r 0) data, [], c')
  | PRead out =>
      let '(r, out', c') := Pipe.read c out in ([], take (valueOr r 0) out', c')
  | PClose => ([], [], Pipe.close c)
  end.
Notation pipe_run := (stream_run pipe_step).

Definition pipe_wf (c : Pipe.t) : Prop :=
  length (Pipe.buffer c) ≤ Pipe.capacity c ∧ (Pipe.open c = false → Pipe.buffer c = []).

Lemma pipe_write_spec c data :
  pipe_wf c → Pipe.open c = true → data ≠ [] →
  let free := Pipe.capacity c - length (Pipe.buffer c) in
  Pipe.write c data =
    if decide (free = 0) then (error ErrorCode.BufferFull, c)
    else (ok (min free (length data)),
          Pipe.mk (Pipe.name c) (Pipe.capacity c) true
            (Pipe.buffer c ++ take (min free (length data)) data)).
Proof.
  intros [Hl _] Ho Hd free. unfold Pipe.write. rewrite Ho. simpl. rewrite decide_False by done.
  fold free. destruct (Nat.eqb_spec free 0) as [E|E].
  - by rewrite decide_True.
  - rewrite decide_False by done. by rewrite push_loop_spec.
Qed.

Lemma pipe_read_spec c out :
  Pipe.open c = true → out ≠ [] →
  let n := min (length out) (length (Pipe.buffer c)) in
  Pipe.read c out =
    if decide (Pipe.buffer c = []) then (error ErrorCode.BufferEmpty, out, c)
    else (ok n, copy_n (Pipe.buffer c) n out,
          Pipe.mk (Pipe.name c) (Pipe.capacity c) true (drop n (Pipe.buffer c))).
Proof.
  intros Ho Hd n. unfold Pipe.read. rewrite Ho. simpl. rewrite (decide_False (P := out = [])) by done.
  case_decide as E; [done|]. fold n. by rewrite pop_loop_spec by lia.
Qed.

(** One call keeps the buffer equal to what was accepted and not delivered. *)
Lemma pipe_step_fifo c op :
  pipe_wf c →
  let '(a, d, c') := pipe_step c op in
  pipe_wf c' ∧ Pipe.capacity c' = Pipe.capacity c ∧
  match op with
  | PClose => a = [] ∧ d = [] ∧ Pipe.open c' = false
  | _ => Pipe.open c' = Pipe.open c ∧ Pipe.buffer c ++ a = d ++ Pipe.buffer c'
  end.
Proof.
  intros Hw. destruct op as [data|out|]; simpl.
  - destruct (Pipe.open c) eqn:Ho.
    2: { unfold Pipe.write. rewrite Ho. simpl. rewrite app_nil_r. by split_and!. }
    destruct (decide (data = [])) as [->|Hd].
    { unfold Pipe.write. rewrite Ho. simpl. rewrite app_nil_r. by split_and!. }
    rewrite pipe_write_spec by done. case_decide as Hf; simpl.
    + rewrite app_nil_r. by split_and!.
    + split_and!; try done. split; simpl; [|done]. rewrite length_app, length_take. lia.
  - destruct (Pipe.open c) eqn:Ho.
    2: { unfold Pipe.read. rewrite Ho. simpl. rewrite app_nil_r. by split_and!. }
    destruct (decide (out = [])) as [->|Hd].
    { unfold Pipe.read. rewrite Ho. simpl. rewrite app_nil_r. by split_and!. }
    rewrite pipe_read_spec by done. case_decide as Hf; simpl.
    + rewrite app_nil_r. by split_and!.
    + set (n := min _ _). destruct (copy_n_spec (Pipe.buffer c) n out) as (_ & -> & _); [lia..|].
      rewrite app_nil_r, take_drop. destruct Hw as [Hl _]. split_and!; try done. split; simpl; [|done].
      rewrite length_drop. lia.
  - by split_and!; [split; simpl; [lia|]|..].
Qed.

Lemma pipe_run_closed c ops :
  pipe_wf c → Pipe.open c = false → let '(a, d, c') := pipe_run c ops in a = [] ∧ d = [] ∧ c' = c.
Proof.
  revert c. induction ops as [|op ops IH]; intros c Hw Ho; simpl; [done|].
  assert (pipe_step c op = ([], [], c)) as ->.
  { destruct op; simpl; unfold Pipe.write, Pipe.read, Pipe.close; rewrite ?Ho; [done..|].
    destruct Hw as [_ Hb]. destruct c; simpl in *. by rewrite Hb, Ho by done. }
  specialize (IH c Hw Ho). destruct (pipe_run c ops) as [[a d] c']. by destruct IH as (-> & -> & ->).
Qed.

Lemma pipe_run_fifo c ops :
  pipe_wf c →
  let '(a, d, c') := pipe_run c ops in
  pipe_wf c' ∧ Pipe.capacity c' = Pipe.capacity c ∧
  if decide (PClose ∈ ops)
  then d `prefix_of` Pipe.buffer c ++ a ∧ Pipe.open c' = false
  else Pipe.open c' = Pipe.open c ∧ Pipe.buffer c ++ a = d ++ Pipe.buffer c'.
Proof.
  revert c. induction ops as [|op ops IH]; intros c Hw; cbn [stream_run].
  - rewrite decide_False by apply not_elem_of_nil. by rewrite app_nil_r.
  - pose proof (pipe_step_fifo c op Hw) as Hs. destruct (pipe_step c op) as [[a d] c1].
    destruct Hs as (Hw1 & Hc1 & Hs). specialize (IH c1 Hw1).
    pose proof (pipe_run_closed c1 ops Hw1) as Hcl. destruct (pipe_run c1 ops) as [[a' d'] c2].
    destruct IH as (Hw2 & Hc2 & IH). split; [done|]. split; [congruence|].
    destruct (decide (op = PClose)) as [->|Hop].
    + rewrite decide_True by apply list_elem_of_here. destruct Hs as (-> & -> & Ho1).
      destruct (Hcl Ho1) as (-> & -> & ->). split; [apply prefix_nil|done].
    + assert (Pipe.open c1 = Pipe.open c ∧ Pipe.buffer c ++ a = d ++ Pipe.buffer c1) as [Ho1 Hb1]
        by (by destruct op). rewrite (app_assoc _ a a'), Hb1, <-app_assoc.
      destruct (decide (PClose ∈ ops)) as [Hin|Hin].
      * rewrite decide_True by (by apply list_elem_of_further). destruct IH as [Hp Ho]. split; [by apply prefix_app|done].
      * rewrite decide_False by (apply not_elem_of_cons; by split). destruct IH as [Ho Hb].
        split; [congruence|]. by rewrite Hb, app_assoc.
Qed.

(** A bounded lossless FIFO: what a pipe of capacity [cap] promises after the
    calls [ops].  As long as it was not closed, the bytes accepted are those
    delivered followed by those buffered; closing only drops a suffix.  The
    buffer never exceeds the capacity, a write takes what fits and is refused
    only when nothing does, a read delivers from the front, and a closed pipe
    refuses. *)
Definition is_fifo (cap : nat) (ops : list pipe_op) (accepted delivered : list byte) (c : Pipe.t) : Prop :=
  length (Pipe.buffer c) ≤ max 1 cap ∧
  (PClose ∉ ops → accepted = delivered ++ Pipe.buffer c) ∧ delivered `prefix_of` accepted ∧
  (∀ data, data ≠ [] → (Pipe.write c data).1 =
     if decide (PClose ∈ ops) then error ErrorCode.InvalidState
     else if decide (length (Pipe.buffer c) = max 1 cap) then error ErrorCode.BufferFull
     else ok (min (max 1 cap - length (Pipe.buffer c)) (length data))) ∧
  (∀ out, out ≠ [] → Pipe.buffer c ≠ [] →
     let n := min (length out) (length (Pipe.buffer c)) in
     let '(r, out', c') := Pipe.read c out in
     r = ok n ∧ take n out' = take n (Pipe.buffer c) ∧ drop n out' = drop n out ∧
     Pipe.buffer c' = drop n (Pipe.buffer c)).

Lemma pipe_fifo name cap ops :
  let '(accepted, delivered, c) := pipe_run (Pipe.make name cap) ops in is_fifo cap ops accepted delivered c.
Proof.
  assert (pipe_wf (Pipe.make name cap)) as Hw0 by (split; simpl; [lia|done]).
  pose proof (pipe_run_fifo (Pipe.make name cap) ops Hw0) as Hr.
  destruct (pipe_run _ ops) as [[a d] c]. destruct Hr as (Hw & Hcap & Hr). simpl in Hr, Hcap.
  pose proof Hw as [Hl Hb]. rewrite Hcap in Hl. split_and!.
  - done.
  - intros Hc. rewrite decide_False in Hr by done. apply Hr.
  - case_decide; destruct Hr as [? Hr]; [done|]. rewrite Hr. by apply prefix_app_r.
  - intros data Hd. destruct (decide (PClose ∈ ops)); destruct Hr as [Hr1 Hr2].
    { unfold Pipe.write. by rewrite Hr2. }
    rewrite pipe_write_spec by done. rewrite Hcap. repeat case_decide; try done; lia.
  - intros out Ho Hne. assert (Pipe.open c = true) as Hop.
    { destruct (Pipe.open c); [done|]. by rewrite Hb in Hne. }
    simpl. rewrite pipe_read_spec by done. rewrite decide_False by done.
    by destruct (copy_n_spec (Pipe.buffer c) (min (length out) (length (Pipe.buffer c))) out)
      as (_ & -> & ->); [lia..|].
Qed.
