(* ===== verification/IpcTheorems.v ===== *)
(** * IpcTheorems: the message queue and the manager

    Stable priority order of message queues, and the manager's directory of
    channels under any sequence of calls. *)
From S2P Require Import Prelude Core Ipc IpcProps.

(** ** Message queues *)
Definition of_priority (p : Z) (q : list Message) : list Message :=
  filter (λ m, msg_priority m = p) q.
Definition not_above (m m' : Message) : Prop := (msg_priority m' ≤ msg_priority m)%Z.

Lemma of_priority_app p q q' : of_priority p (q ++ q') = of_priority p q ++ of_priority p q'.
Proof. apply filter_app. Qed.

Lemma of_priority_none p q : Forall (λ m, (msg_priority m < p)%Z) q → of_priority p q = [].
Proof.
  induction 1 as [|m q Hm _ IH]; [done|]. unfold of_priority. rewrite filter_cons_False by lia. done.
Qed.

Lemma insert_spec m q :
  StronglySorted not_above q →
  StronglySorted not_above (MessageQueue.insert_before_lower m q) ∧
  (∀ p, of_priority p (MessageQueue.insert_before_lower m q) = of_priority p (q ++ [m])) ∧
  MessageQueue.insert_before_lower m q ≡ₚ m :: q.
Proof.
  induction 1 as [|x q Hs IH Hx]; simpl.
  - split_and!; [repeat constructor|done|done].
  - destruct IH as (IH1 & IH2 & IH3). destruct (Z.ltb_spec (msg_priority x) (msg_priority m)) as [Hlt|Hge].
    + split_and!; [|intros p|done].
      * constructor; [by constructor|]. constructor; [unfold not_above; lia|].
        eapply Forall_impl; [exact Hx|]. unfold not_above. lia.
      * change (x :: q ++ [m]) with ((x :: q) ++ [m]). rewrite of_priority_app.
        change (m :: x :: q) with ([m] ++ (x :: q)). rewrite of_priority_app.
        destruct (decide (msg_priority m = p)) as [<-|Hne].
        -- rewrite (of_priority_none _ (x :: q)); [by rewrite app_nil_r|]. constructor; [done|].
           eapply Forall_impl; [exact Hx|]. unfold not_above. lia.
        -- assert (of_priority p [m] = []) as -> by (unfold of_priority; by rewrite filter_cons_False).
           by rewrite app_nil_r.
    + split_and!.
      * constructor; [done|]. rewrite IH3. constructor; [done|]. done.
      * intros p. change (x :: ?l) with ([x] ++ l). rewrite !of_priority_app, IH2.
        by rewrite of_priority_app.
      * rewrite IH3. apply Permutation_swap.
Qed.

Inductive mq_op :=
| MSend (m : Message) | MReceive | MWrite (data : list byte) | MRead (out : list byte) | MClose.

(** One call, with the messages it accepted and the messages it took out. *)
Definition mq_step (c : MessageQueue.t) (op : mq_op) : list Message * list Message * MessageQueue.t :=
  match op with
  | MSend m => let '(r, c') := MessageQueue.send c m in (if isOk r then [m] else [], [], c')
  | MWrite d =>
      let '(r, c') := MessageQueue.write c d in (if isOk r then [MkMessage 0 0 d] else [], [], c')
  | MReceive =>
      let '(r, c') := MessageQueue.receive c in ([], match r with ok m => [m] | error _ => [] end, c')
  | MRead out =>
      let '(r, _, c') := MessageQueue.read c out in
      ([], if isOk r then take 1 (MessageQueue.queue c) else [], c')
  | MClose => ([], [], MessageQueue.close c)
  end.
Notation mq_run := (stream_run mq_step).

Record mq_wf (c : MessageQueue.t) : Prop := {
  mq_bound : length (MessageQueue.queue c) ≤ MessageQueue.maxMessages c;
  mq_closed : MessageQueue.open c = false → MessageQueue.queue c = [];
  mq_sorted : MessageQueue.priorityMode c = true → StronglySorted not_above (MessageQueue.queue c)
}.

(** What a call that does not close the queue relates: per priority, and in all
    when priorities are off, what was queued and accepted comes out in order. *)
Definition in_order (c : MessageQueue.t) (a d : list Message) (c' : MessageQueue.t) : Prop :=
  (∀ p, of_priority p (MessageQueue.queue c ++ a) = of_priority p (d ++ MessageQueue.queue c')) ∧
  (MessageQueue.priorityMode c = false → MessageQueue.queue c ++ a = d ++ MessageQueue.queue c').
Definition same_config (c c' : MessageQueue.t) : Prop :=
  MessageQueue.maxMessages c' = MessageQueue.maxMessages c ∧
  MessageQueue.priorityMode c' = MessageQueue.priorityMode c.

Lemma in_order_refl c : in_order c [] [] c.
Proof. split; intros; by rewrite app_nil_r. Qed.

Lemma mq_unchanged c : mq_wf c → mq_wf c ∧ same_config c c ∧ in_order c [] [] c.
Proof. intros. split_and!; [done|done|apply in_order_refl]. Qed.

Lemma mq_send_order c m :
  mq_wf c →
  let '(r, c') := MessageQueue.send c m in
  mq_wf c' ∧ same_config c c' ∧ in_order c (if isOk r then [m] else []) [] c'.
Proof.
  intros Hw. pose proof Hw as [Hb Hc Hs]. unfold MessageQueue.send.
  destruct (MessageQueue.open c) eqn:Ho; simpl; [|by apply mq_unchanged].
  destruct (Nat.leb_spec (MessageQueue.maxMessages c) (length (MessageQueue.queue c))) as [Hf|Hf];
    simpl; [by apply mq_unchanged|].
  destruct (MessageQueue.priorityMode c) eqn:Hp.
  - destruct (insert_spec m _ (Hs eq_refl)) as (H1 & H2 & H3). split_and!; [|by split|].
    + split; simpl; [|done|done]. rewrite H3. simpl. lia.
    + split; simpl; [|congruence]. intros p. by rewrite H2.
  - split_and!; [|by split|].
    + split; simpl; [|done|done]. rewrite length_app. simpl. lia.
    + by split; simpl.
Qed.

Lemma mq_receive_order c :
  mq_wf c →
  let '(r, c') := MessageQueue.receive c in
  mq_wf c' ∧ same_config c c' ∧
  in_order c [] (match r with ok m => [m] | error _ => [] end) c' ∧
  (isOk r = true → match r with ok m => [m] | error _ => [] end = take 1 (MessageQueue.queue c)).
Proof.
  intros Hw. pose proof Hw as [Hb Hc Hs]. unfold MessageQueue.receive.
  destruct (MessageQueue.open c) eqn:Ho; simpl; [|destruct (mq_unchanged c Hw) as (?&?&?); by split_and!].
  destruct (MessageQueue.queue c) as [|m q] eqn:Hq; [destruct (mq_unchanged c Hw) as (?&?&?); by split_and!|].
  split_and!; [|by split| |done].
  - split; simpl; [simpl in Hb; lia|done|]. intros Hp%Hs. by apply StronglySorted_inv in Hp as [? _].
  - split; simpl; intros; by rewrite Hq, app_nil_r.
Qed.

Lemma mq_step_order c op :
  mq_wf c →
  let '(a, d, c') := mq_step c op in
  mq_wf c' ∧ same_config c c' ∧
  match op with MClose => a = [] ∧ d = [] ∧ MessageQueue.open c' = false | _ => in_order c a d c' end.
Proof.
  intros Hw. pose proof (mq_receive_order c Hw) as Hr. destruct op as [m| |data|out|]; simpl.
  - pose proof (mq_send_order c m Hw). by destruct (MessageQueue.send c m).
  - destruct (MessageQueue.receive c). by destruct Hr as (?&?&?&_).
  - unfold MessageQueue.write. pose proof (mq_send_order c (MkMessage 0 0 data) Hw).
    by destruct (MessageQueue.send c _) as [[]].
  - unfold MessageQueue.read. destruct (MessageQueue.receive c) as [[m|e] c']; simpl in *;
      destruct Hr as (?&?&Ho&He); split_and!; try done. by rewrite <-He.
  - destruct Hw as [Hb _ _]. split_and!; try done. split; simpl; [lia|done|intros; constructor].
Qed.

Lemma in_order_app c a d c1 a' d' c2 :
  same_config c c1 → in_order c a d c1 → in_order c1 a' d' c2 → in_order c (a ++ a') (d ++ d') c2.
Proof.
  intros [_ Hp] [H1 H2] [H3 H4]. split.
  - intros p. specialize (H1 p). specialize (H3 p). rewrite !of_priority_app in *.
    rewrite (app_assoc (of_priority p (MessageQueue.queue c))), H1, <-!app_assoc. by f_equal.
  - intros Hm. rewrite (app_assoc (MessageQueue.queue c)), H2 by done. rewrite <-!app_assoc.
    f_equal. apply H4. congruence.
Qed.

Definition no_close (ops : list mq_op) : Prop := Forall (λ op, op ≠ MClose) ops.

Lemma mq_run_wf c ops : mq_wf c → mq_wf (mq_run c ops).2 ∧ same_config c (mq_run c ops).2.
Proof.
  revert c. induction ops as [|op ops IH]; intros c Hw; simpl; [done|].
  pose proof (mq_step_order c op Hw) as Hs. destruct (mq_step c op) as [[a d] c1].
  destruct Hs as (Hw1 & [Hm Hp] & _). destruct (IH c1 Hw1) as [? [Hm' Hp']].
  destruct (mq_run c1 ops) as [[a' d'] c2]. split; [done|]. simpl in *. split; congruence.
Qed.

Lemma mq_run_order c ops :
  mq_wf c → no_close ops → let '(a, d, c') := mq_run c ops in in_order c a d c'.
Proof.
  revert c. induction ops as [|op ops IH]; intros c Hw Hn; simpl; [apply in_order_refl|].
  inversion Hn as [|?? Hop Hn']; subst. pose proof (mq_step_order c op Hw) as Hs.
  destruct (mq_step c op) as [[a d] c1]. destruct Hs as (Hw1 & Hc & Hs). specialize (IH c1 Hw1 Hn').
  destruct (mq_run c1 ops) as [[a' d'] c2]. eapply in_order_app; [done| |done]. by destruct op.
Qed.

(** Stable priority order: what a queue promises after the calls [ops].  It is
    within its bound; unless it was closed, the messages accepted of each
    priority are those delivered of that priority followed by those queued, in
    order, and without priority mode this holds of all messages together; in
    priority mode a received message has a priority no lower than any left; a
    send is refused only when the queue is full. *)
Definition is_stable_queue (maxMsgs : nat) (prio : bool) (ops : list mq_op) (accepted delivered : list Message)
    (c : MessageQueue.t) : Prop :=
  length (MessageQueue.queue c) ≤ max 1 maxMsgs ∧
  (no_close ops → ∀ p, of_priority p accepted =
     of_priority p delivered ++ of_priority p (MessageQueue.queue c)) ∧
  (no_close ops → prio = false → accepted = delivered ++ MessageQueue.queue c) ∧
  (∀ m c', MessageQueue.receive c = (ok m, c') → prio = true →
     Forall (λ m', (msg_priority m' ≤ msg_priority m)%Z) (MessageQueue.queue c')) ∧
  (∀ m, (MessageQueue.send c m).1 = error ErrorCode.BufferFull →
     length (MessageQueue.queue c) = max 1 maxMsgs).

Lemma message_queue_order name maxMsgs prio ops :
  let '(accepted, delivered, c) := mq_run (MessageQueue.make name maxMsgs prio) ops in
  is_stable_queue maxMsgs prio ops accepted delivered c.
Proof.
  set (c0 := MessageQueue.make name maxMsgs prio).
  assert (mq_wf c0) as Hw0.
  { split; simpl; [lia|done|intros; constructor]. }
  destruct (mq_run_wf c0 ops Hw0) as [[Hb Hc Hs] [Hm Hp]].
  pose proof (mq_run_order c0 ops Hw0) as Hr. destruct (mq_run c0 ops) as [[a d] c]. simpl in *. split_and!.
  - lia.
  - intros Hn p. destruct (Hr Hn) as [H _]. rewrite <-of_priority_app. exact (H p).
  - intros Hn Hf. destruct (Hr Hn) as [_ H]. exact (H Hf).
  - intros m c' Hrec Hf. unfold MessageQueue.receive in Hrec. destruct (negb _); [done|].
    destruct (MessageQueue.queue c) as [|m' q] eqn:Hq; [done|]. simplify_eq/=.
    by apply StronglySorted_inv in Hs as [_ ?].
  - intros m. unfold MessageQueue.send. destruct (negb _); [done|].
    destruct (Nat.leb_spec (MessageQueue.maxMessages c) (length (MessageQueue.queue c))); [|done]. lia.
Qed.

(** ** The manager against a directory of channels *)
Inductive channel_use := UseWrite (data : list byte) | UseRead (out : list byte) | UseClose.
Inductive ipc_op :=
| CreatePipe (name : string) (capacity : nat)
| CreateShared (name : string) (bytes : nat)
| CreateQueue (name : string) (maxMessages : nat) (priorityMode : bool)
| Destroy (name : string)
| Through (name : string) (use : channel_use).
Inductive reply := Done (r : Result unit) | Moved (r : Result nat) (out : list byte).

Definition use_channel (ch : channel) (u : channel_use) : reply * channel :=
  match u with
  | UseWrite data => let '(r, ch') := ch_write ch data in (Moved r [], ch')
  | UseRead out => let '(r, out', ch') := ch_read ch out in (Moved r out', ch')
  | UseClose => (Done (ok tt), ch_close ch)
  end.

(** A client's call; using a channel goes through [getChannel], and [None] is a
    dereference of a dangling reference. *)
Definition ipc_step (m : IpcManager.t) (op : ipc_op) : option (reply * IpcManager.t) :=
  match op with
  | CreatePipe n k => let '(r, m') := IpcManager.createPipe m n k in Some (Done r, m')
  | CreateShared n k => let '(r, m') := IpcManager.createSharedMemory m n k in Some (Done r, m')
  | CreateQueue n k p => let '(r, m') := IpcManager.createMessageQueue m n k p in Some (Done r, m')
  | Destroy n => let '(r, m') := IpcManager.destroyChannel m n in Some (Done r, m')
  | Through n u =>
      match IpcManager.getChannel m n with
      | error e => Some (Done (error e), m)
      | ok r =>
          let! ch := IpcManager.deref m r in
          let '(a, ch') := use_channel ch u in Some (a, IpcManager.update m r ch')
      end
  end.
Fixpoint ipc_run (m : IpcManager.t) (ops : list ipc_op) : option (list reply * IpcManager.t) :=
  match ops with
  | [] => Some ([], m)
  | op :: ops' =>
      let! (a, m1) := ipc_step m op in
      let! (rs, m2) := ipc_run m1 ops' in Some (a :: rs, m2)
  end.

(** The specification: one finite map from names to channels. *)
Definition dir_create (d : gmap string channel) (n : string) (ch : channel) : reply * gmap string channel :=
  if decide (n = EmptyString) then (Done (error ErrorCode.InvalidArgument), d)
  else match d !! n with Some _ => (Done (ok tt), d) | None => (Done (ok tt), <[n := ch]> d) end.
Definition dir_step (d : gmap string channel) (op : ipc_op) : reply * gmap string channel :=
  match op with
  | CreatePipe n k => dir_create d n (PipeChannel (Pipe.make n k))
  | CreateShared n k => dir_create d n (SharedChannel (SharedMemory.make n k))
  | CreateQueue n k p => dir_create d n (QueueChannel (MessageQueue.make n k p))
  | Destroy n =>
      match d !! n with
      | None => (Done (error ErrorCode.NotFound), d) | Some _ => (Done (ok tt), delete n d) end
  | Through n u =>
      match d !! n with
      | None => (Done (error ErrorCode.NotFound), d)
      | Some ch => let '(a, ch') := use_channel ch u in (a, <[n := ch']> d)
      end
  end.
Fixpoint dir_run (d : gmap string channel) (ops : list ipc_op) : list reply * gmap string channel :=
  match ops with
  | [] => ([], d)
  | op :: ops' => let '(a, d1) := dir_step d op in let '(rs, d2) := dir_run d1 ops' in (a :: rs, d2)
  end.

Record represents (m : IpcManager.t) (d : gmap string channel) : Prop := {
  rep_live n r : IpcManager.channels m !! n = Some r → ∃ ch, IpcManager.heap m !! r = Some ch ∧ d !! n = Some ch;
  rep_absent n : IpcManager.channels m !! n = None → d !! n = None;
  rep_inj n1 n2 r : IpcManager.channels m !! n1 = Some r → IpcManager.channels m !! n2 = Some r → n1 = n2;
  rep_owned r : is_Some (IpcManager.heap m !! r) → ∃ n, IpcManager.channels m !! n = Some r;
  rep_next r : is_Some (IpcManager.heap m !! r) → r < IpcManager.next_ref m
}.

Lemma represents_dom m d : represents m d → dom (IpcManager.channels m) = dom d.
Proof.
  intros H. apply set_eq. intros n. rewrite !elem_of_dom. split.
  - intros [r Hr]. destruct (rep_live _ _ H n r Hr) as (ch & _ & ->). by eexists.
  - intros [ch Hd]. destruct (IpcManager.channels m !! n) eqn:E; [by eexists|].
    apply (rep_absent _ _ H) in E. congruence.
Qed.

Lemma represents_emplace m d n ch :
  represents m d → IpcManager.channels m !! n = None →
  represents (IpcManager.emplace m n ch) (<[n := ch]> d).
Proof.
  intros [H1 H2 H3 H4 H5] Hn.
  assert (IpcManager.heap m !! IpcManager.next_ref m = None) as Hfresh.
  { destruct (IpcManager.heap m !! IpcManager.next_ref m) eqn:E; [|done].
    specialize (H5 _ (mk_is_Some _ _ E)). lia. }
  assert (∀ n' r, IpcManager.channels m !! n' = Some r → r ≠ IpcManager.next_ref m) as Hold.
  { intros n' r (c & Hc & _)%H1 ->. congruence. }
  split; unfold IpcManager.emplace; cbn [IpcManager.channels IpcManager.heap IpcManager.next_ref].
  - intros n' r. rewrite !lookup_insert. destruct (decide (n = n')) as [<-|Hne].
    + intros [= <-]. rewrite decide_True by done. by eexists.
    + intros Hr. rewrite decide_False by (intros <-; by apply (Hold n' _ Hr)). by apply H1.
  - intros n'. rewrite !lookup_insert. case_decide; [done|]. apply H2.
  - intros n1 n2 r. rewrite !lookup_insert. intros E1 E2. repeat case_decide; simplify_eq; try done;
      first [by eapply H3 | exfalso; eapply Hold; [eassumption|reflexivity]].
  - intros r. rewrite lookup_insert. case_decide as E; subst.
    + intros _. exists n. by rewrite lookup_insert_eq.
    + intros [n' Hn']%H4. exists n'. rewrite lookup_insert_ne; [done|]. congruence.
  - intros r. rewrite lookup_insert. case_decide; [lia|]. intros ?%H5. lia.
Qed.

Lemma represents_destroy m d n r :
  represents m d → IpcManager.channels m !! n = Some r →
  represents (IpcManager.mk (delete n (IpcManager.channels m)) (delete r (IpcManager.heap m))
                (IpcManager.next_ref m)) (delete n d).
Proof.
  intros [H1 H2 H3 H4 H5] Hn. split; cbn [IpcManager.channels IpcManager.heap IpcManager.next_ref].
  - intros n' r'. rewrite !lookup_delete. case_decide as Hne; [done|]. intros Hr.
    rewrite decide_False; [by apply H1|]. intros <-. by apply Hne, (H3 n n' r).
  - intros n'. rewrite !lookup_delete. case_decide; [done|]. apply H2.
  - intros n1 n2 r'. rewrite !lookup_delete. repeat case_decide; [done..|]. apply H3.
  - intros r'. rewrite lookup_delete. case_decide; [by intros []|]. intros [n' Hn']%H4. exists n'.
    rewrite lookup_delete_ne; [done|]. congruence.
  - intros r'. rewrite lookup_delete. case_decide; [by intros []|]. apply H5.
Qed.

Lemma represents_update m d n r ch :
  represents m d → IpcManager.channels m !! n = Some r →
  represents (IpcManager.update m r ch) (<[n := ch]> d).
Proof.
  intros [H1 H2 H3 H4 H5] Hn. destruct (H1 n r Hn) as (c0 & Hc0 & _).
  assert (∀ r', is_Some (<[r := ch]> (IpcManager.heap m) !! r') → is_Some (IpcManager.heap m !! r')) as Hdom.
  { intros r'. rewrite lookup_insert. case_decide; [subst; by eexists|done]. }
  split; unfold IpcManager.update; cbn [IpcManager.channels IpcManager.heap IpcManager.next_ref].
  - intros n' r' Hr. rewrite !lookup_insert. destruct (decide (n = n')) as [<-|Hne].
    + rewrite decide_True by congruence. by eexists.
    + rewrite decide_False; [by apply H1|]. intros <-. by apply Hne, (H3 n n' r).
  - intros n' Hr. rewrite lookup_insert_ne by congruence. by apply H2.
  - apply H3.
  - intros r' ?%Hdom. by apply H4.
  - intros r' ?%Hdom. by apply H5.
Qed.

Lemma create_refines m d n ch :
  represents m d →
  let m' := if decide (n = EmptyString) then m
            else if decide (is_Some (IpcManager.channels m !! n)) then m else IpcManager.emplace m n ch in
  let r := if decide (n = EmptyString) then error ErrorCode.InvalidArgument else ok tt in
  ∃ d', dir_create d n ch = (Done r, d') ∧ represents m' d'.
Proof.
  intros H. unfold dir_create. case_decide; [by eexists|]. case_decide as Hs.
  - destruct Hs as [r Hr]. destruct (rep_live _ _ H n r Hr) as (c & _ & ->). by eexists.
  - apply eq_None_not_Some in Hs. rewrite (rep_absent _ _ H n Hs). eexists. split; [done|].
    by apply represents_emplace.
Qed.

Lemma create_step m n ch :
  (if decide (n = EmptyString) then (error ErrorCode.InvalidArgument, m)
   else if decide (is_Some (IpcManager.channels m !! n)) then (ok tt, m)
   else (ok tt, IpcManager.emplace m n ch)) =
  (if decide (n = EmptyString) then error ErrorCode.InvalidArgument else ok tt,
   if decide (n = EmptyString) then m
   else if decide (is_Some (IpcManager.channels m !! n)) then m else IpcManager.emplace m n ch).
Proof. by repeat case_decide. Qed.

Lemma ipc_step_refines m d op :
  represents m d →
  ∃ a m' d', ipc_step m op = Some (a, m') ∧ dir_step d op = (a, d') ∧ represents m' d'.
Proof.
  intros H. destruct op as [n k|n k|n k p|n|n u]; simpl.
  1-3: unfold IpcManager.createPipe, IpcManager.createSharedMemory, IpcManager.createMessageQueue;
    rewrite create_step; edestruct (create_refines m d n) as (d' & -> & Hr); [done|]; by do 3 eexists.
  - unfold IpcManager.destroyChannel. destruct (IpcManager.channels m !! n) as [r|] eqn:Hn.
    + destruct (rep_live _ _ H n r Hn) as (ch & _ & ->). do 3 eexists. split; [done|]. split; [done|].
      by apply represents_destroy.
    + rewrite (rep_absent _ _ H n Hn). by do 3 eexists.
  - unfold IpcManager.getChannel. destruct (IpcManager.channels m !! n) as [r|] eqn:Hn.
    + destruct (rep_live _ _ H n r Hn) as (ch & Hch & ->). unfold IpcManager.deref. rewrite Hch. simpl.
      destruct (use_channel ch u) as [a ch']. do 3 eexists. split; [done|]. split; [done|].
      by apply represents_update.
    + rewrite (rep_absent _ _ H n Hn). by do 3 eexists.
Qed.

Lemma ipc_run_refines m d ops :
  represents m d →
  ∃ rs m' d', ipc_run m ops = Some (rs, m') ∧ dir_run d ops = (rs, d') ∧ represents m' d'.
Proof.
  revert m d. induction ops as [|op ops IH]; intros m d H; simpl; [by do 3 eexists|].
  destruct (ipc_step_refines m d op H) as (a & m1 & d1 & -> & -> & H1). simpl.
  destruct (IH m1 d1 H1) as (rs & m2 & d2 & -> & -> & H2). simpl. by do 3 eexists.
Qed.

Lemma represents_empty : represents IpcManager.make ∅.
Proof.
  split; simpl.
  - intros n r. by rewrite lookup_empty.
  - intros n _. apply lookup_empty.
  - intros n1 n2 r. by rewrite lookup_empty.
  - intros r. rewrite lookup_empty. by intros [].
  - intros r. rewrite lookup_empty. by intros [].
Qed.

(** A reference that is dead stays dead: addresses are not given out twice. *)
Lemma ipc_step_stale m op a m' r :
  ipc_step m op = Some (a, m') → r < IpcManager.next_ref m → IpcManager.deref m r = None →
  r < IpcManager.next_ref m' ∧ IpcManager.deref m' r = None.
Proof.
  intros Hs Hr Hd. unfold IpcManager.deref in *. destruct op as [n k|n k|n k p|n|n u]; simpl in Hs.
  1-3: unfold IpcManager.createPipe, IpcManager.createSharedMemory, IpcManager.createMessageQueue in Hs;
    rewrite create_step in Hs; repeat case_decide; simplify_eq/=; try done;
    (split; [lia|]; rewrite lookup_insert_ne by lia; done).
  - unfold IpcManager.destroyChannel in Hs. destruct (IpcManager.channels m !! n) as [r'|]; simplify_eq/=; [|done].
    split; [done|]. rewrite lookup_delete. by case_decide.
  - destruct (IpcManager.getChannel m n) as [r'|e]; simplify_eq/=; [|done].
    destruct (IpcManager.deref m r') as [ch|] eqn:Hch; [|done]. simpl in Hs.
    destruct (use_channel ch u) as [a' ch']. simplify_eq/=. split; [done|].
    rewrite lookup_insert_ne; [done|]. intros ->. unfold IpcManager.deref in Hch. congruence.
Qed.

(** C33: the manager implements a directory of channels.  Every sequence of calls
    from an empty manager, using channels through the references it hands out,
    is free of dangling references and answers like one finite map from names to
    channels: creating an existing name succeeds and changes nothing, whatever
    its kind, and using one channel leaves every other as it is.  A reference
    kept across the destruction of its channel is dead for good, even when the
    name is created again. *)
Theorem ipc_manager_refines ops :
  ∃ rs m d, ipc_run IpcManager.make ops = Some (rs, m) ∧ dir_run ∅ ops = (rs, d) ∧
    (∀ n, d !! n = match IpcManager.getChannel m n with ok r => IpcManager.deref m r | error _ => None end) ∧
    (∀ n, IpcManager.exists_ m n = bool_decide (is_Some (d !! n))) ∧
    IpcManager.channelCount m = size d ∧
    (∀ n r, IpcManager.getChannel m n = ok r →
       let '(a, m1) := IpcManager.destroyChannel m n in
       a = ok tt ∧ ∀ ops' rs' m', ipc_run m1 ops' = Some (rs', m') → IpcManager.deref m' r = None).
Proof.
  destruct (ipc_run_refines _ _ ops represents_empty) as (rs & m & d & H1 & H2 & H).
  exists rs, m, d. pose proof (represents_dom m d H) as Hdom. split_and!; [done|done|..].
  - intros n. unfold IpcManager.getChannel, IpcManager.deref. destruct (IpcManager.channels m !! n) as [r|] eqn:Hn.
    + by destruct (rep_live _ _ H n r Hn) as (ch & -> & ->).
    + by rewrite (rep_absent _ _ H n Hn).
  - intros n. unfold IpcManager.exists_. apply bool_decide_ext. by rewrite <-!elem_of_dom, Hdom.
  - unfold IpcManager.channelCount. by rewrite <-(size_dom (IpcManager.channels m)), Hdom, size_dom.
  - intros n r. unfold IpcManager.getChannel, IpcManager.destroyChannel.
    destruct (IpcManager.channels m !! n) as [r'|] eqn:Hn; intros [= ->]. split; [done|].
    set (m1 := IpcManager.mk _ _ _).
    assert (r < IpcManager.next_ref m1 ∧ IpcManager.deref m1 r = None) as [Hr Hd].
    { destruct (rep_live _ _ H n r Hn) as (ch & Hch & _). split; [by apply (rep_next _ _ H); eexists|].
      apply lookup_delete_eq. }
    clearbody m1. intros ops'. revert m1 Hr Hd. induction ops' as [|op ops' IH]; intros m1 Hr Hd rs' m' Hrun;
      simpl in Hrun; [by simplify_eq|].
    destruct (ipc_step m1 op) as [[a m2]|] eqn:Hs; [|done]. simpl in Hrun.
    destruct (ipc_run m2 ops') as [[rs2 m3]|] eqn:Hrun'; simplify_eq/=.
    destruct (ipc_step_stale m1 op a m2 r Hs Hr Hd). by eapply IH.
Qed.

Lemma ipc_manager_refines_witness :
  ∃ m1 rs' m', (IpcManager.destroyChannel (IpcManager.emplace IpcManager.make "a" (PipeChannel (Pipe.make "a" 4))) "a")
      = (ok tt, m1) ∧
    ipc_run m1 [CreateQueue "a" 1 false; Through "a" (UseWrite [x01])] = Some (rs', m') ∧
    IpcManager.deref m' 0 = None ∧ rs' = [Done (ok tt); Moved (ok 1) []].
Proof.
  destruct (ipc_manager_refines [CreatePipe "a" 4]) as (rs & m & d & H1 & _ & _ & _ & _ & H).
  assert (m = IpcManager.emplace IpcManager.make "a" (PipeChannel (Pipe.make "a" 4))) as Hm.
  { vm_compute in H1. injection H1 as _ <-. vm_compute. reflexivity. }
  subst m. specialize (H "a"%string 0 eq_refl). eexists _, _, _.
  split; [reflexivity|]. split; [vm_compute; reflexivity|]. split; [|reflexivity].
  destruct H as [_ H]. exact (H [CreateQueue "a" 1 false; Through "a" (UseWrite [x01])] _ _ eq_refl).
Defined.
