(* ===== verification/MonitorClients.v ===== *)
(** * MonitorClients: the MMU and the channels between host threads

    Every method of [Mmu], [Pipe] and [MessageQueue] opens with a guard on the
    object's one mutex, so all three are monitors, and what a sequence of calls
    guarantees holds of calls made by any number of threads. *)
From S2P Require Import Prelude Monitor Core Ipc IpcProps IpcTheorems Arch Paging Mmu MmuInvariant MmuProps.

(** ** The MMU: [memory/mmu.cpp] *)
Section concurrent.
Context {M P : Type} `{HMem : !IMemory M} `{HLM : !LawfulMemory M}.
Context `{HPol : !IPageReplacementPolicy P} `{HLP : !LawfulPolicy P} `{HO : HashOrder}.

Definition mmu_body (o : mmu_op) (s : mmu M P) : option (Result mmu_value * mmu M P) := mmu_step s o.

Lemma mmu_seq_run ops (s : mmu M P) : seq_run mmu_body s ops = mmu_run s ops.
Proof.
  revert s. induction ops as [|o ops IH]; intros s; simpl; [done|]. unfold mmu_body at 1.
  destruct (mmu_step s o) as [[r s1]|]; [|done]. cbn [mbind option_bind]. by rewrite IH.
Qed.

(** C1: the MMU between threads.  Over any memory and any lawful replacement policy
    of the interfaces, threads call one MMU in any interleaving.  No call is
    undefined, and the calls end: while one is under way some thread can go on, a
    call takes at most five steps of its own thread, and without further calls at
    most five for each call under way are left until all have returned.  At every
    moment the frame bookkeeping is consistent.  And when no call is under way,
    the calls have an order, no call before one that had returned when it was
    made, in which the replies are those of a map from processes to address
    spaces with a set of resident pages: a read of a resident page returns the
    last write to the same page of the same process, whatever was evicted,
    swapped or rolled back in between; an access faults exactly when its page is
    not resident; [swapIn] brings its page in, alone while a frame is free and in
    the place of one other page otherwise; [swapOut] takes out its page only; and
    an allocation evicts exactly as many pages as the frames are short of, and
    can fail only when they are. *)
Theorem mmu_concurrent (mem : M) (pol : P) es y :
  (Z.of_nat (mem_cells mem) ≤ INVALID_FRAME)%Z → policy_ok pol → tracked pol = ∅ →
  mon_exec mmu_body (mon_init (Mmu_make mem pol)) es = Some y →
  mmu_wf (members_of y) ∧
  calls_end mmu_body y ∧
  (callers y = ∅ → ∃ order, sequential mmu_body (Mmu_make mem pol) y order ∧
     spec_run (mem_cells mem) ∅ ∅ (map (λ x, mc_call x.2) order) (map (λ x, mc_reply x.2) order)
       (spaces (members_of y)) (residents (members_of y))).
Proof.
  intros Hm Hok Htr He. pose proof (λ ops, mmu_refines mem pol ops Hm Hok Htr) as Hrun. split_and!.
  - destruct (monitor_members _ _ _ _ He) as (cs & rs & _ & Hr). rewrite mmu_seq_run in Hr.
    destruct (Hrun cs) as (rs' & s' & Hr' & Hw & _). congruence.
  - apply (monitor_returns _ _ _ _ He). intros cs c rs s _ Hr. apply (seq_run_last _ _ _ _ _ _ Hr).
    rewrite mmu_seq_run. destruct (Hrun (cs ++ [c])) as (rs' & s' & -> & _). by eexists.
  - intros Hq. destruct (monitor_sequential _ _ _ _ He Hq) as (order & Hs & _). exists order. split; [done|].
    pose proof (proj1 (proj2 Hs)) as Hr. rewrite mmu_seq_run in Hr.
    destruct (Hrun (map (λ x, mc_call x.2) order)) as (rs' & s' & Hr' & _ & Hspec). congruence.
Qed.
End concurrent.

(** ** A concrete interleaving *)

(** Two processes of one page each share one frame: thread 2's allocation takes
    it from process 1 between the allocation and the reads of thread 1. *)
Definition contended : list (mon_event mmu_op) :=
  [MCall 1 (MAllocate 1 1); MStep 1; MCall 2 (MAllocate 2 1); MStep 1; MStep 1; MStep 1; MStep 1; MCall 1 (MWrite 1 0 (data_cell 7));
   MStep 1; MStep 1; MStep 1; MStep 1; MStep 2; MStep 1; MStep 2; MStep 2; MCall 1 (MRead 1 0); MStep 2; MStep 2;
   MStep 1; MStep 1; MStep 1; MStep 1; MStep 1; MCall 1 (MSwapIn 1 0); MStep 1; MStep 1; MStep 1; MStep 1; MStep 1;
   MCall 3 (MRead 1 0); MStep 3; MStep 3; MStep 3; MStep 3; MStep 3].

Section demo.
#[local] Instance demo_order : HashOrder := canonical_order.
Definition one_frame : mmu PhysicalMemory.t FifoReplacement.t := Mmu_make (PhysicalMemory.make 1) FifoReplacement.init.
Definition contended_state : mon_sys (mmu PhysicalMemory.t FifoReplacement.t) mmu_op (Result mmu_value) :=
  default (mon_init one_frame) (mon_exec mmu_body (mon_init one_frame) contended).

Lemma contended_exec : mon_exec mmu_body (mon_init one_frame) contended = Some contended_state.
Proof. vm_compute. reflexivity. Qed.
Lemma contended_quiet : callers contended_state = ∅.
Proof. vm_compute. reflexivity. Qed.
(** The first read faults, the page being out; the second finds what was written. *)
Example contended_replies :
  (λ k, mc_reply <$> returned contended_state !! k) <$> [16; 24; 30] =
    [Some (error ErrorCode.SegmentationFault); Some (ok VDone); Some (ok (VBlock (data_cell 7)))].
Proof. vm_compute. reflexivity. Qed.

Lemma mmu_concurrent_witness :
  ∃ order, order ≡ₚ map_to_list (returned contended_state) ∧
    spec_run (mem_cells (PhysicalMemory.make 1)) ∅ ∅ (map (λ x, mc_call x.2) order) (map (λ x, mc_reply x.2) order)
      (spaces (members_of contended_state)) (residents (members_of contended_state)).
Proof.
  destruct (mmu_concurrent (PhysicalMemory.make 1) FifoReplacement.init contended contended_state) as (_ & _ & H).
  - vm_compute. done.
  - exact I.
  - reflexivity.
  - exact contended_exec.
  - destruct (H contended_quiet) as (order & (H1 & _) & H2). exists order. split; [exact H1|exact H2].
Defined.
End demo.

(** ** Channels: [ipc/pipe.cpp], [ipc/message_queue.cpp] *)
Section streams.
Context {S C A : Type} (step : S → C → list A * list A * S).

(** A call on a channel as a method of a monitor: the reply is what the call
    put in and what it took out. *)
Definition channel_body (op : C) (c : S) : option ((list A * list A) * S) :=
  let '(a, d, c') := step c op in Some ((a, d), c').

(** What the calls of a sequential order put in and took out. *)
Definition accepted (order : list (nat * mon_call C (list A * list A))) : list A :=
  concat (map (λ x, (mc_reply x.2).1) order).
Definition delivered (order : list (nat * mon_call C (list A * list A))) : list A :=
  concat (map (λ x, (mc_reply x.2).2) order).

(** A sequential order of the calls is a run of the channel. *)
Lemma order_is_run s y order :
  sequential channel_body s y order →
  stream_run step s (map (λ x, mc_call x.2) order) = (accepted order, delivered order, members_of y).
Proof.
  intros (_ & Hr & _). unfold accepted, delivered. revert s Hr.
  induction order as [|[st [op [a d] e]] order IH]; intros s; simpl; [by intros [= ->]|].
  unfold channel_body at 1. destruct (step s op) as [[a' d'] s1]. cbn [mbind option_bind].
  destruct (seq_run _ s1 _) as [[rs s2]|] eqn:Hr; cbn [mbind option_bind]; [|done].
  intros [= -> -> -> ->]. by rewrite (IH _ Hr).
Qed.

(** A channel's methods are defined in every state. *)
Lemma channel_total c s : is_Some (channel_body c s).
Proof. unfold channel_body. by destruct (step s c) as [[a d] s']. Qed.
End streams.


(** C34: a pipe is a bounded lossless FIFO between threads.  Whatever the
    interleaving of threads that write, read and close one pipe, the calls end
    (while one is under way some thread can go on, a call takes at most five
    steps of its own thread, and without further calls at most five for each are
    left), and when none is under way, the calls have
    an order, no call before one that had returned when it was made, in which
    the pipe is a FIFO: unless it was closed, the bytes accepted by the writes
    of all threads are those delivered to all readers followed by those
    buffered; the buffer is within the capacity, a write takes what fits and is
    refused only when nothing does, and closing only drops a suffix. *)
Theorem pipe_concurrent name cap es y :
  mon_exec (channel_body pipe_step) (mon_init (Pipe.make name cap)) es = Some y →
  calls_end (channel_body pipe_step) y ∧
  (callers y = ∅ → ∃ order, sequential (channel_body pipe_step) (Pipe.make name cap) y order ∧
     is_fifo cap (map (λ x, mc_call x.2) order) (accepted order) (delivered order) (members_of y)).
Proof.
  intros He. split.
  - apply (monitor_returns _ _ _ _ He). intros. apply channel_total.
  - intros Hq. destruct (monitor_sequential _ _ _ _ He Hq) as (order & Hs & _). exists order. split; [done|].
    pose proof (order_is_run _ _ _ _ Hs) as Hr. pose proof (pipe_fifo name cap (map (λ x, mc_call x.2) order)) as H.
    by rewrite Hr in H.
Qed.

(** C35: message queues deliver in stable priority order between threads.
    Whatever the interleaving of threads that send to and receive from one
    queue, the calls end (while one is under way some thread can go on, a call
    takes at most five steps of its own thread, and without further calls at most
    five for each are left), and when none is under way, the calls have an order,
    no call before one that had returned when it was made, in which the queue is
    stable: per priority, and without priority mode for all messages together,
    what all threads sent is, unless the queue was closed, what all threads
    received followed by what is queued; the queue is within its bound and
    refuses a send only when it is full. *)
Theorem message_queue_concurrent name maxMsgs prio es y :
  mon_exec (channel_body mq_step) (mon_init (MessageQueue.make name maxMsgs prio)) es = Some y →
  calls_end (channel_body mq_step) y ∧
  (callers y = ∅ → ∃ order, sequential (channel_body mq_step) (MessageQueue.make name maxMsgs prio) y order ∧
     is_stable_queue maxMsgs prio (map (λ x, mc_call x.2) order) (accepted order) (delivered order) (members_of y)).
Proof.
  intros He. split.
  - apply (monitor_returns _ _ _ _ He). intros. apply channel_total.
  - intros Hq. destruct (monitor_sequential _ _ _ _ He Hq) as (order & Hs & _). exists order. split; [done|].
    pose proof (order_is_run _ _ _ _ Hs) as Hr.
    pose proof (message_queue_order name maxMsgs prio (map (λ x, mc_call x.2) order)) as H.
    by rewrite Hr in H.
Qed.

(** ** Concrete interleavings *)
(** Two writers and a reader meet on a pipe for two bytes. *)
Definition crossed : list (mon_event pipe_op) :=
  [MCall 1 (PWrite [x01; x02]); MStep 1; MCall 2 (PWrite [x03]); MStep 1; MStep 1; MCall 3 (PRead [x00]); MStep 1;
   MStep 3; MStep 3; MStep 3; MStep 3; MStep 2; MStep 2; MStep 1; MStep 2; MStep 2; MStep 2; MStep 3].
Definition crossed_state : mon_sys Pipe.t pipe_op (list byte * list byte) :=
  default (mon_init (Pipe.make "p" 2)) (mon_exec (channel_body pipe_step) (mon_init (Pipe.make "p" 2)) crossed).

Lemma crossed_exec : mon_exec (channel_body pipe_step) (mon_init (Pipe.make "p" 2)) crossed = Some crossed_state.
Proof. vm_compute. reflexivity. Qed.
Lemma crossed_quiet : callers crossed_state = ∅.
Proof. vm_compute. reflexivity. Qed.
Example crossed_buffer : Pipe.buffer (members_of crossed_state) = [x02; x03].
Proof. vm_compute. reflexivity. Qed.

Lemma pipe_concurrent_witness :
  ∃ order, order ≡ₚ map_to_list (returned crossed_state) ∧ delivered order `prefix_of` accepted order ∧
    length (Pipe.buffer (members_of crossed_state)) ≤ 2.
Proof.
  destruct (pipe_concurrent "p" 2 crossed crossed_state crossed_exec) as [_ H].
  destruct (H crossed_quiet) as (order & (H1 & _) & H2 & _ & H3 & _). exists order.
  split; [exact H1|]. split; [exact H3|exact H2].
Defined.

(** Thread 2 sends an urgent message while thread 1's waits in the queue. *)
Definition urgent : list (mon_event mq_op) :=
  [MCall 1 (MSend (MkMessage 1 1 [])); MCall 2 (MSend (MkMessage 2 5 [])); MStep 1; MStep 1; MStep 1; MStep 1; MStep 2;
   MStep 2; MCall 3 MReceive; MStep 2; MStep 2; MStep 3; MStep 2; MStep 1; MStep 3; MStep 3; MStep 3; MStep 3].
Definition urgent_state : mon_sys MessageQueue.t mq_op (list Message * list Message) :=
  default (mon_init (MessageQueue.make "q" 3 true))
    (mon_exec (channel_body mq_step) (mon_init (MessageQueue.make "q" 3 true)) urgent).

Lemma urgent_exec : mon_exec (channel_body mq_step) (mon_init (MessageQueue.make "q" 3 true)) urgent = Some urgent_state.
Proof. vm_compute. reflexivity. Qed.
Lemma urgent_quiet : callers urgent_state = ∅.
Proof. vm_compute. reflexivity. Qed.
Example urgent_first : MessageQueue.queue (members_of urgent_state) = [MkMessage 1 1 []].
Proof. vm_compute. reflexivity. Qed.

Lemma message_queue_concurrent_witness :
  ∃ order, order ≡ₚ map_to_list (returned urgent_state) ∧
    length (MessageQueue.queue (members_of urgent_state)) ≤ 3.
Proof.
  destruct (message_queue_concurrent "q" 3 true urgent urgent_state urgent_exec) as [_ H].
  destruct (H urgent_quiet) as (order & (H1 & _) & H2 & _). exists order. split; [exact H1|exact H2].
Defined.
