(* ===== verification/Interp.v ===== *)
(** * Interp: process images and the interpreter engine

    [process/process_image.cpp], [execution/execution_context.h] and
    [execution/interpreter_engine.cpp]: the fetch-execute loop of one burst.
    The engine holds references to a CPU and to the memory that CPU runs on. *)
From S2P Require Import Prelude Core Process Arch Cpu.
Local Open Scope Z_scope.

(** ** Process images

    The control block embedded in an image is shared with the scheduler, which
    keeps a reference to it; the image is its address, the registers and the
    code. *)
Record ProcessImage := MkImage {
  im_pcb : Z;
  im_registers : list Z;
  im_code : list Block
}.

(** The constructor: the control block goes to the fresh address [r]. *)
Definition ProcessImage_make (r id : Z) (name : string) (code : list Block) (prio : Priority)
    (arrivalTime : Z) : option (PCB * ProcessImage) :=
  let! p := PCB_make id name prio arrivalTime in
  Some (p, MkImage r RegisterFile.init code).
Definition codeSize (im : ProcessImage) : nat := length (im_code im).
(** [None]: the assertion on the offset fails. *)
Definition readCode (im : ProcessImage) (offset : nat) : option Block := im_code im !! offset.
Definition setCode (im : ProcessImage) (newCode : list Block) : ProcessImage :=
  MkImage (im_pcb im) (im_registers im) newCode.
Definition set_registers (im : ProcessImage) (regs : list Z) : ProcessImage :=
  MkImage (im_pcb im) regs (im_code im).

(** ** Results of a burst *)
Inductive StopReason := BudgetExhausted | ProcessExited | StopError | Interrupted | Halted.
#[global] Instance StopReason_eq_dec : EqDecision StopReason.
Proof. solve_decision. Defined.

Module ExecutionResult.
Record t := mk { reason : StopReason; interrupt : Z; ticksConsumed : nat; pid : Z }.
Definition budgetExhausted (pid : Z) (ticks : nat) : t := mk BudgetExhausted Interrupt.Ok ticks pid.
Definition exited (pid : Z) (ticks : nat) : t := mk ProcessExited Interrupt.Exit ticks pid.
Definition error (pid : Z) (ticks : nat) (intr : Z) : t := mk StopError intr ticks pid.
Definition interrupted (pid : Z) (ticks : nat) (intr : Z) : t := mk Interrupted intr ticks pid.
Definition halted (pid : Z) (ticks : nat) : t := mk Halted Interrupt.Exit ticks pid.
End ExecutionResult.

(** ** The interface [IExecutionEngine], over the state [W] it runs on *)
Class IExecutionEngine (W : Type) := {
  execute : W → Z → ProcessImage → nat → option (ExecutionResult.t * ProcessImage * W);
  halt : W → Z → W
}.

(** ** The interpreter *)
Section interpreter.
Context {M : Type} `{!IMemory M}.

Record interpreter := MkInterp { in_flags : Z; in_memory : M; haltedPids : gset Z }.
Definition InterpreterEngine_make (fl : Z) (m : M) : interpreter := MkInterp fl m ∅.

Fixpoint load_cells (m : M) (i : nat) (code : list Block) : bool * M :=
  match code with
  | [] => (true, m)
  | b :: code' =>
      match mem_write m (u32 (Z.of_nat i)) b with
      | (error _, m') => (false, m')
      | (ok _, m') => load_cells m' (S i) code'
      end
  end.
Definition loadCode (m : M) (code : list Block) : bool * M :=
  if (mem_cells m <? length code)%nat then (false, m) else load_cells m 0 code.

(** The [switch] on the interrupt of a cycle; [Ok] continues the loop. *)
Definition stop_result (pid : Z) (ticks : nat) (i : Z) : ExecutionResult.t :=
  if i =? Interrupt.Exit then ExecutionResult.exited pid ticks else
  if i =? Interrupt.DivByZero then ExecutionResult.error pid ticks Interrupt.DivByZero else
  if i =? Interrupt.Error then ExecutionResult.error pid ticks Interrupt.Error else
  if i =? Interrupt.SystemCall then ExecutionResult.interrupted pid ticks Interrupt.SystemCall else
  if i =? Interrupt.DeviceIO then ExecutionResult.interrupted pid ticks Interrupt.DeviceIO else
  if i =? Interrupt.NetworkIO then ExecutionResult.interrupted pid ticks Interrupt.NetworkIO else
  if i =? Interrupt.PageFault then ExecutionResult.interrupted pid ticks Interrupt.PageFault else
  if i =? Interrupt.Timer then ExecutionResult.interrupted pid ticks Interrupt.Timer else
  ExecutionResult.error pid ticks i.

(** The loop with [n] ticks of the budget left. *)
Fixpoint run_loop (n : nat) (pid : Z) (ticksConsumed : nat) (h : gset Z) (c : cpu_state M)
    : option (ExecutionResult.t * gset Z * cpu_state M) :=
  match n with
  | 0%nat => Some (ExecutionResult.budgetExhausted pid ticksConsumed, h, c)
  | S n' =>
      if decide (pid ∈ h) then Some (ExecutionResult.halted pid ticksConsumed, h ∖ {[pid]}, c) else
      let! (i, c') := step c in
      let ticks := S ticksConsumed in
      if i =? Interrupt.Ok then run_loop n' pid ticks h c'
      else Some (stop_result pid ticks i, h, c')
  end.

Definition run (e : interpreter) (pid : Z) (im : ProcessImage) (tickBudget : nat)
    : option (ExecutionResult.t * ProcessImage * interpreter) :=
  if decide (pid ∈ haltedPids e)
  then Some (ExecutionResult.halted pid 0, im, MkInterp (in_flags e) (in_memory e) (haltedPids e ∖ {[pid]}))
  else
    let '(loaded, m) := loadCode (in_memory e) (im_code im) in
    if negb loaded
    then Some (ExecutionResult.error pid 0 Interrupt.Error, im, MkInterp (in_flags e) m (haltedPids e))
    else
      let! (res, h, c) := run_loop tickBudget pid 0 (haltedPids e) (MkCpu (in_flags e) m (im_registers im)) in
      Some (res, set_registers im (regs c), MkInterp (flags c) (memory c) h).

Definition halt_pid (e : interpreter) (pid : Z) : interpreter :=
  MkInterp (in_flags e) (in_memory e) ({[pid]} ∪ haltedPids e).
End interpreter.
Arguments interpreter : clear implicits.

#[global] Instance interpreter_engine {M} `{!IMemory M} : IExecutionEngine (interpreter M) := {|
  execute := run; halt := halt_pid
|}.

(** ** Reference semantics of a burst *)
Section burst.
Context {M : Type} `{HM : !IMemory M, HL : !LawfulMemory M}.
Implicit Types (c : cpu_state M) (m : M).

(** [n] cycles that raise nothing. *)
Inductive steps : nat → cpu_state M → cpu_state M → Prop :=
| steps_zero c : steps 0 c c
| steps_succ n c c1 c2 : step c = Some (Interrupt.Ok, c1) → steps n c1 c2 → steps (S n) c c2.

Lemma run_loop_spec n pid t h c :
  pid ∉ h →
  (∃ c', steps n c c' ∧ run_loop n pid t h c = Some (ExecutionResult.budgetExhausted pid (t + n), h, c')) ∨
  (∃ k c1 i c', (k < n)%nat ∧ steps k c c1 ∧ step c1 = Some (i, c') ∧ i ≠ Interrupt.Ok ∧
     run_loop n pid t h c = Some (stop_result pid (t + S k) i, h, c')) ∨
  (∃ k c1, (k < n)%nat ∧ steps k c c1 ∧ step c1 = None ∧ run_loop n pid t h c = None).
Proof.
  intros Hh. revert t c. induction n as [|n IH]; intros t c; simpl.
  { left. exists c. split; [constructor|]. by rewrite Nat.add_0_r. }
  rewrite decide_False by done. destruct (step c) as [[i c1]|] eqn:Hs; simpl.
  2: { right. right. exists 0%nat, c. split_and!; [lia|constructor|done|done]. }
  destruct (Z.eqb_spec i Interrupt.Ok) as [->|Hi].
  - destruct (IH (S t) c1) as [(c' & H1 & H2)|[(k & c2 & i & c' & Hk & H1 & H2 & Hi & H3)|(k & c2 & Hk & H1 & H2 & H3)]].
    + left. exists c'. split; [by econstructor|]. rewrite H2. by replace (t + S n)%nat with (S t + n)%nat by lia.
    + right. left. exists (S k), c2, i, c'. split_and!; [lia|by econstructor|done|done|].
      rewrite H3. by replace (t + S (S k))%nat with (S t + S k)%nat by lia.
    + right. right. exists (S k), c2. split_and!; [lia|by econstructor|done|done].
  - right. left. exists 0%nat, c, i, c1. split_and!; [lia|constructor|done|done|]. by rewrite Nat.add_1_r.
Qed.

Lemma load_cells_spec code m i :
  (i + length code ≤ mem_cells m)%nat → Z.of_nat (i + length code) ≤ 2 ^ 32 →
  ∃ m', load_cells m i code = (true, m') ∧ mem_cells m' = mem_cells m ∧
    ∀ a, 0 ≤ a → mem_read m' a =
      match code !! (Z.to_nat a - i)%nat with
      | Some b => if decide (Z.of_nat i ≤ a) then ok b else mem_read m a
      | None => mem_read m a
      end.
Proof.
  revert m i. induction code as [|b code IH]; intros m i Hlen H32; simpl in *.
  { exists m. by split_and!. }
  rewrite u32_small by lia. pose proof (mem_write_bound m (Z.of_nat i) b ltac:(lia)) as Hb.
  destruct (mem_write m (Z.of_nat i) b) as [r m1] eqn:Hw. simpl in Hb.
  destruct (Z.ltb_spec (Z.of_nat i) (Z.of_nat (mem_cells m))) as [_|]; [|lia].
  destruct r as [[]|]; [|done].
  pose proof (mem_write_cells m (Z.of_nat i) b) as Hc. rewrite Hw in Hc. simpl in Hc.
  destruct (IH m1 (S i)) as (m' & -> & Hc' & Hr); [lia|lia|].
  exists m'. split; [done|]. split; [congruence|]. intros a Ha. rewrite Hr by done.
  destruct (decide (a = Z.of_nat i)) as [->|Hne].
  - rewrite Nat2Z.id, Nat.sub_diag. simpl. rewrite decide_True by lia.
    replace (i - S i)%nat with 0%nat by lia.
    pose proof (mem_read_write m (Z.of_nat i) b) as Hrw. rewrite Hw in Hrw.
    destruct (code !! 0%nat); [rewrite decide_False by lia|]; by apply Hrw.
  - pose proof (mem_read_write_ne m (Z.of_nat i) a b ltac:(lia) Ha ltac:(done)) as Hne'.
    rewrite Hw in Hne'. simpl in Hne'. rewrite Hne'.
    destruct (decide (Z.of_nat i ≤ a)) as [Hle|Hlt].
    + replace (Z.to_nat a - i)%nat with (S (Z.to_nat a - S i)) by lia. simpl.
      destruct (code !! _); [|done]. by rewrite decide_True by lia.
    + replace (Z.to_nat a - i)%nat with 0%nat by lia. replace (Z.to_nat a - S i)%nat with 0%nat by lia. simpl.
      destruct (code !! 0%nat); [|done]. by rewrite decide_False by lia.
Qed.
End burst.
