(* ===== verification/InterpTheorems.v ===== *)
(** * InterpTheorems: what one burst of the interpreter does *)
From S2P Require Import Prelude Core Process Arch Cpu Interp.
Local Open Scope Z_scope.

Section burst.
Context {M : Type} `{HM : !IMemory M, HL : !LawfulMemory M}.
Implicit Types (e : interpreter M) (c : cpu_state M) (m : M).

(** Memory with the code at its bottom. *)
Definition holds_code (m : M) (code : list Block) (m' : M) : Prop :=
  mem_cells m' = mem_cells m ∧
  ∀ a, 0 ≤ a → mem_read m' a = match code !! Z.to_nat a with Some b => ok b | None => mem_read m a end.

Lemma loadCode_spec m code :
  Z.of_nat (length code) ≤ 2 ^ 32 →
  if (mem_cells m <? length code)%nat then loadCode m code = (false, m)
  else ∃ m', loadCode m code = (true, m') ∧ holds_code m code m'.
Proof.
  intros H32. unfold loadCode. destruct (Nat.ltb_spec (mem_cells m) (length code)); [done|].
  destruct (load_cells_spec code m 0) as (m' & -> & Hc & Hr); [lia|lia|]. exists m'. split; [done|].
  split; [done|]. intros a Ha. rewrite Hr by done. rewrite Nat.sub_0_r.
  destruct (code !! Z.to_nat a); [|done]. by rewrite decide_True by lia.
Qed.

Lemma steps_wf n c c' : steps n c c' → cpu_wf c → cpu_wf c'.
Proof.
  induction 1 as [|n c c1 c2 Hs _ IH]; [done|]. intros Hw. apply IH. by apply (step_preserves c _ c1 Hw Hs).
Qed.

(** Which reason a raised code stops a burst with. *)
Definition reason_of (i : Z) : StopReason :=
  if i =? Interrupt.Exit then ProcessExited
  else if decide (i ∈ [Interrupt.SystemCall; Interrupt.DeviceIO; Interrupt.NetworkIO;
                       Interrupt.PageFault; Interrupt.Timer]) then Interrupted
  else StopError.

Lemma stop_result_reason pid t i :
  stop_result pid t i = ExecutionResult.mk (reason_of i) i t pid.
Proof.
  unfold stop_result, reason_of.
  destruct (Z.eqb_spec i Interrupt.Exit) as [->|H1]; [done|].
  destruct (Z.eqb_spec i Interrupt.DivByZero) as [->|H2]; [done|].
  destruct (Z.eqb_spec i Interrupt.Error) as [->|H3]; [done|].
  destruct (Z.eqb_spec i Interrupt.SystemCall) as [->|H4]; [done|].
  destruct (Z.eqb_spec i Interrupt.DeviceIO) as [->|H5]; [done|].
  destruct (Z.eqb_spec i Interrupt.NetworkIO) as [->|H6]; [done|].
  destruct (Z.eqb_spec i Interrupt.PageFault) as [->|H7]; [done|].
  destruct (Z.eqb_spec i Interrupt.Timer) as [->|H8]; [done|].
  rewrite decide_False; [done|]. rewrite !elem_of_cons, elem_of_nil. tauto.
Qed.

(** What a burst leaves of the process and the engine. *)
Definition left_by (e : interpreter M) (im : ProcessImage) (c : cpu_state M) (im' : ProcessImage)
    (e' : interpreter M) : Prop :=
  im' = set_registers im (regs c) ∧ e' = MkInterp (flags c) (memory c) (haltedPids e).

(** C39: one burst of the interpreter is that many cycles of the CPU.  A halt
    request consumes itself and nothing runs; code that does not fit is an
    error.  Otherwise the code lies at the bottom of memory and the burst is
    either the whole budget of cycles that raise nothing, or [k < budget] such
    cycles and one more that raises [i], which is reported with [k + 1] ticks
    and its reason, or it runs into an undefined signed overflow.  A well-typed
    machine stays well typed. *)
Theorem interpreter_burst e pid im budget :
  Z.of_nat (codeSize im) ≤ 2 ^ 32 →
  if decide (pid ∈ haltedPids e) then
    execute e pid im budget = Some (ExecutionResult.halted pid 0, im,
      MkInterp (in_flags e) (in_memory e) (haltedPids e ∖ {[pid]}))
  else if (mem_cells (in_memory e) <? codeSize im)%nat then
    execute e pid im budget = Some (ExecutionResult.error pid 0 Interrupt.Error, im, e)
  else ∃ m, holds_code (in_memory e) (im_code im) m ∧
    let c0 := MkCpu (in_flags e) m (im_registers im) in
    (∃ c, steps budget c0 c ∧ (cpu_wf c0 → cpu_wf c) ∧ ∃ im' e', left_by e im c im' e' ∧
       execute e pid im budget = Some (ExecutionResult.budgetExhausted pid budget, im', e')) ∨
    (∃ k c1 i c, (k < budget)%nat ∧ steps k c0 c1 ∧ step c1 = Some (i, c) ∧ i ≠ Interrupt.Ok ∧
       (cpu_wf c0 → cpu_wf c) ∧ ∃ im' e', left_by e im c im' e' ∧
       execute e pid im budget = Some (ExecutionResult.mk (reason_of i) i (S k) pid, im', e')) ∨
    (∃ k c1, (k < budget)%nat ∧ steps k c0 c1 ∧ step c1 = None ∧ execute e pid im budget = None).
Proof.
  intros H32. change (execute e pid im budget) with (run e pid im budget). unfold run. case_decide as Hh; [done|].
  pose proof (loadCode_spec (in_memory e) (im_code im) H32) as Hl. unfold codeSize.
  destruct (Nat.ltb_spec (mem_cells (in_memory e)) (length (im_code im))).
  { rewrite Hl. simpl. by destruct e. }
  destruct Hl as (m & -> & Hm). exists m. split; [done|]. cbv zeta. set (c0 := MkCpu (in_flags e) m (im_registers im)). simpl.
  destruct (run_loop_spec budget pid 0 (haltedPids e) c0 Hh)
    as [(c & Hs & ->)|[(k & c1 & i & c & Hk & Hs & H1 & Hi & ->)|(k & c1 & Hk & Hs & H1 & ->)]]; simpl.
  - left. exists c. split; [done|]. split; [by eapply steps_wf|]. by do 2 eexists.
  - right. left. exists k, c1, i, c. split_and!; try done.
    + intros Hw. apply (step_preserves c1 i c); [by eapply steps_wf|done].
    + do 2 eexists. split; [by split|]. by rewrite stop_result_reason.
  - right. right. by exists k, c1.
Qed.

(** A burst never uses more than its budget, and names its process. *)
Lemma execute_bounds e pid im budget res im' e' :
  execute e pid im budget = Some (res, im', e') →
  (ExecutionResult.ticksConsumed res ≤ budget)%nat ∧ ExecutionResult.pid res = pid ∧
  im_pcb im' = im_pcb im ∧ im_code im' = im_code im.
Proof.
  simpl. unfold run. case_decide as Hh; [intros [= <- <- <-]; simpl; split_and!; try done; lia|].
  destruct (loadCode _ _) as [[] m]; simpl; [|intros [= <- <- <-]; simpl; split_and!; try done; lia].
  destruct (run_loop_spec budget pid 0 (haltedPids e) (MkCpu (in_flags e) m (im_registers im)) Hh)
    as [(c & Hs & ->)|[(k & c1 & i & c & Hk & Hs & H1 & Hi & ->)|(k & c1 & Hk & Hs & H1 & ->)]]; simpl; [..|done].
  - intros [= <- <- <-]. simpl. split_and!; try done; lia.
  - intros [= <- <- <-]. rewrite stop_result_reason. simpl. split_and!; try done; lia.
Qed.

Lemma run_loop_cells n pid t h c res h' c' :
  run_loop n pid t h c = Some (res, h', c') → mem_cells (memory c') = mem_cells (memory c).
Proof.
  revert t c. induction n as [|n IH]; intros t c; simpl; [by intros [= <- <- <-]|].
  case_decide; [by intros [= <- <- <-]|]. destruct (step c) as [[i c1]|] eqn:Hs; simpl; [|done].
  assert (mem_cells (memory c1) = mem_cells (memory c)) as Hc.
  { clear IH. unfold step in Hs. destruct (mem_read _ _) as [b|]; [|by simplify_eq].
    destruct (ALU.checked _) as [pc'|]; [|done]. simpl in Hs.
    destruct c as [fl m r]; simpl in *. set (r1 := RegisterFile.setPc r pc') in *. clearbody r1.
    unfold Cpu.execute, exec_push, exec_pop, finish in Hs.
    repeat match goal with
      | H : context [mem_write ?m ?a ?b] |- _ =>
          pose proof (mem_write_cells m a b); destruct (mem_write m a b) as [[]]; simpl in *
      | H : context [match ?x with _ => _ end] |- _ => destruct x eqn:?; simplify_eq/=; try done
      end; simplify_eq/=; congruence. }
  destruct (i =? Interrupt.Ok); [|intros [= <- <- <-]; done]. intros Hr. apply IH in Hr. congruence.
Qed.
End burst.

(** A program that writes a cell and halts: it exits after two ticks. *)
Definition demo_image : ProcessImage :=
  MkImage 0 RegisterFile.init [MkBlock WriteMemory 3 7 0; MkBlock Halt 0 0 0].
Definition demo_engine : interpreter PhysicalMemory.t := InterpreterEngine_make 0 (PhysicalMemory.make 16).

Lemma interpreter_burst_witness :
  Z.of_nat (codeSize demo_image) ≤ 2 ^ 32 ∧
  ∃ im' e', execute demo_engine 5 demo_image 10 =
    Some (ExecutionResult.mk ProcessExited Interrupt.Exit 2 5, im', e').
Proof.
  assert (Z.of_nat (codeSize demo_image) ≤ 2 ^ 32) as H by (vm_compute; discriminate).
  split; [exact H|].
  pose proof (interpreter_burst demo_engine 5 demo_image 10 H) as Hb.
  rewrite decide_False in Hb by exact (not_elem_of_empty 5).
  assert ((λ x, x.1.1) <$> execute demo_engine 5 demo_image 10 =
    Some (ExecutionResult.mk ProcessExited Interrupt.Exit 2 5)) as Hx by (vm_compute; reflexivity).
  destruct Hb as (m & _ & [(c & _ & _ & im' & e' & _ & E)|[(k & c1 & i & c & _ & _ & _ & _ & _ & im' & e' & _ & E)|(k & c1 & _ & _ & _ & E)]]);
    rewrite E in Hx; [| |discriminate Hx]; apply (inj Some) in Hx; exists im', e'; rewrite E; cbn in Hx; rewrite Hx; reflexivity.
Defined.
