(* ===== verification/Preemption.v ===== *)
(** * Preemption: a process across its bursts

    The engine saves the registers of a process between bursts and loads its
    code again before the next one.  For a program that works in its registers
    this makes preemption invisible, with one exception: the comparison flags
    live in the CPU, which all processes share, and nothing saves them. *)
From S2P Require Import Prelude Core Process Arch Cpu Interp InterpTheorems.
Local Open Scope Z_scope.

(** An instruction that neither reads nor writes memory. *)
Definition in_registers (b : Block) : bool :=
  match code b with Push | Pop | Call | Return | ReadMemory | WriteMemory => false | _ => true end.

Section preemption.
Context {M : Type} `{HM : !IMemory M, HL : !LawfulMemory M}.
Implicit Types (e : interpreter M) (c : cpu_state M) (m : M) (pid : Z) (im : ProcessImage).

(** The same machine on another memory. *)
Definition on m c : cpu_state M := MkCpu (flags c) m (regs c).
Definition fetched c : nat := Z.to_nat (u32 (RegisterFile.pc (regs c))).
Definition carries (prog : list Block) m : Prop :=
  ∀ a b, prog !! a = Some b → mem_read m (Z.of_nat a) = ok b.

Lemma execute_in_registers fl m m' r b :
  in_registers b →
  Cpu.execute fl m' r b = (λ '(i, c'), (i, on m' c')) <$> Cpu.execute fl m r b ∧
  ∀ i c', Cpu.execute fl m r b = Some (i, c') → memory c' = m.
Proof.
  unfold in_registers. intros Hb. assert (∀ fl i r, finish fl m' i r = (λ '(i, c'), (i, on m' c')) <$> finish fl m i r ∧
    ∀ i' c', finish fl m i r = Some (i', c') → memory c' = m) as Hfin.
  { intros. split; [done|]. by intros ?? [= <- <-]. }
  unfold Cpu.execute. destruct (code b) eqn:Hc; try apply Hfin; try by destruct Hb.
  2-10: destruct (resolveOperand b r); cbn [mbind option_bind]; [|done];
    destruct (executeAluOp _ _ _ _) as [[i r']|]; cbn [mbind option_bind]; [apply Hfin|done].
  - destruct (resolveOperand b r); cbn [mbind option_bind]; [|done].
    destruct (RegisterFile.set _ _ _); cbn [mbind option_bind]; [apply Hfin|done].
  - destruct (RegisterFile.get r (reg b)); cbn [mbind option_bind]; [|done].
    destruct (resolveOperand b r); cbn [mbind option_bind]; [apply Hfin|done].
Qed.

(** A cycle that fetches an instruction on registers does the same on every
    memory that carries the program. *)
Lemma step_in_registers prog m' c b :
  carries prog (memory c) → carries prog m' → prog !! fetched c = Some b → in_registers b →
  step (on m' c) = (λ '(i, c'), (i, on m' c')) <$> step c ∧ ∀ i c', step c = Some (i, c') → memory c' = memory c.
Proof.
  intros H1 H2 Hb Hr. unfold step. simpl.
  assert (u32 (RegisterFile.pc (regs c)) = Z.of_nat (fetched c)) as ->.
  { unfold fetched. rewrite Z2Nat.id; [done|]. apply u32_range. }
  rewrite (H1 _ _ Hb), (H2 _ _ Hb). destruct (ALU.checked _) as [pc'|]; cbn [mbind option_bind]; [|done].
  by apply execute_in_registers.
Qed.

(** The next [n] cycles fetch from the program. *)
Definition stays_in (prog : list Block) (n : nat) c : Prop :=
  ∀ k c', (k < n)%nat → steps k c c' → is_Some (prog !! fetched c').

Lemma stays_in_next prog n c c1 : stays_in prog (S n) c → step c = Some (Interrupt.Ok, c1) → stays_in prog n c1.
Proof. intros H Hs k c' Hk Hst. apply (H (S k)); [lia|]. by econstructor. Qed.

Section program.
Context (prog : list Block) (Hprog : Forall in_registers prog).

(** A run of the loop on another memory, with another count of ticks and other
    pending halts. *)
Lemma run_loop_on n pid t t' h h' c m' :
  carries prog (memory c) → carries prog m' → stays_in prog n c → pid ∉ h → pid ∉ h' →
  match run_loop n pid t h c with
  | Some (res, _, c1) => memory c1 = memory c ∧ ExecutionResult.pid res = pid ∧
      ∃ k, ExecutionResult.ticksConsumed res = (t + k)%nat ∧
      run_loop n pid t' h' (on m' c) =
        Some (ExecutionResult.mk (ExecutionResult.reason res) (ExecutionResult.interrupt res) (t' + k) pid, h', on m' c1)
  | None => run_loop n pid t' h' (on m' c) = None
  end.
Proof.
  intros Hc Hm' Hin Hh Hh'. revert t t' c Hc Hin. induction n as [|n IH]; intros t t' c Hc Hin; simpl.
  { split_and!; [done..|]. exists 0%nat. rewrite !Nat.add_0_r. done. }
  rewrite !decide_False by done.
  destruct (Hin 0%nat c) as [b Hb]; [lia|constructor|].
  assert (in_registers b) as Hr by (rewrite Forall_forall in Hprog; apply Hprog; by eapply list_elem_of_lookup_2).
  destruct (step_in_registers prog m' c b Hc Hm' Hb Hr) as [Hs Hmem]. rewrite Hs.
  destruct (step c) as [[i c1]|] eqn:Hst; cbn [mbind option_bind fmap option_fmap option_map]; [|done].
  specialize (Hmem _ _ eq_refl). destruct (Z.eqb_spec i Interrupt.Ok) as [->|Hi].
  - specialize (IH (S t) (S t') c1). rewrite Hmem in IH. specialize (IH Hc (stays_in_next _ _ _ _ Hin Hst)).
    destruct (run_loop n pid (S t) h c1) as [[[res h1] c2]|]; [|done]. destruct IH as (H1 & H2 & k & H3 & H4).
    split_and!; [done..|]. exists (S k). rewrite H4. split; [lia|]. by rewrite <-Nat.add_succ_comm.
  - rewrite !stop_result_reason. simpl. split_and!; [done..|]. exists 1%nat. by rewrite !Nat.add_1_r.
Qed.
End program.

(** A loop of [a + b] ticks whose first [a] raise nothing. *)
Lemma run_loop_app a b pid t h c h1 c1 :
  pid ∉ h → run_loop a pid t h c = Some (ExecutionResult.budgetExhausted pid (t + a), h1, c1) →
  h1 = h ∧ steps a c c1 ∧ run_loop (a + b) pid t h c = run_loop b pid (t + a) h c1.
Proof.
  intros Hh. revert t c. induction a as [|a IH]; intros t c; simpl.
  - rewrite Nat.add_0_r. intros [= <- <-]. split_and!; [done|constructor|done].
  - rewrite decide_False by done. destruct (step c) as [[i c2]|] eqn:Hs; cbn [mbind option_bind]; [|done].
    destruct (Z.eqb_spec i Interrupt.Ok) as [->|Hi].
    + replace (t + S a)%nat with (S t + a)%nat by lia. intros Hr. destruct (IH (S t) c2 Hr) as (-> & Hst & ->).
      split_and!; [done|by econstructor|by rewrite decide_False].
    + rewrite stop_result_reason. intros Heq. destruct Hi. by injection Heq.
Qed.

Lemma steps_memory prog n c c' :
  Forall in_registers prog → carries prog (memory c) → stays_in prog n c → steps n c c' → memory c' = memory c.
Proof.
  intros Hp Hc Hin Hs. induction Hs as [|n c c1 c2 Hst Hs IH]; [done|].
  destruct (Hin 0%nat c) as [b Hb]; [lia|constructor|].
  assert (in_registers b) as Hr by (rewrite Forall_forall in Hp; apply Hp; by eapply list_elem_of_lookup_2).
  destruct (step_in_registers prog (memory c) c b Hc Hc Hb Hr) as [_ Hmem]. specialize (Hmem _ _ Hst).
  rewrite <-Hmem. apply IH; [by rewrite Hmem|by eapply stays_in_next].
Qed.

Lemma stays_in_after prog a b c c1 : stays_in prog (a + b) c → steps a c c1 → stays_in prog b c1.
Proof.
  intros Hin Hs. revert Hin. induction Hs as [|n c c2 c3 Hst Hs IH]; [done|]. intros Hin. apply IH.
  by eapply stays_in_next.
Qed.

(** The state the engine starts a burst in. *)
Definition loaded e im : cpu_state M := MkCpu (in_flags e) (loadCode (in_memory e) (im_code im)).2 (im_registers im).

Lemma loaded_carries e im :
  Z.of_nat (codeSize im) ≤ 2 ^ 32 → (codeSize im ≤ mem_cells (in_memory e))%nat →
  (loadCode (in_memory e) (im_code im)).1 = true ∧ carries (im_code im) (memory (loaded e im)).
Proof.
  intros H32 Hfit. pose proof (loadCode_spec (in_memory e) (im_code im) H32) as Hl. unfold codeSize in *.
  rewrite (proj2 (Nat.ltb_ge _ _)) in Hl by done. destruct Hl as (m' & E & _ & Hr). unfold loaded. rewrite E. split; [done|].
  intros a b Hb. simpl. rewrite Hr by lia. by rewrite Nat2Z.id, Hb.
Qed.

Lemma run_loaded e pid im n :
  Z.of_nat (codeSize im) ≤ 2 ^ 32 → (codeSize im ≤ mem_cells (in_memory e))%nat → pid ∉ haltedPids e →
  run e pid im n =
    (λ '(res, h, c), (res, set_registers im (regs c), MkInterp (flags c) (memory c) h))
      <$> run_loop n pid 0 (haltedPids e) (loaded e im).
Proof.
  intros H32 Hfit Hh. unfold run. rewrite decide_False by done. unfold loaded.
  destruct (loaded_carries e im H32 Hfit) as [Hok _]. destruct (loadCode _ _) as [l m]. simpl in *. subst l. simpl.
  by destruct (run_loop _ _ _ _ _) as [[[res h] c]|].
Qed.

(** C8: preemption is invisible to a program that works in its registers and
    does not run off its code, and that nobody has marked as halted.  When a burst uses up its budget of [a] ticks and
    the process goes on later with [b] more, whatever other processes have done
    to memory and to the engine meanwhile, it ends as one burst of [a + b] ticks
    would have: same registers, flags, reason and interrupt, and the ticks add
    up; provided the CPU's comparison flags are as the first burst left them. *)
Theorem preemption_invisible e e2 pid im im1 e1 a b :
  Z.of_nat (codeSize im) ≤ 2 ^ 32 → Forall in_registers (im_code im) → stays_in (im_code im) (a + b) (loaded e im) →
  pid ∉ haltedPids e → (codeSize im ≤ mem_cells (in_memory e))%nat →
  execute e pid im a = Some (ExecutionResult.budgetExhausted pid a, im1, e1) →
  pid ∉ haltedPids e2 → (codeSize im ≤ mem_cells (in_memory e2))%nat → in_flags e2 = in_flags e1 →
  match execute e pid im (a + b) with
  | Some (res, im', e') =>
      ∃ k e3, execute e2 pid im1 b =
          Some (ExecutionResult.mk (ExecutionResult.reason res) (ExecutionResult.interrupt res) k pid, im', e3) ∧
        ExecutionResult.ticksConsumed res = (a + k)%nat ∧ in_flags e3 = in_flags e'
  | None => execute e2 pid im1 b = None
  end.
Proof.
  intros H32 Hprog Hin Hh Hfit H1 Hh2 Hfit2 Hfl. simpl in *. rewrite run_loaded in * by done.
  destruct (run_loop a pid 0 (haltedPids e) (loaded e im)) as [[[res h1] c1]|] eqn:Ha; [|done].
  simpl in H1. injection H1 as -> <- <-. simpl in Hfl.
  destruct (run_loop_app a b pid 0 _ _ _ _ Hh Ha) as (-> & Hs & ->).
  destruct (loaded_carries e im H32 Hfit) as [_ Hc].
  assert (memory c1 = memory (loaded e im)) as Hm.
  { eapply steps_memory; [done..| |done]. intros k c' Hk. apply Hin. lia. }
  rewrite run_loaded by done. destruct (loaded_carries e2 (set_registers im (regs c1)) H32 Hfit2) as [_ Hc2].
  assert (loaded e2 (set_registers im (regs c1)) = on (memory (loaded e2 (set_registers im (regs c1)))) c1) as ->.
  { unfold loaded, on. simpl. by rewrite Hfl. }
  pose proof (run_loop_on _ Hprog b pid (0 + a) 0 (haltedPids e) (haltedPids e2) c1 _ ltac:(by rewrite Hm) Hc2
    (stays_in_after _ _ _ _ _ Hin Hs) Hh Hh2) as H.
  simpl in *. destruct (run_loop b pid a (haltedPids e) c1) as [[[res h1] c2]|]; simpl.
  - destruct H as (_ & _ & k & Hk & ->). simpl. exists k. eexists. split; [done|]. by split.
  - by rewrite H.
Qed.
End preemption.

(** ** The flags are not part of the process *)

(** Jumps over the error when the register equals its operand. *)
Definition guarded : ProcessImage :=
  MkImage 0 RegisterFile.init [MkBlock Compare 3 0 0; MkBlock JumpEqual 0 3 0; MkBlock Interrupt_ 0 Interrupt.Error 0;
    MkBlock Halt 0 0 0].
Definition other : ProcessImage := MkImage 1 RegisterFile.init [MkBlock Compare 3 1 0; MkBlock Halt 0 0 0].
Definition engine16 : interpreter PhysicalMemory.t := InterpreterEngine_make 0 (PhysicalMemory.make 16).

(** Alone, [guarded] takes the jump and exits.  Preempted after its comparison
    by [other], which compares unequal values, it falls through to the error. *)
Example flags_leak :
  (λ x, ExecutionResult.reason x.1.1) <$> execute engine16 1 guarded 3 = Some ProcessExited ∧
  match execute engine16 1 guarded 1 with
  | Some (_, guarded1, e1) =>
      match execute e1 2 other 1 with
      | Some (_, _, e2) => (λ x, ExecutionResult.reason x.1.1) <$> execute e2 1 guarded1 2 = Some StopError
      | None => False
      end
  | None => False
  end.
Proof. vm_compute. done. Qed.

Lemma guarded_stays : stays_in (im_code guarded) 3 (loaded engine16 guarded).
Proof.
  intros k c' Hk Hs.
  assert (∀ n (c : cpu_state PhysicalMemory.t) c1 c2, step c = Some (Interrupt.Ok, c1) → steps (S n) c c2 → steps n c1 c2) as Hinv.
  { intros n c c1 c2 H1 H2. inversion H2; subst. congruence. }
  destruct k as [|[|[|k]]]; [| | |lia].
  - inversion Hs; subst. vm_compute. by eexists.
  - eapply Hinv in Hs; [|vm_compute; reflexivity]. inversion Hs; subst. vm_compute. by eexists.
  - do 2 (eapply Hinv in Hs; [|vm_compute; reflexivity]). inversion Hs; subst. vm_compute. by eexists.
Qed.

(** Between the bursts of [guarded] another process writes over its code. *)
Definition writer : ProcessImage :=
  MkImage 1 RegisterFile.init [MkBlock WriteMemory 3 2 0; MkBlock WriteMemory 3 3 0; MkBlock Halt 0 0 0].
Definition first_burst : interpreter PhysicalMemory.t := default engine16 (snd <$> execute engine16 1 guarded 1).
Definition guarded_image : ProcessImage := default guarded ((λ x, x.1.2) <$> execute engine16 1 guarded 1).
Definition between : interpreter PhysicalMemory.t := default engine16 (snd <$> execute first_burst 2 writer 5).

Lemma preemption_invisible_witness :
  ∃ e3 im', execute between 1 guarded_image 2 = Some (ExecutionResult.mk ProcessExited Interrupt.Exit 2 1, im', e3) ∧
    execute engine16 1 guarded 3 =
      Some (ExecutionResult.mk ProcessExited Interrupt.Exit 3 1, im', default engine16 (snd <$> execute engine16 1 guarded 3)).
Proof.
  pose proof (preemption_invisible engine16 between 1 guarded guarded_image first_burst 1 2) as H.
  assert (execute engine16 1 guarded (1 + 2) = Some (ExecutionResult.mk ProcessExited Interrupt.Exit 3 1,
    set_registers guarded (<[RegisterFile.ProgramCounter := 4]> RegisterFile.init),
    default engine16 (snd <$> execute engine16 1 guarded 3))) as E by (vm_compute; reflexivity).
  rewrite E in H. destruct H as (k & e3 & H1 & H2 & _).
  - vm_compute. discriminate.
  - repeat constructor.
  - apply guarded_stays.
  - apply not_elem_of_empty.
  - vm_compute. lia.
  - vm_compute. reflexivity.
  - apply not_elem_of_empty.
  - vm_compute. lia.
  - vm_compute. reflexivity.
  - simpl in H2. assert (k = 2%nat) as -> by lia. eexists e3, _. split; [exact H1|exact E].
Defined.
