(* ===== verification/Dispatcher.v ===== *)
(** * Dispatcher: [dispatch/dispatcher.cpp]

    The process table, and the three calls that move a process through the
    scheduler, the execution engine and virtual memory.  Engine and virtual
    memory are reached through their interfaces over one state [W], since both
    hold references to the same physical memory.  Control blocks live in the
    heap the scheduler's references point into; destroying an image frees its
    control block. *)
From S2P Require Import Prelude Core Process Arch Policies Scheduler Interp.
Local Open Scope Z_scope.

(** ** The interface [IVirtualMemory]: [memory/i_virtual_memory.h] *)
Class IVirtualMemory (W : Type) := {
  allocateSlot : W → Z → nat → option (Result Z * W);
  loadSegment : W → Z → list Block → option (Result unit * W);
  freeSlot : W → Z → option (Result unit * W);
  totalSlots : W → nat;
  freeSlots : W → nat
}.

Section dispatcher.
Context {P W : Type} `{!ISchedulingPolicy P} `{!FloatCast} `{!IVirtualMemory W} `{!IExecutionEngine W}.

Record dispatcher := MkDispatcher {
  d_scheduler : sched P;
  d_heap : heap;
  d_world : W;
  d_clock : SimulationClock.t;
  d_processes : gmap Z ProcessImage;
  d_fresh : Z
}.

Definition Dispatcher_make (s : sched P) (w : W) (c : SimulationClock.t) : dispatcher :=
  MkDispatcher s ∅ w c ∅ 0.

Definition set_sched (d : dispatcher) (s : sched P) (h : heap) : dispatcher :=
  MkDispatcher s h (d_world d) (d_clock d) (d_processes d) (d_fresh d).
Definition set_world (d : dispatcher) (w : W) : dispatcher :=
  MkDispatcher (d_scheduler d) (d_heap d) w (d_clock d) (d_processes d) (d_fresh d).
Definition set_heap (d : dispatcher) (h : heap) : dispatcher := set_sched d (d_scheduler d) h.
Definition set_images (d : dispatcher) (m : gmap Z ProcessImage) : dispatcher :=
  MkDispatcher (d_scheduler d) (d_heap d) (d_world d) (d_clock d) m (d_fresh d).

(** [std::make_unique<ProcessImage>(...)]. *)
Definition new_image (d : dispatcher) (id : Z) (name : string) (code : list Block) (prio : Priority)
    (arrival : Z) : option (ProcessImage * dispatcher) :=
  let! (p, im) := ProcessImage_make (d_fresh d) id name code prio arrival in
  Some (im, MkDispatcher (d_scheduler d) (<[d_fresh d := p]> (d_heap d)) (d_world d) (d_clock d)
              (d_processes d) (d_fresh d + 1)).
(** The destructor of [std::unique_ptr<ProcessImage>]. *)
Definition destroy_image (d : dispatcher) (im : ProcessImage) : dispatcher :=
  set_heap d (delete (im_pcb im) (d_heap d)).

Definition advanceClock (d : dispatcher) (ticks : nat) : dispatcher :=
  MkDispatcher (d_scheduler d) (d_heap d) (d_world d) (Nat.iter ticks SimulationClock.tick (d_clock d))
    (d_processes d) (d_fresh d).

Definition step_result (A : Type) : Type := option (Result A * dispatcher).

(** An early return of [createProcess]: the parameter is destroyed. *)
Definition refuse (d : dispatcher) (im : ProcessImage) (e : ErrorCode.t) : step_result unit :=
  Some (error e, destroy_image d im).
Definition refuse_freeing (d : dispatcher) (pid : Z) (im : ProcessImage) (e : ErrorCode.t)
    : step_result unit :=
  let! (_, w) := freeSlot (d_world d) pid in refuse (set_world d w) im e.

Definition createProcess (d : dispatcher) (process : option ProcessImage) (currentTick : Z)
    : step_result unit :=
  match process with
  | None => Some (error ErrorCode.InvalidArgument, d)
  | Some im =>
      let! p := d_heap d !! im_pcb im in
      let pid := pcb_id p in
      if pid =? INVALID_PID then refuse d im ErrorCode.InvalidPid else
      if decide (is_Some (d_processes d !! pid)) then refuse d im ErrorCode.AlreadyExists else
      let slotSize := max 1 (codeSize im) in
      let! (alloc, w1) := allocateSlot (d_world d) pid slotSize in
      match alloc with
      | error e => refuse (set_world d w1) im e
      | ok base =>
          let! (load, w2) := loadSegment w1 pid (im_code im) in
          match load with
          | error e => refuse_freeing (set_world d w2) pid im e
          | ok _ =>
              let p' := with_addressInfo p
                (MkAddressInfo base base (u32 (Z.of_nat (codeSize im))) (u32 base)) in
              let! (enq, s, h) := enqueue (d_scheduler d) (<[im_pcb im := p']> (d_heap d)) (im_pcb im)
                                    currentTick in
              let d1 := set_sched (set_world d w2) s h in
              match enq with
              | error e => refuse_freeing d1 pid im e
              | ok _ => Some (ok tt, set_images d1 (<[pid := im]> (d_processes d1)))
              end
          end
      end
  end.

(** The end of a process: free its slot, destroy its image. *)
Definition remove_process (d : dispatcher) (pid : Z) (im : ProcessImage) : step_result unit :=
  let! (_, w) := freeSlot (d_world d) pid in
  let d1 := destroy_image (set_world d w) im in
  Some (ok tt, set_images d1 (delete pid (d_processes d1))).

(** The [switch] on the reason a burst stopped for. *)
Definition after_burst (d : dispatcher) (pid : Z) (im : ProcessImage) (reason : StopReason)
    : step_result unit :=
  let now := SimulationClock.now (d_clock d) in
  match reason with
  | BudgetExhausted => Some (ok tt, d)
  | Interrupted =>
      let! (r, s, h) := blockProcess (d_scheduler d) (d_heap d) pid now in Some (r, set_sched d s h)
  | ProcessExited | StopError | Halted =>
      let! (r, s, h) := terminate (d_scheduler d) (d_heap d) pid now in
      let d1 := set_sched d s h in
      match r with
      | error e => Some (error e, d1)
      | ok _ => remove_process d1 pid im
      end
  end.

Definition dispatch (d : dispatcher) (tickBudget : nat) : step_result unit :=
  if decide (d_processes d = ∅) then Some (error ErrorCode.NotFound, d) else
  let! (selected, s, h) := sched_selectNext (d_scheduler d) (d_heap d) (SimulationClock.now (d_clock d)) in
  let d1 := set_sched d s h in
  match selected with
  | error e => Some (error e, d1)
  | ok pid =>
      match d_processes d1 !! pid with
      | None => Some (error ErrorCode.InvalidState, d1)
      | Some im =>
          let! (result, im', w) := execute (d_world d1) pid im tickBudget in
          let d2 := set_images (set_world d1 w) (<[pid := im']> (d_processes d1)) in
          after_burst (advanceClock d2 (ExecutionResult.ticksConsumed result)) pid im'
            (ExecutionResult.reason result)
      end
  end.

Definition terminateProcess (d : dispatcher) (pid currentTick : Z) : step_result unit :=
  match d_processes d !! pid with
  | None => Some (error ErrorCode.NotFound, d)
  | Some im =>
      let d1 := set_world d (halt (d_world d) pid) in
      let! (removed, s, h) := dequeue (d_scheduler d1) (d_heap d1) pid in
      let d2 := set_sched d1 s h in
      match removed with
      | error e =>
          if decide (e = ErrorCode.NotFound)
          then let! (_, h') := set_state h (im_pcb im) Terminated currentTick in
               remove_process (set_heap d2 h') pid im
          else Some (error e, d2)
      | ok _ =>
          let! (_, h') := set_state h (im_pcb im) Terminated currentTick in
          remove_process (set_heap d2 h') pid im
      end
  end.

Definition tick (d : dispatcher) : dispatcher := advanceClock d 1.
Definition processCount (d : dispatcher) : nat := size (d_processes d).
Definition hasProcess (d : dispatcher) (pid : Z) : bool := bool_decide (is_Some (d_processes d !! pid)).
End dispatcher.
Arguments dispatcher : clear implicits.
Arguments step_result : clear implicits.
