(* ===== verification/DispatcherProps.v ===== *)
(** * DispatcherProps: the dispatcher's invariant

    What engine and virtual memory promise, and the proof that every call of
    the dispatcher keeps process table, scheduler, slots and control blocks in
    agreement. *)
From S2P Require Import Prelude Core Arch Process Policies Scheduler SchedInvariant SchedProps.
From S2P Require Import SchedSteps SchedRun IScheduler SchedTheorems Interp Dispatcher.
Local Open Scope Z_scope.

Class LawfulMachine (W : Type) `{!IVirtualMemory W} `{!IExecutionEngine W} := {
  machine_inv : W → Prop;
  slot_owners : W → gset Z;
  law_allocate w pid n : machine_inv w →
    ∃ r w', allocateSlot w pid n = Some (r, w') ∧ machine_inv w' ∧
      slot_owners w' = (if isOk r then {[pid]} ∪ slot_owners w else slot_owners w);
  law_load w pid code : machine_inv w →
    ∃ r w', loadSegment w pid code = Some (r, w') ∧ machine_inv w' ∧ slot_owners w' = slot_owners w;
  law_free w pid : machine_inv w →
    ∃ r w', freeSlot w pid = Some (r, w') ∧ machine_inv w' ∧ slot_owners w' = slot_owners w ∖ {[pid]};
  law_execute w pid im n res im' w' : machine_inv w → execute w pid im n = Some (res, im', w') →
    machine_inv w' ∧ slot_owners w' = slot_owners w ∧ im_pcb im' = im_pcb im ∧
    (ExecutionResult.ticksConsumed res ≤ n)%nat;
  law_halt w pid : machine_inv w → machine_inv (halt w pid) ∧ slot_owners (halt w pid) = slot_owners w
}.

Section invariant.
Context {P : Type} `{HP : !ISchedulingPolicy P} `{HL : !LawfulSchedulingPolicy P} `{HF : !FloatCast}.
Context {W : Type} `{HV : !IVirtualMemory W} `{HE : !IExecutionEngine W} `{HM : !LawfulMachine W}.
Implicit Types (d : dispatcher P W) (r pid now : Z) (st : ProcessState) (im : ProcessImage).

(** [pending]: a control block of an image the caller has not handed over. *)
Record disp_wf (pending : option Z) d : Prop := {
  dw_sched : sched_wf (d_scheduler d) (d_heap d);
  dw_image pid im : d_processes d !! pid = Some im → processes (d_scheduler d) !! pid = Some (im_pcb im);
  dw_table pid r : processes (d_scheduler d) !! pid = Some r →
    ∃ im, d_processes d !! pid = Some im ∧ im_pcb im = r;
  dw_placed pid im : d_processes d !! pid = Some im → ∃ st, member (d_scheduler d) (im_pcb im) st;
  dw_heap r : is_Some (d_heap d !! r) → pending = Some r ∨ ∃ pid, processes (d_scheduler d) !! pid = Some r;
  dw_pending r : pending = Some r → is_Some (d_heap d !! r) ∧ ∀ pid, processes (d_scheduler d) !! pid ≠ Some r;
  dw_fresh r : is_Some (d_heap d !! r) → r < d_fresh d;
  dw_world : machine_inv (d_world d);
  dw_slots : slot_owners (d_world d) = dom (d_processes d)
}.

Lemma create_wf (s : sched P) h r p : sched_wf s h → h !! r = None → sched_wf s (<[r := p]> h).
Proof.
  intros Hw Hr. destruct (sched_step_ok s h (OpCreate r p) Hw Hr) as (b & s' & h' & [= <- <- <-] & ?). done.
Qed.
Lemma destroy_wf (s : sched P) h r :
  sched_wf s h → (∀ pid, processes s !! pid ≠ Some r) → sched_wf s (delete r h).
Proof.
  intros Hw Hr. destruct (sched_step_ok s h (OpDestroy r) Hw Hr) as (b & s' & h' & [= <- <- <-] & ?). done.
Qed.
Lemma unknown_not_member (s : sched P) h r :
  sched_wf s h → (∀ pid, processes s !! pid ≠ Some r) → ∀ st, ¬ member s r st.
Proof. intros Hw Hr st Hm. destruct (w_member _ _ Hw r st Hm) as (p & _ & _ & Hk). by apply Hr in Hk. Qed.

Lemma moved_is_Some (h : heap) r st now x : is_Some (moved_to h r st now !! x) ↔ is_Some (h !! x).
Proof.
  unfold moved_to. destruct (h !! r) as [p|] eqn:Hr; [|done]. destruct (decide (x = r)) as [->|Hne].
  - rewrite lookup_insert_eq, Hr. split; by eexists.
  - by rewrite lookup_insert_ne.
Qed.

Lemma pids_distinct pn d pid pid' im im' :
  disp_wf pn d → d_processes d !! pid = Some im → d_processes d !! pid' = Some im' →
  im_pcb im = im_pcb im' → pid = pid'.
Proof.
  intros Hw H1 H2 He. pose proof (w_table _ _ (dw_sched _ _ Hw)) as Ht.
  destruct (Ht pid (im_pcb im)) as [Ha _]; [by apply (dw_image _ _ Hw)|].
  destruct (Ht pid' (im_pcb im)) as [Hb _]; [rewrite He; by apply (dw_image _ _ Hw)|]. congruence.
Qed.

(** A scheduler call that keeps the process table and loses nobody. *)
Lemma wf_set_sched pn d s' h' :
  disp_wf pn d → sched_wf s' h' → processes s' = processes (d_scheduler d) →
  (∀ x, is_Some (h' !! x) ↔ is_Some (d_heap d !! x)) →
  (∀ x st, member (d_scheduler d) x st → ∃ st', member s' x st') →
  disp_wf pn (set_sched d s' h').
Proof.
  intros [H1 H2 H3 H4 H5 H6 H7 H8 H9] Hs Ht Hh Hm. split; simpl; rewrite ?Ht; try done.
  - intros pid im Hi. destruct (H4 pid im Hi) as [st Hst]. by eapply Hm.
  - intros r Hr%Hh. by apply H5.
  - intros r Hr. destruct (H6 r Hr). split; [by apply Hh|done].
  - intros r Hr%Hh. by apply H7.
Qed.

(** A burst: new registers, a new machine state. *)
Lemma wf_burst pn d pid im im' w :
  disp_wf pn d → d_processes d !! pid = Some im → im_pcb im' = im_pcb im →
  machine_inv w → slot_owners w = slot_owners (d_world d) →
  disp_wf pn (set_images (set_world d w) (<[pid := im']> (d_processes d))).
Proof.
  intros [H1 H2 H3 H4 H5 H6 H7 H8 H9] Hi He Hw Ho. split; simpl; try done.
  - intros q x. rewrite lookup_insert_Some. intros [[<- <-]|[_ ?]]; [rewrite He|]; by apply H2.
  - intros q r Hr. destruct (H3 q r Hr) as (x & Hx & <-). destruct (decide (pid = q)) as [<-|Hne].
    + exists im'. rewrite lookup_insert_eq. split; [done|congruence].
    + exists x. by rewrite lookup_insert_ne.
  - intros q x. rewrite lookup_insert_Some. intros [[<- <-]|[_ ?]]; [rewrite He|]; by eapply H4.
  - rewrite Ho, H9, dom_insert_L. assert (pid ∈ dom (d_processes d)); [by apply elem_of_dom_2 in Hi|set_solver].
Qed.

Lemma wf_advance pn d n : disp_wf pn d → disp_wf pn (advanceClock d n).
Proof. by intros []. Qed.
Lemma wf_halt pn d pid : disp_wf pn d → disp_wf pn (set_world d (halt (d_world d) pid)).
Proof. intros []. destruct (law_halt (d_world d) pid) as [? ?]; [done|]. split; simpl; try done. congruence. Qed.

(** A process leaves: the scheduler forgot it, its slot and image go. *)
Lemma remove_process_ok pn d pid im s2 h2 :
  disp_wf pn d → d_processes d !! pid = Some im →
  sched_wf s2 h2 → processes s2 = delete pid (processes (d_scheduler d)) →
  (∀ x, is_Some (h2 !! x) ↔ is_Some (d_heap d !! x)) →
  (∀ x st, member s2 x st ↔ x ≠ im_pcb im ∧ member (d_scheduler d) x st) →
  ∃ w, freeSlot (d_world d) pid = Some w ∧
  let d' := MkDispatcher s2 (delete (im_pcb im) h2) w.2 (d_clock d) (delete pid (d_processes d)) (d_fresh d) in
  remove_process (set_sched d s2 h2) pid im = Some (ok tt, d') ∧ disp_wf pn d'.
Proof.
  intros Hw Hi Hs Ht Hh Hm. pose proof Hw as [H1 H2 H3 H4 H5 H6 H7 H8 H9].
  destruct (law_free (d_world d) pid H8) as (rf & w & Hf & Hwi & Ho). exists (rf, w). split; [done|].
  intros d'. unfold remove_process. simpl. rewrite Hf. simpl. split; [done|].
  assert (∀ q, processes s2 !! q ≠ Some (im_pcb im)) as Hgone.
  { intros q. rewrite Ht, lookup_delete. case_decide as Hq; [done|]. intros Hr.
    destruct (H3 q _ Hr) as (x & Hx & He). by apply Hq, (pids_distinct pn d pid q im x Hw). }
  split; simpl; try done.
  - by apply destroy_wf.
  - intros q x. rewrite Ht, !lookup_delete. case_decide; [done|]. apply H2.
  - intros q r. rewrite Ht, !lookup_delete. case_decide; [done|]. apply H3.
  - intros q x. rewrite lookup_delete. case_decide as Hq; [done|]. intros Hx.
    destruct (H4 q x Hx) as [st Hst]. exists st. apply Hm. split; [|done].
    intros He. by apply Hq, (pids_distinct pn d pid q im x Hw).
  - intros r. rewrite lookup_delete. case_decide as Hr; [by intros []|]. intros Hx%Hh%H5.
    destruct Hx as [|[q Hq]]; [by left|right]. exists q. rewrite Ht, lookup_delete_ne; [done|].
    intros <-. apply Hr. pose proof (H2 pid im Hi). congruence.
  - intros r Hr. destruct (H6 r Hr) as [Ha Hb]. split.
    + rewrite lookup_delete_ne; [by apply Hh|]. intros <-. by apply (Hb pid), H2.
    + intros q. rewrite Ht, lookup_delete. case_decide; [done|]. apply Hb.
  - intros r. rewrite lookup_delete. case_decide; [by intros []|]. intros Hx%Hh. by apply H7.
  - by rewrite Ho, H9, dom_delete_L.
Qed.

(** ** Creation *)
Lemma new_image_ok d id name code prio arrival :
  disp_wf None d → id ≠ INVALID_PID →
  ∃ p im d', new_image d id name code prio arrival = Some (im, d') ∧
    im = MkImage (d_fresh d) RegisterFile.init code ∧ disp_wf (Some (im_pcb im)) d' ∧
    d_heap d' !! im_pcb im = Some p ∧ pcb_id p = id ∧ state p = New ∧
    d_scheduler d' = d_scheduler d ∧ d_world d' = d_world d ∧ d_clock d' = d_clock d ∧
    d_processes d' = d_processes d ∧ d_heap d' = <[im_pcb im := p]> (d_heap d).
Proof.
  intros Hw Hid. pose proof Hw as [H1 H2 H3 H4 H5 H6 H7 H8 H9].
  unfold new_image, ProcessImage_make, PCB_make. rewrite (proj2 (Z.eqb_neq _ _) Hid). simpl.
  assert (d_heap d !! d_fresh d = None) as Hf.
  { destruct (d_heap d !! d_fresh d) eqn:E; [|done]. specialize (H7 _ (mk_is_Some _ _ E)). lia. }
  assert (∀ q, processes (d_scheduler d) !! q ≠ Some (d_fresh d)) as Hun.
  { intros q Hq. destruct (w_table _ _ H1 _ _ Hq) as [Hi _]. unfold pid_at in Hi. by rewrite Hf in Hi. }
  do 3 eexists. split; [done|]. split; [done|]. split; [|split; [apply lookup_insert_eq|by split_and!]].
  split; simpl; try done.
  - by apply create_wf.
  - intros r. rewrite lookup_insert. case_decide; [left; congruence|]. intros [|]%H5; [done|by right].
  - intros r [= <-]. rewrite lookup_insert_eq. split; [by eexists|done].
  - intros r. rewrite lookup_insert. case_decide; [lia|]. intros ?%H7. lia.
Qed.

Lemma refuse_wf d im e :
  disp_wf (Some (im_pcb im)) d →
  ∃ d', refuse d im e = Some (error e, d') ∧ disp_wf None d' ∧ d_processes d' = d_processes d ∧
    d_scheduler d' = d_scheduler d ∧ d_clock d' = d_clock d.
Proof.
  intros [H1 H2 H3 H4 H5 H6 H7 H8 H9]. destruct (H6 _ eq_refl) as [_ Hun]. eexists. split; [done|].
  split; [|done]. split; simpl; try done.
  - by apply destroy_wf.
  - intros r. rewrite lookup_delete. case_decide; [by intros []|]. intros [[= ?]|]%H5; [done|by right].
  - intros r. rewrite lookup_delete. case_decide; [by intros []|]. apply H7.
Qed.

Lemma wf_set_world pn d w :
  disp_wf pn d → machine_inv w → slot_owners w = slot_owners (d_world d) → disp_wf pn (set_world d w).
Proof. intros [] ? Ho. split; simpl; try done. congruence. Qed.

(** What a new process finds when it is admitted. *)
Lemma pending_admitted d im p p' pid now :
  disp_wf (Some (im_pcb im)) d → d_heap d !! im_pcb im = Some p → pcb_id p = pid → state p = New →
  pid ≠ INVALID_PID → d_processes d !! pid = None → pcb_id p' = pid → state p' = New →
  ∃ s' h', enqueue (d_scheduler d) (<[im_pcb im := p']> (d_heap d)) (im_pcb im) now = Some (ok tt, s', h') ∧
    sched_wf s' h' ∧ processes s' = <[pid := im_pcb im]> (processes (d_scheduler d)) ∧
    (∀ x, is_Some (h' !! x) ↔ is_Some (d_heap d !! x)) ∧
    (∀ x st, member (d_scheduler d) x st → member s' x st) ∧ member s' (im_pcb im) Ready ∧
    (∃ q, readyByLane (d_scheduler d) !! 0%nat = Some q ∧
       readyByLane s' = <[0%nat := q ++ [im_pcb im]]> (readyByLane (d_scheduler d))).
Proof.
  intros [H1 H2 H3 H4 H5 H6 H7 H8 H9] Hp Hid Hnew Hinv Hnone Hid' Hnew'.
  destruct (H6 _ eq_refl) as [_ Hun]. pose proof (unknown_not_member _ _ _ H1 Hun) as Hnm.
  set (h0 := <[im_pcb im := p']> (d_heap d)).
  assert (sched_wf (d_scheduler d) h0) as Hw0 by (eapply update_unqueued; [done|done|congruence|done]).
  assert (processes (d_scheduler d) !! pid = None) as Hk.
  { destruct (processes (d_scheduler d) !! pid) as [r|] eqn:E; [|done].
    destruct (H3 _ _ E) as (x & Hx & _). congruence. }
  assert (h0 !! im_pcb im = Some p') as Hp0 by apply lookup_insert_eq.
  assert (∀ x, is_Some (h0 !! x) ↔ is_Some (d_heap d !! x)) as Hdom.
  { intros x. unfold h0. rewrite lookup_insert. case_decide; [|done]. subst. rewrite Hp. split; by eexists. }
  unfold enqueue. destruct (enqueueToLane_ok (d_scheduler d) h0 (im_pcb im) 0 now Hw0) as (p0 & Hpp & Hcase).
  { exists p'. split; [done|]. rewrite Hid'. split; [by left|]. intros Hb. apply (Hnm Blocked). by right; right. }
  assert (p0 = p') as -> by congruence.
  destruct Hcase as [[_ Hl]|[(_ & ? & _)|[(_ & _ & [Hm|Hm] & _)|[(_ & _ & _ & _ & [Hs|Hs] & _)|(s' & h' & q & p2 & He & Hw' & Hq & E1 & E2 & E3 & E4 & _ & E5 & _)]]]].
  - apply lookup_ge_None in Hl. destruct (w_lanes _ _ H1). lia.
  - congruence.
  - by apply Hnm in Hm.
  - by apply Hnm in Hm.
  - congruence.
  - by rewrite Hnew' in Hs.
  - destruct (concat_lane _ _ _ Hq) as (rest & Hc & Hci).
    assert (∀ x, x ∈ concat (readyByLane s') ↔ x ∈ concat (readyByLane (d_scheduler d)) ∨ x = im_pcb im) as Hcc.
    { intros x. rewrite E1, Hci, Hc, !elem_of_app, list_elem_of_singleton. tauto. }
    exists s', h'. split; [done|]. split_and!.
    + done.
    + by rewrite E4, Hid'.
    + intros x. rewrite E5, lookup_insert, <-Hdom. case_decide; [|done]. subst. rewrite Hp0. split; by eexists.
    + intros x st. unfold member. rewrite Hcc, E2, E3. tauto.
    + left. split; [done|]. apply Hcc. by right.
    + by exists q.
Qed.

Lemma createProcess_ok d im p now :
  disp_wf (Some (im_pcb im)) d → d_heap d !! im_pcb im = Some p → state p = New →
  ∃ res d', createProcess d (Some im) now = Some (res, d') ∧ disp_wf None d' ∧ d_clock d' = d_clock d ∧
    match res with
    | error e => d_processes d' = d_processes d ∧ d_scheduler d' = d_scheduler d
    | ok _ => d_processes d !! pcb_id p = None ∧ d_processes d' = <[pcb_id p := im]> (d_processes d) ∧
        (∀ x st, member (d_scheduler d) x st → member (d_scheduler d') x st) ∧
        member (d_scheduler d') (im_pcb im) Ready
    end.
Proof.
  intros Hw Hp Hnew. pose proof Hw as [H1 H2 H3 H4 H5 H6 H7 H8 H9]. unfold createProcess. rewrite Hp. simpl.
  destruct (Z.eqb_spec (pcb_id p) INVALID_PID) as [|Hinv].
  { destruct (refuse_wf d im ErrorCode.InvalidPid Hw) as (d' & -> & ? & ? & ? & ?). by do 2 eexists. }
  case_decide as Hex.
  { destruct (refuse_wf d im ErrorCode.AlreadyExists Hw) as (d' & -> & ? & ? & ? & ?). by do 2 eexists. }
  assert (d_processes d !! pcb_id p = None) as Hnone by by apply eq_None_not_Some.
  destruct (law_allocate (d_world d) (pcb_id p) (max 1 (codeSize im)) H8) as (ra & w1 & -> & Hw1 & Ho1). simpl.
  destruct ra as [base|e]; simpl in Ho1.
  2: { destruct (refuse_wf (set_world d w1) im e) as (d' & -> & ? & ? & ? & ?); [by apply wf_set_world|].
       by do 2 eexists. }
  destruct (law_load w1 (pcb_id p) (im_code im) Hw1) as (rl & w2 & -> & Hw2 & Ho2). simpl.
  destruct rl as [[]|e].
  2: { unfold refuse_freeing. simpl. destruct (law_free w2 (pcb_id p) Hw2) as (rf & w3 & -> & Hw3 & Ho3). simpl.
       destruct (refuse_wf (set_world (set_world d w2) w3) im e) as (d' & -> & ? & ? & ? & ?); [|by do 2 eexists].
       change (set_world (set_world d w2) w3) with (set_world d w3). apply wf_set_world; [done..|].
       rewrite Ho3, Ho2, Ho1, H9. assert (pcb_id p ∉ dom (d_processes d)); [by apply not_elem_of_dom|set_solver]. }
  set (p' := with_addressInfo p _).
  destruct (pending_admitted d im p p' (pcb_id p) now) as (s' & h' & -> & Hs & Et & Eh & Em & Emr & _); try done.
  simpl. do 2 eexists. split; [done|]. split; [|done]. split; simpl; try done.
  - intros q x. rewrite Et, !lookup_insert. case_decide; [congruence|]. apply H2.
  - intros q r. rewrite Et, !lookup_insert. case_decide; [intros [= <-]; by exists im|]. apply H3.
  - intros q x. rewrite lookup_insert. case_decide; [intros [= <-]; by exists Ready|]. intros Hx.
    destruct (H4 q x Hx) as [st ?]. exists st. by apply Em.
  - intros r [[= <-]|[q Hq]]%Eh%H5; right; rewrite Et.
    + exists (pcb_id p). by rewrite lookup_insert_eq.
    + exists q. rewrite lookup_insert_ne; [done|]. intros <-. destruct (H3 _ _ Hq) as (x & Hx & _). congruence.
  - intros r Hr%Eh. by apply H7.
  - by rewrite Ho2, Ho1, H9, dom_insert_L.
Qed.

(** ** The end of a burst *)
Lemma forget_member (s : sched P) pid x st : member (forget s pid) x st ↔ member s x st.
Proof. done. Qed.

Lemma block_members (s s' : sched P) lane r :
  runningByLane s !! lane = Some (Some r) → readyByLane s' = readyByLane s →
  runningByLane s' = <[lane := None]> (runningByLane s) → blocked s' = blocked s ++ [r] →
  member s' r Blocked ∧ ∀ x st, x ≠ r → member s x st → member s' x st.
Proof.
  intros Hl E1 E2 E3. destruct (slots_lane _ _ _ Hl) as (rest & Hs & Hsi). split.
  - right; right. split; [done|]. rewrite E3. apply elem_of_app. right. by left.
  - intros x st Hne. unfold member. rewrite E1, E2, E3, Hsi, Hs, !elem_of_app. simpl.
    rewrite elem_of_cons. tauto.
Qed.

Lemma after_burst_ok d pid im reason lane :
  disp_wf None d → d_processes d !! pid = Some im →
  runningByLane (d_scheduler d) !! lane = Some (Some (im_pcb im)) →
  ∃ d', after_burst d pid im reason = Some (ok tt, d') ∧ disp_wf None d' ∧ d_clock d' = d_clock d ∧
    match reason with
    | BudgetExhausted => d' = d
    | Interrupted => d_processes d' = d_processes d ∧ member (d_scheduler d') (im_pcb im) Blocked ∧
        ∀ x st, x ≠ im_pcb im → member (d_scheduler d) x st → member (d_scheduler d') x st
    | _ => d_processes d' = delete pid (d_processes d) ∧
        processes (d_scheduler d') = delete pid (processes (d_scheduler d)) ∧
        d_heap d' !! im_pcb im = None ∧
        ∀ x st, member (d_scheduler d') x st ↔ x ≠ im_pcb im ∧ member (d_scheduler d) x st
    end.
Proof.
  intros Hw Hi Hl. pose proof Hw as [H1 H2 H3 H4 H5 H6 H7 H8 H9].
  pose proof (H2 pid im Hi) as Hk. pose proof (slot_member _ _ _ Hl) as Hm.
  destruct (w_member _ _ H1 _ _ Hm) as (p & Hp & Hst & _).
  unfold after_burst. set (now := SimulationClock.now _).
  assert (∃ d', (let! (r, s, h) := terminate (d_scheduler d) (d_heap d) pid now in
    let d1 := set_sched d s h in
    match r with ok _ => remove_process d1 pid im | error e => Some (error e, d1) end) = Some (ok tt, d') ∧
    disp_wf None d' ∧ d_clock d' = d_clock d ∧ d_processes d' = delete pid (d_processes d) ∧
        processes (d_scheduler d') = delete pid (processes (d_scheduler d)) ∧
        d_heap d' !! im_pcb im = None ∧
        ∀ x st, member (d_scheduler d') x st ↔ x ≠ im_pcb im ∧ member (d_scheduler d) x st) as Hterm.
  { pose proof (terminate_ok (d_scheduler d) (d_heap d) pid now H1) as Ht. rewrite Hk in Ht.
    destruct Ht as (p0 & s1 & Hp0 & E1 & _ & Em & Ht). rewrite Hp in Hp0. injection Hp0 as <-.
    rewrite Hst in Ht. destruct Ht as [-> Hw']. simpl.
    destruct (remove_process_ok None d pid im (forget s1 pid) (moved_to (d_heap d) (im_pcb im) Terminated now) Hw Hi Hw')
      as (w & Hf & -> & Hw2).
    - simpl. by rewrite E1.
    - intros x. apply moved_is_Some.
    - intros x st. by rewrite forget_member, Em.
    - eexists. split; [done|]. split; [done|]. simpl. split_and!; [done|done|by rewrite E1|apply lookup_delete_eq|].
      intros x st. by rewrite forget_member, Em. }
  destruct reason; [by exists d|exact Hterm|exact Hterm| |exact Hterm].
  destruct (blockProcess_ok (d_scheduler d) (d_heap d) pid now H1)
    as [(l & r & s' & Hl' & Hr & -> & Hw' & [Et _] & _ & E1 & E2 & E3)|(e & _ & _ & Hno)].
  2: { exfalso. apply (Hno (im_pcb im) Hk). destruct (slots_lane _ _ _ Hl) as (rest & -> & _). by left. }
  assert (r = im_pcb im) as -> by congruence.
  destruct (block_members _ s' l (im_pcb im) Hl' E1 E2 E3) as [Hb Hb'].
  eexists. split; [done|]. split; [|done]. apply wf_set_sched; try done.
  - intros x. apply moved_is_Some.
  - intros x st Hx. destruct (decide (x = im_pcb im)) as [->|Hne]; [by exists Blocked|].
    exists st. by apply Hb'.
Qed.

(** ** Dispatch *)

(** The state a selected process runs its burst in. *)
Definition burst_of d s h pid im' w ticks : dispatcher P W :=
  advanceClock (set_images (set_world (set_sched d s h) w) (<[pid := im']> (d_processes d))) ticks.

(** What [dispatch] selected: the process and the scheduler that runs it. *)
Definition selects d pid im s h : Prop :=
  sched_selectNext (d_scheduler d) (d_heap d) (SimulationClock.now (d_clock d)) = Some (ok pid, s, h) ∧
  d_processes d !! pid = Some im.

Lemma selects_call d pid im s h : selects d pid im s h →
  selectNextForLane (d_scheduler d) (d_heap d) 0 (SimulationClock.now (d_clock d)) = Some (ok pid, s, h).
Proof. by intros [? _]. Qed.

Lemma selects_wf d pid im s h :
  disp_wf None d → selects d pid im s h →
  disp_wf None (set_sched d s h) ∧ processes s = processes (d_scheduler d) ∧ blocked s = blocked (d_scheduler d) ∧
  runningByLane s !! 0%nat = Some (Some (im_pcb im)) ∧
  (∀ x st, member (d_scheduler d) x st → ∃ st', member s x st').
Proof.
  intros Hw [Hsel Hi]. unfold sched_selectNext in Hsel. pose proof Hw as [H1 H2 H3 H4 H5 H6 H7 H8 H9].
  destruct (selectNext_ok (d_scheduler d) (d_heap d) 0 (SimulationClock.now (d_clock d)) H1)
    as (res & s' & h' & Hs & Hw' & [Et _] & Eb & Hres). rewrite Hsel in Hs. injection Hs as <- <- <-.
  pose proof Hres as (r & ready & running & Hq & Hrun & Hr & Hr' & Hcase).
  assert (r = im_pcb im) as -> by (pose proof (H2 pid im Hi); congruence).
  assert (∀ x st, member (d_scheduler d) x st → ∃ st', member s x st') as Hm.
  { intros x st. by eapply selected_members. }
  split; [|done]. apply wf_set_sched; try done. intros x. destruct Hcase as [(_ & _ & ->)|(_ & _ & _ & _ & ->)]; [done|].
  rewrite moved_is_Some. destruct running; [by rewrite moved_is_Some|done].
Qed.

Lemma dispatch_cases d budget :
  disp_wf None d →
  (∃ e, dispatch d budget = Some (error e, d) ∧
     (e = ErrorCode.InvalidState ∧ policy (d_scheduler d) = None ∨
      e = ErrorCode.NotFound ∧ (d_processes d = ∅ ∨
        readyByLane (d_scheduler d) !! 0%nat = Some [] ∧ runningByLane (d_scheduler d) !! 0%nat = Some None))) ∨
  ∃ pid im s h, selects d pid im s h ∧
    (execute (d_world d) pid im budget = None ∧ dispatch d budget = None ∨
     ∃ res im' w, execute (d_world d) pid im budget = Some (res, im', w) ∧
       disp_wf None (burst_of d s h pid im' w (ExecutionResult.ticksConsumed res)) ∧ im_pcb im' = im_pcb im ∧
       dispatch d budget = after_burst (burst_of d s h pid im' w (ExecutionResult.ticksConsumed res)) pid im'
                             (ExecutionResult.reason res)).
Proof.
  intros Hw. pose proof Hw as [H1 H2 H3 H4 H5 H6 H7 H8 H9]. unfold dispatch, sched_selectNext.
  case_decide as He; [left; eexists; split; [done|]; right; split; [done|by left]|].
  destruct (selectNext_ok (d_scheduler d) (d_heap d) 0 (SimulationClock.now (d_clock d)) H1)
    as (res & s & h & Hs & Hw' & [Et _] & Eb & Hres). rewrite Hs. simpl. destruct res as [pid|e].
  - right. pose proof Hres as (r & ready & running & _ & _ & Hr & _ & _).
    destruct (H3 pid r Hr) as (im & Hi & Him). rewrite Hi. exists pid, im, s, h.
    assert (selects d pid im s h) as Hsel by done. split; [done|].
    destruct (execute (d_world d) pid im budget) as [[[res im'] w]|] eqn:Hx; [|by left].
    right. exists res, im', w. split; [done|].
    destruct (law_execute _ _ _ _ _ _ _ H8 Hx) as (Hwi & Ho & Hpi & _).
    destruct (selects_wf d pid im s h Hw Hsel) as (Hw1 & _). split; [|done].
    apply wf_advance. by apply (wf_burst None (set_sched d s h) pid im im' w).
  - left. destruct Hres as (-> & -> & Hres). eexists. split; [by destruct d|].
    destruct Hres as [[_ Hn]|[[-> ?]|[-> ?]]]; [|by left|right; split; [done|by right]].
    apply lookup_ge_None in Hn. destruct (w_lanes _ _ H1). lia.
Qed.

(** ** Forced termination *)
Lemma terminateProcess_ok d pid now :
  disp_wf None d →
  match d_processes d !! pid with
  | None => terminateProcess d pid now = Some (error ErrorCode.NotFound, d)
  | Some im => ∃ d', terminateProcess d pid now = Some (ok tt, d') ∧ disp_wf None d' ∧
      d_processes d' = delete pid (d_processes d) ∧ d_clock d' = d_clock d ∧
      d_heap d' !! im_pcb im = None ∧
      ∀ x st, member (d_scheduler d') x st ↔ x ≠ im_pcb im ∧ member (d_scheduler d) x st
  end.
Proof.
  intros Hw. unfold terminateProcess. destruct (d_processes d !! pid) as [im|] eqn:Hi; [|done].
  pose proof (wf_halt None d pid Hw) as Hwh. set (d1 := set_world d (halt (d_world d) pid)) in *.
  pose proof Hwh as [H1 H2 H3 H4 H5 H6 H7 H8 H9]. pose proof (H2 pid im Hi) as Hk.
  destruct (dequeue_ok (d_scheduler d1) (d_heap d1) pid H1) as [(_ & s1 & Hd & ->)|[Hn _]]; [|congruence]. simpl.
  pose proof (dropped_forget _ _ _ _ H1 Hd) as Hwf.
  assert (∀ x st, member (forget s1 pid) x st ↔ x ≠ im_pcb im ∧ member (d_scheduler d) x st) as Hm.
  { intros x st. rewrite forget_member, (dropped_member (d_scheduler d1) pid) by done. rewrite Hk.
    split; intros [? ?]; split; try done; congruence. }
  destruct (w_table _ _ H1 _ _ Hk) as [Hpid _]. unfold pid_at in Hpid. unfold set_state. cbn [d_heap d1 set_world] in *.
  destruct (d_heap d !! im_pcb im) as [p|] eqn:Hp; [|done]. simpl.
  destruct (setState p Terminated now) as [b p'] eqn:Hset. simpl.
  assert (pcb_id p' = pcb_id p) as Hid.
  { unfold setState in Hset. destruct (negb _); by simplify_eq. }
  assert (sched_wf (forget s1 pid) (<[im_pcb im := p']> (d_heap d))) as Hwf'.
  { eapply update_unqueued; [done|done|done|]. intros st Hx%Hm. by destruct Hx. }
  destruct (remove_process_ok None d1 pid im (forget s1 pid) (<[im_pcb im := p']> (d_heap d)) Hwh Hi Hwf')
    as (w & Hf & Hrm & Hw2).
  - simpl. by rewrite (proj1 Hd).
  - intros x. rewrite lookup_insert. case_decide; [|done]. subst. simpl. rewrite Hp. split; by eexists.
  - intros x st. apply Hm.
  - change (set_heap (set_sched d1 (forget s1 pid) (d_heap d)) (<[im_pcb im:=p']> (d_heap d)))
      with (set_sched d1 (forget s1 pid) (<[im_pcb im:=p']> (d_heap d))).
    eexists. split; [exact Hrm|]. split; [done|]. simpl. split_and!; [done|done|apply lookup_delete_eq|].
    intros x st. apply Hm.
Qed.
End invariant.
