(* ===== verification/Machine.v ===== *)
(** * Machine: virtual memory and interpreter on one physical memory

    The state the dispatcher's two collaborators share: the slots and the MMU
    of virtual memory, and the interpreter, whose CPU runs on the very memory
    the MMU manages.  A burst therefore changes the frames under the MMU. *)
From S2P Require Import Prelude Core Arch Process Paging Mmu MmuInvariant MmuProps VirtualMem.
From S2P Require Import Cpu Interp InterpTheorems Dispatcher Policies Scheduler.
From S2P Require Import DispatcherProps.

Section machine.
Context {M Q : Type} `{HMem : !IMemory M} `{HLM : !LawfulMemory M}.
Context `{HPol : !IPageReplacementPolicy Q} `{HLP : !LawfulPolicy Q} `{HO : HashOrder}.

Record machine := MkMachine { mc_vm : vm_state (mmu M Q); mc_flags : Z; mc_halted : gset Z }.
Implicit Types (w : machine) (pid : Z).

Definition with_vm w (v : vm_state (mmu M Q)) : machine := MkMachine v (mc_flags w) (mc_halted w).

(** The interpreter as it sees the shared memory, and back. *)
Definition engine_view w : interpreter M := MkInterp (mc_flags w) (Mmu.memory (vm_mmu (mc_vm w))) (mc_halted w).
Definition with_engine w (e : interpreter M) : machine :=
  MkMachine (VirtualMem.set_mmu (mc_vm w) (set_memory (vm_mmu (mc_vm w)) (in_memory e))) (in_flags e) (haltedPids e).

Definition allocate w pid (n : nat) : option (Result Z * machine) :=
  let! (r, v) := VirtualMem.allocateSlot (mc_vm w) pid n in
  match r with
  | ok (VAddress a) => Some (ok (Z.of_nat a), with_vm w v)
  | ok _ => None
  | error e => Some (error e, with_vm w v)
  end.

#[global] Instance machine_memory : IVirtualMemory machine := {|
  allocateSlot := allocate;
  loadSegment w pid code := let! (r, v) := VirtualMem.loadSegment (mc_vm w) pid code in Some (r, with_vm w v);
  freeSlot w pid := let! (r, v) := VirtualMem.freeSlot (mc_vm w) pid in Some (r, with_vm w v);
  totalSlots w := VirtualMem.totalSlots (mc_vm w);
  freeSlots w := VirtualMem.freeSlots (mc_vm w)
|}.
#[global] Instance machine_engine : IExecutionEngine machine := {|
  execute w pid im n :=
    let! (res, im', e) := execute (engine_view w) pid im n in Some (res, im', with_engine w e);
  halt w pid := with_engine w (halt (engine_view w) pid)
|}.

(** ** The laws *)
Lemma allocate_value (v : vm_state (mmu M Q)) pid n x v' :
  vm_wf v → VirtualMem.allocateSlot v pid n = Some (ok x, v') → x = VAddress 0.
Proof.
  intros Hw. unfold VirtualMem.allocateSlot. destruct (n =? 0); [done|]. destruct (_ <=? _); [done|].
  destruct (slots v !! pid); [done|].
  destruct (mmu_law (vm_mmu v) (MAllocate pid n) (vm_inv _ Hw)) as (r & u & -> & _ & Hs). simpl.
  inversion Hs; simplify_eq/=; try done. by intros [= <- <-].
Qed.

Lemma loadSegment_wf (v : vm_state (mmu M Q)) pid data :
  vm_wf v → ∃ r v', VirtualMem.loadSegment v pid data = Some (r, v') ∧ vm_wf v' ∧ slots v' = slots v.
Proof.
  intros Hw. unfold VirtualMem.loadSegment. destruct (slots v !! pid) as [n|] eqn:Hp; [|by eexists _, v].
  destruct (vm_slots _ Hw _ _ Hp) as (l & Hl & Hlen).
  destruct (Nat.ltb_spec n (length data)); [by eexists _, v|].
  destruct (load_loop_ok data (vm_mmu v) pid 0 l (vm_inv _ Hw) Hl ltac:(lia))
    as (r & u & l' & -> & Hu & Hs & Hlen' & _). simpl. eexists _, _. split; [done|]. split; [|done].
  destruct Hw as [Hi Hsl Hc]. split; cbn [slots vm_mmu maxSlots VirtualMem.set_mmu]; [done| |done].
  intros q m Hq. rewrite Hs.
  destruct (decide (q = pid)) as [->|]; [|rewrite lookup_insert_ne by done; by apply Hsl].
  rewrite lookup_insert_eq. eexists. split; [done|]. simplify_eq. congruence.
Qed.

Lemma freeSlot_wf (v : vm_state (mmu M Q)) pid :
  vm_wf v → ∃ r v', VirtualMem.freeSlot v pid = Some (r, v') ∧ vm_wf v' ∧ slots v' = delete pid (slots v).
Proof.
  intros Hw. unfold VirtualMem.freeSlot. destruct (slots v !! pid) as [n|] eqn:Hp.
  2: { eexists _, v. by rewrite delete_id. }
  destruct (vm_slots _ Hw _ _ Hp) as (l & Hl & _).
  destruct (mmu_law (vm_mmu v) (MDeallocate pid) (vm_inv _ Hw)) as (r & u & -> & Hu & Hs). simpl.
  inversion Hs; simplify_eq/=; try congruence.
  assert (mmu_spaces u = delete pid (mmu_spaces (vm_mmu v))) as Heq by done.
  eexists _, _. split; [done|]. split; [|done]. destruct Hw as [Hi Hsl Hc]. split; cbn [slots vm_mmu maxSlots]; [done| |].
  - intros q m. rewrite lookup_delete. case_decide; [done|]. intros Hq. rewrite Heq, lookup_delete_ne by done.
    by apply Hsl.
  - rewrite map_size_delete, Hp. lia.
Qed.

(** The MMU does not care what its frames hold, only how many there are. *)
Lemma mmu_wf_memory (s : mmu M Q) m : mem_cells m = mem_cells (Mmu.memory s) → mmu_wf s → mmu_wf (set_memory s m).
Proof. intros Hc [[] []]. split; split; try done. simpl. by rewrite Hc. Qed.

Lemma spaces_shape (s : mmu M Q) m p l :
  spaces s !! p = Some l → ∃ l', spaces (set_memory s m) !! p = Some l' ∧ length l' = length l.
Proof.
  rewrite !lookup_spaces. simpl. destruct (pageTables s !! p) as [t|]; [|done]. intros [= <-].
  eexists. split; [done|]. by rewrite !length_imap.
Qed.

Lemma vm_wf_memory (v : vm_state (mmu M Q)) m :
  mem_cells m = mem_cells (Mmu.memory (vm_mmu v)) → vm_wf v → vm_wf (VirtualMem.set_mmu v (set_memory (vm_mmu v) m)).
Proof.
  intros Hc [H1 H2 H3]. split; simpl; [by apply mmu_wf_memory| |done].
  intros p n Hp. destruct (H2 p n Hp) as (l & Hl & <-). by apply spaces_shape.
Qed.

Lemma execute_cells (e : interpreter M) pid im n res im' e' :
  execute e pid im n = Some (res, im', e') → mem_cells (in_memory e') = mem_cells (in_memory e).
Proof.
  simpl. unfold run. case_decide; [by intros [= <- <- <-]|].
  destruct (loadCode (in_memory e) (im_code im)) as [b m] eqn:Hl.
  assert (mem_cells m = mem_cells (in_memory e)) as Hm.
  { clear -Hl HLM. unfold loadCode in Hl. destruct (_ <? _); [by simplify_eq|].
    revert Hl. generalize (in_memory e), 0 as i, (im_code im). intros m0 i c. revert m0 i.
    induction c as [|x c IH]; intros m0 i; simpl; [by intros [= <- <-]|].
    pose proof (mem_write_cells m0 (u32 (Z.of_nat i)) x) as Hc.
    destruct (mem_write _ _ _) as [[]]; simpl in Hc; [intros Hx%IH; congruence|by intros [= <- <-]]. }
  destruct b; simpl; [|by intros [= <- <- <-]].
  destruct (run_loop n pid 0 (haltedPids e) _) as [[[r h] c]|] eqn:Hr; [|done]. simpl. intros [= <- <- <-]. simpl.
  apply run_loop_cells in Hr. simpl in Hr. congruence.
Qed.

#[global, program] Instance machine_lawful : LawfulMachine machine := {|
  machine_inv w := vm_wf (mc_vm w);
  slot_owners w := dom (slots (mc_vm w))
|}.
Next Obligation.
  intros w pid n Hw. simpl in *. unfold allocate.
  destruct (allocateSlot_ok (mc_vm w) pid n Hw) as (r & v & Ha & Hv & H1 & H2). rewrite Ha. simpl.
  destruct r as [x|e].
  - pose proof (allocate_value _ _ _ _ _ Hw Ha) as ->. eexists _, _. split; [done|]. split; [done|]. simpl.
    destruct (proj1 H1 eq_refl) as [-> _]. by rewrite dom_insert_L.
  - eexists _, _. split; [done|]. split; [done|]. simpl. by destruct (H2 eq_refl) as [-> _].
Qed.
Next Obligation.
  intros w pid code Hw. simpl in *. destruct (loadSegment_wf (mc_vm w) pid code Hw) as (r & v & -> & Hv & He).
  simpl. eexists _, _. split; [done|]. split; [done|]. simpl. by rewrite He.
Qed.
Next Obligation.
  intros w pid Hw. simpl in *. destruct (freeSlot_wf (mc_vm w) pid Hw) as (r & v & -> & Hv & He).
  simpl. eexists _, _. split; [done|]. split; [done|]. simpl. by rewrite He, dom_delete_L.
Qed.
Next Obligation.
  intros w pid im n res im' w' Hw Hx. cbn [execute machine_engine] in Hx.
  destruct (execute (engine_view w) pid im n) as [[[r i] e]|] eqn:He; [|done]. simpl in Hx. injection Hx as <- <- <-.
  pose proof (execute_cells _ _ _ _ _ _ _ He). destruct (execute_bounds _ _ _ _ _ _ _ He) as (? & _ & ? & _).
  split; [by apply vm_wf_memory|done].
Qed.
Next Obligation. intros w pid Hw. split; [by apply vm_wf_memory|done]. Qed.
End machine.
Arguments machine M Q : clear implicits.
