(* ===== verification/DispatcherTheorems.v ===== *)
(** * DispatcherTheorems: what the dispatcher guarantees *)
From S2P Require Import Prelude Core Arch Process Policies Scheduler SchedInvariant SchedProps.
From S2P Require Import SchedSteps SchedRun IScheduler SchedTheorems Cpu Paging Mmu MmuInvariant MmuProps.
From S2P Require Import VirtualMem Interp Dispatcher DispatcherProps Machine.
Local Open Scope Z_scope.

(** ** Runs of the dispatcher *)
Inductive disp_op :=
| DCreate (id : Z) (name : string) (code : list Block) (prio : Priority) (arrival : Z)
| DDispatch (budget : nat)
| DTerminate (pid : Z)
| DTick.

Section runs.
Context {P : Type} `{HP : !ISchedulingPolicy P} `{HL : !LawfulSchedulingPolicy P} `{HF : !FloatCast}.
Context {W : Type} `{HV : !IVirtualMemory W} `{HE : !IExecutionEngine W} `{HM : !LawfulMachine W}.
Implicit Types (d : dispatcher P W) (r pid now : Z) (st : ProcessState) (im : ProcessImage).

(** Creating a process is building its image and handing it over. *)
Definition disp_step d (op : disp_op) : option (Result unit * dispatcher P W) :=
  let now := SimulationClock.now (d_clock d) in
  match op with
  | DCreate id name code prio arrival =>
      let! (im, d1) := new_image d id name code prio arrival in createProcess d1 (Some im) now
  | DDispatch budget => dispatch d budget
  | DTerminate pid => terminateProcess d pid now
  | DTick => Some (ok tt, tick d)
  end.
Fixpoint disp_run d (ops : list disp_op) : option (list (Result unit) * dispatcher P W) :=
  match ops with
  | [] => Some ([], d)
  | op :: ops' =>
      let! (r, d1) := disp_step d op in let! (rs, d2) := disp_run d1 ops' in Some (r :: rs, d2)
  end.

(** The constructor of a control block asserts a valid pid. *)
Definition valid_op (op : disp_op) : Prop :=
  match op with DCreate id _ _ _ _ => id ≠ INVALID_PID | _ => True end.

(** The selected process's burst is undefined: the engine's doing. *)
Definition engine_stuck d (op : disp_op) : Prop :=
  ∃ budget pid im s h, op = DDispatch budget ∧ selects d pid im s h ∧ execute (d_world d) pid im budget = None.

Lemma disp_step_ok d op :
  disp_wf None d → valid_op op →
  (∃ res d', disp_step d op = Some (res, d') ∧ disp_wf None d') ∨ engine_stuck d op.
Proof.
  intros Hw Hv. destruct op as [id name code prio arrival|budget|pid|]; cbn [disp_step]; cbv zeta.
  - left. destruct (new_image_ok d id name code prio arrival Hw Hv)
      as (p & im & d1 & -> & Him & Hw1 & Hp & Hid & Hst & _). cbv beta iota.
    match goal with |- context [createProcess d1 (Some im) ?now] =>
      destruct (createProcess_ok d1 im p now Hw1 Hp Hst) as (res & d' & -> & ? & _) end.
    by do 2 eexists.
  - destruct (dispatch_cases d budget Hw) as [(e & -> & _)|(pid & im & s & h & Hsel & [[Hn _]|(res & im' & w & Hx & Hw2 & Him & ->)])].
    + left. by do 2 eexists.
    + right. by exists budget, pid, im, s, h.
    + left. pose proof Hsel as [_ Hi]. destruct (selects_wf d pid im s h Hw Hsel) as (_ & _ & _ & Hl & _).
      destruct (after_burst_ok (burst_of d s h pid im' w (ExecutionResult.ticksConsumed res)) pid im'
        (ExecutionResult.reason res) 0 Hw2) as (d' & -> & ? & _); [apply lookup_insert_eq|simpl; by rewrite Him|].
      by do 2 eexists.
  - left. match goal with |- context [terminateProcess d pid ?now] => pose proof (terminateProcess_ok d pid now Hw) as Ht end.
    destruct (d_processes d !! pid) as [im|]; [destruct Ht as (d' & -> & ? & _)|rewrite Ht]; by do 2 eexists.
  - left. do 2 eexists. split; [done|]. by apply wf_advance.
Qed.

Lemma disp_run_ok d ops :
  disp_wf None d → Forall valid_op ops →
  (∃ rs d', disp_run d ops = Some (rs, d') ∧ disp_wf None d') ∨
  (∃ ops1 op ops2 rs d', ops = ops1 ++ op :: ops2 ∧ disp_run d ops1 = Some (rs, d') ∧ engine_stuck d' op).
Proof.
  revert d. induction ops as [|op ops IH]; intros d Hw Hv; [left; by exists [], d|].
  inversion Hv as [|?? Hop Hv']; subst.
  destruct (disp_step_ok d op Hw Hop) as [(r & d1 & Hs & Hw1)|Hst].
  - destruct (IH d1 Hw1 Hv') as [(rs & d' & Hr & Hw')|(ops1 & op' & ops2 & rs & d' & -> & Hr & Hst)].
    + left. exists (r :: rs), d'. simpl. by rewrite Hs, Hr.
    + right. exists (op :: ops1), op', ops2, (r :: rs), d'. simpl. by rewrite Hs, Hr.
  - right. by exists [], op, ops, [], d.
Qed.

Lemma make_wf (pol : option P) w c :
  machine_inv w → slot_owners w = ∅ → disp_wf None (Dispatcher_make (Scheduler_make pol) w c).
Proof.
  intros Hi Ho. split; simpl; try done.
  - apply sched_wf_make.
  - intros r. rewrite lookup_empty. by intros [].
  - intros r. rewrite lookup_empty. by intros [].
Qed.

(** The agreement of all parts: queues and table and states, heap and images,
    slots and table. *)
Definition consistent d : Prop :=
  (∀ r st, member (d_scheduler d) r st ↔
     ∃ pid im p, d_processes d !! pid = Some im ∧ im_pcb im = r ∧ d_heap d !! r = Some p ∧
       pcb_id p = pid ∧ state p = st) ∧
  (∀ r, is_Some (d_heap d !! r) ↔ ∃ pid im, d_processes d !! pid = Some im ∧ im_pcb im = r) ∧
  slot_owners (d_world d) = dom (d_processes d).

Lemma wf_consistent d : disp_wf None d → consistent d.
Proof.
  intros [H1 H2 H3 H4 H5 H6 H7 H8 H9]. split; [|split; [|done]].
  - intros r st. split.
    + intros Hm. destruct (w_member _ _ H1 r st Hm) as (p & Hp & Hst & Hk).
      destruct (H3 _ _ Hk) as (im & Hi & Him). by exists (pcb_id p), im, p.
    + intros (pid & im & p & Hi & <- & Hp & _ & Hst). destruct (H4 _ _ Hi) as [st' Hm].
      destruct (w_member _ _ H1 _ _ Hm) as (p' & Hp' & Hst' & _). congruence.
  - intros r. split.
    + intros [?|[pid Hk]]%H5; [done|]. destruct (H3 _ _ Hk) as (im & Hi & Him). by exists pid, im.
    + intros (pid & im & Hi & <-). destruct (H4 _ _ Hi) as [st Hm].
      destruct (w_member _ _ H1 _ _ Hm) as (p & Hp & _). by eexists.
Qed.

Lemma stuck_step d op : engine_stuck d op → disp_step d op = None.
Proof.
  intros (budget & pid & im & s & h & -> & [Hsel Hi] & Hx). simpl. unfold dispatch.
  rewrite decide_False by (intros E; by rewrite E, lookup_empty in Hi). rewrite Hsel. simpl. by rewrite Hi, Hx.
Qed.
Lemma disp_run_stuck d ops1 op ops2 rs d' :
  disp_run d ops1 = Some (rs, d') → engine_stuck d' op → disp_run d (ops1 ++ op :: ops2) = None.
Proof.
  revert d rs. induction ops1 as [|o ops1 IH]; intros d rs; simpl.
  - intros [= <- <-] Hst. by rewrite stuck_step.
  - destruct (disp_step d o) as [[r d1]|]; [|done]. simpl. destruct (disp_run d1 ops1) as [[rs1 d2]|] eqn:Hr; [|done].
    intros [= <- <-] Hst. by rewrite (IH d1 rs1).
Qed.

(** C36: every run of dispatcher calls is safe.  Starting empty, over any lawful
    virtual memory and engine, if every process is created from a new image, in
    state New, under any valid identifier, known or not, either the run is defined
    throughout (no dangling control block is touched) or it stops where the engine
    itself is undefined.  (An image that is not New leaves a dangling reference:
    [dangling_reference].)  After the run, a control block sits in exactly the queue or slot its state names,
    every process of the table is in one, no control block has leaked, and the
    slots of virtual memory belong to the processes of the table. *)
Theorem dispatcher_run_safe (pol : option P) w c ops :
  machine_inv w → slot_owners w = ∅ → Forall valid_op ops →
  let d0 := Dispatcher_make (Scheduler_make pol) w c in
  (∃ rs d, disp_run d0 ops = Some (rs, d) ∧ consistent d) ∨
  (∃ ops1 op ops2 rs d, ops = ops1 ++ op :: ops2 ∧ disp_run d0 ops1 = Some (rs, d) ∧ engine_stuck d op ∧
     disp_run d0 ops = None).
Proof.
  intros Hi Ho Hv d0. destruct (disp_run_ok d0 ops) as [(rs & d & Hr & Hw)|(ops1 & op & ops2 & rs & d & -> & Hr & Hst)].
  - by apply make_wf.
  - done.
  - left. exists rs, d. split; [done|]. by apply wf_consistent.
  - right. exists ops1, op, ops2, rs, d. split_and!; try done. by eapply disp_run_stuck.
Qed.

(** C37: one dispatch.  With a policy set, it reports [NotFound] and changes
    nothing when the first lane has nothing to run.  Otherwise some process of
    the table runs on the first lane and the clock advances by the ticks of its
    burst; it then stays on the lane (budget used up), is blocked (any
    interrupt), or is gone from table, scheduler, slots and heap (exit, error,
    halt).  No other process's image changes. *)
Theorem dispatch_outcome d budget :
  disp_wf None d → policy (d_scheduler d) ≠ None →
  (dispatch d budget = Some (error ErrorCode.NotFound, d) ∧
     (d_processes d = ∅ ∨ readyByLane (d_scheduler d) !! 0%nat = Some [] ∧ runningByLane (d_scheduler d) !! 0%nat = Some None)) ∨
  ∃ pid im s h, selects d pid im s h ∧
    ∀ res im' w, execute (d_world d) pid im budget = Some (res, im', w) →
    ∃ d', dispatch d budget = Some (ok tt, d') ∧
      d_clock d' = Nat.iter (ExecutionResult.ticksConsumed res) SimulationClock.tick (d_clock d) ∧
      (∀ q, q ≠ pid → d_processes d' !! q = d_processes d !! q) ∧
      match ExecutionResult.reason res with
      | BudgetExhausted => d_processes d' !! pid = Some im' ∧
          runningByLane (d_scheduler d') !! 0%nat = Some (Some (im_pcb im))
      | Interrupted => d_processes d' !! pid = Some im' ∧ member (d_scheduler d') (im_pcb im) Blocked
      | _ => d_processes d' !! pid = None ∧ processes (d_scheduler d') !! pid = None ∧
          pid ∉ slot_owners (d_world d') ∧ d_heap d' !! im_pcb im = None
      end.
Proof.
  intros Hw Hpol. destruct (dispatch_cases d budget Hw) as
    [(e & He & [[_ ?]|[-> Hn]])|(pid & im & s & h & Hsel & [[Hn _]|(res0 & im0 & w0 & Hx0 & Hw2 & Him & Hd)])].
  - done.
  - by left.
  - right. exists pid, im, s, h. split; [done|]. intros res im' w Hx. congruence.
  - right. exists pid, im, s, h. split; [done|]. intros res im' w Hx.
    rewrite Hx in Hx0. injection Hx0 as <- <- <-.
    pose proof Hsel as [_ Hi]. destruct (selects_wf d pid im s h Hw Hsel) as (_ & _ & _ & Hl & _).
    set (d2 := burst_of _ _ _ _ _ _ _) in *.
    assert (d_processes d2 !! pid = Some im') as Hi2 by apply lookup_insert_eq.
    assert (runningByLane (d_scheduler d2) !! 0%nat = Some (Some (im_pcb im'))) as Hl2 by (simpl; by rewrite Him).
    destruct (after_burst_ok d2 pid im' (ExecutionResult.reason res) 0 Hw2 Hi2 Hl2) as (d' & Ha & Hw' & Hc & Hcase).
    exists d'. split; [congruence|]. split; [by rewrite Hc|].
    assert (∀ q, q ≠ pid → d_processes d2 !! q = d_processes d !! q) as Hothers.
    { intros q Hq. by apply lookup_insert_ne. }
    assert (d_processes d' = delete pid (d_processes d2) → pid ∉ slot_owners (d_world d')) as Hslot.
    { intros Hd'. rewrite (dw_slots _ _ Hw'), Hd'. apply not_elem_of_dom, lookup_delete_eq. }
    rewrite <-Him. destruct (ExecutionResult.reason res).
    + subst d'. split_and!; done.
    + destruct Hcase as (E1 & E2 & E3 & _). split_and!; [|by rewrite E1, lookup_delete_eq|by rewrite E2, lookup_delete_eq|by apply Hslot|done].
      intros q Hq. rewrite E1, lookup_delete_ne by done. by apply Hothers.
    + destruct Hcase as (E1 & E2 & E3 & _). split_and!; [|by rewrite E1, lookup_delete_eq|by rewrite E2, lookup_delete_eq|by apply Hslot|done].
      intros q Hq. rewrite E1, lookup_delete_ne by done. by apply Hothers.
    + destruct Hcase as (E1 & E2 & _). rewrite E1. split_and!; done.
    + destruct Hcase as (E1 & E2 & E3 & _). split_and!; [|by rewrite E1, lookup_delete_eq|by rewrite E2, lookup_delete_eq|by apply Hslot|done].
      intros q Hq. rewrite E1, lookup_delete_ne by done. by apply Hothers.
Qed.

(** ** Blocked processes *)
Lemma blocked_step d op res d' pid im :
  disp_wf None d → valid_op op → op ≠ DTerminate pid →
  d_processes d !! pid = Some im → member (d_scheduler d) (im_pcb im) Blocked →
  disp_step d op = Some (res, d') →
  disp_wf None d' ∧ d_processes d' !! pid = Some im ∧ member (d_scheduler d') (im_pcb im) Blocked.
Proof.
  intros Hw Hv Hop Hi Hb Hs. destruct op as [id name code prio arrival|budget|q|]; cbn [disp_step] in Hs; cbv zeta in Hs.
  - destruct (new_image_ok d id name code prio arrival Hw Hv)
      as (p & x & d1 & Hn & _ & Hw1 & Hp & Hid & Hst & E1 & _ & _ & E2 & _). rewrite Hn in Hs. cbv beta iota in Hs.
    match type of Hs with createProcess _ _ ?now = _ =>
      destruct (createProcess_ok d1 x p now Hw1 Hp Hst) as (res' & d2 & Hc & Hw2 & _ & Hcase) end.
    rewrite Hc in Hs. injection Hs as <- <-. split; [done|]. rewrite <-E2 in Hi. rewrite <-E1 in Hb.
    destruct res'; destruct Hcase as (F1 & F2).
    + destruct F2 as (-> & Hm & _). split; [|by apply Hm]. rewrite lookup_insert_ne; [done|]. congruence.
    + by rewrite F1, F2.
  - destruct (dispatch_cases d budget Hw) as [(e & He & _)|(q & x & s & h & Hsel & [[_ Hn]|(r & x' & w & Hx & Hw2 & Him & Hd)])].
    + rewrite He in Hs. by injection Hs as <- <-.
    + congruence.
    + destruct (selects_wf d q x s h Hw Hsel) as (Hw1 & _ & Eb & Hl & _). pose proof Hsel as [_ Hq].
      assert (member s (im_pcb im) Blocked) as Hb'.
      { destruct Hb as [[? _]|[[? _]|[_ Hb]]]; [done|done|]. right; right. split; [done|]. by rewrite Eb. }
      assert (im_pcb im ≠ im_pcb x) as Hne.
      { intros E. pose proof (slot_member _ _ _ Hl) as Hr. rewrite <-E in Hr.
        by pose proof (member_state _ _ _ _ _ (dw_sched _ _ Hw1) Hb' Hr). }
      assert (q ≠ pid) as Hqp by (intros ->; congruence).
      set (d2 := burst_of _ _ _ _ _ _ _) in *.
      assert (d_processes d2 !! q = Some x') as Hi2 by apply lookup_insert_eq.
      assert (runningByLane (d_scheduler d2) !! 0%nat = Some (Some (im_pcb x'))) as Hl2 by (simpl; by rewrite Him).
      destruct (after_burst_ok d2 q x' (ExecutionResult.reason r) 0 Hw2 Hi2 Hl2) as (d3 & Ha & Hw3 & _ & Hcase).
      rewrite Hd, Ha in Hs. injection Hs as <- <-. split; [done|].
      assert (d_processes d2 !! pid = Some im) as Hpid by (simpl; by rewrite lookup_insert_ne).
      rewrite Him in Hcase. destruct (ExecutionResult.reason r).
      * by subst d3.
      * destruct Hcase as (E1 & _ & _ & E2). rewrite E1, lookup_delete_ne by done. split; [done|]. by apply E2.
      * destruct Hcase as (E1 & _ & _ & E2). rewrite E1, lookup_delete_ne by done. split; [done|]. by apply E2.
      * destruct Hcase as (E1 & _ & E2). rewrite E1. split; [done|]. by apply E2.
      * destruct Hcase as (E1 & _ & _ & E2). rewrite E1, lookup_delete_ne by done. split; [done|]. by apply E2.
  - assert (q ≠ pid) as Hqp by congruence.
    match type of Hs with terminateProcess _ _ ?now = _ => pose proof (terminateProcess_ok d q now Hw) as Ht end.
    destruct (d_processes d !! q) as [x|] eqn:Hq; [|rewrite Ht in Hs; by injection Hs as <- <-].
    destruct Ht as (d2 & Ht & Hw2 & E1 & _ & _ & E2). rewrite Ht in Hs. injection Hs as <- <-.
    split; [done|]. rewrite E1, lookup_delete_ne by done. split; [done|]. apply E2. split; [|done].
    intros E. by apply Hqp, (pids_distinct None d q pid x im Hw).
  - injection Hs as <- <-. split; [by apply wf_advance|done].
Qed.

(** C38: an interrupted process never runs again.  The dispatcher blocks a process
    at every interrupt (system call, device, page fault, timer), and nothing it
    can be asked to do brings a blocked process back: through any run that does
    not terminate it, it stays blocked with its registers and code untouched. *)
Theorem blocked_never_resumes d pid im ops rs d' :
  disp_wf None d → d_processes d !! pid = Some im → member (d_scheduler d) (im_pcb im) Blocked →
  Forall (λ op, valid_op op ∧ op ≠ DTerminate pid) ops → disp_run d ops = Some (rs, d') →
  d_processes d' !! pid = Some im ∧ member (d_scheduler d') (im_pcb im) Blocked.
Proof.
  revert d rs. induction ops as [|op ops IH]; intros d rs Hw Hi Hb Hv; cbn [disp_run]; [by intros [= <- <-]|].
  inversion Hv as [|?? [Hop Hne] Hv']; subst. destruct (disp_step d op) as [[r d1]|] eqn:Hs; [|done]. cbv beta iota.
  destruct (disp_run d1 ops) as [[rs1 d2]|] eqn:Hr; [|done]. cbv beta iota. intros [= <- <-].
  destruct (blocked_step d op r d1 pid im Hw Hop Hne Hi Hb Hs) as (Hw1 & Hi1 & Hb1). by eapply IH.
Qed.
End runs.

(** ** Concrete runs *)
Section demo.
#[local] Instance demo_order : HashOrder := canonical_order.
#[local] Instance demo_cast : FloatCast := λ _, 0.

Definition demo_world : machine PhysicalMemory.t ClockReplacement.t :=
  MkMachine (VirtualMemory_make (Mmu_make (PhysicalMemory.make 8) ClockReplacement.init) 4) 0 ∅.
Definition demo_start : dispatcher Policies.policy (machine PhysicalMemory.t ClockReplacement.t) :=
  Dispatcher_make (Scheduler_make (Some Fcfs)) demo_world SimulationClock.init.

(** One program exits at once, the other makes a system call. *)
Definition exiting (id : Z) : disp_op := DCreate id "exit" [MkBlock Halt 0 0 0] Priority_default 0.
Definition calling (id : Z) : disp_op :=
  DCreate id "call" [MkBlock Interrupt_ 0 Interrupt.SystemCall 0] Priority_default 0.
Definition after (ops : list disp_op) : dispatcher Policies.policy (machine PhysicalMemory.t ClockReplacement.t) :=
  match disp_run demo_start ops with Some (_, d) => d | None => demo_start end.

Lemma demo_world_inv : machine_inv demo_world.
Proof.
  split; simpl; [|by intros ??|by rewrite map_size_empty; lia].
  apply mmu_wf_make; [vm_compute; done|by left|done].
Qed.
Lemma demo_world_empty : slot_owners demo_world = ∅.
Proof. apply dom_empty_L. Qed.

Lemma after_wf ops :
  Forall valid_op ops → is_Some (disp_run demo_start ops) → disp_wf None (after ops).
Proof.
  intros Hv [[rs d] Hr]. unfold after. rewrite Hr.
  destruct (disp_run_ok demo_start ops) as [(rs' & d' & Hr' & Hw)|(ops1 & op & ops2 & rs' & d' & -> & Hr' & Hst)].
  - apply make_wf; [apply demo_world_inv|apply demo_world_empty].
  - done.
  - congruence.
  - pose proof (disp_run_stuck _ ops1 op ops2 rs' d' Hr' Hst). congruence.
Qed.

Ltac valid := repeat first [apply Forall_nil_2 | apply Forall_cons_2; [first [exact I|discriminate]|]].

Lemma dispatcher_run_safe_witness :
  let ops := [exiting 1; calling 2; DDispatch 5; DDispatch 5; DTerminate 2; DTick] in
  machine_inv demo_world ∧ slot_owners demo_world = ∅ ∧ Forall valid_op ops ∧
  ∃ rs d, disp_run demo_start ops = Some (rs, d) ∧ consistent d.
Proof.
  set (ops := [_; _; _; _; _; _]). assert (Forall valid_op ops) as Hv by valid.
  split; [exact demo_world_inv|]. split; [exact demo_world_empty|]. split; [exact Hv|].
  destruct (dispatcher_run_safe (Some Fcfs) demo_world SimulationClock.init ops demo_world_inv demo_world_empty Hv)
    as [H|(ops1 & op & ops2 & rs & d & _ & _ & _ & Hn)]; [exact H|].
  vm_compute in Hn. discriminate Hn.
Defined.

Lemma dispatch_outcome_witness :
  let d := after [exiting 1; calling 2] in
  disp_wf None d ∧ policy (d_scheduler d) ≠ None ∧
  ∃ pid im s h, selects d pid im s h ∧
    ∀ res im' w, execute (d_world d) pid im 5 = Some (res, im', w) → ∃ d', dispatch d 5 = Some (ok tt, d').
Proof.
  set (d := after _). assert (disp_wf None d) as Hw.
  { apply after_wf; [valid|]. vm_compute. eexists. reflexivity. }
  assert (policy (d_scheduler d) ≠ None) as Hp by (vm_compute; discriminate).
  split; [exact Hw|]. split; [exact Hp|].
  destruct (dispatch_outcome d 5 Hw Hp) as [[He _]|(pid & im & s & h & Hsel & H)].
  - vm_compute in He. discriminate He.
  - exists pid, im, s, h. split; [exact Hsel|]. intros res im' w Hx.
    destruct (H res im' w Hx) as (d' & Hd & _). exists d'. exact Hd.
Defined.

Lemma blocked_never_resumes_witness :
  let d := after [calling 2; DDispatch 5] in
  let ops := [exiting 3; DDispatch 5; DTick; DDispatch 5] in
  ∃ im, d_processes d !! 2 = Some im ∧ member (d_scheduler d) (im_pcb im) Blocked ∧
    match disp_run d ops with
    | Some (_, d') => d_processes d' !! 2 = Some im ∧ member (d_scheduler d') (im_pcb im) Blocked
    | None => False
    end.
Proof.
  set (d := after _). assert (disp_wf None d) as Hw.
  { apply after_wf; [valid|]. vm_compute. eexists. reflexivity. }
  cbv zeta. set (ops := [_; _; _; _]). destruct (d_processes d !! 2) as [im|] eqn:Hi.
  2: { vm_compute in Hi. discriminate Hi. }
  assert (member (d_scheduler d) (im_pcb im) Blocked) as Hb.
  { right; right. split; [reflexivity|]. vm_compute in Hi. injection Hi as <-. vm_compute. apply list_elem_of_here. }
  exists im. split; [reflexivity|]. split; [exact Hb|].
  destruct (disp_run d ops) as [[rs d']|] eqn:Hr.
  2: { vm_compute in Hr. discriminate Hr. }
  apply (blocked_never_resumes d 2 im ops rs d' Hw Hi Hb); [|exact Hr].
  repeat first [apply Forall_nil_2 | apply Forall_cons_2; [split; [first [exact I|discriminate]|discriminate]|]].
Defined.

(** A halt request outlives its process: process 5 is terminated and another
    created under the same pid, whose first dispatch ends it before it ran a
    single cycle. *)
Example stale_halt :
  let d := after [calling 5; DTerminate 5; calling 5; DDispatch 5] in
  hasProcess d 5 = false ∧ SimulationClock.now (d_clock d) = 0.
Proof. vm_compute. done. Qed.

(** An image whose control block is not new is refused by the scheduler only
    after it was registered there: the block is freed, the reference stays, and
    the next process to be created touches it. *)
Example dangling_reference :
  match new_image demo_start 1 "p" [] Priority_default 0 with
  | Some (im, d1) =>
      match set_state (d_heap d1) (im_pcb im) Ready 0 with
      | Some (_, h1) =>
          match set_state h1 (im_pcb im) Running 0 with
          | Some (_, h2) =>
              match createProcess (set_heap d1 h2) (Some im) 0 with
              | Some (res, d2) =>
                  res = error ErrorCode.InvalidState ∧ processes (d_scheduler d2) !! 1 = Some (im_pcb im) ∧
                  d_heap d2 !! im_pcb im = None
              | None => False
              end
          | None => False
          end
      | None => False
      end
  | None => False
  end.
Proof. vm_compute. done. Qed.
End demo.
