(* ===== verification/DispatcherFrame.v ===== *)
(** * DispatcherFrame: what one dispatcher call leaves alone

    The control blocks, the policy and the number of lanes across the calls of
    [scheduling/scheduler.cpp] and [dispatch/dispatcher.cpp]: each call writes
    the control block of one process, and none of them reconfigures the
    scheduler. *)
From S2P Require Import Prelude Core Arch Process Policies Scheduler SchedInvariant SchedProps.
From S2P Require Import SchedSteps SchedRun SchedTheorems Interp Dispatcher DispatcherProps DispatcherTheorems.
Local Open Scope Z_scope.

(** Since when a process has been in its state. *)
Notation since p := (Process.lastStateChange (timing p)).

Section frame.
Context {P : Type} `{HP : !ISchedulingPolicy P} `{HL : !LawfulSchedulingPolicy P} `{HF : !FloatCast}.
Implicit Types (s : sched P) (h : heap) (r pid now : Z) (st : ProcessState) (lane : nat).

(** ** The scheduler's configuration *)
Definition same_config s s' : Prop :=
  policy s' = policy s ∧ length (readyByLane s') = length (readyByLane s).

Lemma config_trans s1 s2 s3 : same_config s1 s2 → same_config s2 s3 → same_config s1 s3.
Proof. intros [??] [??]. split; congruence. Qed.

Lemma config_burst s pid now : same_config s (recordRunningBurst s pid now).
Proof. destruct (burst_queues s pid now) as (E1 & _ & _ & _ & E2 & _). split; [done|by rewrite E1]. Qed.

Lemma remove_all_length h (qs : list (list Z)) pid qs' : remove_all h qs pid = Some qs' → length qs' = length qs.
Proof.
  revert qs'. induction qs as [|q qs IH]; intros qs'; simpl; [by intros [= <-]|].
  destruct (removeFrom h q pid) as [q'|]; [|done]. simpl. destruct (remove_all h qs pid) as [rest|]; [|done].
  simpl. intros [= <-]. simpl. by rewrite (IH rest).
Qed.

Lemma config_candidate s h lane id r now res s' h' :
  dispatch_candidate s h lane id r now = Some (res, s', h') → same_config s s'.
Proof.
  unfold dispatch_candidate. intros H. binds H; injection H as <- <- <-; split; simpl; by rewrite ?length_insert.
Qed.

Lemma config_select s h lane now res s' h' :
  selectNextForLane s h lane now = Some (res, s', h') → same_config s s'.
Proof.
  unfold selectNextForLane. intros H.
  binds H; try (by injection H as <- <- <-); try (injection H as <- <- <-; apply config_burst);
    apply config_candidate in H; try done.
  all: eapply config_trans; [apply config_burst|]; eapply config_trans; [|exact H]; split; simpl; by rewrite ?length_insert.
Qed.

Lemma config_block s h pid now res s' h' :
  blockProcess s h pid now = Some (res, s', h') → same_config s s'.
Proof.
  unfold blockProcess, block_slot. intros H.
  binds H; injection H as <- <- <-; try apply config_burst; try done.
  split; simpl; by rewrite ?length_insert.
Qed.

Lemma config_terminate s h pid now res s' h' :
  terminate s h pid now = Some (res, s', h') → same_config s s'.
Proof.
  unfold terminate. intros H. destruct (isKnown s pid); cbn [negb] in H; [|by injection H as <- <- <-].
  destruct (findRunningLane h s pid) as [[lane|]|]; [..|done]; cbn [mbind option_bind] in H.
  - destruct (runningByLane s !! lane) as [[r|]|]; cbn [mbind option_bind] in H; try done.
    destruct (config_burst s pid now). binds H; by injection H as <- <- <-.
  - destruct (processes s !! pid) as [r|]; cbn [mbind option_bind] in H; [|done].
    destruct (remove_all h (readyByLane s) pid) as [ready|] eqn:Hr; cbn [mbind option_bind] in H; [|done].
    destruct (removeFrom h (blocked s) pid); cbn [mbind option_bind] in H; [|done].
    apply remove_all_length in Hr. binds H; by injection H as <- <- <-.
Qed.

Lemma config_dequeue s h pid res s' h' : dequeue s h pid = Some (res, s', h') → same_config s s' ∧ h' = h.
Proof.
  unfold dequeue. intros H. destruct (isKnown s pid); cbn [negb] in H; [|by injection H as <- <- <-].
  destruct (clear_running _ _ _); cbn [mbind option_bind] in H; [|done].
  destruct (remove_all h (readyByLane s) pid) as [ready|] eqn:Hr; cbn [mbind option_bind] in H; [|done].
  apply remove_all_length in Hr. binds H. by injection H as <- <- <-.
Qed.

(** A legal move dates the process. *)
Lemma setState_dated p st now p' :
  setState p st now = (true, p') → state p' = st ∧ since p' = now.
Proof.
  intros Hs. split; [by eapply setState_ok|]. destruct (isValidTransition (state p) st) eqn:Hv.
  - pose proof (setState_lastStateChange p st now Hv) as Hl. by rewrite Hs in Hl.
  - unfold setState in Hs. by rewrite Hv in Hs.
Qed.
Lemma estimate_dated p v : state (set_estimatedBurst p v) = state p ∧ since (set_estimatedBurst p v) = since p.
Proof. by destruct p as [???? [] ?]. Qed.

(** Entering the queue dates the process. *)
Lemma config_enqueue s h r lane now res s' h' :
  enqueueToLane s h r lane now = Some (res, s', h') →
  same_config s s' ∧ (h' = h ∨ ∃ p, h' = <[r := p]> h ∧ state p = Ready ∧ since p = now).
Proof.
  unfold enqueueToLane. intros H. destruct (h !! r) as [p|] eqn:Hp; cbn [mbind option_bind] in H; [|done].
  unfold set_state in H. rewrite Hp in H. cbn [mbind option_bind] in H.
  destruct (setState p Ready now) as [[] p1] eqn:Hset; cbn [negb] in H.
  - apply setState_dated in Hset. rewrite lookup_insert_eq in H. cbn [mbind option_bind] in H.
    binds H; injection H as <- <- <-; (split; [split; simpl; by rewrite ?length_insert|]); try (by left);
      right; eexists; (split; [apply insert_insert_eq|]); [|done| |done].
    all: by rewrite (proj1 (estimate_dated _ _)), (proj2 (estimate_dated _ _)).
  - pose proof (setState_rejected p Ready now) as Hrej. rewrite Hset in Hrej. simpl in Hrej. rewrite Hrej in H by done.
    binds H; injection H as <- <- <-; (split; [done|]); left; try done; by apply insert_id.
Qed.
End frame.

Section dispatcher_frame.
Context {P : Type} `{HP : !ISchedulingPolicy P} `{HL : !LawfulSchedulingPolicy P} `{HF : !FloatCast}.
Context {W : Type} `{HV : !IVirtualMemory W} `{HE : !IExecutionEngine W} `{HM : !LawfulMachine W}.
Implicit Types (d : dispatcher P W) (r pid now : Z) (st : ProcessState) (im : ProcessImage).

(** A control block is where its state says. *)
Lemma member_heap d r st :
  disp_wf None d → member (d_scheduler d) r st ↔ ∃ p, d_heap d !! r = Some p ∧ state p = st.
Proof.
  intros Hw. destruct (wf_consistent d Hw) as (H1 & H2 & _). rewrite H1. split.
  - intros (pid & im & p & _ & _ & Hp & _ & Hst). by exists p.
  - intros (p & Hp & Hst). destruct (proj1 (H2 r) (mk_is_Some _ _ Hp)) as (pid & im & Hi & Him).
    exists pid, im, p. split_and!; try done.
    destruct (w_table _ _ (dw_sched _ _ Hw) pid r) as [Hid _]; [rewrite <-Him; by apply (dw_image _ _ Hw)|].
    unfold pid_at in Hid. rewrite Hp in Hid. by injection Hid.
Qed.

(** The calls that write one control block, and how they leave it: gone, or
    dated [now] in one of the states [Q]. *)
Definition framed r now (Q : ProcessState → Prop) d d' : Prop :=
  same_config (d_scheduler d) (d_scheduler d') ∧ d_clock d' = d_clock d ∧
  (∀ x, x ≠ r → d_heap d' !! x = d_heap d !! x) ∧
  (∀ p, d_heap d' !! r = Some p → Q (state p) ∧ since p = now).

Lemma removed_framed d pid im s h res d' now (Q : ProcessState → Prop) :
  same_config (d_scheduler d) s → (∀ x, x ≠ im_pcb im → h !! x = d_heap d !! x) →
  remove_process (set_sched d s h) pid im = Some (res, d') → framed (im_pcb im) now Q d d'.
Proof.
  intros Hc Hh. unfold remove_process. destruct (freeSlot _ _) as [[rf w]|]; [|done]. cbn [mbind option_bind].
  intros [= <- <-]. split_and!; [done|done|..].
  - intros x Hx. simpl. rewrite lookup_delete_ne by congruence. by apply Hh.
  - intros p. simpl. by rewrite lookup_delete_eq.
Qed.

Lemma moved_ne h r st now x : x ≠ r → moved_to h r st now !! x = h !! x.
Proof. intros Hx. unfold moved_to. destruct (h !! r); [by rewrite lookup_insert_ne|done]. Qed.
Lemma moved_eq h r st now p :
  h !! r = Some p → isValidTransition (state p) st = true →
  ∃ p', moved_to h r st now !! r = Some p' ∧ state p' = st ∧ since p' = now ∧ pcb_id p' = pcb_id p.
Proof.
  intros Hp Hv. unfold moved_to. rewrite Hp, lookup_insert_eq. eexists. split; [done|].
  destruct (setState_moves p st now Hv) as (_ & H1 & H2). split_and!; try done.
  by apply setState_lastStateChange.
Qed.

(** A burst that ends before its budget takes the process off the lane. *)
Lemma after_burst_framed d pid im reason res d' :
  disp_wf None d → d_processes d !! pid = Some im →
  runningByLane (d_scheduler d) !! 0%nat = Some (Some (im_pcb im)) →
  after_burst d pid im reason = Some (res, d') → reason ≠ BudgetExhausted →
  framed (im_pcb im) (SimulationClock.now (d_clock d)) (λ st, st = Blocked) d d'.
Proof.
  intros Hw Hi Hl Ha Hne. pose proof (dw_sched _ _ Hw) as H1. pose proof (dw_image _ _ Hw pid im Hi) as Hk.
  pose proof (slot_member _ _ _ Hl) as Hm. destruct (w_member _ _ H1 _ _ Hm) as (p & Hp & Hst & _).
  unfold after_burst in Ha. set (now := SimulationClock.now _) in *.
  assert (∀ res d', (let! (r, s, h) := terminate (d_scheduler d) (d_heap d) pid now in
    let d1 := set_sched d s h in
    match r with ok _ => remove_process d1 pid im | error e => Some (error e, d1) end) = Some (res, d') →
    framed (im_pcb im) now (λ st, st = Blocked) d d') as Hterm.
  { intros res0 d0. pose proof (terminate_ok (d_scheduler d) (d_heap d) pid now H1) as Ht. rewrite Hk in Ht.
    destruct Ht as (p0 & s1 & Hp0 & _ & _ & _ & Ht). assert (p0 = p) as -> by congruence. rewrite Hst in Ht.
    destruct Ht as [He _]. rewrite He. cbn [mbind option_bind]. apply removed_framed.
    - by eapply config_terminate.
    - intros x Hx. by apply moved_ne. }
  destruct reason; try done; try (by eapply Hterm). clear Hterm.
  destruct (blockProcess_ok (d_scheduler d) (d_heap d) pid now H1) as [(l & r & s' & Hl' & Hr & Hb & _)|(e & _ & _ & Hno)].
  2: { exfalso. apply (Hno (im_pcb im) Hk). destruct (slots_lane _ _ _ Hl) as (rest & -> & _). by left. }
  assert (r = im_pcb im) as -> by congruence. rewrite Hb in Ha. cbn [mbind option_bind] in Ha. injection Ha as <- <-.
  split_and!; [by eapply config_block|done|intros x Hx; by apply moved_ne|].
  intros p' Hp'. destruct (moved_eq (d_heap d) (im_pcb im) Blocked now p Hp) as (p2 & Hp2 & ? & ? & _); [by rewrite Hst|].
  simpl in Hp'. rewrite Hp2 in Hp'. by injection Hp' as <-.
Qed.

Lemma terminateProcess_framed d pid now res d' :
  disp_wf None d → terminateProcess d pid now = Some (res, d') →
  match d_processes d !! pid with
  | None => d' = d
  | Some im => framed (im_pcb im) now (λ _, False) d d'
  end.
Proof.
  intros Hw. unfold terminateProcess. destruct (d_processes d !! pid) as [im|] eqn:Hi; [|by intros [= <- <-]].
  set (d1 := set_world d (halt (d_world d) pid)). pose proof (dw_image _ _ Hw pid im Hi) as Hk.
  destruct (dequeue_ok (d_scheduler d1) (d_heap d1) pid (dw_sched _ _ Hw)) as [(_ & s1 & _ & Hd)|[Hn _]];
    [|simpl in Hn; congruence].
  rewrite Hd. cbn [mbind option_bind]. unfold set_state. destruct (d_heap d1 !! im_pcb im) as [p|]; [|done].
  cbn [mbind option_bind]. destruct (setState p Terminated now) as [b p'].
  intros H. apply (removed_framed d1 pid im (forget s1 pid) (<[im_pcb im := p']> (d_heap d)) res d' now (λ _, False)) in H.
  - done.
  - by apply (config_dequeue _ _ _ _ _ _ Hd).
  - intros x Hx. by rewrite lookup_insert_ne.
Qed.

(** A creation: refused, or the new block is ready since now. *)
Lemma refuse_framed d d1 im e res d' now :
  d_clock d1 = d_clock d → same_config (d_scheduler d) (d_scheduler d1) →
  (∀ x, x ≠ im_pcb im → d_heap d1 !! x = d_heap d !! x) →
  refuse d1 im e = Some (res, d') → framed (im_pcb im) now (λ st, st = Ready) d d'.
Proof.
  intros Hc Hs Hh [= <- <-]. split_and!; [done|done|..].
  - intros x Hx. simpl. rewrite lookup_delete_ne by congruence. by apply Hh.
  - intros p. simpl. by rewrite lookup_delete_eq.
Qed.

Lemma createProcess_framed d im p now res d' :
  disp_wf (Some (im_pcb im)) d → d_heap d !! im_pcb im = Some p → state p = New →
  createProcess d (Some im) now = Some (res, d') → framed (im_pcb im) now (λ st, st = Ready) d d'.
Proof.
  intros Hw Hp Hnew Hcr. destruct (createProcess_ok d im p now Hw Hp Hnew) as (res0 & d0 & Hcr0 & Hw' & _ & Hres).
  rewrite Hcr in Hcr0. injection Hcr0 as <- <-.
  revert Hcr. unfold createProcess. rewrite Hp. cbn [mbind option_bind].
  destruct (pcb_id p =? INVALID_PID); [by apply refuse_framed|].
  case_decide; [by apply refuse_framed|].
  destruct (allocateSlot _ _ _) as [[[base|e] w1]|]; cbn [mbind option_bind]; [|by apply refuse_framed|done].
  destruct (loadSegment _ _ _) as [[[[]|e] w2]|]; cbn [mbind option_bind]; [| |done].
  2: { unfold refuse_freeing. destruct (freeSlot _ _) as [[rf w]|]; cbn [mbind option_bind]; [|done].
       by apply refuse_framed. }
  destruct (enqueue _ _ _ _) as [[[enq s] h]|] eqn:He; cbn [mbind option_bind]; [|done].
  apply config_enqueue in He as [Hc Hh].
  assert (∀ x, x ≠ im_pcb im → h !! x = d_heap d !! x) as Hothers.
  { intros x Hx. destruct Hh as [->|(p2 & -> & _)]; by rewrite !lookup_insert_ne. }
  destruct enq as [[]|e].
  2: { unfold refuse_freeing. destruct (freeSlot _ _) as [[rf w]|]; cbn [mbind option_bind]; [|done].
       by apply refuse_framed. }
  intros [= <- <-]. destruct Hres as (_ & _ & _ & Hm). apply (member_heap _ _ _ Hw') in Hm as (p2 & Hp2 & Hst).
  split_and!; [done|done|done|]. intros p3 Hp3. assert (p3 = p2) as -> by congruence. split; [done|].
  simpl in Hp2. destruct Hh as [->|(p4 & -> & _ & <-)]; rewrite lookup_insert_eq in Hp2; injection Hp2 as <-; [|done].
  simpl in Hst. congruence.
Qed.
End dispatcher_frame.
