(* ===== verification/Isolation.v ===== *)
(** * Isolation: a process among others

    What the calls of the dispatcher, and the processes they run, can do to a
    process that works in its registers: between two of its cycles they can
    change the comparison flags, and nothing else.  Before it, what the machine
    keeps through the calls: none changes the number of frames, and only a halt
    request adds a process to the engine's halted ones. *)
From S2P Require Import Prelude Core Arch Process Paging Mmu MmuInvariant MmuProps VirtualMem.
From S2P Require Import Policies Scheduler SchedInvariant Cpu Interp InterpTheorems Preemption.
From S2P Require Import Dispatcher DispatcherProps Machine DispatcherTheorems.
Local Open Scope Z_scope.

(** ** Worlds across dispatcher calls *)
Section worlds.
Context {P W : Type} `{!ISchedulingPolicy P} `{HFC : !FloatCast} `{!IVirtualMemory W} `{!IExecutionEngine W}.
Context (R : W → W → Prop) `{!PreOrder R}.
Context (R_allocate : ∀ w pid n r w', allocateSlot w pid n = Some (r, w') → R w w')
  (R_load : ∀ w pid code r w', loadSegment w pid code = Some (r, w') → R w w')
  (R_free : ∀ w pid r w', freeSlot w pid = Some (r, w') → R w w').
Implicit Types (d : dispatcher P W) (pid now : Z) (im : ProcessImage).

Lemma remove_process_world d pid im res d' :
  remove_process d pid im = Some (res, d') → R (d_world d) (d_world d').
Proof. unfold remove_process. intros H. binds H. injection H as <- <-. by eapply R_free. Qed.

Lemma refuse_freeing_world d pid im e res d' :
  refuse_freeing d pid im e = Some (res, d') → R (d_world d) (d_world d').
Proof. unfold refuse_freeing. intros H. binds H. injection H as <- <-. by eapply R_free. Qed.

Lemma createProcess_world d im now res d' :
  createProcess d (Some im) now = Some (res, d') → R (d_world d) (d_world d').
Proof.
  unfold createProcess. destruct (d_heap d !! im_pcb im) as [p|]; [|done]. cbn [mbind option_bind].
  destruct (_ =? _); [by intros [= <- <-]|]. case_decide; [by intros [= <- <-]|].
  destruct (allocateSlot _ _ _) as [[[base|e] w1]|] eqn:Ha; cbn [mbind option_bind]; [| |done].
  2: { intros [= <- <-]. by eapply R_allocate. }
  apply R_allocate in Ha. destruct (loadSegment _ _ _) as [[[[]|e] w2]|] eqn:Hl; cbn [mbind option_bind]; [| |done].
  2: { apply R_load in Hl. intros Hrf%refuse_freeing_world. simpl in Hrf. etransitivity; [exact Ha|by etransitivity]. }
  apply R_load in Hl. destruct (enqueue _ _ _ _) as [[[enq s] h]|]; cbn [mbind option_bind]; [|done].
  destruct enq as [[]|e].
  - intros [= <- <-]. simpl. by etransitivity.
  - intros Hrf%refuse_freeing_world. simpl in Hrf. etransitivity; [exact Ha|by etransitivity].
Qed.

Lemma after_burst_world d pid im reason res d' :
  after_burst d pid im reason = Some (res, d') → R (d_world d) (d_world d').
Proof.
  unfold after_burst. intros H. destruct reason.
  1: by injection H as <- <-.
  3: by binds H; injection H as <- <-.
  all: destruct (terminate _ _ _ _) as [[[r s] h]|]; cbn [mbind option_bind] in H; [|done].
  all: destruct r; [by apply remove_process_world in H|by injection H as <- <-].
Qed.

Lemma terminateProcess_world d pid now res d' :
  terminateProcess d pid now = Some (res, d') → d' = d ∨ R (halt (d_world d) pid) (d_world d').
Proof.
  unfold terminateProcess. destruct (d_processes d !! pid) as [im|]; [|intros [= <- <-]; by left].
  intros H. right. destruct (dequeue _ _ _) as [[[r s] h]|]; cbn [mbind option_bind] in H; [|done].
  destruct r as [[]|e]; [|case_decide; [|by injection H as <- <-]].
  all: destruct (set_state _ _ _ _) as [[b h']|]; cbn [mbind option_bind] in H; [|done].
  all: by apply remove_process_world in H.
Qed.
End worlds.

(** ** The number of frames *)
Section frames.
Context {M Q : Type} `{HMem : !IMemory M} `{HPol : !IPageReplacementPolicy Q} `{HO : HashOrder}.
Implicit Types (s : mmu M Q) (f pid : Z).

Lemma total_load data : ∀ (u : mmu M Q) pid i r u',
  load_loop u pid i data = Some (r, u') → totalFrameCount u' = totalFrameCount u.
Proof.
  induction data as [|b data IH]; intros u pid i r u'; simpl; [by intros [= <- <-]|].
  destruct (mmu_call u (MWrite pid i b)) as [[r1 u1]|] eqn:Hc; [|done]. cbn [mbind option_bind].
  pose proof (total_step _ _ _ _ Hc) as Ht. destruct r1; [intros H%IH; congruence|by intros [= <- <-]].
Qed.
End frames.

Section machine_frame.
Context {M Q : Type} `{HMem : !IMemory M} `{HLM : !LawfulMemory M}.
Context `{HPol : !IPageReplacementPolicy Q} `{HLP : !LawfulPolicy Q} `{HO : HashOrder}.
Implicit Types (w : machine M Q) (pid q : Z).

Definition frames_of w : nat := totalFrameCount (vm_mmu (mc_vm w)).

(** The frames stay as many, and [pid] is not halted by the way. *)
Definition keeps pid w w' : Prop :=
  frames_of w' = frames_of w ∧ (pid ∉ mc_halted w → pid ∉ mc_halted w').
#[export] Instance keeps_preorder pid : PreOrder (keeps pid).
Proof. split; [by split|]. intros w1 w2 w3 [H1 H2] [H3 H4]. split; [congruence|auto]. Qed.

Lemma keeps_allocate pid w q n r w' : allocateSlot w q n = Some (r, w') → keeps pid w w'.
Proof.
  simpl. unfold allocate, VirtualMem.allocateSlot. intros H. destruct (n =? 0)%nat; [by injection H as <- <-|].
  destruct (_ <=? _)%nat; [by injection H as <- <-|]. destruct (slots _ !! q); [by injection H as <- <-|].
  destruct (mmu_call _ _) as [[r1 u]|] eqn:Hc; [|done]. pose proof (total_step _ _ _ _ Hc) as Ht.
  cbn [mbind option_bind] in H. destruct r1; cbn [mbind option_bind] in H; binds H; by injection H as <- <-.
Qed.
Lemma keeps_load pid w q code r w' : loadSegment w q code = Some (r, w') → keeps pid w w'.
Proof.
  simpl. unfold VirtualMem.loadSegment. intros H. destruct (slots _ !! q) as [n|]; [|by injection H as <- <-].
  destruct (n <? length code)%nat; [by injection H as <- <-|].
  destruct (load_loop _ _ _ _) as [[r1 u]|] eqn:Hl; [|done]. apply total_load in Hl.
  cbn [mbind option_bind] in H. by injection H as <- <-.
Qed.
Lemma keeps_free pid w q r w' : freeSlot w q = Some (r, w') → keeps pid w w'.
Proof.
  simpl. unfold VirtualMem.freeSlot. intros H. destruct (slots _ !! q) as [n|]; [|by injection H as <- <-].
  destruct (mmu_call _ _) as [[r1 u]|] eqn:Hc; [|done]. pose proof (total_step _ _ _ _ Hc) as Ht.
  cbn [mbind option_bind] in H. destruct r1; cbn [mbind option_bind] in H; binds H; by injection H as <- <-.
Qed.

Lemma run_loop_halted n q t h (c : cpu_state M) res h' c' :
  run_loop n q t h c = Some (res, h', c') → h' ⊆ h.
Proof.
  revert t c. induction n as [|n IH]; intros t c; simpl; [by intros [= <- <- <-]|].
  case_decide; [intros [= <- <- <-]; set_solver|]. destruct (step c) as [[i c1]|]; [|done]. cbn [mbind option_bind].
  destruct (i =? _); [by apply IH|by intros [= <- <- <-]].
Qed.
Lemma keeps_execute pid w q im n res im' w' : execute w q im n = Some (res, im', w') → keeps pid w w'.
Proof.
  cbn [execute machine_engine]. destruct (execute (engine_view w) q im n) as [[[r i] e]|] eqn:He; [|done].
  cbn [mbind option_bind]. intros [= <- <- <-]. split; [done|]. intros Hp.
  assert (haltedPids e ⊆ mc_halted w) as Hsub; [|by intros ?%Hsub].
  revert He. simpl. unfold run. case_decide; [intros [= <- <- <-]; simpl; set_solver|].
  destruct (loadCode _ _) as [[] m]; simpl; [|by intros [= <- <- <-]].
  destruct (run_loop _ _ _ _ _) as [[[r0 h] c]|] eqn:Hr; [|done]. simpl. intros [= <- <- <-].
  by apply run_loop_halted in Hr.
Qed.
Lemma keeps_halt pid w q : q ≠ pid → keeps pid w (halt w q).
Proof. intros Hne. split; [done|]. simpl. set_solver. Qed.

Context {P : Type} `{HP : !ISchedulingPolicy P} `{HL : !LawfulSchedulingPolicy P} `{HF : !FloatCast}.
Implicit Types (d : dispatcher P (machine M Q)).

(** One call of the dispatcher, unless it terminates [pid]. *)
Lemma keeps_step pid d op res d' :
  op ≠ DTerminate pid → disp_step d op = Some (res, d') → keeps pid (d_world d) (d_world d').
Proof.
  intros Hne Hs. destruct op as [id name code prio arrival|budget|q|]; cbn [disp_step] in Hs; cbv zeta in Hs.
  - unfold new_image, ProcessImage_make in Hs. destruct (PCB_make _ _ _ _) as [p|]; [|done].
    cbn [mbind option_bind] in Hs.
    eapply createProcess_world in Hs; [exact Hs|apply keeps_preorder|..]; eauto using keeps_allocate, keeps_load, keeps_free.
  - unfold dispatch in Hs. case_decide; [by injection Hs as <- <-|].
    destruct (sched_selectNext _ _ _) as [[[sel s] h]|]; cbn [mbind option_bind] in Hs; [|done].
    destruct sel as [q|e]; [|by injection Hs as <- <-].
    destruct (d_processes _ !! q) as [im|]; [|by injection Hs as <- <-].
    destruct (execute _ q im budget) as [[[r im'] w]|] eqn:Hx; [|done]. cbn [mbind option_bind] in Hs.
    apply (keeps_execute pid) in Hx. etransitivity; [exact Hx|].
    eapply after_burst_world in Hs; [exact Hs|apply keeps_preorder|]. eauto using keeps_free.
  - eapply (terminateProcess_world (keeps pid)) in Hs; [|eauto using keeps_free].
    destruct Hs as [->|Hs]; [done|]. etransitivity; [|exact Hs]. apply keeps_halt. congruence.
  - by injection Hs as <- <-.
Qed.

(** In a well-formed dispatcher the engine's memory has that many cells. *)
Lemma frames_cells d :
  disp_wf None d → mem_cells (Mmu.memory (vm_mmu (mc_vm (d_world d)))) = frames_of (d_world d) ∧
    Z.of_nat (frames_of (d_world d)) ≤ INVALID_FRAME.
Proof.
  intros Hw. pose proof (vm_inv _ (dw_world _ _ Hw)) as [Hi _]. by destruct (i_total _ _ _ Hi) as [<- ?].
Qed.
End machine_frame.

(** ** A process by itself *)
Section alone.
Context {M : Type} `{HM : !IMemory M, HL : !LawfulMemory M}.
Implicit Types (c : cpu_state M) (r : list Z) (prog : list Block).

(** The states a machine started in [c0] passes through while it raises
    nothing, anybody setting its flags in between. *)
Inductive alone c0 : cpu_state M → Prop :=
| alone_start : alone c0 c0
| alone_cycle c c' : alone c0 c → step c = Some (Interrupt.Ok, c') → alone c0 c'
| alone_flags c fl : alone c0 c → alone c0 (MkCpu fl (memory c) (regs c)).

(** Registers the process can reach, and those it raises [i] with. *)
Definition own c0 r : Prop := ∃ c, alone c0 c ∧ regs c = r.
Definition raised c0 (i : Z) r : Prop :=
  ∃ c c', alone c0 c ∧ step c = Some (i, c') ∧ i ≠ Interrupt.Ok ∧ regs c' = r.
(** It never runs off its code. *)
Definition contained prog c0 : Prop := ∀ c, alone c0 c → is_Some (prog !! fetched c).

Section program.
Context (prog : list Block) (Hprog : Forall in_registers prog) (c0 : cpu_state M).
Context (Hc0 : carries prog (memory c0)) (Hin : contained prog c0).

Lemma fetched_in_registers c : alone c0 c → ∃ b, prog !! fetched c = Some b ∧ in_registers b.
Proof.
  intros Ha. destruct (Hin c Ha) as [b Hb]. exists b. split; [done|].
  rewrite Forall_forall in Hprog. apply Hprog. by eapply list_elem_of_lookup_2.
Qed.

Lemma alone_memory c : alone c0 c → memory c = memory c0.
Proof.
  induction 1 as [|c c' Ha IH Hs|c fl Ha IH]; [done| |done].
  destruct (fetched_in_registers c Ha) as (b & Hb & Hr).
  rewrite <-IH in Hc0. destruct (step_in_registers prog (memory c) c b Hc0 Hc0 Hb Hr) as [_ Hmem].
  by rewrite (Hmem _ _ Hs).
Qed.

(** A cycle on a memory that carries the program is one on [c0]'s. *)
Lemma step_alone c i c1 :
  carries prog (memory c) → alone c0 (on (memory c0) c) → step c = Some (i, c1) →
  step (on (memory c0) c) = Some (i, on (memory c0) c1) ∧ memory c1 = memory c.
Proof.
  intros Hc Ha Hs. destruct (fetched_in_registers _ Ha) as (b & Hb & Hr).
  destruct (step_in_registers prog (memory c0) c b Hc Hc0 Hb Hr) as [-> Hmem]. rewrite Hs. by split; [|eapply Hmem].
Qed.

Lemma steps_alone k c c1 :
  steps k c c1 → carries prog (memory c) → alone c0 (on (memory c0) c) →
  alone c0 (on (memory c0) c1) ∧ memory c1 = memory c.
Proof.
  induction 1 as [|k c c1 c2 Hs _ IH]; [done|]. intros Hc Ha.
  destruct (step_alone c _ c1 Hc Ha Hs) as [Hs' Hm]. rewrite <-Hm. apply IH; [by rewrite Hm|by eapply alone_cycle].
Qed.

(** One burst of the engine, whatever its memory and flags. *)
Lemma burst_alone (e : interpreter M) pid im n res im' e' :
  Z.of_nat (codeSize im) ≤ 2 ^ 32 → (codeSize im ≤ mem_cells (in_memory e))%nat → pid ∉ haltedPids e →
  im_code im = prog → own c0 (im_registers im) → execute e pid im n = Some (res, im', e') →
  im_code im' = prog ∧
  (ExecutionResult.reason res = BudgetExhausted ∧ own c0 (im_registers im') ∨
   ∃ i, ExecutionResult.reason res = reason_of i ∧ raised c0 i (im_registers im')).
Proof.
  intros H32 Hfit Hh Hp (c & Ha & Hr) Hx. simpl in Hx. rewrite run_loaded in Hx by done.
  destruct (loaded_carries e im H32 Hfit) as [_ Hc]. rewrite Hp in Hc.
  assert (alone c0 (on (memory c0) (loaded e im))) as Ha'.
  { rewrite <-(alone_memory c Ha). unfold on, loaded. simpl. rewrite <-Hr. by apply alone_flags. }
  destruct (run_loop_spec n pid 0 (haltedPids e) (loaded e im) Hh)
    as [(c1 & Hs & E)|[(k & c1 & i & c2 & _ & Hs & H1 & Hi & E)|(k & c1 & _ & _ & _ & E)]]; rewrite E in Hx; [..|done];
    injection Hx as <- <- <-; (split; [done|]); destruct (steps_alone _ _ _ Hs Hc Ha') as [Ha1 Hm1].
  - left. split; [done|]. by exists (on (memory c0) c1).
  - right. exists i. rewrite stop_result_reason. split; [done|].
    destruct (step_alone c1 i c2 ltac:(by rewrite Hm1) Ha1 H1) as [H2 _].
    by exists (on (memory c0) c1), (on (memory c0) c2).
Qed.
End program.

(** *** Programs that do not look at the flags *)
Definition reads_flags (b : Block) : bool :=
  match code b with
  | JumpEqual | JumpNotEqual | JumpGreater | JumpLess | JumpGreaterEqual | JumpLessEqual => true
  | _ => false
  end.

Lemma execute_blind fl fl' m r b i c1 :
  in_registers b → reads_flags b = false → Cpu.execute fl m r b = Some (i, c1) →
  ∃ c2, Cpu.execute fl' m r b = Some (i, c2) ∧ regs c2 = regs c1 ∧ memory c2 = memory c1.
Proof.
  unfold in_registers, reads_flags, Cpu.execute. intros Hb Hf H.
  destruct (code b); try done; unfold finish in *; binds H; injection H as <- <-;
    repeat match goal with E : _ = Some _ |- _ => rewrite E end; by eexists.
Qed.

(** Such a process goes its own way: what it does among others is a number of
    cycles of what it does by itself. *)
Lemma alone_blind prog c0 c :
  Forall in_registers prog → Forall (λ b, reads_flags b = false) prog → carries prog (memory c0) → contained prog c0 →
  alone c0 c → ∃ n c', steps n c0 c' ∧ regs c' = regs c ∧ memory c' = memory c.
Proof.
  intros Hp Hf Hc Hin Ha. induction Ha as [|c c1 Ha (n & c' & Hn & Hr & Hm) Hs|c fl Ha IH]; [|..|done].
  { exists 0%nat, c0. split; [constructor|done]. }
  assert (∀ n (c c1 c2 : cpu_state M), steps n c c1 → step c1 = Some (Interrupt.Ok, c2) → steps (S n) c c2) as Hsnoc.
  { induction 1; [by repeat econstructor|]. intros H2. econstructor; [done|]. auto. }
  destruct (Hin c Ha) as [b Hb]. pose proof (alone_memory prog Hp c0 Hc Hin c Ha) as Hmc.
  assert (b ∈ prog) as Hbin by by eapply list_elem_of_lookup_2.
  rewrite Forall_forall in Hp. specialize (Hp b Hbin). rewrite Forall_forall in Hf. specialize (Hf b Hbin).
  assert (u32 (RegisterFile.pc (regs c)) = Z.of_nat (fetched c)) as Ef.
  { unfold fetched. rewrite Z2Nat.id; [done|]. apply u32_range. }
  assert (mem_read (memory c) (u32 (RegisterFile.pc (regs c))) = ok b) as Hrd by (rewrite Ef, Hmc; by apply Hc).
  unfold step in Hs. rewrite Hrd in Hs.
  destruct (ALU.checked _) as [pc'|] eqn:Hck; [|done]. cbn [mbind option_bind] in Hs.
  destruct (execute_blind _ (flags c') _ _ _ _ _ Hp Hf Hs) as (c2 & H2 & Hr2 & Hm2).
  exists (S n), c2. split; [|done]. eapply Hsnoc; [done|]. unfold step. rewrite Hr, Hm, Hrd, Hck. exact H2.
Qed.
End alone.

(** ** One image across a dispatcher call *)
Definition spares (pid : Z) (op : disp_op) : Prop :=
  match op with DCreate id _ _ _ _ => id ≠ pid | DTerminate q => q ≠ pid | _ => True end.

Section image.
Context {P : Type} `{HP : !ISchedulingPolicy P} `{HL : !LawfulSchedulingPolicy P} `{HF : !FloatCast}.
Context {W : Type} `{HV : !IVirtualMemory W} `{HE : !IExecutionEngine W} `{HM : !LawfulMachine W}.
Implicit Types (d : dispatcher P W) (pid : Z) (im : ProcessImage).

(** [pid] got the burst of this call, which left it [im'] or removed it. *)
Definition burst_step d pid d' : Prop :=
  ∃ budget im res im' w, d_processes d !! pid = Some im ∧
    execute (d_world d) pid im budget = Some (res, im', w) ∧ im_pcb im' = im_pcb im ∧
    match ExecutionResult.reason res with
    | BudgetExhausted => d_processes d' !! pid = Some im'
    | Interrupted => d_processes d' !! pid = Some im' ∧ member (d_scheduler d') (im_pcb im') Blocked
    | _ => d_processes d' !! pid = None
    end.

Lemma image_step d op res d' pid :
  disp_wf None d → valid_op op → spares pid op → disp_step d op = Some (res, d') →
  disp_wf None d' ∧ (d_processes d' !! pid = d_processes d !! pid ∨ burst_step d pid d').
Proof.
  intros Hw Hv Hsp Hs. destruct op as [id name code prio arrival|budget|q|]; cbn [disp_step] in Hs; cbv zeta in Hs.
  - destruct (new_image_ok d id name code prio arrival Hw Hv)
      as (p & x & d1 & Hn & _ & Hw1 & Hp & Hid & Hst & _ & _ & _ & E2 & _). rewrite Hn in Hs. cbv beta iota in Hs.
    match type of Hs with createProcess _ _ ?now = _ =>
      destruct (createProcess_ok d1 x p now Hw1 Hp Hst) as (res' & d2 & Hc & Hw2 & _ & Hcase) end.
    rewrite Hc in Hs. injection Hs as <- <-. split; [done|]. left. rewrite <-E2.
    destruct res'; destruct Hcase as (F1 & F2); [|by rewrite F1].
    destruct F2 as (-> & _). rewrite lookup_insert_ne; [done|congruence].
  - destruct (dispatch_cases d budget Hw) as [(e & He & _)|(q & x & s & h & Hsel & [[_ Hn]|(r & x' & w & Hx & Hw2 & Him & Hd)])].
    + rewrite He in Hs. injection Hs as <- <-. split; [done|by left].
    + congruence.
    + destruct (selects_wf d q x s h Hw Hsel) as (_ & _ & _ & Hl & _). pose proof Hsel as [_ Hq].
      set (d2 := burst_of _ _ _ _ _ _ _) in *.
      assert (d_processes d2 !! q = Some x') as Hi2 by apply lookup_insert_eq.
      assert (runningByLane (d_scheduler d2) !! 0%nat = Some (Some (im_pcb x'))) as Hl2 by (simpl; by rewrite Him).
      destruct (after_burst_ok d2 q x' (ExecutionResult.reason r) 0 Hw2 Hi2 Hl2) as (d3 & Ha & Hw3 & _ & Hcase).
      rewrite Hd, Ha in Hs. injection Hs as <- <-. split; [done|]. destruct (decide (q = pid)) as [->|Hne].
      * right. exists budget, x, r, x', w. split_and!; [done..|].
        destruct (ExecutionResult.reason r); [by subst d3| | |by destruct Hcase as (-> & ? & _)|];
          destruct Hcase as (-> & _); apply lookup_delete_eq.
      * left. assert (d_processes d2 !! pid = d_processes d !! pid) as <- by (simpl; by rewrite lookup_insert_ne).
        destruct (ExecutionResult.reason r); [by subst d3| | |by destruct Hcase as (-> & _)|];
          destruct Hcase as (-> & _); by apply lookup_delete_ne.
  - match type of Hs with terminateProcess _ _ ?now = _ => pose proof (terminateProcess_ok d q now Hw) as Ht end.
    destruct (d_processes d !! q) as [x|] eqn:Hq; [|rewrite Ht in Hs; injection Hs as <- <-; split; [done|by left]].
    destruct Ht as (d2 & Ht & Hw2 & E1 & _). rewrite Ht in Hs. injection Hs as <- <-.
    split; [done|]. left. rewrite E1. by apply lookup_delete_ne.
  - injection Hs as <- <-. split; [by apply wf_advance|by left].
Qed.
End image.

(** ** Isolation *)
Section isolation.
Context {M Q : Type} `{HMem : !IMemory M} `{HLM : !LawfulMemory M}.
Context `{HPol : !IPageReplacementPolicy Q} `{HLP : !LawfulPolicy Q} `{HO : HashOrder}.
Context {P : Type} `{HP : !ISchedulingPolicy P} `{HL : !LawfulSchedulingPolicy P} `{HF : !FloatCast}.
Implicit Types (d : dispatcher P (machine M Q)) (pid : Z) (im : ProcessImage).

(** The process as it would start its next burst. *)
Definition start_of d im : cpu_state M := loaded (engine_view (d_world d)) im.

(** Where [pid] may be, having started in [c0]: in the table on its own way, or
    blocked by an interrupt it raised itself; or gone, having ended itself. *)
Definition on_its_way c0 r0 prog pid d : Prop :=
  match d_processes d !! pid with
  | Some im => im_pcb im = r0 ∧ im_code im = prog ∧
      (own c0 (im_registers im) ∨
       ∃ i, raised c0 i (im_registers im) ∧ reason_of i = Interrupted ∧ member (d_scheduler d) r0 Blocked)
  | None => ∃ i r, raised c0 i r ∧ reason_of i ≠ Interrupted
  end.

Definition shielded c0 r0 prog pid d : Prop :=
  disp_wf None d ∧ pid ∉ mc_halted (d_world d) ∧ (length prog ≤ frames_of (d_world d))%nat ∧ on_its_way c0 r0 prog pid d.

Lemma reason_of_raised i : reason_of i ≠ BudgetExhausted ∧ reason_of i ≠ Halted.
Proof. unfold reason_of. destruct (i =? _); [done|]. by case_decide. Qed.

Lemma shielded_step c0 r0 prog pid d op res d' :
  Forall in_registers prog → carries prog (memory c0) → contained prog c0 →
  shielded c0 r0 prog pid d → valid_op op → spares pid op → disp_step d op = Some (res, d') →
  shielded c0 r0 prog pid d'.
Proof.
  intros Hprog Hc Hin (Hw & Hh & Hfit & Hway) Hv Hsp Hs.
  assert (op ≠ DTerminate pid) as Hnt by (intros ->; by destruct Hsp).
  destruct (keeps_step pid d op res d' Hnt Hs) as [Hfr Hhalt].
  destruct (image_step d op res d' pid Hw Hv Hsp Hs) as [Hw' Himg].
  split; [done|]. split; [by apply Hhalt|]. split; [by rewrite Hfr|].
  unfold on_its_way in *. destruct (d_processes d !! pid) as [im|] eqn:Hi.
  2: { destruct Himg as [->|(? & im & _ & _ & _ & Hi' & _)]; [done|congruence]. }
  destruct Hway as (Hr0 & Hcode & [Hown|(i & Hra & Hre & Hb)]).
  2: { rewrite <-Hr0 in Hb. destruct (blocked_step d op res d' pid im Hw Hv Hnt Hi Hb Hs) as (_ & -> & Hb').
       split_and!; [done..|]. right. exists i. by rewrite <-Hr0. }
  destruct Himg as [->|(budget & im0 & r & im' & w & Hi' & Hx & Hp & Hafter)]; [by auto|].
  assert (im0 = im) as -> by congruence.
  destruct (frames_cells d Hw) as [Hcells Hmax]. unfold INVALID_FRAME in Hmax.
  cbn [execute machine_engine] in Hx.
  destruct (execute (engine_view (d_world d)) pid im budget) as [[[r' im1] e]|] eqn:Hxe; [|done].
  cbn [mbind option_bind] in Hx. injection Hx as -> -> <-.
  assert ((codeSize im ≤ mem_cells (in_memory (engine_view (d_world d))))%nat) as Hfit'.
  { unfold codeSize. rewrite Hcode. simpl. by rewrite Hcells. }
  destruct (burst_alone prog Hprog c0 Hc Hin (engine_view (d_world d)) pid im budget r im' e)
    as [Hcode' [[Hre Hown']|(i & Hre & Hra)]]; try done.
  { unfold codeSize in *. rewrite Hcode in *. simpl in Hfit'. rewrite Hcells in Hfit'. lia. }
  - rewrite Hre in Hafter. rewrite Hafter. split_and!; [congruence|done|by left].
  - pose proof (reason_of_raised i) as [Hn1 Hn2]. rewrite Hre in Hafter.
    destruct (reason_of i) eqn:Hreason; try done.
    + rewrite Hafter. exists i, (im_registers im'). by rewrite Hreason.
    + rewrite Hafter. exists i, (im_registers im'). by rewrite Hreason.
    + destruct Hafter as [-> Hb]. split_and!; [congruence|done|]. right. exists i.
      split_and!; [done|done|congruence].
Qed.

(** C9: isolation.  A process that works in its registers and stays in its code
    cannot be disturbed by the rest of the system, except through the CPU's
    comparison flags.  Through any run of creations, dispatches, terminations
    and ticks that does not name it, with the other processes writing wherever
    they like in the shared memory, either the process is in the table, its code
    and control block the ones it had, with registers its own cycles lead to
    from its start (somebody else setting the flags between them), or blocked
    by an interrupt it raised on the way; or it is gone, and one of its own
    cycles raised the exit or error that ended it. *)
Theorem process_isolation d pid im ops rs d' :
  disp_wf None d → d_processes d !! pid = Some im → pid ∉ mc_halted (d_world d) →
  (codeSize im ≤ frames_of (d_world d))%nat → Forall in_registers (im_code im) →
  contained (im_code im) (start_of d im) →
  Forall (λ op, valid_op op ∧ spares pid op) ops → disp_run d ops = Some (rs, d') →
  on_its_way (start_of d im) (im_pcb im) (im_code im) pid d'.
Proof.
  intros Hw Hi Hh Hfit Hprog Hin Hops Hr. destruct (frames_cells d Hw) as [Hcells Hmax]. unfold INVALID_FRAME in Hmax.
  assert (carries (im_code im) (memory (start_of d im))) as Hc.
  { apply loaded_carries; simpl; [lia|by rewrite Hcells]. }
  assert (shielded (start_of d im) (im_pcb im) (im_code im) pid d) as Hs.
  { split_and!; [done..|]. unfold on_its_way. rewrite Hi. split_and!; [done..|]. left.
    exists (start_of d im). split; [constructor|done]. }
  clear Hw Hi Hh Hfit Hmax Hcells. generalize dependent (start_of d im). intros c0 Hin Hc Hs.
  revert d rs Hs Hr. induction Hops as [|op ops [Hv Hsp] _ IH]; intros d rs Hs; cbn [disp_run].
  { intros [= <- <-]. by destruct Hs as (_ & _ & _ & ?). }
  destruct (disp_step d op) as [[r d1]|] eqn:Hst; [|done]. cbv beta iota.
  destruct (disp_run d1 ops) as [[rs1 d2]|] eqn:Hrun; [|done]. intros [= <- <-].
  eapply IH; [|exact Hrun]. by eapply shielded_step.
Qed.
End isolation.

(** ** A process between two others *)
Section demo.
#[local] Instance demo_order : HashOrder := canonical_order.
#[local] Instance demo_cast : FloatCast := λ _, 0.

(** [guarded] of [Preemption] shares a round-robin lane with a process that
    writes over the bottom of memory, where all code is loaded. *)
Definition shared_start : dispatcher Policies.policy (machine PhysicalMemory.t ClockReplacement.t) :=
  Dispatcher_make (Scheduler_make (Some (RoundRobin 1))) demo_world SimulationClock.init.
Definition both : list disp_op :=
  [DCreate 1 "guarded" (im_code guarded) Priority_default 0; DCreate 2 "writer" (im_code writer) Priority_default 0].
Definition sharing : dispatcher Policies.policy (machine PhysicalMemory.t ClockReplacement.t) :=
  match disp_run shared_start both with Some (_, d) => d | None => shared_start end.
Definition turns : list disp_op :=
  [DDispatch 1; DTick; DDispatch 1; DTick; DDispatch 1; DTick; DDispatch 1].

Lemma sharing_wf : disp_wf None sharing.
Proof.
  unfold sharing. destruct (disp_run_ok shared_start both) as [(rs & d & Hr & Hw)|(ops1 & op & ops2 & rs & d & Hops & Hr & Hst)].
  - apply make_wf; [apply demo_world_inv|apply demo_world_empty].
  - repeat apply Forall_cons_2; try discriminate. apply Forall_nil_2.
  - rewrite Hr. exact Hw.
  - assert (disp_run shared_start both = None) as Hn by (rewrite Hops; by eapply disp_run_stuck).
    vm_compute in Hn. discriminate.
Qed.

(** The registers of [guarded] at its [k]-th instruction. *)
Definition guarded_at (k : Z) : list Z := <[RegisterFile.ProgramCounter := k]> RegisterFile.init.

Lemma guarded_contained (c0 : cpu_state PhysicalMemory.t) :
  carries (im_code guarded) (memory c0) → regs c0 = guarded_at 0 → contained (im_code guarded) c0.
Proof.
  intros Hc H0.
  assert (∀ c, alone c0 c → memory c = memory c0 ∧ ∃ k, (k = 0 ∨ k = 1 ∨ k = 2 ∨ k = 3) ∧ regs c = guarded_at k) as H.
  { induction 1 as [|c c' _ (Hm & k & Hk & Hr) Hs|c fl _ IH]; [|..|done].
    { split; [done|]. exists 0. split; [by left|done]. }
    destruct c as [fl m r]. cbn [memory regs] in Hm, Hr. subst r. rewrite <-Hm in *. clear Hm H0. unfold step in Hs.
    cbn [regs memory flags] in Hs. destruct Hk as [->|[->|[->| ->]]].
    - pose proof (Hc 0%nat _ eq_refl) as Hrd. change (Z.of_nat 0) with (u32 (RegisterFile.pc (guarded_at 0))) in Hrd.
      rewrite Hrd in Hs. vm_compute in Hs. injection Hs as <-. split; [done|]. exists 1. split; [by auto|reflexivity].
    - pose proof (Hc 1%nat _ eq_refl) as Hrd. change (Z.of_nat 1) with (u32 (RegisterFile.pc (guarded_at 1))) in Hrd.
      rewrite Hrd in Hs. unfold Cpu.execute in Hs. cbn [code] in Hs. destruct (shouldJump fl JumpEqual);
        vm_compute in Hs; injection Hs as <-; (split; [done|]); [exists 3|exists 2]; (split; [by auto|reflexivity]).
    - pose proof (Hc 2%nat _ eq_refl) as Hrd. change (Z.of_nat 2) with (u32 (RegisterFile.pc (guarded_at 2))) in Hrd.
      rewrite Hrd in Hs. vm_compute in Hs. discriminate.
    - pose proof (Hc 3%nat _ eq_refl) as Hrd. change (Z.of_nat 3) with (u32 (RegisterFile.pc (guarded_at 3))) in Hrd.
      rewrite Hrd in Hs. vm_compute in Hs. discriminate. }
  intros c Ha. destruct (H c Ha) as (_ & k & Hk & Hr). unfold fetched. rewrite Hr.
  destruct Hk as [->|[->|[->| ->]]]; vm_compute; by eexists.
Qed.

(** Two turns of [guarded], with a turn of the writer between them. *)
Lemma process_isolation_witness :
  ∃ im rs d', d_processes sharing !! 1 = Some im ∧ disp_run sharing turns = Some (rs, d') ∧
    on_its_way (start_of sharing im) (im_pcb im) (im_code im) 1 d' ∧
    option_map im_registers (d_processes d' !! 1) = Some (guarded_at 3) ∧
    option_map im_registers (d_processes d' !! 2) = Some (guarded_at 2).
Proof.
  exists guarded. destruct (disp_run sharing turns) as [[rs d']|] eqn:Hr; [|vm_compute in Hr; discriminate Hr].
  exists rs, d'. assert (d_processes sharing !! 1 = Some guarded) as Hi by (vm_compute; reflexivity).
  assert (codeSize guarded ≤ frames_of (d_world sharing))%nat as Hfit by (vm_compute; lia).
  split; [exact Hi|]. split; [reflexivity|]. split.
  - apply (process_isolation sharing 1 guarded turns rs d' sharing_wf Hi).
    + assert (mc_halted (d_world sharing) = ∅) as -> by (vm_compute; reflexivity). apply not_elem_of_empty.
    + exact Hfit.
    + repeat constructor.
    + apply guarded_contained; [|reflexivity]. apply loaded_carries; [vm_compute; discriminate|].
      vm_compute. lia.
    + unfold turns. repeat (apply Forall_cons_2; [split; exact I|]). apply Forall_nil_2.
    + exact Hr.
  - vm_compute in Hr. injection Hr as _ <-. split; vm_compute; reflexivity.
Defined.
End demo.
