(* ===== verification/Fair.v ===== *)
(** * Fair: round robin serves everybody

    [scheduling/round_robin_policy.cpp] inside [scheduling/scheduler.cpp] and
    [dispatch/dispatcher.cpp], on one lane.  A ready process waits behind the
    processes of the queue that became ready before it, each for at most one
    time slice, and behind the slice the running process has left.  Processes
    that enter the queue later, or come back to it, go behind. *)
From S2P Require Import Prelude Core Arch Process Policies Scheduler SchedInvariant SchedProps.
From S2P Require Import SchedSteps SchedRun SchedTheorems Interp Dispatcher DispatcherProps DispatcherTheorems.
From S2P Require Import DispatcherFrame.
Local Open Scope Z_scope.

(** ** What a selection went by *)
Section why.
Context {P : Type} `{HP : !ISchedulingPolicy P} `{HL : !LawfulSchedulingPolicy P} `{HF : !FloatCast}.
Implicit Types (s : sched P) (h : heap) (r pid now : Z) (lane : nat).

Lemma asConst_elem h q snap r p : asConst h q = Some snap → r ∈ q → h !! r = Some p → toSnapshot p ∈ snap.
Proof.
  revert snap. induction q as [|x q IH]; intros snap; simpl; [set_solver|].
  destruct (h !! x) as [px|] eqn:Hx; cbn [mbind option_bind]; [|done].
  destruct (asConst h q) as [out|]; cbn [mbind option_bind]; [|done].
  intros [= <-] [->|Hr]%elem_of_cons Hp; [simplify_eq; by left|]. right. by apply IH.
Qed.

Lemma set_state_pids h x st now b h1 r : set_state h x st now = Some (b, h1) → pid_at h1 r = pid_at h r.
Proof.
  unfold set_state. destruct (h !! x) as [p|] eqn:Hp; cbn [mbind option_bind]; [|done].
  destruct (setState p st now) as [b' p'] eqn:Hset. intros [= -> <-].
  apply (pid_at_update h x p); [done|]. pose proof (setState_id p st now) as Hi. by rewrite Hset in Hi.
Qed.

Lemma candidate_answer s h lane id r now pid s' h' :
  pid_at h r = Some id → dispatch_candidate s h lane id r now = Some (ok pid, s', h') → pid = id.
Proof.
  intros Hid. unfold dispatch_candidate.
  destruct (readyByLane s !! lane); cbn [mbind option_bind]; [|done].
  destruct (removeFrom _ _ _); cbn [mbind option_bind]; [|done].
  destruct (set_state h r Running now) as [[moved h1]|] eqn:Hs; cbn [mbind option_bind]; [|done].
  destruct moved; cbn [negb]; [|done].
  rewrite (set_state_pids _ _ _ _ _ _ r Hs), Hid. cbn [mbind option_bind]. by intros [= <- <- <-].
Qed.

(** With somebody queued, the policy named a candidate, and the running process
    kept the lane only because the policy would not preempt it. *)
Lemma select_why s h lane ready running pol now pid s' h' :
  sched_wf s h → policy s = Some pol → readyByLane s !! lane = Some ready → ready ≠ [] →
  runningByLane s !! lane = Some running → selectNextForLane s h lane now = Some (ok pid, s', h') →
  ∃ snap c p, asConst h ready = Some snap ∧ c ∈ ready ∧ h !! c = Some p ∧ selectNext pol snap now = pcb_id p ∧
    match running with
    | None => pid = pcb_id p
    | Some x => ∃ px, h !! x = Some px ∧
        pid = if shouldPreempt pol (toSnapshot px) (toSnapshot p) now then pcb_id p else pcb_id px
    end.
Proof.
  intros Hw Hpol Hq Hne Hrun. unfold selectNextForLane. rewrite Hq, Hpol, Hrun. cbn [mbind option_bind].
  destruct (candidate_ok s h lane ready pol now Hw Hq Hne) as (snap & c & p & Hs & Hc & Hp & Hsel & Hinv & Hf).
  destruct ready as [|r0 q0]; [done|]. set (ready := r0 :: q0) in *. rewrite Hs. cbn [mbind option_bind].
  rewrite Hsel, (proj2 (Z.eqb_neq _ _) Hinv), Hf. cbn [mbind option_bind]. intros Hout.
  exists snap, c, p. do 4 (split; [done|]). destruct running as [x|].
  - destruct (h !! x) as [px|] eqn:Hx; cbn [mbind option_bind] in Hout; [|done]. exists px. split; [done|].
    rewrite Hp in Hout. cbn [mbind option_bind] in Hout.
    destruct (shouldPreempt _ _ _ _); cbn [negb] in Hout; [|by injection Hout].
    destruct (set_state h x Ready now) as [[[] h1]|] eqn:Hset; cbn [mbind option_bind negb] in Hout; try done.
    eapply candidate_answer; [|exact Hout]. rewrite (set_state_pids _ _ _ _ _ _ c Hset).
    unfold pid_at. by rewrite Hp.
  - eapply candidate_answer; [|exact Hout]. unfold pid_at. by rewrite Hp.
Qed.
End why.

(** ** Engines that run a burst to its end: an exhausted budget was used up. *)
Class FullBudget (W : Type) `{!IVirtualMemory W} `{!IExecutionEngine W} `{!LawfulMachine W} :=
  law_budget w pid im n res im' w' :
    machine_inv w → execute w pid im n = Some (res, im', w') →
    ExecutionResult.reason res = BudgetExhausted → ExecutionResult.ticksConsumed res = n.

(** ** Round robin on one lane *)
Section round_robin.
Context `{HF : !FloatCast} {W : Type} `{HV : !IVirtualMemory W} `{HE : !IExecutionEngine W} `{HM : !LawfulMachine W}.
Context `{HB : !FullBudget W}.
Implicit Types (d : dispatcher Policies.policy W) (r pid q : Z) (im : ProcessImage).

Definition clock_now d : Z := SimulationClock.now (d_clock d).

(** The policy selects [x] before [r]. *)
Definition goes_before (h : heap) (x r : Z) : bool :=
  match h !! x, h !! r with
  | Some p, Some p0 => RoundRobinPolicy.before (toSnapshot p) (toSnapshot p0)
  | _, _ => false
  end.
Definition ahead d r : list Z :=
  filter (λ x, goes_before (d_heap d) x r = true) (concat (readyByLane (d_scheduler d))).
(** What the running process has left of its slice. *)
Definition slice_left q d : Z :=
  match runningByLane (d_scheduler d) !! 0%nat with
  | Some (Some x) => match d_heap d !! x with Some p => Z.max 0 (q - (clock_now d - since p)) | None => 0 end
  | _ => 0
  end.
(** How many dispatches [r] may have to wait for. *)
Definition wait_bound q d r : Z := Z.of_nat (length (ahead d r)) * q + slice_left q d.

(** One lane under round robin, and a clock that has not wrapped around. *)
Record fair_wf q d : Prop := {
  fw_wf : disp_wf None d;
  fw_policy : policy (d_scheduler d) = Some (RoundRobin q);
  fw_lane : length (readyByLane (d_scheduler d)) = 1%nat;
  fw_now : 0 ≤ clock_now d < 2 ^ 64;
  fw_since r p : d_heap d !! r = Some p → 0 ≤ since p ≤ clock_now d
}.

(** [r] is ready, and has been since before this tick. *)
Definition waiting d r : Prop := ∃ p, d_heap d !! r = Some p ∧ state p = Ready ∧ since p < clock_now d.

Lemma one_lane q d : fair_wf q d → ∃ ready running,
  readyByLane (d_scheduler d) = [ready] ∧ runningByLane (d_scheduler d) = [running].
Proof.
  intros [Hw _ Hl _ _]. destruct (w_lanes _ _ (dw_sched _ _ Hw)) as [Hl' _]. rewrite Hl in Hl'.
  destruct (readyByLane (d_scheduler d)) as [|ready [|]]; [done| |done].
  destruct (runningByLane (d_scheduler d)) as [|running [|]]; [done| |done]. by eexists _, _.
Qed.

Lemma goes_before_since h x r p p0 :
  h !! x = Some p → h !! r = Some p0 → goes_before h x r = true → since p ≤ since p0.
Proof.
  intros Hx Hr. unfold goes_before, RoundRobinPolicy.before, lex_lt. rewrite Hx, Hr. simpl.
  destruct (Z.eqb_spec (since p) (since p0)); simpl; [lia|]. rewrite Z.ltb_lt. lia.
Qed.

Lemma goes_before_total h x r p p0 :
  h !! x = Some p → h !! r = Some p0 → pcb_id p ≠ pcb_id p0 →
  goes_before h r x = false → goes_before h x r = true.
Proof.
  intros Hx Hr Hne. unfold goes_before, RoundRobinPolicy.before, lex_lt, pid_below. rewrite Hx, Hr. simpl.
  rewrite (Z.eqb_sym (since p0)). destruct (Z.eqb_spec (since p) (since p0)); simpl; rewrite Z.ltb_ge, Z.ltb_lt; lia.
Qed.

(** A queued process is registered under its id. *)
Lemma member_ref (s : sched Policies.policy) h x st p :
  sched_wf s h → member s x st → h !! x = Some p → processes s !! pcb_id p = Some x ∧ state p = st.
Proof. intros Hw Hm Hp. destruct (w_member _ _ Hw x st Hm) as (p' & Hp' & Hst & Hk). by simplify_eq. Qed.

(** The policy's candidate goes before everybody else in the queue. *)
Lemma rr_candidate q (s : sched Policies.policy) h ready snap c p r p0 now :
  sched_wf s h → readyByLane s !! 0%nat = Some ready → asConst h ready = Some snap →
  c ∈ ready → h !! c = Some p → selectNext (RoundRobin q) snap now = pcb_id p →
  r ∈ ready → h !! r = Some p0 → c ≠ r → goes_before h c r = true.
Proof.
  intros Hw Hq Hs Hc Hp Hsel Hr Hp0 Hne.
  assert (∀ x px, x ∈ ready → h !! x = Some px → processes s !! pcb_id px = Some x) as Href.
  { intros x px Hx Hpx. by apply (member_ref s h x Ready px Hw (lane_member _ _ _ _ Hq Hx)). }
  pose proof (asConst_elem h ready snap r p0 Hs Hr Hp0) as Hin.
  assert (selectNext (RoundRobin q) snap now = pid_of_best (min_element RoundRobinPolicy.before snap)) as Heq by done.
  rewrite Heq in Hsel. destruct (min_element RoundRobinPolicy.before snap) as [b|] eqn:Hb.
  2: { apply min_element_None in Hb as ->. by apply elem_of_nil in Hin. }
  destruct (asConst_spec h (processes s) (w_table _ _ Hw) ready (lane_known _ _ _ _ Hw Hq)) as (snap' & Hs' & _ & Hb').
  rewrite Hs in Hs'. injection Hs' as <-. destruct (Hb' b (min_element_in _ _ _ Hb)) as (x & px & Hx & Hpx & ->).
  simpl in Hsel. assert (x = c) as ->.
  { pose proof (Href x px Hx Hpx) as H1. pose proof (Href c p Hc Hp) as H2. rewrite Hsel in H1. congruence. }
  assert (px = p) as -> by congruence. apply (goes_before_total h c r p p0); [done|done| |].
  - intros E. pose proof (Href c p Hc Hp) as H1. pose proof (Href r p0 Hr Hp0) as H2. rewrite E in H1. congruence.
  - unfold goes_before. rewrite Hp, Hp0. by apply (min_element_least RoundRobinPolicy.before _ _ _ Hb).
Qed.

(** The slice is up exactly when the policy preempts. *)
Lemma slice_preempts q d x px cand :
  fair_wf q d → runningByLane (d_scheduler d) = [Some x] → d_heap d !! x = Some px →
  shouldPreempt (RoundRobin q) (toSnapshot px) cand (clock_now d) = bool_decide (slice_left q d = 0).
Proof.
  intros Hf Hrun Hp. pose proof (fw_since _ _ Hf x px Hp). pose proof (fw_now _ _ Hf).
  unfold slice_left. rewrite Hrun. simpl. rewrite Hp. unfold RoundRobinPolicy.shouldPreempt. simpl. rewrite u64_small by lia.
  case_bool_decide; [rewrite Z.leb_le|rewrite Z.leb_gt]; lia.
Qed.

(** Who a dispatch selects while [r] waits. *)
Lemma rr_selects q d pid im s h r p0 :
  fair_wf q d → d_heap d !! r = Some p0 → state p0 = Ready → selects d pid im s h → im_pcb im ≠ r →
  ∃ running, runningByLane (d_scheduler d) = [running] ∧
    ((running = Some (im_pcb im) ∧ h = d_heap d ∧ s = d_scheduler d ∧ slice_left q d ≠ 0) ∨
     (im_pcb im ∈ ahead d r ∧ slice_left q d = 0 ∧
      h = moved_to (match running with Some x => moved_to (d_heap d) x Ready (clock_now d) | None => d_heap d end)
            (im_pcb im) Running (clock_now d))).
Proof.
  intros Hf Hp0 Hst [Hsel Hi] Hne. destruct (one_lane q d Hf) as (ready & running & Hrd & Hrn).
  pose proof (fw_wf _ _ Hf) as Hw. pose proof (dw_sched _ _ Hw) as Hsw.
  assert (readyByLane (d_scheduler d) !! 0%nat = Some ready) as Hq by by rewrite Hrd.
  assert (runningByLane (d_scheduler d) !! 0%nat = Some running) as Hrun by by rewrite Hrn.
  assert (r ∈ ready) as Hr.
  { destruct (proj2 (member_heap d r Ready Hw)) as [[_ Hin]|[[? _]|[? _]]]; [by exists p0| |done|done].
    rewrite Hrd in Hin. simpl in Hin. by rewrite app_nil_r in Hin. }
  destruct (select_why _ _ 0 ready running _ _ pid s h Hsw (fw_policy _ _ Hf) Hq ltac:(intros ->; by apply elem_of_nil in Hr) Hrun Hsel)
    as (snap & c & p & Hs & Hc & Hp & Hcand & Hwhy).
  destruct (selectNext_ok _ _ 0 (SimulationClock.now (d_clock d)) Hsw) as (res & s0 & h0 & Hsel0 & _ & _ & _ & Hres).
  unfold sched_selectNext in Hsel. rewrite Hsel in Hsel0. injection Hsel0 as <- <- <-.
  destruct Hres as (x & ready' & running' & Hq' & Hrun' & Hpx & _ & Hcase).
  rewrite Hq in Hq'. rewrite Hrun in Hrun'. injection Hq' as <-. injection Hrun' as <-.
  assert (x = im_pcb im) as -> by (pose proof (dw_image _ _ Hw pid im Hi); congruence).
  destruct (member_ref _ _ c Ready p Hsw (lane_member _ _ _ _ Hq Hc) Hp) as [Hkc Hstc].
  exists running. split; [done|]. destruct Hcase as [(-> & -> & ->)|(Hin & _ & _ & _ & ->)].
  - left. split_and!; try done. destruct Hwhy as (px & Hx & Hpid).
    rewrite (slice_preempts q d (im_pcb im) px _ Hf Hrn Hx) in Hpid. case_bool_decide as Hz; [|done].
    assert (c = im_pcb im) as -> by congruence.
    destruct (member_ref _ _ _ Running p Hsw (slot_member _ _ _ Hrun) Hp). congruence.
  - right. destruct (d_heap d !! im_pcb im) as [pi|] eqn:Hpi.
    2: { by destruct (w_member _ _ Hsw _ _ (lane_member _ _ _ _ Hq Hin)) as (? & ? & _); simplify_eq. }
    assert (slice_left q d = 0 ∧ pid = pcb_id p) as [Hz ->].
    { destruct running as [x|]; [|split; [|done]; unfold slice_left; by rewrite Hrun].
      destruct Hwhy as (px & Hx & Hpid). rewrite (slice_preempts q d x px _ Hf Hrn Hx) in Hpid.
      case_bool_decide; [done|]. destruct (member_ref _ _ x Running px Hsw (slot_member _ _ _ Hrun) Hx) as [Hkx Hsx].
      assert (x = im_pcb im) as -> by congruence.
      destruct (member_ref _ _ _ Ready px Hsw (lane_member _ _ _ _ Hq Hin) Hx). congruence. }
    assert (c = im_pcb im) as -> by congruence. split_and!; [|done|done].
    unfold ahead. apply list_elem_of_filter. rewrite Hrd. simpl. rewrite app_nil_r. split; [|done].
    by apply (rr_candidate q (d_scheduler d) (d_heap d) ready snap (im_pcb im) p r p0 (clock_now d)).
Qed.

(** *** The two terms of the bound *)
Lemma ahead_elem d r y : disp_wf None d →
  y ∈ ahead d r ↔ (∃ p, d_heap d !! y = Some p ∧ state p = Ready) ∧ goes_before (d_heap d) y r = true.
Proof.
  intros Hw. unfold ahead. rewrite list_elem_of_filter, <-(member_heap d y Ready Hw). unfold member. naive_solver.
Qed.

Lemma ahead_nodup d r : disp_wf None d → NoDup (ahead d r).
Proof. intros Hw. apply NoDup_filter, (dw_sched _ _ Hw). Qed.

(** Whoever becomes ready later than [r] goes behind it. *)
Lemma ahead_shrinks d d' r p0 y :
  disp_wf None d → disp_wf None d' → d_heap d !! r = Some p0 → d_heap d' !! r = Some p0 →
  (∀ p, d_heap d' !! y = Some p → state p = Ready → d_heap d !! y = Some p ∨ since p0 < since p) →
  y ∈ ahead d' r → y ∈ ahead d r.
Proof.
  intros Hw Hw' Hr Hr' Hy. rewrite !ahead_elem by done. intros [(p & Hp & Hst) Hb].
  destruct (Hy p Hp Hst) as [Hp'|Hlt].
  - split; [by exists p|]. revert Hb. unfold goes_before. by rewrite Hp, Hp', Hr, Hr'.
  - pose proof (goes_before_since _ _ _ _ _ Hp Hr' Hb). lia.
Qed.

Lemma ahead_length d d' r :
  disp_wf None d' → (∀ y, y ∈ ahead d' r → y ∈ ahead d r) → (length (ahead d' r) ≤ length (ahead d r))%nat.
Proof. intros Hw Hsub. apply submseteq_length, NoDup_submseteq; [by apply ahead_nodup|done]. Qed.
Lemma ahead_length_lt d d' r c :
  disp_wf None d' → (∀ y, y ∈ ahead d' r → y ∈ ahead d r) → c ∈ ahead d r → c ∉ ahead d' r →
  (length (ahead d' r) < length (ahead d r))%nat.
Proof.
  intros Hw Hsub Hc Hc'. change (length (c :: ahead d' r) ≤ length (ahead d r))%nat.
  apply submseteq_length, NoDup_submseteq; [by apply NoDup_cons; split; [|apply ahead_nodup]|].
  intros y [->|Hy]%elem_of_cons; [done|by apply Hsub].
Qed.

Lemma running_unique d running y p :
  disp_wf None d → runningByLane (d_scheduler d) = [running] → d_heap d !! y = Some p → state p = Running →
  running = Some y.
Proof.
  intros Hw Hrn Hp Hst. destruct (proj2 (member_heap d y Running Hw)) as [[? _]|[[_ Hin]|[? _]]]; [by exists p|done| |done].
  rewrite Hrn in Hin. destruct running as [z|]; simpl in Hin; [|by apply elem_of_nil in Hin].
  by apply list_elem_of_singleton in Hin as ->.
Qed.

Lemma slice_running q d x p :
  fair_wf q d → d_heap d !! x = Some p → state p = Running →
  slice_left q d = Z.max 0 (q - (clock_now d - since p)).
Proof.
  intros Hf Hp Hst. destruct (one_lane q d Hf) as (ready & running & _ & Hrn).
  rewrite (running_unique d running x p (fw_wf _ _ Hf) Hrn Hp Hst) in Hrn. unfold slice_left. rewrite Hrn. simpl.
  by rewrite Hp.
Qed.

Lemma slice_bound q d k :
  fair_wf q d → 0 ≤ k →
  (∀ x p, d_heap d !! x = Some p → state p = Running → q - (clock_now d - since p) ≤ k) → slice_left q d ≤ k.
Proof.
  intros Hf Hk Hrun. destruct (one_lane q d Hf) as (ready & running & _ & Hrn). unfold slice_left. rewrite Hrn. simpl.
  destruct running as [x|]; [|done]. destruct (d_heap d !! x) as [p|] eqn:Hp; [|done].
  destruct (member_ref (d_scheduler d) (d_heap d) x Running p (dw_sched _ _ (fw_wf _ _ Hf))) as [_ Hst]; [|done|].
  - apply (slot_member _ 0). by rewrite Hrn.
  - specialize (Hrun x p Hp Hst). lia.
Qed.
Lemma slice_nonneg q d : 0 ≤ slice_left q d.
Proof. unfold slice_left. repeat case_match; lia. Qed.

(** *** Selection and burst *)

(** The control blocks after the lane changed hands. *)
Lemma switched_heap d running c y p now :
  disp_wf None d → runningByLane (d_scheduler d) = [running] → member (d_scheduler d) c Ready →
  moved_to (match running with Some x => moved_to (d_heap d) x Ready now | None => d_heap d end) c Running now
    !! y = Some p →
  (y ≠ c ∧ d_heap d !! y = Some p ∧ running ≠ Some y) ∨
  (since p = now ∧ (y = c ∧ state p = Running ∨ running = Some y ∧ state p = Ready)).
Proof.
  intros Hw Hrn Hc Hy. destruct (w_member _ _ (dw_sched _ _ Hw) _ _ Hc) as (pc & Hpc & Hstc & _).
  assert (running ≠ Some c) as Hne.
  { intros ->. eapply (ready_not_running (d_scheduler d) (d_heap d) c (dw_sched _ _ Hw) Hc), (slot_member _ 0).
    by rewrite Hrn. }
  set (h1 := match running with Some x => _ | None => _ end) in *.
  assert (h1 !! c = Some pc) as Hc1.
  { unfold h1. destruct running as [x|]; [|done]. rewrite moved_ne; [done|congruence]. }
  destruct (decide (y = c)) as [->|Hyc].
  - right. destruct (moved_eq h1 c Running now pc Hc1) as (p' & Hp' & ? & ? & _); [by rewrite Hstc|].
    rewrite Hp' in Hy. injection Hy as <-. split; [done|by left].
  - rewrite moved_ne in Hy by done. unfold h1 in Hy. destruct running as [x|]; [|by left].
    destruct (decide (y = x)) as [->|Hyx]; [|rewrite moved_ne in Hy by done; left; split_and!; [done|done|congruence]].
    right. assert (member (d_scheduler d) x Running) as Hm by (apply (slot_member _ 0); by rewrite Hrn).
    destruct (w_member _ _ (dw_sched _ _ Hw) _ _ Hm) as (px & Hpx & Hstx & _).
    destruct (moved_eq (d_heap d) x Ready now px Hpx) as (p' & Hp' & ? & ? & _); [by rewrite Hstx|].
    rewrite Hp' in Hy. injection Hy as <-. split; [done|by right].
Qed.

(** The end of a burst: the process is still running because its budget is
    used up, or it is off the lane. *)
Lemma burst_left d pid x reason res d' :
  disp_wf None d → d_processes d !! pid = Some x →
  runningByLane (d_scheduler d) !! 0%nat = Some (Some (im_pcb x)) →
  after_burst d pid x reason = Some (res, d') →
  disp_wf None d' ∧ same_config (d_scheduler d) (d_scheduler d') ∧ d_clock d' = d_clock d ∧
  (∀ i, i ≠ pid → d_processes d' !! i = d_processes d !! i) ∧
  (∀ y, y ≠ im_pcb x → d_heap d' !! y = d_heap d !! y) ∧
  (∀ y p, d_heap d' !! y = Some p →
     d_heap d !! y = Some p ∧ (y = im_pcb x → reason = BudgetExhausted) ∨
     y = im_pcb x ∧ state p = Blocked ∧ since p = clock_now d).
Proof.
  intros Hw Hi Hl Ha. destruct (after_burst_ok d pid x reason 0 Hw Hi Hl) as (d0 & Ha0 & Hw' & _ & Hcase).
  rewrite Ha in Ha0. injection Ha0 as -> <-. destruct (decide (reason = BudgetExhausted)) as [->|Hne].
  { subst d'. split_and!; try done. intros y p Hp. by left. }
  destruct (after_burst_framed d pid x reason _ d' Hw Hi Hl Ha Hne) as (Hc & Hk & Ho & Hs).
  split_and!; try done.
  2: { intros y p Hp. destruct (decide (y = im_pcb x)) as [->|Hy]; [right; split; [done|by apply Hs]|left].
       by rewrite <-(Ho y Hy). }
  intros i Hip. destruct reason; try done; destruct Hcase as (E & _); rewrite E; [..|done|];
    by rewrite lookup_delete_ne.
Qed.

(** What a dispatch that passes [r] over does to the control blocks: [c] ran. *)
Record passed_over q d d' r c (continues : bool) : Prop := {
  po_wf : disp_wf None d';
  po_config : same_config (d_scheduler d) (d_scheduler d');
  po_image pid im : d_processes d !! pid = Some im → im_pcb im = r → d_processes d' !! pid = Some im;
  po_clock : clock_now d ≤ clock_now d';
  po_self : d_heap d' !! r = d_heap d !! r;
  po_since y p : d_heap d' !! y = Some p → d_heap d !! y = Some p ∨ clock_now d ≤ since p ≤ clock_now d';
  po_ready y p : d_heap d' !! y = Some p → state p = Ready →
    y ≠ c ∧ d_heap d !! y = Some p ∨ since p = clock_now d;
  po_running y p : d_heap d' !! y = Some p → state p = Running →
    clock_now d < clock_now d' ∧ if continues then d_heap d !! y = Some p else since p = clock_now d;
  po_case : if continues then slice_left q d ≠ 0 else slice_left q d = 0 ∧ c ∈ ahead d r
}.

(** The selection's part of it. *)
Lemma selected_heap q d pid x s h r p0 :
  fair_wf q d → d_heap d !! r = Some p0 → state p0 = Ready → selects d pid x s h → im_pcb x ≠ r →
  ∃ continues : bool,
    (if continues then slice_left q d ≠ 0 else slice_left q d = 0 ∧ im_pcb x ∈ ahead d r) ∧
    h !! r = d_heap d !! r ∧
    ∀ y p, h !! y = Some p →
      (if state p is Running then y = im_pcb x ∧ if continues then d_heap d !! y = Some p else since p = clock_now d
       else y ≠ im_pcb x ∧ (d_heap d !! y = Some p ∨ since p = clock_now d)).
Proof.
  intros Hf Hr Hst Hsel Hne. pose proof (fw_wf _ _ Hf) as Hw.
  destruct (rr_selects q d pid x s h r p0 Hf Hr Hst Hsel Hne) as (running & Hrn & [(-> & -> & _ & Hsl)|(Hc & Hsl & ->)]).
  - exists true. split_and!; [done|done|]. intros y p Hy. destruct (state p) eqn:Hs.
    3: { by injection (running_unique d _ y p Hw Hrn Hy Hs) as <-. }
    all: split; [intros ->|by left].
    all: destruct (member_ref (d_scheduler d) (d_heap d) (im_pcb x) Running p (dw_sched _ _ Hw));
      [apply (slot_member _ 0); by rewrite Hrn|done|congruence].
  - exists false. apply (ahead_elem d r _ Hw) in Hc as Hc'. destruct Hc' as [Hrd _].
    apply (member_heap d _ Ready Hw) in Hrd. split_and!; [done|done| |].
    + rewrite moved_ne by done. destruct running as [y|]; [|done]. apply moved_ne. intros ->.
      eapply (ready_not_running (d_scheduler d) (d_heap d) y (dw_sched _ _ Hw)); [apply (member_heap d y Ready Hw); by exists p0|].
      apply (slot_member _ 0). by rewrite Hrn.
    + intros y p Hy. destruct (switched_heap d running _ y p _ Hw Hrn Hrd Hy) as [(Hyc & Hp & Hyr)|(Hnow & [[-> ->]|[Hyr ->]])].
      * destruct (state p) eqn:Hs; try by (split; [|left]). exfalso. by apply Hyr, (running_unique d running y p).
      * done.
      * split; [|by right]. intros ->. eapply (ready_not_running (d_scheduler d) (d_heap d) _ (dw_sched _ _ Hw) Hrd).
        apply (slot_member _ 0). by rewrite Hrn, Hyr.
Qed.

Lemma clock_iter d n : 0 ≤ clock_now d → clock_now d + Z.of_nat n < 2 ^ 64 →
  SimulationClock.now (Nat.iter n SimulationClock.tick (d_clock d)) = clock_now d + Z.of_nat n.
Proof. intros H0 H. rewrite SimulationClock.iter_tick_now; [|symmetry]; apply u64_small; unfold clock_now in *; lia. Qed.

Lemma dispatch_passes q d pid0 im0 b res d' :
  fair_wf q d → waiting d (im_pcb im0) → d_processes d !! pid0 = Some im0 → (0 < b)%nat →
  clock_now d + Z.of_nat b < 2 ^ 64 → dispatch d b = Some (res, d') →
  (∃ s h, selects d pid0 im0 s h) ∨
  ∃ c continues, passed_over q d d' (im_pcb im0) c continues ∧ clock_now d' ≤ clock_now d + Z.of_nat b.
Proof.
  intros Hf (p0 & Hr & Hst & Hbefore) Hi0 Hb Hwrap Hd. pose proof (fw_wf _ _ Hf) as Hw. pose proof (fw_now _ _ Hf) as Hnow.
  destruct (one_lane q d Hf) as (ready & running & Hrd & _).
  destruct (dispatch_cases d b Hw) as [(e & _ & [[_ Hn]|[_ [Hn|[Hn _]]]])|(pid & x & s & h & Hsel &
    [[_ Hn]|(res0 & x' & w & Hx & Hw2 & Him & Hdd)])].
  - rewrite (fw_policy _ _ Hf) in Hn. done.
  - by rewrite Hn, lookup_empty in Hi0.
  - destruct (proj2 (member_heap d (im_pcb im0) Ready Hw)) as [[_ Hin]|[[? _]|[? _]]]; [by exists p0| |done|done].
    rewrite Hrd in Hn, Hin. injection Hn as ->. by apply elem_of_nil in Hin.
  - congruence.
  - pose proof Hsel as [_ Hi]. destruct (decide (im_pcb x = im_pcb im0)) as [He|Hne].
    { left. assert (pid = pid0) as -> by (by apply (pids_distinct None d pid pid0 x im0 Hw)). assert (x = im0) as -> by congruence. by exists s, h. }
    right. destruct (selected_heap q d pid x s h _ p0 Hf Hr Hst Hsel Hne) as (continues & Hcase & Hself & Hheap).
    destruct (selects_wf d pid x s h Hw Hsel) as (_ & _ & _ & Hl & _).
    destruct (law_execute _ _ _ _ _ _ _ (dw_world _ _ Hw) Hx) as (_ & _ & _ & Hticks).
    pose proof (law_budget _ _ _ _ _ _ _ (dw_world _ _ Hw) Hx) as Hfull.
    set (ticks := ExecutionResult.ticksConsumed res0) in *. set (d2 := burst_of d s h pid x' w ticks) in *.
    assert (clock_now d2 = clock_now d + Z.of_nat ticks) as Hc2.
    { apply (clock_iter d ticks); lia. }
    rewrite Hd in Hdd. destruct (burst_left d2 pid x' (ExecutionResult.reason res0) res d' Hw2) as (Hw' & Hcf & Hck & Hps & Hoth & Hc).
    { apply lookup_insert_eq. } { simpl. by rewrite Him. } { done. }
    assert (clock_now d' = clock_now d + Z.of_nat ticks) as Hc' by (unfold clock_now in *; by rewrite Hck).
    rewrite Him in *. exists (im_pcb x), continues. split; [|lia]. split; try done.
    + eapply config_trans; [|exact Hcf]. eapply config_select, (proj1 Hsel).
    + intros i im Hii Hri. rewrite Hps; [simpl|]; [rewrite lookup_insert_ne; [done|]|]; intros ->; congruence.
    + lia.
    + by rewrite Hoth.
    + intros y p Hy. destruct (Hc y p Hy) as [[Hp _]|(-> & _ & ?)]; [|right; lia].
      specialize (Hheap y p Hp).
      destruct (state p); destruct Hheap as [_ Hheap];
        (destruct Hheap as [?|?] || destruct continues); (by left) || (right; lia).
    + intros y p Hy Hs. destruct (Hc y p Hy) as [[Hp _]|(-> & ? & _)]; [|congruence].
      specialize (Hheap y p Hp). rewrite Hs in Hheap. destruct Hheap as [? [?|?]]; [by left|by right].
    + intros y p Hy Hs. destruct (Hc y p Hy) as [[Hp Hb']|(-> & ? & _)]; [|congruence].
      specialize (Hheap y p Hp). rewrite Hs in Hheap. destruct Hheap as [-> ?]. split; [|done].
      rewrite Hc', (Hfull (Hb' eq_refl)). lia.
Qed.

(** *** One call *)
Lemma fair_keep q d d' :
  fair_wf q d → disp_wf None d' → same_config (d_scheduler d) (d_scheduler d') →
  clock_now d ≤ clock_now d' < 2 ^ 64 →
  (∀ y p, d_heap d' !! y = Some p → d_heap d !! y = Some p ∨ clock_now d ≤ since p ≤ clock_now d') → fair_wf q d'.
Proof.
  intros [Hw Hp Hl Hn Hs] Hw' [Ec El] Hc Hsince. split; [done|congruence|congruence|lia|].
  intros r p Hr. destruct (Hsince r p Hr) as [Hr'|?]; [specialize (Hs r p Hr')|]; lia.
Qed.

Lemma waiting_keep d d' r :
  waiting d r → d_heap d' !! r = d_heap d !! r → clock_now d ≤ clock_now d' → waiting d' r.
Proof. intros (p & Hp & Hst & Hlt) Hr Hc. exists p. split_and!; [congruence|done|lia]. Qed.

(** A dispatch that passes [r] over brings it closer. *)
Lemma passed_bound q d d' r c continues :
  1 ≤ q → fair_wf q d → waiting d r → clock_now d' < 2 ^ 64 → passed_over q d d' r c continues →
  fair_wf q d' ∧ waiting d' r ∧ wait_bound q d' r + 1 ≤ wait_bound q d r.
Proof.
  intros Hq Hf Hwait Hwrap [Hw' Hc _ Hck Hself Hsince Hrdy Hrn Hcase].
  assert (fair_wf q d') as Hf' by by apply (fair_keep q d).
  split; [done|]. split; [by apply (waiting_keep d)|]. destruct Hwait as (p0 & Hp0 & Hst & Hlt).
  assert (∀ y, y ∈ ahead d' r → y ∈ ahead d r) as Hsub.
  { intros y. apply (ahead_shrinks d d' r p0); [apply Hf|done|done|congruence|].
    intros p Hp Hs. destruct (Hrdy y p Hp Hs) as [[_ ?]|?]; [by left|right; lia]. }
  pose proof (slice_nonneg q d). unfold wait_bound. destruct continues.
  - pose proof (ahead_length d d' r Hw' Hsub). assert (slice_left q d' ≤ slice_left q d - 1); [|nia].
    apply slice_bound; [done|lia|]. intros y p Hp Hs. destruct (Hrn y p Hp Hs) as [? Hold].
    rewrite (slice_running q d y p Hf Hold Hs) in *. lia.
  - destruct Hcase as [Hz Hin]. assert (c ∉ ahead d' r) as Hout.
    { intros [(p & Hp & Hs) Hb]%(ahead_elem d' r c Hw'). destruct (Hrdy c p Hp Hs) as [[? _]|Hnow]; [done|].
      assert (d_heap d' !! r = Some p0) as Hp0' by congruence.
      pose proof (goes_before_since _ _ _ _ _ Hp Hp0' Hb). lia. }
    pose proof (ahead_length_lt d d' r c Hw' Hsub Hin Hout). assert (slice_left q d' ≤ q - 1); [|nia].
    apply slice_bound; [done|lia|]. intros y p Hp Hs. destruct (Hrn y p Hp Hs). lia.
Qed.

(** A call that dispatches nobody does not push it back. *)
Lemma quiet_bound q d d' r :
  0 ≤ q → fair_wf q d → waiting d r → disp_wf None d' → same_config (d_scheduler d) (d_scheduler d') →
  clock_now d ≤ clock_now d' < 2 ^ 64 → d_heap d' !! r = d_heap d !! r →
  (∀ y p, d_heap d' !! y = Some p → d_heap d !! y = Some p ∨ state p = Ready ∧ since p = clock_now d) →
  fair_wf q d' ∧ waiting d' r ∧ wait_bound q d' r ≤ wait_bound q d r.
Proof.
  intros Hq Hf Hwait Hw' Hc Hck Hself Hheap.
  assert (fair_wf q d') as Hf'.
  { apply (fair_keep q d); try done. intros y p Hp. destruct (Hheap y p Hp) as [?|[_ ?]]; [by left|right; lia]. }
  split; [done|]. split; [by apply (waiting_keep d); [| |lia]|]. destruct Hwait as (p0 & Hp0 & Hst & Hlt).
  assert (length (ahead d' r) ≤ length (ahead d r))%nat.
  { apply ahead_length; [done|]. intros y. apply (ahead_shrinks d d' r p0); [apply Hf|done|done|congruence|].
    intros p Hp Hs. destruct (Hheap y p Hp) as [?|[_ ?]]; [by left|right; lia]. }
  pose proof (slice_nonneg q d). unfold wait_bound. assert (slice_left q d' ≤ slice_left q d); [|nia].
  apply slice_bound; [done|done|]. intros y p Hp Hs. destruct (Hheap y p Hp) as [Hold|[? _]]; [|congruence].
  rewrite (slice_running q d y p Hf Hold Hs). lia.
Qed.
End round_robin.
