(* ===== verification/FairTheorems.v ===== *)
(** * FairTheorems: under round robin nobody starves *)
From S2P Require Import Prelude Core Arch Process Policies Scheduler SchedInvariant SchedProps.
From S2P Require Import SchedSteps SchedRun SchedTheorems Cpu Paging Mmu MmuInvariant MmuProps.
From S2P Require Import VirtualMem Interp InterpTheorems Dispatcher DispatcherProps Machine DispatcherTheorems.
From S2P Require Import DispatcherFrame Fair.
Local Open Scope Z_scope.

(** ** The interpreter uses its budget up *)
Section full_budget.
Context {M Q : Type} `{HMem : !IMemory M} `{HLM : !LawfulMemory M}.
Context `{HPol : !IPageReplacementPolicy Q} `{HLP : !LawfulPolicy Q} `{HO : HashOrder}.

Lemma run_loop_full n pid t h (c : cpu_state M) res h' c' :
  run_loop n pid t h c = Some (res, h', c') → ExecutionResult.reason res = BudgetExhausted →
  ExecutionResult.ticksConsumed res = (t + n)%nat.
Proof.
  revert t c. induction n as [|n IH]; intros t c; cbn [run_loop]; [intros [= <- <- <-] _; simpl; lia|].
  case_decide; [by intros [= <- <- <-]|]. destruct (step c) as [[i c1]|]; cbn [mbind option_bind]; [|done].
  destruct (i =? Interrupt.Ok).
  - intros Hr Hb. rewrite (IH (S t) c1 Hr Hb). lia.
  - intros [= <- <- <-]. rewrite stop_result_reason. simpl. unfold reason_of. by repeat case_match.
Qed.

#[global] Instance machine_full_budget : FullBudget (machine M Q).
Proof.
  intros w pid im n res im' w' _. cbn [execute machine_engine interpreter_engine]. unfold run.
  case_decide; [by intros [= <- <- <-]|]. destruct (loadCode _ _) as [[] m]; [|by intros [= <- <- <-]].
  cbn [negb]. destruct (run_loop n pid 0 _ _) as [[[r h] c]|] eqn:Hr; cbn [mbind option_bind]; [|done].
  intros [= <- <- <-] Hb. by rewrite (run_loop_full _ _ _ _ _ _ _ _ Hr Hb).
Qed.
End full_budget.

(** ** Runs *)
Section runs.
Context `{HF : !FloatCast} {W : Type} `{HV : !IVirtualMemory W} `{HE : !IExecutionEngine W} `{HM : !LawfulMachine W}.
Context `{HB : !FullBudget W}.
Implicit Types (d : dispatcher Policies.policy W) (r pid q : Z) (im : ProcessImage).

(** The clock after a call has advanced by no more than this. *)
Definition op_ticks (op : disp_op) : Z :=
  match op with DDispatch budget => Z.of_nat budget | DTick => 1 | _ => 0 end.
Definition ticks_of (ops : list disp_op) : Z := foldr (λ op n, op_ticks op + n) 0 ops.
Definition is_dispatch (op : disp_op) : bool := match op with DDispatch _ => true | _ => false end.
Definition dispatches (ops : list disp_op) : Z := foldr (λ op n, (if is_dispatch op then 1 else 0) + n) 0 ops.

(** Valid pids, and no dispatch with an empty budget. *)
Definition fair_op (op : disp_op) : Prop :=
  match op with DDispatch budget => (0 < budget)%nat | _ => valid_op op end.
Lemma fair_valid op : fair_op op → valid_op op.
Proof. by destruct op. Qed.

Lemma clock_advance d n : 0 ≤ clock_now d → clock_now d + Z.of_nat n < 2 ^ 64 →
  clock_now (advanceClock d n) = clock_now d + Z.of_nat n.
Proof. apply (clock_iter d n). Qed.

Lemma moved_since h r st now y p : moved_to h r st now !! y = Some p → h !! y = Some p ∨ since p = now.
Proof.
  destruct (decide (y = r)) as [->|Hy]; [|rewrite moved_ne by done; by left].
  unfold moved_to. destruct (h !! r) as [p0|] eqn:Hp; [|by rewrite Hp].
  rewrite lookup_insert_eq. intros [= <-]. destruct (isValidTransition (state p0) st) eqn:Hv.
  - right. by apply setState_lastStateChange.
  - left. f_equal. unfold setState. by rewrite Hv.
Qed.

(** Round robin's invariant survives every call. *)
Lemma fair_dispatch q d b res d' :
  fair_wf q d → clock_now d + Z.of_nat b < 2 ^ 64 → dispatch d b = Some (res, d') →
  fair_wf q d' ∧ clock_now d' ≤ clock_now d + Z.of_nat b.
Proof.
  intros Hf Hwrap Hd. pose proof (fw_wf _ _ Hf) as Hw. pose proof (fw_now _ _ Hf) as Hnow.
  destruct (dispatch_cases d b Hw) as [(e & He & _)|(pid & x & s & h & Hsel & [[_ Hn]|(res0 & x' & w & Hx & Hw2 & Him & Hdd)])].
  { rewrite Hd in He. injection He as -> ->. split; [done|lia]. } { congruence. }
  destruct (selects_wf d pid x s h Hw Hsel) as (_ & _ & _ & Hl & _).
  destruct (law_execute _ _ _ _ _ _ _ (dw_world _ _ Hw) Hx) as (_ & _ & _ & Hticks).
  set (ticks := ExecutionResult.ticksConsumed res0) in *. set (d2 := burst_of d s h pid x' w ticks) in *.
  assert (clock_now d2 = clock_now d + Z.of_nat ticks) as Hc2 by (apply (clock_advance d ticks); lia).
  rewrite Hd in Hdd. destruct (burst_left d2 pid x' (ExecutionResult.reason res0) res d' Hw2) as (Hw' & Hcf & Hck & _ & _ & Hc).
  { apply lookup_insert_eq. } { simpl. by rewrite Him. } { done. }
  assert (clock_now d' = clock_now d + Z.of_nat ticks) as Hc' by (unfold clock_now in *; by rewrite Hck).
  split; [|lia]. apply (fair_keep q d); try done; [|lia|].
  { eapply config_trans; [|exact Hcf]. eapply config_select, (proj1 Hsel). }
  intros y p Hy. destruct (Hc y p Hy) as [[Hp _]|(_ & _ & ?)]; [|right; lia].
  destruct (selectNext_ok _ _ 0 (SimulationClock.now (d_clock d)) (dw_sched _ _ Hw)) as (r0 & s0 & h0 & Hs0 & _ & _ & _ & Hres).
  rewrite (selects_call _ _ _ _ _ Hsel) in Hs0. injection Hs0 as <- <- <-.
  destruct Hres as (r & ready & running & _ & _ & _ & _ & [(_ & _ & ->)|(_ & _ & _ & _ & ->)]); [by left|].
  apply moved_since in Hp as [Hp|]; [|right; unfold clock_now in *; lia].
  destruct running; [|by left]. apply moved_since in Hp as [|]; [by left|right; unfold clock_now in *; lia].
Qed.

(** The calls that dispatch nobody: one block is new and ready, or one is
    gone, or only the clock moves. *)
Lemma quiet_effect d op res d' :
  disp_wf None d → valid_op op → is_dispatch op = false → 0 ≤ clock_now d → clock_now d + op_ticks op < 2 ^ 64 →
  disp_step d op = Some (res, d') →
  disp_wf None d' ∧ same_config (d_scheduler d) (d_scheduler d') ∧ clock_now d' = clock_now d + op_ticks op ∧
  (∀ y p, d_heap d' !! y = Some p → d_heap d !! y = Some p ∨ state p = Ready ∧ since p = clock_now d) ∧
  (∀ pid im, op ≠ DTerminate pid → d_processes d !! pid = Some im →
     d_processes d' !! pid = Some im ∧ d_heap d' !! im_pcb im = d_heap d !! im_pcb im).
Proof.
  intros Hw Hv Hq H0 Hwrap Hs. destruct (disp_step_ok d op Hw Hv) as [(res0 & d0 & Hs0 & Hw')|(b & pid & im & s & h & -> & _)]; [|done].
  rewrite Hs in Hs0. injection Hs0 as <- <-. split; [done|].
  destruct op as [id name code prio arrival|b|i|]; cbn [disp_step op_ticks] in *; cbv zeta in *; [|done|..].
  - destruct (new_image_ok d id name code prio arrival Hw Hv)
      as (p & x & d1 & Hn & Hx & Hw1 & Hp & Hid & Hst & E1 & _ & E2 & E3 & E4). rewrite Hn in Hs. cbv beta iota in Hs.
    destruct (createProcess_framed d1 x p _ res d' Hw1 Hp Hst Hs) as (Hc & Hk & Ho & Hself).
    destruct (createProcess_ok d1 x p (SimulationClock.now (d_clock d)) Hw1 Hp Hst) as (r0 & d2 & Hs2 & _ & _ & Hres).
    rewrite Hs in Hs2. injection Hs2 as <- <-.
    assert (∀ y, y ≠ im_pcb x → d_heap d' !! y = d_heap d !! y) as Hframe.
    { intros y Hy. rewrite Ho, E4 by done. by rewrite lookup_insert_ne. }
    split_and!; [by rewrite <-E1|unfold clock_now; rewrite Hk, E2; lia|..].
    + intros y q Hy. destruct (decide (y = im_pcb x)) as [->|Hne]; [right; by apply Hself|left; by rewrite <-Hframe].
    + intros pid im _ Hi. split.
      * destruct res; destruct Hres as [H1 H2]; [destruct H2 as [-> _]|by rewrite H1, E3].
        rewrite lookup_insert_ne, E3; [done|]. rewrite E3 in H1. intros Heq. rewrite Heq in H1. congruence.
      * apply Hframe. intros Heq. destruct (wf_consistent d Hw) as (_ & Hheap & _).
        destruct (proj2 (Hheap (im_pcb im))) as [p' Hp']; [by exists pid, im|].
        pose proof (dw_fresh _ _ Hw (im_pcb im) (mk_is_Some _ _ Hp')). rewrite Heq, Hx in H. simpl in H. lia.
  - pose proof (terminateProcess_framed d i _ res d' Hw Hs) as Hfr.
    pose proof (terminateProcess_ok d i (SimulationClock.now (d_clock d)) Hw) as Ht.
    destruct (d_processes d !! i) as [x|] eqn:Hx; [|subst d'; split_and!; try done; [lia|by left]].
    destruct Hfr as (Hc & Hk & Ho & Hself). destruct Ht as (d2 & Ht & _ & E1 & _). rewrite Hs in Ht. injection Ht as _ <-.
    split_and!; [done|unfold clock_now; rewrite Hk; lia|..].
    + intros y p Hy. destruct (decide (y = im_pcb x)) as [->|Hne]; [by destruct (Hself p Hy)|left; by rewrite <-Ho].
    + intros pid im Hne Hi. assert (i ≠ pid) as Hip by congruence. split; [by rewrite E1, lookup_delete_ne|].
      apply Ho. intros Heq. apply Hip. symmetry. by apply (pids_distinct None d pid i im x Hw).
  - injection Hs as <- <-. split_and!; [done|apply (clock_advance d 1); lia|by left|done].
Qed.

Lemma fair_step q d op res d' :
  fair_wf q d → fair_op op → clock_now d + op_ticks op < 2 ^ 64 → disp_step d op = Some (res, d') →
  fair_wf q d' ∧ clock_now d' ≤ clock_now d + op_ticks op.
Proof.
  intros Hf Hop Hwrap Hs. pose proof (fw_now _ _ Hf). destruct (is_dispatch op) eqn:Hd.
  - destruct op as [|b| |]; try done. by apply (fair_dispatch q d b res).
  - destruct (quiet_effect d op res d') as (Hw' & Hc & Hck & Hh & _); try done; [apply Hf|by apply fair_valid|lia|].
    split; [|lia]. assert (0 ≤ op_ticks op) by (destruct op; simpl; lia). apply (fair_keep q d); try done; [lia|].
    intros y p Hy. destruct (Hh y p Hy) as [?|[_ ?]]; [by left|right; lia].
Qed.

(** A call serves the waiting process or brings it closer. *)
Lemma waiting_step q d op res d' pid im :
  1 ≤ q → fair_wf q d → d_processes d !! pid = Some im → waiting d (im_pcb im) →
  fair_op op → op ≠ DTerminate pid → clock_now d + op_ticks op < 2 ^ 64 → disp_step d op = Some (res, d') →
  (∃ budget s h, op = DDispatch budget ∧ selects d pid im s h) ∨
  (d_processes d' !! pid = Some im ∧ waiting d' (im_pcb im) ∧
   wait_bound q d' (im_pcb im) + (if is_dispatch op then 1 else 0) ≤ wait_bound q d (im_pcb im)).
Proof.
  intros Hq Hf Hi Hwait Hop Hne Hwrap Hs. pose proof (fw_now _ _ Hf). destruct (is_dispatch op) eqn:Hd.
  - destruct op as [|b| |]; try done. simpl in Hop, Hwrap.
    destruct (dispatch_passes q d pid im b res d' Hf Hwait Hi Hop Hwrap Hs) as [(s & h & Hsel)|(c & k & Hpo & Hck)].
    + left. by exists b, s, h.
    + right. split; [by apply (po_image _ _ _ _ _ _ Hpo)|].
      apply (passed_bound q d d' _ c k Hq Hf Hwait); [lia|done].
  - right. destruct (quiet_effect d op res d') as (Hw' & Hc & Hck & Hh & Ho); try done; [apply Hf|by apply fair_valid|lia|].
    destruct (Ho pid im Hne Hi) as [Hi' Hself]. split; [done|]. rewrite Z.add_0_r.
    assert (0 ≤ op_ticks op) by (destruct op; simpl; lia).
    by apply (quiet_bound q d d'); try done; lia.
Qed.

Lemma ticks_nonneg ops : 0 ≤ ticks_of ops.
Proof. induction ops as [|op ops IH]; simpl; [done|]. assert (0 ≤ op_ticks op) by (destruct op; simpl; lia). lia. Qed.
Lemma op_ticks_app ops1 ops2 : ticks_of (ops1 ++ ops2) = ticks_of ops1 + ticks_of ops2.
Proof. induction ops1 as [|op ops1 IH]; simpl; [done|]. lia. Qed.

Lemma fair_run q d ops rs d' :
  fair_wf q d → Forall fair_op ops → clock_now d + ticks_of ops < 2 ^ 64 → disp_run d ops = Some (rs, d') →
  fair_wf q d' ∧ clock_now d' ≤ clock_now d + ticks_of ops.
Proof.
  revert d rs. induction ops as [|op ops IH]; intros d rs Hf Hops Hwrap; cbn [disp_run ticks_of foldr] in *.
  { intros [= <- <-]. split; [done|lia]. }
  apply Forall_cons in Hops as [Hop Hops]. pose proof (ticks_nonneg ops). fold (ticks_of ops) in *.
  destruct (disp_step d op) as [[r d1]|] eqn:Hs; cbv beta iota; [|done].
  destruct (disp_run d1 ops) as [[rs1 d2]|] eqn:Hr; cbv beta iota; [|done]. intros [= <- <-].
  destruct (fair_step q d op r d1 Hf Hop ltac:(lia) Hs) as [Hf1 Hc1].
  destruct (IH d1 rs1 Hf1 Hops ltac:(lia) Hr). split; [done|lia].
Qed.

Lemma serve_run q d ops rs d' pid im :
  1 ≤ q → fair_wf q d → d_processes d !! pid = Some im → waiting d (im_pcb im) →
  Forall (λ op, fair_op op ∧ op ≠ DTerminate pid) ops → clock_now d + ticks_of ops < 2 ^ 64 →
  disp_run d ops = Some (rs, d') → wait_bound q d (im_pcb im) < dispatches ops →
  ∃ ops1 budget ops2 rs1 d1 s h, ops = ops1 ++ DDispatch budget :: ops2 ∧ disp_run d ops1 = Some (rs1, d1) ∧
    selects d1 pid im s h ∧ dispatches ops1 ≤ wait_bound q d (im_pcb im).
Proof.
  intros Hq. revert d rs. induction ops as [|op ops IH]; intros d rs Hf Hi Hwait Hops Hwrap;
    cbn [disp_run ticks_of dispatches foldr] in *.
  { intros _ Hlt. unfold wait_bound in Hlt. pose proof (slice_nonneg q d). lia. }
  fold (ticks_of ops) in *. fold (dispatches ops).
  apply Forall_cons in Hops as [[Hop Hne] Hops]. pose proof (ticks_nonneg ops).
  assert (0 ≤ wait_bound q d (im_pcb im)) as H0 by (unfold wait_bound; pose proof (slice_nonneg q d); lia).
  destruct (disp_step d op) as [[r d1]|] eqn:Hs; cbv beta iota; [|done].
  destruct (disp_run d1 ops) as [[rs1 d2]|] eqn:Hr; cbv beta iota; [|done]. intros [= <- <-] Hlt.
  destruct (waiting_step q d op r d1 pid im Hq Hf Hi Hwait Hop Hne ltac:(lia) Hs) as
    [(b & s & h & -> & Hsel)|(Hi1 & Hw1 & Hb1)].
  { exists [], b, ops, [], d, s, h. by split_and!. }
  destruct (fair_step q d op r d1 Hf Hop ltac:(lia) Hs) as [Hf1 Hc1].
  destruct (IH d1 rs1 Hf1 Hi1 Hw1 Hops ltac:(lia) Hr ltac:(lia)) as (ops1 & b & ops2 & rs2 & d3 & s & h & -> & Hr1 & Hsel & Hn).
  exists (op :: ops1), b, ops2, (r :: rs2), d3, s, h. split; [done|]. split; [cbn [disp_run]; by rewrite Hs, Hr1|].
  split; [done|]. cbn [dispatches foldr]. fold (dispatches ops1). lia.
Qed.

Lemma make_fair q w c :
  machine_inv w → slot_owners w = ∅ → 0 ≤ SimulationClock.now c < 2 ^ 64 →
  fair_wf q (Dispatcher_make (Scheduler_make (Some (RoundRobin q))) w c).
Proof.
  intros Hi Ho Hc. split; [by apply make_wf|done|done|done|]. intros r p. simpl. by rewrite lookup_empty.
Qed.

(** C11: round robin starves nobody.  In a state reached from an empty dispatcher
    with one lane and slice [q], take a process that has been ready since before
    the current tick.  Any run that goes on with more than [wait_bound] dispatches
    selects it, after at most [wait_bound] others: a slice for each process of
    the queue that became ready before it, and what is left of the running one's,
    whatever processes are created, terminated, interrupted or preempted in
    between, as long as the 64-bit clock does not wrap around. *)
Theorem round_robin_serves q w c ops0 rs0 d pid im ops rs d' :
  machine_inv w → slot_owners w = ∅ → 1 ≤ q → Forall fair_op ops0 →
  0 ≤ SimulationClock.now c → SimulationClock.now c + ticks_of (ops0 ++ ops) < 2 ^ 64 →
  disp_run (Dispatcher_make (Scheduler_make (Some (RoundRobin q))) w c) ops0 = Some (rs0, d) →
  d_processes d !! pid = Some im → waiting d (im_pcb im) →
  Forall (λ op, fair_op op ∧ op ≠ DTerminate pid) ops → disp_run d ops = Some (rs, d') →
  wait_bound q d (im_pcb im) < dispatches ops →
  ∃ ops1 budget ops2 rs1 d1 s h, ops = ops1 ++ DDispatch budget :: ops2 ∧ disp_run d ops1 = Some (rs1, d1) ∧
    selects d1 pid im s h ∧ dispatches ops1 ≤ wait_bound q d (im_pcb im).
Proof.
  intros Hi Ho Hq Hops0 Hc Hwrap Hr0. rewrite op_ticks_app in Hwrap.
  pose proof (ticks_nonneg ops0). pose proof (ticks_nonneg ops).
  destruct (fair_run q _ ops0 rs0 d (make_fair q w c Hi Ho ltac:(lia)) Hops0) as [Hf Hck]; [simpl; unfold clock_now; simpl; lia|done|].
  unfold clock_now at 2 in Hck. simpl in Hck. intros. eapply serve_run; try done. lia.
Qed.
End runs.

(** ** A concrete run: three loops and a slice of two ticks *)
Section demo.
#[local] Instance demo_order : HashOrder := canonical_order.
#[local] Instance demo_cast : FloatCast := λ _, 0.

Notation rr_start := (Dispatcher_make (Scheduler_make (Some (RoundRobin 2))) demo_world SimulationClock.init).

(** A program that jumps to itself. *)
Definition looping (id : Z) : disp_op := DCreate id "loop" [MkBlock JumpNotEqual 0 0 0] Priority_default 0.
Definition rr_ops0 : list disp_op := [looping 3; looping 2; DTick; looping 1].
Definition rr_ops : list disp_op := [DDispatch 2; looping 4; DDispatch 1; DTick; DDispatch 2; DDispatch 1].

Lemma rr_ops0_fair : Forall fair_op rr_ops0.
Proof. unfold rr_ops0. repeat (apply Forall_cons; split; [discriminate||exact I|]). by apply Forall_nil. Qed.
Lemma rr_ops_fair : Forall (λ op, fair_op op ∧ op ≠ DTerminate 3) rr_ops.
Proof. repeat first [apply Forall_nil_2 | apply Forall_cons_2; [split; [first [lia|discriminate|cbn; lia]|discriminate]|]]. Qed.

Definition rr_after : dispatcher Policies.policy (machine PhysicalMemory.t ClockReplacement.t) :=
  match disp_run rr_start rr_ops0 with Some (_, d) => d | None => rr_start end.

Lemma rr_reached : ∃ rs0, disp_run rr_start rr_ops0 = Some (rs0, rr_after).
Proof.
  assert (bool_decide (is_Some (disp_run rr_start rr_ops0)) = true) as Hs by (vm_compute; reflexivity).
  apply bool_decide_eq_true_1 in Hs as [[rs d] Hr]. exists rs. unfold rr_after. by rewrite Hr.
Qed.
Lemma rr_goes_on : ∃ rs d, disp_run rr_after rr_ops = Some (rs, d).
Proof.
  assert (bool_decide (is_Some (disp_run rr_after rr_ops)) = true) as Hs by (vm_compute; reflexivity).
  apply bool_decide_eq_true_1 in Hs as [[rs d] Hr]. by exists rs, d.
Qed.
Lemma rr_waits : ∃ im, d_processes rr_after !! 3 = Some im ∧ waiting rr_after (im_pcb im) ∧
  wait_bound 2 rr_after (im_pcb im) = 2.
Proof.
  assert (im_pcb <$> d_processes rr_after !! 3 = Some 0) as Hi by (vm_compute; reflexivity).
  apply fmap_Some in Hi as (im & Hi & Him). exists im. rewrite <-Him. split; [done|].
  split; [|vm_compute; reflexivity].
  assert ((λ p, (state p, since p)) <$> d_heap rr_after !! 0 = Some (Ready, 0)) as Hp by (vm_compute; reflexivity).
  apply fmap_Some in Hp as (p & Hp & Hs). injection Hs as Hs1 Hs2. exists p. split_and!; [done|done|].
  rewrite <-Hs2. vm_compute. reflexivity.
Qed.

(** Process 3 waits behind process 2, for one slice. *)
Lemma round_robin_serves_witness :
  ∃ im, d_processes rr_after !! 3 = Some im ∧ waiting rr_after (im_pcb im) ∧
    ∃ ops1 budget ops2 rs1 d1 s h, rr_ops = ops1 ++ DDispatch budget :: ops2 ∧
      disp_run rr_after ops1 = Some (rs1, d1) ∧ selects d1 3 im s h ∧ dispatches ops1 ≤ 2.
Proof.
  destruct rr_reached as (rs0 & Hr0). destruct rr_goes_on as (rs & d' & Hr). destruct rr_waits as (im & Hi & Hwait & Hb).
  exists im. split; [exact Hi|]. split; [exact Hwait|].
  pose proof (round_robin_serves 2 demo_world SimulationClock.init rr_ops0 rs0 rr_after 3 im rr_ops rs d'
    demo_world_inv demo_world_empty) as H. rewrite Hb in H.
  apply H; [lia|exact rr_ops0_fair|vm_compute; discriminate|vm_compute; reflexivity|exact Hr0|exact Hi|exact Hwait|exact rr_ops_fair|exact Hr|vm_compute; reflexivity].
Defined.
End demo.
