(* ===== verification/Runtime.v ===== *)
(** * Runtime: the dispatch runtimes of [dispatch/]

    Dispatchers behind their interface, the composite that spreads processes
    over several of them ([mp_dispatcher.cpp]), and the two strategies that run
    a list of lanes: one after the other ([serial_dispatch_runtime.cpp]) or on a
    pool of host threads ([dispatcher_pool.cpp]).  The pool is a state machine
    whose steps are what one thread does between two points where another can
    interfere: holding the pool's mutex, one atomic operation, or one call on a
    lane, which no two threads ever make on the same lane at once. *)
From stdpp Require Import pretty.
From S2P Require Import Prelude Core Arch Process Interp.
Local Open Scope Z_scope.

(** A [std::unique_ptr<ProcessImage>]: nobody else refers to the image, so it
    travels by value. *)
Record OwnedImage := MkOwned { oi_pcb : PCB; oi_registers : list Z; oi_code : list Block }.

(** ** The interface [IDispatcher]: [dispatch/i_dispatcher.h] *)
Class IDispatcher (D : Type) := {
  createProcess : D → option OwnedImage → Z → option (Result unit * D);
  dispatch : D → nat → option (Result unit * D);
  terminateProcess : D → Z → Z → option (Result unit * D);
  tick : D → option D;
  processCount : D → nat;
  hasProcess : D → Z → bool
}.

#[global] Hint Mode IDispatcher ! : typeclass_instances.

(** ** The interface [IDispatchRuntime]: [dispatch/i_dispatch_runtime.h]

    [DispatcherLanes] holds references to distinct dispatchers; a call answers
    with the lanes' new states. *)
Class IDispatchRuntime (R D : Type) := {
  rt_dispatch : R → list D → nat → option (Result unit * list D * R);
  rt_tick : R → list D → option (list D * R)
}.

#[global] Hint Mode IDispatchRuntime ! - : typeclass_instances.

(** ** [dispatch/threading_config.h] *)
Record HostThreadingConfig := MkConfig {
  hostThreadCount : nat;
  deterministicMode : bool;
  workStealingEnabled : bool
}.
Definition HostThreadingConfig_default : HostThreadingConfig := MkConfig 1 true false.
Definition with_threads (c : HostThreadingConfig) (n : nat) : HostThreadingConfig :=
  MkConfig n (deterministicMode c) (workStealingEnabled c).
Definition without_stealing (c : HostThreadingConfig) : HostThreadingConfig :=
  MkConfig (hostThreadCount c) (deterministicMode c) false.
Definition isValid (c : HostThreadingConfig) : bool := (1 <=? hostThreadCount c)%nat.
Definition isSingleThreaded (c : HostThreadingConfig) : bool := (hostThreadCount c =? 1)%nat.
Definition normalized (c : HostThreadingConfig) : HostThreadingConfig :=
  let c := if (hostThreadCount c =? 0)%nat then with_threads c 1 else c in
  if isSingleThreaded c then without_stealing c else c.
Definition normalizePoolConfig (config : HostThreadingConfig) : HostThreadingConfig :=
  let c := normalized config in
  let c := if (hostThreadCount c =? 0)%nat then with_threads c 1 else c in
  if isSingleThreaded c then without_stealing c else c.

(** ** [serial_dispatch_runtime.cpp] *)
Module SerialDispatchRuntime.
Section serial.
Context {D : Type} `{!IDispatcher D}.

Record t := Mk { config : HostThreadingConfig }.
Definition make (c : HostThreadingConfig) : t := Mk (without_stealing (with_threads (normalized c) 1)).

(** The loop over the lanes, with [anySuccess] and [firstError]. *)
Fixpoint loop (lanes : list D) (budget : nat) (anySuccess : bool) (firstError : ErrorCode.t)
    : option (bool * ErrorCode.t * list D) :=
  match lanes with
  | [] => Some (anySuccess, firstError, [])
  | d :: rest =>
      let! (result, d') := dispatch d budget in
      let '(any, first) :=
        match result with
        | ok _ => (true, firstError)
        | error e =>
            (anySuccess,
             if bool_decide (firstError = ErrorCode.Ok) && negb (bool_decide (e = ErrorCode.NotFound))
             then e else firstError)
        end in
      let! (any', first', rest') := loop rest budget any first in Some (any', first', d' :: rest')
  end.
Definition outcome (anySuccess : bool) (firstError : ErrorCode.t) : Result unit :=
  if anySuccess then ok tt
  else if negb (bool_decide (firstError = ErrorCode.Ok)) then error firstError
  else error ErrorCode.NotFound.
Definition dispatch_lanes (lanes : list D) (tickBudget : nat) : option (Result unit * list D) :=
  match lanes with
  | [] => Some (error ErrorCode.InvalidState, lanes)
  | _ => let! (any, first, lanes') := loop lanes tickBudget false ErrorCode.Ok in Some (outcome any first, lanes')
  end.
Definition tick_lanes (lanes : list D) : option (list D) := mapM tick lanes.

#[global] Instance runtime : IDispatchRuntime t D := {|
  rt_dispatch r lanes budget := let! (res, lanes') := dispatch_lanes lanes budget in Some (res, lanes', r);
  rt_tick r lanes := let! lanes' := tick_lanes lanes in Some (lanes', r)
|}.
End serial.
End SerialDispatchRuntime.

(** ** [mp_dispatcher.cpp] *)
Module MPDispatcher.
Section mp.
Context {D R : Type} `{!IDispatcher D} `{!IDispatchRuntime R D}.

Record t := Mk { dispatchers : list D; runtime : R }.
Definition with_dispatchers (m : t) (l : list D) : t := Mk l (runtime m).

Definition createProcess (m : t) (process : option OwnedImage) (currentTick : Z) : option (Result unit * t) :=
  match process with
  | None => Some (error ErrorCode.InvalidArgument, m)
  | Some im =>
      if decide (dispatchers m = []) then Some (error ErrorCode.InvalidState, m) else
      let pid := pcb_id (oi_pcb im) in
      if pid =? INVALID_PID then Some (error ErrorCode.InvalidPid, m) else
      let target := Z.to_nat (pid mod Z.of_nat (length (dispatchers m))) in
      let! d := dispatchers m !! target in
      let! (r, d') := Runtime.createProcess d (Some im) currentTick in
      Some (r, with_dispatchers m (<[target := d']> (dispatchers m)))
  end.

Definition dispatch (m : t) (tickBudget : nat) : option (Result unit * t) :=
  let! (r, lanes, rt) := rt_dispatch (runtime m) (dispatchers m) tickBudget in Some (r, Mk lanes rt).

(** The first lane that has the process. *)
Fixpoint terminate_in (lanes : list D) (pid now : Z) : option (Result unit * list D) :=
  match lanes with
  | [] => Some (error ErrorCode.NotFound, [])
  | d :: rest =>
      if Runtime.hasProcess d pid
      then let! (r, d') := Runtime.terminateProcess d pid now in Some (r, d' :: rest)
      else let! (r, rest') := terminate_in rest pid now in Some (r, d :: rest')
  end.
Definition terminateProcess (m : t) (pid currentTick : Z) : option (Result unit * t) :=
  let! (r, lanes) := terminate_in (dispatchers m) pid currentTick in Some (r, with_dispatchers m lanes).
Definition tick (m : t) : option t :=
  let! (lanes, rt) := rt_tick (runtime m) (dispatchers m) in Some (Mk lanes rt).
Definition processCount (m : t) : nat := sum_list_with Runtime.processCount (dispatchers m).
Definition hasProcess (m : t) (pid : Z) : bool := existsb (λ d, Runtime.hasProcess d pid) (dispatchers m).

(** A composite is a dispatcher itself. *)
#[global] Instance dispatcher : IDispatcher t := {|
  Runtime.createProcess := createProcess;
  Runtime.dispatch := dispatch;
  Runtime.terminateProcess := terminateProcess;
  Runtime.tick := tick;
  Runtime.processCount := processCount;
  Runtime.hasProcess := hasProcess
|}.
End mp.
Arguments t : clear implicits.
End MPDispatcher.

(** ** [dispatcher_pool.cpp] *)
Module DispatcherPool.

Inductive JobKind := NoJob | DispatchJob | TickJob.

(** The fields of a [TraceEvent] the pool fills in. *)
Record TraceEvent := MkEvent {
  subsystem : string;
  operation : string;
  details : string;
  workerId : nat;
  sequence : nat;
  epoch : Z
}.

(** What a worker copied under the lock when it woke up. *)
Record local := MkLocal { l_token : Z; l_job : JobKind; l_budget : nat; l_count : nat }.

(** Where a worker thread is in [workerLoop]: waiting for a job token other
    than the one it has seen; at the head of the loop over lanes; about to call
    a lane; about to append a trace event; about to report completion; returned. *)
Inductive worker :=
| Waiting (seenJobToken : Z)
| Looping (l : local) (laneIndex : nat)
| Serving (l : local) (laneIndex : nat)
| Tracing (l : local) (laneIndex : nat)
| Reporting (l : local)
| Exited.

Record t := Mk {
  config : HostThreadingConfig;
  workers : list worker;
  stopping : bool;
  startupFailed : bool;
  jobToken : Z;
  completedWorkers : nat;
  currentJob : JobKind;
  has_lanes : bool;
  tickBudget : nat;
  activeWorkers : nat;
  nextLane : nat;
  epochCounter : Z;
  traceSequence : nat;
  laneErrors : list ErrorCode.t;
  lastEpoch : Z;
  lastDeterministicOrder : list nat;
  lastTraceEvents : list TraceEvent;
  perWorkerTraces : list (list TraceEvent)
}.

Definition make (c : HostThreadingConfig) : t :=
  Mk (normalizePoolConfig c) [] false false 0 0 NoJob false 0 0 0 0 0 [] 0 [] [] [].

Definition set_workers (p : t) (ws : list worker) : t :=
  Mk (config p) ws (stopping p) (startupFailed p) (jobToken p) (completedWorkers p) (currentJob p) (has_lanes p)
    (tickBudget p) (activeWorkers p) (nextLane p) (epochCounter p) (traceSequence p) (laneErrors p) (lastEpoch p)
    (lastDeterministicOrder p) (lastTraceEvents p) (perWorkerTraces p).
Definition set_pc (p : t) (i : nat) (w : worker) : t := set_workers p (<[i := w]> (workers p)).
Definition set_nextLane (p : t) (n : nat) : t :=
  Mk (config p) (workers p) (stopping p) (startupFailed p) (jobToken p) (completedWorkers p) (currentJob p) (has_lanes p)
    (tickBudget p) (activeWorkers p) n (epochCounter p) (traceSequence p) (laneErrors p) (lastEpoch p)
    (lastDeterministicOrder p) (lastTraceEvents p) (perWorkerTraces p).
Definition set_error (p : t) (lane : nat) (e : ErrorCode.t) : t :=
  Mk (config p) (workers p) (stopping p) (startupFailed p) (jobToken p) (completedWorkers p) (currentJob p) (has_lanes p)
    (tickBudget p) (activeWorkers p) (nextLane p) (epochCounter p) (traceSequence p) (<[lane := e]> (laneErrors p))
    (lastEpoch p) (lastDeterministicOrder p) (lastTraceEvents p) (perWorkerTraces p).
Definition count_completed (p : t) : t :=
  Mk (config p) (workers p) (stopping p) (startupFailed p) (jobToken p) (S (completedWorkers p)) (currentJob p)
    (has_lanes p) (tickBudget p) (activeWorkers p) (nextLane p) (epochCounter p) (traceSequence p) (laneErrors p)
    (lastEpoch p) (lastDeterministicOrder p) (lastTraceEvents p) (perWorkerTraces p).

(** [stopWorkers]: raise the flag, wake everybody and join them; a worker that
    wakes with the flag up returns at once ([worker_step]). *)
Definition request_stop (p : t) : t :=
  Mk (config p) (workers p) true (startupFailed p) (u64 (jobToken p + 1)) (completedWorkers p) (currentJob p)
    (has_lanes p) (tickBudget p) (activeWorkers p) (nextLane p) (epochCounter p) (traceSequence p) (laneErrors p)
    (lastEpoch p) (lastDeterministicOrder p) (lastTraceEvents p) (perWorkerTraces p).
Definition stopWorkers (p : t) : t := set_workers (request_stop p) [].

(** [thread_starts i]: the host manages to start the [i]-th thread; creating a
    [std::thread] throws otherwise. *)
Definition fail_startup (p : t) : t :=
  stopWorkers
    (Mk (config p) (workers p) (stopping p) true (jobToken p) (completedWorkers p) (currentJob p) (has_lanes p)
      (tickBudget p) (activeWorkers p) (nextLane p) (epochCounter p) (traceSequence p) (laneErrors p)
      (lastEpoch p) (lastDeterministicOrder p) (lastTraceEvents p) (perWorkerTraces p)).
Definition start_all (p : t) : t :=
  let n := hostThreadCount (config p) in
  Mk (config p) (replicate n (Waiting 0)) (stopping p) (startupFailed p) (jobToken p) (completedWorkers p)
    (currentJob p) (has_lanes p) (tickBudget p) (activeWorkers p) (nextLane p) (epochCounter p) (traceSequence p)
    (laneErrors p) (lastEpoch p) (lastDeterministicOrder p) (lastTraceEvents p)
    (take n (perWorkerTraces p) ++ replicate (n - length (perWorkerTraces p)) []).
Definition ensureWorkersStarted (thread_starts : nat → bool) (p : t) : bool * t :=
  match workers p with
  | _ :: _ => (true, p)
  | [] =>
      if startupFailed p then (false, p)
      else if forallb thread_starts (seq 0 (hostThreadCount (config p))) then (true, start_all p)
      else (false, fail_startup p)
  end.

Definition resetJobState (p : t) (nextJob : JobKind) (lanes nextTickBudget : nat) : t :=
  Mk (config p) (workers p) (stopping p) (startupFailed p) (u64 (jobToken p + 1)) 0 nextJob true nextTickBudget
    (min (length (workers p)) lanes) 0 (u64 (epochCounter p + 1)) 0 (replicate lanes ErrorCode.NotFound)
    (u64 (epochCounter p + 1)) [] [] (replicate (length (perWorkerTraces p)) []).

Definition not_later (a b : TraceEvent) : Prop := (sequence a ≤ sequence b)%nat.
#[global] Instance not_later_dec : RelDecision not_later.
Proof. intros a b. unfold not_later. apply _. Defined.

(** The keys are pairwise distinct, so that [std::sort] being unstable does not
    show. *)
Definition mergeWorkerTraces (p : t) : t :=
  let events := merge_sort not_later (concat (perWorkerTraces p)) in
  Mk (config p) (workers p) (stopping p) (startupFailed p) (jobToken p) (completedWorkers p) (currentJob p) (has_lanes p)
    (tickBudget p) (activeWorkers p) (nextLane p) (epochCounter p) (traceSequence p) (laneErrors p) (lastEpoch p)
    (if deterministicMode (config p) then map sequence events else []) events (perWorkerTraces p).

(** The wait is over when every worker has reported. *)
Definition waitForJobCompletion (p : t) : option t :=
  if (completedWorkers p =? length (workers p))%nat then
    Some (mergeWorkerTraces
      (Mk (config p) (workers p) (stopping p) (startupFailed p) (jobToken p) (completedWorkers p) NoJob false 0 0
        (nextLane p) (epochCounter p) (traceSequence p) (laneErrors p) (lastEpoch p) (lastDeterministicOrder p)
        (lastTraceEvents p) (perWorkerTraces p)))
  else None.

Definition appendTraceEvent (p : t) (workerIndex laneIndex : nat) (op : string) : t :=
  let det := deterministicMode (config p) in
  let event := MkEvent "dispatch.runtime" op ("lane=" +:+ pretty laneIndex) workerIndex
    (if det then laneIndex else traceSequence p) (lastEpoch p) in
  Mk (config p) (workers p) (stopping p) (startupFailed p) (jobToken p) (completedWorkers p) (currentJob p) (has_lanes p)
    (tickBudget p) (activeWorkers p) (nextLane p) (epochCounter p)
    (if det then traceSequence p else S (traceSequence p)) (laneErrors p) (lastEpoch p) (lastDeterministicOrder p)
    (lastTraceEvents p) (alter (λ l, l ++ [event]) workerIndex (perWorkerTraces p)).

Fixpoint aggregate (codes : list ErrorCode.t) (anySuccess : bool) (firstError : ErrorCode.t) : bool * ErrorCode.t :=
  match codes with
  | [] => (anySuccess, firstError)
  | code :: rest =>
      if bool_decide (code = ErrorCode.Ok) then aggregate rest true firstError
      else aggregate rest anySuccess
        (if bool_decide (firstError = ErrorCode.Ok) && negb (bool_decide (code = ErrorCode.NotFound))
         then code else firstError)
  end.
Definition aggregateDispatchErrors (p : t) : Result unit :=
  let '(any, first) := aggregate (laneErrors p) false ErrorCode.Ok in
  if any then ok tt
  else if negb (bool_decide (first = ErrorCode.Ok)) then error first
  else error ErrorCode.NotFound.

(** ** The threads *)
Section threads.
Context {D : Type} `{!IDispatcher D}.

(** The lanes are dealt out beforehand, or fetched from the shared counter. *)
Definition strided (p : t) : bool := deterministicMode (config p) || negb (workStealingEnabled (config p)).

(** One lane's part of a job: [runDispatch] also stores the lane's result. *)
Definition serve (p : t) (l : local) (lane : nat) (d : D) : option (t * D) :=
  match l_job l with
  | DispatchJob =>
      let! (r, d') := dispatch d (l_budget l) in
      Some (set_error p lane (match r with ok _ => ErrorCode.Ok | error e => e end), d')
  | TickJob => let! d' := tick d in Some (p, d')
  | NoJob => None
  end.
Definition operation_of (j : JobKind) : string :=
  match j with DispatchJob => "dispatch" | TickJob => "tick" | NoJob => "" end.

(** One step of worker [i]; [None] when it has to wait, has returned, or the
    lane's own call is undefined. *)
Definition worker_step (i : nat) (p : t) (lanes : list D) : option (t * list D) :=
  let! w := workers p !! i in
  match w with
  | Waiting seen =>
      if stopping p then Some (set_pc p i Exited, lanes) else
      if jobToken p =? seen then None else
      let l := MkLocal (jobToken p) (currentJob p) (tickBudget p) (activeWorkers p) in
      let runs := has_lanes p && (i <? activeWorkers p)%nat &&
                  match currentJob p with NoJob => false | _ => true end in
      Some (set_pc p i (if runs then Looping l i else Reporting l), lanes)
  | Looping l next =>
      if strided p then
        Some (set_pc p i (if (next <? length lanes)%nat then Serving l next else Reporting l), lanes)
      else
        let lane := nextLane p in
        Some (set_pc (set_nextLane p (S lane)) i (if (lane <? length lanes)%nat then Serving l lane else Reporting l), lanes)
  | Serving l lane =>
      let! d := lanes !! lane in
      let! (p', d') := serve p l lane d in
      Some (set_pc p' i (Tracing l lane), <[lane := d']> lanes)
  | Tracing l lane =>
      Some (set_pc (appendTraceEvent p i lane (operation_of (l_job l))) i (Looping l (lane + l_count l)%nat), lanes)
  | Reporting l => Some (set_pc (count_completed p) i (Waiting (l_token l)), lanes)
  | Exited => None
  end.

(** A schedule names the thread that takes each step. *)
Fixpoint run_workers (schedule : list nat) (p : t) (lanes : list D) : option (t * list D) :=
  match schedule with
  | [] => Some (p, lanes)
  | i :: rest => let! (p', lanes') := worker_step i p lanes in run_workers rest p' lanes'
  end.

(** One job under a schedule; [None] when the schedule leaves it unfinished. *)
Definition run_job (job : JobKind) (schedule : list nat) (p : t) (lanes : list D) (budget : nat)
    : option (t * list D) :=
  let! (p1, lanes') := run_workers schedule (resetJobState p job (length lanes) budget) lanes in
  let! p2 := waitForJobCompletion p1 in Some (p2, lanes').

Definition dispatch_lanes (thread_starts : nat → bool) (schedule : list nat) (p : t) (lanes : list D)
    (budget : nat) : option (Result unit * list D * t) :=
  match lanes with
  | [] => Some (error ErrorCode.InvalidState, lanes, p)
  | _ =>
      let '(started, p1) := ensureWorkersStarted thread_starts p in
      if started then
        let! (p2, lanes') := run_job DispatchJob schedule p1 lanes budget in
        Some (aggregateDispatchErrors p2, lanes', p2)
      else Some (error ErrorCode.InvalidState, lanes, p1)
  end.
Definition tick_lanes (thread_starts : nat → bool) (schedule : list nat) (p : t) (lanes : list D)
    : option (list D * t) :=
  match lanes with
  | [] => Some (lanes, p)
  | _ =>
      let '(started, p1) := ensureWorkersStarted thread_starts p in
      if started then let! (p2, lanes') := run_job TickJob schedule p1 lanes 0 in Some (lanes', p2)
      else Some (lanes, p1)
  end.
End threads.

(** The runtime together with what the host decides: whether threads start, and
    the interleaving of each coming call. *)
Record hosted := MkHosted { h_pool : t; h_starts : nat → bool; h_schedules : list (list nat) }.
#[global] Instance runtime {D} `{!IDispatcher D} : IDispatchRuntime hosted D := {|
  rt_dispatch r lanes budget :=
    let schedule := default [] (head (h_schedules r)) in
    let! (res, lanes', p) := dispatch_lanes (h_starts r) schedule (h_pool r) lanes budget in
    Some (res, lanes', MkHosted p (h_starts r) (tail (h_schedules r)));
  rt_tick r lanes :=
    let schedule := default [] (head (h_schedules r)) in
    let! (lanes', p) := tick_lanes (h_starts r) schedule (h_pool r) lanes in
    Some (lanes', MkHosted p (h_starts r) (tail (h_schedules r)))
|}.
End DispatcherPool.
