(* ===== verification/PoolProps.v ===== *)
(** * PoolProps: one job of the worker pool

    The invariant that holds between any two steps of a pool at work on a job,
    whatever the interleaving: each lane is pending with exactly one worker (or
    behind the shared counter), or it has been served and its result stored. *)
From stdpp Require Import pretty.
From S2P Require Import Prelude Core Arch Process Interp Runtime.
Import DispatcherPool.

(** ** Lists of workers *)
Section worker_lists.
Context {A B : Type}.
Implicit Types (f : nat → A → list B) (ws : list A).

Lemma concat_imap_insert f ws i w w' :
  ws !! i = Some w → concat (imap f (<[i := w']> ws)) ++ f i w ≡ₚ concat (imap f ws) ++ f i w'.
Proof.
  revert f i. induction ws as [|x ws IH]; intros f [|i] Hi; simplify_eq/=.
  - rewrite <-!(assoc_L (++)), (comm (++) (concat _) (f 0 w)), (comm (++) (concat _) (f 0 w')).
    rewrite !(assoc_L (++)). by rewrite (comm (++) (f 0 w')).
  - rewrite <-!(assoc_L (++)). f_equiv. by apply (IH (f ∘ S)).
Qed.

(** What worker [i] gives up and gains is what all workers together do. *)
Lemma concat_imap_step f ws i w w' a b :
  ws !! i = Some w → f i w ++ a ≡ₚ f i w' ++ b →
  concat (imap f ws) ++ a ≡ₚ concat (imap f (<[i := w']> ws)) ++ b.
Proof.
  intros Hi Hab. apply (Permutation_app_inv_r (f i w')).
  rewrite <-(assoc_L (++) _ a), (comm (++) a), (assoc_L (++)), <-(concat_imap_insert f ws i w w' Hi).
  rewrite <-!(assoc_L (++)). f_equiv. rewrite Hab. by rewrite (comm (++)).
Qed.

Lemma concat_imap_nil f ws : (∀ i w, ws !! i = Some w → f i w = []) → concat (imap f ws) = [].
Proof.
  revert f. induction ws as [|x ws IH]; intros f Hn; simpl; [done|].
  rewrite (Hn 0 x eq_refl), (IH (f ∘ S)); [done|]. intros i w Hi. by apply (Hn (S i)).
Qed.

Lemma sum_insert (g : A → nat) ws i w w' :
  ws !! i = Some w → (sum_list_with g (<[i := w']> ws) + g w = sum_list_with g ws + g w')%nat.
Proof. revert i. induction ws as [|x ws IH]; intros [|i] Hi; simplify_eq/=; [lia|]. specialize (IH i Hi). lia. Qed.

Lemma filter_insert_length (Q : A → Prop) `{∀ x, Decision (Q x)} ws i w w' :
  ws !! i = Some w → ¬ Q w →
  length (filter Q (<[i := w']> ws)) = (length (filter Q ws) + if decide (Q w') then 1 else 0)%nat.
Proof.
  revert i. induction ws as [|x ws IH]; intros [|i] Hi Hn; simplify_eq/=; rewrite !filter_cons.
  - rewrite (decide_False (P:=Q w)) by done. case_decide; simpl; lia.
  - specialize (IH i Hi Hn). repeat case_decide; simpl; lia.
Qed.

Lemma concat_alter_snoc (e : A) i (ls : list (list A)) :
  (i < length ls)%nat → concat (alter (λ l, l ++ [e]) i ls) ≡ₚ concat ls ++ [e].
Proof.
  revert i. induction ls as [|l ls IH]; intros [|i] Hi; simpl in *; try lia.
  - solve_Permutation.
  - rewrite <-(assoc_L (++)). f_equiv. apply IH. lia.
Qed.

(** Dealing a list out by residue class. *)
Lemma deal_out (g : B → nat) (l : list B) k :
  concat (map (λ i, filter (λ x, g x = i) l) (seq 0 k)) ≡ₚ filter (λ x, g x < k)%nat l.
Proof.
  induction k as [|k IH]; [simpl; induction l as [|x l IHl]; [done|]; rewrite filter_cons; case_decide; [lia|done]|].
  rewrite seq_S, map_app, concat_app, IH. simpl. rewrite app_nil_r. clear IH.
  induction l as [|x l IHl]; [done|]. rewrite !filter_cons. repeat case_decide; try lia; [| |done].
  - simpl. by rewrite IHl.
  - rewrite <-Permutation_middle. by rewrite IHl.
Qed.
End worker_lists.

Lemma imap_seq {A B} (f : nat → B) (l : list A) : imap (λ i _, f i) l = map f (seq 0 (length l)).
Proof.
  revert f. induction l as [|x l IH]; intros f; [done|]. simpl. rewrite <-seq_shift, map_map. f_equal. apply (IH (f ∘ S)).
Qed.

(** ** The lanes of one worker *)
Section stride.
Context (n k : nat) (Hk : (0 < k)%nat).

Definition stride (from : nat) : list nat := filter (λ j, j mod k = from mod k ∧ (from ≤ j)%nat) (seq 0 n).

Lemma elem_of_stride from j : j ∈ stride from ↔ (j < n)%nat ∧ j mod k = from mod k ∧ (from ≤ j)%nat.
Proof. clear Hk. unfold stride. rewrite list_elem_of_filter, elem_of_seq. intuition lia. Qed.

Lemma stride_step from : (from < n)%nat → stride from ≡ₚ from :: stride (from + k).
Proof.
  intros Hf. apply NoDup_Permutation.
  - apply NoDup_filter, NoDup_seq.
  - constructor; [|apply NoDup_filter, NoDup_seq]. rewrite elem_of_stride. lia.
  - intros j. rewrite elem_of_cons, !elem_of_stride.
    replace ((from + k) mod k)%nat with (from mod k)%nat by (rewrite <-(Nat.mul_1_l k) at 2; by rewrite Nat.Div0.mod_add).
    split; [|intros [->|(? & ? & ?)]; split_and!; (done || lia)].
    intros (Hj & Hm & Hle). destruct (decide (j = from)) as [->|Hne]; [by left|right]. split_and!; try done.
    pose proof (Nat.div_mod_eq j k). pose proof (Nat.div_mod_eq from k).
    assert (from / k < j / k)%nat; [|nia]. destruct (Nat.lt_ge_cases (from / k) (j / k)); [done|nia].
Qed.
Lemma stride_past from : (n ≤ from)%nat → stride from = [].
Proof.
  clear Hk. intros Hf. destruct (stride from) as [|j l] eqn:E; [done|].
  assert (j ∈ stride from) as Hj by (rewrite E; by left). rewrite elem_of_stride in Hj. lia.
Qed.
Lemma strides_all : concat (map stride (seq 0 k)) ≡ₚ seq 0 n.
Proof.
  transitivity (concat (map (λ i, filter (λ j, j mod k = i) (seq 0 n)) (seq 0 k))).
  - apply reflexive_eq. f_equal. apply map_ext_in. intros i Hi%list_elem_of_In%elem_of_seq. apply list_filter_iff. intros j.
    rewrite (Nat.mod_small i) by lia. split; [tauto|]. intros <-. split; [done|]. by apply Nat.Div0.mod_le.
  - rewrite (deal_out (λ j, j mod k)). generalize (seq 0 n) as l. intros l.
    induction l as [|j l IH]; [done|]. rewrite filter_cons, decide_True by (by apply Nat.mod_upper_bound; lia).
    by rewrite IH.
Qed.
End stride.

Lemma next_token z : is_u64 z → u64 (z + 1) ≠ z.
Proof.
  unfold is_u64, u64. intros Hz. destruct (decide (z = 2 ^ 64 - 1)%Z) as [->|Hne]; [vm_compute; discriminate|].
  rewrite Z.mod_small by lia. lia.
Qed.

(** ** Sorting by sequence number *)
Lemma sorted_sequence (evs : list TraceEvent) m :
  map sequence evs ≡ₚ seq 0 m → map sequence (merge_sort not_later evs) = seq 0 m.
Proof.
  intros Hp. apply (Sorted_unique le).
  - apply (Sorted_fmap sequence not_later le); [done|]. apply Sorted_merge_sort. intros a b. unfold not_later. lia.
  - apply StronglySorted_Sorted. generalize 0 as a. clear.
    induction m as [|m IH]; intros a; simpl; constructor; [apply IH|]. apply Forall_forall. intros j Hj%elem_of_seq. lia.
  - rewrite <-Hp. by apply Permutation_map, merge_sort_Permutation.
Qed.

(** ** A pool at work on a job *)
Definition lane_details (lane : nat) : string := "lane=" +:+ pretty lane.
Definition code_of (r : Result unit) : ErrorCode.t := match r with ok _ => ErrorCode.Ok | error e => e end.

Section job.
Context {D : Type} `{!IDispatcher D}.

(** What a job does to one lane, and the code it leaves behind. *)
Definition lane_job (job : JobKind) (budget : nat) (d : D) : option (ErrorCode.t * D) :=
  match job with
  | DispatchJob => let! (r, d') := dispatch d budget in Some (code_of r, d')
  | TickJob => let! d' := tick d in Some (ErrorCode.NotFound, d')
  | NoJob => None
  end.

(** A job that stores no result leaves [NotFound] where it was. *)
Lemma serve_job p l lane d :
  laneErrors p !! lane = Some ErrorCode.NotFound →
  serve p l lane d =
    match lane_job (l_job l) (l_budget l) d with Some (c, d') => Some (set_error p lane c, d') | None => None end.
Proof.
  intros He. unfold lane_job, serve. destruct (l_job l); [done| |].
  - by destruct (dispatch _ _) as [[r x]|].
  - destruct (tick d); [|done]. destruct p. unfold set_error. simpl in *. by rewrite list_insert_id.
Qed.

Context (job : JobKind) (budget : nat) (lanes0 : list D).
Context (Hkind : job ≠ NoJob) (Hlanes : lanes0 ≠ []).
Context (cfg : HostThreadingConfig) (W : nat) (HW : (0 < W)%nat) (T E : Z).

#[local] Notation n := (length lanes0).
#[local] Notation k := (min W (length lanes0)).
#[local] Notation L := (MkLocal T job budget k).
#[local] Notation dealt := (deterministicMode cfg || negb (workStealingEnabled cfg)).

Definition todo (i : nat) (w : worker) : list nat :=
  match w with
  | Waiting s => if decide (s = T) then [] else if dealt && (i <? k)%nat then stride n k i else []
  | Looping _ next => if dealt then stride n k next else []
  | Serving _ lane => lane :: (if dealt then stride n k (lane + k) else [])
  | Tracing _ lane => if dealt then stride n k (lane + k) else []
  | _ => []
  end.
Definition at_trace (i : nat) (w : worker) : list nat := match w with Tracing _ lane => [lane] | _ => [] end.
Definition reported (w : worker) : Prop := w = Waiting T.
#[local] Instance reported_dec w : Decision (reported w).
Proof. unfold reported. destruct w as [s| | | | |]; try (right; discriminate). destruct (decide (s = T)); [left|right]; congruence. Defined.

Definition unfetched (p : t) : list nat := if dealt then [] else seq (nextLane p) (n - nextLane p).
Definition pending (p : t) : list nat := concat (imap todo (workers p)) ++ unfetched p.
Definition tracing (p : t) : list nat := concat (imap at_trace (workers p)).
Definition traced (p : t) : list TraceEvent := concat (perWorkerTraces p).

Definition placed (i : nat) (w : worker) : Prop :=
  match w with
  | Waiting _ => True
  | Looping l _ | Serving l _ | Tracing l _ => l = L ∧ (i < k)%nat
  | Reporting l => l_token l = T
  | Exited => False
  end.
Definition finished (w : worker) : Prop := reported w ∨ ∃ l, w = Reporting l.

Record at_work (p : t) (lanes : list D) : Prop := {
  aw_config : config p = cfg;
  aw_stopping : stopping p = false;
  aw_started : startupFailed p = false;
  aw_token : jobToken p = T;
  aw_job : currentJob p = job ∧ has_lanes p = true ∧ tickBudget p = budget ∧ activeWorkers p = k;
  aw_epoch : lastEpoch p = E ∧ epochCounter p = E;
  aw_workers : length (workers p) = W;
  aw_traces : length (perWorkerTraces p) = W;
  aw_lanes : length lanes = n ∧ length (laneErrors p) = n;
  aw_placed i w : workers p !! i = Some w → placed i w;
  aw_pending : NoDup (pending p) ∧ ∀ j, j ∈ pending p → (j < n)%nat;
  aw_lane j d : lanes0 !! j = Some d →
    if decide (j ∈ pending p) then lanes !! j = Some d ∧ laneErrors p !! j = Some ErrorCode.NotFound
    else ∃ out, lane_job job budget d = Some out ∧ lanes !! j = Some out.2 ∧ laneErrors p !! j = Some out.1;
  aw_details : map details (traced p) ++ map lane_details (tracing p ++ pending p) ≡ₚ map lane_details (seq 0 n);
  aw_sequence : if deterministicMode cfg then map sequence (traced p) ++ tracing p ++ pending p ≡ₚ seq 0 n
                else map sequence (traced p) ≡ₚ seq 0 (traceSequence p);
  aw_completed : completedWorkers p = length (filter reported (workers p));
  aw_fetched i w : dealt = false → workers p !! i = Some w → (i < k)%nat → finished w → (n ≤ nextLane p)%nat
}.

Lemma pending_step p p' i w w' a :
  workers p !! i = Some w → workers p' = <[i := w']> (workers p) →
  todo i w ++ unfetched p ≡ₚ a ++ todo i w' ++ unfetched p' → pending p ≡ₚ a ++ pending p'.
Proof.
  intros Hi Hw Ht. unfold pending. rewrite Hw.
  rewrite (concat_imap_step todo _ i w w' (unfetched p) (a ++ unfetched p') Hi); [solve_Permutation|].
  rewrite Ht. solve_Permutation.
Qed.
Lemma tracing_step p p' i w w' a b :
  workers p !! i = Some w → workers p' = <[i := w']> (workers p) →
  at_trace i w ++ a ≡ₚ at_trace i w' ++ b → tracing p ++ a ≡ₚ tracing p' ++ b.
Proof. intros Hi Hw Ht. unfold tracing. rewrite Hw. by apply (concat_imap_step at_trace _ i w). Qed.

(** A worker moves without touching a lane or a trace. *)
Lemma move_ok p lanes i w w' nl :
  at_work p lanes → workers p !! i = Some w → placed i w' → ¬ reported w → ¬ reported w' →
  at_trace i w = [] → at_trace i w' = [] →
  let p' := set_pc (set_nextLane p nl) i w' in
  todo i w ++ unfetched p ≡ₚ todo i w' ++ unfetched p' →
  (dealt = false → (nextLane p ≤ nl)%nat ∧ ((i < k)%nat → finished w' → (n ≤ nl)%nat)) →
  at_work p' lanes.
Proof.
  intros [] Hi Hpl Hr Hr' Ht Ht' p' Htodo Hnl.
  assert (pending p ≡ₚ pending p') as Hp by by apply (pending_step p p' i w w' []).
  assert (tracing p ≡ₚ tracing p') as Htr.
  { pose proof (tracing_step p p' i w w' [] [] Hi eq_refl) as Hx. rewrite Ht, Ht', !app_nil_r in Hx. by apply Hx. }
  split; try done.
  - simpl. by rewrite length_insert.
  - intros q x. simpl. rewrite list_lookup_insert_Some. intros [(<- & <- & _)|[_ ?]]; [done|by apply aw_placed0].
  - destruct aw_pending0 as [Hnd Hlt]. rewrite <-Hp. split; [done|]. intros j. rewrite <-Hp. apply Hlt.
  - intros j out Hj. specialize (aw_lane0 j out Hj). repeat case_decide; rewrite Hp in *; done.
  - change (traced p') with (traced p). by rewrite <-Hp, <-Htr.
  - change (traced p') with (traced p). change (traceSequence p') with (traceSequence p).
    revert aw_sequence0. case (deterministicMode cfg); [by rewrite <-Hp, <-Htr|done].
  - simpl. rewrite (filter_insert_length reported _ i w w') by done. rewrite decide_False by done. lia.
  - intros q x Hd. destruct (Hnl Hd) as [Hle Hfin]. simpl. rewrite list_lookup_insert_Some.
    intros [(<- & <- & _)|[_ Hq]]; [done|]. intros Hk Hf. specialize (aw_fetched0 q x Hd Hq Hk Hf). lia.
Qed.

(** A worker serves the lane it holds. *)
Lemma held_lane p lanes i l lane :
  at_work p lanes → workers p !! i = Some (Serving l lane) →
  (lane < n)%nat ∧ l = L ∧ (i < k)%nat ∧ ∃ d, lanes !! lane = Some d ∧ lanes0 !! lane = Some d ∧ laneErrors p !! lane = Some ErrorCode.NotFound.
Proof.
  intros [] Hi. destruct (aw_placed0 _ _ Hi) as [-> Hik].
  assert (lane ∈ pending p) as Hp.
  { unfold pending. apply elem_of_app. left. apply list_elem_of_In, in_concat. exists (todo i (Serving L lane)).
    split; apply list_elem_of_In; [|by left]. apply elem_of_lookup_imap. eauto. }
  destruct aw_pending0 as [_ Hlt]. pose proof (Hlt _ Hp) as Hl. split_and!; try done.
  destruct (lookup_lt_is_Some_2 lanes0 lane Hl) as [d Hd].
  specialize (aw_lane0 lane d Hd). rewrite decide_True in aw_lane0 by done. destruct aw_lane0 as [E1 E2]. by exists d.
Qed.

Lemma serve_ok p lanes i lane d c d' (p1 : t) :
  at_work p lanes → workers p !! i = Some (Serving L lane) → (lane < n)%nat → (i < k)%nat →
  lanes0 !! lane = Some d → lane_job job budget d = Some (c, d') → p1 = set_error p lane c →
  at_work (set_pc p1 i (Tracing L lane)) (<[lane := d']> lanes).
Proof.
  intros [] Hi Hl Hk Ho Hout ->. set (p' := set_pc _ _ _).
  assert (pending p ≡ₚ lane :: pending p') as Hp by by apply (pending_step p p' i (Serving L lane) (Tracing L lane) [lane]).
  assert (lane :: tracing p ≡ₚ tracing p') as Htr.
  { pose proof (tracing_step p p' i (Serving L lane) (Tracing L lane) [lane] [] Hi eq_refl) as Hx.
    rewrite !app_nil_r in Hx. rewrite <-Hx by done. by rewrite <-Permutation_cons_append. }
  assert (tracing p ++ pending p ≡ₚ tracing p' ++ pending p') as Hall.
  { rewrite <-Htr, Hp. simpl. by rewrite Permutation_middle. }
  destruct aw_pending0 as [Hnd Hlt]. rewrite Hp in Hnd. apply NoDup_cons in Hnd as [Hnl Hnd].
  destruct aw_lanes0 as [Hln Hle].
  split; try done.
  - simpl. by rewrite length_insert.
  - simpl. by rewrite !length_insert.
  - intros q x. simpl. rewrite list_lookup_insert_Some. intros [(<- & <- & _)|[_ ?]]; [done|by apply aw_placed0].
  - split; [done|]. intros j Hj. apply Hlt. rewrite Hp. by right.
  - intros j out Hj. simpl. destruct (decide (j = lane)) as [->|Hne].
    + rewrite decide_False by done. rewrite !list_lookup_insert_eq by lia. simplify_eq. by exists (c, d').
    + rewrite !list_lookup_insert_ne by done. specialize (aw_lane0 j out Hj).
      repeat case_decide; rewrite Hp, elem_of_cons in *; (done || naive_solver).
  - change (traced p') with (traced p). by rewrite <-Hall.
  - change (traced p') with (traced p). change (traceSequence p') with (traceSequence p).
    revert aw_sequence0. case (deterministicMode cfg); [by rewrite Hall|done].
  - simpl. rewrite (filter_insert_length reported _ i (Serving L lane)) by done. rewrite decide_False by done. lia.
  - intros q x Hd. simpl. rewrite list_lookup_insert_Some.
    intros [(<- & <- & _)|[_ Hq]]; [by intros _ [|[? ?]]|]. by apply (aw_fetched0 q).
Qed.

(** It notes the lane in its own trace. *)
Lemma trace_ok p lanes i lane :
  at_work p lanes → workers p !! i = Some (Tracing L lane) → (i < k)%nat →
  at_work (set_pc (appendTraceEvent p i lane (operation_of job)) i (Looping L (lane + k))) lanes.
Proof.
  intros [] Hi Hk. set (p1 := appendTraceEvent _ _ _ _). set (p' := set_pc _ _ _).
  assert (pending p ≡ₚ pending p') as Hp.
  { by apply (pending_step p p' i (Tracing L lane) (Looping L (lane + k)) []). }
  assert (tracing p ≡ₚ lane :: tracing p') as Htr.
  { pose proof (tracing_step p p' i (Tracing L lane) (Looping L (lane + k)) [] [lane] Hi eq_refl) as Hx.
    rewrite !app_nil_r in Hx. rewrite Hx by done. by rewrite <-Permutation_cons_append. }
  assert (∃ e, traced p' ≡ₚ traced p ++ [e] ∧ details e = lane_details lane ∧
            sequence e = if deterministicMode cfg then lane else traceSequence p) as (e & He & Hed & Hes).
  { eexists. unfold traced. simpl. rewrite concat_alter_snoc; [split; [done|]|].
    - simpl. by rewrite aw_config0.
    - rewrite aw_traces0, <-aw_workers0. by apply lookup_lt_Some in Hi. }
  destruct aw_pending0 as [Hnd Hlt].
  split; try done.
  - simpl. by rewrite length_insert.
  - simpl. by rewrite length_alter.
  - intros q x. simpl. rewrite list_lookup_insert_Some. intros [(<- & <- & _)|[_ ?]]; [done|by apply aw_placed0].
  - rewrite <-Hp. split; [done|]. intros j. rewrite <-Hp. apply Hlt.
  - intros j out Hj. specialize (aw_lane0 j out Hj). repeat case_decide; rewrite Hp in *; done.
  - rewrite He, map_app, <-(assoc_L (++)). simpl. rewrite Hed, <-aw_details0, Htr, <-Hp. done.
  - assert (traceSequence p' = if deterministicMode cfg then traceSequence p else S (traceSequence p)) as ->.
    { simpl. by rewrite aw_config0. }
    revert aw_sequence0 Hes. case (deterministicMode cfg); intros Hseq Hes; rewrite He, map_app; cbn [map]; rewrite Hes.
    + rewrite <-(assoc_L (++)). simpl. by rewrite <-Hseq, Htr, <-Hp.
    + rewrite Hseq. by rewrite seq_S.
  - simpl. rewrite (filter_insert_length reported _ i (Tracing L lane)) by done. rewrite decide_False by done. lia.
  - intros q x Hd. simpl. rewrite list_lookup_insert_Some.
    intros [(<- & <- & _)|[_ Hq]]; [by intros _ [|[? ?]]|]. by apply (aw_fetched0 q).
Qed.

(** It reports. *)
Lemma report_ok p lanes i l :
  at_work p lanes → workers p !! i = Some (Reporting l) →
  at_work (set_pc (count_completed p) i (Waiting T)) lanes.
Proof.
  intros [] Hi. set (p' := set_pc _ _ _).
  assert (todo i (Waiting T) = []) as Ht by (simpl; by rewrite decide_True).
  assert (pending p ≡ₚ pending p') as Hp.
  { apply (pending_step p p' i (Reporting l) (Waiting T) []); [done..|]. by rewrite Ht. }
  assert (tracing p ≡ₚ tracing p') as Htr.
  { pose proof (tracing_step p p' i (Reporting l) (Waiting T) [] [] Hi eq_refl) as Hx.
    rewrite !app_nil_r in Hx. by rewrite Hx. }
  destruct aw_pending0 as [Hnd Hlt].
  split; try done.
  - simpl. by rewrite length_insert.
  - intros q x. simpl. rewrite list_lookup_insert_Some. intros [(<- & <- & _)|[_ ?]]; [done|by apply aw_placed0].
  - rewrite <-Hp. split; [done|]. intros j. rewrite <-Hp. apply Hlt.
  - intros j out Hj. specialize (aw_lane0 j out Hj). repeat case_decide; rewrite Hp in *; done.
  - change (traced p') with (traced p). by rewrite <-Hp, <-Htr.
  - change (traced p') with (traced p). change (traceSequence p') with (traceSequence p).
    revert aw_sequence0. case (deterministicMode cfg); [by rewrite <-Hp, <-Htr|done].
  - simpl. rewrite (filter_insert_length reported _ i (Reporting l)) by done. rewrite decide_True by done. lia.
  - intros q x Hd. simpl. rewrite list_lookup_insert_Some. intros [(<- & <- & _)|[_ Hq]].
    + intros Hq _. apply (aw_fetched0 i (Reporting l)); eauto. right. eauto.
    + by apply (aw_fetched0 q).
Qed.

(** ** Steps *)
Definition rank (w : worker) : nat :=
  match w with
  | Waiting s => if decide (s = T) then 0 else 3
  | Looping _ _ => 2
  | Serving _ _ => 1
  | Tracing _ _ => 3
  | Reporting _ => 1
  | Exited => 0
  end.
Definition measure (p : t) : nat := sum_list_with rank (workers p) + 3 * length (pending p).

Lemma measure_move p p' i w w' a :
  workers p !! i = Some w → workers p' = <[i := w']> (workers p) →
  pending p ≡ₚ a ++ pending p' → (rank w' < rank w + 3 * length a)%nat → (measure p' < measure p)%nat.
Proof.
  intros Hi Hw Hp Hr. unfold measure. rewrite Hp, length_app, Hw.
  pose proof (sum_insert rank _ i w w' Hi). lia.
Qed.

Lemma dealt_strided p lanes : at_work p lanes → strided p = dealt.
Proof. intros []. unfold strided. by rewrite aw_config0. Qed.
Lemma k_bounds : (0 < k ≤ n)%nat.
Proof. assert (0 < n)%nat; [|lia]. destruct lanes0; [done|simpl; lia]. Qed.

Lemma loop_todo p lanes i next :
  at_work p lanes → workers p !! i = Some (Looping L next) → (i < k)%nat →
  let nl := if dealt then nextLane p else S (nextLane p) in
  let lane := if dealt then next else nextLane p in
  let w' := if (lane <? length lanes)%nat then Serving L lane else Reporting L in
  todo i (Looping L next) ++ unfetched p ≡ₚ todo i w' ++ unfetched (set_pc (set_nextLane p nl) i w') ∧
  (dealt = false → (nextLane p ≤ nl)%nat ∧ ((i < k)%nat → finished w' → (n ≤ nl)%nat)).
Proof.
  intros Hw Hi Hk. destruct (aw_lanes _ _ Hw) as [Hn _]. rewrite Hn. cbv zeta. unfold unfetched, todo, finished, reported.
  case dealt.
  - split; [|done]. rewrite !app_nil_r. destruct (Nat.ltb_spec next n) as [Hlt|Hge].
    + apply stride_step; [apply k_bounds|done].
    + rewrite (stride_past n k next) by lia. done.
  - cbn [nextLane set_pc set_nextLane set_workers]. destruct (Nat.ltb_spec (nextLane p) n) as [Hlt|Hge].
    + split; [|intros _; split; [lia|intros _ [|[? ?]]; done]].
      replace (n - nextLane p) with (S (n - S (nextLane p))) by lia. done.
    + split; [|intros _; split; [lia|intros _ _; lia]].
      replace (n - nextLane p) with 0 by lia. by replace (n - S (nextLane p)) with 0 by lia.
Qed.

(** A worker that wakes up on the job's token. *)
Lemma wake_ok p lanes i s :
  at_work p lanes → workers p !! i = Some (Waiting s) → T ≠ s →
  let w' := if (i <? k)%nat then Looping L i else Reporting L in
  at_work (set_pc p i w') lanes ∧ (measure (set_pc p i w') < measure p)%nat.
Proof.
  intros Hw Hi Hne w'.
  assert (todo i (Waiting s) = todo i w') as Ht.
  { subst w'. simpl. rewrite decide_False by congruence. destruct (i <? k)%nat; [by rewrite andb_true_r|by rewrite andb_false_r]. }
  assert (placed i w' ∧ ¬ reported w' ∧ at_trace i w' = [] ∧ ((i < k)%nat → ¬ finished w')) as (Hp1 & Hp2 & Hp3 & Hp4).
  { subst w'. destruct (Nat.ltb_spec i k); split_and!; try done; [intros _ [|[? ?]]; done|lia]. }
  assert (at_work (set_pc p i w') lanes) as Hw'.
  { apply (move_ok p lanes i (Waiting s) w' (nextLane p)); try done.
    - by intros [= ->].
    - by rewrite Ht.
    - intros _. split; [done|]. intros Hk Hf. by destruct (Hp4 Hk). }
  split; [exact Hw'|]. apply (measure_move p _ i (Waiting s) w' []); [done..| |].
  + apply (pending_step p _ i (Waiting s) w'); [done..|]. by rewrite Ht.
  + subst w'. simpl. rewrite decide_False by congruence. destruct (i <? k)%nat; simpl; lia.
Qed.

Lemma step_ok p lanes i p' lanes' :
  at_work p lanes → worker_step i p lanes = Some (p', lanes') → at_work p' lanes' ∧ (measure p' < measure p)%nat.
Proof.
  intros Hw. unfold worker_step. destruct (workers p !! i) as [w|] eqn:Hi; [|done].
  pose proof (aw_placed _ _ Hw i w Hi) as Hpl. destruct w as [s|l next|l lane|l lane|l|]; cbn [placed] in Hpl.
  - rewrite (aw_stopping _ _ Hw), (aw_token _ _ Hw). destruct (Z.eqb_spec T s) as [|Hne]; [done|].
    destruct (aw_job _ _ Hw) as (-> & -> & -> & ->). intros [= <- <-].
    match goal with |- context [set_pc p i ?x] =>
      replace x with (if (i <? k)%nat then Looping L i else Reporting L) end.
    + by apply (wake_ok p lanes i s).
    + replace (match job with NoJob => false | _ => true end) with true by (revert Hkind; by case job).
      by rewrite andb_true_r.
  - destruct Hpl as [-> Hk]. rewrite (dealt_strided _ _ Hw). intros Hs.
    destruct (loop_todo p lanes i next Hw Hi Hk) as [Ht Hf].
    set (nl := if dealt then nextLane p else S (nextLane p)) in *.
    set (lane := if dealt then next else nextLane p) in *.
    set (w' := if (lane <? length lanes)%nat then Serving L lane else Reporting L) in *.
    assert (Some (set_pc (set_nextLane p nl) i w', lanes) = Some (p', lanes')) as [= <- <-].
    { rewrite <-Hs. subst nl w' lane. by case dealt. }
    assert (placed i w' ∧ ¬ reported w' ∧ at_trace i w' = []) as (Hp1 & Hp2 & Hp3).
    { subst w'. case (lane <? length lanes)%nat; split_and!; done. }
    split; [by apply (move_ok p lanes i (Looping L next) w' nl)|].
    apply (measure_move p _ i (Looping L next) w' []); [done..| |].
    + by apply (pending_step p _ i (Looping L next) w').
    + subst w'. case (lane <? length lanes)%nat; simpl; lia.
  - destruct (held_lane p lanes i l lane Hw Hi) as (Hl & -> & Hk & d & Hd & Ho & He).
    rewrite Hd, (serve_job p L lane d He). change (l_job L) with job. change (l_budget L) with budget.
    destruct (lane_job job budget d) as [[c d']|] eqn:Hx; [|done]. intros [= <- <-]. set (w' := Tracing L lane).
    split; [by apply (serve_ok p lanes i lane d c d')|].
    apply (measure_move p _ i (Serving L lane) w' [lane]); [done..| |simpl; lia].
    by apply (pending_step p _ i (Serving L lane) w').
  - destruct Hpl as [-> Hk]. intros [= <- <-]. split; [by apply trace_ok|].
    apply (measure_move p _ i (Tracing L lane) (Looping L (lane + k)) []); [done..| |simpl; lia].
    by apply (pending_step p _ i (Tracing L lane) (Looping L (lane + k))).
  - intros [= <- <-]. rewrite Hpl. split; [by apply (report_ok p lanes i l)|].
    apply (measure_move p _ i (Reporting l) (Waiting T) []); [done..| |simpl; rewrite decide_True by done; lia].
    apply (pending_step p _ i (Reporting l) (Waiting T)); [done..|]. simpl. by rewrite decide_True.
  - done.
Qed.

Lemma run_ok schedule p lanes p' lanes' :
  at_work p lanes → run_workers schedule p lanes = Some (p', lanes') →
  at_work p' lanes' ∧ (length schedule + measure p' ≤ measure p)%nat.
Proof.
  revert p lanes. induction schedule as [|i sched IH]; intros p lanes Hw; simpl; [intros [= <- <-]; by split|].
  destruct (worker_step i p lanes) as [[p1 lanes1]|] eqn:Hs; [|done]. intros Hr.
  destruct (step_ok p lanes i p1 lanes1 Hw Hs) as [Hw1 Hm]. destruct (IH p1 lanes1 Hw1 Hr) as [? ?]. split; [done|lia].
Qed.

(** Whoever has not reported can go on: nobody ever waits for another. *)
Lemma progress p lanes i w :
  (∀ d, d ∈ lanes0 → is_Some (lane_job job budget d)) → at_work p lanes → workers p !! i = Some w → ¬ reported w → is_Some (worker_step i p lanes).
Proof.
  intros Hdef Hw Hi Hr. unfold worker_step. rewrite Hi. pose proof (aw_placed _ _ Hw i w Hi) as Hpl.
  destruct w as [s|l next|l lane|l lane|l|]; [| | |by eexists..|done].
  - rewrite (aw_stopping _ _ Hw), (aw_token _ _ Hw). destruct (Z.eqb_spec T s) as [Heq|]; [|by eexists].
    exfalso. apply Hr. unfold reported. by f_equal.
  - case (strided p); by eexists.
  - destruct (held_lane p lanes i l lane Hw Hi) as (_ & El & _ & d & -> & Ho & He).
    rewrite (serve_job p l lane d He), El. change (l_job L) with job. change (l_budget L) with budget.
    destruct (Hdef d (list_elem_of_lookup_2 _ _ _ Ho)) as [[c d'] ->]. by eexists.
Qed.
Lemma unfinished p lanes :
  (∀ d, d ∈ lanes0 → is_Some (lane_job job budget d)) → at_work p lanes → completedWorkers p ≠ length (workers p) → ∃ i, is_Some (worker_step i p lanes).
Proof.
  intros Hdef Hw Hc. destruct (decide (Forall reported (workers p))) as [Hall|Hnot].
  - exfalso. apply Hc. rewrite (aw_completed _ _ Hw). f_equal. clear -Hall.
    induction Hall as [|w ws Hr _ IH]; [done|]. rewrite filter_cons, decide_True by done. by rewrite IH.
  - apply not_Forall_Exists in Hnot; [|apply _]. apply Exists_exists in Hnot as (w & Hin & Hr).
    apply list_elem_of_lookup in Hin as [i Hi]. exists i. by apply (progress p lanes i w).
Qed.

(** ** Beginning and end of a job *)
Record idle (p : t) : Prop := {
  id_stopping : stopping p = false;
  id_started : startupFailed p = false;
  id_token : is_u64 (jobToken p);
  id_workers : Forall (λ w, w = Waiting (jobToken p)) (workers p);
  id_traces : length (perWorkerTraces p) = length (workers p)
}.

Lemma initial_todo ws s0 :
  length ws = W → Forall (λ w, w = Waiting s0) ws → s0 ≠ T → dealt = true → concat (imap todo ws) ≡ₚ seq 0 n.
Proof.
  intros Hl Hall Hs Hd.
  assert (imap todo ws = map (λ i, if (i <? k)%nat then stride n k i else []) (seq 0 W)) as ->.
  { replace (seq 0 W) with (seq 0 (length ws)) by (by rewrite Hl). rewrite <-(imap_seq _ ws). apply imap_ext. intros i w Hi.
    rewrite (Forall_lookup_1 _ _ _ _ Hall Hi). unfold todo. by rewrite decide_False, Hd. }
  destruct k_bounds as [Hk1 Hk2].
  replace (seq 0 W) with (seq 0 (k + (W - k))) by (f_equal; lia). rewrite seq_app, map_app, concat_app. simpl.
  assert (concat (map (λ i, if (i <? k)%nat then stride n k i else []) (seq k (W - k))) = []) as ->.
  { apply concat_nil_Forall, Forall_map, Forall_forall. intros i Hi%elem_of_seq. simpl.
    by rewrite (proj2 (Nat.ltb_ge i k)) by lia. }
  rewrite app_nil_r, <-(strides_all n k Hk1). apply reflexive_eq. f_equal. apply map_ext_in.
  intros i Hi%list_elem_of_In%elem_of_seq. by rewrite (proj2 (Nat.ltb_lt i k)) by lia.
Qed.

Lemma start_ok p :
  idle p → config p = cfg → length (workers p) = W → T = u64 (jobToken p + 1) → E = u64 (epochCounter p + 1) →
  let p1 := resetJobState p job n budget in
  at_work p1 lanes0 ∧ (measure p1 ≤ 3 * (W + n))%nat.
Proof.
  intros [] Hc HlW HT HE p1. pose proof (next_token _ id_token0) as HTne. rewrite <-HT in HTne.
  assert (pending p1 ≡ₚ seq 0 n) as Hp.
  { unfold pending, unfetched. cbn [workers nextLane p1 resetJobState]. rewrite Nat.sub_0_r.
    destruct (bool_decide_reflect (dealt = true)) as [Hd|Hd%not_true_is_false].
    - rewrite Hd, app_nil_r. by apply (initial_todo _ (jobToken p)).
    - rewrite Hd, concat_imap_nil; [done|]. intros i w Hi. rewrite (Forall_lookup_1 _ _ _ _ id_workers0 Hi). simpl.
      by rewrite decide_False, Hd. }
  assert (tracing p1 = []) as Htr.
  { apply concat_imap_nil. intros i w Hi. by rewrite (Forall_lookup_1 _ _ _ _ id_workers0 Hi). }
  assert (traced p1 = []) as Ht by (unfold traced; simpl; by apply concat_nil_Forall, Forall_replicate).
  split.
  - split; try done.
    + split_and!; try done. simpl. by rewrite HlW.
    + simpl. by rewrite length_replicate, id_traces0.
    + simpl. by rewrite length_replicate.
    + intros i w Hi. by rewrite (Forall_lookup_1 _ _ _ _ id_workers0 Hi).
    + rewrite Hp. split; [apply NoDup_seq|]. intros j. rewrite Hp, elem_of_seq. lia.
    + intros j d Hj. pose proof (lookup_lt_Some _ _ _ Hj : (j < n)%nat).
      rewrite decide_True by (rewrite Hp, elem_of_seq; lia). split; [done|]. simpl. by apply lookup_replicate_2.
    + rewrite Ht, Htr. simpl. by rewrite Hp.
    + rewrite Ht, Htr. simpl. by case (deterministicMode cfg).
    + simpl. symmetry. apply length_zero_iff_nil. clear -id_workers0 HTne.
      induction id_workers0 as [|w ws -> _ IH]; [done|]. rewrite filter_cons, decide_False by congruence. apply IH.
    + intros i w _ Hi _ [Hr|[l Hr]]; rewrite (Forall_lookup_1 _ _ _ _ id_workers0 Hi) in Hr; [|done].
      by injection Hr.
  - unfold measure. rewrite Hp, length_seq. cbn [workers p1 resetJobState].
    assert (sum_list_with rank (workers p) ≤ 3 * length (workers p))%nat; [|lia].
    clear. induction (workers p) as [|w ws IH]; simpl; [lia|].
    assert (rank w ≤ 3)%nat; [destruct w; simpl; try case_decide; lia|lia].
Qed.

Lemma all_reported p lanes :
  at_work p lanes → completedWorkers p = length (workers p) → Forall reported (workers p).
Proof.
  intros Hw. rewrite (aw_completed _ _ Hw). clear. induction (workers p) as [|w ws IH]; [done|].
  rewrite filter_cons. case_decide as Hr; simpl; intros Hl; [constructor; auto|].
  pose proof (length_filter reported ws). lia.
Qed.

(** When everybody has reported nothing is left over. *)
Lemma nothing_left p lanes :
  at_work p lanes → Forall reported (workers p) → pending p = [] ∧ tracing p = [].
Proof.
  intros Hw Hall. split.
  - unfold pending, unfetched. rewrite concat_imap_nil.
    2: { intros i w Hi. rewrite (Forall_lookup_1 _ _ _ _ Hall Hi). simpl. by rewrite decide_True. }
    destruct (bool_decide_reflect (dealt = true)) as [Hd|Hd%not_true_is_false]; rewrite Hd; [done|].
    destruct (lookup_lt_is_Some_2 (workers p) 0) as [w Hi]; [by rewrite (aw_workers _ _ Hw)|].
    pose proof (Forall_lookup_1 _ _ _ _ Hall Hi) as Hr.
    pose proof (aw_fetched _ _ Hw 0 w Hd Hi (proj1 k_bounds) (or_introl Hr)).
    by replace (n - nextLane p) with 0 by lia.
  - apply concat_imap_nil. intros i w Hi. by rewrite (Forall_lookup_1 _ _ _ _ Hall Hi).
Qed.

Lemma all_served p lanes :
  at_work p lanes → pending p = [] →
  ∃ outs, mapM (lane_job job budget) lanes0 = Some outs ∧ lanes = map snd outs ∧ laneErrors p = map fst outs.
Proof.
  intros [] Hp.
  assert (∀ j d, lanes0 !! j = Some d →
    ∃ out, lane_job job budget d = Some out ∧ lanes !! j = Some out.2 ∧ laneErrors p !! j = Some out.1) as Hdone.
  { intros j d Hj. specialize (aw_lane0 j d Hj). rewrite decide_False in aw_lane0; [done|]. rewrite Hp.
    apply not_elem_of_nil. }
  destruct aw_lanes0 as [Hl1 Hl2].
  destruct (mapM (lane_job job budget) lanes0) as [outs|] eqn:Ho.
  2: { exfalso. apply mapM_None, Exists_exists in Ho as (d & [j Hj]%list_elem_of_lookup & Hn).
       destruct (Hdone j d Hj) as (out & Hx & _). congruence. }
  exists outs. split; [done|]. apply mapM_Some in Ho. pose proof (Forall2_length _ _ _ Ho) as Hlo.
  split; apply list_eq; intros j; rewrite list_lookup_fmap.
  all: destruct (lanes0 !! j) as [d|] eqn:Hj.
  all: try (destruct (Hdone j d Hj) as (out & Hx & E1 & E2);
            destruct (Forall2_lookup_l _ _ _ _ _ Ho Hj) as (out' & -> & Hx'); rewrite Hx in Hx'; by simplify_eq).
  all: apply lookup_ge_None in Hj; rewrite !(proj2 (lookup_ge_None _ _)); [done|lia..].
Qed.

Lemma finish_ok p lanes :
  at_work p lanes → completedWorkers p = length (workers p) → is_u64 T →
  ∃ p' outs, waitForJobCompletion p = Some p' ∧ mapM (lane_job job budget) lanes0 = Some outs ∧ idle p' ∧ config p' = cfg ∧ length (workers p') = W ∧
    lanes = map snd outs ∧ laneErrors p' = map fst outs ∧ lastEpoch p' = E ∧
    map details (lastTraceEvents p') ≡ₚ map lane_details (seq 0 n) ∧
    map sequence (lastTraceEvents p') = seq 0 n ∧
    (deterministicMode cfg = true → lastDeterministicOrder p' = seq 0 n).
Proof.
  intros Hw Hc HT. pose proof (all_reported p lanes Hw Hc) as Hall.
  destruct (nothing_left p lanes Hw Hall) as [Hp Htr]. pose proof Hw as [].
  destruct (all_served p lanes Hw Hp) as (outs & Ho & -> & He).
  unfold waitForJobCompletion. rewrite (proj2 (Nat.eqb_eq _ _) Hc). eexists _, outs. split; [done|].
  rewrite Hp, Htr, app_nil_r in aw_details0.
  assert (map sequence (traced p) ≡ₚ seq 0 n) as Hseq.
  { revert aw_sequence0. rewrite Hp, Htr, app_nil_r. case (deterministicMode cfg); [done|]. intros Hs.
    apply Permutation_length in aw_details0. pose proof (Permutation_length Hs) as Hl.
    rewrite !length_map, length_seq in aw_details0. rewrite length_map, length_seq in Hl.
    by rewrite Hs, <-Hl, aw_details0. }
  split_and!; try done.
  - split; simpl; try done; [by rewrite aw_token0|by rewrite aw_token0|by rewrite aw_traces0].
  - simpl. destruct aw_epoch0. done.
  - cbn [lastTraceEvents mergeWorkerTraces]. etransitivity; [|exact aw_details0]. by apply Permutation_map, merge_sort_Permutation.
  - by apply sorted_sequence.
  - intros Hd. cbn [lastDeterministicOrder mergeWorkerTraces config]. rewrite aw_config0, Hd. by apply sorted_sequence.
Qed.
End job.
