(* ===== verification/Lanes.v ===== *)
(** * Lanes: what a runtime may rely on in a dispatcher

    The contract of [IDispatcher] as a class of laws over the set of processes a
    dispatcher knows, and the proof that the dispatcher of [dispatcher.cpp]
    meets it. *)
From S2P Require Import Prelude Core Arch Process Policies Scheduler SchedInvariant SchedProps.
From S2P Require Import Interp Dispatcher DispatcherProps Runtime.
Local Open Scope Z_scope.

(** A new image: its process has not been anywhere yet. *)
Definition unborn (im : OwnedImage) : Prop := state (oi_pcb im) = New.
Definition image_pid (im : OwnedImage) : Z := pcb_id (oi_pcb im).

Class LawfulDispatcher (D : Type) `{!IDispatcher D} := {
  disp_inv : D → Prop;
  disp_pids : D → gset Z;
  law_has d pid : disp_inv d → hasProcess d pid = bool_decide (pid ∈ disp_pids d);
  law_count d : disp_inv d → processCount d = size (disp_pids d);
  law_create d im now : disp_inv d → unborn im →
    ∃ r d', createProcess d (Some im) now = Some (r, d') ∧ disp_inv d' ∧
      match r with
      | ok _ => image_pid im ≠ INVALID_PID ∧ image_pid im ∉ disp_pids d ∧ disp_pids d' = {[image_pid im]} ∪ disp_pids d
      | error _ => disp_pids d' = disp_pids d
      end;
  law_create_null (d : D) now : createProcess d None now = Some (error ErrorCode.InvalidArgument, d);
  law_dispatch d n r d' : disp_inv d → dispatch d n = Some (r, d') →
    disp_inv d' ∧ disp_pids d' ⊆ disp_pids d ∧ r ≠ error ErrorCode.Ok;
  law_terminate d pid now : disp_inv d →
    if decide (pid ∈ disp_pids d)
    then ∃ d', terminateProcess d pid now = Some (ok tt, d') ∧ disp_inv d' ∧ disp_pids d' = disp_pids d ∖ {[pid]}
    else terminateProcess d pid now = Some (error ErrorCode.NotFound, d);
  law_tick d d' : disp_inv d → tick d = Some d' → disp_inv d' ∧ disp_pids d' = disp_pids d
}.

Section lane.
Context {P : Type} `{HP : !ISchedulingPolicy P} `{HL : !LawfulSchedulingPolicy P} `{HF : !FloatCast}.
Context {W : Type} `{HV : !IVirtualMemory W} `{HE : !IExecutionEngine W} `{HM : !LawfulMachine W}.
Implicit Types (d : dispatcher P W).

(** The image arrives in this process's store. *)
Definition adopt d (im : OwnedImage) : ProcessImage * dispatcher P W :=
  (MkImage (d_fresh d) (oi_registers im) (oi_code im),
   MkDispatcher (d_scheduler d) (<[d_fresh d := oi_pcb im]> (d_heap d)) (d_world d) (d_clock d) (d_processes d)
     (d_fresh d + 1)).

#[global] Instance dispatcher_lane : IDispatcher (dispatcher P W) := {|
  Runtime.createProcess d im now :=
    match im with
    | None => Dispatcher.createProcess d None now
    | Some im => let '(im', d') := adopt d im in Dispatcher.createProcess d' (Some im') now
    end;
  Runtime.dispatch := Dispatcher.dispatch;
  Runtime.terminateProcess := Dispatcher.terminateProcess;
  Runtime.tick d := Some (Dispatcher.tick d);
  Runtime.processCount := Dispatcher.processCount;
  Runtime.hasProcess := Dispatcher.hasProcess
|}.

Lemma adopt_ok d im :
  disp_wf None d →
  let '(im', d') := adopt d im in
  disp_wf (Some (im_pcb im')) d' ∧ d_heap d' !! im_pcb im' = Some (oi_pcb im) ∧ d_processes d' = d_processes d.
Proof.
  intros Hw. pose proof Hw as [H1 H2 H3 H4 H5 H6 H7 H8 H9]. simpl.
  assert (d_heap d !! d_fresh d = None) as Hf.
  { destruct (d_heap d !! d_fresh d) eqn:E; [|done]. specialize (H7 _ (mk_is_Some _ _ E)). lia. }
  assert (∀ q, processes (d_scheduler d) !! q ≠ Some (d_fresh d)) as Hun.
  { intros q Hq. destruct (w_table _ _ H1 _ _ Hq) as [Hi _]. unfold pid_at in Hi. by rewrite Hf in Hi. }
  split; [|split; [apply lookup_insert_eq|done]].
  split; simpl; try done.
  - by apply create_wf.
  - intros r. rewrite lookup_insert. case_decide; [left; congruence|]. intros [|]%H5; [done|by right].
  - intros r [= <-]. rewrite lookup_insert_eq. split; [by eexists|done].
  - intros r. rewrite lookup_insert. case_decide; [lia|]. intros ?%H7. lia.
Qed.

Lemma dispatch_lane_ok d n r d' :
  disp_wf None d → Dispatcher.dispatch d n = Some (r, d') →
  disp_wf None d' ∧ dom (d_processes d') ⊆ dom (d_processes d) ∧ r ≠ error ErrorCode.Ok.
Proof.
  intros Hw Hd. destruct (dispatch_cases d n Hw)
    as [(e & He & Hcase)|(pid & im & s & h & Hsel & [[_ Hn]|(res & im' & w & _ & Hw2 & Him & Hx)])]; [|congruence|].
  - rewrite He in Hd. injection Hd as <- <-. split; [done|]. split; [done|]. by intros [= ->]; destruct Hcase as [[? _]|[? _]].
  - pose proof Hsel as [_ Hi]. destruct (selects_wf d pid im s h Hw Hsel) as (_ & _ & _ & Hl & _).
    set (d2 := burst_of _ _ _ _ _ _ _) in *.
    assert (d_processes d2 !! pid = Some im') as Hi2 by apply lookup_insert_eq.
    assert (runningByLane (d_scheduler d2) !! 0%nat = Some (Some (im_pcb im'))) as Hl2 by (simpl; by rewrite Him).
    destruct (after_burst_ok d2 pid im' (ExecutionResult.reason res) 0 Hw2 Hi2 Hl2) as (d3 & Ha & Hw3 & _ & Hcase).
    rewrite Hx, Ha in Hd. injection Hd as <- <-. split; [done|]. split; [|done].
    assert (dom (d_processes d2) ⊆ dom (d_processes d)) as Hsub.
    { simpl. rewrite dom_insert_L. apply elem_of_dom_2 in Hi. set_solver. }
    etransitivity; [|exact Hsub].
    destruct (ExecutionResult.reason res); [by subst d3|destruct Hcase as (-> & _)..]; rewrite ?dom_delete_L; set_solver.
Qed.

#[global, program] Instance dispatcher_lawful : LawfulDispatcher (dispatcher P W) := {|
  disp_inv d := disp_wf None d;
  disp_pids d := dom (d_processes d)
|}.
Next Obligation. intros d pid Hw. apply bool_decide_ext. by rewrite elem_of_dom. Qed.
Next Obligation. intros d Hw. symmetry. apply size_dom. Qed.
Next Obligation.
  intros d im now Hw Hnew. cbn [Runtime.createProcess dispatcher_lane]. pose proof (adopt_ok d im Hw) as Ha.
  destruct (adopt d im) as [im' d'] eqn:Had. destruct Ha as (Hw' & Hp & Hpr).
  destruct (createProcess_ok d' im' _ now Hw' Hp Hnew) as (r & d2 & Hc & Hw2 & _ & Hcase). exists r, d2.
  split; [done|]. split; [done|]. destruct r as [u|e].
  - destruct Hcase as (Hn & -> & _). rewrite <-Hpr, dom_insert_L. split; [|split; [by apply not_elem_of_dom|done]].
    intros Hinv. unfold Dispatcher.createProcess in Hc. rewrite Hp in Hc. simpl in Hc. unfold image_pid in Hinv.
    by rewrite Hinv in Hc.
  - destruct Hcase as [-> _]. by rewrite Hpr.
Qed.
Next Obligation. done. Qed.
Next Obligation. intros d n r d' Hw Hd. by apply (dispatch_lane_ok d n). Qed.
Next Obligation.
  intros d pid now Hw. pose proof (terminateProcess_ok d pid now Hw) as Ht. simpl.
  case_decide as Hin; [apply elem_of_dom in Hin as [im Hi]|apply not_elem_of_dom in Hin as Hi]; rewrite Hi in Ht; [|done].
  destruct Ht as (d' & Hd & Hw' & Hpr & _). exists d'. by rewrite Hpr, dom_delete_L.
Qed.
Next Obligation. intros d d' Hw [= <-]. split; [by apply wf_advance|done]. Qed.
End lane.
