(* ===== verification/RuntimeTheorems.v ===== *)
(** * RuntimeTheorems: the runtimes against each other, and the composite

    A pool of threads does what the serial runtime does, under every
    interleaving; a composite of lawful dispatchers is a lawful dispatcher. *)
From stdpp Require Import pretty.
From S2P Require Import Prelude Core Arch Process Policies Scheduler SchedInvariant SchedProps Interp.
From S2P Require Import Cpu Paging Mmu VirtualMem Dispatcher DispatcherProps Machine DispatcherTheorems.
From S2P Require Import Runtime PoolProps Lanes.
Local Open Scope Z_scope.

(** ** The serial runtime *)
Section serial.
Context {D : Type} `{HD : !IDispatcher D} `{HLD : !LawfulDispatcher D}.
Implicit Types (lanes : list D).

Lemma serial_loop lanes budget any first any' first' lanes' :
  Forall disp_inv lanes → SerialDispatchRuntime.loop lanes budget any first = Some (any', first', lanes') →
  ∃ outs, mapM (lane_job DispatcherPool.DispatchJob budget) lanes = Some outs ∧ lanes' = map snd outs ∧
    DispatcherPool.aggregate (map fst outs) any first = (any', first').
Proof.
  intros Hall. revert any first any' first' lanes'. induction Hall as [|d lanes Hd _ IH]; intros any first any' first' lanes'.
  { intros [= <- <- <-]. by exists []. }
  cbn [SerialDispatchRuntime.loop].
  destruct (dispatch d budget) as [[r d']|] eqn:Hx; [|done]. cbv beta iota zeta.
  destruct (law_dispatch d budget r d' Hd Hx) as (_ & _ & Hok).
  assert (lane_job DispatcherPool.DispatchJob budget d = Some (code_of r, d')) as Hj by (simpl; by rewrite Hx).
  set (next := match r with ok _ => _ | error e => _ end).
  destruct next as [any1 first1] eqn:Hn.
  destruct (SerialDispatchRuntime.loop lanes budget any1 first1) as [[[a f] l]|] eqn:Hl; [|done].
  intros [= <- <- <-]. destruct (IH _ _ _ _ _ Hl) as (outs & Ho & -> & Ha).
  exists ((code_of r, d') :: outs). split; [apply mapM_Some; constructor; [done|by apply mapM_Some]|]. split; [done|]. cbn [map fst DispatcherPool.aggregate].
  destruct r as [u|e]; simpl code_of.
  - rewrite bool_decide_eq_true_2 by done. injection Hn as <- <-. done.
  - rewrite bool_decide_eq_false_2 by congruence. injection Hn as <- <-. done.
Qed.
End serial.

(** ** The pool *)
Section pool.
Context {D : Type} `{HD : !IDispatcher D} `{HLD : !LawfulDispatcher D}.
Import DispatcherPool.
Implicit Types (lanes : list D) (p : t).

(** A pool between two calls: never started, or all its workers waiting. *)
Record ready p : Prop := {
  rd_idle : idle p;
  rd_threads : (0 < hostThreadCount (config p))%nat;
  rd_workers : workers p = [] ∧ jobToken p = 0 ∨ length (workers p) = hostThreadCount (config p)
}.

Lemma ready_make c : ready (make c).
Proof.
  split; [split; simpl; try done|simpl|by left].
  unfold normalizePoolConfig, normalized, isSingleThreaded. destruct c as [[|n] b1 b2]; simpl; [lia|].
  destruct n; simpl; lia.
Qed.

Lemma ensure_started p starts :
  ready p → (∀ i, starts i = true) →
  ∃ p1, ensureWorkersStarted starts p = (true, p1) ∧ idle p1 ∧ config p1 = config p ∧
    length (workers p1) = hostThreadCount (config p) ∧ epochCounter p1 = epochCounter p.
Proof.
  intros [[] Ht Hws] Hs. unfold ensureWorkersStarted. destruct (workers p) as [|w ws] eqn:Hw.
  - rewrite id_started. rewrite (proj2 (forallb_forall _ _)) by (intros; apply Hs). eexists. split; [done|].
    destruct Hws as [[_ H0]|H0]; [|simpl in H0; lia].
    split; [|simpl; by rewrite length_replicate]. split; simpl; try done.
    + rewrite H0. apply Forall_replicate. done.
    + apply length_zero_iff_nil in id_traces as ->. rewrite take_nil. simpl. rewrite !length_replicate. lia.
  - exists p. split; [done|]. destruct Hws as [[? _]|Hl]; [done|]. split; [|by rewrite Hw]. split; try done; by rewrite Hw.
Qed.

(** One job, whatever it does, under any schedule. *)
Lemma job_ok p job lanes budget starts :
  ready p → (∀ i, starts i = true) → lanes ≠ [] → job ≠ NoJob →
  let p1 := (ensureWorkersStarted starts p).2 in
  ∀ schedule q ls,
    run_workers schedule (resetJobState p1 job (length lanes) budget) lanes = Some (q, ls) →
    (length schedule ≤ 3 * (hostThreadCount (config p) + length lanes))%nat ∧
    (run_job job schedule p1 lanes budget = None ∧
       ((∀ d, d ∈ lanes → is_Some (lane_job job budget d)) → ∃ i, is_Some (worker_step i q ls)) ∨
     ∃ p' outs, run_job job schedule p1 lanes budget = Some (p', ls) ∧ mapM (lane_job job budget) lanes = Some outs ∧
       ls = map snd outs ∧ laneErrors p' = map fst outs ∧ ready p' ∧ config p' = config p ∧
       lastEpoch p' = u64 (epochCounter p + 1) ∧
       map details (lastTraceEvents p') ≡ₚ map lane_details (seq 0 (length lanes)) ∧
       map sequence (lastTraceEvents p') = seq 0 (length lanes) ∧
       (deterministicMode (config p) = true → lastDeterministicOrder p' = seq 0 (length lanes))).
Proof.
  intros Hr Hs Hl Hj p1 schedule q ls Hrun.
  destruct (ensure_started p starts Hr Hs) as (p1' & He & Hid & Hc & Hw & Hep).
  subst p1. rewrite He in *. cbn [snd] in *. clear He. rename p1' into p1.
  pose proof (rd_threads _ Hr) as Ht. pose proof (u64_range (jobToken p1 + 1)) as HTr.
  destruct (start_ok job budget lanes Hl (config p) (hostThreadCount (config p)) Ht _ _ p1 Hid Hc Hw eq_refl eq_refl)
    as [Hwork Hm].
  destruct (run_ok _ _ _ Hj Hl _ _ Ht _ _ schedule _ _ q ls Hwork Hrun) as [Hq Hlen].
  split; [lia|]. unfold run_job. rewrite Hrun. cbv beta iota.
  destruct (decide (completedWorkers q = length (workers q))) as [Hcomp|Hcomp].
  - right. destruct (finish_ok _ _ _ Hl _ _ Ht _ _ q ls Hq Hcomp HTr)
      as (p' & outs & -> & Ho & Hidle & Hc' & Hw' & -> & He' & Hep' & Hd & Hsq & Hdet).
    exists p', outs. split_and!; try done.
    + split; [done|by rewrite Hc'|right; by rewrite Hc'].
    + by rewrite Hep', Hep.
  - left. unfold waitForJobCompletion. rewrite (proj2 (Nat.eqb_neq _ _) Hcomp). split; [done|].
    intros Hdef. by apply (unfinished job budget lanes _ _ _ _ q ls Hdef Hq).
Qed.

(** C6: the pool is equivalent to the serial runtime.  Whatever the number of
    threads, with lanes dealt out or stolen, and however the host interleaves
    the threads: no schedule is longer than three steps per thread and lane; as
    long as the job is unfinished some thread can go on (nobody deadlocks); and
    a schedule that finishes the job leaves every lane in the state, and returns
    the result, the serial runtime would have, having run each lane exactly
    once.  Afterwards the pool is ready for the next call, and in deterministic
    mode the recorded lane order is 0, 1, 2, ... *)
Theorem pool_equals_serial p lanes budget starts r lanes' :
  ready p → (∀ i, starts i = true) → lanes ≠ [] → Forall disp_inv lanes →
  SerialDispatchRuntime.dispatch_lanes lanes budget = Some (r, lanes') →
  let p1 := (ensureWorkersStarted starts p).2 in
  ∀ schedule q ls,
    run_workers schedule (resetJobState p1 DispatchJob (length lanes) budget) lanes = Some (q, ls) →
    (length schedule ≤ 3 * (hostThreadCount (config p) + length lanes))%nat ∧
    (dispatch_lanes starts schedule p lanes budget = None ∧ (∃ i, is_Some (worker_step i q ls)) ∨
     ∃ p', dispatch_lanes starts schedule p lanes budget = Some (r, lanes', p') ∧ ready p' ∧
       map details (lastTraceEvents p') ≡ₚ map lane_details (seq 0 (length lanes)) ∧
       (deterministicMode (config p) = true → lastDeterministicOrder p' = seq 0 (length lanes))).
Proof.
  intros Hr Hs Hl Hinv Hser p1 schedule q ls Hrun.
  destruct (job_ok p DispatchJob lanes budget starts Hr Hs Hl ltac:(done) schedule q ls Hrun) as [Hlen Hcase].
  split; [done|].
  assert (∃ any first outs, mapM (lane_job DispatchJob budget) lanes = Some outs ∧ lanes' = map snd outs ∧
    aggregate (map fst outs) false ErrorCode.Ok = (any, first) ∧ r = SerialDispatchRuntime.outcome any first)
    as (any & first & outs & Ho & -> & Ha & ->).
  { unfold SerialDispatchRuntime.dispatch_lanes in Hser. destruct lanes as [|d0 rest]; [done|].
    destruct (SerialDispatchRuntime.loop _ _ _ _) as [[[any first] l]|] eqn:Hlo; [|done]. injection Hser as <- <-.
    destruct (serial_loop _ _ _ _ _ _ _ Hinv Hlo) as (outs & ? & ? & ?). by exists any, first, outs. }
  destruct (ensure_started p starts Hr Hs) as (p1' & He & _). subst p1. rewrite He in Hcase. cbn [snd] in Hcase.
  assert (dispatch_lanes starts schedule p lanes budget =
    let! (p2, l) := run_job DispatchJob schedule p1' lanes budget in Some (aggregateDispatchErrors p2, l, p2)) as ->.
  { unfold dispatch_lanes. by destruct lanes; [|rewrite He]. }
  destruct Hcase as [[-> Hgo]|(p' & outs' & -> & Ho' & -> & Hle & Hr' & Hc' & _ & Hd & _ & Hdet)].
  - left. split; [done|]. apply Hgo. intros d Hd. apply mapM_Some in Ho.
    apply list_elem_of_lookup in Hd as [j Hj]. destruct (Forall2_lookup_l _ _ _ _ _ Ho Hj) as (o & _ & ?). by eexists.
  - right. assert (outs' = outs) as -> by congruence. exists p'. split_and!; try done. cbv beta iota.
    unfold aggregateDispatchErrors. by rewrite Hle, Ha.
Qed.
End pool.

(** ** What a composite relies on in its runtime *)
Definition lane_step {D} `{!IDispatcher D} (budget : nat) (d d' : D) : Prop := ∃ r, dispatch d budget = Some (r, d').
Definition lane_tick {D} `{!IDispatcher D} (d d' : D) : Prop := tick d = Some d'.

(** Either every lane makes its move, or (threads cannot be started) none. *)
Class LawfulRuntime (R D : Type) `{!IDispatcher D} `{!LawfulDispatcher D} `{!IDispatchRuntime R D} := {
  rt_inv : R → Prop;
  law_rt_dispatch rt lanes budget r lanes' rt' :
    rt_inv rt → Forall disp_inv lanes → rt_dispatch rt lanes budget = Some (r, lanes', rt') →
    rt_inv rt' ∧ r ≠ error ErrorCode.Ok ∧ (lanes' = lanes ∨ Forall2 (lane_step budget) lanes lanes');
  law_rt_tick rt lanes lanes' rt' :
    rt_inv rt → rt_tick rt lanes = Some (lanes', rt') →
    rt_inv rt' ∧ (lanes' = lanes ∨ Forall2 lane_tick lanes lanes')
}.

Section runtime_laws.
Context {D : Type} `{HD : !IDispatcher D} `{HLD : !LawfulDispatcher D}.

Lemma outs_steps job budget (lanes : list D) outs (Q : D → D → Prop) :
  (∀ d c d', lane_job job budget d = Some (c, d') → Q d d') →
  mapM (lane_job job budget) lanes = Some outs → Forall2 Q lanes (map snd outs).
Proof.
  intros HQ Ho. apply mapM_Some in Ho. induction Ho as [|d [c d'] lanes outs Hx _ IH]; constructor; [by eapply HQ|done].
Qed.
Lemma dispatch_steps budget (d : D) c d' :
  lane_job DispatcherPool.DispatchJob budget d = Some (c, d') → lane_step budget d d'.
Proof. simpl. destruct (dispatch d budget) as [[r x]|] eqn:E; [|done]. intros [= <- <-]. by exists r. Qed.
Lemma tick_steps budget (d : D) c d' :
  lane_job DispatcherPool.TickJob budget d = Some (c, d') → lane_tick d d'.
Proof. simpl. destruct (tick d) as [x|] eqn:E; [|done]. by intros [= <- <-]. Qed.

Lemma outcome_not_ok any first : SerialDispatchRuntime.outcome any first ≠ error ErrorCode.Ok.
Proof. unfold SerialDispatchRuntime.outcome. destruct any; [done|]. case_bool_decide; simpl; congruence. Qed.

#[global, program] Instance serial_lawful : LawfulRuntime SerialDispatchRuntime.t D := {| rt_inv _ := True |}.
Next Obligation.
  intros rt lanes budget r lanes' rt' _ Hall. simpl. unfold SerialDispatchRuntime.dispatch_lanes.
  destruct lanes as [|d lanes]; [intros [= <- <- <-]; split_and!; [done|done|by left]|].
  destruct (SerialDispatchRuntime.loop _ _ _ _) as [[[any first] l]|] eqn:Hl; [|done]. intros [= <- <- <-].
  destruct (serial_loop _ _ _ _ _ _ _ Hall Hl) as (outs & Ho & -> & _).
  split_and!; [done|apply outcome_not_ok|right]. exact (outs_steps _ _ _ _ _ (dispatch_steps budget) Ho).
Qed.
Next Obligation.
  intros rt lanes lanes' rt' _. simpl. unfold SerialDispatchRuntime.tick_lanes.
  destruct (mapM tick lanes) as [l|] eqn:Hl; [|done]. intros [= <- <-]. split; [done|right]. by apply mapM_Some in Hl.
Qed.

Lemma run_job_ok p job (lanes : list D) budget starts schedule p' ls :
  ready p → (∀ i, starts i = true) → lanes ≠ [] → job ≠ DispatcherPool.NoJob →
  DispatcherPool.run_job job schedule (DispatcherPool.ensureWorkersStarted starts p).2 lanes budget = Some (p', ls) →
  ready p' ∧ ∃ outs, mapM (lane_job job budget) lanes = Some outs ∧ ls = map snd outs.
Proof.
  intros Hr Hs Hl Hj Hrun. pose proof Hrun as Hx. unfold DispatcherPool.run_job in Hx.
  destruct (DispatcherPool.run_workers _ _ _) as [[q l]|] eqn:Hw; [|done].
  destruct (job_ok p job lanes budget starts Hr Hs Hl Hj schedule q l Hw)
    as [_ [[Hn _]|(p2 & outs & Hy & Ho & -> & _ & Hr' & _)]]; [congruence|].
  rewrite Hrun in Hy. injection Hy as <- ->. split; [done|]. by exists outs.
Qed.

#[global, program] Instance pool_lawful : LawfulRuntime DispatcherPool.hosted D := {|
  rt_inv h := ready (DispatcherPool.h_pool h) ∧ ∀ i, DispatcherPool.h_starts h i = true
|}.
Next Obligation.
  intros [p starts scheds] lanes budget r lanes' rt' [Hr Hs] _. simpl in *. unfold DispatcherPool.dispatch_lanes.
  destruct lanes as [|d0 rest]; [intros [= <- <- <-]; split_and!; [done|done|done|by left]|].
  set (lanes := d0 :: rest). destruct (ensure_started p starts Hr Hs) as (p1 & He & _). rewrite He. cbv beta iota.
  destruct (DispatcherPool.run_job _ _ _ _ _) as [[p2 l]|] eqn:Hj; [|done]. intros [= <- <- <-]. simpl.
  destruct (run_job_ok p DispatcherPool.DispatchJob lanes budget starts (default [] (head scheds)) p2 l) as (Hr2 & outs & Ho & ->);
    [done..|by rewrite He|].
  split_and!; [done|done| |right; exact (outs_steps _ _ _ _ _ (dispatch_steps budget) Ho)].
  unfold DispatcherPool.aggregateDispatchErrors. destruct (DispatcherPool.aggregate _ _ _) as [any first].
  apply outcome_not_ok.
Qed.
Next Obligation.
  intros [p starts scheds] lanes lanes' rt' [Hr Hs]. simpl in *. unfold DispatcherPool.tick_lanes.
  destruct lanes as [|d0 rest]; [intros [= <- <-]; split_and!; [done|done|by left]|].
  set (lanes := d0 :: rest). destruct (ensure_started p starts Hr Hs) as (p1 & He & _). rewrite He. cbv beta iota.
  destruct (DispatcherPool.run_job _ _ _ _ _) as [[p2 l]|] eqn:Hj; [|done]. intros [= <- <-]. simpl.
  destruct (run_job_ok p DispatcherPool.TickJob lanes 0 starts (default [] (head scheds)) p2 l) as (Hr2 & outs & Ho & ->);
    [done..|by rewrite He|].
  split_and!; [done|done|right; exact (outs_steps _ _ _ _ _ (tick_steps 0) Ho)].
Qed.
End runtime_laws.

(** ** The composite *)
Section composite.
Context {D R : Type} `{HD : !IDispatcher D} `{HLD : !LawfulDispatcher D}.
Context `{HR : !IDispatchRuntime R D} `{HLR : !LawfulRuntime R D}.
Implicit Types (lanes : list D) (m : MPDispatcher.t D R) (pid : Z).
Import MPDispatcher.

(** The lane [createProcess] picks for a process. *)
Definition home (n : nat) (pid : Z) : nat := Z.to_nat (pid mod Z.of_nat n).
Definition lanes_pids lanes : gset Z := ⋃ (disp_pids <$> lanes).
Definition routed (n : nat) lanes : Prop :=
  ∀ i d pid, lanes !! i = Some d → pid ∈ disp_pids d → i = home n pid.

Record mp_wf m : Prop := {
  mp_runtime : rt_inv (runtime m);
  mp_lanes : Forall disp_inv (dispatchers m);
  mp_routed : routed (length (dispatchers m)) (dispatchers m)
}.

Lemma elem_of_lanes_pids lanes pid :
  pid ∈ lanes_pids lanes ↔ ∃ i d, lanes !! i = Some d ∧ pid ∈ disp_pids d.
Proof.
  unfold lanes_pids. rewrite elem_of_union_list. split.
  - intros (X & [d [-> Hd]]%list_elem_of_fmap & Hp). apply list_elem_of_lookup in Hd as [i Hi]. eauto.
  - intros (i & d & Hi & Hp). exists (disp_pids d). split; [|done]. apply list_elem_of_fmap. exists d.
    split; [done|]. by eapply list_elem_of_lookup_2.
Qed.

(** Lanes may lose processes, never take over another's. *)
Lemma routed_shrink n lanes lanes' :
  Forall2 (λ d d', disp_pids d' ⊆ disp_pids d) lanes lanes' → routed n lanes → routed n lanes'.
Proof.
  intros Hs Hr i d' pid Hi Hp. destruct (Forall2_lookup_r _ _ _ _ _ Hs Hi) as (d & Hd & Hsub).
  apply (Hr i d pid Hd). by apply Hsub.
Qed.
Lemma pids_shrink lanes lanes' :
  Forall2 (λ d d', disp_pids d' ⊆ disp_pids d) lanes lanes' → lanes_pids lanes' ⊆ lanes_pids lanes.
Proof.
  intros Hs pid. rewrite !elem_of_lanes_pids. intros (i & d' & Hi & Hp).
  destruct (Forall2_lookup_r _ _ _ _ _ Hs Hi) as (d & Hd & Hsub). exists i, d. split; [done|]. by apply Hsub.
Qed.
Lemma pids_same lanes lanes' :
  Forall2 (λ d d', disp_pids d' = disp_pids d) lanes lanes' → lanes_pids lanes' = lanes_pids lanes.
Proof.
  intros Hs. unfold lanes_pids. f_equal. induction Hs as [|d d' l l' Hd _ IH]; [done|]. rewrite !fmap_cons. by rewrite Hd, IH.
Qed.

Lemma unique_tail d lanes :
  (∀ pid i j x y, (d :: lanes) !! i = Some x → (d :: lanes) !! j = Some y →
     pid ∈ disp_pids x → pid ∈ disp_pids y → i = j) →
  disp_pids d ## lanes_pids lanes ∧
  (∀ pid i j x y, lanes !! i = Some x → lanes !! j = Some y → pid ∈ disp_pids x → pid ∈ disp_pids y → i = j).
Proof.
  intros Hu. split.
  - intros pid Hp (i & x & Hi & Hx)%elem_of_lanes_pids. by specialize (Hu pid 0%nat (S i) d x eq_refl Hi Hp Hx).
  - intros pid i j x y Hi Hj Hx Hy. by specialize (Hu pid (S i) (S j) x y Hi Hj Hx Hy) as [= ->].
Qed.
Lemma count_lanes lanes :
  Forall disp_inv lanes →
  (∀ pid i j x y, lanes !! i = Some x → lanes !! j = Some y → pid ∈ disp_pids x → pid ∈ disp_pids y → i = j) →
  sum_list_with Runtime.processCount lanes = size (lanes_pids lanes).
Proof.
  induction 1 as [|d lanes Hd _ IH]; intros Hu; [done|].
  destruct (unique_tail d lanes Hu) as [Hdis Hu']. simpl. rewrite (IH Hu'), (law_count d Hd).
  unfold lanes_pids at 2. simpl. by rewrite size_union.
Qed.
Lemma routed_unique m pid i j x y :
  mp_wf m → dispatchers m !! i = Some x → dispatchers m !! j = Some y → pid ∈ disp_pids x → pid ∈ disp_pids y → i = j.
Proof. intros [_ _ Hr] Hi Hj Hx Hy. by rewrite (Hr i x pid), (Hr j y pid). Qed.

Lemma has_lanes_pids lanes pid :
  Forall disp_inv lanes →
  existsb (λ d, Runtime.hasProcess d pid) lanes = bool_decide (pid ∈ lanes_pids lanes).
Proof.
  intros Hall. apply eq_bool_prop_intro. rewrite bool_decide_spec, elem_of_lanes_pids, Is_true_true, existsb_exists.
  split.
  - intros (d & Hd%list_elem_of_In & Hp). apply list_elem_of_lookup in Hd as [i Hi]. exists i, d. split; [done|].
    rewrite law_has in Hp by (by eapply Forall_lookup_1). by apply bool_decide_eq_true in Hp.
  - intros (i & d & Hi & Hp). exists d. split; [apply list_elem_of_In; by eapply list_elem_of_lookup_2|].
    rewrite law_has by (by eapply Forall_lookup_1). by apply bool_decide_eq_true.
Qed.

Lemma terminate_in_ok lanes pid now :
  Forall disp_inv lanes →
  (∀ q i j x y, lanes !! i = Some x → lanes !! j = Some y → q ∈ disp_pids x → q ∈ disp_pids y → i = j) →
  if decide (pid ∈ lanes_pids lanes)
  then ∃ lanes', terminate_in lanes pid now = Some (ok tt, lanes') ∧ Forall disp_inv lanes' ∧
         Forall2 (λ d d', disp_pids d' ⊆ disp_pids d) lanes lanes' ∧ lanes_pids lanes' = lanes_pids lanes ∖ {[pid]}
  else terminate_in lanes pid now = Some (error ErrorCode.NotFound, lanes).
Proof.
  induction 1 as [|d lanes Hd Hall IH]; intros Hu; [by rewrite decide_False by apply not_elem_of_empty|].
  destruct (unique_tail d lanes Hu) as [Hdis Hu']. specialize (IH Hu'). simpl.
  assert (lanes_pids (d :: lanes) = disp_pids d ∪ lanes_pids lanes) as -> by done.
  rewrite (law_has d pid Hd). pose proof (law_terminate d pid now Hd) as Ht. case_bool_decide as Hp.
  - rewrite decide_True by (apply elem_of_union; by left). rewrite decide_True in Ht by done.
    destruct Ht as (d' & -> & Hd' & Hpd). cbv beta iota. exists (d' :: lanes). split; [done|].
    split; [by constructor|]. split.
    + constructor; [set_solver|]. clear. induction lanes; by constructor.
    + change (lanes_pids (d' :: lanes)) with (disp_pids d' ∪ lanes_pids lanes). rewrite Hpd. set_solver.
  - destruct (decide (pid ∈ lanes_pids lanes)) as [Hin|Hin].
    + rewrite decide_True by (apply elem_of_union; by right). destruct IH as (lanes' & -> & Hall' & Hs & Hpl).
      cbv beta iota. exists (d :: lanes'). split; [done|]. split; [by constructor|]. split; [by constructor|].
      change (lanes_pids (d :: lanes')) with (disp_pids d ∪ lanes_pids lanes'). rewrite Hpl. set_solver.
    + rewrite decide_False by (intros [?|?]%elem_of_union; done). by rewrite IH.
Qed.

Lemma home_lookup lanes pid : lanes ≠ [] → is_Some (lanes !! home (length lanes) pid).
Proof.
  intros Hl. apply lookup_lt_is_Some_2. unfold home.
  assert (0 < Z.of_nat (length lanes)) as Hn by (destruct lanes; [done|simpl; lia]).
  pose proof (Z.mod_pos_bound pid _ Hn). lia.
Qed.

Lemma elem_of_lanes_insert lanes t d d' q :
  lanes !! t = Some d →
  q ∈ lanes_pids (<[t := d']> lanes) ↔ q ∈ disp_pids d' ∨ ∃ i x, i ≠ t ∧ lanes !! i = Some x ∧ q ∈ disp_pids x.
Proof.
  intros Ht. rewrite elem_of_lanes_pids. split.
  - intros (i & x & [(<- & <- & _)|[Hne Hi]]%list_lookup_insert_Some & Hq); [by left|right; eauto].
  - intros [Hq|(i & x & Hne & Hi & Hq)].
    + exists t, d'. split; [|done]. apply list_lookup_insert_eq. by eapply lookup_lt_Some.
    + exists i, x. by rewrite list_lookup_insert_ne.
Qed.

Lemma mp_create_ok m im now :
  mp_wf m → unborn im →
  ∃ r m', createProcess m (Some im) now = Some (r, m') ∧ mp_wf m' ∧
    match r with
    | ok _ => image_pid im ≠ INVALID_PID ∧ image_pid im ∉ lanes_pids (dispatchers m) ∧
        lanes_pids (dispatchers m') = {[image_pid im]} ∪ lanes_pids (dispatchers m)
    | error _ => lanes_pids (dispatchers m') = lanes_pids (dispatchers m)
    end.
Proof.
  intros Hw Hn. pose proof Hw as [Hrt Hall Hro]. unfold createProcess.
  case_decide as Hl; [by do 2 eexists|]. fold (image_pid im).
  destruct (Z.eqb_spec (image_pid im) INVALID_PID) as [|Hne]; [by do 2 eexists|].
  set (t := Z.to_nat _). change t with (home (length (dispatchers m)) (image_pid im)) in *. clear t.
  set (t := home _ _). destruct (home_lookup (dispatchers m) (image_pid im) Hl) as [d Hd]. fold t in Hd. rewrite Hd.
  destruct (law_create d im now (Forall_lookup_1 _ _ _ _ Hall Hd) Hn) as (r & d' & -> & Hd' & Hr). cbv beta iota.
  do 2 eexists. split; [done|].
  assert (disp_pids d' ⊆ {[image_pid im]} ∪ disp_pids d) as Hsub.
  { destruct r; [destruct Hr as (_ & _ & ->); done|rewrite Hr; set_solver]. }
  split; [split; [done|by apply Forall_insert|]|].
  - simpl. rewrite length_insert. intros i x q [(<- & <- & _)|[Hti Hi]]%list_lookup_insert_Some Hq; [|by eapply Hro].
    apply Hsub, elem_of_union in Hq as [->%elem_of_singleton|Hq]; [done|by eapply Hro].
  - assert (∀ q, q ∈ lanes_pids (dispatchers m) ↔
      q ∈ disp_pids d ∨ ∃ i x, i ≠ t ∧ dispatchers m !! i = Some x ∧ q ∈ disp_pids x) as Hq.
    { intros q. rewrite <-(elem_of_lanes_insert _ t d d q Hd), list_insert_id by done. done. }
    destruct r.
    + destruct Hr as (Hi & Hnot & Hp). split; [done|]. split.
      * intros (i & x & Hix & Hx)%elem_of_lanes_pids. pose proof (Hro i x _ Hix Hx) as ->. fold t in Hix. congruence.
      * apply set_eq. intros q. simpl. rewrite (elem_of_lanes_insert _ t d d') by done. rewrite elem_of_union, Hq, Hp.
        rewrite elem_of_union. tauto.
    + apply set_eq. intros q. simpl. rewrite (elem_of_lanes_insert _ t d d') by done. by rewrite Hq, Hr.
Qed.

Lemma lanes_move (Q : D → D → Prop) lanes lanes' :
  (∀ d d', disp_inv d → Q d d' → disp_inv d' ∧ disp_pids d' ⊆ disp_pids d) →
  Forall disp_inv lanes → lanes' = lanes ∨ Forall2 Q lanes lanes' →
  Forall disp_inv lanes' ∧ length lanes' = length lanes ∧ Forall2 (λ d d', disp_pids d' ⊆ disp_pids d) lanes lanes'.
Proof.
  intros HQ Hall [->|Hs].
  - split_and!; [done..|]. clear. induction lanes; by constructor.
  - split_and!; [|by apply Forall2_length in Hs|].
    all: induction Hs as [|d d' l l' Hd _ IH]; constructor; inversion Hall as [|? ? Hi Hall']; subst;
      first [by destruct (HQ d d' Hi Hd) | by apply IH].
Qed.

#[global, program] Instance composite_lawful : LawfulDispatcher (MPDispatcher.t D R) := {|
  disp_inv := mp_wf;
  disp_pids m := lanes_pids (dispatchers m)
|}.
Next Obligation. intros m pid []. by apply has_lanes_pids. Qed.
Next Obligation.
  intros m Hw. pose proof Hw as []. apply count_lanes; [done|]. intros pid i j x y. by apply (routed_unique m).
Qed.
Next Obligation. intros m im now Hw Hn. by apply mp_create_ok. Qed.
Next Obligation. done. Qed.
Next Obligation.
  intros m n r m' [Hrt Hall Hro]. simpl. unfold dispatch.
  destruct (rt_dispatch _ _ _) as [[[r0 lanes'] rt']|] eqn:Hx; [|done]. intros [= <- <-].
  destruct (law_rt_dispatch _ _ _ _ _ _ Hrt Hall Hx) as (Hrt' & Hok & Hs).
  destruct (lanes_move (lane_step n) (dispatchers m) lanes') as (Hall' & Hl & Hs'); [|done|done|].
  { intros d d' Hd [r1 Hr1]. destruct (law_dispatch d n r1 d' Hd Hr1) as (? & ? & _). done. }
  split; [|split; [by apply pids_shrink|done]]. split; [done|done|]. simpl. rewrite Hl. by eapply routed_shrink.
Qed.
Next Obligation.
  intros m pid now Hw. pose proof Hw as [Hrt Hall Hro]. simpl. unfold terminateProcess.
  pose proof (terminate_in_ok (dispatchers m) pid now Hall) as Ht.
  destruct (decide (pid ∈ lanes_pids (dispatchers m))) as [Hin|Hin].
  - destruct Ht as (lanes' & -> & Hall' & Hs & Hp); [intros ? ? ? ? ?; by apply (routed_unique m)|].
    eexists. split; [done|]. split; [|done]. split; [done|done|]. simpl. rewrite <-(Forall2_length _ _ _ Hs).
    by eapply routed_shrink.
  - rewrite Ht; [by destruct m|intros ? ? ? ? ?; by apply (routed_unique m)].
Qed.
Next Obligation.
  intros m m' [Hrt Hall Hro]. simpl. unfold tick.
  destruct (rt_tick _ _) as [[lanes' rt']|] eqn:Hx; [|done]. intros [= <-].
  destruct (law_rt_tick _ _ _ _ Hrt Hx) as (Hrt' & Hs).
  assert (∀ d d', disp_inv d → lane_tick d d' → disp_inv d' ∧ disp_pids d' = disp_pids d) as Ht.
  { intros d d'. apply law_tick. }
  destruct (lanes_move lane_tick (dispatchers m) lanes') as (Hall' & Hl & Hs'); [|done|done|].
  { intros d d' Hd Hd'. destruct (Ht d d' Hd Hd') as [? ->]. done. }
  split; [split; [done|done|simpl; rewrite Hl; by eapply routed_shrink]|]. simpl.
  destruct Hs as [->|Hs]; [done|]. apply pids_same. clear -Hs Hall Ht.
  induction Hs as [|d d' l l' Hd _ IH]; constructor; inversion Hall; subst; [by apply Ht|by apply IH].
Qed.
End composite.

(** ** What a dispatcher promises: a table of processes *)
Inductive table_op := TCreate (im : OwnedImage) (now : Z) | TDispatch (budget : nat) | TTerminate (pid now : Z) | TTick.

Inductive table_spec : gset Z → table_op → Result unit → gset Z → Prop :=
| spec_created T im now :
    image_pid im ≠ INVALID_PID → image_pid im ∉ T →
    table_spec T (TCreate im now) (ok tt) ({[image_pid im]} ∪ T)
| spec_refused T im now e : table_spec T (TCreate im now) (error e) T
| spec_dispatched T T' n r : T' ⊆ T → r ≠ error ErrorCode.Ok → table_spec T (TDispatch n) r T'
| spec_terminated T pid now : pid ∈ T → table_spec T (TTerminate pid now) (ok tt) (T ∖ {[pid]})
| spec_unknown T pid now : pid ∉ T → table_spec T (TTerminate pid now) (error ErrorCode.NotFound) T
| spec_ticked T : table_spec T TTick (ok tt) T.

Inductive table_runs : gset Z → list table_op → list (Result unit) → gset Z → Prop :=
| table_done T : table_runs T [] [] T
| table_more T1 T2 T3 op ops r rs :
    table_spec T1 op r T2 → table_runs T2 ops rs T3 → table_runs T1 (op :: ops) (r :: rs) T3.

Section table.
Context {D : Type} `{HD : !IDispatcher D} `{HLD : !LawfulDispatcher D}.

Definition table_step (d : D) (op : table_op) : option (Result unit * D) :=
  match op with
  | TCreate im now => createProcess d (Some im) now
  | TDispatch n => dispatch d n
  | TTerminate pid now => terminateProcess d pid now
  | TTick => let! d' := tick d in Some (ok tt, d')
  end.
Fixpoint table_run (d : D) (ops : list table_op) : option (list (Result unit) * D) :=
  match ops with
  | [] => Some ([], d)
  | op :: ops' =>
      let! (r, d1) := table_step d op in let! (rs, d2) := table_run d1 ops' in Some (r :: rs, d2)
  end.
Definition unborn_op (op : table_op) : Prop := match op with TCreate im _ => unborn im | _ => True end.

Lemma table_step_ok d op r d' :
  disp_inv d → unborn_op op → table_step d op = Some (r, d') →
  disp_inv d' ∧ table_spec (disp_pids d) op r (disp_pids d').
Proof.
  intros Hd Hu. destruct op as [im now|n|pid now|]; simpl.
  - destruct (law_create d im now Hd Hu) as (r0 & d0 & -> & Hd0 & Hr). intros [= <- <-]. split; [done|].
    destruct r0 as [[]|e]; [destruct Hr as (? & ? & ->)|rewrite Hr]; by constructor.
  - intros Hx. destruct (law_dispatch d n r d' Hd Hx) as (? & ? & ?). split; [done|]. by constructor.
  - pose proof (law_terminate d pid now Hd) as Ht. case_decide.
    + destruct Ht as (d0 & -> & Hd0 & Hp). intros [= <- <-]. split; [done|]. rewrite Hp. by constructor.
    + rewrite Ht. intros [= <- <-]. split; [done|]. by constructor.
  - destruct (tick d) as [d0|] eqn:Hx; [|done]. intros [= <- <-]. destruct (law_tick d d0 Hd Hx) as [? ->].
    split; [done|constructor].
Qed.
Lemma table_run_ok d ops rs d' :
  disp_inv d → Forall unborn_op ops → table_run d ops = Some (rs, d') →
  disp_inv d' ∧ table_runs (disp_pids d) ops rs (disp_pids d').
Proof.
  intros Hd Hu. revert d rs Hd. induction Hu as [|op ops Hop _ IH]; intros d rs Hd; simpl.
  { intros [= <- <-]. split; [done|constructor]. }
  destruct (table_step d op) as [[r d1]|] eqn:Hs; [|done]. destruct (table_run d1 ops) as [[rs1 d2]|] eqn:Hr; [|done].
  intros [= <- <-]. destruct (table_step_ok d op r d1 Hd Hop Hs) as [Hd1 Hsp].
  destruct (IH d1 rs1 Hd1 Hr) as [? ?]. split; [done|]. by econstructor.
Qed.
End table.

(** C7: a composite is one process table.  Over any lawful dispatchers and
    either runtime, every run of its calls is a run of a single table: a
    creation that succeeds adds exactly that process and is refused for a
    process that any lane has, a termination removes exactly its process, a
    dispatch only ever removes.  And every process stays where it was created,
    in the lane its identifier names modulo the number of lanes. *)
Theorem composite_refines {D R} `{HD : !IDispatcher D} `{HLD : !LawfulDispatcher D} `{HR : !IDispatchRuntime R D}
    `{HLR : !LawfulRuntime R D} (m : MPDispatcher.t D R) ops rs m' :
  mp_wf m → Forall unborn_op ops → table_run m ops = Some (rs, m') →
  table_runs (lanes_pids (MPDispatcher.dispatchers m)) ops rs (lanes_pids (MPDispatcher.dispatchers m')) ∧
  MPDispatcher.processCount m' = size (lanes_pids (MPDispatcher.dispatchers m')) ∧
  (∀ pid, MPDispatcher.hasProcess m' pid = true ↔ pid ∈ lanes_pids (MPDispatcher.dispatchers m')) ∧
  ∀ i d pid, MPDispatcher.dispatchers m' !! i = Some d → hasProcess d pid = true →
    i = home (length (MPDispatcher.dispatchers m')) pid.
Proof.
  intros Hw Hu Hr. destruct (table_run_ok (HLD:=composite_lawful) m ops rs m' Hw Hu Hr) as [Hw' Hruns]. split; [done|].
  split; [exact (law_count (LawfulDispatcher:=composite_lawful) m' Hw')|]. split.
  - intros pid. pose proof (law_has (LawfulDispatcher:=composite_lawful) m' pid Hw') as Hh. simpl in Hh. rewrite Hh. by rewrite bool_decide_eq_true.
  - intros i d pid Hi Hp. apply (mp_routed _ Hw' i d pid Hi).
    rewrite law_has in Hp by (eapply Forall_lookup_1; [apply (mp_lanes _ Hw')|done]). by apply bool_decide_eq_true in Hp.
Qed.

(** ** Concrete runs *)
Section demo.
#[local] Instance demo_order : HashOrder := canonical_order.
#[local] Instance demo_cast : FloatCast := λ _, 0.
Notation lane := (dispatcher Policies.policy (machine PhysicalMemory.t ClockReplacement.t)).

(** Two threads that steal lanes from each other, three lanes. *)
Definition demo_pool : DispatcherPool.t := DispatcherPool.make (MkConfig 2 false true).
Definition demo_lanes : list lane := [after [exiting 3; calling 6]; after [calling 1]; after []].
Definition demo_schedule : list nat := [0;1;1;1;0;0;1;0;1;1;1;0;1;0;1]%nat.

Lemma demo_lanes_inv : Forall disp_inv demo_lanes.
Proof.
  repeat first [apply Forall_nil_2 | apply Forall_cons_2];
    (apply after_wf; [repeat first [apply Forall_nil_2 | apply Forall_cons_2; [first [exact I|discriminate]|]]
                     |vm_compute; eexists; reflexivity]).
Qed.

Lemma pool_equals_serial_witness :
  match SerialDispatchRuntime.dispatch_lanes demo_lanes 5 with
  | Some (r, lanes') =>
      ∃ p', DispatcherPool.dispatch_lanes (λ _, true) demo_schedule demo_pool demo_lanes 5 = Some (r, lanes', p') ∧
        map DispatcherPool.details (DispatcherPool.lastTraceEvents p') ≡ₚ map lane_details [0; 1; 2]%nat
  | None => False
  end.
Proof.
  destruct (SerialDispatchRuntime.dispatch_lanes demo_lanes 5) as [[r lanes']|] eqn:Hs.
  2: { vm_compute in Hs. discriminate Hs. }
  destruct (DispatcherPool.run_workers demo_schedule (DispatcherPool.resetJobState
    (DispatcherPool.ensureWorkersStarted (λ _, true) demo_pool).2 DispatcherPool.DispatchJob 3 5) demo_lanes)
    as [[q ls]|] eqn:Hr.
  2: { vm_compute in Hr. discriminate Hr. }
  destruct (pool_equals_serial demo_pool demo_lanes 5 (λ _, true) r lanes' (ready_make _) (λ _, eq_refl)
    ltac:(discriminate) demo_lanes_inv Hs demo_schedule q ls Hr) as [_ [[Hn _]|(p' & Hd & _ & Hp & _)]].
  - vm_compute in Hn. discriminate Hn.
  - exists p'. split; [exact Hd|exact Hp].
Defined.

(** A composite of three empty lanes on that pool. *)
Definition newborn (id : Z) (code : list Block) : OwnedImage :=
  MkOwned (MkPCB id "p" New Priority_default (MkTiming 0 0 0 0 0 0 0 0 0) (MkAddressInfo NULL_ADDRESS NULL_ADDRESS 0 0))
    RegisterFile.init code.
Definition demo_composite : MPDispatcher.t lane DispatcherPool.hosted :=
  MPDispatcher.Mk [after []; after []; after []] (DispatcherPool.MkHosted demo_pool (λ _, true) [demo_schedule]).
Definition demo_calls : list table_op :=
  [TCreate (newborn 4 [MkBlock Halt 0 0 0]) 0; TCreate (newborn 5 [MkBlock Interrupt_ 0 Interrupt.SystemCall 0]) 0;
   TCreate (newborn 4 []) 0; TDispatch 5; TTerminate 5 1; TTerminate 5 1].

Lemma demo_composite_wf : mp_wf demo_composite.
Proof.
  split.
  - split; [apply ready_make|done].
  - repeat first [apply Forall_nil_2 | apply Forall_cons_2];
      (apply after_wf; [apply Forall_nil_2|vm_compute; eexists; reflexivity]).
  - intros i d pid Hi Hp. exfalso.
    assert (d = after []) as -> by (destruct i as [|[|[|i]]]; [injection Hi as <-; reflexivity..|discriminate Hi]).
    change (pid ∈ dom (d_processes (after []))) in Hp. apply elem_of_dom in Hp as [im Hp]. vm_compute in Hp. discriminate Hp.
Qed.

Lemma composite_refines_witness :
  match table_run demo_composite demo_calls with
  | Some (rs, m') =>
      rs = [ok tt; ok tt; error ErrorCode.AlreadyExists; ok tt; ok tt; error ErrorCode.NotFound] ∧
      MPDispatcher.processCount m' = 0%nat ∧
      table_runs (lanes_pids (MPDispatcher.dispatchers demo_composite)) demo_calls rs
        (lanes_pids (MPDispatcher.dispatchers m'))
  | None => False
  end.
Proof.
  destruct (table_run demo_composite demo_calls) as [[rs m']|] eqn:Hr.
  2: { vm_compute in Hr. discriminate Hr. }
  assert (Forall unborn_op demo_calls) as Hu.
  { repeat first [apply Forall_nil_2 | apply Forall_cons_2; [first [exact I|reflexivity]|]]. }
  destruct (composite_refines demo_composite demo_calls rs m' demo_composite_wf Hu Hr) as [Hruns _].
  split; [|split; [|exact Hruns]]; vm_compute in Hr; injection Hr as <- <-; vm_compute; reflexivity.
Defined.
End demo.
