(* ===== verification/Kernel.v ===== *)
(** * Kernel: [kernel/kernel.cpp], [kernel/kernel_builder.cpp] and
    [syscall/syscall_table.cpp]

    The facade over the dispatcher: process creation with its choice of
    identifiers, dispatch cycles, system calls on behalf of a process, named
    synchronisation primitives, and the snapshot the user interface reads.

    The objects a kernel owns reach each other through references, so the state
    they share (clock, scheduler, memory, engine, process table) is the
    dispatcher's; [Dependencies] says which of the owning pointers are set. *)
From stdpp Require Import pretty.
From S2P Require Import Prelude Core Arch Process Policies Scheduler Interp Sync Dispatcher.
Local Open Scope Z_scope.

(** ** [syscall/syscall_ids.h]: an enumeration with underlying type
    [std::uint16_t], every value of which is a legal identifier *)
Module SyscallId.
Definition Exit : Z := 0.
Definition Write : Z := 1.
Definition Read : Z := 2.
Definition Fork : Z := 3.
Definition Exec : Z := 4.
Definition Wait : Z := 5.
Definition Open : Z := 10.
Definition Close : Z := 11.
Definition CreatePipe : Z := 20.
Definition SendMessage : Z := 21.
Definition ReceiveMessage : Z := 22.
Definition ShmCreate : Z := 23.
Definition ShmAttach : Z := 24.
Definition MutexLock : Z := 30.
Definition MutexUnlock : Z := 31.
Definition SemWait : Z := 32.
Definition SemSignal : Z := 33.
Definition GetPid : Z := 40.
Definition GetTime : Z := 41.
Definition Yield : Z := 42.
End SyscallId.

(** ** [syscall/syscall_table.cpp] *)
Module SyscallTable.

(** A handler is the client's code: it reads the arguments and may change the
    calling process. *)
Definition HandlerFn : Type := list Z → PCB → ProcessImage → option (Result Z * PCB * ProcessImage).
Record t := Mk { handlers : gmap Z HandlerFn }.
Definition make : t := Mk ∅.

Definition registerHandler (s : t) (id : Z) (handler : option HandlerFn) : Result unit * t :=
  match handler with
  | None => (error ErrorCode.InvalidArgument, s)
  | Some h => (ok tt, Mk (<[id := h]> (handlers s)))
  end.
(** The overload for an [ISyscallHandler] object. *)
Definition registerObject (s : t) (id : Z) (handle : Z → HandlerFn) : Result unit * t :=
  registerHandler s id (Some (handle id)).
Definition unregisterHandler (s : t) (id : Z) : Result unit * t :=
  match handlers s !! id with
  | None => (error ErrorCode.NotFound, s)
  | Some _ => (ok tt, Mk (delete id (handlers s)))
  end.
Definition dispatch (s : t) (id : Z) (args : list Z) (p : PCB) (im : ProcessImage)
    : option (Result Z * PCB * ProcessImage) :=
  match handlers s !! id with
  | None => Some (error ErrorCode.NotFound, p, im)
  | Some h => h args p im
  end.
Definition hasHandler (s : t) (id : Z) : bool := bool_decide (is_Some (handlers s !! id)).
Definition handlerCount (s : t) : nat := size (handlers s).
End SyscallTable.

(** ** [kernel/i_kernel.h] *)
Record ProcessConfig := MkProcessConfig {
  cfg_id : Z;
  cfg_name : string;
  cfg_code : list Block;
  cfg_priority : Priority;
  cfg_arrivalTime : Z
}.

Record KernelProcessSnapshot := MkRow {
  row_id : Z;
  row_name : string;
  row_state : ProcessState;
  row_base : PriorityLevel;
  row_effective : PriorityLevel;
  row_nice : Z;
  row_cpuTime : Z;
  row_laneIndex : option nat
}.

Record KernelSnapshot := MkSnapshot {
  sn_currentTick : Z;
  sn_processCount : nat;
  sn_readyCount : nat;
  sn_blockedCount : nat;
  sn_runningPids : list Z;
  sn_readyQueue : list Z;
  sn_blockedQueue : list Z;
  sn_perLaneReadyQueues : list (list Z);
  sn_policyName : string;
  sn_processes : list KernelProcessSnapshot;
  sn_totalVirtualSlots : nat;
  sn_freeVirtualSlots : nat;
  sn_totalFrames : option nat;
  sn_freeFrames : option nat;
  sn_frameOwners : list (option Z)
}.

(** [KernelDependencies]: which owning pointers are set. *)
Record Dependencies := MkDeps {
  has_clock : bool; has_memory : bool; has_mmu : bool; has_virtualMemory : bool; has_cpu : bool;
  has_executionEngine : bool; has_scheduler : bool; has_dispatcher : bool; has_tracer : bool;
  has_fileSystem : bool; has_ipcManager : bool; has_syscallTable : bool
}.

Section kernel.
Context {P W Prim : Type} `{!ISchedulingPolicy P} `{!FloatCast} `{!IVirtualMemory W} `{!IExecutionEngine W}.
Context `{!ISyncPrimitive Prim}.

Record kernel := MkKernel {
  k_deps : Dependencies;
  k_sys : dispatcher P W;
  k_syscalls : SyscallTable.t;
  k_syncPrimitives : gmap string Prim;
  k_processRefs : gmap Z Z;
  k_nextPid : Z;
  k_defaultTickBudget : nat
}.
Implicit Types (k : kernel) (pid : Z).

Definition set_sys k (d : dispatcher P W) : kernel :=
  MkKernel (k_deps k) d (k_syscalls k) (k_syncPrimitives k) (k_processRefs k) (k_nextPid k) (k_defaultTickBudget k).
Definition set_refs k (m : gmap Z Z) : kernel :=
  MkKernel (k_deps k) (k_sys k) (k_syscalls k) (k_syncPrimitives k) m (k_nextPid k) (k_defaultTickBudget k).
Definition set_nextPid k (n : Z) : kernel :=
  MkKernel (k_deps k) (k_sys k) (k_syscalls k) (k_syncPrimitives k) (k_processRefs k) n (k_defaultTickBudget k).
Definition set_syscalls k (t : SyscallTable.t) : kernel :=
  MkKernel (k_deps k) (k_sys k) t (k_syncPrimitives k) (k_processRefs k) (k_nextPid k) (k_defaultTickBudget k).
Definition set_syncs k (m : gmap string Prim) : kernel :=
  MkKernel (k_deps k) (k_sys k) (k_syscalls k) m (k_processRefs k) (k_nextPid k) (k_defaultTickBudget k).

Definition k_now k : Z := SimulationClock.now (d_clock (k_sys k)).

(** ** [KernelBuilder::build] *)
Definition hasAllRequiredDependencies (d : Dependencies) : bool :=
  has_clock d && has_memory d && has_mmu d && has_virtualMemory d && has_cpu d && has_executionEngine d &&
  has_scheduler d && has_dispatcher d && has_tracer d && has_fileSystem d && has_ipcManager d && has_syscallTable d.
Definition Kernel_make (d : Dependencies) (sys : dispatcher P W) (t : SyscallTable.t) (budget : nat) : kernel :=
  MkKernel d sys t ∅ ∅ 1 budget.
Definition build (d : Dependencies) (sys : dispatcher P W) (t : SyscallTable.t) (budget : nat) : Result kernel :=
  if negb (hasAllRequiredDependencies d) then error ErrorCode.InvalidState else
  if (budget =? 0)%nat then error ErrorCode.InvalidArgument else
  ok (Kernel_make d sys t budget).

(** ** Processes *)
Definition processExists k pid : bool := has_dispatcher (k_deps k) && hasProcess (k_sys k) pid.
Definition pruneDeadProcessRefs k : kernel :=
  set_refs k (filter (λ '(pid, _), processExists k pid = true) (k_processRefs k)).

(** The loop of [allocatePid] with the iterations it has left. *)
Fixpoint allocate_loop (tries : nat) (d : dispatcher P W) (next : Z) : Z * Z :=
  match tries with
  | O => (INVALID_PID, next)
  | S tries =>
      let candidate := if next =? INVALID_PID then 1 else next in
      let next := u32 (candidate + 1) in
      if hasProcess d candidate then allocate_loop tries d next else (candidate, next)
  end.
Definition allocatePid k : Z * kernel :=
  if negb (has_dispatcher (k_deps k)) then (INVALID_PID, k) else
  let '(pid, next) := allocate_loop MAX_PROCESSES (k_sys k) (k_nextPid k) in (pid, set_nextPid k next).

Definition admit_process k (config : ProcessConfig) pid : option (Result Z * kernel) :=
  let name := if decide (cfg_name config = "") then "process-" +:+ pretty pid else cfg_name config in
  let arrival := if cfg_arrivalTime config =? 0 then k_now k else cfg_arrivalTime config in
  let! (im, d) := new_image (k_sys k) pid name (cfg_code config) (cfg_priority config) arrival in
  let! (created, d') := createProcess d (Some im) (k_now k) in
  match created with
  | error e => Some (error e, set_sys k d')
  | ok _ => Some (ok pid, set_refs (set_sys k d') (emplace pid (im_pcb im) (k_processRefs k)))
  end.
Definition k_createProcess k (config : ProcessConfig) : option (Result Z * kernel) :=
  if negb (has_dispatcher (k_deps k)) || negb (has_clock (k_deps k)) || negb (has_tracer (k_deps k))
  then Some (error ErrorCode.InvalidState, k) else
  if decide (cfg_code config = []) then Some (error ErrorCode.InvalidArgument, k) else
  if cfg_id config =? INVALID_PID then
    let '(pid, k') := allocatePid k in
    if pid =? INVALID_PID then Some (error ErrorCode.OutOfMemory, k') else admit_process k' config pid
  else if hasProcess (k_sys k) (cfg_id config) then Some (error ErrorCode.AlreadyExists, k)
  else admit_process k config (cfg_id config).

Definition k_terminateProcess k pid : option (Result unit * kernel) :=
  if negb (has_dispatcher (k_deps k)) || negb (has_clock (k_deps k)) || negb (has_tracer (k_deps k))
  then Some (error ErrorCode.InvalidState, k) else
  let! (terminated, d) := terminateProcess (k_sys k) pid (k_now k) in
  match terminated with
  | error e => Some (error e, set_sys k d)
  | ok _ => Some (ok tt, set_refs (set_sys k d) (delete pid (k_processRefs k)))
  end.

(** ** Dispatch cycles *)
Definition cycle_budget k (tickBudget : nat) : nat :=
  let budget := if (tickBudget =? 0)%nat then k_defaultTickBudget k else tickBudget in
  if (budget =? 0)%nat then 1%nat else budget.
Definition k_tick k (tickBudget : nat) : option (Result unit * kernel) :=
  if negb (has_dispatcher (k_deps k)) || negb (has_tracer (k_deps k)) then Some (error ErrorCode.InvalidState, k) else
  let! (result, d) := dispatch (k_sys k) (cycle_budget k tickBudget) in
  Some (result, pruneDeadProcessRefs (set_sys k d)).

Fixpoint run_cycles (cycles : nat) k (tickBudget : nat) (anyWorkDone : bool) : option (Result unit * kernel) :=
  match cycles with
  | O => Some (ok tt, k)
  | S cycles =>
      let! (tickResult, k') := k_tick k tickBudget in
      match tickResult with
      | ok _ => run_cycles cycles k' tickBudget true
      | error e =>
          if decide (e = ErrorCode.NotFound)
          then Some (if anyWorkDone then ok tt else error e, k')
          else Some (error e, k')
      end
  end.
Definition runForTicks k (cycles tickBudget : nat) : option (Result unit * kernel) :=
  run_cycles cycles k tickBudget false.

(** ** System calls *)

(** Dereferencing a process reference: the image that embeds the control block
    at that address, as long as it is alive. *)
Definition image_at (d : dispatcher P W) (r : Z) : option (Z * PCB * ProcessImage) :=
  let! p := d_heap d !! r in
  let! (pid, im) := head (filter (λ x, im_pcb x.2 = r) (map_to_list (d_processes d))) in Some (pid, p, im).
Definition store_image (d : dispatcher P W) (pid r : Z) (p : PCB) (im : ProcessImage) : dispatcher P W :=
  set_images (set_heap d (<[r := p]> (d_heap d))) (<[pid := im]> (d_processes d)).

Definition syscall k pid (id : Z) (args : list Z) : option (Result Z * kernel) :=
  if negb (has_syscallTable (k_deps k)) || negb (has_dispatcher (k_deps k))
  then Some (error ErrorCode.InvalidState, k) else
  match k_processRefs k !! pid with
  | Some r =>
      if hasProcess (k_sys k) pid then
        let! (key, p, im) := image_at (k_sys k) r in
        let! (res, p', im') := SyscallTable.dispatch (k_syscalls k) id args p im in
        Some (res, set_sys k (store_image (k_sys k) key r p' im'))
      else Some (error ErrorCode.NotFound, set_refs k (delete pid (k_processRefs k)))
  | None => Some (error ErrorCode.NotFound, set_refs k (delete pid (k_processRefs k)))
  end.
Definition registerSyscallHandler k (id : Z) (handler : option SyscallTable.HandlerFn) : Result unit * kernel :=
  if negb (has_syscallTable (k_deps k)) then (error ErrorCode.InvalidState, k) else
  let '(r, t) := SyscallTable.registerHandler (k_syscalls k) id handler in (r, set_syscalls k t).

(** ** Named synchronisation primitives *)
Definition registerSyncPrimitive k (name : string) (primitive : option Prim) : Result unit * kernel :=
  match primitive with
  | None => (error ErrorCode.InvalidArgument, k)
  | Some s =>
      if decide (name = "") then (error ErrorCode.InvalidArgument, k) else
      match k_syncPrimitives k !! name with
      | Some _ => (error ErrorCode.AlreadyExists, k)
      | None => (ok tt, set_syncs k (<[name := s]> (k_syncPrimitives k)))
      end
  end.
Definition enterCritical k pid (name : string) : Result unit * kernel :=
  match k_syncPrimitives k !! name with
  | None => (error ErrorCode.NotFound, k)
  | Some s => let '(r, s') := acquire s pid in (r, set_syncs k (<[name := s']> (k_syncPrimitives k)))
  end.
Definition leaveCritical k pid (name : string) : Result unit * kernel :=
  match k_syncPrimitives k !! name with
  | None => (error ErrorCode.NotFound, k)
  | Some s => let '(r, s') := release s pid in (r, set_syncs k (<[name := s']> (k_syncPrimitives k)))
  end.

(** ** Observers *)
Definition now k : Z := if has_clock (k_deps k) then k_now k else 0.
Definition k_hasProcess k pid : bool := if has_dispatcher (k_deps k) then hasProcess (k_sys k) pid else false.
Definition k_processCount k : nat := if has_dispatcher (k_deps k) then processCount (k_sys k) else 0%nat.

(** [laneByPid]: a later lane overwrites an earlier one. *)
Definition lanes_by_pid (queues : list (list Z)) : gmap Z nat :=
  foldl (λ m '(lane, q), foldl (λ m pid, <[pid := lane]> m) m q) ∅ (imap (λ lane q, (lane, q)) queues).

Definition row_of (lanes : gmap Z nat) pid (p : PCB) : KernelProcessSnapshot :=
  MkRow pid (pcb_name p) (state p) (Process.base (priority p)) (Process.effective (priority p)) (Process.nice (priority p))
    (Process.totalCpuTime (timing p)) (lanes !! pid).
Definition row_le (a b : KernelProcessSnapshot) : Prop := row_id a ≤ row_id b.
#[global] Instance row_le_dec : RelDecision row_le.
Proof. intros a b. unfold row_le. apply _. Defined.

(** The rows are collected in the table's own order and sorted by identifier,
    which no two share. *)
Definition process_rows k (lanes : gmap Z nat) : option (list KernelProcessSnapshot) :=
  let! rows := mapM (λ '(pid, r), let! (_, p, _) := image_at (k_sys k) r in Some (row_of lanes pid p))
                 (map_to_list (k_processRefs k)) in
  Some (merge_sort row_le rows).

(** Nothing fills in the frame figures. *)
Definition snapshot k : option KernelSnapshot :=
  let s := d_scheduler (k_sys k) in
  let h := d_heap (k_sys k) in
  let tick := now k in
  let count := k_processCount k in
  let total := if has_virtualMemory (k_deps k) then totalSlots (d_world (k_sys k)) else 0%nat in
  let free := if has_virtualMemory (k_deps k) then freeSlots (d_world (k_sys k)) else 0%nat in
  if has_scheduler (k_deps k) then
    let! ready := getQueueSnapshot s h in
    let! waiting := getBlockedSnapshot s h in
    let! running := runningProcesses s h in
    let! queues := getPerLaneQueueSnapshot s h in
    let! rows := process_rows k (lanes_by_pid queues) in
    Some (MkSnapshot tick count (length ready) (length waiting) running ready waiting queues
            (sched_policyName s) rows total free None None [])
  else Some (MkSnapshot tick count 0 0 [] [] [] [] "" [] total free None None []).
End kernel.
Arguments kernel : clear implicits.
