(* ===== verification/KernelProps.v ===== *)
(** * KernelProps: the kernel's invariant

    The kernel's table of process references names exactly the live images, so
    that no reference it follows dangles; every call keeps it so. *)
From stdpp Require Import pretty.
From S2P Require Import Prelude Core Arch Process Policies Scheduler SchedInvariant SchedProps.
From S2P Require Import SchedSteps SchedRun SchedTheorems Interp Sync Dispatcher DispatcherProps DispatcherTheorems Kernel.
Local Open Scope Z_scope.

(** A handler that neither swaps nor reschedules the process it serves. *)
Definition polite (h : SyscallTable.HandlerFn) : Prop :=
  ∀ args p im, ∃ res p' im', h args p im = Some (res, p', im') ∧ im_pcb im' = im_pcb im ∧
    pcb_id p' = pcb_id p ∧ state p' = state p.

Section invariant.
Context {P : Type} `{HP : !ISchedulingPolicy P} `{HL : !LawfulSchedulingPolicy P} `{HF : !FloatCast}.
Context {W : Type} `{HV : !IVirtualMemory W} `{HE : !IExecutionEngine W} `{HM : !LawfulMachine W}.
Context {Prim : Type} `{HS : !ISyncPrimitive Prim}.
Implicit Types (d : dispatcher P W) (k : kernel P W Prim) (r pid : Z) (im : ProcessImage).

Record kernel_wf k : Prop := {
  kw_deps : hasAllRequiredDependencies (k_deps k) = true;
  kw_sys : disp_wf None (k_sys k);
  kw_refs : k_processRefs k = im_pcb <$> d_processes (k_sys k);
  kw_next : is_u32 (k_nextPid k);
  kw_handlers : map_Forall (λ _, polite) (SyscallTable.handlers (k_syscalls k))
}.

Lemma deps_all (x : Dependencies) :
  hasAllRequiredDependencies x = true →
  has_clock x = true ∧ has_virtualMemory x = true ∧ has_scheduler x = true ∧ has_dispatcher x = true ∧
  has_tracer x = true ∧ has_syscallTable x = true.
Proof. unfold hasAllRequiredDependencies. rewrite !andb_true_iff. tauto. Qed.

(** ** Following a reference *)
Lemma image_at_live d pid im :
  disp_wf None d → d_processes d !! pid = Some im →
  ∃ p, image_at d (im_pcb im) = Some (pid, p, im) ∧ d_heap d !! im_pcb im = Some p ∧ pcb_id p = pid.
Proof.
  intros Hw Hi. pose proof (dw_image _ _ Hw pid im Hi) as Hk.
  destruct (w_table _ _ (dw_sched _ _ Hw) _ _ Hk) as [Hpid _]. unfold pid_at in Hpid.
  unfold image_at. destruct (d_heap d !! im_pcb im) as [p|]; [|done]. exists p. simpl in Hpid.
  split; [|split; [done|by injection Hpid]].
  assert ((pid, im) ∈ filter (λ x, im_pcb x.2 = im_pcb im) (map_to_list (d_processes d))) as Hin.
  { apply list_elem_of_filter. split; [done|]. by apply elem_of_map_to_list. }
  destruct (filter _ _) as [|[q x] l] eqn:Hf; [by apply not_elem_of_nil in Hin|]. simpl.
  assert ((q, x) ∈ filter (λ x, im_pcb x.2 = im_pcb im) (map_to_list (d_processes d))) as Hq.
  { rewrite Hf. by left. }
  apply list_elem_of_filter in Hq as [Hx Hq%elem_of_map_to_list].
  pose proof (pids_distinct None d q pid x im Hw Hq Hi Hx) as ->. by simplify_eq.
Qed.

(** A control block changes without its process moving. *)
Lemma sched_wf_store (s : sched P) h r p p' :
  sched_wf s h → h !! r = Some p → pcb_id p' = pcb_id p → state p' = state p → sched_wf s (<[r := p']> h).
Proof.
  intros [H1 H2 H3 H4 H5 H6] Hr Hid Hst. split; try done.
  - intros pid x Hx. destruct (H2 pid x Hx) as [Hp Hn]. split; [|done]. revert Hp. unfold pid_at.
    rewrite lookup_insert. case_decide; [subst; rewrite Hr; simpl; by rewrite Hid|done].
  - intros x st Hm. destruct (H3 x st Hm) as (y & Hy & Hs & Hk). rewrite lookup_insert. case_decide; [subst|by exists y].
    exists p'. simplify_eq. rewrite Hid, Hst. done.
Qed.

Lemma store_image_wf d pid im im' p p' :
  disp_wf None d → d_processes d !! pid = Some im → d_heap d !! im_pcb im = Some p →
  im_pcb im' = im_pcb im → pcb_id p' = pcb_id p → state p' = state p →
  disp_wf None (store_image d pid (im_pcb im) p' im').
Proof.
  intros Hw Hi Hp He Hid Hst. unfold store_image.
  assert (disp_wf None (set_heap d (<[im_pcb im := p']> (d_heap d)))) as Hw1.
  { apply wf_set_sched; [done| |done| |by eauto].
    - eapply sched_wf_store; [apply (dw_sched _ _ Hw)|done..].
    - intros x. rewrite lookup_insert. case_decide; [subst; rewrite Hp; split; by eexists|done]. }
  exact (wf_burst None _ pid im im' (d_world d) Hw1 Hi He (dw_world _ _ Hw) eq_refl).
Qed.

(** ** Dispatching keeps the images that stay *)
Lemma dispatch_images d n res d' :
  disp_wf None d → dispatch d n = Some (res, d') →
  disp_wf None d' ∧
  ∀ q x', d_processes d' !! q = Some x' → ∃ x, d_processes d !! q = Some x ∧ im_pcb x' = im_pcb x.
Proof.
  intros Hw Hd. destruct (dispatch_cases d n Hw)
    as [(e & He & _)|(pid & im & s & h & Hsel & [[_ Hn]|(r & im' & w & _ & Hw2 & Him & Hx)])]; [|congruence|].
  - rewrite He in Hd. injection Hd as <- <-. split; [done|]. intros q x' Hq. by exists x'.
  - pose proof Hsel as [_ Hi]. destruct (selects_wf d pid im s h Hw Hsel) as (_ & _ & _ & Hl & _).
    set (d2 := burst_of _ _ _ _ _ _ _) in *.
    assert (d_processes d2 !! pid = Some im') as Hi2 by apply lookup_insert_eq.
    assert (runningByLane (d_scheduler d2) !! 0%nat = Some (Some (im_pcb im'))) as Hl2 by (simpl; by rewrite Him).
    destruct (after_burst_ok d2 pid im' (ExecutionResult.reason r) 0 Hw2 Hi2 Hl2) as (d3 & Ha & Hw3 & _ & Hcase).
    rewrite Hx, Ha in Hd. injection Hd as <- <-. split; [done|].
    assert (∀ q x', d_processes d2 !! q = Some x' → ∃ x, d_processes d !! q = Some x ∧ im_pcb x' = im_pcb x) as H2.
    { intros q x'. simpl. rewrite lookup_insert_Some. intros [[<- <-]|[_ ?]]; [by exists im|by exists x']. }
    intros q x' Hq. apply H2. revert Hq.
    destruct (ExecutionResult.reason r); [by subst d3|destruct Hcase as (-> & _)..]; try done;
      rewrite lookup_delete_Some; by intros [_ ?].
Qed.

Lemma pruned_refs k d :
  kernel_wf k → (∀ q x', d_processes d !! q = Some x' → ∃ x, d_processes (k_sys k) !! q = Some x ∧ im_pcb x' = im_pcb x) →
  k_processRefs (pruneDeadProcessRefs (set_sys k d)) = im_pcb <$> d_processes d.
Proof.
  intros [Hd _ Hr _ _] Hsub. apply map_eq. intros q. simpl. rewrite Hr, lookup_fmap.
  apply option_eq. intros r. rewrite map_lookup_filter_Some, lookup_fmap. unfold processExists, hasProcess. simpl.
  destruct (deps_all _ Hd) as (_ & _ & _ & -> & _). simpl. rewrite bool_decide_eq_true.
  destruct (d_processes d !! q) as [x'|] eqn:Hq; simpl.
  - destruct (Hsub q x' Hq) as (x & -> & ->). simpl. split; [by intros [? _]|]. intros ?. split; [done|by eexists].
  - split; [intros [_ [? ?]]; done|done].
Qed.

(** ** Choosing identifiers *)
Definition first_candidate (next : Z) : Z := if next =? INVALID_PID then 1 else next.
Definition candidate (next : Z) (i : nat) : Z := 1 + (first_candidate next - 1 + Z.of_nat i) mod (2 ^ 32 - 1).

Lemma first_candidate_range next : is_u32 next → 1 ≤ first_candidate next < 2 ^ 32.
Proof. unfold is_u32, first_candidate, INVALID_PID. intros ?. case_match eqn:E; lia. Qed.
Lemma candidate_0 next : is_u32 next → candidate next 0 = first_candidate next.
Proof.
  intros Hn%first_candidate_range. unfold candidate. rewrite Z.add_0_r, Z.mod_small by lia. lia.
Qed.
Lemma candidate_next next i :
  is_u32 next → candidate (u32 (first_candidate next + 1)) i = candidate next (S i).
Proof.
  intros Hn%first_candidate_range. unfold candidate. set (c := first_candidate next) in *. f_equal.
  assert (first_candidate (u32 (c + 1)) - 1 = c mod (2 ^ 32 - 1)) as ->.
  { unfold first_candidate, u32, INVALID_PID. destruct (decide (c = 2 ^ 32 - 1)) as [->|Hne]; [done|].
    rewrite (Z.mod_small (c + 1)), (Z.mod_small c) by lia. case_match eqn:E; lia. }
  rewrite Z.add_mod_idemp_l by lia. f_equal. lia.
Qed.
Lemma candidate_inj next (i j : nat) :
  Z.of_nat i < 2 ^ 32 - 1 → Z.of_nat j < 2 ^ 32 - 1 → candidate next i = candidate next j → i = j.
Proof.
  unfold candidate. intros Hi Hj He. set (c := first_candidate next - 1) in *. set (M := 2 ^ 32 - 1) in *.
  assert ((c + Z.of_nat i) mod M = (c + Z.of_nat j) mod M) as Hm by lia.
  pose proof (Z.div_mod (c + Z.of_nat i) M ltac:(lia)). pose proof (Z.div_mod (c + Z.of_nat j) M ltac:(lia)). nia.
Qed.

Lemma allocate_loop_spec tries d next :
  is_u32 next →
  let '(pid, next') := allocate_loop tries d next in
  is_u32 next' ∧
  (pid ≠ INVALID_PID ∧ is_u32 pid ∧ hasProcess d pid = false ∨
   pid = INVALID_PID ∧ ∀ i, (i < tries)%nat → hasProcess d (candidate next i) = true).
Proof.
  revert next. induction tries as [|tries IH]; intros next Hn; simpl; [split; [done|right]; split; [done|lia]|].
  fold (first_candidate next). pose proof (first_candidate_range next Hn) as Hc.
  destruct (hasProcess d (first_candidate next)) eqn:Hp.
  - specialize (IH (u32 (first_candidate next + 1)) (u32_range _)).
    destruct (allocate_loop _ _ _) as [pid next']. destruct IH as [Hr [Hf|[-> Hall]]]; split; try done; [by left|right].
    split; [done|]. intros [|i] Hi; [by rewrite candidate_0|]. rewrite <-candidate_next by done. apply Hall. lia.
  - split; [apply u32_range|left]. split_and!; [unfold INVALID_PID; lia|unfold is_u32; lia|done].
Qed.

(** Only a full table makes the search fail. *)
Lemma exhausted tries d next :
  (Z.of_nat tries ≤ 2 ^ 32 - 1) → (∀ i, (i < tries)%nat → hasProcess d (candidate next i) = true) → (tries ≤ processCount d)%nat.
Proof.
  intros Ht Hall. unfold processCount. rewrite <-size_dom.
  assert (list_to_set (candidate next <$> seq 0 tries) ⊆@{gset Z} dom (d_processes d)) as Hsub.
  { intros pid (i & -> & Hi%elem_of_seq)%elem_of_list_to_set%list_elem_of_fmap. apply elem_of_dom.
    specialize (Hall i ltac:(lia)). by apply bool_decide_eq_true in Hall. }
  apply subseteq_size in Hsub. rewrite size_list_to_set, length_fmap, length_seq in Hsub; [done|].
  apply NoDup_fmap_2_strong; [|apply NoDup_seq]. intros i j Hi%elem_of_seq Hj%elem_of_seq. apply candidate_inj; lia.
Qed.

(** ** The calls *)
Lemma wf_same_sys k k' :
  kernel_wf k → k_deps k' = k_deps k → k_sys k' = k_sys k → k_processRefs k' = k_processRefs k →
  is_u32 (k_nextPid k') → map_Forall (λ _, polite) (SyscallTable.handlers (k_syscalls k')) → kernel_wf k'.
Proof. intros [] E1 E2 E3 ? ?. split; rewrite ?E1, ?E2, ?E3; done. Qed.

Lemma allocatePid_ok k :
  kernel_wf k →
  ∃ pid next, allocatePid k = (pid, set_nextPid k next) ∧ kernel_wf (set_nextPid k next) ∧
    (pid ≠ INVALID_PID ∧ is_u32 pid ∧ hasProcess (k_sys k) pid = false ∨
     pid = INVALID_PID ∧ (MAX_PROCESSES ≤ processCount (k_sys k))%nat).
Proof.
  intros Hw. unfold allocatePid. destruct (deps_all _ (kw_deps _ Hw)) as (_ & _ & _ & -> & _). simpl negb. cbv iota.
  pose proof (allocate_loop_spec MAX_PROCESSES (k_sys k) _ (kw_next _ Hw)) as Hs.
  destruct (allocate_loop _ _ _) as [pid next]. destruct Hs as [Hn Hcase]. exists pid, next. split; [done|].
  split; [by apply (wf_same_sys k), Hw|].
  destruct Hcase as [?|[-> Hall]]; [by left|right]. split; [done|]. eapply exhausted; [|exact Hall]. vm_compute. discriminate.
Qed.

(** Admitting a process under a free identifier. *)
Lemma admit_ok k config pid :
  kernel_wf k → pid ≠ INVALID_PID → hasProcess (k_sys k) pid = false →
  ∃ res k', admit_process k config pid = Some (res, k') ∧ kernel_wf k' ∧
    match res with
    | error _ => d_processes (k_sys k') = d_processes (k_sys k)
    | ok q => q = pid ∧ ∃ im, im_code im = cfg_code config ∧ im_registers im = RegisterFile.init ∧
        d_processes (k_sys k') = <[pid := im]> (d_processes (k_sys k)) ∧
        member (d_scheduler (k_sys k')) (im_pcb im) Ready
    end.
Proof.
  intros Hw Hpid Hfree. pose proof Hw as [Hd Hsys Hr Hn Hh]. unfold admit_process. cbv zeta.
  set (name := if decide (cfg_name config = "") then _ else _). set (arrival := if cfg_arrivalTime config =? 0 then _ else _).
  destruct (new_image_ok (k_sys k) pid name (cfg_code config) (cfg_priority config) arrival Hsys Hpid)
    as (p & im & d1 & -> & Him & Hw1 & Hp & Hid & Hst & _ & _ & _ & Epr & _). cbv beta iota.
  destruct (createProcess_ok d1 im p (k_now k) Hw1 Hp Hst) as (r & d2 & -> & Hw2 & _ & Hcase). cbv beta iota.
  destruct r as [u|e].
  - destruct Hcase as (_ & Hpr & _ & Hm). do 2 eexists. split; [done|]. rewrite Epr, Hid in Hpr.
    split; [split; try done|].
    + simpl. rewrite Hpr, Hr, fmap_insert. apply emplace_fresh. rewrite lookup_fmap.
      apply bool_decide_eq_false in Hfree. by destruct (d_processes (k_sys k) !! pid); [destruct Hfree|].
    + split; [done|]. exists im. subst im. by split_and!.
  - destruct Hcase as [Hpr _]. do 2 eexists. split; [done|]. rewrite Epr in Hpr.
    split; [split; try done|by simpl]. simpl. by rewrite Hpr.
Qed.

Lemma terminate_wf k pid :
  kernel_wf k →
  ∃ res k', k_terminateProcess k pid = Some (res, k') ∧ kernel_wf k' ∧
    d_processes (k_sys k') = delete pid (d_processes (k_sys k)) ∧
    res = (if k_hasProcess k pid then ok tt else error ErrorCode.NotFound).
Proof.
  intros Hw. pose proof Hw as [Hd Hsys Hr Hn Hh]. destruct (deps_all _ Hd) as (E1 & _ & _ & E2 & E3 & _).
  unfold k_terminateProcess, k_hasProcess, hasProcess. rewrite E1, E2, E3. simpl.
  pose proof (terminateProcess_ok (k_sys k) pid (k_now k) Hsys) as Ht.
  destruct (d_processes (k_sys k) !! pid) as [im|] eqn:Hi.
  - destruct Ht as (d' & -> & Hw' & Hpr & _). cbv beta iota. do 2 eexists. split; [done|].
    split; [split; try done; simpl; by rewrite Hpr, Hr, fmap_delete|]. done.
  - rewrite Ht. cbv beta iota. do 2 eexists. split; [done|]. split; [by apply (wf_same_sys k)|].
    simpl. by rewrite delete_id.
Qed.

Lemma tick_wf k n :
  kernel_wf k →
  (∃ res k', k_tick k n = Some (res, k') ∧ kernel_wf k' ∧
     dispatch (k_sys k) (cycle_budget k n) = Some (res, k_sys k') ∧
     k_defaultTickBudget k' = k_defaultTickBudget k) ∨
  k_tick k n = None ∧ engine_stuck (k_sys k) (DDispatch (cycle_budget k n)).
Proof.
  intros Hw. pose proof Hw as [Hd Hsys Hr Hn Hh]. destruct (deps_all _ Hd) as (_ & _ & _ & E2 & E3 & _).
  unfold k_tick. rewrite E2, E3. simpl negb. cbv iota. simpl orb. cbv iota.
  destruct (disp_step_ok (k_sys k) (DDispatch (cycle_budget k n)) Hsys I) as [(r & d' & Hs & Hw')|Hst].
  - left. simpl in Hs. rewrite Hs. cbv beta iota. do 2 eexists. split; [done|].
    destruct (dispatch_images _ _ _ _ Hsys Hs) as [_ Him]. split; [|done].
    split; try done. by apply pruned_refs.
  - right. split; [|done]. apply stuck_step in Hst. simpl in Hst. by rewrite Hst.
Qed.
End invariant.
