(* ===== verification/KernelTheorems.v ===== *)
(** * KernelTheorems: what the kernel guarantees *)
From stdpp Require Import pretty.
From S2P Require Import Prelude Core Arch Process Policies Scheduler SchedInvariant SchedProps.
From S2P Require Import SchedSteps SchedRun SchedTheorems Cpu Paging Mmu VirtualMem Interp Sync SyncProps.
From S2P Require Import Dispatcher DispatcherProps Machine DispatcherTheorems Kernel KernelProps.
Local Open Scope Z_scope.

Section theorems.
Context {P : Type} `{HP : !ISchedulingPolicy P} `{HL : !LawfulSchedulingPolicy P} `{HF : !FloatCast}.
Context {W : Type} `{HV : !IVirtualMemory W} `{HE : !IExecutionEngine W} `{HM : !LawfulMachine W}.
Context {Prim : Type} `{HS : !ISyncPrimitive Prim}.
Implicit Types (d : dispatcher P W) (k : kernel P W Prim) (pid : Z) (im : ProcessImage).

(** ** Runs of the kernel *)
Inductive kernel_op :=
| KCreate (config : ProcessConfig)
| KTerminate (pid : Z)
| KTick (budget : nat)
| KRun (cycles budget : nat)
| KSyscall (pid id : Z) (args : list Z)
| KHandler (id : Z) (handler : option SyscallTable.HandlerFn)
| KRegister (name : string) (primitive : option Prim)
| KEnter (pid : Z) (name : string)
| KLeave (pid : Z) (name : string).

Definition forget {A} (r : Result A) : Result unit := match r with ok _ => ok tt | error e => error e end.

Definition kernel_step k (op : kernel_op) : option (Result unit * kernel P W Prim) :=
  match op with
  | KCreate config => let! (r, k') := k_createProcess k config in Some (forget r, k')
  | KTerminate pid => k_terminateProcess k pid
  | KTick budget => k_tick k budget
  | KRun cycles budget => runForTicks k cycles budget
  | KSyscall pid id args => let! (r, k') := syscall k pid id args in Some (forget r, k')
  | KHandler id handler => Some (registerSyscallHandler k id handler)
  | KRegister name primitive => Some (registerSyncPrimitive k name primitive)
  | KEnter pid name => Some (enterCritical k pid name)
  | KLeave pid name => Some (leaveCritical k pid name)
  end.
Fixpoint kernel_run k (ops : list kernel_op) : option (list (Result unit) * kernel P W Prim) :=
  match ops with
  | [] => Some ([], k)
  | op :: ops' =>
      let! (r, k1) := kernel_step k op in let! (rs, k2) := kernel_run k1 ops' in Some (r :: rs, k2)
  end.

(** Handlers are polite. *)
Definition civil (op : kernel_op) : Prop := match op with KHandler _ (Some h) => polite h | _ => True end.

(** Some dispatch cycle of the call runs into an undefined burst. *)
Fixpoint tick_times (m : nat) k (budget : nat) : option (kernel P W Prim) :=
  match m with
  | O => Some k
  | S m => let! (_, k1) := k_tick k budget in tick_times m k1 budget
  end.
Definition cycle_stuck k (budget : nat) : Prop := engine_stuck (k_sys k) (DDispatch (cycle_budget k budget)).
Definition burst_stuck k (op : kernel_op) : Prop :=
  match op with
  | KTick budget => cycle_stuck k budget
  | KRun cycles budget => ∃ m k1, (m < cycles)%nat ∧ tick_times m k budget = Some k1 ∧ cycle_stuck k1 budget
  | _ => False
  end.

Lemma create_wf_ok k config :
  kernel_wf k → ∃ res k', k_createProcess k config = Some (res, k') ∧ kernel_wf k'.
Proof.
  intros Hw. destruct (deps_all _ (kw_deps _ Hw)) as (E1 & _ & _ & E2 & E3 & _).
  unfold k_createProcess. rewrite E1, E2, E3. simpl negb. simpl orb. cbv iota.
  case_decide; [by do 2 eexists|]. destruct (Z.eqb_spec (cfg_id config) INVALID_PID).
  - destruct (allocatePid_ok k Hw) as (pid & next & -> & Hw' & [(Hp & _ & Hf)|[-> _]]); [|by do 2 eexists].
    rewrite (proj2 (Z.eqb_neq _ _) Hp).
    destruct (admit_ok (set_nextPid k next) config pid Hw' Hp Hf) as (res & k' & -> & ? & _). by do 2 eexists.
  - destruct (hasProcess _ _) eqn:Hf; [by do 2 eexists|].
    destruct (admit_ok k config (cfg_id config) Hw) as (res & k' & -> & ? & _); [done..|]. by do 2 eexists.
Qed.

Lemma syscall_ok k pid id args :
  kernel_wf k →
  match d_processes (k_sys k) !! pid with
  | None => syscall k pid id args = Some (error ErrorCode.NotFound, k)
  | Some im => ∃ p, d_heap (k_sys k) !! im_pcb im = Some p ∧ pcb_id p = pid ∧
      match SyscallTable.handlers (k_syscalls k) !! id with
      | None => ∃ k', syscall k pid id args = Some (error ErrorCode.NotFound, k') ∧ kernel_wf k' ∧
          d_processes (k_sys k') = d_processes (k_sys k) ∧ d_heap (k_sys k') = d_heap (k_sys k) ∧
          d_scheduler (k_sys k') = d_scheduler (k_sys k)
      | Some h => ∃ res p' im' k', h args p im = Some (res, p', im') ∧ syscall k pid id args = Some (res, k') ∧
          kernel_wf k' ∧ d_processes (k_sys k') = <[pid := im']> (d_processes (k_sys k)) ∧
          d_heap (k_sys k') = <[im_pcb im := p']> (d_heap (k_sys k)) ∧
          d_scheduler (k_sys k') = d_scheduler (k_sys k)
      end
  end.
Proof.
  intros Hw. pose proof Hw as [Hd Hsys Hr Hn Hh]. destruct (deps_all _ Hd) as (_ & _ & _ & E2 & _ & E3).
  unfold syscall. rewrite E2, E3, Hr, lookup_fmap. simpl negb. simpl orb. cbv iota.
  destruct (d_processes (k_sys k) !! pid) as [im|] eqn:Hi; simpl.
  2: { rewrite delete_id by (by rewrite lookup_fmap, Hi). rewrite <-Hr. by destruct k. }
  unfold hasProcess. rewrite bool_decide_eq_true_2 by (by eexists).
  destruct (image_at_live (k_sys k) pid im Hsys Hi) as (p & -> & Hp & Hid). exists p. split; [done|]. split; [done|].
  unfold SyscallTable.dispatch. destruct (SyscallTable.handlers (k_syscalls k) !! id) as [h|] eqn:Hk; cbv beta iota.
  - destruct (Hh id h Hk args p im) as (res & p' & im' & -> & He & Hid' & Hst). exists res, p', im'. eexists.
    split; [done|]. split; [done|]. split; [|done].
    split; try done; [by apply (store_image_wf _ _ im im' p)|].
    simpl. by rewrite fmap_insert, He, Hr, insert_id by (by rewrite lookup_fmap, Hi).
  - eexists. split; [done|]. simpl. rewrite !insert_id by done. split; [|done].
    split; try done; [by apply (store_image_wf _ _ im im p)|]. simpl. by rewrite insert_id.
Qed.

Lemma cycles_ok cycles k budget any :
  kernel_wf k →
  (∃ res k', run_cycles cycles k budget any = Some (res, k') ∧ kernel_wf k') ∨
  run_cycles cycles k budget any = None ∧ burst_stuck k (KRun cycles budget).
Proof.
  revert k any. induction cycles as [|cycles IH]; intros k any Hw; simpl; [left; by do 2 eexists|].
  destruct (tick_wf k budget Hw) as [(res & k1 & Hk & Hw1 & _)|[-> Hst]]; [rewrite Hk|]; cbv beta iota.
  2: { right. split; [done|]. exists 0%nat, k. split; [lia|done]. }
  destruct res as [u|e]; [|left; case_decide; by do 2 eexists].
  destruct (IH k1 true Hw1) as [?|[? (m & k2 & Hm & Ht & Hst)]]; [by left|right]. split; [done|].
  exists (S m), k2. split; [lia|]. cbn [tick_times]. by rewrite Hk.
Qed.

Lemma kernel_step_ok k op :
  kernel_wf k → civil op →
  (∃ res k', kernel_step k op = Some (res, k') ∧ kernel_wf k') ∨ kernel_step k op = None ∧ burst_stuck k op.
Proof.
  intros Hw Hc. destruct op as [config|pid|n|cycles n|pid id args|id h|name prim|pid name|pid name]; cbn [kernel_step].
  - left. destruct (create_wf_ok k config Hw) as (res & k' & -> & ?). by do 2 eexists.
  - left. destruct (terminate_wf k pid Hw) as (res & k' & -> & ? & _). by do 2 eexists.
  - destruct (tick_wf k n Hw) as [(res & k1 & -> & Hw1 & _)|[-> Hst]]; [left; by do 2 eexists|by right].
  - by apply cycles_ok.
  - left. pose proof (syscall_ok k pid id args Hw) as Hs. destruct (d_processes (k_sys k) !! pid) as [im|].
    + destruct Hs as (p & _ & _ & Hs). destruct (SyscallTable.handlers _ !! id).
      * destruct Hs as (res & p' & im' & k' & _ & -> & ? & _). by do 2 eexists.
      * destruct Hs as (k' & -> & ? & _). by do 2 eexists.
    + rewrite Hs. by do 2 eexists.
  - left. do 2 eexists. split; [apply f_equal, surjective_pairing|]. unfold registerSyscallHandler.
    destruct (negb _); [done|]. destruct h as [h|]; simpl; [|by apply (wf_same_sys k); try apply Hw].
    apply (wf_same_sys k); try done; [apply Hw|]. simpl. apply map_Forall_insert_2; [done|apply Hw].
  - left. do 2 eexists. split; [apply f_equal, surjective_pairing|]. unfold registerSyncPrimitive.
    destruct prim; [|done]. case_decide; [done|]. case_match; [done|]. by apply (wf_same_sys k); try apply Hw.
  - left. do 2 eexists. split; [apply f_equal, surjective_pairing|]. unfold enterCritical.
    case_match; [|done]. destruct (acquire _ _). by apply (wf_same_sys k); try apply Hw.
  - left. do 2 eexists. split; [apply f_equal, surjective_pairing|]. unfold leaveCritical.
    case_match; [|done]. destruct (release _ _). by apply (wf_same_sys k); try apply Hw.
Qed.

Lemma kernel_run_ok k ops :
  kernel_wf k → Forall civil ops →
  (∃ rs k', kernel_run k ops = Some (rs, k') ∧ kernel_wf k') ∨
  (∃ ops1 op ops2 rs k', ops = ops1 ++ op :: ops2 ∧ kernel_run k ops1 = Some (rs, k') ∧ burst_stuck k' op ∧
     kernel_run k ops = None).
Proof.
  intros Hw Hc. revert k Hw. induction Hc as [|op ops Hop _ IH]; intros k Hw; [left; by exists [], k|].
  cbn [kernel_run]. destruct (kernel_step_ok k op Hw Hop) as [(res & k1 & Hs & Hw1)|[Hs Hst]].
  - rewrite Hs. cbv beta iota.
    destruct (IH k1 Hw1) as [(rs & k' & -> & Hw')|(ops1 & op' & ops2 & rs & k' & -> & Hr & Hst & ->)].
    + left. by do 2 eexists.
    + right. exists (op :: ops1), op', ops2, (res :: rs), k'. cbn [kernel_run]. by rewrite Hs, Hr.
  - right. exists [], op, ops, [], k. by rewrite Hs.
Qed.

Lemma build_wf deps (pol : option P) w c t budget k :
  machine_inv w → slot_owners w = ∅ → map_Forall (λ _, polite) (SyscallTable.handlers t) →
  build deps (Dispatcher_make (Scheduler_make pol) w c) t budget = ok k → kernel_wf k.
Proof.
  intros Hi Ho Hh. unfold build. destruct (hasAllRequiredDependencies deps) eqn:Hd; [|done].
  destruct (_ =? _)%nat; [done|]. intros [= <-]. split; simpl; [done|by apply make_wf|by rewrite fmap_empty|done|done].
Qed.

(** C10: no run of the kernel follows a dangling reference.  Whatever calls a
    client makes on a kernel the builder accepted, with polite system call
    handlers, either every call is defined or one of them dispatches a burst
    the engine itself leaves undefined.  After them the table of process
    references holds exactly the live processes with the addresses of their
    images, and the dispatcher's parts agree. *)
Theorem kernel_run_safe deps (pol : option P) w c t budget k ops :
  machine_inv w → slot_owners w = ∅ → map_Forall (λ _, polite) (SyscallTable.handlers t) →
  build deps (Dispatcher_make (Scheduler_make pol) w c) t budget = ok k → Forall civil ops →
  (∃ rs k', kernel_run k ops = Some (rs, k') ∧ consistent (k_sys k') ∧
     ∀ pid r, k_processRefs k' !! pid = Some r ↔
       ∃ im p, d_processes (k_sys k') !! pid = Some im ∧ im_pcb im = r ∧
         image_at (k_sys k') r = Some (pid, p, im) ∧ pcb_id p = pid) ∨
  (∃ ops1 op ops2 rs k', ops = ops1 ++ op :: ops2 ∧ kernel_run k ops1 = Some (rs, k') ∧ burst_stuck k' op ∧
     kernel_run k ops = None).
Proof.
  intros Hi Ho Hh Hb Hc. pose proof (build_wf _ _ _ _ _ _ _ Hi Ho Hh Hb) as Hw.
  destruct (kernel_run_ok k ops Hw Hc) as [(rs & k' & Hr & Hw')|?]; [left|by right].
  exists rs, k'. split; [done|]. split; [apply wf_consistent, Hw'|]. intros pid r.
  rewrite (kw_refs _ Hw'), lookup_fmap_Some. split.
  - intros (im & <- & Him). destruct (image_at_live _ pid im (kw_sys _ Hw') Him) as (p & ? & _ & ?). by exists im, p.
  - intros (im & p & Him & <- & _). by exists im.
Qed.

(** C15: creating a process.  With a program and a free (or no) identifier, and
    fewer than [MAX_PROCESSES] processes, the kernel hands the new process to
    the dispatcher under the given or a fresh valid identifier: it is ready
    with zeroed registers and the given program, or memory refused it and no
    process changed.  Without a program, with a taken identifier, or with a full
    table it says so and no process changed. *)
Theorem create_outcome k config :
  kernel_wf k →
  ∃ res k', k_createProcess k config = Some (res, k') ∧ kernel_wf k' ∧
  match res with
  | ok pid => cfg_code config ≠ [] ∧ pid ≠ INVALID_PID ∧ k_hasProcess k pid = false ∧
      (cfg_id config ≠ INVALID_PID → pid = cfg_id config) ∧
      ∃ im, im_code im = cfg_code config ∧ im_registers im = RegisterFile.init ∧
        d_processes (k_sys k') = <[pid := im]> (d_processes (k_sys k)) ∧
        member (d_scheduler (k_sys k')) (im_pcb im) Ready
  | error e => d_processes (k_sys k') = d_processes (k_sys k) ∧
      (cfg_code config = [] → e = ErrorCode.InvalidArgument) ∧
      (cfg_code config ≠ [] → cfg_id config ≠ INVALID_PID → k_hasProcess k (cfg_id config) = true →
         e = ErrorCode.AlreadyExists)
  end ∧
  (cfg_code config ≠ [] → cfg_id config = INVALID_PID → (k_processCount k < MAX_PROCESSES)%nat →
     ∃ pid next, pid ≠ INVALID_PID ∧ k_hasProcess k pid = false ∧
       k_createProcess k config = admit_process (set_nextPid k next) config pid).
Proof.
  intros Hw. destruct (deps_all _ (kw_deps _ Hw)) as (E1 & _ & _ & E2 & E3 & _).
  unfold k_createProcess, k_hasProcess, k_processCount. rewrite E1, E2, E3. simpl negb. simpl orb. cbv iota.
  case_decide as Hcode; [by do 2 eexists|]. destruct (Z.eqb_spec (cfg_id config) INVALID_PID) as [Hid|Hid].
  - destruct (allocatePid_ok k Hw) as (pid & next & -> & Hw' & [(Hp & _ & Hf)|[-> Hfull]]).
    + rewrite (proj2 (Z.eqb_neq _ _) Hp).
      destruct (admit_ok (set_nextPid k next) config pid Hw' Hp Hf) as (res & k' & Ha & Hwk & Hcase). rewrite Ha.
      do 2 eexists. split; [done|]. split; [done|]. split; [|intros _ _ _; by exists pid, next].
      destruct res as [q|e]; [|by split]. destruct Hcase as [-> Him]. by split_and!.
    + do 2 eexists. split; [done|]. split; [done|]. split; [by split|]. lia.
  - destruct (hasProcess _ _) eqn:Hf; [by do 2 eexists|].
    destruct (admit_ok k config (cfg_id config) Hw Hid Hf) as (res & k' & -> & Hwk & Hcase).
    do 2 eexists. split; [done|]. split; [done|]. split; [|done].
    destruct res as [q|e]; [|by split]. destruct Hcase as [-> Him]. by split_and!.
Qed.

(** C16: a system call, with handlers that keep the image they are given well
    formed (part of [kernel_wf]).  An unknown process gets [NotFound] and nothing happens.
    A known one has the registered handler run on its own image, the result
    passed on, and only its own image and control block changed; a call without
    a handler answers [NotFound] and changes no process. *)
Theorem syscall_outcome k pid id args :
  kernel_wf k →
  match d_processes (k_sys k) !! pid with
  | None => syscall k pid id args = Some (error ErrorCode.NotFound, k)
  | Some im => ∃ p res p' im' k', d_heap (k_sys k) !! im_pcb im = Some p ∧ pcb_id p = pid ∧
      match SyscallTable.handlers (k_syscalls k) !! id with
      | Some h => h args p im = Some (res, p', im')
      | None => res = error ErrorCode.NotFound ∧ p' = p ∧ im' = im
      end ∧
      syscall k pid id args = Some (res, k') ∧ kernel_wf k' ∧
      d_processes (k_sys k') = <[pid := im']> (d_processes (k_sys k)) ∧
      d_heap (k_sys k') = <[im_pcb im := p']> (d_heap (k_sys k)) ∧
      d_scheduler (k_sys k') = d_scheduler (k_sys k)
  end.
Proof.
  intros Hw. pose proof (syscall_ok k pid id args Hw) as Hs.
  destruct (d_processes (k_sys k) !! pid) as [im|] eqn:Hi; [|done]. destruct Hs as (p & Hp & Hid & Hs).
  destruct (SyscallTable.handlers (k_syscalls k) !! id) as [h|].
  - destruct Hs as (res & p' & im' & k' & ? & ? & ? & ? & ? & ?). exists p, res, p', im', k'. by split_and!.
  - destruct Hs as (k' & ? & ? & E1 & E2 & E3). exists p, (error ErrorCode.NotFound), p, im, k'.
    rewrite !insert_id by done. by split_and!.
Qed.
End theorems.
