(* ===== verification/KernelView.v ===== *)
(** * KernelView: the snapshot the user interface reads

    The lists of identifiers and the rows of [Kernel::snapshot] against the
    state of scheduler and process table. *)
From S2P Require Import Prelude Core Arch Process Policies Scheduler SchedInvariant SchedProps.
From S2P Require Import SchedSteps SchedRun SchedTheorems Cpu Paging Mmu VirtualMem Interp Sync SyncProps.
From S2P Require Import Dispatcher DispatcherProps Machine DispatcherTheorems Kernel KernelProps KernelTheorems.
Local Open Scope Z_scope.

(** ** [laneByPid] *)
Lemma lane_fold (lane : nat) (q : list Z) (m : gmap Z nat) pid :
  foldl (λ m pid, <[pid := lane]> m) m q !! pid = if decide (pid ∈ q) then Some lane else m !! pid.
Proof.
  revert m. induction q as [|x q IH]; intros m; cbn [foldl].
  { rewrite decide_False by apply not_elem_of_nil. done. }
  rewrite IH, lookup_insert. repeat case_decide; rewrite ?elem_of_cons in *; subst; try done; naive_solver.
Qed.

Lemma lanes_fold (queues : list (list Z)) (n : nat) (m : gmap Z nat) pid lane :
  (∀ i j q q', queues !! i = Some q → queues !! j = Some q' → pid ∈ q → pid ∈ q' → i = j) →
  foldl (λ m '(lane, q), foldl (λ m pid, <[pid := lane]> m) m q) m (imap (λ i q, (n + i, q)%nat) queues) !! pid = Some lane ↔
  (∃ i q, queues !! i = Some q ∧ pid ∈ q ∧ lane = (n + i)%nat) ∨
  (∀ i q, queues !! i = Some q → pid ∉ q) ∧ m !! pid = Some lane.
Proof.
  revert n m. induction queues as [|q0 queues IH]; intros n m Hu; cbn [imap foldl].
  { split; [by right|]. intros [(i & q & Hq & _)|[_ ?]]; done. }
  rewrite (imap_ext _ (λ i q, (S n + i, q)%nat)) by (intros; simpl; f_equal; lia).
  rewrite IH, lane_fold by (intros i j q q' Hi Hj H1 H2; specialize (Hu (S i) (S j) q q' Hi Hj H1 H2); lia).
  split.
  - intros [(i & q & Hq & Hp & ->)|[Hno Hl]]; [left; exists (S i), q; split_and!; [done|done|lia]|].
    case_decide as Hp.
    + injection Hl as <-. left. exists 0%nat, q0. split_and!; [done|done|lia].
    + right. split; [|done]. intros [|i] q Hq; simplify_eq/=; [done|by eapply Hno].
  - intros [([|i] & q & Hq & Hp & ->)|[Hno Hl]]; simplify_eq/=.
    + right. rewrite decide_True by done. split; [|f_equal; lia]. intros i q' Hq' Hp'.
      by specialize (Hu 0%nat (S i) q q' eq_refl Hq' Hp Hp').
    + left. exists i, q. split_and!; [done|done|lia].
    + right. rewrite decide_False by (by apply (Hno 0%nat)). split; [|done]. intros i q Hq. by apply (Hno (S i)).
Qed.

Lemma lanes_by_pid_spec (queues : list (list Z)) pid lane :
  NoDup (concat queues) →
  lanes_by_pid queues !! pid = Some lane ↔ ∃ q, queues !! lane = Some q ∧ pid ∈ q.
Proof.
  intros Hn. unfold lanes_by_pid. rewrite (lanes_fold queues 0 ∅).
  - split; [intros [(i & q & ? & ? & ->)|[_ Hl]]; [by exists q|by rewrite lookup_empty in Hl]|].
    intros (q & ? & ?). left. by exists lane, q.
  - intros i j q q' Hi Hj H1 H2. clear -Hn Hi Hj H1 H2. revert i j Hi Hj.
    induction queues as [|q0 qs IH]; intros [|i] [|j]; simpl; intros Hi Hj; simplify_eq; try done.
    + apply NoDup_app in Hn as (_ & Hd & _). destruct (Hd pid H1). apply list_elem_of_In, in_concat.
      exists q'. split; apply list_elem_of_In; [by eapply list_elem_of_lookup_2|done].
    + apply NoDup_app in Hn as (_ & Hd & _). destruct (Hd pid H2). apply list_elem_of_In, in_concat.
      exists q. split; apply list_elem_of_In; [by eapply list_elem_of_lookup_2|done].
    + apply NoDup_app in Hn as (_ & _ & Hn). f_equal. by apply (IH Hn).
Qed.

Lemma mapM_concat {A B} (f : A → option B) (l : list (list A)) ys :
  mapM f (concat l) = Some ys → ∃ yss, mapM (mapM f) l = Some yss ∧ concat yss = ys.
Proof.
  revert ys. induction l as [|x l IH]; intros ys; [intros [= <-]; by exists []|].
  intros (ya & yb & Ha & Hb & ->)%mapM_Some%Forall2_app_inv_l. apply mapM_Some in Hb.
  destruct (IH yb Hb) as (yss & Hy & <-). exists (ya :: yss). split; [|done].
  apply mapM_Some. constructor; [by apply mapM_Some|by apply mapM_Some].
Qed.

Section view.
Context {P : Type} `{HP : !ISchedulingPolicy P} `{HL : !LawfulSchedulingPolicy P} `{HF : !FloatCast}.
Context {W : Type} `{HV : !IVirtualMemory W} `{HE : !IExecutionEngine W} `{HM : !LawfulMachine W}.
Context {Prim : Type} `{HS : !ISyncPrimitive Prim}.
Implicit Types (d : dispatcher P W) (k : kernel P W Prim) (pid r : Z) (im : ProcessImage) (st : ProcessState).

(** ** Identifiers of what the scheduler holds *)
Lemma member_live d r st :
  disp_wf None d → member (d_scheduler d) r st →
  ∃ pid im p, d_processes d !! pid = Some im ∧ im_pcb im = r ∧ d_heap d !! r = Some p ∧ pcb_id p = pid ∧ state p = st.
Proof. intros Hw. by apply (proj1 (wf_consistent d Hw)). Qed.

Lemma pids_of d (q : list Z) st :
  disp_wf None d → Forall (λ r, member (d_scheduler d) r st) q → NoDup q →
  ∃ ids, mapM (pid_at (d_heap d)) q = Some ids ∧ NoDup ids ∧ length ids = length q ∧
    ∀ pid, pid ∈ ids ↔ ∃ im, d_processes d !! pid = Some im ∧ im_pcb im ∈ q.
Proof.
  intros Hw. induction 1 as [|r q Hr _ IH]; intros Hn.
  { exists []. split_and!; [done|constructor|done|]. intros pid. rewrite elem_of_nil. split; [done|].
    intros (im & _ & Hin). by apply elem_of_nil in Hin. }
  apply NoDup_cons in Hn as [Hnr Hn]. destruct (IH Hn) as (ids & Hids & Hnd & Hlen & Hin).
  destruct (member_live d r st Hw Hr) as (pid & im & p & Hi & <- & Hp & Hid & _). exists (pid :: ids).
  split; [|split; [|split; [simpl; by f_equal|]]].
  - assert (pid_at (d_heap d) (im_pcb im) = Some pid) as Hpa by (unfold pid_at; rewrite Hp; simpl; by rewrite Hid).
    simpl. rewrite Hpa. simpl. by rewrite Hids.
  - constructor; [|done]. rewrite Hin. intros (im' & Hi' & Hin'). simplify_eq. done.
  - intros q'. rewrite elem_of_cons, Hin. split.
    + intros [->|(im' & Hi' & Hin')]; [exists im; split; [done|by left]|exists im'; split; [done|by right]].
    + intros (im' & Hi' & [He|Hin']%elem_of_cons); [left|right; by exists im'].
      by apply (pids_distinct None d q' pid im' im Hw).
Qed.

(** What a list of identifiers says about the states of the processes. *)
Lemma ids_by_state d (q ids : list Z) st pid im p :
  disp_wf None d → (∀ r, member (d_scheduler d) r st ↔ r ∈ q) →
  (∀ pid, pid ∈ ids ↔ ∃ im, d_processes d !! pid = Some im ∧ im_pcb im ∈ q) →
  d_processes d !! pid = Some im → d_heap d !! im_pcb im = Some p → state p = st ↔ pid ∈ ids.
Proof.
  intros Hw Hq Hids Hi Hp. rewrite Hids. split.
  - intros Hst. exists im. split; [done|]. apply Hq. apply (proj1 (wf_consistent d Hw)).
    destruct (image_at_live d pid im Hw Hi) as (p' & _ & Hp' & Hid). simplify_eq. by exists (pcb_id p), im, p.
  - intros (im' & Hi' & Hin). simplify_eq. apply Hq in Hin.
    destruct (member_live d _ st Hw Hin) as (_ & _ & p' & _ & _ & Hp' & _ & Hst). by simplify_eq.
Qed.

(** Every live process is in one of the three. *)
Lemma three_lists d (ready running waiting : list Z) (s := d_scheduler d) :
  disp_wf None d → NoDup ready → NoDup running → NoDup waiting →
  (∀ pid, pid ∈ ready ↔ ∃ im, d_processes d !! pid = Some im ∧ im_pcb im ∈ concat (readyByLane s)) →
  (∀ pid, pid ∈ running ↔ ∃ im, d_processes d !! pid = Some im ∧ im_pcb im ∈ omap id (runningByLane s)) →
  (∀ pid, pid ∈ waiting ↔ ∃ im, d_processes d !! pid = Some im ∧ im_pcb im ∈ blocked s) →
  (length ready + length waiting + length running = size (d_processes d))%nat.
Proof.
  intros Hw N1 N2 N3 I1 I2 I3. pose proof (dw_sched _ _ Hw) as Hs.
  assert (∀ r st st', member s r st → member s r st' → st = st') as Hst by (intros ???; by apply (member_state s (d_heap d))).
  assert (NoDup (ready ++ waiting ++ running)) as Hn.
  { apply NoDup_app. split; [done|]. split; [|apply NoDup_app; split; [done|split; [|done]]].
    - intros pid (im & Hi & Hr)%I1 [(im' & Hi' & Hr')%I3|(im' & Hi' & Hr')%I2]%elem_of_app; simplify_eq.
      + by specialize (Hst (im_pcb im) Ready Blocked (or_introl (conj eq_refl Hr)) (or_intror (or_intror (conj eq_refl Hr')))).
      + by specialize (Hst (im_pcb im) Ready Running (or_introl (conj eq_refl Hr)) (or_intror (or_introl (conj eq_refl Hr')))).
    - intros pid (im & Hi & Hr)%I3 (im' & Hi' & Hr')%I2; simplify_eq.
      by specialize (Hst (im_pcb im) Blocked Running (or_intror (or_intror (conj eq_refl Hr))) (or_intror (or_introl (conj eq_refl Hr')))). }
  assert (list_to_set (ready ++ waiting ++ running) =@{gset Z} dom (d_processes d)) as Hdom.
  { apply set_eq. intros pid. rewrite elem_of_list_to_set, !elem_of_app, I1, I2, I3, elem_of_dom. split.
    - intros [(im & Hi & _)|[(im & Hi & _)|(im & Hi & _)]]; by eexists.
    - intros [im Hi]. destruct (dw_placed _ _ Hw pid im Hi) as (st & [[_ Hr]|[[_ Hr]|[_ Hr]]]);
        [left|right; right|right; left]; by exists im. }
  rewrite <-size_dom, <-Hdom, size_list_to_set by done. rewrite !length_app. lia.
Qed.

(** ** Rows *)
Lemma rows_of k (lanes : gmap Z nat) :
  kernel_wf k →
  ∃ rows, process_rows k lanes = Some rows ∧ StronglySorted Z.lt (map row_id rows) ∧
    (∀ pid, pid ∈ map row_id rows ↔ is_Some (d_processes (k_sys k) !! pid)) ∧
    ∀ row, row ∈ rows → ∃ im p, d_processes (k_sys k) !! row_id row = Some im ∧
      d_heap (k_sys k) !! im_pcb im = Some p ∧ row = row_of lanes (row_id row) p.
Proof.
  intros Hw. pose proof (kw_sys _ Hw) as Hsys. unfold process_rows. rewrite (kw_refs _ Hw).
  set (d := k_sys k) in *.
  set (row := λ '(pid, r), let! (_, p, _) := image_at d r in Some (row_of lanes pid p)).
  assert (∀ l : list (Z * Z), (∀ x, x ∈ l → ∃ im, d_processes d !! x.1 = Some im ∧ im_pcb im = x.2) →
    ∃ rows, mapM row l = Some rows ∧ map row_id rows = l.*1 ∧
      ∀ y, y ∈ rows → ∃ im p, d_processes d !! row_id y = Some im ∧ d_heap d !! im_pcb im = Some p ∧
        y = row_of lanes (row_id y) p) as Hrows.
  { induction l as [|[pid r] l IH]; intros Hall; [exists []; split_and!; [done|done|by intros y ?%elem_of_nil]|].
    destruct (Hall (pid, r)) as (im & Hi & He); [by left|]. simpl in Hi, He. subst r.
    destruct IH as (rows & Hr & Hm & Hy); [intros x Hx; apply Hall; by right|].
    destruct (image_at_live d pid im Hsys Hi) as (p & Hp & Hh & Hid).
    exists (row_of lanes pid p :: rows). split; [|split].
    - apply mapM_Some. constructor; [unfold row; by rewrite Hp|by apply mapM_Some].
    - simpl. by rewrite Hm.
    - intros y [->|Hy']%elem_of_cons; [|by apply Hy]. exists im, p. by split_and!. }
  destruct (Hrows (map_to_list (im_pcb <$> d_processes d))) as (rows & -> & Hm & Hy).
  { intros [pid r] Hx%elem_of_map_to_list. simpl. rewrite lookup_fmap_Some in Hx. destruct Hx as (im & ? & ?). by exists im. }
  exists (merge_sort row_le rows). split; [done|]. pose proof (merge_sort_Permutation row_le rows) as Hperm.
  assert (map row_id (merge_sort row_le rows) ≡ₚ (map_to_list (im_pcb <$> d_processes d)).*1) as Hids.
  { rewrite <-Hm. by apply Permutation_map. }
  split; [|split].
  - assert (StronglySorted Z.le (map row_id (merge_sort row_le rows))) as Hs.
    { apply Sorted_StronglySorted; [intros ???; lia|]. apply (Sorted_fmap row_id row_le Z.le); [done|].
      apply Sorted_merge_sort. intros a b. unfold row_le. lia. }
    assert (NoDup (map row_id (merge_sort row_le rows))) as Hnd by (rewrite Hids; apply NoDup_fst_map_to_list).
    clear -Hs Hnd. induction Hs as [|a l Hs IH Hall]; [constructor|]. apply NoDup_cons in Hnd as [Ha Hnd].
    constructor; [by apply IH|]. rewrite Forall_forall in *. intros x Hx. specialize (Hall x Hx).
    assert (a ≠ x) by congruence. lia.
  - intros pid. rewrite Hids, list_elem_of_fmap. split.
    + intros ([q r] & -> & Hx%elem_of_map_to_list). rewrite lookup_fmap_Some in Hx. destruct Hx as (im & _ & ?). by exists im.
    + intros [im Him]. exists (pid, im_pcb im). split; [done|]. apply elem_of_map_to_list. by rewrite lookup_fmap, Him.
  - intros y. rewrite Hperm. apply Hy.
Qed.

Lemma snapshot_ok k :
  kernel_wf k →
  ∃ sn, snapshot k = Some sn ∧ sn_processCount sn = k_processCount k ∧
    StronglySorted Z.lt (map row_id (sn_processes sn)) ∧
    (∀ pid, pid ∈ map row_id (sn_processes sn) ↔ k_hasProcess k pid = true) ∧
    (∀ row, row ∈ sn_processes sn → ∃ im p, d_processes (k_sys k) !! row_id row = Some im ∧
       d_heap (k_sys k) !! im_pcb im = Some p ∧ row = row_of (lanes_by_pid (sn_perLaneReadyQueues sn)) (row_id row) p ∧
       (state p = Ready ↔ row_id row ∈ sn_readyQueue sn) ∧ (state p = Running ↔ row_id row ∈ sn_runningPids sn) ∧
       (state p = Blocked ↔ row_id row ∈ sn_blockedQueue sn) ∧
       ∀ lane, row_laneIndex row = Some lane ↔ ∃ q, sn_perLaneReadyQueues sn !! lane = Some q ∧ row_id row ∈ q) ∧
    (sn_readyCount sn + sn_blockedCount sn + length (sn_runningPids sn) = sn_processCount sn)%nat.
Proof.
  intros Hw. pose proof (kw_sys _ Hw) as Hsys. pose proof (dw_sched _ _ Hsys) as Hsc.
  destruct (deps_all _ (kw_deps _ Hw)) as (E1 & E2 & E3 & E4 & _). set (s := d_scheduler (k_sys k)) in *.
  assert (∀ r, member s r Ready ↔ r ∈ concat (readyByLane s)) as Q1 by (intros r; unfold member; naive_solver).
  assert (∀ r, member s r Running ↔ r ∈ omap id (runningByLane s)) as Q2 by (intros r; unfold member; naive_solver).
  assert (∀ r, member s r Blocked ↔ r ∈ blocked s) as Q3 by (intros r; unfold member; naive_solver).
  destruct (pids_of (k_sys k) _ Ready Hsys (proj2 (Forall_forall _ _) (λ r, proj2 (Q1 r))) (w_ready_nodup _ _ Hsc))
    as (ready & H1 & N1 & L1 & I1).
  destruct (pids_of (k_sys k) _ Running Hsys (proj2 (Forall_forall _ _) (λ r, proj2 (Q2 r))) (w_running_nodup _ _ Hsc))
    as (running & H2 & N2 & L2 & I2).
  destruct (pids_of (k_sys k) _ Blocked Hsys (proj2 (Forall_forall _ _) (λ r, proj2 (Q3 r))) (w_blocked_nodup _ _ Hsc))
    as (waiting & H3 & N3 & L3 & I3).
  destruct (mapM_concat _ _ _ H1) as (queues & Hq & Hqc).
  destruct (rows_of k (lanes_by_pid queues) Hw) as (rows & Hr & Hs & Hids & Hrow).
  unfold snapshot, getQueueSnapshot, getBlockedSnapshot, runningProcesses, getPerLaneQueueSnapshot. fold s.
  rewrite E3, H1, H3, H2, Hq, Hr. eexists. split; [done|]. cbn [sn_processCount sn_processes sn_readyQueue sn_runningPids
    sn_blockedQueue sn_perLaneReadyQueues sn_readyCount sn_blockedCount].
  split; [done|]. split; [done|]. split; [|split].
  - intros pid. rewrite Hids. unfold k_hasProcess, hasProcess. rewrite E4. by rewrite bool_decide_eq_true.
  - intros row Hin. destruct (Hrow row Hin) as (im & p & Hi & Hp & He). exists im, p.
    split; [done|]. split; [done|]. split; [done|].
    split; [by apply (ids_by_state (k_sys k) _ ready Ready _ im p Hsys Q1)|].
    split; [by apply (ids_by_state (k_sys k) _ running Running _ im p Hsys Q2)|].
    split; [by apply (ids_by_state (k_sys k) _ waiting Blocked _ im p Hsys Q3)|].
    intros lane. rewrite He. apply lanes_by_pid_spec. by rewrite Hqc.
  - unfold k_processCount, processCount. rewrite E4.
    by apply (three_lists (k_sys k) ready running waiting).
Qed.

(** The fields that are copied: the clock, the policy's name, the slots, and the
    scheduler's queues in their order. *)
Lemma snapshot_copies k sn :
  kernel_wf k → snapshot k = Some sn →
  let s := d_scheduler (k_sys k) in let h := d_heap (k_sys k) in
  sn_currentTick sn = k_now k ∧ sn_policyName sn = sched_policyName s ∧
  sn_totalVirtualSlots sn = totalSlots (d_world (k_sys k)) ∧ sn_freeVirtualSlots sn = freeSlots (d_world (k_sys k)) ∧
  mapM (mapM (pid_at h)) (readyByLane s) = Some (sn_perLaneReadyQueues sn) ∧
  sn_readyQueue sn = concat (sn_perLaneReadyQueues sn) ∧
  mapM (pid_at h) (omap id (runningByLane s)) = Some (sn_runningPids sn) ∧
  mapM (pid_at h) (blocked s) = Some (sn_blockedQueue sn) ∧
  sn_readyCount sn = length (sn_readyQueue sn) ∧ sn_blockedCount sn = length (sn_blockedQueue sn) ∧
  sn_totalFrames sn = None ∧ sn_freeFrames sn = None ∧ sn_frameOwners sn = [].
Proof.
  intros Hw. destruct (deps_all _ (kw_deps _ Hw)) as (E1 & E2 & E3 & E4 & _).
  unfold snapshot, now, getQueueSnapshot, getBlockedSnapshot, runningProcesses, getPerLaneQueueSnapshot.
  rewrite E1, E2, E3. destruct (mapM _ (concat _)) as [ready|] eqn:Hr; cbn [mbind option_bind]; [|done].
  destruct (mapM _ (blocked _)) as [waiting|] eqn:Hb; cbn [mbind option_bind]; [|done].
  destruct (mapM _ (omap _ _)) as [running|] eqn:Hn; cbn [mbind option_bind]; [|done].
  destruct (mapM _ (readyByLane _)) as [queues|] eqn:Hq; cbn [mbind option_bind]; [|done].
  destruct (process_rows k _) as [rows|]; cbn [mbind option_bind]; [|done]. intros [= <-]. simpl.
  destruct (mapM_concat _ _ _ Hr) as (yss & Hy & <-). rewrite Hq in Hy. injection Hy as <-. by split_and!.
Qed.

(** C14: the snapshot is faithful.  On every kernel state that calls can reach it
    is defined, with the clock's time, the policy's name and the virtual slots,
    total and free; the frame figures are never filled in.  It has one row per live process,
    in increasing order of identifiers; field by field the row has the name, the
    state, the base and effective priorities, the nice value and the CPU time of
    the process's control block, and the lane whose ready queue it waits in, or
    none.  The ready queues by lane, the running processes and the blocked queue
    are the scheduler's, in its order; the ready list is the queues one after the
    other; a process is listed exactly as the state of its control block says;
    and the three counts add up to the number of processes. *)
Theorem snapshot_faithful k :
  kernel_wf k →
  ∃ sn, snapshot k = Some sn ∧ sn_processCount sn = k_processCount k ∧
    sn_currentTick sn = k_now k ∧ sn_policyName sn = sched_policyName (d_scheduler (k_sys k)) ∧
    sn_totalVirtualSlots sn = totalSlots (d_world (k_sys k)) ∧ sn_freeVirtualSlots sn = freeSlots (d_world (k_sys k)) ∧
    (sn_totalFrames sn = None ∧ sn_freeFrames sn = None ∧ sn_frameOwners sn = []) ∧
    StronglySorted Z.lt (map row_id (sn_processes sn)) ∧
    (∀ pid, pid ∈ map row_id (sn_processes sn) ↔ k_hasProcess k pid = true) ∧
    (∀ row, row ∈ sn_processes sn → ∃ im p, d_processes (k_sys k) !! row_id row = Some im ∧
       d_heap (k_sys k) !! im_pcb im = Some p ∧ pcb_id p = row_id row ∧
       row_name row = pcb_name p ∧ row_state row = state p ∧
       row_base row = Process.base (priority p) ∧ row_effective row = Process.effective (priority p) ∧
       row_nice row = Process.nice (priority p) ∧ row_cpuTime row = Process.totalCpuTime (timing p) ∧
       (state p = Ready ↔ row_id row ∈ sn_readyQueue sn) ∧ (state p = Running ↔ row_id row ∈ sn_runningPids sn) ∧
       (state p = Blocked ↔ row_id row ∈ sn_blockedQueue sn) ∧
       ∀ lane, row_laneIndex row = Some lane ↔ ∃ q, sn_perLaneReadyQueues sn !! lane = Some q ∧ row_id row ∈ q) ∧
    mapM (mapM (pid_at (d_heap (k_sys k)))) (readyByLane (d_scheduler (k_sys k))) = Some (sn_perLaneReadyQueues sn) ∧
    mapM (pid_at (d_heap (k_sys k))) (omap id (runningByLane (d_scheduler (k_sys k)))) = Some (sn_runningPids sn) ∧
    mapM (pid_at (d_heap (k_sys k))) (blocked (d_scheduler (k_sys k))) = Some (sn_blockedQueue sn) ∧
    sn_readyQueue sn = concat (sn_perLaneReadyQueues sn) ∧
    sn_readyCount sn = length (sn_readyQueue sn) ∧ sn_blockedCount sn = length (sn_blockedQueue sn) ∧
    (sn_readyCount sn + sn_blockedCount sn + length (sn_runningPids sn) = sn_processCount sn)%nat.
Proof.
  intros Hw. destruct (snapshot_ok k Hw) as (sn & Hs & H1 & H2 & H3 & H4 & H5).
  destruct (snapshot_copies k sn Hw Hs) as (C1 & C2 & C3 & C4 & C5 & C6 & C7 & C8 & C9 & C10 & C11).
  exists sn. split_and!; try done; try apply C11. intros row Hin.
  destruct (H4 row Hin) as (im & p & Hi & Hp & Hrow & Hl). exists im, p.
  destruct (image_at_live _ _ im (kw_sys _ Hw) Hi) as (p' & _ & Hp' & Hid). rewrite Hp in Hp'. injection Hp' as <-.
  destruct Hl as (L1 & L2 & L3 & L4). split_and!; [done|done|done|by rewrite Hrow..|done|done|done|done].
Qed.
End view.

(** ** Concrete runs *)
Section demo.
#[local] Instance demo_order : HashOrder := canonical_order.
#[local] Instance demo_cast : FloatCast := λ _, 0.
Notation K := (kernel Policies.policy (machine PhysicalMemory.t ClockReplacement.t) Mutex.t).

Definition all_set : Dependencies :=
  MkDeps true true true true true true true true true true true true.
(** [GetPid] as a client would register it. *)
Definition get_pid : SyscallTable.HandlerFn := λ _ p im, Some (ok (pcb_id p), p, im).
Definition demo_kernel : K := Kernel_make all_set demo_start SyscallTable.make 4.
Definition program : list Block := [MkBlock Interrupt_ 0 Interrupt.SystemCall 0].
Definition config (id : Z) : ProcessConfig := MkProcessConfig id "" program Priority_default 0.
Definition demo_ops : list kernel_op :=
  [KCreate (config 0); KCreate (config 9); KCreate (config 9); KHandler SyscallId.GetPid (Some get_pid);
   KSyscall 9 SyscallId.GetPid []; KRegister "lock" (Some Mutex.make); KEnter 1 "lock"; KTick 0; KRun 3 2; KTerminate 9].
Definition kernel_after (ops : list kernel_op) : K :=
  match kernel_run demo_kernel ops with Some (_, k) => k | None => demo_kernel end.

Lemma get_pid_polite : polite get_pid.
Proof. intros args p im. by exists (ok (pcb_id p)), p, im. Qed.
Lemma demo_build : build all_set demo_start SyscallTable.make 4 = ok demo_kernel.
Proof. done. Qed.
Lemma demo_no_handlers : map_Forall (λ _, polite) (SyscallTable.handlers SyscallTable.make).
Proof. intros i h Hi. discriminate Hi. Qed.

Ltac civil_ops := repeat first [apply Forall_nil_2 | apply Forall_cons_2; [first [exact I|exact get_pid_polite]|]].

Lemma kernel_after_wf ops :
  Forall civil ops → is_Some (kernel_run demo_kernel ops) → kernel_wf (kernel_after ops).
Proof.
  intros Hc [[rs k'] Hr]. unfold kernel_after. rewrite Hr.
  pose proof (build_wf all_set (Some Fcfs) demo_world SimulationClock.init SyscallTable.make 4 demo_kernel
    demo_world_inv demo_world_empty demo_no_handlers demo_build) as Hw.
  destruct (kernel_run_ok demo_kernel ops Hw Hc) as [(rs' & k2 & Hr' & Hw')|(? & ? & ? & ? & ? & _ & _ & _ & Hn)];
    [|discriminate (eq_trans (eq_sym Hr) Hn)]. pose proof (eq_trans (eq_sym Hr) Hr') as He. injection He as _ ->. exact Hw'.
Qed.

Lemma kernel_run_safe_witness :
  Forall civil demo_ops ∧ ∃ rs k', kernel_run demo_kernel demo_ops = Some (rs, k') ∧ consistent (k_sys k') ∧
    (∀ pid r, k_processRefs k' !! pid = Some r ↔
       ∃ im p, d_processes (k_sys k') !! pid = Some im ∧ im_pcb im = r ∧
         image_at (k_sys k') r = Some (pid, p, im) ∧ pcb_id p = pid).
Proof.
  assert (Forall civil demo_ops) as Hc by civil_ops. split; [exact Hc|].
  destruct (kernel_run_safe all_set (Some Fcfs) demo_world SimulationClock.init SyscallTable.make 4 demo_kernel demo_ops
    demo_world_inv demo_world_empty demo_no_handlers demo_build Hc) as [H|(? & ? & ? & ? & ? & _ & _ & _ & Hn)]; [exact H|].
  vm_compute in Hn. discriminate Hn.
Defined.

Definition two_processes : list (kernel_op (Prim:=Mutex.t)) :=
  [KCreate (config 0); KCreate (config 9); KHandler SyscallId.GetPid (Some get_pid); KTick 0].
Lemma two_processes_wf : kernel_wf (kernel_after two_processes).
Proof. apply kernel_after_wf; [civil_ops|vm_compute; eexists; reflexivity]. Qed.

Lemma create_outcome_witness :
  match k_createProcess (kernel_after two_processes) (config 0) with
  | Some (ok pid, k') => pid = 2 ∧ k_hasProcess (kernel_after two_processes) pid = false
  | _ => False
  end.
Proof.
  destruct (create_outcome (kernel_after two_processes) (config 0) two_processes_wf)
    as (res & k' & Hc & _ & Hres & _).
  rewrite Hc. destruct res as [pid|e].
  - destruct Hres as (_ & _ & Hf & _). split; [|exact Hf]. vm_compute in Hc. injection Hc as <- _. reflexivity.
  - vm_compute in Hc. discriminate Hc.
Defined.

Lemma syscall_outcome_witness :
  match syscall (kernel_after two_processes) 9 SyscallId.GetPid [] with
  | Some (res, k') => res = ok 9 ∧ d_scheduler (k_sys k') = d_scheduler (k_sys (kernel_after two_processes))
  | None => False
  end.
Proof.
  pose proof (syscall_outcome (kernel_after two_processes) 9 SyscallId.GetPid [] two_processes_wf) as Hs.
  destruct (d_processes (k_sys (kernel_after two_processes)) !! 9) as [im|] eqn:Hi.
  2: { vm_compute in Hi. discriminate Hi. }
  destruct Hs as (p & res & p' & im' & k' & _ & Hid & Hh & Hs & _ & _ & _ & Hsc). rewrite Hs. split; [|exact Hsc].
  vm_compute in Hh. injection Hh as <- _ _. f_equal. exact Hid.
Defined.

Lemma snapshot_faithful_witness :
  match snapshot (kernel_after two_processes) with
  | Some sn => map row_id (sn_processes sn) = [1; 9] ∧
      (sn_readyCount sn + sn_blockedCount sn + length (sn_runningPids sn) = sn_processCount sn)%nat
  | None => False
  end.
Proof.
  destruct (snapshot_faithful (kernel_after two_processes) two_processes_wf) as (sn & Hs & _ & _ & _ & _ & _ & _ & _ & _ & _ & _ & _ & _ & _ & _ & _ & Hc).
  rewrite Hs. split; [|exact Hc]. vm_compute in Hs. injection Hs as <-. reflexivity.
Defined.
End demo.
