(* ===== verification/Builder.v ===== *)
(** * Builder: [kernel/kernel_builder.cpp]

    The fluent builder: which owning pointers it has been given, and the kernel
    it makes of them.  The objects themselves reach each other by reference and
    are the dispatcher model's state; the builder only looks at whether each
    pointer is set. *)
From S2P Require Import Prelude Core Process Policies Scheduler Interp Sync Dispatcher Kernel.

Module KernelBuilder.
Record t := Mk { deps : Dependencies; runtime : bool; defaultTickBudget : nat }.
Definition nothing : Dependencies :=
  MkDeps false false false false false false false false false false false false.
Definition make : t := Mk nothing false 0.

(** A setter replaces what the builder held; [p] says whether it is given an
    object or a null pointer. *)
Definition withClock (b : t) (p : bool) : t :=
  let '(Mk (MkDeps _ m u v c e s d tr f i y) r n) := b in Mk (MkDeps p m u v c e s d tr f i y) r n.
Definition withMemory (b : t) (p : bool) : t :=
  let '(Mk (MkDeps k _ u v c e s d tr f i y) r n) := b in Mk (MkDeps k p u v c e s d tr f i y) r n.
Definition withMmu (b : t) (p : bool) : t :=
  let '(Mk (MkDeps k m _ v c e s d tr f i y) r n) := b in Mk (MkDeps k m p v c e s d tr f i y) r n.
Definition withVirtualMemory (b : t) (p : bool) : t :=
  let '(Mk (MkDeps k m u _ c e s d tr f i y) r n) := b in Mk (MkDeps k m u p c e s d tr f i y) r n.
Definition withCpu (b : t) (p : bool) : t :=
  let '(Mk (MkDeps k m u v _ e s d tr f i y) r n) := b in Mk (MkDeps k m u v p e s d tr f i y) r n.
Definition withExecutionEngine (b : t) (p : bool) : t :=
  let '(Mk (MkDeps k m u v c _ s d tr f i y) r n) := b in Mk (MkDeps k m u v c p s d tr f i y) r n.
Definition withScheduler (b : t) (p : bool) : t :=
  let '(Mk (MkDeps k m u v c e _ d tr f i y) r n) := b in Mk (MkDeps k m u v c e p d tr f i y) r n.
Definition withDispatcher (b : t) (p : bool) : t :=
  let '(Mk (MkDeps k m u v c e s _ tr f i y) r n) := b in Mk (MkDeps k m u v c e s p tr f i y) r n.
Definition withTracer (b : t) (p : bool) : t :=
  let '(Mk (MkDeps k m u v c e s d _ f i y) r n) := b in Mk (MkDeps k m u v c e s d p f i y) r n.
Definition withRuntime (b : t) (p : bool) : t := Mk (deps b) p (defaultTickBudget b).
Definition withFileSystem (b : t) (p : bool) : t :=
  let '(Mk (MkDeps k m u v c e s d tr _ i y) r n) := b in Mk (MkDeps k m u v c e s d tr p i y) r n.
Definition withIpcManager (b : t) (p : bool) : t :=
  let '(Mk (MkDeps k m u v c e s d tr f _ y) r n) := b in Mk (MkDeps k m u v c e s d tr f p y) r n.
Definition withSyscallTable (b : t) (p : bool) : t :=
  let '(Mk (MkDeps k m u v c e s d tr f i _) r n) := b in Mk (MkDeps k m u v c e s d tr f i p) r n.
Definition withDefaultTickBudget (b : t) (ticks : nat) : t := Mk (deps b) (runtime b) ticks.

(** [build]; a kernel takes the pointers along, so the builder is left without
    them but keeps the budget. *)
Definition build {P W Prim : Type} (b : t) (sys : dispatcher P W) (table : SyscallTable.t) : Result (kernel P W Prim) * t :=
  match Kernel.build (deps b) sys table (defaultTickBudget b) with
  | error e => (error e, b)
  | ok k => (ok k, Mk nothing false (defaultTickBudget b))
  end.

(** ** What a chain of calls builds *)
Inductive part :=
| PClock | PMemory | PMmu | PVirtualMemory | PCpu | PExecutionEngine | PScheduler | PDispatcher | PTracer | PFileSystem
| PIpcManager | PSyscallTable.
#[global] Instance part_eq : EqDecision part.
Proof. solve_decision. Defined.
Inductive call := With (x : part) (p : bool) | WithRuntime (p : bool) | WithBudget (ticks : nat).
Definition with_part (b : t) (x : part) : bool → t :=
  match x with
  | PClock => withClock b | PMemory => withMemory b | PMmu => withMmu b | PVirtualMemory => withVirtualMemory b
  | PCpu => withCpu b | PExecutionEngine => withExecutionEngine b | PScheduler => withScheduler b
  | PDispatcher => withDispatcher b | PTracer => withTracer b | PFileSystem => withFileSystem b
  | PIpcManager => withIpcManager b | PSyscallTable => withSyscallTable b
  end.
Definition perform (b : t) (c : call) : t :=
  match c with
  | With x p => with_part b x p
  | WithRuntime p => withRuntime b p
  | WithBudget n => withDefaultTickBudget b n
  end.
Definition has (d : Dependencies) (x : part) : bool :=
  match x with
  | PClock => has_clock d | PMemory => has_memory d | PMmu => has_mmu d | PVirtualMemory => has_virtualMemory d
  | PCpu => has_cpu d | PExecutionEngine => has_executionEngine d | PScheduler => has_scheduler d
  | PDispatcher => has_dispatcher d | PTracer => has_tracer d | PFileSystem => has_fileSystem d
  | PIpcManager => has_ipcManager d | PSyscallTable => has_syscallTable d
  end.

(** The last call for a part, and for the budget. *)
Definition last_with (cs : list call) (x : part) : bool :=
  default false (last (omap (λ c, match c with With y p => if decide (y = x) then Some p else None | _ => None end) cs)).
Definition last_budget (cs : list call) : nat :=
  default 0%nat (last (omap (λ c, match c with WithBudget n => Some n | _ => None end) cs)).

Lemma has_perform b c x :
  has (deps (perform b c)) x = match c with With y p => if decide (y = x) then p else has (deps b) x | _ => has (deps b) x end.
Proof. destruct b as [[] ? ?], c as [[] p|p|n]; destruct x; reflexivity. Qed.
Lemma budget_perform b c :
  defaultTickBudget (perform b c) = match c with WithBudget n => n | _ => defaultTickBudget b end.
Proof. destruct b as [[] ? ?], c as [[] p|p|n]; reflexivity. Qed.

Lemma has_chain cs x : has (deps (foldl perform make cs)) x = last_with cs x.
Proof.
  induction cs as [|c cs IH] using rev_ind; [by destruct x|]. rewrite foldl_app. cbn [foldl]. rewrite has_perform, IH.
  unfold last_with. rewrite omap_app. destruct c as [y p|p|n]; cbn [omap list_omap]; [case_decide|..];
    by rewrite ?last_snoc, ?app_nil_r.
Qed.
Lemma budget_chain cs : defaultTickBudget (foldl perform make cs) = last_budget cs.
Proof.
  induction cs as [|c cs IH] using rev_ind; [done|]. rewrite foldl_app. cbn [foldl]. rewrite budget_perform, IH.
  unfold last_budget. rewrite omap_app. destruct c as [y p|p|n]; cbn [omap list_omap]; by rewrite ?last_snoc, ?app_nil_r.
Qed.
Lemma has_all d : hasAllRequiredDependencies d = true ↔ ∀ x, has d x = true.
Proof.
  unfold hasAllRequiredDependencies. rewrite !andb_true_iff. split.
  - intros (((((((((((? & ?) & ?) & ?) & ?) & ?) & ?) & ?) & ?) & ?) & ?) & ?) []; assumption.
  - intros H. repeat split;
      [apply (H PClock)|apply (H PMemory)|apply (H PMmu)|apply (H PVirtualMemory)|apply (H PCpu)|apply (H PExecutionEngine)
      |apply (H PScheduler)|apply (H PDispatcher)|apply (H PTracer)|apply (H PFileSystem)|apply (H PIpcManager)
      |apply (H PSyscallTable)].
Qed.

(** The builder's contract: only the last call for each part counts, in
    whatever order the parts come.  A kernel is built exactly when every
    required part was last given an object and the last budget is positive, and
    it has that budget; a missing part is reported before a missing budget; and
    a second [build] finds nothing left. *)
Theorem builder_outcome {P W Prim} (cs : list call) (sys : dispatcher P W) table :
  let b := foldl perform make cs in
  let '(r, b') := build (Prim:=Prim) b sys table in
  match r with
  | ok k => (∀ x, last_with cs x = true) ∧ last_budget cs ≠ 0%nat ∧ k_defaultTickBudget k = last_budget cs ∧
      k_sys k = sys ∧ (build (Prim:=Prim) b' sys table).1 = error ErrorCode.InvalidState
  | error e => b' = b ∧
      (e = ErrorCode.InvalidState ∧ (∃ x, last_with cs x = false) ∨
       e = ErrorCode.InvalidArgument ∧ (∀ x, last_with cs x = true) ∧ last_budget cs = 0%nat)
  end.
Proof.
  cbv zeta. unfold build, Kernel.build. rewrite budget_chain.
  destruct (hasAllRequiredDependencies (deps (foldl perform make cs))) eqn:Hd; simpl.
  - assert (∀ x, last_with cs x = true) as Hall by (intros x; rewrite <-has_chain; by apply has_all).
    destruct (Nat.eqb_spec (last_budget cs) 0) as [E|E]; [split; [done|by right]|]. split_and!; done.
  - split; [done|]. left. split; [done|].
    destruct (decide (Exists (λ x, last_with cs x = false) [PClock; PMemory; PMmu; PVirtualMemory; PCpu; PExecutionEngine;
      PScheduler; PDispatcher; PTracer; PFileSystem; PIpcManager; PSyscallTable])) as [(x & _ & Hx)%Exists_exists|Hn]; [by exists x|].
    apply not_Exists_Forall in Hn; [|intros ?; apply _]. rewrite Forall_forall in Hn.
    assert (hasAllRequiredDependencies (deps (foldl perform make cs)) = true); [|congruence].
    apply has_all. intros x. rewrite has_chain. apply not_false_is_true. apply Hn. destruct x;
      repeat first [apply list_elem_of_here|apply list_elem_of_further].
Qed.
End KernelBuilder.
