(* ===== verification/Devices.v ===== *)
(** * Devices: [io/]

    The console, the simulated network card and the registry that reaches
    devices by identifier.  Here the registry's calls come one at a
    time; DeviceLocks adds its two levels of host locks and concurrent callers. *)
From stdpp Require Import pretty.
From S2P Require Import Prelude Core.
Local Open Scope Z_scope.

(** ** The interface [IDevice]: [io/i_device.h] *)
Class IDevice (D : Type) := {
  dev_id : D → Z;
  dev_name : D → string;
  dev_read : D → Result Z * D;
  dev_write : D → Z → Result unit * D;
  dev_ready : D → bool
}.
#[global] Hint Mode IDevice ! : typeclass_instances.

Definition CONSOLE_DEVICE_ID : Z := 1.
Definition NETWORK_DEVICE_ID : Z := 2.

(** ** [io/console_device.cpp] *)
Module ConsoleDevice.
(** The last value written, and what went to [std::cout]. *)
Record t := Mk { lastValue : Z; printed : string }.
Definition make : t := Mk 0 "".

(** A printable character, or the number. *)
Definition rendered (value : Z) : string :=
  if (32 <=? value) && (value <? 127) then String (Ascii.ascii_of_nat (Z.to_nat value)) EmptyString else pretty value.
Definition read (c : t) : Result Z * t := (ok (lastValue c), c).
Definition write (c : t) (value : Z) : Result unit * t := (ok tt, Mk value (printed c +:+ rendered value)).

#[global] Instance device : IDevice t := {|
  dev_id _ := CONSOLE_DEVICE_ID;
  dev_name _ := "Console";
  dev_read := read;
  dev_write := write;
  dev_ready _ := true
|}.
End ConsoleDevice.

(** ** [io/network_device.cpp] *)
Module NetworkDevice.
Record t := Mk { capacity : nat; buffer : list Z }.
Definition make (bufferCapacity : nat) : t := Mk bufferCapacity [].

Definition read (n : t) : Result Z * t :=
  match buffer n with
  | [] => (error ErrorCode.BufferEmpty, n)
  | value :: rest => (ok value, Mk (capacity n) rest)
  end.
Definition write (n : t) (value : Z) : Result unit * t :=
  if (capacity n <=? length (buffer n))%nat then (error ErrorCode.BufferFull, n)
  else (ok tt, Mk (capacity n) (buffer n ++ [value])).
Definition isReady (n : t) : bool := (length (buffer n) <? capacity n)%nat.
Definition bufferSize (n : t) : nat := length (buffer n).
Definition hasData (n : t) : bool := negb (bool_decide (buffer n = [])).

#[global] Instance device : IDevice t := {|
  dev_id _ := NETWORK_DEVICE_ID;
  dev_name _ := "Network";
  dev_read := read;
  dev_write := write;
  dev_ready := isReady
|}.
End NetworkDevice.

(** A [std::unique_ptr<IDevice>] to one of the two. *)
Inductive device := Console (c : ConsoleDevice.t) | Network (n : NetworkDevice.t).
#[global] Instance any_device : IDevice device := {|
  dev_id d := match d with Console c => dev_id c | Network n => dev_id n end;
  dev_name d := match d with Console c => dev_name c | Network n => dev_name n end;
  dev_read d :=
    match d with
    | Console c => let '(r, c') := dev_read c in (r, Console c')
    | Network n => let '(r, n') := dev_read n in (r, Network n')
    end;
  dev_write d v :=
    match d with
    | Console c => let '(r, c') := dev_write c v in (r, Console c')
    | Network n => let '(r, n') := dev_write n v in (r, Network n')
    end;
  dev_ready d := match d with Console c => dev_ready c | Network n => dev_ready n end
|}.

(** ** [io/device_manager.cpp] *)
Module DeviceManager.
Section manager.
Context {D : Type} `{!IDevice D}.

(** [devices], in the order of registration. *)
Definition make : list D := [].

(** [std::find_if] by identifier: the position of the device. *)
Fixpoint find_position (m : list D) (id : Z) : option nat :=
  match m with
  | [] => None
  | d :: rest => if dev_id d =? id then Some O else S <$> find_position rest id
  end.
Definition findDevice (m : list D) (id : Z) : option D := let! i := find_position m id in m !! i.

Definition registerDevice (m : list D) (d : option D) : Result unit * list D :=
  match d with
  | None => (error ErrorCode.InvalidArgument, m)
  | Some d =>
      match findDevice m (dev_id d) with
      | Some _ => (error ErrorCode.AlreadyExists, m)
      | None => (ok tt, m ++ [d])
      end
  end.
Definition unregisterDevice (m : list D) (id : Z) : Result unit * list D :=
  match find_position m id with
  | None => (error ErrorCode.NotFound, m)
  | Some i => (ok tt, delete i m)
  end.
Definition getDevice (m : list D) (id : Z) : option D := findDevice m id.

(** Both calls go through [isReady] first. *)
Definition write (m : list D) (id value : Z) : Result unit * list D :=
  match find_position m id with
  | None => (error ErrorCode.NotFound, m)
  | Some i =>
      match m !! i with
      | None => (error ErrorCode.NotFound, m)
      | Some d =>
          if negb (dev_ready d) then (error ErrorCode.DeviceError, m)
          else let '(r, d') := dev_write d value in (r, <[i := d']> m)
      end
  end.
Definition read (m : list D) (id : Z) : Result Z * list D :=
  match find_position m id with
  | None => (error ErrorCode.NotFound, m)
  | Some i =>
      match m !! i with
      | None => (error ErrorCode.NotFound, m)
      | Some d =>
          if negb (dev_ready d) then (error ErrorCode.DeviceError, m)
          else let '(r, d') := dev_read d in (r, <[i := d']> m)
      end
  end.
Definition deviceCount (m : list D) : nat := length m.
Definition hasDevice (m : list D) (id : Z) : bool := bool_decide (is_Some (findDevice m id)).
End manager.
End DeviceManager.
