(* ===== verification/DevicesTheorems.v ===== *)
(** * DevicesTheorems: the registry is a map, the network card a bounded queue *)
From stdpp Require Import pretty.
From S2P Require Import Prelude Core Devices.
Local Open Scope Z_scope.
Import DeviceManager.

(** Using a device does not change who it is. *)
Class LawfulDevice (D : Type) `{!IDevice D} := {
  law_read_id (d : D) : dev_id (dev_read d).2 = dev_id d;
  law_write_id (d : D) v : dev_id (dev_write d v).2 = dev_id d
}.
#[global] Instance any_lawful : LawfulDevice device.
Proof.
  split; intros [c|n]; try done; cbn; unfold NetworkDevice.read, NetworkDevice.write; intros; by repeat case_match.
Qed.

Section manager.
Context {D : Type} `{HD : !IDevice D} `{HLD : !LawfulDevice D}.
Implicit Types (m : list D) (id v : Z) (d : D).

(** The registry as a map from identifiers to devices. *)
Definition view m : gmap Z D := list_to_map (map (λ d, (dev_id d, d)) m).
Definition unique m : Prop := NoDup (map dev_id m).

Lemma fst_ids m : (map (λ d, (dev_id d, d)) m).*1 = map dev_id m.
Proof. induction m; simpl; by f_equal. Qed.

Lemma view_cons d m : view (d :: m) = <[dev_id d := d]> (view m).
Proof. done. Qed.

Lemma find_view m id : findDevice m id = view m !! id.
Proof.
  unfold findDevice. induction m as [|d m IH]; [symmetry; apply lookup_empty|].
  rewrite view_cons. cbn [find_position]. destruct (Z.eqb_spec (dev_id d) id) as [->|Hne]; [by rewrite lookup_insert_eq|].
  rewrite lookup_insert_ne by done. rewrite <-IH. by destruct (find_position m id).
Qed.
Lemma position_spec m id :
  match find_position m id with
  | Some i => ∃ d, m !! i = Some d ∧ dev_id d = id ∧ view m !! id = Some d
  | None => view m !! id = None
  end.
Proof.
  rewrite <-find_view. unfold findDevice. induction m as [|d m IH]; simpl; [done|].
  destruct (Z.eqb_spec (dev_id d) id) as [He|Hne]; [by exists d|]. by destruct (find_position m id).
Qed.

Lemma view_update m i d d' :
  unique m → m !! i = Some d → dev_id d' = dev_id d →
  unique (<[i := d']> m) ∧ view (<[i := d']> m) = <[dev_id d := d']> (view m).
Proof.
  intros Hu Hi He. assert (map dev_id (<[i := d']> m) = map dev_id m) as Hids.
  { change (dev_id <$> <[i := d']> m = dev_id <$> m). rewrite list_fmap_insert, He. apply list_insert_id.
    by rewrite list_lookup_fmap, Hi. }
  split; [unfold unique; by rewrite Hids|]. revert i Hi Hids Hu.
  induction m as [|x m IH]; intros [|i] Hi Hids Hu; simplify_eq/=; rewrite !view_cons.
  - rewrite He. by rewrite insert_insert_eq.
  - apply NoDup_cons in Hu as [Hx Hu]. rewrite (IH i Hi) by (by injection Hids || done).
    apply insert_insert_ne. intros Heq. apply Hx. rewrite Heq. apply list_elem_of_fmap. exists d.
    split; [done|]. by eapply list_elem_of_lookup_2.
Qed.

(** ** Calls on the registry, and on the map it stands for *)
Inductive dev_op := ORegister (d : option D) | OUnregister (id : Z) | OWrite (id value : Z) | ORead (id : Z).
Definition answer (r : Result unit) : Result (option Z) := match r with ok _ => ok None | error e => error e end.
Definition delivered (r : Result Z) : Result (option Z) := match r with ok v => ok (Some v) | error e => error e end.

Definition dev_step m (op : dev_op) : Result (option Z) * list D :=
  match op with
  | ORegister d => let '(r, m') := registerDevice m d in (answer r, m')
  | OUnregister id => let '(r, m') := unregisterDevice m id in (answer r, m')
  | OWrite id v => let '(r, m') := write m id v in (answer r, m')
  | ORead id => let '(r, m') := read m id in (delivered r, m')
  end.
Fixpoint dev_run m (ops : list dev_op) : list (Result (option Z)) * list D :=
  match ops with
  | [] => ([], m)
  | op :: ops' => let '(r, m1) := dev_step m op in let '(rs, m2) := dev_run m1 ops' in (r :: rs, m2)
  end.

Definition map_step (a : gmap Z D) (op : dev_op) : Result (option Z) * gmap Z D :=
  match op with
  | ORegister None => (error ErrorCode.InvalidArgument, a)
  | ORegister (Some d) =>
      match a !! dev_id d with
      | Some _ => (error ErrorCode.AlreadyExists, a)
      | None => (ok None, <[dev_id d := d]> a)
      end
  | OUnregister id =>
      match a !! id with Some _ => (ok None, delete id a) | None => (error ErrorCode.NotFound, a) end
  | OWrite id v =>
      match a !! id with
      | None => (error ErrorCode.NotFound, a)
      | Some d =>
          if dev_ready d then let '(r, d') := dev_write d v in (answer r, <[id := d']> a)
          else (error ErrorCode.DeviceError, a)
      end
  | ORead id =>
      match a !! id with
      | None => (error ErrorCode.NotFound, a)
      | Some d =>
          if dev_ready d then let '(r, d') := dev_read d in (delivered r, <[id := d']> a)
          else (error ErrorCode.DeviceError, a)
      end
  end.
Fixpoint map_run (a : gmap Z D) (ops : list dev_op) : list (Result (option Z)) * gmap Z D :=
  match ops with
  | [] => ([], a)
  | op :: ops' => let '(r, a1) := map_step a op in let '(rs, a2) := map_run a1 ops' in (r :: rs, a2)
  end.

Lemma view_register m d :
  unique m → view m !! dev_id d = None → unique (m ++ [d]) ∧ view (m ++ [d]) = <[dev_id d := d]> (view m).
Proof.
  intros Hu Hn. assert (dev_id d ∉ map dev_id m) as Hnot.
  { unfold view in Hn. apply not_elem_of_list_to_map in Hn. by rewrite fst_ids in Hn. }
  split.
  - unfold unique. rewrite map_app. apply NoDup_app. split; [done|]. split; [|apply NoDup_singleton].
    intros id Hid ->%list_elem_of_singleton. done.
  - unfold view. rewrite map_app. simpl. rewrite list_to_map_snoc; [done|]. by rewrite fst_ids.
Qed.
Lemma view_unregister m i d :
  unique m → m !! i = Some d → unique (delete i m) ∧ view (delete i m) = delete (dev_id d) (view m).
Proof.
  revert i. induction m as [|x m IH]; intros [|i] Hu Hi; simplify_eq/=; apply NoDup_cons in Hu as [Hx Hu].
  - split; [done|]. rewrite view_cons, delete_insert_id; [done|].
    unfold view. apply not_elem_of_list_to_map. by rewrite fst_ids.
  - destruct (IH i Hu Hi) as [Hu' Hv].
    assert (dev_id x ≠ dev_id d) as Hne.
    { intros He. apply Hx. rewrite He. apply list_elem_of_fmap. exists d. split; [done|]. by eapply list_elem_of_lookup_2. }
    change (delete (S i) (x :: m)) with (x :: delete i m).
    split; [|rewrite !view_cons, Hv; symmetry; by apply delete_insert_ne].
    constructor; [|done]. intros Hin. apply Hx. apply list_elem_of_fmap in Hin as (y & Hy & Hin).
    apply list_elem_of_fmap. exists y. split; [done|]. apply list_elem_of_lookup in Hin as [j Hj].
    rewrite list_lookup_delete in Hj. case_decide; by eapply list_elem_of_lookup_2.
Qed.

Lemma dev_step_ok m op :
  unique m → unique (dev_step m op).2 ∧
  map_step (view m) op = ((dev_step m op).1, view (dev_step m op).2).
Proof.
  intros Hu. destruct op as [[d|]|id|id v|id]; cbn [dev_step map_step].
  - cbn [registerDevice]. rewrite find_view. destruct (view m !! dev_id d) eqn:Hv; simpl; [done|].
    destruct (view_register m d Hu Hv) as [? ->]. done.
  - done.
  - unfold unregisterDevice. pose proof (position_spec m id) as Hp. destruct (find_position m id) as [i|].
    + destruct Hp as (d & Hi & <- & ->). simpl. destruct (view_unregister m i d Hu Hi) as [? <-]. done.
    + by rewrite Hp.
  - unfold write. pose proof (position_spec m id) as Hp. destruct (find_position m id) as [i|]; [|by rewrite Hp].
    destruct Hp as (d & Hi & <- & ->). rewrite Hi. destruct (dev_ready d); simpl; [|done].
    pose proof (law_write_id d v) as Hid. destruct (dev_write d v) as [r d']. simpl in *.
    destruct (view_update m i d d' Hu Hi Hid) as [? ->]. done.
  - unfold read. pose proof (position_spec m id) as Hp. destruct (find_position m id) as [i|]; [|by rewrite Hp].
    destruct Hp as (d & Hi & <- & ->). rewrite Hi. destruct (dev_ready d); simpl; [|done].
    pose proof (law_read_id d) as Hid. destruct (dev_read d) as [r d']. simpl in *.
    destruct (view_update m i d d' Hu Hi Hid) as [? ->]. done.
Qed.

Lemma dev_run_ok m ops :
  unique m → unique (dev_run m ops).2 ∧ map_run (view m) ops = ((dev_run m ops).1, view (dev_run m ops).2).
Proof.
  revert m. induction ops as [|op ops IH]; intros m Hu; simpl; [done|].
  destruct (dev_step_ok m op Hu) as [Hu1 ->]. destruct (dev_step m op) as [r m1]. simpl in *.
  destruct (IH m1 Hu1) as [? ->]. by destruct (dev_run m1 ops).
Qed.

(** The registry is a map from identifiers to devices: every sequence of calls
    on a new registry gives the answers of the map, no identifier is ever
    registered twice, and the number of devices is the size of the map. *)
Theorem device_manager_refines ops :
  let '(rs, m) := dev_run make ops in
  map_run ∅ ops = (rs, view m) ∧ NoDup (map dev_id m) ∧ deviceCount m = size (view m) ∧
  ∀ id, getDevice m id = view m !! id.
Proof.
  destruct (dev_run_ok make ops (NoDup_nil_2)) as [Hu Hr]. destruct (dev_run make ops) as [rs m]. simpl in *.
  split; [done|]. split; [done|]. split; [|apply find_view]. clear -Hu. unfold deviceCount.
  induction m as [|d m IH]; [done|]. apply NoDup_cons in Hu as [Hd Hu]. rewrite view_cons, map_size_insert_None.
  - simpl. f_equal. by apply IH.
  - unfold view. apply not_elem_of_list_to_map. by rewrite fst_ids.
Qed.
End manager.

(** ** The network card behind the registry *)
Section network.
Notation call := (dev_op (D:=device)).
Implicit Types (a : gmap Z device) (n : NetworkDevice.t) (ops : list call).

(** Reads and writes of the card. *)
Definition card_op (op : call) : Prop :=
  match op with OWrite id _ | ORead id => id = NETWORK_DEVICE_ID | _ => False end.
(** The values its writes accepted and its reads delivered, in order. *)
Fixpoint accepted (ops : list call) (rs : list (Result (option Z))) : list Z :=
  match ops, rs with
  | OWrite _ v :: ops, ok None :: rs => v :: accepted ops rs
  | _ :: ops, _ :: rs => accepted ops rs
  | _, _ => []
  end.
Fixpoint received (rs : list (Result (option Z))) : list Z :=
  match rs with
  | ok (Some v) :: rs => v :: received rs
  | _ :: rs => received rs
  | [] => []
  end.

Definition full n : Prop := (NetworkDevice.capacity n ≤ length (NetworkDevice.buffer n))%nat.

Lemma card_step a n (op : call) :
  a !! NETWORK_DEVICE_ID = Some (Network n) → card_op op →
  (full n ∧ map_step a op = (error ErrorCode.DeviceError, a)) ∨
  (¬ full n ∧ ∃ r n', map_step a op = (r, <[NETWORK_DEVICE_ID := Network n']> a) ∧
     NetworkDevice.capacity n' = NetworkDevice.capacity n ∧
     match op, r with
     | OWrite _ v, ok None => NetworkDevice.buffer n' = NetworkDevice.buffer n ++ [v]
     | ORead _, ok (Some v) => NetworkDevice.buffer n = v :: NetworkDevice.buffer n'
     | ORead _, error ErrorCode.BufferEmpty => NetworkDevice.buffer n = [] ∧ n' = n
     | _, _ => False
     end).
Proof.
  intros Ha Hop. unfold full. destruct op as [d|id|id v|id]; try done; simpl in Hop; subst id; simpl; rewrite Ha; simpl;
    unfold NetworkDevice.isReady, NetworkDevice.write, NetworkDevice.read;
    destruct (Nat.ltb_spec (length (NetworkDevice.buffer n)) (NetworkDevice.capacity n)) as [Hlt|Hge];
    try (left; split; [lia|done]); right; (split; [lia|]).
  - rewrite (proj2 (Nat.leb_gt _ _)) by lia. simpl. by do 2 eexists.
  - destruct (NetworkDevice.buffer n) as [|v rest] eqn:Hb; simpl; by do 2 eexists.
Qed.

Lemma stuck_run a n ops :
  a !! NETWORK_DEVICE_ID = Some (Network n) → full n → Forall card_op ops →
  map_run a ops = (replicate (length ops) (error ErrorCode.DeviceError), a).
Proof.
  intros Ha Hf. induction 1 as [|op ops Hop _ IH]; [done|]. cbn [map_run].
  destruct (card_step a n op Ha Hop) as [[_ ->]|[? _]]; [|done]. by rewrite IH.
Qed.

Lemma card_run a n ops :
  a !! NETWORK_DEVICE_ID = Some (Network n) → Forall card_op ops →
  (length (NetworkDevice.buffer n) ≤ NetworkDevice.capacity n)%nat →
  ∃ rs n' a', map_run a ops = (rs, a') ∧ a' !! NETWORK_DEVICE_ID = Some (Network n') ∧
    NetworkDevice.capacity n' = NetworkDevice.capacity n ∧
    (length (NetworkDevice.buffer n') ≤ NetworkDevice.capacity n')%nat ∧
    NetworkDevice.buffer n ++ accepted ops rs = received rs ++ NetworkDevice.buffer n'.
Proof.
  intros Ha Hops. revert a n Ha. induction Hops as [|op ops Hop _ IH]; intros a n Ha Hlen.
  { exists [], n, a. split_and!; try done. by rewrite app_nil_r. }
  cbn [map_run]. destruct (card_step a n op Ha Hop) as [[Hf ->]|(Hnf & r & n1 & -> & Hc & Hr)].
  - destruct (IH a n Ha Hlen) as (rs & n' & a' & -> & ? & ? & ? & He). do 3 eexists. split; [done|].
    split_and!; try done. by destruct op.
  - assert (length (NetworkDevice.buffer n1) ≤ NetworkDevice.capacity n1)%nat as Hlen1.
    { unfold full in Hnf. rewrite Hc. destruct op as [| |id v|id], r as [[w|]|[]]; try done.
      - rewrite Hr, length_app. simpl. lia.
      - rewrite Hr in Hlen. simpl in Hlen. lia.
      - by destruct Hr as [_ ->]. }
    destruct (IH _ n1 (lookup_insert_eq a _ _) Hlen1) as (rs & n' & a' & -> & ? & ? & ? & He). do 3 eexists.
    split; [done|]. split; [done|]. split; [congruence|]. split; [done|].
    destruct op as [| |id v|id], r as [[w|]|[]]; try done; simpl.
    + rewrite Hr in He. by rewrite <-(assoc_L (++)) in He.
    + rewrite Hr. simpl. by rewrite He.
    + destruct Hr as [_ ->]. done.
Qed.

(** The network card is a bounded first-in first-out queue until it is full,
    and then dead.  Through the registry, every run of reads and writes delivers
    the accepted values in order and never holds more than its capacity; but as
    soon as the card is full it is "not ready", so every later read and write is
    answered [DeviceError] and nothing can ever drain it again. *)
Theorem network_card (ops1 ops2 : list call) capacity :
  let start := (dev_run make [ORegister (Some (Network (NetworkDevice.make capacity)))]).2 in
  Forall card_op ops1 → Forall card_op ops2 →
  ∃ rs m n, dev_run start ops1 = (rs, m) ∧ getDevice m NETWORK_DEVICE_ID = Some (Network n) ∧
    accepted ops1 rs = received rs ++ NetworkDevice.buffer n ∧
    (length (NetworkDevice.buffer n) ≤ capacity)%nat ∧
    (length (NetworkDevice.buffer n) = capacity →
       dev_run m ops2 = (replicate (length ops2) (error ErrorCode.DeviceError), (dev_run m ops2).2) ∧
       ∀ id, getDevice (dev_run m ops2).2 id = getDevice m id).
Proof.
  intros start H1 H2. assert (unique start) as Hu by (apply NoDup_singleton).
  destruct (card_run (view start) (NetworkDevice.make capacity) ops1) as (rs & n & a & Hr & Ha & Hc & Hlen & He);
    [done|done|simpl; lia|].
  destruct (dev_run_ok start ops1 Hu) as [Hu1 Hr1]. rewrite Hr in Hr1.
  destruct (dev_run start ops1) as [rs' m]. simpl in *. injection Hr1 as -> ->. exists rs', m, n.
  rewrite Hc in Hlen. split; [done|]. split; [unfold getDevice; by rewrite find_view|]. split; [done|]. split; [done|].
  intros Hfull. assert (full n) as Hf by (unfold full; lia).
  pose proof (stuck_run (view m) n ops2 Ha Hf H2) as Hst.
  destruct (dev_run_ok m ops2 Hu1) as [_ Hr2]. rewrite Hst in Hr2. destruct (dev_run m ops2) as [rs2 m2]. simpl in *.
  injection Hr2 as -> Hv. split; [done|]. intros id. unfold getDevice. by rewrite !find_view, <-Hv.
Qed.

Lemma network_card_witness :
  let start := (dev_run make [ORegister (Some (Network (NetworkDevice.make 2)))]).2 in
  let ops1 := [OWrite NETWORK_DEVICE_ID 5; ORead NETWORK_DEVICE_ID; OWrite NETWORK_DEVICE_ID 6; OWrite NETWORK_DEVICE_ID 7] in
  let ops2 := [ORead NETWORK_DEVICE_ID; OWrite NETWORK_DEVICE_ID 8] in
  ∃ m, (dev_run start ops1).2 = m ∧ (dev_run m ops2).1 = [error ErrorCode.DeviceError; error ErrorCode.DeviceError].
Proof.
  intros start ops1 ops2.
  assert (Forall card_op ops1) as H1 by (repeat first [apply Forall_nil_2 | apply Forall_cons_2; [reflexivity|]]).
  assert (Forall card_op ops2) as H2 by (repeat first [apply Forall_nil_2 | apply Forall_cons_2; [reflexivity|]]).
  destruct (network_card ops1 ops2 2 H1 H2) as (rs & m & n & Hr & Hg & _ & _ & Hfull).
  exists m. unfold start. rewrite Hr. split; [reflexivity|].
  assert (length (NetworkDevice.buffer n) = 2%nat) as Hl.
  { vm_compute in Hr. injection Hr as <- <-. vm_compute in Hg. injection Hg as <-. reflexivity. }
  destruct (Hfull Hl) as [-> _]. reflexivity.
Defined.
End network.
