(* ===== verification/DeviceLocks.v ===== *)
(** * DeviceLocks: [io/device_manager.cpp] under concurrent calls

    The registry with its two levels of host locks: [registryMutex] guards the
    vector of devices and the table of device mutexes, and each device has a
    mutex of its own, taken after the registry's is given back.  Devices and
    mutexes are shared objects at addresses; a [std::shared_ptr] held by a
    thread keeps them alive, so that a device can be used after it has been
    unregistered.  A thread makes one step at a time: taking or releasing a
    mutex, or one access to what the mutex guards. *)
From S2P Require Import Prelude Core Devices DevicesTheorems.
Local Open Scope Z_scope.

Section locks.
Context {D : Type} `{HD : !IDevice D}.
Notation op := (dev_op (D:=D)).
Notation ans := (Result (option Z)).

(** Where a thread is in its call. *)
Inductive stage :=
| Calling (o : op)
| InRegistry (o : op)
| Inserting (d : D)
| Erasing (id : Z) (position : nat)
| Locating (o : op) (position : nat)
| Located (o : op) (device mutex : Z)
| RegReleasing (o : op) (a : ans)
| WantDevice (o : op) (device mutex : Z)
| InDevice (o : op) (device mutex : Z)
| DeviceReady (o : op) (device mutex : Z)
| DevReleasing (o : op) (mutex : Z) (a : ans)
| Returning (o : op) (a : ans).

(** A call that has returned, and when. *)
Record call := MkCall { c_op : op; c_ans : ans; c_end : nat }.

(** A thread in a call has the time it called at.  [finished]: the returned
    calls by the time they were made. *)
Record sys := MkSys {
  devices : list Z;
  objects : gmap Z D;
  deviceLocks : gmap Z Z;
  registryMutex : option nat;
  mutexes : gmap Z nat;
  fresh : Z;
  threads : gmap nat (nat * stage);
  finished : gmap nat call;
  time : nat
}.
Definition init : sys := MkSys [] ∅ ∅ None ∅ 0 ∅ ∅ 0.

Definition goto (s : sys) (t start : nat) (g : stage) : sys :=
  MkSys (devices s) (objects s) (deviceLocks s) (registryMutex s) (mutexes s) (fresh s)
    (<[t := (start, g)]> (threads s)) (finished s) (S (time s)).
Definition set_registryMutex (s : sys) (o : option nat) : sys :=
  MkSys (devices s) (objects s) (deviceLocks s) o (mutexes s) (fresh s) (threads s) (finished s) (time s).
Definition set_mutexes (s : sys) (m : gmap Z nat) : sys :=
  MkSys (devices s) (objects s) (deviceLocks s) (registryMutex s) m (fresh s) (threads s) (finished s) (time s).
Definition set_objects (s : sys) (h : gmap Z D) : sys :=
  MkSys (devices s) h (deviceLocks s) (registryMutex s) (mutexes s) (fresh s) (threads s) (finished s) (time s).

(** [std::find_if] over the vector, by [dev->id()]. *)
Fixpoint find_index (h : gmap Z D) (l : list Z) (id : Z) : option nat :=
  match l with
  | [] => None
  | r :: l' =>
      match h !! r with
      | Some d => if dev_id d =? id then Some 0%nat else S <$> find_index h l' id
      | None => None
      end
  end.

(** [registerDevice] after the check: a new shared object and a new mutex. *)
Definition push_device (s : sys) (d : D) : sys :=
  MkSys (devices s ++ [fresh s]) (<[fresh s := d]> (objects s))
    (emplace (dev_id d) (fresh s + 1) (deviceLocks s)) (registryMutex s) (mutexes s) (fresh s + 2)
    (threads s) (finished s) (time s).
Definition erase_device (s : sys) (id : Z) (position : nat) : sys :=
  MkSys (delete position (devices s)) (objects s) (delete id (deviceLocks s)) (registryMutex s) (mutexes s)
    (fresh s) (threads s) (finished s) (time s).

(** [lockableDevice] after [find_if]: the device's mutex, made if missing. *)
Definition lock_of (s : sys) (id : Z) : Z * sys :=
  match deviceLocks s !! id with
  | Some l => (l, s)
  | None =>
      (fresh s, MkSys (devices s) (objects s) (<[id := fresh s]> (deviceLocks s)) (registryMutex s) (mutexes s)
                  (fresh s + 1) (threads s) (finished s) (time s))
  end.

Definition op_id (o : op) : Z :=
  match o with
  | ORegister (Some d) => dev_id d
  | ORegister None => 0
  | OUnregister id | OWrite id _ | ORead id => id
  end.
Definition use_device (o : op) (d : D) : ans * D :=
  match o with
  | OWrite _ v => let '(r, d') := dev_write d v in (answer r, d')
  | _ => let '(r, d') := dev_read d in (delivered r, d')
  end.

(** The next step of a thread; [None] while it waits for a mutex. *)
Definition advance (s : sys) (t : nat) : option sys :=
  let! (start, g) := threads s !! t in
  match g with
  | Calling (ORegister None) => Some (goto s t start (Returning (ORegister None) (error ErrorCode.InvalidArgument)))
  | Calling o =>
      match registryMutex s with
      | Some _ => None
      | None => Some (goto (set_registryMutex s (Some t)) t start (InRegistry o))
      end
  | InRegistry o =>
      Some (goto s t start
        match o, find_index (objects s) (devices s) (op_id o) with
        | ORegister (Some d), None => Inserting d
        | ORegister _, _ => RegReleasing o (error ErrorCode.AlreadyExists)
        | _, None => RegReleasing o (error ErrorCode.NotFound)
        | OUnregister id, Some i => Erasing id i
        | _, Some i => Locating o i
        end)
  | Inserting d => Some (goto (push_device s d) t start (RegReleasing (ORegister (Some d)) (ok None)))
  | Erasing id i => Some (goto (erase_device s id i) t start (RegReleasing (OUnregister id) (ok None)))
  | Locating o i =>
      let! r := devices s !! i in
      let '(l, s') := lock_of s (op_id o) in Some (goto s' t start (Located o r l))
  | Located o r l => Some (goto (set_registryMutex s None) t start (WantDevice o r l))
  | RegReleasing o a => Some (goto (set_registryMutex s None) t start (Returning o a))
  | WantDevice o r l =>
      match mutexes s !! l with
      | Some _ => None
      | None => Some (goto (set_mutexes s (<[l := t]> (mutexes s))) t start (InDevice o r l))
      end
  | InDevice o r l =>
      let! d := objects s !! r in
      Some (goto s t start
        (if dev_ready d then DeviceReady o r l else DevReleasing o l (error ErrorCode.DeviceError)))
  | DeviceReady o r l =>
      let! d := objects s !! r in
      let '(a, d') := use_device o d in
      Some (goto (set_objects s (<[r := d']> (objects s))) t start (DevReleasing o l a))
  | DevReleasing o l a => Some (goto (set_mutexes s (delete l (mutexes s))) t start (Returning o a))
  | Returning o a =>
      Some (MkSys (devices s) (objects s) (deviceLocks s) (registryMutex s) (mutexes s) (fresh s)
              (delete t (threads s)) (<[start := MkCall o a (time s)]> (finished s)) (S (time s)))
  end.

(** A schedule: threads that are between calls make one, the others step. *)
Inductive event := Call (t : nat) (o : op) | Step (t : nat).
Definition sys_step (s : sys) (e : event) : option sys :=
  match e with
  | Call t o => match threads s !! t with Some _ => None | None => Some (goto s t (time s) (Calling o)) end
  | Step t => advance s t
  end.
Fixpoint exec (s : sys) (es : list event) : option sys :=
  match es with
  | [] => Some s
  | e :: es' => let! s1 := sys_step s e in exec s1 es'
  end.
End locks.
Arguments sys : clear implicits.
Arguments stage : clear implicits.
Arguments call : clear implicits.
