(* ===== verification/DeviceHistory.v ===== *)
(** * DeviceHistory: putting concurrent calls in a sequential order

    The order is built as the threads run.  A call takes its place when its
    answer is settled: at the end, or, when it used a device that has been
    unregistered under it, just before the call that unregistered it. *)
From Stdlib Require Import Sorting.Sorted.
From stdpp Require Import sorting.
From S2P Require Import Prelude Core Devices DevicesTheorems DeviceLocks.
Import DeviceManager.
Local Open Scope Z_scope.

Section history.
Context {D : Type} `{HD : !IDevice D} `{HLD : !LawfulDevice D}.
Notation op := (dev_op (D:=D)).
Notation ans := (Result (option Z)).
Implicit Types (s : sys D) (t st : nat) (g : stage D) (m : list D) (r l id : Z) (d : D) (o : op) (a : ans).

(** ** What a stage says *)
Definition holds g : option (Z * Z) :=
  match g with
  | Located _ r l | WantDevice _ r l | InDevice _ r l | DeviceReady _ r l => Some (r, l)
  | _ => None
  end.
Definition settled g : option (op * ans) :=
  match g with RegReleasing o a | DevReleasing o _ a | Returning o a => Some (o, a) | _ => None end.

(** ** Sequential orders *)
Record entry := MkEntry { e_start : nat; e_op : op; e_ans : ans; e_dead : option Z }.
Implicit Types (e u : entry) (lin : list entry).

Inductive legal : list D → list entry → list D → Prop :=
| legal_nil m : legal m [] m
| legal_cons m e lin m1 m2 : dev_step m (e_op e) = (e_ans e, m1) → legal m1 lin m2 → legal m (e :: lin) m2.

Lemma legal_app m lin1 lin2 m2 : legal m (lin1 ++ lin2) m2 ↔ ∃ m1, legal m lin1 m1 ∧ legal m1 lin2 m2.
Proof.
  split.
  - revert m. induction lin1 as [|e lin1 IH]; intros m; simpl; [by exists m; split; [constructor|]|].
    intros Hl. inversion Hl as [|???? ? Hs Hr]; subst. destruct (IH _ Hr) as (m3 & H1 & H2).
    exists m3. split; [by econstructor|done].
  - intros (m1 & H1 & H2). induction H1; simpl; [done|]. econstructor; eauto.
Qed.
Lemma legal_one m e m' : dev_step m (e_op e) = (e_ans e, m') → legal m [e] m'.
Proof. intros Hs. econstructor; [done|constructor]. Qed.
Lemma legal_run m lin m' : legal m lin m' → dev_run m (map e_op lin) = (map e_ans lin, m').
Proof. induction 1 as [|m e lin m1 m2 Hs _ IH]; simpl; [done|]. by rewrite Hs, IH. Qed.
Lemma legal_unique m lin m1 m2 : legal m lin m1 → legal m lin m2 → m1 = m2.
Proof. intros H1%legal_run H2%legal_run. congruence. Qed.
Lemma legal_nodup lin m : legal make lin m → unique m.
Proof.
  intros Hl%legal_run. destruct (dev_run_ok make (map e_op lin) NoDup_nil_2) as [Hu _]. by rewrite Hl in Hu.
Qed.

(** Using a device: not ready, or an access. *)
Definition usage o : Prop := match o with OWrite _ _ | ORead _ => True | _ => False end.
Definition used o d : ans * D := if dev_ready d then use_device o d else (error ErrorCode.DeviceError, d).

Lemma used_id o d : usage o → dev_id (used o d).2 = dev_id d.
Proof.
  unfold used. destruct (dev_ready d); [|done]. destruct o as [| |id v|id]; try done; intros _; simpl.
  - pose proof (law_write_id d v). by destruct (dev_write d v).
  - pose proof (law_read_id d). by destruct (dev_read d).
Qed.

Lemma used_step m o i d :
  usage o → find_position m (op_id o) = Some i → m !! i = Some d →
  dev_step m o = ((used o d).1, <[i := (used o d).2]> m).
Proof.
  intros Hu Hp Hi. unfold used. destruct o as [| |id v|id]; try done; cbn [dev_step op_id] in *.
  - unfold write. rewrite Hp, Hi. destruct (dev_ready d); simpl; [by destruct (dev_write d v)|by rewrite list_insert_id].
  - unfold read. rewrite Hp, Hi. destruct (dev_ready d); simpl; [by destruct (dev_read d)|by rewrite list_insert_id].
Qed.

Lemma position_insert m i d d' id :
  m !! i = Some d → dev_id d' = dev_id d → find_position (<[i := d']> m) id = find_position m id.
Proof.
  revert i. induction m as [|x m IH]; intros [|i] Hi He; simplify_eq/=; [by rewrite He|]. by rewrite (IH i).
Qed.

(** A use of a device fits in front of the call that unregisters it. *)
Lemma used_before m o d :
  findDevice m (dev_id d) = Some d → usage o → op_id o = dev_id d →
  ∃ m1, dev_step m o = ((used o d).1, m1) ∧ findDevice m1 (dev_id d) = Some (used o d).2 ∧
    ∀ u b m2, e_op u = OUnregister (dev_id d) → legal m (u :: b) m2 → legal m1 (u :: b) m2.
Proof.
  intros Hf Huse Hid. unfold findDevice in *.
  destruct (find_position m (dev_id d)) as [i|] eqn:Hp; cbn [mbind option_bind] in Hf; [|done].
  rewrite (used_step m o i d Huse) by by rewrite ?Hid. eexists. split; [done|].
  pose proof (position_insert m i d (used o d).2 (dev_id d) Hf (used_id o d Huse)) as Hp'.
  rewrite Hp', Hp. cbn [mbind option_bind].
  split; [apply list_lookup_insert_eq; by eapply lookup_lt_Some|]. intros u b m2 Hu Hl.
  inversion Hl as [|? ? ? m3 ? Hs Hb]; subst. econstructor; [|exact Hb]. rewrite Hu in *. simpl in *.
  unfold unregisterDevice in *. rewrite Hp', Hp in *. injection Hs as Ha <-. rewrite <-Ha. f_equal.
  clear. revert i. induction m as [|x m IH]; intros [|i]; simpl; [done..|]. f_equal. apply IH.
Qed.

(** ** The order under construction *)

(** The answer of a call is settled: its thread carries it, or returned it. *)
Definition outcome s st o a : Prop :=
  (∃ c, finished s !! st = Some c ∧ c_op c = o ∧ c_ans c = a) ∨
  (∃ t g, threads s !! t = Some (st, g) ∧ settled g = Some (o, a)).

(** The call of [e] had not returned when the call made at [st] was made. *)
Definition open_after s st e : Prop := ∀ c, finished s !! e_start e = Some c → (st ≤ c_end c)%nat.

(** An unregistered device is as the order has it just before it was
    unregistered, and every call from there on was open when a thread that may
    still use the device made its own. *)
Definition remembered s lin r d : Prop :=
  ∃ lin1 u lin2 m1, lin = lin1 ++ u :: lin2 ∧ e_dead u = Some r ∧ e_op u = OUnregister (dev_id d) ∧
    legal make lin1 m1 ∧ findDevice m1 (dev_id d) = Some d ∧
    ∀ t st g l, threads s !! t = Some (st, g) → holds g = Some (r, l) → Forall (open_after s st) (u :: lin2).

Record history s lin m : Prop := {
  h_legal : legal make lin m;
  h_dead r d : objects s !! r = Some d → r ∉ devices s → remembered s lin r d;
  h_outcome st o a : outcome s st o a ↔ ∃ e, e ∈ lin ∧ e_start e = st ∧ e_op e = o ∧ e_ans e = a;
  h_starts : NoDup (map e_start lin);
  h_thread t st g : threads s !! t = Some (st, g) → (st < time s)%nat ∧ finished s !! st = None;
  h_inj t1 t2 st g1 g2 : threads s !! t1 = Some (st, g1) → threads s !! t2 = Some (st, g2) → t1 = t2;
  h_end st c : finished s !! st = Some c → (st < time s ∧ c_end c < time s)%nat;
  h_order : StronglySorted (λ e1 e2, open_after s (e_start e1) e2) lin
}.

Lemma history_init : history (init (D:=D)) [] [].
Proof.
  split; simpl; try done.
  - constructor.
  - intros st o a. unfold outcome. simpl. split.
    { intros [(c & Hc & _)|(t & g & Ht & _)]; [by rewrite lookup_empty in Hc|by rewrite lookup_empty in Ht]. }
    intros (e & He & _). by apply elem_of_nil in He.
  - apply NoDup_nil_2.
  - constructor.
Qed.

(** A thread goes on to stage [g]. *)
Definition moved s t st g s' : Prop :=
  threads s' = <[t := (st, g)]> (threads s) ∧ finished s' = finished s ∧ time s' = S (time s).

Lemma open_same s s' st e : finished s' = finished s → open_after s' st e ↔ open_after s st e.
Proof. unfold open_after. by intros ->. Qed.
Lemma order_same s s' lin :
  finished s' = finished s → StronglySorted (λ e1 e2, open_after s (e_start e1) e2) lin →
  StronglySorted (λ e1 e2, open_after s' (e_start e1) e2) lin.
Proof.
  intros Hf. induction 1 as [|e lin _ IH Hall]; constructor; [done|].
  eapply Forall_impl; [exact Hall|]. intros e2. by apply open_same.
Qed.

Lemma open_all_same s s' st lin : finished s' = finished s → Forall (open_after s st) lin → Forall (open_after s' st) lin.
Proof. intros Hf Hall. eapply Forall_impl; [exact Hall|]. intros e. by apply open_same. Qed.

(** A thread that still wants a device is not the one that moved off it. *)
Lemma moved_holds s t st g s' t' st' g' x :
  moved s t st g s' → holds g = None → threads s' !! t' = Some (st', g') → holds g' = Some x →
  threads s !! t' = Some (st', g').
Proof.
  intros (Et & _) Hg. rewrite Et, lookup_insert. case_decide; [|done]. intros [= _ <-]. congruence.
Qed.

(** The clock's side of a move. *)
Lemma moved_thread s t st g g' s' lin m :
  history s lin m → threads s !! t = Some (st, g) → moved s t st g' s' →
  (∀ t' st' g2, threads s' !! t' = Some (st', g2) → (st' < time s')%nat ∧ finished s' !! st' = None) ∧
  (∀ t1 t2 st' g1 g2, threads s' !! t1 = Some (st', g1) → threads s' !! t2 = Some (st', g2) → t1 = t2) ∧
  (∀ st' c, finished s' !! st' = Some c → (st' < time s' ∧ c_end c < time s')%nat).
Proof.
  intros Hh Ht (Et & Ef & Ec). rewrite Et, Ef, Ec. split_and!.
  - intros t' st' g2. rewrite lookup_insert. case_decide.
    + intros [= <- _]. destruct (h_thread _ _ _ Hh _ _ _ Ht). split; [lia|done].
    + intros H'. destruct (h_thread _ _ _ Hh _ _ _ H'). split; [lia|done].
  - intros t1 t2 st' g1 g2. rewrite !lookup_insert. repeat case_decide; subst; try done.
    + intros [= <- <-] H'. by apply (h_inj _ _ _ Hh _ _ _ _ _ Ht H').
    + intros H' [= <- <-]. symmetry. by apply (h_inj _ _ _ Hh _ _ _ _ _ Ht H').
    + by apply (h_inj _ _ _ Hh).
  - intros st' c Hc. destruct (h_end _ _ _ Hh _ _ Hc). lia.
Qed.

(** Which calls are settled after a move. *)
Lemma moved_outcome s t st g g' s' lin m st' o a :
  history s lin m → threads s !! t = Some (st, g) → moved s t st g' s' → settled g = None ∨ settled g = settled g' →
  outcome s' st' o a ↔ outcome s st' o a ∨ (st' = st ∧ settled g' = Some (o, a)).
Proof.
  intros Hh Ht (Et & Ef & Ec) Hsg. unfold outcome. rewrite Et, Ef. split.
  - intros [?|(t' & g2 & Ht' & Hs)]; [by left; left|]. rewrite lookup_insert in Ht'. case_decide.
    + injection Ht' as <- <-. by right.
    + left; right. by exists t', g2.
  - intros [[?|(t' & g2 & Ht' & Hs)]|[-> Hs]]; [by left|right..].
    + destruct (decide (t' = t)) as [->|Hne]; [|exists t', g2; by rewrite lookup_insert_ne].
      rewrite Ht in Ht'. injection Ht' as <- <-. destruct Hsg as [Hn|He]; [congruence|].
      exists t, g'. rewrite lookup_insert_eq. split; [done|congruence].
    + exists t, g'. by rewrite lookup_insert_eq.
Qed.

(** *** Steps that settle nothing *)
Lemma history_quiet s t st g g' s' lin m :
  history s lin m → threads s !! t = Some (st, g) → moved s t st g' s' → settled g' = settled g →
  objects s' = objects s → devices s' = devices s →
  (∀ r l, holds g' = Some (r, l) → r ∈ devices s ∨ ∃ l', holds g = Some (r, l')) → history s' lin m.
Proof.
  intros Hh Ht Hmv Hsg Eo Ed Hhold. pose proof Hmv as (Et & Ef & Ec).
  destruct (moved_thread s t st g g' s' lin m Hh Ht Hmv) as (H1 & H2 & H3). split; try done.
  - apply Hh.
  - rewrite Eo, Ed. intros r d Hr Hd.
    destruct (h_dead _ _ _ Hh r d Hr Hd) as (lin1 & u & lin2 & m1 & -> & Hu & Hop & Hl & Hf & Hopen).
    exists lin1, u, lin2, m1. split_and!; try done. intros t' st' g2 l. rewrite Et, lookup_insert. case_decide.
    + intros [= <- <-] Hg. destruct (Hhold r l Hg) as [?|[l' Hg']]; [done|].
      eapply Forall_impl; [by apply (Hopen t st g l' Ht)|]. intros e. by apply open_same.
    + intros Ht' Hg. eapply Forall_impl; [by apply (Hopen t' st' g2 l Ht')|]. intros e. by apply open_same.
  - intros st' o a. rewrite (moved_outcome s t st g g' s' lin m) by (done || by right). rewrite <-(h_outcome _ _ _ Hh).
    split; [intros [?|[-> Hs]]; [done|]|by left]. right. exists t, g. by rewrite <-Hsg.
  - apply Hh.
  - by apply (order_same s); [|apply Hh].
Qed.

(** *** Steps that settle a call at the end of the order *)
Lemma unsettled_start s lin m t st g e :
  history s lin m → threads s !! t = Some (st, g) → settled g = None → e ∈ lin → e_start e ≠ st.
Proof.
  intros Hh Ht Hg He <-.
  destruct (proj2 (h_outcome _ _ _ Hh (e_start e) (e_op e) (e_ans e))) as [(c & Hc & _)|(t' & g' & Ht' & Hs)]; [by exists e|..].
  - destruct (h_thread _ _ _ Hh _ _ _ Ht). congruence.
  - assert (t' = t) as -> by (by eapply (h_inj _ _ _ Hh)). congruence.
Qed.

Lemma open_unfinished s s' st st' o a k : finished s' = finished s → finished s !! st = None →
  open_after s' st' (MkEntry st o a k).
Proof. intros Hf Hn c. simpl. rewrite Hf. congruence. Qed.

Lemma settled_outcome s lin lin' m t st g g' s' o a k :
  history s lin m → threads s !! t = Some (st, g) → moved s t st g' s' → settled g = None → settled g' = Some (o, a) →
  lin' ≡ₚ MkEntry st o a k :: lin →
  (∀ st' o' a', outcome s' st' o' a' ↔ ∃ e, e ∈ lin' ∧ e_start e = st' ∧ e_op e = o' ∧ e_ans e = a') ∧
  NoDup (map e_start lin').
Proof.
  intros Hh Ht Hmv Hg Hg' Hp. split.
  - intros st' o' a'. rewrite (moved_outcome s t st g g' s' lin m) by (done || by left). rewrite (h_outcome _ _ _ Hh).
    setoid_rewrite Hp. setoid_rewrite elem_of_cons. rewrite Hg'. split.
    + intros [(e & ? & ?)|[-> [= <- <-]]]; [exists e; tauto|]. exists (MkEntry st o a k). by split; [left|].
    + intros (e & [->|He] & H1 & H2 & H3); simpl in *; subst; [by right|left; by exists e].
  - assert (map e_start lin' ≡ₚ st :: map e_start lin) as ->.
    { change (map e_start lin' ≡ₚ map e_start (MkEntry st o a k :: lin)). by apply Permutation_map. }
    apply NoDup_cons. split; [|apply Hh]. intros Hin. apply list_elem_of_fmap in Hin as (e & Hst & He).
    by apply (unsettled_start s lin m t st g e Hh Ht Hg He).
Qed.

Lemma history_append s t st g g' s' lin m o a m' k :
  history s lin m → threads s !! t = Some (st, g) → moved s t st g' s' →
  settled g = None → settled g' = Some (o, a) → holds g' = None → dev_step m o = (a, m') →
  (∀ r d, objects s' !! r = Some d → r ∉ devices s' →
     (objects s !! r = Some d ∧ r ∉ devices s) ∨
     (k = Some r ∧ o = OUnregister (dev_id d) ∧ findDevice m (dev_id d) = Some d)) →
  history s' (lin ++ [MkEntry st o a k]) m'.
Proof.
  intros Hh Ht Hmv Hg Hg' Hhold Hstep Hdead. pose proof Hmv as (Et & Ef & Ec).
  destruct (moved_thread s t st g g' s' lin m Hh Ht Hmv) as (H1 & H2 & H3).
  destruct (h_thread _ _ _ Hh _ _ _ Ht) as [_ Hopen].
  assert (∀ st', open_after s' st' (MkEntry st o a k)) as Hnew by (intros; by eapply open_unfinished).
  destruct (settled_outcome s lin (lin ++ [MkEntry st o a k]) m t st g g' s' o a k Hh Ht Hmv Hg Hg') as [H4 H5].
  { by rewrite Permutation_app_comm. }
  split; try done.
  - apply legal_app. exists m. split; [apply Hh|by apply legal_one].
  - intros r d Hr Hd. destruct (Hdead r d Hr Hd) as [[Hr' Hd']|(Hk & Ho & Hf)].
    + destruct (h_dead _ _ _ Hh r d Hr' Hd') as (lin1 & u & lin2 & m1 & -> & Hu & Hop & Hl & Hf & Hopens).
      exists lin1, u, (lin2 ++ [MkEntry st o a k]), m1. rewrite <-(assoc_L (++)). split_and!; try done.
      intros t' st' g2 l Ht' Hg2. pose proof (moved_holds _ _ _ _ _ _ _ _ _ Hmv Hhold Ht' Hg2) as Ht2.
      change (Forall (open_after s' st') ((u :: lin2) ++ [MkEntry st o a k])). apply Forall_app. split; [|by constructor].
      apply (open_all_same s); [done|]. by apply (Hopens t' st' g2 l).
    + exists lin, (MkEntry st o a k), [], m. split_and!; try done; [apply Hh|]. intros. by constructor.
  - apply StronglySorted_app_2.
    + intros e1 e2 _ ->%list_elem_of_singleton. apply Hnew.
    + by apply (order_same s); [|apply Hh].
    + repeat constructor.
Qed.

(** *** A use of a device that is not registered any more *)

(** Two places in one order. *)
Lemma places {A} (l1 l2 k1 k2 : list A) (x y : A) :
  l1 ++ x :: l2 = k1 ++ y :: k2 → x ≠ y →
  (∃ k, l1 = k1 ++ y :: k ∧ k2 = k ++ x :: l2) ∨ (∃ k, k1 = l1 ++ x :: k ∧ l2 = k ++ y :: k2).
Proof.
  intros [(k & -> & E)|(k & -> & E)]%app_eq_inv Hne; destruct k as [|z k]; simplify_eq/=.
  - left. by exists k.
  - right. by exists k.
Qed.
Section insert.
Context (s s' : sys D) (t st : nat) (g' : stage D) (lin1 lin2 : list entry) (u e : entry) (m1 m1' : list D).
Hypotheses (Hmv : moved s t st g' s') (Hhold : holds g' = None) (Hopen : ∀ st', open_after s' st' e)
  (He : e_dead e = None) (Hl1 : legal make lin1 m1) (Hstep : dev_step m1 (e_op e) = (e_ans e, m1'))
  (Hbefore : ∀ b m2, legal m1 (u :: b) m2 → legal m1' (u :: b) m2).

Lemma legal_insert b m2 : legal make (lin1 ++ u :: b) m2 → legal make (lin1 ++ e :: u :: b) m2.
Proof.
  intros (m3 & Ha & Hb)%legal_app. apply legal_app. exists m1. split; [done|].
  rewrite (legal_unique _ _ _ _ Ha Hl1) in Hb. econstructor; [exact Hstep|]. by apply Hbefore.
Qed.

Lemma remembered_self r d :
  e_dead u = Some r → e_op u = OUnregister (dev_id d) → findDevice m1' (dev_id d) = Some d →
  (∀ t st g l, threads s !! t = Some (st, g) → holds g = Some (r, l) → Forall (open_after s st) (u :: lin2)) →
  remembered s' (lin1 ++ e :: u :: lin2) r d.
Proof.
  intros Hu Hop Hf Hopens. exists (lin1 ++ [e]), u, lin2, m1'. rewrite <-(assoc_L (++)). split_and!; try done.
  - apply legal_app. exists m1. split; [done|by apply legal_one].
  - intros t' st' g2 l Ht' Hg2. pose proof (moved_holds _ _ _ _ _ _ _ _ _ Hmv Hhold Ht' Hg2) as Ht2.
    apply (open_all_same s); [apply Hmv|]. by apply (Hopens t' st' g2 l).
Qed.

Lemma remembered_other r d :
  remembered s (lin1 ++ u :: lin2) r d → e_dead u ≠ Some r → remembered s' (lin1 ++ e :: u :: lin2) r d.
Proof.
  intros (lin3 & u0 & lin4 & m3 & Elin & Hu0 & Hop0 & Hl3 & Hf0 & Hopens0) Hne.
  assert (∀ t' st' g2 l, threads s' !! t' = Some (st', g2) → holds g2 = Some (r, l) →
    Forall (open_after s' st') (u0 :: lin4)) as Hall.
  { intros t' st' g2 l Ht' Hg2. pose proof (moved_holds _ _ _ _ _ _ _ _ _ Hmv Hhold Ht' Hg2) as Ht2.
    apply (open_all_same s); [apply Hmv|]. by apply (Hopens0 t' st' g2 l). }
  destruct (places _ _ _ _ _ _ Elin) as [(k & -> & ->)|(k & -> & ->)]; [congruence|..].
  - exists lin3, u0, (k ++ e :: u :: lin2), m3. rewrite <-(assoc_L (++)). split_and!; try done.
    intros t' st' g2 l Ht' Hg2. specialize (Hall _ _ _ _ Ht' Hg2).
    rewrite <-Permutation_middle. apply Forall_cons in Hall as [? ?]. by repeat constructor.
  - exists (lin1 ++ e :: u :: k), u0, lin4, m3. split_and!; try done; [by rewrite <-(assoc_L (++))|by apply legal_insert].
Qed.
End insert.

Lemma history_insert s t st g g' s' lin m o r l d :
  history s lin m → threads s !! t = Some (st, g) → moved s t st g' s' →
  settled g = None → settled g' = Some (o, (used o d).1) → holds g = Some (r, l) → holds g' = None →
  r ∉ devices s → objects s !! r = Some d → usage o → op_id o = dev_id d →
  objects s' = <[r := (used o d).2]> (objects s) → devices s' = devices s →
  ∃ lin', history s' lin' m.
Proof.
  intros Hh Ht Hmv Hg Hg' Hr Hhold Hnot Hd Huse Hid Eo Ed. pose proof Hmv as (Et & Ef & Ec).
  destruct (moved_thread s t st g g' s' lin m Hh Ht Hmv) as (H1 & H2 & H3).
  destruct (h_thread _ _ _ Hh _ _ _ Ht) as [_ Hopen].
  destruct (h_dead _ _ _ Hh r d Hd Hnot) as (lin1 & u & lin2 & m1 & -> & Hu & Hop & Hl1 & Hf & Hopens).
  set (e := MkEntry st o (used o d).1 None).
  assert (∀ st', open_after s' st' e) as Hnew by (intros; by eapply open_unfinished).
  destruct (settled_outcome s _ (lin1 ++ e :: u :: lin2) m t st g g' s' o (used o d).1 None Hh Ht Hmv Hg Hg') as [H4 H5].
  { by rewrite <-Permutation_middle. }
  destruct (used_before m1 o d Hf Huse Hid) as (m1' & Hstep & Hf' & Hbefore).
  assert (∀ b m2, legal m1 (u :: b) m2 → legal m1' (u :: b) m2) as Hb by (intros; by apply Hbefore).
  exists (lin1 ++ e :: u :: lin2). split; try done.
  - apply (legal_insert lin1 u e m1 m1'); try done. apply Hh.
  - intros r0 d0. rewrite Eo, Ed, lookup_insert. case_decide as Hr0; intros Hd0 Hnot0.
    + subst r0. injection Hd0 as <-. eapply (remembered_self s s'); try done; by rewrite (used_id o d Huse).
    + eapply (remembered_other s s'); try done; [by apply (h_dead _ _ _ Hh)|congruence].
  - pose proof (h_order _ _ _ Hh) as Hs. apply (order_same s s') in Hs; [|done].
    apply StronglySorted_app in Hs as (Hc & Hs1 & Hs2). apply StronglySorted_app_2; [|done|constructor; [done|]].
    + intros e1 e2 He1 [->|He2]%elem_of_cons; [apply Hnew|by apply Hc].
    + apply (open_all_same s); [done|]. by apply (Hopens t st g l Ht Hr).
Qed.

(** *** Calls and returns *)
Lemma history_call s t lin m o :
  history s lin m → threads s !! t = None → history (goto s t (time s) (Calling o)) lin m.
Proof.
  intros Hh Ht. assert (finished s !! time s = None) as Hfree.
  { destruct (finished s !! time s) as [c|] eqn:Hc; [|done]. destruct (h_end _ _ _ Hh _ _ Hc). lia. }
  split; simpl.
  - apply Hh.
  - intros r d Hr Hd. destruct (h_dead _ _ _ Hh r d Hr Hd) as (lin1 & u & lin2 & m1 & -> & Hu & Hop & Hl & Hf & Hopen).
    exists lin1, u, lin2, m1. split_and!; try done. intros t' st' g2 l. simpl. rewrite lookup_insert. case_decide.
    + by intros [= <- <-].
    + apply Hopen.
  - intros st o' a. rewrite <-(h_outcome _ _ _ Hh). unfold outcome. simpl. split.
    + intros [?|(t' & g & Ht' & Hg)]; [by left|right]. rewrite lookup_insert in Ht'. case_decide; [|by exists t', g].
      by injection Ht' as <- <-.
    + intros [?|(t' & g & Ht' & Hg)]; [by left|right]. exists t', g. split; [|done]. rewrite lookup_insert_ne; [done|congruence].
  - apply Hh.
  - intros t' st g. rewrite lookup_insert. case_decide; [intros [= <- _]; split; [lia|done]|].
    intros Ht'. destruct (h_thread _ _ _ Hh _ _ _ Ht'). split; [lia|done].
  - assert (∀ t' g, threads s !! t' = Some (time s, g) → False) as Hno.
    { intros t' g Ht'. destruct (h_thread _ _ _ Hh _ _ _ Ht'). lia. }
    intros t1 t2 st g1 g2. rewrite !lookup_insert. repeat case_decide; subst; try done.
    + intros [= <- _] ?%Hno. done.
    + intros H' [= <- _]. by apply Hno in H'.
    + apply Hh.
  - intros st c Hc. destruct (h_end _ _ _ Hh _ _ Hc). lia.
  - apply Hh.
Qed.

Lemma entry_before s lin m e : history s lin m → e ∈ lin → (e_start e < time s)%nat.
Proof.
  intros Hh He. destruct (proj2 (h_outcome _ _ _ Hh (e_start e) (e_op e) (e_ans e))) as [(c & Hc & _)|(t & g & Ht & _)].
  - by exists e.
  - by apply (h_end _ _ _ Hh _ _ Hc).
  - by apply (h_thread _ _ _ Hh _ _ _ Ht).
Qed.

Lemma history_return s t st o a lin m :
  history s lin m → threads s !! t = Some (st, Returning o a) →
  history (MkSys (devices s) (objects s) (deviceLocks s) (registryMutex s) (mutexes s) (fresh s)
    (delete t (threads s)) (<[st := MkCall o a (time s)]> (finished s)) (S (time s))) lin m.
Proof.
  intros Hh Ht. set (s' := MkSys _ _ _ _ _ _ _ _ _).
  assert (∀ st' e, (st' < time s)%nat → open_after s st' e → open_after s' st' e) as Hopen.
  { intros st' e Hlt Ho c. simpl. rewrite lookup_insert. case_decide; [intros [= <-]; simpl; lia|apply Ho]. }
  split; simpl.
  - apply Hh.
  - intros r d Hr Hd. destruct (h_dead _ _ _ Hh r d Hr Hd) as (lin1 & u & lin2 & m1 & -> & Hu & Hop & Hl & Hf & Hopens).
    exists lin1, u, lin2, m1. split_and!; try done. intros t' st' g2 l. simpl. rewrite lookup_delete. case_decide; [done|].
    intros Ht' Hg2. eapply Forall_impl; [by apply (Hopens t' st' g2 l)|]. intros e. apply Hopen.
    by apply (h_thread _ _ _ Hh _ _ _ Ht').
  - intros st' o' a'. rewrite <-(h_outcome _ _ _ Hh). unfold outcome. simpl. split.
    + intros [(c & Hc & Hs)|(t' & g & Ht' & Hg)].
      * rewrite lookup_insert in Hc. case_decide; [|left; by exists c]. subst. injection Hc as <-. simpl in Hs.
        destruct Hs as [-> ->]. right. by exists t, (Returning o' a').
      * rewrite lookup_delete in Ht'. case_decide; [done|]. right. by exists t', g.
    + intros [(c & Hc & Hs)|(t' & g & Ht' & Hg)].
      * left. exists c. rewrite lookup_insert_ne; [done|]. intros ->. destruct (h_thread _ _ _ Hh _ _ _ Ht). congruence.
      * destruct (decide (t' = t)) as [->|]; [|right; exists t', g; by rewrite lookup_delete_ne].
        rewrite Ht in Ht'. injection Ht' as <- <-. simpl in Hg. injection Hg as <- <-. left.
        eexists. by rewrite lookup_insert_eq.
  - apply Hh.
  - intros t' st' g. rewrite lookup_delete. case_decide as Hne; [done|]. intros Ht'.
    destruct (h_thread _ _ _ Hh _ _ _ Ht'). split; [lia|]. rewrite lookup_insert_ne; [done|]. intros ->.
    by apply Hne, (h_inj _ _ _ Hh _ _ _ _ _ Ht Ht').
  - intros t1 t2 st' g1 g2. rewrite !lookup_delete. repeat case_decide; try done. apply Hh.
  - intros st' c. rewrite lookup_insert. case_decide.
    + intros [= <-]. simpl. subst. destruct (h_thread _ _ _ Hh _ _ _ Ht). lia.
    + intros Hc. destruct (h_end _ _ _ Hh _ _ Hc). lia.
  - pose proof (λ e, entry_before s lin m e Hh) as Hlt. pose proof (h_order _ _ _ Hh) as Hs. clear -Hs Hopen Hlt.
    induction Hs as [|e lin _ IH Hall]; constructor; [apply IH; intros; apply Hlt; by right|].
    eapply Forall_impl; [exact Hall|]. intros e2. apply Hopen, Hlt. by left.
Qed.
End history.
