(* ===== verification/DeviceSafe.v ===== *)
(** * DeviceSafe: the locks of the device registry do their work

    Each mutex has one holder, the registry's and a device's, and what a thread
    found out under a mutex stays true while it holds it. *)
From S2P Require Import Prelude Core Devices DevicesTheorems DeviceLocks DeviceHistory.
Import DeviceManager.
Local Open Scope Z_scope.

Section safe.
Context {D : Type} `{HD : !IDevice D} `{HLD : !LawfulDevice D}.
Notation op := (dev_op (D:=D)).
Notation ans := (Result (option Z)).
Implicit Types (s : sys D) (t st : nat) (g : stage D) (m : list D) (r l id : Z) (d : D) (o : op) (a : ans).

(** ** Who holds what *)
Definition in_registry g : bool :=
  match g with
  | InRegistry _ | Inserting _ | Erasing _ _ | Locating _ _ | Located _ _ _ | RegReleasing _ _ => true
  | _ => false
  end.
Definition has_mutex g : option Z :=
  match g with InDevice _ _ l | DeviceReady _ _ l | DevReleasing _ l _ => Some l | _ => None end.

Record locks_ok s : Prop := {
  l_registry t : registryMutex s = Some t ↔ ∃ st g, threads s !! t = Some (st, g) ∧ in_registry g = true;
  l_mutex l t : mutexes s !! l = Some t ↔ ∃ st g, threads s !! t = Some (st, g) ∧ has_mutex g = Some l
}.

(** What a move of thread [t] to [g'] must do to the mutexes. *)
Definition registry_after s t g g' : option nat :=
  if in_registry g' then Some t else if in_registry g then None else registryMutex s.
Definition mutexes_after s t g g' : gmap Z nat :=
  match has_mutex g', has_mutex g with
  | Some l, _ => <[l := t]> (mutexes s)
  | None, Some l => delete l (mutexes s)
  | None, None => mutexes s
  end.

Lemma locks_move s t st g g' s' :
  locks_ok s → threads s !! t = Some (st, g) → moved s t st g' s' →
  registryMutex s' = registry_after s t g g' → mutexes s' = mutexes_after s t g g' →
  (in_registry g' = true → in_registry g = true ∨ registryMutex s = None) →
  (∀ l, has_mutex g' = Some l → has_mutex g = Some l ∨ has_mutex g = None ∧ mutexes s !! l = None) → locks_ok s'.
Proof.
  intros [Hr Hm] Ht (Et & _ & _) Er Em Hfree Hfree'. split.
  - intros t'. rewrite Er, Et. unfold registry_after. split.
    + destruct (in_registry g') eqn:Hg'; [intros [= <-]; exists st, g'; by rewrite lookup_insert_eq|].
      destruct (in_registry g) eqn:Hg; [done|]. intros (st' & g2 & Ht' & Hg2)%Hr. exists st', g2.
      rewrite lookup_insert_ne; [done|]. intros <-. congruence.
    + intros (st' & g2 & Ht' & Hg2). rewrite lookup_insert in Ht'. case_decide as Hne.
      * injection Ht' as <- <-. by rewrite Hg2, Hne.
      * assert (registryMutex s = Some t') as Hown by (apply Hr; by exists st', g2).
        destruct (in_registry g') eqn:Hg'; [|destruct (in_registry g) eqn:Hg; [|done]].
        -- destruct Hfree as [Hg|Hn]; [done| |congruence].
           assert (registryMutex s = Some t) by (apply Hr; by exists st, g). congruence.
        -- assert (registryMutex s = Some t) by (apply Hr; by exists st, g). congruence.
  - intros l t'. rewrite Em, Et. unfold mutexes_after. split.
    + destruct (has_mutex g') as [l'|] eqn:Hg'.
      * rewrite lookup_insert. case_decide as Hl; [intros [= <-]; subst; exists st, g'; by rewrite lookup_insert_eq|].
        intros (st' & g2 & Ht' & Hg2)%Hm. exists st', g2. rewrite lookup_insert_ne; [done|]. intros <-.
        rewrite Ht in Ht'. injection Ht' as <- <-. destruct (Hfree' l' eq_refl) as [?|[? _]]; congruence.
      * destruct (has_mutex g) as [l'|] eqn:Hg; [rewrite lookup_delete; case_decide; [done|]|];
          intros (st' & g2 & Ht' & Hg2)%Hm; exists st', g2; (rewrite lookup_insert_ne; [done|intros <-; congruence]).
    + intros (st' & g2 & Ht' & Hg2). rewrite lookup_insert in Ht'. case_decide as Hne.
      * injection Ht' as <- <-. rewrite Hg2, lookup_insert_eq. by rewrite Hne.
      * assert (mutexes s !! l = Some t') as Hown by (apply Hm; by exists st', g2).
        destruct (has_mutex g') as [l'|] eqn:Hg'; [|destruct (has_mutex g) as [l'|] eqn:Hg; [|done]].
        -- rewrite lookup_insert_ne; [done|]. intros <-. destruct (Hfree' l' eq_refl) as [Hg|[_ Hn]]; [|congruence].
           assert (mutexes s !! l' = Some t) by (apply Hm; by exists st, g). congruence.
        -- rewrite lookup_delete_ne; [done|]. intros <-.
           assert (mutexes s !! l' = Some t) by (apply Hm; by exists st, g). congruence.
Qed.

(** ** What a thread knows *)
Definition stage_ok s m g : Prop :=
  match g with
  | InRegistry o => o ≠ ORegister None
  | Inserting d => find_position m (dev_id d) = None
  | Erasing id i => find_position m id = Some i
  | Locating o i => usage o ∧ find_position m (op_id o) = Some i
  | Located o r _ | WantDevice o r _ | InDevice o r _ => usage o ∧ ∃ d, objects s !! r = Some d ∧ dev_id d = op_id o
  | DeviceReady o r _ => usage o ∧ ∃ d, objects s !! r = Some d ∧ dev_id d = op_id o ∧ dev_ready d = true
  | _ => True
  end.

Record registry_ok s m : Prop := {
  r_values : Forall2 (λ r d, objects s !! r = Some d) (devices s) m;
  r_nodup : NoDup (devices s);
  r_fresh r : is_Some (objects s !! r) → r < fresh s;
  r_locks r d : r ∈ devices s → objects s !! r = Some d → is_Some (deviceLocks s !! dev_id d);
  r_stage t st g : threads s !! t = Some (st, g) → stage_ok s m g;
  (** One mutex for each device. *)
  r_pair t1 t2 st1 st2 g1 g2 r l1 l2 :
    threads s !! t1 = Some (st1, g1) → threads s !! t2 = Some (st2, g2) →
    holds g1 = Some (r, l1) → holds g2 = Some (r, l2) → l1 = l2;
  r_live t st g r l d : threads s !! t = Some (st, g) → holds g = Some (r, l) →
    r ∈ devices s → objects s !! r = Some d → deviceLocks s !! dev_id d = Some l
}.

Lemma registry_ok_init : registry_ok (init (D:=D)) [] ∧ locks_ok (init (D:=D)).
Proof.
  split; split; simpl; try done.
  - constructor.
  - intros r. rewrite lookup_empty. by intros [].
  - intros t. split; [done|]. intros (st & g & Ht & _). by rewrite lookup_empty in Ht.
  - intros l t. rewrite lookup_empty. split; [done|]. intros (st & g & Ht & _). by rewrite lookup_empty in Ht.
Qed.

(** The vector read through its pointers is the sequential registry. *)
Lemma find_index_position s m id : registry_ok s m → find_index (objects s) (devices s) id = find_position m id.
Proof.
  intros Hr. pose proof (r_values _ _ Hr) as Hv. clear Hr.
  induction Hv as [|r d rs m' Hd _ IH]; simpl; [done|]. rewrite Hd, IH. by destruct (dev_id d =? id).
Qed.

Lemma position_unique m i d : unique m → m !! i = Some d → find_position m (dev_id d) = Some i.
Proof.
  revert i. induction m as [|x m IH]; intros [|i] Hu Hi; simplify_eq/=; [by rewrite Z.eqb_refl|].
  apply NoDup_cons in Hu as [Hx Hu]. destruct (Z.eqb_spec (dev_id x) (dev_id d)) as [He|_]; [|by rewrite (IH i)].
  exfalso. apply Hx. rewrite He. apply list_elem_of_fmap. exists d. split; [done|]. by eapply list_elem_of_lookup_2.
Qed.

Lemma holds_object s m t st g r l :
  registry_ok s m → threads s !! t = Some (st, g) → holds g = Some (r, l) → is_Some (objects s !! r).
Proof.
  intros Hr Ht Hg. pose proof (r_stage _ _ Hr _ _ _ Ht) as Hs.
  destruct g; simpl in Hg, Hs; simplify_eq; destruct Hs as (_ & d & Hd & _); by exists d.
Qed.

(** ** Steps *)

(** The stages whose knowledge depends on the registry are under its mutex. *)
Lemma stage_outside s s' m m' g :
  in_registry g = false →
  (∀ r l d, holds g = Some (r, l) → objects s !! r = Some d →
     ∃ d', objects s' !! r = Some d' ∧ dev_id d' = dev_id d ∧ (has_mutex g = Some l → dev_ready d = true → dev_ready d' = true)) →
  stage_ok s m g → stage_ok s' m' g.
Proof.
  intros Hg Hobj. destruct g; try done; simpl in *.
  - intros (Hu & d & Hd & Hid). destruct (Hobj _ _ d eq_refl Hd) as (d' & ? & ? & _). split; [done|]. exists d'. split; congruence.
  - intros (Hu & d & Hd & Hid). destruct (Hobj _ _ d eq_refl Hd) as (d' & ? & ? & _). split; [done|]. exists d'. split; congruence.
  - intros (Hu & d & Hd & Hid & Hrdy). destruct (Hobj _ _ d eq_refl Hd) as (d' & ? & ? & Hr). split; [done|].
    exists d'. split_and!; [done|congruence|by apply Hr].
Qed.

(** Nothing shared changes but the mutexes. *)
Lemma registry_quiet s t st g' s' m :
  registry_ok s m → moved s t st g' s' → objects s' = objects s → devices s' = devices s →
  deviceLocks s' = deviceLocks s → fresh s' = fresh s → stage_ok s m g' →
  (∀ r l, holds g' = Some (r, l) →
     (∃ st0 g, threads s !! t = Some (st0, g) ∧ holds g = Some (r, l)) ∨
     (∃ d, r ∈ devices s ∧ objects s !! r = Some d ∧ deviceLocks s !! dev_id d = Some l)) →
  registry_ok s' m.
Proof.
  intros Hr (Et & _ & _) Eo Ed El Ef Hst Hhold.
  assert (∀ t2 st2 g2 r l1 l2, threads s !! t2 = Some (st2, g2) → holds g' = Some (r, l1) → holds g2 = Some (r, l2) →
    l1 = l2) as Hpair.
  { intros t2 st2 g2 r l1 l2 Ht2 H1 H2. destruct (Hhold r l1 H1) as [(st0 & g & Ht & Hg)|(d & Hin & Hd & Hl)].
    - by apply (r_pair _ _ Hr _ _ _ _ _ _ _ _ _ Ht Ht2 Hg H2).
    - pose proof (r_live _ _ Hr _ _ _ _ _ _ Ht2 H2 Hin Hd). congruence. }
  destruct Hr as [H1 H2 H3 H4 H5 H6 H7]. split; rewrite ?Eo, ?Ed, ?El, ?Ef, ?Et; try done.
  - intros t2 st2 g2. rewrite lookup_insert.
    assert (∀ g, stage_ok s' m g ↔ stage_ok s m g) as Heq by (intros []; simpl; by rewrite ?Eo).
    rewrite Heq. case_decide; [by intros [= _ <-]|apply H5].
  - intros t1 t2 st1 st2 g1 g2 r l1 l2. rewrite !lookup_insert. repeat case_decide.
    + intros [= _ <-] [= _ <-]. congruence.
    + intros [= _ <-] Ht2 Hg1 Hg2. by eapply Hpair.
    + intros Ht1 [= _ <-] Hg1 Hg2. symmetry. by eapply Hpair.
    + apply H6.
  - intros t2 st2 g2 r l d. rewrite lookup_insert. case_decide; [|apply H7].
    intros [= _ <-] Hg Hin Hd. destruct (Hhold r l Hg) as [(st0 & g & Ht & Hg0)|(d' & _ & Hd' & Hl)]; [by eapply H7|congruence].
Qed.

Lemma registry_fewer s s' t m :
  registry_ok s m → threads s' = delete t (threads s) → objects s' = objects s → devices s' = devices s →
  deviceLocks s' = deviceLocks s → fresh s' = fresh s → registry_ok s' m.
Proof.
  intros [H1 H2 H3 H4 H5 H6 H7] Et Eo Ed El Ef. split; rewrite ?Eo, ?Ed, ?El, ?Ef, ?Et; try done.
  - intros t2 st2 g2 [_ Ht2]%lookup_delete_Some. specialize (H5 _ _ _ Ht2). destruct g2; simpl in *; by rewrite ?Eo.
  - intros t1 t2 st1 st2 g1 g2 r l1 l2 [_ Ht1]%lookup_delete_Some [_ Ht2]%lookup_delete_Some. by eapply H6.
  - intros t2 st2 g2 r l d [_ Ht2]%lookup_delete_Some. by eapply H7.
Qed.

(** Only the thread in the registry has a say about it. *)
Lemma others_outside s t t' st st' g g' :
  locks_ok s → threads s !! t = Some (st, g) → in_registry g = true → t' ≠ t → threads s !! t' = Some (st', g') →
  in_registry g' = false.
Proof.
  intros Hl Ht Hg Hne Ht'. destruct (in_registry g') eqn:Hg'; [|done]. exfalso. apply Hne.
  assert (registryMutex s = Some t) by (apply (l_registry _ Hl); by exists st, g).
  assert (registryMutex s = Some t') by (apply (l_registry _ Hl); by exists st', g'). congruence.
Qed.

Lemma registry_push s t st d m :
  registry_ok s m → locks_ok s → unique m → threads s !! t = Some (st, Inserting d) →
  registry_ok (goto (push_device s d) t st (RegReleasing (ORegister (Some d)) (ok None))) (m ++ [d]).
Proof.
  intros Hr Hlk Hu Ht. pose proof (r_stage _ _ Hr _ _ _ Ht) as Hpos. simpl in Hpos.
  assert (objects s !! fresh s = None) as Hnew.
  { destruct (objects s !! fresh s) as [x|] eqn:Hx; [|done]. pose proof (r_fresh _ _ Hr _ (mk_is_Some _ _ Hx)). lia. }
  assert (∀ t' st' g r l, threads s !! t' = Some (st', g) → holds g = Some (r, l) → r ≠ fresh s) as Hold.
  { intros t' st' g r l Ht' Hg ->. destruct (holds_object _ _ _ _ _ _ _ Hr Ht' Hg) as [x Hx]. congruence. }
  assert (∀ r x, r ∈ devices s → objects s !! r = Some x → dev_id x ≠ dev_id d) as Hids.
  { intros r x [i Hi]%list_elem_of_lookup Hx He. destruct (Forall2_lookup_l _ _ _ _ _ (r_values _ _ Hr) Hi) as (x' & Hm & Hx').
    assert (x' = x) as -> by congruence. rewrite <-He, (position_unique m i x Hu Hm) in Hpos. done. }
  assert (fresh s ∉ devices s) as Hnotin.
  { intros [i Hi]%list_elem_of_lookup. destruct (Forall2_lookup_l _ _ _ _ _ (r_values _ _ Hr) Hi) as (x & _ & Hx). congruence. }
  destruct Hr as [H1 H2 H3 H4 H5 H6 H7]. split; simpl.
  - apply Forall2_app; [|repeat constructor; apply lookup_insert_eq]. eapply Forall2_impl; [exact H1|].
    intros r x Hx. rewrite lookup_insert_ne; [done|congruence].
  - apply NoDup_app. split_and!; [done| |apply NoDup_singleton]. intros r Hr' ->%list_elem_of_singleton. done.
  - intros r. rewrite lookup_insert. case_decide; [lia|]. intros Hr'%H3. lia.
  - intros r x [Hin| ->%list_elem_of_singleton]%elem_of_app.
    + rewrite lookup_insert. case_decide; [subst; done|]. intros Hx. unfold emplace.
      destruct (deviceLocks s !! dev_id d); [by eapply H4|]. rewrite lookup_insert_ne by (symmetry; by eapply Hids). by eapply H4.
    + rewrite lookup_insert_eq. intros [= <-]. unfold emplace. destruct (deviceLocks s !! dev_id d) eqn:E; [by rewrite E|].
      rewrite lookup_insert_eq. by eexists.
  - intros t' st' g. rewrite lookup_insert. case_decide as Hne; [by intros [= _ <-]|]. intros Ht'.
    apply (stage_outside s _ m); [by eapply (others_outside s t)| |by eapply H5].
    intros r l x Hg Hx. exists x. simpl. rewrite lookup_insert_ne; [done|]. symmetry. by eapply Hold.
  - intros t1 t2 st1 st2 g1 g2 r l1 l2. rewrite !lookup_insert. repeat case_decide; intros Ht1 Ht2; simplify_eq/=; try done.
    by eapply H6.
  - intros t' st' g r l x. rewrite lookup_insert. case_decide as Hne; [intros [= _ <-]; done|]. intros Ht' Hg.
    pose proof (Hold _ _ _ _ _ Ht' Hg) as Hrf. intros [Hin| ->%list_elem_of_singleton]%elem_of_app; [|done].
    rewrite lookup_insert_ne by done. intros Hx. pose proof (H7 _ _ _ _ _ _ Ht' Hg Hin Hx) as Hl. unfold emplace.
    destruct (deviceLocks s !! dev_id d); [done|]. rewrite lookup_insert_ne; [done|]. symmetry. by eapply Hids.
Qed.

Lemma Forall2_lookup_values s m i r :
  registry_ok s m → devices s !! i = Some r → ∃ d, m !! i = Some d ∧ objects s !! r = Some d.
Proof. intros Hr Hi. apply (Forall2_lookup_l _ _ _ _ _ (r_values _ _ Hr) Hi). Qed.

Lemma registry_erase s t st id i m :
  registry_ok s m → locks_ok s → unique m → threads s !! t = Some (st, Erasing id i) →
  registry_ok (goto (erase_device s id i) t st (RegReleasing (OUnregister id) (ok None))) (delete i m) ∧
  ∃ r d, devices s !! i = Some r ∧ m !! i = Some d ∧ objects s !! r = Some d ∧ dev_id d = id ∧
    ∀ r', r' ∈ delete i (devices s) ↔ r' ∈ devices s ∧ r' ≠ r.
Proof.
  intros Hr Hlk Hu Ht. pose proof (r_stage _ _ Hr _ _ _ Ht) as Hpos. simpl in Hpos.
  pose proof (position_spec m id) as Hspec. rewrite Hpos in Hspec. destruct Hspec as (d & Hm & Hid & _).
  destruct (Forall2_lookup_r _ _ _ _ _ (r_values _ _ Hr) Hm) as (r & Hi & Hd).
  pose proof (delete_Permutation _ _ _ Hi) as Hperm.
  assert (NoDup (r :: delete i (devices s))) as Hnd by (rewrite <-Hperm; apply Hr).
  assert (∀ r', r' ∈ delete i (devices s) ↔ r' ∈ devices s ∧ r' ≠ r) as Hdel.
  { intros r'. apply NoDup_cons in Hnd as [Hnot _].
    assert (r' ∈ devices s ↔ r' ∈ r :: delete i (devices s)) as -> by by rewrite <-Hperm. rewrite elem_of_cons.
    split; [intros Hin; split; [by right|]; by intros ->|]. by intros [[->|?] ?]. }
  split; [|by exists r, d].
  assert (∀ r' x, r' ∈ devices s → r' ≠ r → objects s !! r' = Some x → dev_id x ≠ id) as Hids.
  { intros r' x [j Hj]%list_elem_of_lookup Hne Hx He. destruct (Forall2_lookup_values s m j r' Hr Hj) as (x' & Hmj & Hx').
    assert (x' = x) as -> by congruence. pose proof (position_unique m j x Hu Hmj) as Hp. rewrite He, Hpos in Hp.
    congruence. }
  destruct Hr as [H1 H2 H3 H4 H5 H6 H7]. split; simpl.
  - by apply Forall2_delete.
  - by apply NoDup_cons in Hnd as [_ ?].
  - done.
  - intros r' x [Hin Hne]%Hdel Hx. rewrite lookup_delete_ne by (symmetry; by eapply Hids). by eapply H4.
  - intros t' st' g. rewrite lookup_insert. case_decide as Hne; [by intros [= _ <-]|]. intros Ht'.
    apply (stage_outside s _ m); [by eapply (others_outside s t)| |by eapply H5]. intros r' l x Hg Hx. by exists x.
  - intros t1 t2 st1 st2 g1 g2 r' l1 l2. rewrite !lookup_insert. repeat case_decide; intros Ht1 Ht2; simplify_eq/=; try done.
    by eapply H6.
  - intros t' st' g r' l x. rewrite lookup_insert. case_decide as Hne; [intros [= _ <-]; done|].
    intros Ht' Hg [Hin Hrr]%Hdel Hx. rewrite lookup_delete_ne by (symmetry; by eapply Hids). by eapply H7.
Qed.

(** The vector's values when one object changes. *)
Lemma values_other (h : gmap Z D) (rs : list Z) m r d' :
  Forall2 (λ r d, h !! r = Some d) rs m → r ∉ rs → Forall2 (λ x d, <[r := d']> h !! x = Some d) rs m.
Proof.
  induction 1 as [|x d rs m Hx _ IH]; intros Hr; constructor; apply not_elem_of_cons in Hr as [Hne Hr].
  - by rewrite lookup_insert_ne.
  - by apply IH.
Qed.
Lemma values_insert (h : gmap Z D) (rs : list Z) m (i : nat) r d' :
  Forall2 (λ r d, h !! r = Some d) rs m → NoDup rs → rs !! i = Some r →
  Forall2 (λ x d, <[r := d']> h !! x = Some d) rs (<[i := d']> m).
Proof.
  intros Hv. revert i. induction Hv as [|x d rs m Hx Hv IH]; intros [|i] Hn Hi; simplify_eq/=;
    apply NoDup_cons in Hn as [Hnot Hn]; constructor.
  - apply lookup_insert_eq.
  - by apply values_other.
  - rewrite lookup_insert_ne; [done|]. intros <-. apply Hnot. by eapply list_elem_of_lookup_2.
  - by apply IH.
Qed.

(** A device is used under its own mutex: nobody else relies on its state. *)
Lemma registry_use s t st g o r l d m :
  registry_ok s m → locks_ok s → unique m → threads s !! t = Some (st, g) → holds g = Some (r, l) →
  has_mutex g = Some l → usage o → objects s !! r = Some d → dev_id d = op_id o →
  let s' := goto (set_objects s (<[r := (used o d).2]> (objects s))) t st (DevReleasing o l (used o d).1) in
  (r ∉ devices s ∧ registry_ok s' m) ∨
  (r ∈ devices s ∧ ∃ m', dev_step m o = ((used o d).1, m') ∧ registry_ok s' m').
Proof.
  intros Hr Hlk Hu Ht Hhg Hmg Huse Hd Hid s'. pose proof (used_id o d Huse) as Hid'.
  assert (∀ t' st' g' r' l', threads s !! t' = Some (st', g') → t' ≠ t → holds g' = Some (r', l') →
    has_mutex g' = Some l' → r' ≠ r) as Hexcl.
  { intros t' st' g' r' l' Ht' Hne Hg Hmg' ->. apply Hne.
    assert (l' = l) as -> by (by apply (r_pair _ _ Hr t' t _ _ _ _ r l' l Ht' Ht Hg Hhg)).
    assert (mutexes s !! l = Some t) by (apply (l_mutex _ Hlk); by exists st, g).
    assert (mutexes s !! l = Some t') by (apply (l_mutex _ Hlk); by exists st', g'). congruence. }
  assert (∀ m', Forall2 (λ r d, objects s' !! r = Some d) (devices s) m' →
    (∀ i, find_position m' i = find_position m i) → registry_ok s' m') as Hok.
  { intros m' Hv Hpos. destruct Hr as [H1 H2 H3 H4 H5 H6 H7].
    assert (∀ r' x, objects s' !! r' = Some x → ∃ x', objects s !! r' = Some x' ∧ dev_id x' = dev_id x) as Hobj.
    { intros r' x. simpl. rewrite lookup_insert. case_decide; [intros [= <-]; subst; by exists d|by exists x]. }
    split; simpl; try done.
    - intros r' [x Hx]. destruct (Hobj r' x Hx) as (x' & ? & _). apply H3. by exists x'.
    - intros r' x Hin Hx. destruct (Hobj r' x Hx) as (x' & Hx' & <-). by eapply H4.
    - intros t' st' g'. rewrite lookup_insert. case_decide as Hne; [by intros [= _ <-]|]. intros Ht'.
      specialize (H5 _ _ _ Ht'). destruct (in_registry g') eqn:Hg.
      + destruct g'; simpl in *; rewrite ?Hpos; try done. destruct H5 as (? & x & Hx & ?). split; [done|].
        rewrite lookup_insert. case_decide; [|by exists x]. eexists. split; [done|]. congruence.
      + apply (stage_outside s _ m); [done| |done]. intros r' l' x Hh Hx. simpl. rewrite lookup_insert.
        case_decide as Hrr; [|by exists x]. subst. eexists. split; [done|]. split; [congruence|]. intros Hmg'.
        by destruct (Hexcl _ _ _ _ _ Ht' (not_eq_sym Hne) Hh Hmg').
    - intros t1 t2 st1 st2 g1 g2 r' l1 l2. rewrite !lookup_insert. repeat case_decide; intros Ht1 Ht2; simplify_eq/=; try done.
      by eapply H6.
    - intros t' st' g2 r' l' x. rewrite lookup_insert. case_decide; [by intros [= _ <-]|]. intros Ht' Hg Hin Hx.
      destruct (Hobj r' x Hx) as (x' & Hx' & <-). by eapply H7. }
  destruct (decide (r ∈ devices s)) as [Hin|Hnot]; [right|left]; (split; [done|]).
  - apply list_elem_of_lookup in Hin as [i Hi]. destruct (Forall2_lookup_values s m i r Hr Hi) as (x & Hm & Hx).
    assert (x = d) as -> by congruence. exists (<[i := (used o d).2]> m). split.
    + apply used_step; [done| |done]. rewrite <-Hid. by apply position_unique.
    + apply Hok; [|intros; by apply (position_insert m i d)]. by apply (values_insert _ _ _ i r _ (r_values _ _ Hr) (r_nodup _ _ Hr)).
  - apply Hok; [|done]. by apply (values_other _ _ _ r _ (r_values _ _ Hr)).
Qed.
End safe.
