(* ===== verification/DeviceTheorems.v ===== *)
(** * DeviceTheorems: concurrent calls on the device registry are atomic *)
From Stdlib Require Import Sorting.Sorted.
From stdpp Require Import sorting.
From S2P Require Import Prelude Core Devices DevicesTheorems DeviceLocks DeviceHistory DeviceSafe.
Import DeviceManager.
Local Open Scope Z_scope.

Section concurrent.
Context {D : Type} `{HD : !IDevice D} `{HLD : !LawfulDevice D}.
Notation op := (dev_op (D:=D)).
Notation ans := (Result (option Z)).
Implicit Types (s : sys D) (t st : nat) (g : stage D) (m : list D) (r l id : Z) (d : D) (o : op) (a : ans).

Definition sound s : Prop := ∃ lin m, history s lin m ∧ registry_ok s m ∧ locks_ok s.

(** ** Steps of one thread *)
Section step.
Context (s s' : sys D) (t st : nat) (g g' : stage D) (lin : list (entry (D:=D))) (m : list D).
Hypotheses (Hh : history s lin m) (Hr : registry_ok s m) (Hl : locks_ok s) (Ht : threads s !! t = Some (st, g))
  (Hmv : moved s t st g' s') (Er : registryMutex s' = registry_after s t g g') (Em : mutexes s' = mutexes_after s t g g')
  (Hfree : in_registry g' = true → in_registry g = true ∨ registryMutex s = None)
  (Hfree' : ∀ l, has_mutex g' = Some l → has_mutex g = Some l ∨ has_mutex g = None ∧ mutexes s !! l = None).

Lemma step_locks : locks_ok s'.
Proof. by apply (locks_move s t st g g'). Qed.

Hypotheses (Eo : objects s' = objects s) (Ed : devices s' = devices s) (El : deviceLocks s' = deviceLocks s)
  (Ef : fresh s' = fresh s) (Hst : stage_ok s m g').

Lemma sound_quiet :
  settled g' = settled g →
  (∀ r l, holds g' = Some (r, l) → holds g = Some (r, l) ∨
     ∃ d, r ∈ devices s ∧ objects s !! r = Some d ∧ deviceLocks s !! dev_id d = Some l) → sound s'.
Proof.
  intros Hs Hhold. exists lin, m. split_and!; [| |apply step_locks].
  - apply (history_quiet s t st g g'); try done. intros r l Hg. destruct (Hhold r l Hg) as [?|(d & ? & _)]; [right; by exists l|by left].
  - apply (registry_quiet s t st g'); try done. intros r l Hg. destruct (Hhold r l Hg); [left; by exists st, g|by right].
Qed.

(** An answer that leaves the registry as it is. *)
Lemma sound_answer o a :
  settled g = None → settled g' = Some (o, a) → holds g' = None → dev_step m o = (a, m) → sound s'.
Proof.
  intros Hs Hs' Hhold Hstep. exists (lin ++ [MkEntry st o a None]), m. split_and!; [| |apply step_locks].
  - apply (history_append s t st g g' s' lin m); try done. rewrite Eo, Ed. intros r d ? ?. by left.
  - apply (registry_quiet s t st g'); try done. rewrite Hhold. done.
Qed.
End step.

Lemma values_live s m r d : registry_ok s m → unique m → r ∈ devices s → objects s !! r = Some d →
  ∃ i, devices s !! i = Some r ∧ m !! i = Some d ∧ find_position m (dev_id d) = Some i.
Proof.
  intros Hr Hu [i Hi]%list_elem_of_lookup Hd. destruct (Forall2_lookup_values s m i r Hr Hi) as (x & Hm & Hx).
  assert (x = d) as -> by congruence. exists i. split_and!; [done|done|by apply position_unique].
Qed.

Lemma refused_step m o :
  find_position m (op_id o) = None → (∀ x, o ≠ ORegister x) → dev_step m o = (error ErrorCode.NotFound, m).
Proof.
  intros Hp Hne. destruct o as [d|id|id v|id]; [by destruct (Hne d)|..]; cbn [dev_step op_id] in *;
    unfold unregisterDevice, write, read; by rewrite Hp.
Qed.
Lemma registered_step m d i :
  unique m → find_position m (dev_id d) = Some i → dev_step m (ORegister (Some d)) = (error ErrorCode.AlreadyExists, m).
Proof.
  intros Hu Hp. cbn [dev_step registerDevice]. rewrite find_view. pose proof (position_spec m (dev_id d)) as Hs.
  rewrite Hp in Hs. destruct Hs as (x & _ & _ & ->). done.
Qed.

Lemma own_registry s t st g : locks_ok s → threads s !! t = Some (st, g) → in_registry g = true → registryMutex s = Some t.
Proof. intros Hl Ht Hg. apply (l_registry _ Hl). by exists st, g. Qed.
Lemma own_mutex s t st g l : locks_ok s → threads s !! t = Some (st, g) → has_mutex g = Some l → mutexes s !! l = Some t.
Proof. intros Hl Ht Hg. apply (l_mutex _ Hl). by exists st, g. Qed.

(** [find_if] under the registry's mutex. *)
Lemma sound_search s t st o lin m s' :
  history s lin m → registry_ok s m → locks_ok s → threads s !! t = Some (st, InRegistry o) →
  advance s t = Some s' → sound s'.
Proof.
  intros Hh Hr Hl Ht. pose proof (r_stage _ _ Hr _ _ _ Ht) as Hne. simpl in Hne.
  assert (unique m) as Hu by apply (legal_nodup lin), Hh.
  pose proof (own_registry _ _ _ _ Hl Ht eq_refl) as Hown.
  unfold advance. rewrite Ht. cbn [mbind option_bind]. intros [= <-].
  assert (∀ a, dev_step m o = (a, m) → sound (goto s t st (RegReleasing o a))) as Hans.
  { intros a Ha. eapply (sound_answer s _ t st (InRegistry o) (RegReleasing o a) lin m Hh Hr Hl Ht); try done. by left. }
  assert (∀ g', settled g' = None → holds g' = None → in_registry g' = true → has_mutex g' = None → stage_ok s m g' →
    sound (goto s t st g')) as Hquiet.
  { intros g' H1 H2 H3 H4 H5. apply (sound_quiet s _ t st (InRegistry o) g' lin m Hh Hr Hl Ht); try done; unfold registry_after, mutexes_after; rewrite ?H1, ?H2, ?H3, ?H4; try done. by left. }
  destruct o as [[d|]|id|id v|id]; [|done|..]; cbn [op_id]; rewrite (find_index_position s m) by done.
  - destruct (find_position m (dev_id d)) as [i|] eqn:Hp; [by apply Hans, registered_step with i|by apply Hquiet].
  - destruct (find_position m id) as [i|] eqn:Hp; [by apply Hquiet|by apply Hans, refused_step].
  - destruct (find_position m id) as [i|] eqn:Hp; [by apply Hquiet|by apply Hans, refused_step].
  - destruct (find_position m id) as [i|] eqn:Hp; [by apply Hquiet|by apply Hans, refused_step].
Qed.

(** The device's answer: the end of the order while the device is registered,
    before the call that unregistered it otherwise. *)
Lemma sound_use s t st g o r l d lin m :
  history s lin m → registry_ok s m → locks_ok s → threads s !! t = Some (st, g) → holds g = Some (r, l) →
  has_mutex g = Some l → settled g = None → in_registry g = false → usage o → objects s !! r = Some d → dev_id d = op_id o →
  sound (goto (set_objects s (<[r := (used o d).2]> (objects s))) t st (DevReleasing o l (used o d).1)).
Proof.
  intros Hh Hr Hl Ht Hhg Hmg Hsg Hig Huse Hd Hid. set (s' := goto _ _ _ _).
  assert (unique m) as Hu by apply (legal_nodup lin), Hh.
  assert (locks_ok s') as Hl'.
  { eapply (locks_move s t st g (DevReleasing o l (used o d).1)); try done; unfold registry_after, mutexes_after; simpl.
    - by rewrite Hig.
    - symmetry. apply insert_id. by apply (own_mutex s t st g).
    - intros l' [= <-]. by left. }
  destruct (registry_use s t st g o r l d m) as [[Hnot Hr']|(Hin & m' & Hstep & Hr')]; try done.
  - destruct (history_insert s t st g (DevReleasing o l (used o d).1) s' lin m o r l d) as [lin' Hh']; try done.
    by exists lin', m.
  - exists (lin ++ [MkEntry st o (used o d).1 None]), m'. split_and!; [|done|done].
    apply (history_append s t st g (DevReleasing o l (used o d).1) s' lin m); try done.
    intros r' x. simpl. rewrite lookup_insert. case_decide; [by subst|]. intros ? ?. by left.
Qed.

Lemma sound_insert s t st d lin m :
  history s lin m → registry_ok s m → locks_ok s → threads s !! t = Some (st, Inserting d) →
  sound (goto (push_device s d) t st (RegReleasing (ORegister (Some d)) (ok None))).
Proof.
  intros Hh Hr Hl Ht. assert (unique m) as Hu by apply (legal_nodup lin), Hh.
  pose proof (r_stage _ _ Hr _ _ _ Ht) as Hpos. simpl in Hpos.
  exists (lin ++ [MkEntry st (ORegister (Some d)) (ok None) None]), (m ++ [d]). split_and!.
  - eapply (history_append s t st (Inserting d)); try done.
    + cbn [dev_step registerDevice]. rewrite find_view. pose proof (position_spec m (dev_id d)) as Hs.
      rewrite Hpos in Hs. by rewrite Hs.
    + intros r x. simpl. rewrite lookup_insert. case_decide as Hne.
      * intros _ []. apply elem_of_app. right. subst. by left.
      * intros Hx Hnot. left. split; [done|]. intros Hin. apply Hnot, elem_of_app. by left.
  - by apply registry_push.
  - eapply (locks_move s t st (Inserting d)); try done; [by apply (own_registry s t st (Inserting d))|by left].
Qed.

Lemma sound_erase s t st id i lin m :
  history s lin m → registry_ok s m → locks_ok s → threads s !! t = Some (st, Erasing id i) →
  sound (goto (erase_device s id i) t st (RegReleasing (OUnregister id) (ok None))).
Proof.
  intros Hh Hr Hl Ht. assert (unique m) as Hu by apply (legal_nodup lin), Hh.
  pose proof (r_stage _ _ Hr _ _ _ Ht) as Hpos. simpl in Hpos.
  destruct (registry_erase s t st id i m Hr Hl Hu Ht) as (Hr' & r & d & Hi & Hm & Hd & Hid & Hdel).
  exists (lin ++ [MkEntry st (OUnregister id) (ok None) (Some r)]), (delete i m). split_and!; [|done|].
  - eapply (history_append s t st (Erasing id i)); try done.
    + cbn [dev_step]. unfold unregisterDevice. by rewrite Hpos.
    + intros r' x Hx Hnot. simpl in Hx, Hnot. rewrite Hdel in Hnot.
      destruct (decide (r' = r)) as [->|Hne]; [right|left; split; [done|]; intros Hin; by apply Hnot].
      assert (x = d) as -> by congruence. rewrite Hid. split_and!; [done|done|].
      unfold findDevice. by rewrite Hpos.
  - eapply (locks_move s t st (Erasing id i)); try done; [by apply (own_registry s t st (Erasing id i))|by left].
Qed.

Lemma sound_locate s t st o i lin m s' :
  history s lin m → registry_ok s m → locks_ok s → threads s !! t = Some (st, Locating o i) →
  advance s t = Some s' → sound s'.
Proof.
  intros Hh Hr Hl Ht. assert (unique m) as Hu by apply (legal_nodup lin), Hh.
  pose proof (r_stage _ _ Hr _ _ _ Ht) as [Huse Hpos]. pose proof (position_spec m (op_id o)) as Hspec.
  rewrite Hpos in Hspec. destruct Hspec as (d & Hm & Hid & _).
  destruct (Forall2_lookup_r _ _ _ _ _ (r_values _ _ Hr) Hm) as (r & Hi & Hd).
  assert (r ∈ devices s) as Hin by by eapply list_elem_of_lookup_2.
  destruct (r_locks _ _ Hr r d Hin Hd) as [l Hlk]. rewrite Hid in Hlk.
  unfold advance, lock_of. rewrite Ht. cbn [mbind option_bind]. rewrite Hi. cbn [mbind option_bind]. rewrite Hlk. intros [= <-].
  eapply (sound_quiet s _ t st (Locating o i) (Located o r l) lin m Hh Hr Hl Ht); try done.
  - by apply (own_registry s t st (Locating o i)).
  - by left.
  - split; [done|]. by exists d.
  - intros r' l' [= <- <-]. right. exists d. split_and!; [done|done|congruence].
Qed.

Lemma sound_device s t st o r l lin m s' :
  history s lin m → registry_ok s m → locks_ok s → threads s !! t = Some (st, InDevice o r l) →
  advance s t = Some s' → sound s'.
Proof.
  intros Hh Hr Hl Ht. pose proof (r_stage _ _ Hr _ _ _ Ht) as (Huse & d & Hd & Hid).
  unfold advance. rewrite Ht. cbn [mbind option_bind]. rewrite Hd. cbn [mbind option_bind].
  destruct (dev_ready d) eqn:Hready; intros [= <-].
  - eapply (sound_quiet s _ t st (InDevice o r l) (DeviceReady o r l) lin m Hh Hr Hl Ht); try done.
    + unfold mutexes_after. simpl. symmetry. apply insert_id. by apply (own_mutex s t st (InDevice o r l)).
    + intros l' [= <-]. by left.
    + split; [done|]. by exists d.
    + intros r' l' [= <- <-]. by left.
  - pose proof (sound_use s t st (InDevice o r l) o r l d lin m Hh Hr Hl Ht eq_refl eq_refl eq_refl eq_refl Huse Hd Hid) as Hs.
    unfold used in Hs. rewrite Hready in Hs. simpl in Hs. rewrite insert_id in Hs by done. by destruct s.
Qed.

(** Calls and returns touch no mutex. *)
Lemma locks_same s s' :
  locks_ok s → registryMutex s' = registryMutex s → mutexes s' = mutexes s →
  (∀ t st g, in_registry g = true ∨ has_mutex g ≠ None →
     threads s' !! t = Some (st, g) ↔ threads s !! t = Some (st, g)) → locks_ok s'.
Proof.
  intros [H1 H2] Er Em Ht. split.
  - intros t. rewrite Er, H1. split; intros (st & g & ? & ?); exists st, g; (split; [|done]); apply Ht; auto.
  - intros l t. rewrite Em, H2. split; intros (st & g & ? & ?); exists st, g; (split; [|done]); apply Ht; auto; right; congruence.
Qed.

Lemma sound_call s t o lin m :
  history s lin m → registry_ok s m → locks_ok s → threads s !! t = None → sound (goto s t (time s) (Calling o)).
Proof.
  intros Hh Hr Hl Ht. exists lin, m. split_and!; [by apply history_call|by eapply (registry_quiet s t (time s) (Calling o))|].
  apply (locks_same s); try done. intros t' st g Hg. simpl. rewrite lookup_insert. case_decide; [|done]. subst. rewrite Ht.
  split; [|done]. intros [= _ <-]. simpl in Hg. naive_solver.
Qed.

Lemma sound_return s t st o a lin m s' :
  history s lin m → registry_ok s m → locks_ok s → threads s !! t = Some (st, Returning o a) →
  advance s t = Some s' → sound s'.
Proof.
  intros Hh Hr Hl Ht. unfold advance. rewrite Ht. cbn [mbind option_bind]. intros [= <-].
  exists lin, m. split_and!; [by apply history_return|by eapply (registry_fewer s _ t)|].
  apply (locks_same s); try done. intros t' st' g Hg. simpl. rewrite lookup_delete. case_decide; [|done]. subst. rewrite Ht.
  split; [done|]. intros [= _ <-]. simpl in Hg. naive_solver.
Qed.

Lemma sound_enter s t st o lin m s' :
  history s lin m → registry_ok s m → locks_ok s → threads s !! t = Some (st, Calling o) →
  advance s t = Some s' → sound s'.
Proof.
  intros Hh Hr Hl Ht Ha. unfold advance in Ha. rewrite Ht in Ha. cbn [mbind option_bind] in Ha.
  assert (o = ORegister None ∧ s' = goto s t st (Returning o (error ErrorCode.InvalidArgument)) ∨
    o ≠ ORegister None ∧ registryMutex s = None ∧ s' = goto (set_registryMutex s (Some t)) t st (InRegistry o)) as
    [[-> ->]|(Hne & Hfree & ->)].
  { destruct o as [[d|]|id|id v|id]; [right|left; by injection Ha|right..]; destruct (registryMutex s); by simplify_eq. }
  - by eapply (sound_answer s _ t st (Calling (ORegister None)) _ lin m Hh Hr Hl Ht).
  - eapply (sound_quiet s _ t st (Calling o) (InRegistry o) lin m Hh Hr Hl Ht); try done. by right.
Qed.

Lemma sound_step s e s' : sound s → sys_step s e = Some s' → sound s'.
Proof.
  intros (lin & m & Hh & Hr & Hl). destruct e as [t o|t]; cbn [sys_step].
  { destruct (threads s !! t) eqn:Ht; [done|]. intros [= <-]. by eapply sound_call. }
  intros Ha. destruct (threads s !! t) as [[st g]|] eqn:Ht.
  2: { unfold advance in Ha. by rewrite Ht in Ha. }
  pose proof (r_stage _ _ Hr _ _ _ Ht) as Hst.
  destruct g as [o|o|d|id i|o i|o r l|o a|o r l|o r l|o r l|o l a|o a];
    try (by eapply sound_enter); try (by eapply sound_search); try (by eapply sound_locate);
    try (by eapply sound_device); try (by eapply sound_return);
    unfold advance in Ha; rewrite Ht in Ha; cbn [mbind option_bind] in Ha.
  - injection Ha as <-. by apply (sound_insert s t st d lin m).
  - injection Ha as <-. by apply (sound_erase s t st id i lin m).
  - injection Ha as <-. eapply (sound_quiet s _ t st (Located o r l) (WantDevice o r l) lin m Hh Hr Hl Ht); try done.
    intros r' l' [= <- <-]. by left.
  - injection Ha as <-. by eapply (sound_quiet s _ t st (RegReleasing o a) (Returning o a) lin m Hh Hr Hl Ht).
  - destruct (mutexes s !! l) eqn:Hfree; [done|]. injection Ha as <-.
    eapply (sound_quiet s _ t st (WantDevice o r l) (InDevice o r l) lin m Hh Hr Hl Ht); try done.
    + intros l' [= <-]. by right.
    + intros r' l' [= <- <-]. by left.
  - destruct Hst as (Huse & d & Hd & Hid & Hready). rewrite Hd in Ha. cbn [mbind option_bind] in Ha.
    pose proof (sound_use s t st (DeviceReady o r l) o r l d lin m Hh Hr Hl Ht eq_refl eq_refl eq_refl eq_refl Huse Hd Hid) as Hs.
    unfold used in Hs. rewrite Hready in Hs. destruct (use_device o d) as [a d']. injection Ha as <-. exact Hs.
  - injection Ha as <-. by eapply (sound_quiet s _ t st (DevReleasing o l a) (Returning o a) lin m Hh Hr Hl Ht).
Qed.

Lemma sound_exec s es s' : sound s → exec s es = Some s' → sound s'.
Proof.
  revert s. induction es as [|e es IH]; intros s Hs; simpl; [by intros [= <-]|].
  destruct (sys_step s e) as [s1|] eqn:He; cbn [mbind option_bind]; [|done]. apply IH. by eapply sound_step.
Qed.
Lemma sound_init : sound (init (D:=D)).
Proof. exists [], []. destruct (registry_ok_init (D:=D)). split_and!; try done. apply history_init. Qed.

(** ** The guarantees *)

(** A returned call with the time it was made. *)
Definition returned s (e : entry (D:=D)) : nat * call D :=
  (e_start e, default (MkCall (e_op e) (e_ans e) 0) (finished s !! e_start e)).

Lemma returned_spec s lin m e :
  history s lin m → threads s = ∅ → e ∈ lin →
  finished s !! (returned s e).1 = Some (returned s e).2 ∧ c_op (returned s e).2 = e_op e ∧ c_ans (returned s e).2 = e_ans e.
Proof.
  intros Hh Hq He. unfold returned. simpl.
  destruct (proj2 (h_outcome _ _ _ Hh (e_start e) (e_op e) (e_ans e))) as [(c & Hc & ? & ?)|(t & g & Ht & _)]; [by exists e|..].
  - by rewrite Hc.
  - by rewrite Hq, lookup_empty in Ht.
Qed.

(** C12: concurrent calls on the device registry are atomic.  Threads register and
    unregister devices, read and write (the observers are not among the calls):
    they take and release the registry's and the devices' mutexes and access what
    those guard in any interleaving.  When no call is under way, the calls made so far
    can be put in one sequential order that gives every call the answer it got
    and ends in the registry's devices, in the same order; no call comes after
    one that was made only when it had returned already. *)
Theorem device_calls_atomic es s :
  exec init es = Some s → threads s = ∅ →
  ∃ order m, order ≡ₚ map_to_list (finished s) ∧
    dev_run make (map (λ x, c_op x.2) order) = (map (λ x, c_ans x.2) order, m) ∧
    Forall2 (λ r d, objects s !! r = Some d) (devices s) m ∧
    StronglySorted (λ x y, (x.1 ≤ c_end y.2)%nat) order.
Proof.
  intros He Hq. destruct (sound_exec _ _ _ sound_init He) as (lin & m & Hh & Hr & Hl).
  pose proof (λ e, returned_spec s lin m e Hh Hq) as Hret. exists (map (returned s) lin), m. split_and!.
  - apply NoDup_Permutation.
    + apply (NoDup_fmap_1 fst). change (NoDup (map fst (map (returned s) lin))). rewrite map_map. apply Hh.
    + apply NoDup_map_to_list.
    + intros [st c]. rewrite elem_of_map_to_list. split.
      * intros (e & He' & Hin)%list_elem_of_fmap. destruct (Hret e Hin) as [Hf _]. by rewrite <-He' in Hf.
      * intros Hc. destruct (proj1 (h_outcome _ _ _ Hh st (c_op c) (c_ans c))) as (e & Hin & Hst & _); [left; by exists c|].
        apply list_elem_of_fmap. exists e. split; [|done]. unfold returned. by rewrite Hst, Hc.
  - rewrite !map_map. pose proof (legal_run _ _ _ (h_legal _ _ _ Hh)) as Hrun.
    rewrite (map_ext_in (λ e, c_op (returned s e).2) e_op), (map_ext_in (λ e, c_ans (returned s e).2) e_ans); [done|..];
      intros e Hin%list_elem_of_In; by apply Hret.
  - apply Hr.
  - pose proof (h_order _ _ _ Hh) as Hs. clear -Hs Hret. induction Hs as [|e lin _ IH Hall]; simpl; constructor.
    + apply IH. intros e' ?. apply Hret. by right.
    + apply Forall_fmap, Forall_forall. intros e2 Hin. rewrite Forall_forall in Hall. simpl.
      apply (Hall e2 Hin). destruct (Hret e2) as [Hf _]; [by right|]. exact Hf.
Qed.

(** ** Every call returns *)

(** The steps a thread may have left. *)
Definition remaining g : nat :=
  match g with
  | Calling _ => 9 | InRegistry _ => 8 | Inserting _ | Erasing _ _ | Locating _ _ => 7 | Located _ _ _ => 6
  | WantDevice _ _ _ => 5 | InDevice _ _ _ => 4 | DeviceReady _ _ _ => 3 | DevReleasing _ _ _ | RegReleasing _ _ => 2
  | Returning _ _ => 1
  end.
Definition left_to_do s : nat := weigh (λ x, remaining x.2) (threads s).

Lemma remaining_pos g : (1 ≤ remaining g ≤ 9)%nat.
Proof. destruct g; simpl; lia. Qed.

(** A step takes its thread to a stage with less to do, or out of the call, and
    moves no other thread. *)
Lemma advance_moves s t s' :
  advance s t = Some s' →
  ∃ st g, threads s !! t = Some (st, g) ∧
    ((∃ g', threads s' = <[t := (st, g')]> (threads s) ∧ (remaining g' < remaining g)%nat) ∨
     threads s' = delete t (threads s)).
Proof.
  unfold advance. destruct (threads s !! t) as [[st g]|] eqn:Ht; cbn [mbind option_bind]; [|done].
  intros H. exists st, g. split; [done|]. revert H.
  assert (∀ s0 g', threads s0 = threads s → (remaining g' < remaining g)%nat →
    Some (goto s0 t st g') = Some s' →
    (∃ g', threads s' = <[t := (st, g')]> (threads s) ∧ (remaining g' < remaining g)%nat) ∨
    threads s' = delete t (threads s)) as Hgo.
  { intros s0 g' E Hlt [= <-]. left. exists g'. simpl. by rewrite E. }
  destruct g as [o|o|d|id i|o i|o r l|o a|o r l|o r l|o r l|o l a|o a].
  - destruct o as [[d|]|id|id v|id]; [|by apply Hgo; simpl; try lia|..]; destruct (registryMutex s); try done;
      apply Hgo; simpl; done || lia.
  - destruct o as [[d|]|id|id v|id]; try destruct (find_index _ _ _); apply Hgo; simpl; done || lia.
  - apply Hgo; simpl; done || lia.
  - apply Hgo; simpl; done || lia.
  - destruct (devices s !! i); cbn [mbind option_bind]; [|done].
    unfold lock_of. destruct (deviceLocks s !! _); apply Hgo; simpl; done || lia.
  - apply Hgo; simpl; done || lia.
  - apply Hgo; simpl; done || lia.
  - destruct (mutexes s !! l); [done|]. apply Hgo; simpl; done || lia.
  - destruct (objects s !! r) as [d|]; cbn [mbind option_bind]; [|done]. destruct (dev_ready d); apply Hgo; simpl; done || lia.
  - destruct (objects s !! r) as [d|]; cbn [mbind option_bind]; [|done]. destruct (use_device o d). apply Hgo; simpl; done || lia.
  - apply Hgo; simpl; done || lia.
  - intros [= <-]. by right.
Qed.

Lemma advance_less s t s' : advance s t = Some s' → (left_to_do s' < left_to_do s)%nat.
Proof.
  intros (st & g & Ht & [(g' & E & Hlt)|E])%advance_moves; unfold left_to_do; rewrite E.
  - by apply (weigh_update _ _ t (st, g)).
  - rewrite (weigh_delete _ (threads s) t _ Ht). pose proof (remaining_pos g). simpl. lia.
Qed.

(** The steps of one thread among those of a schedule. *)
Fixpoint own_steps (t : nat) (es : list (event (D:=D))) : nat :=
  match es with
  | [] => 0
  | Call _ _ :: es' => own_steps t es'
  | Step u :: es' => (if decide (u = t) then 1 else 0) + own_steps t es'
  end.
Definition own_left s t : nat := from_option (λ x, remaining x.2) 0%nat (threads s !! t).

Lemma own_left_step s t u s' :
  advance s u = Some s' → ((if decide (u = t) then 1 else 0) + own_left s' t ≤ own_left s t)%nat.
Proof.
  intros (st & g & Ht & Hmv)%advance_moves. unfold own_left. case_decide as Hu.
  - subst u. rewrite Ht. pose proof (remaining_pos g).
    destruct Hmv as [(g' & -> & Hlt)| ->]; [rewrite lookup_insert_eq|rewrite lookup_delete_eq]; simpl; lia.
  - destruct Hmv as [(g' & -> & _)| ->]; [by rewrite lookup_insert_ne|by rewrite lookup_delete_ne].
Qed.

Lemma own_steps_left t es : ∀ s s',
  exec s es = Some s' → (∀ o, Call t o ∉ es) → (own_steps t es + own_left s' t ≤ own_left s t)%nat.
Proof.
  induction es as [|e es IH]; intros s s'; simpl; [by intros [= <-]|].
  destruct (sys_step s e) as [s1|] eqn:Hs; cbn [mbind option_bind]; [|done]. intros He Hno.
  pose proof (IH s1 s' He (λ o Ho, Hno o (list_elem_of_further _ _ _ Ho))) as Hrest.
  destruct e as [u o|u]; simpl in Hs.
  - destruct (threads s !! u) eqn:Hu; [done|]. injection Hs as <-. etransitivity; [exact Hrest|].
    unfold own_left. simpl. rewrite lookup_insert_ne; [done|]. intros ->. apply (Hno o). by left.
  - apply (own_left_step _ t) in Hs. lia.
Qed.

Lemma left_bound s : (left_to_do s ≤ 9 * size (threads s))%nat.
Proof. apply weigh_bound. intros x. apply remaining_pos. Qed.

(** A thread that holds a mutex never waits. *)
Lemma holder_steps s m t st g :
  registry_ok s m → threads s !! t = Some (st, g) →
  match g with Calling _ | WantDevice _ _ _ => True | _ => is_Some (advance s t) end.
Proof.
  intros Hr Ht. pose proof (r_stage _ _ Hr _ _ _ Ht) as Hst. unfold advance. rewrite Ht. cbn [mbind option_bind].
  destruct g as [o|o|d|id i|o i|o r l|o a|o r l|o r l|o r l|o l a|o a]; try done.
  - destruct Hst as [_ Hpos]. pose proof (position_spec m (op_id o)) as Hs. rewrite Hpos in Hs. destruct Hs as (d & Hm & _).
    destruct (Forall2_lookup_r _ _ _ _ _ (r_values _ _ Hr) Hm) as (r & -> & _). cbn [mbind option_bind].
    by destruct (lock_of s (op_id o)).
  - destruct Hst as (_ & d & -> & _). done.
  - destruct Hst as (_ & d & -> & _). cbn [mbind option_bind]. by destruct (use_device o d).
Qed.

(** C40: calls on the device registry end.  However the threads have been
    interleaved, as long as a call is under way some thread can make a step (the
    two levels of mutexes cannot deadlock); a call takes at most nine steps of its
    own thread, whatever other threads do or call meanwhile; and when no further
    call is made, no more than nine steps for each call under way are left until
    all have returned.  (A mutex promises no order: a thread that waits for one
    can be overtaken by ever new calls.) *)
Theorem device_calls_return es s :
  exec (init (D:=D)) es = Some s →
  (threads s ≠ ∅ → ∃ t s', sys_step s (Step t) = Some s') ∧
  (∀ t es' s', exec s es' = Some s' → (∀ o, Call t o ∉ es') → (own_steps t es' ≤ 9)%nat) ∧
  ∀ ts s', exec s (map Step ts) = Some s' → (length ts ≤ 9 * size (threads s))%nat.
Proof.
  intros He. destruct (sound_exec _ _ _ sound_init He) as (lin & m & Hh & Hr & Hl). split_and!.
  - intros Hne. apply map_choose in Hne as (t & [st g] & Ht).
    assert (∀ t', registryMutex s = Some t' → is_Some (advance s t')) as Hreg.
    { intros t' (st' & g' & Ht' & Hg)%(l_registry _ Hl). pose proof (holder_steps s m t' st' g' Hr Ht') as Hs. by destruct g'. }
    assert (∀ l t', mutexes s !! l = Some t' → is_Some (advance s t')) as Hmut.
    { intros l t' (st' & g' & Ht' & Hg)%(l_mutex _ Hl). pose proof (holder_steps s m t' st' g' Hr Ht') as Hs. by destruct g'. }
    assert (∃ t', is_Some (advance s t')) as (t' & s' & Hs'); [|by exists t', s'].
    pose proof (holder_steps s m t st g Hr Ht) as Hs. destruct g as [o| | | | | | |o r l| | | |]; try (by exists t).
    + destruct (registryMutex s) as [t'|] eqn:E; [by exists t'; apply Hreg|]. exists t. unfold advance. rewrite Ht, E.
      cbn [mbind option_bind]. by destruct o as [[]| | |].
    + destruct (mutexes s !! l) as [t'|] eqn:E; [by exists t'; eapply Hmut|]. exists t. unfold advance. rewrite Ht.
      cbn [mbind option_bind]. by rewrite E.
  - intros t es' s' He' Hno. pose proof (own_steps_left t es' _ _ He' Hno). unfold own_left in *.
    destruct (threads s !! t) as [[st g]|]; simpl in *; [|lia]. pose proof (remaining_pos g). lia.
  - intros ts s'. enough (exec s (map Step ts) = Some s' → (length ts + left_to_do s' ≤ left_to_do s)%nat) as H.
    { intros H1%H. pose proof (left_bound s). lia. }
    clear. revert s. induction ts as [|t ts IH]; intros s; simpl; [intros [= <-]; lia|].
    destruct (advance s t) as [s1|] eqn:Ha; cbn [mbind option_bind]; [|done]. intros H1%IH.
    apply advance_less in Ha. lia.
Qed.
End concurrent.

(** ** A concrete interleaving *)
Section demo.
Notation card := (Network (NetworkDevice.make 2)).

(** Thread 1 has looked the card up when thread 2 unregisters it; the write
    still goes through. *)
Definition late_write : list (event (D:=device)) :=
  Call 0 (ORegister (Some card)) :: replicate 5 (Step 0) ++
  Call 1 (OWrite NETWORK_DEVICE_ID 7) :: replicate 4 (Step 1) ++
  Call 2 (OUnregister NETWORK_DEVICE_ID) :: replicate 5 (Step 2) ++ replicate 5 (Step 1).
Definition late_state : sys device := default init (exec init late_write).

Lemma late_exec : exec init late_write = Some late_state.
Proof. vm_compute. reflexivity. Qed.
Lemma late_quiet : threads late_state = ∅.
Proof. vm_compute. reflexivity. Qed.

Example late_answers :
  (λ c, (c_ans c, c_end c)) <$> finished late_state !! 6%nat = Some (ok None, 21%nat) ∧
  (λ c, (c_ans c, c_end c)) <$> finished late_state !! 11%nat = Some (ok None, 16%nat) ∧ devices late_state = [].
Proof. vm_compute. done. Qed.

Lemma device_calls_atomic_witness :
  ∃ order m, order ≡ₚ map_to_list (finished late_state) ∧
    dev_run make (map (λ x, c_op x.2) order) = (map (λ x, c_ans x.2) order, m) ∧ m = [].
Proof.
  destruct (device_calls_atomic late_write late_state late_exec late_quiet) as (order & m & H1 & H2 & H3 & _).
  exists order, m. split; [exact H1|]. split; [exact H2|].
  assert (devices late_state = []) as Hd by (vm_compute; reflexivity). rewrite Hd in H3. by inversion H3.
Defined.

(** Thread 0 is about to insert the card. *)
Definition early_write : list (event (D:=device)) := take 3 late_write.
Definition early_state : sys device := default init (exec init early_write).
Lemma early_exec : exec init early_write = Some early_state.
Proof. vm_compute. reflexivity. Qed.

Lemma device_calls_return_witness :
  (∃ t s', sys_step early_state (Step t) = Some s') ∧
  exec early_state (map Step (replicate 10 0%nat)) = None.
Proof.
  destruct (device_calls_return early_write early_state early_exec) as (H1 & _ & H2). split.
  - apply H1. intros H. apply (f_equal size) in H. vm_compute in H. discriminate H.
  - destruct (exec early_state (map Step (replicate 10 0%nat))) as [s'|] eqn:E; [|reflexivity].
    specialize (H2 _ _ E). vm_compute in H2. exfalso. lia.
Defined.
End demo.
