(* ===== verification/Tui.v ===== *)
(** * Tui: the state behind the terminal user interface

    The history of snapshots ([tui/history_buffer.cpp]), the controller that
    turns commands and elapsed time into ticks, snapshots and seeks
    ([tui/tui_controller.cpp]), and the read model that translates kernel
    snapshots ([tui/kernel_read_model.cpp], [kernel/kernel_diagnostics.cpp]).
    The kernel is reached through two callbacks.  Objects that were moved from
    are not modelled. *)
From S2P Require Import Prelude Core Process Policies Scheduler Interp Sync Dispatcher Kernel.
Local Open Scope Z_scope.

(** ** [tui/history_buffer.cpp] *)
Module HistoryBuffer.
Section history.
Context {A : Type}.

Record t := Mk { capacity : nat; entries : list A; cursor : nat }.
Definition make (requestedCapacity : nat) : t :=
  Mk (if (requestedCapacity =? 0)%nat then 1%nat else requestedCapacity) [] 0.

Definition append (h : t) (entry : A) : Result unit * t :=
  let '(es, c) :=
    if (length (entries h) =? capacity h)%nat
    then (tail (entries h), if (0 <? cursor h)%nat then (cursor h - 1)%nat else cursor h)
    else (entries h, cursor h) in
  let es := es ++ [entry] in
  (ok tt, Mk (capacity h) es (if decide (es = []) then 0%nat else (length es - 1)%nat)).
Definition seekBackward (h : t) (step : nat) : Result unit * t :=
  match entries h with
  | [] => (error ErrorCode.NotFound, h)
  | _ => if (cursor h <? step)%nat then (error ErrorCode.NotFound, h)
         else (ok tt, Mk (capacity h) (entries h) (cursor h - step))
  end.
Definition seekForward (h : t) (step : nat) : Result unit * t :=
  match entries h with
  | [] => (error ErrorCode.NotFound, h)
  | _ =>
      let maxForward := (length (entries h) - 1 - cursor h)%nat in
      if (maxForward <? step)%nat then (error ErrorCode.NotFound, h)
      else (ok tt, Mk (capacity h) (entries h) (cursor h + step))
  end.
Definition moveToLatest (h : t) : t :=
  match entries h with [] => h | _ => Mk (capacity h) (entries h) (length (entries h) - 1) end.
(** [None] outside is an index out of range, inside an empty history. *)
Definition current (h : t) : option (option A) :=
  match entries h with
  | [] => Some None
  | _ => let! e := entries h !! cursor h in Some (Some e)
  end.
Definition latest (h : t) : option A := last (entries h).
Definition size (h : t) : nat := length (entries h).
Definition position (h : t) : nat := match entries h with [] => 0%nat | _ => cursor h end.
End history.
Arguments t : clear implicits.
End HistoryBuffer.

(** ** [tui/tui_models.h] *)
Record TuiProcessSnapshot := MkTuiRow {
  ui_id : Z; ui_name : string; ui_state : ProcessState; ui_base : PriorityLevel; ui_effective : PriorityLevel;
  ui_nice : Z; ui_cpuTime : Z; ui_laneIndex : option nat
}.
Record TuiSchedulerSnapshot := MkTuiScheduler {
  ui_readyQueue : list Z; ui_blockedQueue : list Z; ui_runningQueue : list Z; ui_perLane : list (list Z);
  ui_readyCount : nat; ui_blockedCount : nat; ui_policyName : string
}.
Record TuiMemorySnapshot := MkTuiMemory {
  ui_totalVirtualSlots : nat; ui_freeVirtualSlots : nat;
  ui_totalFrames : option nat; ui_freeFrames : option nat; ui_frameOwners : list (option Z)
}.
Record TuiSnapshot := MkTui {
  ui_currentTick : Z; ui_processCount : nat; ui_processes : list TuiProcessSnapshot;
  ui_scheduler : TuiSchedulerSnapshot; ui_memory : TuiMemorySnapshot;
  ui_sequence : Z; ui_epoch : Z
}.
Definition TuiSnapshot_default : TuiSnapshot := MkTui 0 0 [] (MkTuiScheduler [] [] [] [] 0 0 "") (MkTuiMemory 0 0 None None []) 0 0.
Definition with_sequence (s : TuiSnapshot) (n : Z) : TuiSnapshot :=
  MkTui (ui_currentTick s) (ui_processCount s) (ui_processes s) (ui_scheduler s) (ui_memory s) n (ui_epoch s).
Record TuiHistoryEntry := MkEntry { en_sequence : Z; en_snapshot : TuiSnapshot }.

(** ** [tui/tui_commands.h] *)
Inductive TuiCommandKind := Tick | AutoPlayStart | AutoPlayStop | Pause | SeekBackward | SeekForward.
#[global] Instance command_kind_eq : EqDecision TuiCommandKind.
Proof. solve_decision. Defined.
Record TuiPlaybackConfig := MkPlayback { pb_intervalMs : Z; pb_step : nat }.
Definition TuiPlaybackConfig_default : TuiPlaybackConfig := MkPlayback 100 1.
Record TuiCommand := MkCommand { cmd_kind : TuiCommandKind; cmd_step : nat; cmd_intervalMs : Z }.

Definition commandRequiresStep (k : TuiCommandKind) : bool :=
  match k with Tick | AutoPlayStart | SeekBackward | SeekForward => true | _ => false end.
Definition commandRequiresInterval (k : TuiCommandKind) : bool :=
  match k with AutoPlayStart => true | _ => false end.
Definition validatePlaybackConfig (c : TuiPlaybackConfig) : Result unit :=
  if (pb_step c =? 0)%nat || (pb_intervalMs c =? 0) then error ErrorCode.InvalidArgument else ok tt.
Definition validateCommand (c : TuiCommand) : Result unit :=
  if commandRequiresStep (cmd_kind c) && (cmd_step c =? 0)%nat then error ErrorCode.InvalidArgument else
  if commandRequiresInterval (cmd_kind c) && (cmd_intervalMs c =? 0) then error ErrorCode.InvalidArgument else ok tt.
Definition playbackConfigFromCommand (c : TuiCommand) : TuiPlaybackConfig := MkPlayback (cmd_intervalMs c) (cmd_step c).

(** ** What the controller is given: [IKernelReadModel] and [TickFn] *)
Class ITuiKernel (K : Type) := {
  captureSnapshot : K → option (Result TuiSnapshot * K);
  tui_tick : K → nat → option (Result unit * K)
}.
#[global] Hint Mode ITuiKernel ! : typeclass_instances.

(** ** [tui/tui_controller.cpp] *)
Inductive TuiControllerState := Idle | Playing | Paused.
#[global] Instance controller_state_eq : EqDecision TuiControllerState.
Proof. solve_decision. Defined.

Module TuiController.
Section controller.
Context {K : Type} `{!ITuiKernel K}.

Record t := Mk {
  kernel : K;
  history : HistoryBuffer.t TuiHistoryEntry;
  current : TuiSnapshot;
  playback : TuiPlaybackConfig;
  state : TuiControllerState;
  accumulatedMs : Z;
  nextSequence : Z
}.
Definition with_kernel (c : t) (k : K) : t :=
  Mk k (history c) (current c) (playback c) (state c) (accumulatedMs c) (nextSequence c).
Definition with_history (c : t) (h : HistoryBuffer.t TuiHistoryEntry) : t :=
  Mk (kernel c) h (current c) (playback c) (state c) (accumulatedMs c) (nextSequence c).
Definition with_current (c : t) (s : TuiSnapshot) : t :=
  Mk (kernel c) (history c) s (playback c) (state c) (accumulatedMs c) (nextSequence c).
Definition with_playback (c : t) (p : TuiPlaybackConfig) : t :=
  Mk (kernel c) (history c) (current c) p (state c) (accumulatedMs c) (nextSequence c).
Definition with_state (c : t) (s : TuiControllerState) : t :=
  Mk (kernel c) (history c) (current c) (playback c) s (accumulatedMs c) (nextSequence c).
Definition with_accumulated (c : t) (ms : Z) : t :=
  Mk (kernel c) (history c) (current c) (playback c) (state c) ms (nextSequence c).
Definition with_next (c : t) (n : Z) : t :=
  Mk (kernel c) (history c) (current c) (playback c) (state c) (accumulatedMs c) n.

Definition syncCurrentFromCursor (c : t) : option (Result unit * t) :=
  let! entry := HistoryBuffer.current (history c) in
  match entry with
  | None => Some (error ErrorCode.NotFound, c)
  | Some e => Some (ok tt, with_current c (en_snapshot e))
  end.

Definition capture (c : t) : option (Result unit * t) :=
  let! (captured, k) := captureSnapshot (kernel c) in
  let c := with_kernel c k in
  match captured with
  | error e => Some (error e, c)
  | ok snapshot =>
      let '(snapshot, next) :=
        if ui_sequence snapshot =? 0 then
          let n := u64 (nextSequence c + 1) in (with_sequence snapshot n, n)
        else (snapshot, if nextSequence c <? ui_sequence snapshot then ui_sequence snapshot else nextSequence c) in
      let '(appended, h) := HistoryBuffer.append (history c) (MkEntry (ui_sequence snapshot) snapshot) in
      let c := with_history (with_next c next) h in
      match appended with
      | error e => Some (error e, c)
      | ok _ => syncCurrentFromCursor c
      end
  end.

Definition tickAndCapture (c : t) (step : nat) : option (Result unit * t) :=
  let! (ticked, k) := tui_tick (kernel c) step in
  let c := with_kernel c k in
  match ticked with
  | error e => Some (error e, c)
  | ok _ => capture c
  end.

Definition make (k : K) (historyCapacity : nat) : option t :=
  let c := Mk k (HistoryBuffer.make historyCapacity) TuiSnapshot_default TuiPlaybackConfig_default Idle 0 0 in
  let! (_, c') := capture c in Some c'.

Definition run_seek (c : t) (seek : Result unit * HistoryBuffer.t TuiHistoryEntry) : option (Result unit * t) :=
  let '(r, h) := seek in
  match r with
  | error e => Some (error e, with_history c h)
  | ok _ => syncCurrentFromCursor (with_history c h)
  end.

Definition dispatch (c : t) (command : TuiCommand) : option (Result unit * t) :=
  match validateCommand command with
  | error e => Some (error e, c)
  | ok _ =>
      match cmd_kind command with
      | Tick =>
          let! (ticked, k) := tui_tick (kernel c) (cmd_step command) in
          let c := with_kernel c k in
          match ticked with
          | error e => if decide (e = ErrorCode.NotFound) then capture c else Some (error e, c)
          | ok _ => capture c
          end
      | AutoPlayStart =>
          let config := playbackConfigFromCommand command in
          match validatePlaybackConfig config with
          | error e => Some (error e, c)
          | ok _ => Some (ok tt, with_state (with_accumulated (with_playback c config) 0) Playing)
          end
      | AutoPlayStop => Some (ok tt, with_state (with_accumulated c 0) Idle)
      | Pause => Some (ok tt, if decide (state c = Playing) then with_state c Paused else c)
      | SeekBackward => run_seek c (HistoryBuffer.seekBackward (history c) (cmd_step command))
      | SeekForward => run_seek c (HistoryBuffer.seekForward (history c) (cmd_step command))
      end
  end.

(** The [while] of [advanceAutoplay]; [fuel] bounds its iterations. *)
Fixpoint autoplay_loop (fuel : nat) (c : t) : option (Result unit * t) :=
  if accumulatedMs c <? pb_intervalMs (playback c) then Some (ok tt, c) else
  match fuel with
  | O => None
  | S fuel =>
      let c := with_accumulated c (accumulatedMs c - pb_intervalMs (playback c)) in
      let! (ticked, c) := tickAndCapture c (pb_step (playback c)) in
      match ticked with
      | error e => Some (error e, with_state c Paused)
      | ok _ => autoplay_loop fuel c
      end
  end.
Definition advanceAutoplay (c : t) (elapsedMs : Z) : option (Result unit * t) :=
  if decide (state c = Playing) then
    if (pb_intervalMs (playback c) =? 0) || (pb_step (playback c) =? 0)%nat
    then Some (error ErrorCode.InvalidState, c) else
    let c := with_accumulated c (u32 (accumulatedMs c + elapsedMs)) in
    autoplay_loop (Z.to_nat (accumulatedMs c / pb_intervalMs (playback c))) c
  else Some (ok tt, c).

Definition historySize (c : t) : nat := HistoryBuffer.size (history c).
Definition historyCursor (c : t) : nat := HistoryBuffer.position (history c).
End controller.
Arguments t : clear implicits.
End TuiController.

(** ** [tui/kernel_read_model.cpp] over [kernel/kernel_diagnostics.cpp] *)
Module KernelReadModel.
Definition row_to_ui (r : KernelProcessSnapshot) : TuiProcessSnapshot :=
  MkTuiRow (row_id r) (row_name r) (row_state r) (row_base r) (row_effective r) (row_nice r) (row_cpuTime r)
    (row_laneIndex r).
Definition to_ui (s : KernelSnapshot) (sequence : Z) : TuiSnapshot :=
  MkTui (sn_currentTick s) (sn_processCount s) (map row_to_ui (sn_processes s))
    (MkTuiScheduler (sn_readyQueue s) (sn_blockedQueue s) (sn_runningPids s) (sn_perLaneReadyQueues s)
       (sn_readyCount s) (sn_blockedCount s) (sn_policyName s))
    (MkTuiMemory (sn_totalVirtualSlots s) (sn_freeVirtualSlots s) (sn_totalFrames s) (sn_freeFrames s) (sn_frameOwners s))
    sequence (u64 (sn_currentTick s)).

Section model.
Context {P W Prim : Type} `{!ISchedulingPolicy P} `{!FloatCast} `{!IVirtualMemory W} `{!IExecutionEngine W}.
Context `{!ISyncPrimitive Prim}.

(** The kernel it observes and its own counter. *)
Record t := Mk { observed : kernel P W Prim; rm_nextSequence : Z }.
Definition diagnostics (m : t) : option (Result KernelSnapshot) :=
  let! s := snapshot (observed m) in Some (ok s).
Definition capture (m : t) : option (Result TuiSnapshot * t) :=
  let! captured := diagnostics m in
  match captured with
  | error e => Some (error e, m)
  | ok s => let n := u64 (rm_nextSequence m + 1) in Some (ok (to_ui s n), Mk (observed m) n)
  end.

(** The application's callback: [Kernel::runForTicks] with the default budget. *)
#[global] Instance tui_kernel : ITuiKernel t := {|
  captureSnapshot := capture;
  tui_tick m step := let! (r, k) := runForTicks (observed m) step 0 in Some (r, Mk k (rm_nextSequence m))
|}.
End model.
Arguments t : clear implicits.
End KernelReadModel.
