(* ===== verification/TuiTheorems.v ===== *)
(** * TuiTheorems: the history as a window, the controller's clock *)
From S2P Require Import Prelude Core Arch Process Policies Scheduler Cpu Paging Mmu VirtualMem Interp Sync Dispatcher Machine.
From S2P Require Import Kernel KernelProps KernelTheorems KernelView Tui.
Local Open Scope Z_scope.

(** ** The history against an unbounded log *)
Section history.
Context {A : Type}.
Import HistoryBuffer.
Implicit Types (h : t A).

Inductive history_op := HAppend (a : A) | HBackward (step : nat) | HForward (step : nat) | HLatest.
Definition history_step h (op : history_op) : Result unit * t A :=
  match op with
  | HAppend a => append h a
  | HBackward n => seekBackward h n
  | HForward n => seekForward h n
  | HLatest => (ok tt, moveToLatest h)
  end.
Fixpoint history_run h (ops : list history_op) : list (Result unit) * t A :=
  match ops with
  | [] => ([], h)
  | op :: ops' => let '(r, h1) := history_step h op in let '(rs, h2) := history_run h1 ops' in (r :: rs, h2)
  end.

(** Everything ever appended, and the position looked at. *)
Record log := MkLog { all : list A; at_ : nat }.
(** The first entry a window of [cap] still shows. *)
Definition oldest (cap : nat) (l : log) : nat := length (all l) - cap.
Definition log_step (cap : nat) (l : log) (op : history_op) : Result unit * log :=
  match op with
  | HAppend a => (ok tt, MkLog (all l ++ [a]) (length (all l)))
  | HBackward n =>
      if decide (all l = [] ∨ (at_ l < oldest cap l + n)%nat) then (error ErrorCode.NotFound, l)
      else (ok tt, MkLog (all l) (at_ l - n))
  | HForward n =>
      if decide (all l = [] ∨ (length (all l) ≤ at_ l + n)%nat) then (error ErrorCode.NotFound, l)
      else (ok tt, MkLog (all l) (at_ l + n))
  | HLatest => (ok tt, MkLog (all l) (length (all l) - 1))
  end.
Fixpoint log_run (cap : nat) (l : log) (ops : list history_op) : list (Result unit) * log :=
  match ops with
  | [] => ([], l)
  | op :: ops' => let '(r, l1) := log_step cap l op in let '(rs, l2) := log_run cap l1 ops' in (r :: rs, l2)
  end.

Record shows (cap : nat) (l : log) h : Prop := {
  sh_capacity : capacity h = cap;
  sh_entries : entries h = drop (oldest cap l) (all l);
  sh_cursor : all l ≠ [] → (oldest cap l ≤ at_ l < length (all l))%nat ∧ cursor h = (at_ l - oldest cap l)%nat;
  sh_empty : all l = [] → at_ l = 0%nat ∧ cursor h = 0%nat
}.

Lemma shows_length cap l h : shows cap l h → length (entries h) = (length (all l) - oldest cap l)%nat.
Proof. intros []. by rewrite sh_entries0, length_drop. Qed.
Lemma shows_nil cap l h : (0 < cap)%nat → shows cap l h → entries h = [] ↔ all l = [].
Proof.
  intros Hc Hs. rewrite <-!length_zero_iff_nil, (shows_length cap l h Hs). unfold oldest. lia.
Qed.

Lemma append_shows cap l h a :
  (0 < cap)%nat → shows cap l h → shows cap (MkLog (all l ++ [a]) (length (all l))) (append h a).2.
Proof.
  intros Hc Hs. pose proof (shows_length cap l h Hs) as Hlen. destruct Hs as [Hcap Hes Hcur Hemp].
  assert ((append h a).2 = Mk cap (drop (oldest cap (MkLog (all l ++ [a]) (length (all l)))) (all l ++ [a]))
            (length (all l) - oldest cap (MkLog (all l ++ [a]) (length (all l))))) as ->.
  { unfold append, oldest in *. cbn [all]. rewrite length_app. simpl length.
    destruct (Nat.eqb_spec (length (entries h)) (capacity h)) as [He|He]; cbn [snd].
    - assert (tail (entries h) ++ [a] = drop (length (all l) + 1 - cap) (all l ++ [a])) as ->.
      { rewrite Hes, drop_app_le by lia. f_equal. assert (∀ es : list A, tail es = drop 1 es) as -> by (by intros []).
        rewrite drop_drop. f_equal. lia. }
      rewrite decide_False by (intros E; apply (f_equal length) in E; rewrite length_drop, length_app in E; simpl in E; lia).
      rewrite length_drop, length_app, Hcap. simpl. f_equal. lia.
    - assert (oldest cap l = 0%nat) as Hz by (unfold oldest; lia). unfold oldest in Hz.
      rewrite decide_False by (intros [_ [=]]%app_eq_nil). rewrite Hcap, Hes, Hz, drop_0, length_app. simpl.
      replace (length (all l) + 1 - cap)%nat with 0%nat by lia. simpl. f_equal. lia. }
  split; cbn [capacity entries cursor all at_]; [done|done| |].
  - intros _. rewrite length_app. simpl. unfold oldest. cbn [all]. rewrite length_app. simpl. lia.
  - intros [_ [=]]%app_eq_nil.
Qed.

Lemma history_step_ok cap l h op :
  (0 < cap)%nat → shows cap l h →
  (history_step h op).1 = (log_step cap l op).1 ∧ shows cap (log_step cap l op).2 (history_step h op).2.
Proof.
  intros Hc Hs. pose proof (shows_nil cap l h Hc Hs) as Hnil. pose proof (shows_length cap l h Hs) as Hlen.
  pose proof Hs as [Hcap Hes Hcur Hemp]. destruct op as [a|n|n|]; cbn [history_step log_step].
  - split; [by unfold append; case_match|]. by apply append_shows.
  - unfold seekBackward. destruct (entries h) as [|e es] eqn:He.
    + rewrite decide_True by (left; by apply Hnil). done.
    + assert (all l ≠ []) as Hne by (intros E; by apply Hnil in E). destruct (Hcur Hne) as [Hr Hcu].
      destruct (Nat.ltb_spec (cursor h) n).
      * rewrite decide_True by (right; lia). done.
      * rewrite decide_False by (intros [?|?]; [done|lia]). split; [done|].
        split; simpl; [done|done| |done]. intros _. unfold oldest in *. simpl. lia.
  - unfold seekForward. destruct (entries h) as [|e es] eqn:He.
    + rewrite decide_True by (left; by apply Hnil). done.
    + assert (all l ≠ []) as Hne by (intros E; by apply Hnil in E). destruct (Hcur Hne) as [Hr Hcu].
      destruct (Nat.ltb_spec (length (e :: es) - 1 - cursor h) n).
      * rewrite decide_True by (right; lia). done.
      * rewrite decide_False by (intros [?|?]; [done|lia]). split; [done|].
        split; simpl; [done|done| |done]. intros _. unfold oldest in *. simpl. lia.
  - split; [done|]. unfold moveToLatest. destruct (entries h) as [|e es] eqn:He.
    + assert (all l = []) as Hz by by apply Hnil. split; simpl; rewrite ?Hz; try done. intros _. split; [done|by apply Hemp].
    + assert (all l ≠ []) as Hne by (intros E; by apply Hnil in E). destruct (Hcur Hne) as [Hr _].
      split; simpl; [done|done| |done]. intros _. unfold oldest in *. simpl in *. lia.
Qed.

(** The history is a window onto everything that was ever captured.  Every
    run of appends and seeks on a new history answers as the unbounded log
    does, where seeking back stops at the oldest of the last [capacity] entries
    and forward at the newest; it stores exactly those entries, the cursor
    never leaves them, and the entry it shows is the one the log is at. *)
Theorem history_window (requested : nat) ops :
  let cap := max 1 requested in
  let '(rs, h) := history_run (make requested) ops in
  let '(rs', l) := log_run cap (MkLog [] 0) ops in
  rs = rs' ∧ entries h = drop (length (all l) - cap) (all l) ∧ (size h ≤ cap)%nat ∧
  current h = Some (all l !! at_ l) ∧ latest h = last (all l) ∧ (all l ≠ [] → position h < size h)%nat.
Proof.
  intros cap. assert (∀ l h, shows cap l h → let '(rs, h') := history_run h ops in let '(rs', l') := log_run cap l ops in
    rs = rs' ∧ shows cap l' h') as Hrun.
  { induction ops as [|op ops IH]; intros l h Hs; simpl; [done|].
    destruct (history_step_ok cap l h op ltac:(subst cap; lia) Hs) as [Hr Hs1].
    destruct (history_step h op) as [r h1], (log_step cap l op) as [r' l1]. simpl in *. subst r'.
    specialize (IH l1 h1 Hs1). destruct (history_run h1 ops) as [rs h2], (log_run cap l1 ops) as [rs' l2].
    destruct IH as [-> ?]. done. }
  assert (shows cap (MkLog [] 0) (make requested)) as H0.
  { split; simpl; try done. unfold cap. destruct (Nat.eqb_spec requested 0); lia. }
  specialize (Hrun _ _ H0). destruct (history_run _ _) as [rs h], (log_run _ _ _) as [rs' l].
  destruct Hrun as [-> Hs]. split; [done|]. pose proof (shows_length cap l h Hs) as Hlen.
  pose proof (shows_nil cap l h ltac:(subst cap; lia) Hs) as Hnil. destruct Hs as [Hcap Hes Hcur Hemp].
  unfold oldest in *. split; [done|]. split; [unfold size; lia|].
  unfold current, latest, position, size. destruct (decide (all l = [])) as [Hz|Hz].
  - rewrite (proj2 Hnil Hz), Hz. split; [done|]. split; [done|]. by intros [].
  - destruct (Hcur Hz) as [Hr Hcu]. destruct (lookup_lt_is_Some_2 (all l) (at_ l)) as [e He]; [lia|].
    assert (entries h !! cursor h = Some e) as Hce.
    { rewrite Hes, lookup_drop, Hcu. rewrite <-He. f_equal. lia. }
    rewrite Hce, He. split; [by destruct (entries h)|]. split.
    + rewrite Hes, last_lookup, last_lookup, lookup_drop, length_drop. f_equal. lia.
    + intros _. destruct (entries h) eqn:E; [destruct Hz; by apply Hnil|]. rewrite Hlen. lia.
Qed.
End history.

(** ** Autoplay *)
Section autoplay.
Context {K : Type} `{HK : !ITuiKernel K}.
Import TuiController.
Implicit Types (c : t K).

Lemma sync_keeps c res c' :
  syncCurrentFromCursor c = Some (res, c') →
  state c' = state c ∧ playback c' = playback c ∧ accumulatedMs c' = accumulatedMs c.
Proof.
  unfold syncCurrentFromCursor. destruct (HistoryBuffer.current _) as [[e|]|]; [| |done]; by intros [= <- <-].
Qed.
Lemma capture_keeps c res c' :
  capture c = Some (res, c') →
  state c' = state c ∧ playback c' = playback c ∧ accumulatedMs c' = accumulatedMs c.
Proof.
  unfold capture. destruct (captureSnapshot _) as [[[s|e] k]|]; [| |done]; [|by intros [= <- <-]].
  destruct (ui_sequence s =? 0); cbv beta iota zeta; destruct (HistoryBuffer.append _ _) as [[u|e] h];
    [by intros ?%sync_keeps|by intros [= <- <-]|by intros ?%sync_keeps|by intros [= <- <-]].
Qed.
Lemma tick_keeps c n res c' :
  tickAndCapture c n = Some (res, c') →
  state c' = state c ∧ playback c' = playback c ∧ accumulatedMs c' = accumulatedMs c.
Proof.
  unfold tickAndCapture. destruct (tui_tick _ _) as [[[u|e] k]|]; [| |done]; [by intros ?%capture_keeps|by intros [= <- <-]].
Qed.

(** One tick does not look at the accumulated time. *)
Lemma tick_frame c a n :
  tickAndCapture (with_accumulated c a) n = (let! (r, c') := tickAndCapture c n in Some (r, with_accumulated c' a)).
Proof.
  unfold tickAndCapture, capture, syncCurrentFromCursor. cbn [kernel with_accumulated].
  destruct (tui_tick _ _) as [[[u|e] k]|]; [|done|done]. cbn [kernel with_kernel with_accumulated nextSequence history].
  destruct (captureSnapshot _) as [[[s|e] k']|]; [|done|done]. cbn [kernel with_kernel with_accumulated nextSequence history].
  destruct (ui_sequence s =? 0); cbv beta iota zeta; destruct (HistoryBuffer.append _ _) as [[v|e] h]; try done;
    cbn [history with_history with_next with_accumulated]; by destruct (HistoryBuffer.current h) as [[en|]|].
Qed.

(** What [advanceAutoplay] promises: that many ticks, until one fails. *)
Fixpoint ticks (n : nat) c : option (Result unit * t K) :=
  match n with
  | O => Some (ok tt, c)
  | S n =>
      let! (ticked, c) := tickAndCapture (with_accumulated c (accumulatedMs c - pb_intervalMs (playback c)))
        (pb_step (playback c)) in
      match ticked with
      | error e => Some (error e, with_state c Paused)
      | ok _ => ticks n c
      end
  end.
Definition shift (d : Z) c : t K := with_accumulated c (accumulatedMs c + d).

Lemma ticks_shift d n c : ticks n (shift d c) = (let! (r, c') := ticks n c in Some (r, shift d c')).
Proof.
  revert c. induction n as [|n IH]; intros c; cbn [ticks]; [done|].
  unfold shift at 1 2. cbn [accumulatedMs playback with_accumulated]. rewrite !tick_frame.
  change (playback (shift d c)) with (playback c).
  replace (accumulatedMs c + d - pb_intervalMs (playback c)) with (accumulatedMs c - pb_intervalMs (playback c) + d) by lia.
  destruct (tickAndCapture c _) as [[[u|e] c']|]; [|done|done].
  exact (IH (with_accumulated c' (accumulatedMs c - pb_intervalMs (playback c)))).
Qed.
Lemma ticks_app n m c :
  ticks (n + m) c = (let! (r, c') := ticks n c in match r with error e => Some (error e, c') | ok _ => ticks m c' end).
Proof.
  revert c. induction n as [|n IH]; intros c; cbn [ticks Nat.add]; [done|].
  destruct (tickAndCapture _ _) as [[[u|e] c']|]; [apply IH|done|done].
Qed.
Lemma ticks_keeps n c u c' :
  ticks n c = Some (ok u, c') →
  state c' = state c ∧ playback c' = playback c ∧ accumulatedMs c' = accumulatedMs c - Z.of_nat n * pb_intervalMs (playback c).
Proof.
  revert c. induction n as [|n IH]; intros c; cbn [ticks]; [intros [= _ <-]; split_and!; [done..|lia]|].
  destruct (tickAndCapture _ _) as [[[v|e] c1]|] eqn:Ht; [|done|done]. apply tick_keeps in Ht as (Hs & Hp & Ha).
  intros (Hs' & Hp' & Ha')%IH. rewrite Hs', Hp', Ha', Hs, Hp, Ha. simpl. split_and!; [done..|lia].
Qed.
Lemma ticks_error n c e c' : ticks n c = Some (error e, c') → state c' = Paused.
Proof.
  revert c. induction n as [|n IH]; intros c; cbn [ticks]; [done|].
  destruct (tickAndCapture _ _) as [[[v|er] c1]|]; [apply IH|by intros [= _ <-]|done].
Qed.
Lemma loop_ticks fuel c :
  0 < pb_intervalMs (playback c) → 0 ≤ accumulatedMs c →
  (Z.to_nat (accumulatedMs c / pb_intervalMs (playback c)) ≤ fuel)%nat →
  autoplay_loop fuel c = ticks (Z.to_nat (accumulatedMs c / pb_intervalMs (playback c))) c.
Proof.
  revert c. induction fuel as [|fuel IH]; intros c Hi Ha Hf;
    cbn [autoplay_loop]; destruct (Z.ltb_spec (accumulatedMs c) (pb_intervalMs (playback c))) as [Hlt|Hge];
    try by rewrite Z.div_small by lia.
  - pose proof (Z.div_str_pos (accumulatedMs c) (pb_intervalMs (playback c)) ltac:(lia)). lia.
  - assert (accumulatedMs c / pb_intervalMs (playback c) =
            (accumulatedMs c - pb_intervalMs (playback c)) / pb_intervalMs (playback c) + 1) as E.
    { rewrite <-Z.div_add by lia. f_equal. lia. }
    pose proof (Z.div_pos (accumulatedMs c - pb_intervalMs (playback c)) (pb_intervalMs (playback c)) ltac:(lia) Hi).
    rewrite E in *. rewrite Z2Nat.inj_add, Nat.add_comm by lia. cbn [Nat.add ticks Z.to_nat Pos.to_nat].
    change (Z.to_nat 1 + ?n)%nat with (S n). cbn [ticks].
    cbn [playback with_accumulated]. destruct (tickAndCapture _ _) as [[[v|e] c1]|] eqn:Ht; [|done|done].
    apply tick_keeps in Ht as (Hs & Hp & Ha'). cbn [playback accumulatedMs with_accumulated] in *.
    rewrite <-Hp, <-Ha' in *. apply IH; lia.
Qed.
Lemma advance_ticks c e :
  state c = Playing → 0 < pb_intervalMs (playback c) → pb_step (playback c) ≠ 0%nat →
  0 ≤ accumulatedMs c + e < 2 ^ 32 →
  advanceAutoplay c e = ticks (Z.to_nat ((accumulatedMs c + e) / pb_intervalMs (playback c))) (shift e c).
Proof.
  intros Hs Hi Hn He. unfold advanceAutoplay. rewrite decide_True by done.
  rewrite (proj2 (Z.eqb_neq _ _)), (proj2 (Nat.eqb_neq _ _)) by lia. cbn [orb].
  assert (u32 (accumulatedMs c + e) = accumulatedMs c + e) as -> by (unfold u32; rewrite Z.mod_small; lia).
  change (with_accumulated c (accumulatedMs c + e)) with (shift e c).
  change (playback c) with (playback (shift e c)).
  change (accumulatedMs c + e) with (accumulatedMs (shift e c)).
  apply loop_ticks; simpl; lia.
Qed.

(** A successful advance leaves less than one interval over. *)
Lemma advance_end c e u c1 :
  state c = Playing → pb_step (playback c) ≠ 0%nat → 0 ≤ accumulatedMs c < pb_intervalMs (playback c) →
  0 ≤ e → accumulatedMs c + e < 2 ^ 32 → advanceAutoplay c e = Some (ok u, c1) →
  state c1 = Playing ∧ playback c1 = playback c ∧ accumulatedMs c1 = (accumulatedMs c + e) mod pb_intervalMs (playback c).
Proof.
  intros Hs Hn Ha He Hb. rewrite advance_ticks by (done || lia). intros (Hs1 & Hp1 & Ha1)%ticks_keeps.
  cbn [shift state playback accumulatedMs with_accumulated] in *. split_and!; [congruence|done|].
  pose proof (Z.div_pos (accumulatedMs c + e) (pb_intervalMs (playback c)) ltac:(lia) ltac:(lia)).
  rewrite Ha1, Z2Nat.id by lia. rewrite Z.mod_eq by lia. lia.
Qed.

(** Autoplay follows the clock however the time is cut up.  While playing,
    as long as the accumulator does not wrap, advancing by two spans in turn
    does to the kernel, the history and the accumulator what advancing by their
    sum does; when a tick of the first span fails, both pause the controller
    there with the same error, and only the unused time differs.  The loop
    always ends: a successful advance is one tick per full interval and leaves
    less than one interval over. *)
Theorem autoplay_chunks c e1 e2 :
  state c = Playing → pb_step (playback c) ≠ 0%nat →
  0 ≤ accumulatedMs c < pb_intervalMs (playback c) → 0 ≤ e1 → 0 ≤ e2 → accumulatedMs c + e1 + e2 < 2 ^ 32 →
  advanceAutoplay c (e1 + e2) =
    (let! (r, c1) := advanceAutoplay c e1 in
     match r with
     | ok _ => advanceAutoplay c1 e2
     | error e => Some (error e, with_accumulated c1 (accumulatedMs c1 + e2))
     end) ∧
  (advanceAutoplay c e1 = ticks (Z.to_nat ((accumulatedMs c + e1) / pb_intervalMs (playback c))) (with_accumulated c (accumulatedMs c + e1))) ∧
  (∀ u c1, advanceAutoplay c e1 = Some (ok u, c1) →
     state c1 = Playing ∧ playback c1 = playback c ∧
     accumulatedMs c1 = (accumulatedMs c + e1) mod pb_intervalMs (playback c)).
Proof.
  intros Hs Hn Ha He1 He2 Hb. set (I := pb_intervalMs (playback c)) in *.
  pose proof (λ u c1, advance_end c e1 u c1 Hs Hn Ha He1 ltac:(lia)) as Hend. fold I in Hend.
  split; [|split; [by rewrite advance_ticks by (subst I; done || lia)|done]].
  rewrite advance_ticks by (subst I; done || lia). fold I.
  pose proof (Z.div_pos (accumulatedMs c + e1) I ltac:(lia) ltac:(lia)) as Hq.
  pose proof (Z.mod_pos_bound (accumulatedMs c + e1) I ltac:(lia)) as Hm.
  assert ((accumulatedMs c + (e1 + e2)) / I = (accumulatedMs c + e1) / I + ((accumulatedMs c + e1) mod I + e2) / I) as ->.
  { rewrite <-Z.div_add_l by lia. f_equal. pose proof (Z.div_mod (accumulatedMs c + e1) I ltac:(lia)). lia. }
  pose proof (Z.div_pos ((accumulatedMs c + e1) mod I + e2) I ltac:(lia) ltac:(lia)).
  rewrite Z2Nat.inj_add by lia. assert (shift (e1 + e2) c = shift e2 (shift e1 c)) as ->.
  { unfold shift. simpl. f_equal. lia. }
  rewrite ticks_app, ticks_shift. rewrite (advance_ticks c e1) in * by (subst I; done || lia). fold I in Hend |- *.
  destruct (ticks _ (shift e1 c)) as [[[u|e] c1]|]; [|done|done].
  destruct (Hend u c1 eq_refl) as (Hs1 & Hp1 & Ha1).
  rewrite (advance_ticks c1 e2), Ha1, Hp1; rewrite ?Hp1, ?Ha1; fold I; try done; try lia.
  split; [lia|]. pose proof (Z.mod_le (accumulatedMs c + e1) I ltac:(lia) ltac:(lia)). lia.
Qed.
End autoplay.

(** ** The controller over a kernel with one process *)
Section demo.
#[local] Existing Instances demo_order demo_cast.
Import TuiController.
Notation C := (t (KernelReadModel.t Policies.policy (machine PhysicalMemory.t ClockReplacement.t) Mutex.t)).

Definition demo_view := KernelReadModel.Mk (kernel_after [KCreate (config 9)]) 0.
Definition demo_playing : option C :=
  let! c := make demo_view 4 in
  let! (_, c) := dispatch c (MkCommand AutoPlayStart 1 50) in Some c.
Definition playing (c : C) : bool := bool_decide (state c = Playing).

Lemma autoplay_chunks_witness :
  match demo_playing with
  | Some c =>
      advanceAutoplay c (70 + 40) =
        (let! (r, c1) := advanceAutoplay c 70 in
         match r with
         | ok _ => advanceAutoplay c1 40
         | error e => Some (error e, with_accumulated c1 (accumulatedMs c1 + 40))
         end) ∧
      (λ '(r, c1), (r, historySize c1, accumulatedMs c1)) <$> advanceAutoplay c 70 = Some (ok tt, 2%nat, 20)
  | None => False
  end.
Proof.
  destruct demo_playing as [c|] eqn:E; [|vm_compute in E; discriminate E].
  assert ((λ c, (state c, playback c, accumulatedMs c)) <$> demo_playing = Some (Playing, MkPlayback 50 1, 0)) as Hc
    by (vm_compute; reflexivity).
  assert ((let! c := demo_playing in (λ '(r, c1), (r, historySize c1, accumulatedMs c1)) <$> advanceAutoplay c 70) =
          Some (ok tt, 2%nat, 20)) as Hr by (vm_compute; reflexivity).
  rewrite E in Hc, Hr. split; [|exact Hr]. injection Hc as Hs Hp Ha.
  apply (autoplay_chunks c 70 40); rewrite ?Hs, ?Hp, ?Ha; simpl; (done || lia).
Defined.
End demo.
