(* ===== verification/TuiSafe.v ===== *)
(** * TuiSafe: the controller over a lawful kernel

    What the controller asks of the kernel behind its two callbacks, stated as
    laws of the interface [ITuiKernel], the invariant every command and every
    advance of autoplay keeps under them, and the proof that the kernel's read
    model obeys them. *)
From S2P Require Import Prelude Core Arch Process Policies Scheduler Cpu Paging Mmu VirtualMem Interp Sync.
From S2P Require Import Dispatcher DispatcherProps Machine Kernel KernelProps KernelTheorems KernelView Tui TuiTheorems.
Local Open Scope Z_scope.

(** The physical memory a snapshot reports is of a size the usage bar of the
    interface can compute with. *)
Definition sane (s : TuiSnapshot) : Prop :=
  match ui_totalFrames (ui_memory s) with Some total => Z.of_nat total * 20 < 2 ^ 64 | None => True end.

Class LawfulTuiKernel (K : Type) `{!ITuiKernel K} := {
  tk_inv : K → Prop;
  tk_capture : ∀ k, tk_inv k → ∃ r k', captureSnapshot k = Some (r, k') ∧ tk_inv k' ∧ ∀ s, r = ok s → sane s;
  tk_tick : ∀ k n r k', tk_inv k → tui_tick k n = Some (r, k') → tk_inv k'
}.
#[global] Hint Mode LawfulTuiKernel ! - : typeclass_instances.

(** The states snapshots and ticks lead to, and whether one of them has an
    undefined tick: a guest's arithmetic can be undefined in any kernel. *)
Section reach.
Context {K : Type} `{HK : !ITuiKernel K}.

Inductive kernel_reaches (k0 : K) : K → Prop :=
  | reaches_start : kernel_reaches k0 k0
  | reaches_capture k r k' : kernel_reaches k0 k → captureSnapshot k = Some (r, k') → kernel_reaches k0 k'
  | reaches_tick k n r k' : kernel_reaches k0 k → tui_tick k n = Some (r, k') → kernel_reaches k0 k'.
Definition tick_stuck (k0 : K) : Prop := ∃ k n, kernel_reaches k0 k ∧ tui_tick k n = None.

Lemma reaches_inv `{!LawfulTuiKernel K} k0 k : tk_inv k0 → kernel_reaches k0 k → tk_inv k.
Proof.
  intros H0. induction 1 as [|k r k' _ IH Hc|k n r k' _ IH Ht]; [done| |].
  - destruct (tk_capture k IH) as (r' & k2 & Hc' & ? & _). by simplify_eq.
  - by apply (tk_tick k n r).
Qed.
End reach.

(** ** The history's cursor *)
Record history_wf {A} (h : HistoryBuffer.t A) : Prop := {
  hw_capacity : (0 < HistoryBuffer.capacity h)%nat;
  hw_size : (HistoryBuffer.size h ≤ HistoryBuffer.capacity h)%nat;
  hw_cursor : HistoryBuffer.entries h ≠ [] → (HistoryBuffer.cursor h < HistoryBuffer.size h)%nat
}.
Lemma make_history_wf {A} n : history_wf (HistoryBuffer.make n : HistoryBuffer.t A).
Proof. split; simpl; [destruct (Nat.eqb_spec n 0); lia|unfold HistoryBuffer.size; simpl; lia|done]. Qed.
Lemma append_wf {A} (h : HistoryBuffer.t A) a :
  history_wf h →
  history_wf (HistoryBuffer.append h a).2 ∧ HistoryBuffer.capacity (HistoryBuffer.append h a).2 = HistoryBuffer.capacity h ∧
  (HistoryBuffer.append h a).1 = ok tt ∧
  ∀ x, x ∈ HistoryBuffer.entries (HistoryBuffer.append h a).2 → x = a ∨ x ∈ HistoryBuffer.entries h.
Proof.
  intros [Hc Hs Hcur]. unfold HistoryBuffer.append, HistoryBuffer.size in *.
  destruct (Nat.eqb_spec (length (HistoryBuffer.entries h)) (HistoryBuffer.capacity h)) as [He|He].
  - destruct h as [cap es cur]. simpl in *. destruct es as [|e es]; simpl in *; [lia|].
    rewrite decide_False by (by intros [_ [=]]%app_eq_nil). split_and!; [|done|done|set_solver].
    split; unfold HistoryBuffer.size; simpl; rewrite ?length_app; simpl; lia.
  - rewrite decide_False by (by intros [_ [=]]%app_eq_nil). split_and!; [|done|done|set_solver].
    split; unfold HistoryBuffer.size; simpl; rewrite ?length_app; simpl; lia.
Qed.
Lemma seek_wf {A} (h : HistoryBuffer.t A) n :
  history_wf h →
  (history_wf (HistoryBuffer.seekBackward h n).2 ∧ history_wf (HistoryBuffer.seekForward h n).2) ∧
  (HistoryBuffer.entries (HistoryBuffer.seekBackward h n).2 = HistoryBuffer.entries h ∧
   HistoryBuffer.entries (HistoryBuffer.seekForward h n).2 = HistoryBuffer.entries h) ∧
  (HistoryBuffer.capacity (HistoryBuffer.seekBackward h n).2 = HistoryBuffer.capacity h ∧
   HistoryBuffer.capacity (HistoryBuffer.seekForward h n).2 = HistoryBuffer.capacity h).
Proof.
  intros Hw. pose proof Hw as [Hc Hs Hcur]. unfold HistoryBuffer.seekBackward, HistoryBuffer.seekForward, HistoryBuffer.size in *.
  destruct h as [cap es cur]. simpl in *. destruct es as [|e es]; simpl in *; [by split_and!|].
  destruct (Nat.ltb_spec cur n), (Nat.ltb_spec (length es - 0 - cur) n); split_and!; try done;
    split; unfold HistoryBuffer.size; simpl in *; try done; specialize (Hcur ltac:(done)); lia.
Qed.
Lemma current_defined {A} (h : HistoryBuffer.t A) :
  history_wf h →
  HistoryBuffer.current h = Some None ∧ HistoryBuffer.entries h = [] ∨
  ∃ e, HistoryBuffer.current h = Some (Some e) ∧ e ∈ HistoryBuffer.entries h.
Proof.
  intros [_ _ Hc]. unfold HistoryBuffer.current, HistoryBuffer.size in *. destruct (HistoryBuffer.entries h) as [|e es] eqn:E; [by left|].
  right. destruct (lookup_lt_is_Some_2 (e :: es) (HistoryBuffer.cursor h)) as [x Hx]; [by apply Hc|].
  rewrite Hx. exists x. split; [done|]. by eapply list_elem_of_lookup_2.
Qed.

(** ** The controller *)
Section controller.
Context {K : Type} `{HK : !ITuiKernel K} `{HL : !LawfulTuiKernel K}.
Context (k0 : K) (Hk0 : tk_inv k0).
Import TuiController.
Implicit Types (c : t K).

Record ctl_wf (cap : nat) c : Prop := {
  cw_kernel : kernel_reaches k0 (kernel c);
  cw_history : history_wf (history c);
  cw_capacity : HistoryBuffer.capacity (history c) = cap;
  cw_entries : ∀ e, e ∈ HistoryBuffer.entries (history c) → sane (en_snapshot e);
  cw_current : sane (current c)
}.
(** Only the playback fields differ. *)
Definition keeps c c' : Prop := state c' = state c ∧ playback c' = playback c ∧ accumulatedMs c' = accumulatedMs c.
(** A call's outcome: defined and in order, or a tick was undefined. *)
Definition fine (cap : nat) (o : option (Result unit * t K)) : Prop :=
  match o with Some (_, c') => ctl_wf cap c' | None => tick_stuck k0 end.

Lemma sync_wf cap c : ctl_wf cap c → ∃ r c', syncCurrentFromCursor c = Some (r, c') ∧ ctl_wf cap c'.
Proof.
  intros [Hk Hh Hc He Hs]. unfold syncCurrentFromCursor. destruct (current_defined _ Hh) as [[-> _]|(e & -> & Hin)].
  - do 2 eexists. split; [done|]. by split.
  - do 2 eexists. split; [done|]. split; simpl; [done..|]. by apply He.
Qed.
Lemma capture_wf cap c : ctl_wf cap c → ∃ r c', capture c = Some (r, c') ∧ ctl_wf cap c'.
Proof.
  intros [Hk Hh Hc He Hs]. unfold capture. destruct (tk_capture _ (reaches_inv _ _ Hk0 Hk)) as (r & k' & Hcap & Hk' & Hsane).
  rewrite Hcap. apply (reaches_capture _ _ _ _ Hk) in Hcap. clear Hk'. rename Hcap into Hk'.
  destruct r as [s|e]; cycle 1. { do 2 eexists. split; [done|]. by split. }
  specialize (Hsane s eq_refl). cbn [nextSequence with_kernel history].
  assert (∀ n s', sane s' → ∃ r c', (let '(appended, h) := HistoryBuffer.append (history c) (MkEntry (ui_sequence s') s') in
     match appended with
     | error e => Some (error e, with_history (with_next (with_kernel c k') n) h)
     | ok _ => syncCurrentFromCursor (with_history (with_next (with_kernel c k') n) h)
     end) = Some (r, c') ∧ ctl_wf cap c') as Hgo.
  { intros n s' Hs'. destruct (append_wf (history c) (MkEntry (ui_sequence s') s') Hh) as (Hw & Hcap & Hok & Hin).
    destruct (HistoryBuffer.append _ _) as [r h]. simpl in *. subst r. apply sync_wf. split; simpl; [done|done|congruence| |done].
    intros e [->|?]%Hin; [done|by apply He]. }
  destruct (ui_sequence s =? 0); apply Hgo; [|done]. by unfold sane in *.
Qed.
Lemma kernel_wf_update cap c k' : ctl_wf cap c → kernel_reaches k0 k' → ctl_wf cap (with_kernel c k').
Proof. intros [] ?. by split. Qed.
Lemma tick_fine cap c n : ctl_wf cap c → fine cap (tickAndCapture c n).
Proof.
  intros Hw. unfold tickAndCapture. destruct (tui_tick (kernel c) n) as [[r k']|] eqn:Ht; cbn [fine].
  - pose proof (kernel_wf_update cap c k' Hw (reaches_tick _ _ _ _ _ (cw_kernel _ _ Hw) Ht)) as Hw'. destruct r as [u|e]; [|done].
    by destruct (capture_wf cap _ Hw') as (r & c' & -> & ?).
  - exists (kernel c), n. by split; [apply (cw_kernel cap)|].
Qed.
Lemma ticks_fine cap n c : ctl_wf cap c → fine cap (ticks n c).
Proof.
  revert c. induction n as [|n IH]; intros c Hw; cbn [ticks]; [done|].
  assert (ctl_wf cap (with_accumulated c (accumulatedMs c - pb_intervalMs (playback c)))) as Hw' by (destruct Hw; by split).
  pose proof (tick_fine cap _ (pb_step (playback c)) Hw') as Hf.
  destruct (tickAndCapture _ _) as [[[u|e] c']|]; cbn [fine] in *; [by apply IH| |done]. destruct Hf; by split.
Qed.

(** What a command does to the playback. *)
Definition obeys (cmd : TuiCommand) c c' : Prop :=
  match cmd_kind cmd with
  | AutoPlayStart => state c' = Playing ∧ playback c' = playbackConfigFromCommand cmd ∧ accumulatedMs c' = 0
  | AutoPlayStop => state c' = Idle
  | Pause => state c = Playing → state c' = Paused
  | _ => keeps c c'
  end.
Lemma run_seek_wf cap c sk :
  ctl_wf cap c → history_wf sk.2 → HistoryBuffer.entries sk.2 = HistoryBuffer.entries (history c) →
  HistoryBuffer.capacity sk.2 = cap → ∃ r c', run_seek c sk = Some (r, c') ∧ ctl_wf cap c' ∧ keeps c c'.
Proof.
  intros Hw Hh He Hc. destruct sk as [r h]. simpl in *. assert (ctl_wf cap (with_history c h)) as Hw'.
  { destruct Hw. split; simpl; try done. intros e. rewrite He. apply cw_entries0. }
  destruct r as [u|e]; [|by do 2 eexists].
  destruct (sync_wf cap _ Hw') as (r & c' & Hs & Hw2). exists r, c'. split; [done|]. split; [done|]. exact (sync_keeps _ _ _ Hs).
Qed.
Lemma dispatch_fine cap c cmd :
  ctl_wf cap c → validateCommand cmd = ok tt →
  match dispatch c cmd with Some (_, c') => ctl_wf cap c' ∧ obeys cmd c c' | None => tick_stuck k0 end.
Proof.
  intros Hw Hv. unfold dispatch, obeys. rewrite Hv. destruct cmd as [kind n ms]. cbn [cmd_kind cmd_step cmd_intervalMs].
  pose proof (seek_wf (history c) n (cw_history _ _ Hw)) as ((Hb & Hf) & (Eb & Ef) & Cb & Cf).
  pose proof (cw_capacity _ _ Hw) as Hcap. destruct kind.
  - destruct (tui_tick (kernel c) n) as [[r k']|] eqn:Ht; cycle 1.
    { exists (kernel c), n. by split; [apply (cw_kernel cap)|]. }
    pose proof (kernel_wf_update cap c k' Hw (reaches_tick _ _ _ _ _ (cw_kernel _ _ Hw) Ht)) as Hw'.
    destruct (capture_wf cap _ Hw') as (r' & c' & Hc & Hw2). pose proof (capture_keeps _ _ _ Hc) as Hk.
    destruct r as [u|e]; [by rewrite Hc|]. case_decide; [by rewrite Hc|]. by split.
  - unfold validateCommand in Hv. simpl in Hv. unfold validatePlaybackConfig. simpl.
    destruct (n =? 0)%nat; [done|]. destruct (ms =? 0); [done|]. simpl. split; [|done]. destruct Hw; by split.
  - split; [|done]. destruct Hw; by split.
  - case_decide; (split; [destruct Hw; by split|done]).
  - destruct (run_seek_wf cap c _ Hw Hb Eb ltac:(congruence)) as (r & c' & -> & ? & ?). done.
  - destruct (run_seek_wf cap c _ Hw Hf Ef ltac:(congruence)) as (r & c' & -> & ? & ?). done.
Qed.

Lemma advance_fine cap c e :
  ctl_wf cap c → 0 ≤ e →
  (state c = Playing → pb_step (playback c) ≠ 0%nat ∧ 0 ≤ accumulatedMs c < pb_intervalMs (playback c) ∧ accumulatedMs c + e < 2 ^ 32) →
  match advanceAutoplay c e with
  | Some (_, c') => ctl_wf cap c' ∧
      (state c' = Playing → state c = Playing ∧ playback c' = playback c ∧ 0 ≤ accumulatedMs c' < pb_intervalMs (playback c'))
  | None => tick_stuck k0
  end.
Proof.
  intros Hw He Hp. destruct (decide (state c = Playing)) as [Hs|Hs].
  - destruct (Hp Hs) as (Hn & Ha & Hb). assert (fine cap (advanceAutoplay c e)) as Hf.
    { rewrite advance_ticks by (done || lia). apply ticks_fine. destruct Hw; by split. }
    destruct (advanceAutoplay c e) as [[[[]|er] c']|] eqn:Ead; [| |done]; cbn [fine] in Hf; (split; [done|]).
    + destruct (advance_end c e tt c' Hs Hn Ha He Hb Ead) as (H1 & H2 & H3). intros _. split; [done|]. split; [done|].
      rewrite H2, H3. apply Z.mod_pos_bound. lia.
    + rewrite advance_ticks in Ead by (done || lia). apply ticks_error in Ead. congruence.
  - unfold advanceAutoplay. rewrite decide_False by done. split; [done|]. done.
Qed.

Lemma make_ctl n :
  ∃ c, make k0 n = Some c ∧ ctl_wf (max 1 n) c ∧ state c = Idle ∧ playback c = TuiPlaybackConfig_default ∧ accumulatedMs c = 0.
Proof.
  unfold make. set (c0 := Mk _ _ _ _ _ _ _).
  assert (ctl_wf (max 1 n) c0) as Hw.
  { split; simpl; [constructor|apply make_history_wf|destruct (Nat.eqb_spec n 0); lia|by intros e ?%elem_of_nil|done]. }
  destruct (capture_wf _ _ Hw) as (r & c & Hc & Hw'). rewrite Hc. exists c. split; [done|]. split; [done|].
  exact (capture_keeps _ _ _ Hc).
Qed.
End controller.

(** ** The kernel's read model obeys the laws *)
Section read_model.
Context {P : Type} `{HP : !ISchedulingPolicy P} `{HL : !LawfulSchedulingPolicy P} `{HF : !FloatCast}.
Context {W : Type} `{HV : !IVirtualMemory W} `{HE : !IExecutionEngine W} `{HM : !LawfulMachine W}.
Context {Prim : Type} `{HS : !ISyncPrimitive Prim}.
Notation M := (KernelReadModel.t P W Prim).

Lemma snapshot_frames (k : kernel P W Prim) sn : snapshot k = Some sn → sn_totalFrames sn = None.
Proof. unfold snapshot. intros H. repeat case_match; try done; by simplify_eq. Qed.

#[global, program] Instance read_model_lawful : LawfulTuiKernel M := {| tk_inv m := kernel_wf (KernelReadModel.observed m) |}.
Next Obligation.
  intros m Hw. destruct (snapshot_ok _ Hw) as (sn & Hs & _). simpl. unfold KernelReadModel.capture, KernelReadModel.diagnostics.
  rewrite Hs. cbv beta iota zeta. do 2 eexists. split; [done|]. split; [done|]. intros s [= <-].
  unfold sane, KernelReadModel.to_ui. simpl. by rewrite (snapshot_frames _ _ Hs).
Qed.
Next Obligation.
  intros m n r m' Hw. simpl. destruct (kernel_step_ok _ (KRun n 0) Hw I) as [(res & k' & Hr & Hw')|[Hr _]]; cbn [kernel_step] in Hr;
    rewrite Hr; [|done]. by intros [= <- <-].
Qed.
End read_model.
