(* ===== verification/Screen.v ===== *)
(** * Screen: the documents the terminal interface draws

    FTXUI's documents are a parameter: its constructors and decorators are the
    operations of the class [Ftxui], and a drawing is the document the source
    builds from them.  The module [FtxuiRenderer] is [tui/ftxui_renderer.cpp];
    the interactive application is in App. *)
From stdpp Require Import pretty.
From S2P Require Import Prelude Core Process Kernel Tui.
Local Open Scope Z_scope.

(** ** FTXUI *)
Inductive Color := White | Green | Cyan | Yellow | Magenta | Red | Blue | GrayLight | GrayDark.
#[global] Instance Color_eq : EqDecision Color.
Proof. solve_decision. Defined.

Class Ftxui := {
  Element : Type;
  text : string → Element;
  hbox : list Element → Element;
  vbox : list Element → Element;
  separator : Element;
  window : Element → Element → Element;
  bold : Element → Element;
  dim : Element → Element;
  border : Element → Element;
  flex : Element → Element;
  xflex : Element → Element;
  color : Color → Element → Element;
  (** A screen of the given width and height, and its text. *)
  render_screen : Z → Z → Element → string
}.

Declare Scope element_scope.
Delimit Scope element_scope with elem.
(** [element | decorator]. *)
Notation "e |> f" := (f e) (at level 40, left associativity, only parsing) : element_scope.

(** ** Strings *)

(** [while (s.size() < w) s += ' ';] and [s = ' ' + s;]. *)
Definition padRight (s : string) (w : nat) : string := Nat.iter (w - String.length s) (λ s, s +:+ " ") s.
Definition padLeft (s : string) (w : nat) : string := Nat.iter (w - String.length s) (λ s, " " +:+ s) s.
(** [std::string(n, c)]: a negative count is a length no string can have. *)
Definition repeated (n : Z) (c : Ascii.ascii) : option string :=
  if n <? 0 then None else Some (Nat.iter (Z.to_nat n) (String c) EmptyString).
(** The identifiers of a list, with a separator. *)
Fixpoint joined (sep : string) (l : list string) : string :=
  match l with
  | [] => ""
  | [s] => s
  | s :: l => s +:+ sep +:+ joined sep l
  end.
Definition used_of (total free : nat) : nat := if (free <? total)%nat then (total - free)%nat else 0%nat.

Definition stateColor (s : ProcessState) : Color :=
  match s with
  | Running => Green | Ready => Cyan | Blocked => Yellow | Suspended => Magenta | Terminated => Red | New => White
  end.

(** ** [tui/ftxui_renderer.cpp] *)
Module FtxuiRenderer.
Section renderer.
Context `{HF : Ftxui}.
Local Open Scope elem.

Definition pidListStr (pids : list Z) (maxShow : nat) : string :=
  match pids with
  | [] => "—"
  | _ =>
      "[" +:+ joined ", " (map pretty (take maxShow pids)) +:+
      (if (maxShow <? length pids)%nat then ", +" +:+ pretty (length pids - maxShow)%nat +:+ " more" else "") +:+ "]"
  end.

Definition process_row (p : TuiProcessSnapshot) : Element :=
  hbox [
    text (" " +:+ padLeft (pretty (ui_id p)) 4 +:+ " ") |> color White;
    separator;
    text (" " +:+ padRight (String.substring 0 17 (ui_name p)) 17 +:+ " ") |> color White;
    separator;
    text (" " +:+ padRight (processStateName (ui_state p)) 10 +:+ " ") |> color (stateColor (ui_state p));
    separator;
    text (" " +:+ padRight (priorityLevelName (ui_effective p)) 11 +:+ " ") |> color White;
    separator;
    text (" " +:+ padLeft (pretty (ui_nice p)) 4 +:+ " ") |> color White;
    separator;
    text (" " +:+ padLeft (pretty (ui_cpuTime p)) 4 +:+ " ") |> color White
  ].
Definition buildProcessPanel (snap : TuiSnapshot) : Element :=
  let rows := [
    hbox [
      text " PID  " |> bold; separator; text " Name              " |> bold; separator;
      text " State      " |> bold; separator; text " Priority    " |> bold; separator;
      text " Nice " |> bold; separator; text " CPU  " |> bold
    ];
    separator
  ] in
  let rows := rows ++ (match ui_processes snap with [] => [text "  (no processes)" |> dim] | _ => [] end) in
  let rows := rows ++ map process_row (ui_processes snap) in
  window (text ("─ PROCESSES (" +:+ pretty (ui_processCount snap) +:+ ") ")) (vbox rows).

Definition lane_row (i : nat) (q : list Z) : Element :=
  hbox [text ("  Lane " +:+ pretty i +:+ ": ") |> dim; text (pidListStr q 8) |> dim].
Definition buildSchedulerPanel (snap : TuiSnapshot) : Element :=
  let s := ui_scheduler snap in
  let rows := [
    hbox [text "Policy: " |> bold; text (if decide (ui_policyName s = "") then "—" else ui_policyName s) |> color Cyan];
    separator;
    hbox [text "Running:  " |> bold |> color Green; text (pidListStr (ui_runningQueue s) 8) |> color Green];
    hbox [text "Ready:    " |> bold |> color Cyan;
          text (pidListStr (ui_readyQueue s) 8 +:+ "  (" +:+ pretty (ui_readyCount s) +:+ ")") |> color Cyan];
    hbox [text "Blocked:  " |> bold |> color Yellow;
          text (pidListStr (ui_blockedQueue s) 8 +:+ "  (" +:+ pretty (ui_blockedCount s) +:+ ")") |> color Yellow]
  ] in
  let rows := rows ++
    match ui_perLane s with
    | [] => []
    | lanes => separator :: (text "Per-lane:" |> bold |> dim) :: imap lane_row lanes
    end in
  window (text "─ SCHEDULER ") (vbox rows).

Definition frame_cell (owner : option Z) : Element :=
  match owner with
  | Some pid =>
      let cell := pretty pid in
      let cell := if (String.length cell <? 2)%nat then " " +:+ cell else cell in
      text ("[" +:+ cell +:+ "]") |> color Green
  | None => text "[  ]" |> color GrayDark
  end.
(** Rows of 16 frames; [n] bounds their number. *)
Fixpoint frame_rows (n : nat) (owners : list (option Z)) : list Element :=
  match n, owners with
  | _, [] | O, _ => []
  | S n, _ => hbox (map frame_cell (take 16 owners)) :: frame_rows n (drop 16 owners)
  end.
Definition buildMemoryPanel (snap : TuiSnapshot) : Element :=
  let m := ui_memory snap in
  let usedVirt := used_of (ui_totalVirtualSlots m) (ui_freeVirtualSlots m) in
  let rows := [hbox [text "Virtual:  " |> bold;
                     text (pretty usedVirt +:+ " / " +:+ pretty (ui_totalVirtualSlots m) +:+ " used")]] in
  let rows := rows ++
    match ui_totalFrames m with
    | Some total =>
        let usedPhys := used_of total (default 0%nat (ui_freeFrames m)) in
        [hbox [text "Physical: " |> bold; text (pretty usedPhys +:+ " / " +:+ pretty total +:+ " frames used")]]
    | None => []
    end in
  let rows := rows ++
    match ui_frameOwners m with
    | [] => []
    | owners => separator :: (text "Frame map:" |> bold |> dim) :: frame_rows (length owners) owners
    end in
  window (text "─ MEMORY ") (vbox rows).

Definition buildHeader (snap : TuiSnapshot) : Element :=
  hbox [
    text " CONTUR2 OS Simulator " |> bold |> color Blue; separator;
    text " Tick: " |> bold; text (pretty (ui_currentTick snap)) |> color Cyan; separator;
    text " Seq: " |> bold; text (pretty (ui_sequence snap)) |> color GrayLight; separator;
    text " Epoch: " |> bold; text (pretty (ui_epoch snap)) |> color GrayLight
  ] |> border.

Record t := Mk { width : Z; height : Z; lastOutput : string; hasContent : bool }.
Definition make (w h : Z) : t := Mk w h "" false.
Definition document (snap : TuiSnapshot) : Element :=
  vbox [
    buildHeader snap;
    hbox [buildProcessPanel snap |> flex; buildSchedulerPanel snap |> flex; buildMemoryPanel snap |> flex] |> flex
  ].
Definition render (r : t) (snap : TuiSnapshot) : Result unit * t :=
  (ok tt, Mk (width r) (height r) (render_screen (width r) (height r) (document snap)) true).
Definition clear (r : t) : t := Mk (width r) (height r) "" false.
Definition lastRendered (r : t) : string := lastOutput r.
End renderer.
End FtxuiRenderer.
