(* ===== verification/App.v ===== *)
(** * App: the interactive application, [tui/ftxui_app.cpp]

    What the application keeps next to the controller - the playback speed and
    the scroll position of the log - the keys it answers, its timer, and the
    frame it draws.  The timer's thread and the user interface's call the
    controller without a lock: each call begins and ends, calls of the two threads
    overlap, and two that overlap and touch a member that one of them writes are
    a data race, undefined.  Two that overlap without a conflict end in either
    order with the same result ([ends_commute]), so a call's effect is put at its
    end.  (Two calls one after the other are taken as ordered; the code has no
    fence between them either.)  The lines of the log come from a callback that reads
    the trace buffer, so a call that asks for them is given them. *)
From Stdlib Require Import Ascii.
From stdpp Require Import pretty.
From S2P Require Import Prelude Core Process Kernel Tui Screen.
Local Open Scope Z_scope.

(** ** [tui/ftxui_app.h], [tui/i_tui_controller.h] *)
Record FtxuiAppConfig := MkAppConfig {
  defaultIntervalMs : Z; defaultStep : nat; frameIntervalMs : Z; minIntervalMs : Z; maxIntervalMs : Z;
  has_logProvider : bool
}.
Definition FtxuiAppConfig_default : FtxuiAppConfig := MkAppConfig 300 1 33 50 2000 false.

Class ITuiController (C : Type) := {
  tc_dispatch : C → TuiCommand → option (Result unit * C);
  tc_advanceAutoplay : C → Z → option (Result unit * C);
  tc_current : C → TuiSnapshot;
  tc_state : C → TuiControllerState;
  tc_historySize : C → nat;
  tc_historyCursor : C → nat
}.
#[global] Hint Mode ITuiController ! : typeclass_instances.
#[global] Instance tui_controller {K} `{!ITuiKernel K} : ITuiController (TuiController.t K) := {|
  tc_dispatch := TuiController.dispatch;
  tc_advanceAutoplay := TuiController.advanceAutoplay;
  tc_current := TuiController.current;
  tc_state := TuiController.state;
  tc_historySize := TuiController.historySize;
  tc_historyCursor := TuiController.historyCursor
|}.

(** ** Members of the controller a call touches

    [MKernel] is what is behind the two callbacks. *)
Inductive member := MKernel | MHistory | MCurrent | MPlayback | MState | MAccumulated | MNext.
#[global] Instance member_eq : EqDecision member.
Proof. solve_decision. Defined.
Record accesses := MkAccesses { acc_reads : list member; acc_writes : list member }.
Definition no_access : accesses := MkAccesses [] [].
Definition both (x y : accesses) : accesses :=
  MkAccesses (acc_reads x ++ acc_reads y) (acc_writes x ++ acc_writes y).
Definition meets (l1 l2 : list member) : bool := existsb (λ m, bool_decide (m ∈ l2)) l1.
(** One writes what the other reads or writes. *)
Definition conflict (x y : accesses) : bool :=
  meets (acc_writes x) (acc_reads y ++ acc_writes y) || meets (acc_reads x) (acc_writes y).

Class IAccesses (C : Type) := {
  acc_dispatch : C → TuiCommand → accesses;
  acc_advance : C → Z → accesses;
  acc_state : accesses;
  (* current, state, historySize and historyCursor *)
  acc_view : accesses
}.
#[global] Hint Mode IAccesses ! : typeclass_instances.

(** Along the paths of [tui_controller.cpp]. *)
Section controller_accesses.
Context {K : Type} `{!ITuiKernel K}.
Import TuiController.
Implicit Types (c : TuiController.t K).

Definition capture_accesses c : accesses :=
  match captureSnapshot (kernel c) with
  | Some (ok _, _) => MkAccesses [] [MKernel; MNext; MHistory; MCurrent]
  | _ => MkAccesses [] [MKernel]
  end.
(** A tick, and the snapshot after it unless the tick failed; [after] says which
    errors are ignored. *)
Definition tick_accesses (after : ErrorCode.t → bool) c (step : nat) : accesses :=
  both (MkAccesses [] [MKernel])
    match tui_tick (kernel c) step with
    | Some (ok _, k) => capture_accesses (with_kernel c k)
    | Some (error e, k) => if after e then capture_accesses (with_kernel c k) else no_access
    | None => no_access
    end.
Fixpoint loop_accesses (fuel : nat) c : accesses :=
  both (MkAccesses [MAccumulated; MPlayback] [])
    (if accumulatedMs c <? pb_intervalMs (playback c) then no_access else
     match fuel with
     | O => no_access
     | S fuel =>
         let c := with_accumulated c (accumulatedMs c - pb_intervalMs (playback c)) in
         both (MkAccesses [] [MAccumulated])
           (both (tick_accesses (λ _, false) c (pb_step (playback c)))
              match tickAndCapture c (pb_step (playback c)) with
              | Some (ok _, c) => loop_accesses fuel c
              | Some (error _, _) => MkAccesses [] [MState]
              | None => no_access
              end)
     end).
Definition advance_accesses c (elapsedMs : Z) : accesses :=
  both (MkAccesses [MState] [])
    (if decide (state c = Playing) then
       both (MkAccesses [MPlayback] [])
         (if (pb_intervalMs (playback c) =? 0) || (pb_step (playback c) =? 0)%nat then no_access else
          let c := with_accumulated c (u32 (accumulatedMs c + elapsedMs)) in
          both (MkAccesses [MAccumulated] [MAccumulated])
            (loop_accesses (Z.to_nat (accumulatedMs c / pb_intervalMs (playback c))) c))
     else no_access).
Definition seek_accesses {A} (seek : Result unit * A) : accesses :=
  match seek.1 with
  | ok _ => MkAccesses [MHistory] [MHistory; MCurrent]
  | error _ => MkAccesses [MHistory] []
  end.
Definition dispatch_accesses c (command : TuiCommand) : accesses :=
  match validateCommand command with
  | error _ => no_access
  | ok _ =>
      match cmd_kind command with
      | Tick => tick_accesses (λ e, bool_decide (e = ErrorCode.NotFound)) c (cmd_step command)
      | AutoPlayStart =>
          match validatePlaybackConfig (playbackConfigFromCommand command) with
          | error _ => no_access
          | ok _ => MkAccesses [] [MPlayback; MAccumulated; MState]
          end
      | AutoPlayStop => MkAccesses [] [MAccumulated; MState]
      | Pause => MkAccesses [MState] (if decide (state c = Playing) then [MState] else [])
      | SeekBackward => seek_accesses (HistoryBuffer.seekBackward (history c) (cmd_step command))
      | SeekForward => seek_accesses (HistoryBuffer.seekForward (history c) (cmd_step command))
      end
  end.
End controller_accesses.
#[global] Instance tui_accesses {K} `{!ITuiKernel K} : IAccesses (TuiController.t K) := {|
  acc_dispatch := dispatch_accesses;
  acc_advance := advance_accesses;
  acc_state := MkAccesses [MState] [];
  acc_view := MkAccesses [MCurrent; MState; MHistory] []
|}.

(** What FTXUI reports: a character, the escape key, or any other event. *)
Inductive Event := Character (c : Ascii.ascii) | Escape | OtherEvent.
#[global] Instance Event_eq : EqDecision Event.
Proof. solve_decision. Defined.

Definition kVisibleKernelLogRows : nat := 5.

Module FtxuiApp.

(** ** [FtxuiApp::Impl]: speed, keys, log, timer *)
Section app.
Context {C : Type} `{HC : !ITuiController C}.

Record t := Mk {
  controller : C; cfg : FtxuiAppConfig; currentIntervalMs : Z; kernelLogOffsetFromBottom : nat; running : bool
}.
Definition make (c : C) (cfg : FtxuiAppConfig) : t := Mk c cfg (defaultIntervalMs cfg) 0 false.
Definition with_controller (a : t) (c : C) : t :=
  Mk c (cfg a) (currentIntervalMs a) (kernelLogOffsetFromBottom a) (running a).
Definition with_interval (a : t) (ms : Z) : t := Mk (controller a) (cfg a) ms (kernelLogOffsetFromBottom a) (running a).
Definition with_offset (a : t) (n : nat) : t := Mk (controller a) (cfg a) (currentIntervalMs a) n (running a).
Definition with_running (a : t) (b : bool) : t :=
  Mk (controller a) (cfg a) (currentIntervalMs a) (kernelLogOffsetFromBottom a) b.

(** [(void)controller.dispatch(command)]. *)
Definition send (a : t) (kind : TuiCommandKind) (step : nat) (ms : Z) : option t :=
  let! (_, c) := tc_dispatch (controller a) (MkCommand kind step ms) in Some (with_controller a c).

Definition togglePlay (a : t) : option t :=
  if decide (tc_state (controller a) = Playing) then send a Pause 1 (currentIntervalMs a)
  else send a AutoPlayStart (defaultStep (cfg a)) (currentIntervalMs a).
Definition restart (a : t) : option t :=
  if decide (tc_state (controller a) = Playing) then
    let! a := send a AutoPlayStop 1 0 in send a AutoPlayStart (defaultStep (cfg a)) (currentIntervalMs a)
  else Some a.
Definition speedUp (a : t) : option t := restart (with_interval a (Z.max (minIntervalMs (cfg a)) (currentIntervalMs a / 2))).
Definition speedDown (a : t) : option t :=
  restart (with_interval a (Z.min (maxIntervalMs (cfg a)) (u32 (currentIntervalMs a * 2)))).

(** [logs] is what the provider returns when it is asked. *)
Definition kernelLogs (a : t) (logs : list string) : list string := if has_logProvider (cfg a) then logs else [].
Definition max_offset (total : nat) : nat :=
  if (kVisibleKernelLogRows <? total)%nat then (total - kVisibleKernelLogRows)%nat else 0%nat.
Definition normalizeKernelLogOffset (a : t) (total : nat) : t :=
  with_offset a (min (kernelLogOffsetFromBottom a) (max_offset total)).
Definition scrollKernelLogsUp (a : t) (logs : list string) : t :=
  if (kernelLogOffsetFromBottom a <? max_offset (length (kernelLogs a logs)))%nat
  then with_offset a (S (kernelLogOffsetFromBottom a)) else a.
Definition scrollKernelLogsDown (a : t) : t :=
  if (0 <? kernelLogOffsetFromBottom a)%nat then with_offset a (kernelLogOffsetFromBottom a - 1) else a.

(** The handler given to [CatchEvent]; the answer is whether it used the event. *)
Definition on_event (a : t) (e : Event) (logs : list string) : option (bool * t) :=
  let key (s : string) := match e, s with Character c, String c' EmptyString => bool_decide (c = c') | _, _ => false end in
  let used (a : option t) := let! a := a in Some (true, a) in
  if key "q" || bool_decide (e = Escape) then Some (true, with_running a false) else
  if key " " || key "p" then used (togglePlay a) else
  if key "t" || key "n" then used (send a Tick 1 0) else
  if key "h" then used (send a SeekBackward 1 0) else
  if key "l" then used (send a SeekForward 1 0) else
  if key "H" then used (send a SeekBackward 10 0) else
  if key "L" then used (send a SeekForward 10 0) else
  if key "+" || key "=" then used (speedUp a) else
  if key "-" || key "_" then used (speedDown a) else
  if key "k" then used (Some (scrollKernelLogsUp a logs)) else
  if key "j" then used (Some (scrollKernelLogsDown a)) else
  Some (false, a).

(** [(void)imp.controller.advanceAutoplay(imp.cfg.frameIntervalMs)] in the timer
    thread. *)
Definition on_timer (a : t) : option t :=
  let! (_, c) := tc_advanceAutoplay (controller a) (frameIntervalMs (cfg a)) in Some (with_controller a c).
End app.
Arguments t : clear implicits.

(** ** The frame *)
Section frame.
Context `{HF : Ftxui}.
Local Open Scope elem.

Definition pidList (pids : list Z) (maxShow : nat) : string :=
  match pids with
  | [] => "—"
  | _ =>
      "[" +:+ joined "," (map pretty (take maxShow pids)) +:+
      (if (maxShow <? length pids)%nat then ",…+" +:+ pretty (length pids - maxShow)%nat else "") +:+ "]"
  end.
Definition headerBlock (value : string) : Element := text ("  " +:+ value +:+ "  ").
Definition headerCell (label value : string) (valueColor : Color) (valueBold : bool) : Element :=
  let valueElement := text value |> color valueColor in
  let valueElement := if valueBold then valueElement |> bold else valueElement in
  hbox [text ("  " +:+ label +:+ " ") |> bold; valueElement; text "  "].

Definition buildHeaderBar (snap : TuiSnapshot) (ctrlState : TuiControllerState) (intervalMs : Z) : Element :=
  let '(stateStr, stateCol) :=
    match ctrlState with
    | Playing => ("▶ PLAYING", Green)
    | Paused => ("⏸ PAUSED", Yellow)
    | Idle => ("■ IDLE", GrayLight)
    end in
  hbox [
    headerBlock "CONTUR2 OS Simulator" |> bold |> color Blue; separator;
    headerCell "Tick:" (pretty (ui_currentTick snap)) Cyan true; separator;
    headerCell "Policy:" (if decide (ui_policyName (ui_scheduler snap) = "") then "—" else ui_policyName (ui_scheduler snap))
      White false;
    separator;
    headerCell "Procs:" (pretty (ui_processCount snap)) White false; separator;
    headerCell "Speed:" (pretty intervalMs +:+ "ms") GrayLight false; separator;
    headerBlock stateStr |> color stateCol |> bold
  ] |> border.

Definition process_row (p : TuiProcessSnapshot) : Element :=
  hbox [
    text (padRight (" " +:+ pretty (ui_id p)) 5) |> color White; separator;
    text (padRight (" " +:+ String.substring 0 14 (ui_name p)) 16) |> color White; separator;
    text (padRight (" " +:+ processStateName (ui_state p)) 11) |> color (stateColor (ui_state p)); separator;
    text (padRight (" " +:+ priorityLevelName (ui_effective p)) 12) |> color White; separator;
    text (padLeft (pretty (ui_nice p)) 5) |> color White; separator;
    text (padLeft (pretty (ui_cpuTime p)) 6) |> color White
  ].
Definition buildProcessTable (snap : TuiSnapshot) : Element :=
  let rows := [
    hbox [
      text (padRight " PID" 5) |> bold; separator; text (padRight " Name" 16) |> bold; separator;
      text (padRight " State" 11) |> bold; separator; text (padRight " Priority" 12) |> bold; separator;
      text (padLeft "Nice" 5) |> bold; separator; text (padLeft "CPU" 6) |> bold
    ];
    separator
  ] in
  let rows := rows ++ (match ui_processes snap with [] => [text "  (no processes)" |> dim] | _ => [] end) in
  let rows := rows ++ map process_row (ui_processes snap) in
  window (text ("─ PROCESSES (" +:+ pretty (ui_processCount snap) +:+ ") ")) (vbox rows) |> flex.

Definition lane_row (i : nat) (q : list Z) : Element :=
  hbox [text ("  Lane " +:+ pretty i +:+ ": ") |> dim; text (pidList q 6) |> dim].
Definition buildSchedulerPanel (snap : TuiSnapshot) : Element :=
  let s := ui_scheduler snap in
  let rows := [
    hbox [text "Policy:  " |> bold; text (if decide (ui_policyName s = "") then "—" else ui_policyName s) |> color Cyan];
    separator;
    hbox [text "Running:  " |> bold |> color Green; text (pidList (ui_runningQueue s) 6) |> color Green];
    hbox [text "Ready:    " |> bold |> color Cyan;
          text (pidList (ui_readyQueue s) 6 +:+ " (" +:+ pretty (ui_readyCount s) +:+ ")") |> color Cyan];
    hbox [text "Blocked:  " |> bold |> color Yellow;
          text (pidList (ui_blockedQueue s) 6 +:+ " (" +:+ pretty (ui_blockedCount s) +:+ ")") |> color Yellow]
  ] in
  let rows := rows ++
    match ui_perLane s with
    | [] => []
    | lanes => separator :: (text "Per-lane:" |> bold |> dim) :: imap lane_row lanes
    end in
  window (text "─ SCHEDULER ") (vbox rows) |> flex.

(** The usage bar: how much of it is filled, and its characters. *)
Definition usage_filled (usedP total : nat) : Z := i32 (u64 (Z.of_nat usedP * 20) / Z.of_nat total).
Definition usage_bar (filled : Z) : option string :=
  let! used := repeated filled "#"%char in let! rest := repeated (20 - filled) "."%char in Some (used +:+ rest).
Definition usage_row (filled : Z) (bar : string) : Element :=
  hbox [text "[" |> dim; text bar |> color (if 20 * 2 / 3 <? filled then Red else Green); text "]" |> dim].
Definition physical_rows (total : nat) (freeFrames : option nat) : option (list Element) :=
  let usedP := used_of total (default 0%nat freeFrames) in
  let row := hbox [text "Physical: " |> bold; text (pretty usedP +:+ "/" +:+ pretty total +:+ " frames") |> color White] in
  if (0 <? total)%nat then
    let filled := usage_filled usedP total in
    let! bar := usage_bar filled in Some [row; usage_row filled bar]
  else Some [row].

Definition frame_cell (owner : option Z) : Element :=
  match owner with
  | Some pid => text ("[" +:+ padLeft (pretty pid) 2 +:+ "]") |> color Green
  | None => text "[  ]" |> color GrayDark
  end.
(** Rows of 12 frames, [n] of them at most: the loop stops at 48 frames. *)
Fixpoint frame_rows (n : nat) (owners : list (option Z)) : list Element :=
  match n, owners with
  | _, [] | O, _ => []
  | S n, _ => hbox (map frame_cell (take 12 owners)) :: frame_rows n (drop 12 owners)
  end.
Definition buildMemoryPanel (snap : TuiSnapshot) : option Element :=
  let m := ui_memory snap in
  let usedV := used_of (ui_totalVirtualSlots m) (ui_freeVirtualSlots m) in
  let virtual_row := hbox [text "Virtual:  " |> bold;
    text (pretty usedV +:+ "/" +:+ pretty (ui_totalVirtualSlots m) +:+ " used") |> color White] in
  let! physical := match ui_totalFrames m with Some total => physical_rows total (ui_freeFrames m) | None => Some [] end in
  let owners := ui_frameOwners m in
  let frames :=
    match owners with
    | [] => []
    | _ =>
        separator :: (text "Frames:" |> bold |> dim) :: frame_rows 4 owners ++
        (if (48 <? length owners)%nat then [text ("  …+" +:+ pretty (length owners - 48)%nat +:+ " more") |> dim] else [])
    end in
  Some (window (text "─ MEMORY ") (vbox (virtual_row :: physical ++ frames)) |> flex).

(** The history bar: 40 characters, an arrow at the cursor. *)
Definition history_filled (cursor total : nat) : Z :=
  Z.min (if (1 <? total)%nat then i32 (u64 (Z.of_nat cursor * 40) / u64 (Z.of_nat total - 1)) else 40) 40.
Definition history_bar (filled : Z) : option string :=
  let! bar := repeated filled "="%char in
  let bar := if filled <? 40 then bar +:+ ">" else bar in
  let! rest := repeated (Z.max 0 (40 - filled - 1)) " "%char in
  Some (bar +:+ rest).
Definition buildHistoryBar (cursor total : nat) : option Element :=
  let! bar := history_bar (history_filled cursor total) in
  Some (hbox [
    text "  History  [" |> bold; text bar |> color Cyan; text "]  " |> bold;
    text (pretty (cursor + 1)%nat +:+ " / " +:+ pretty total) |> color White
  ] |> border).

(** The lines of the log that are shown, and where they end. *)
Definition log_offset (total offsetFromBottom : nat) : nat := min offsetFromBottom (max_offset total).
Definition log_start (total offsetFromBottom : nat) : nat :=
  if (kVisibleKernelLogRows <? total)%nat then (total - kVisibleKernelLogRows - log_offset total offsetFromBottom)%nat else 0%nat.
Definition log_end (total offsetFromBottom : nat) : nat := min total (log_start total offsetFromBottom + kVisibleKernelLogRows).
Definition visible_lines (lines : list string) (offsetFromBottom : nat) : list string :=
  let first := log_start (length lines) offsetFromBottom in
  take (log_end (length lines) offsetFromBottom - first) (drop first lines).
Definition buildKernelLogsPanel (lines : list string) (offsetFromBottom : nat) : Element :=
  match lines with
  | [] => window (text "- KERNEL LOGS ") (vbox [text "  (no kernel logs yet)" |> dim]) |> xflex
  | _ =>
      let total := length lines in
      let rows := map (λ line, text (" " +:+ line) |> color GrayLight) (visible_lines lines offsetFromBottom) in
      let title := "- KERNEL LOGS " +:+ pretty (log_end total offsetFromBottom) +:+ "/" +:+ pretty total in
      let title := if (0 <? log_offset total offsetFromBottom)%nat then title +:+ " [SCROLLED]" else title in
      window (text title) (vbox rows) |> xflex
  end.

Definition buildFooter : Element :=
  hbox [
    headerBlock "[Space] Play/Pause" |> bold |> color Green; separator;
    headerBlock "[h][l] Seek" |> color Cyan; separator;
    headerBlock "[t] Tick" |> color White; separator;
    headerBlock "[j][k] Logs" |> color GrayLight; separator;
    headerBlock "[+][-] Speed" |> color Yellow; separator;
    headerBlock "[q] Quit" |> bold |> color Red
  ] |> border.

(** [buildFrame], which also brings the scroll position back into range. *)
Definition buildFrame {C} `{!ITuiController C} (a : t C) (logs : list string) : option (Element * t C) :=
  let snap := tc_current (controller a) in
  let lines := kernelLogs a logs in
  let a := normalizeKernelLogOffset a (length lines) in
  let! memory := buildMemoryPanel snap in
  let! history := buildHistoryBar (tc_historyCursor (controller a)) (tc_historySize (controller a)) in
  Some (vbox [
    buildHeaderBar snap (tc_state (controller a)) (currentIntervalMs a);
    hbox [buildProcessTable snap; buildSchedulerPanel snap; memory] |> flex;
    buildKernelLogsPanel lines (kernelLogOffsetFromBottom a);
    history;
    buildFooter
  ], a).
End frame.

(** ** [FtxuiApp::run]: two threads *)
Section run.
Context `{HF : Ftxui} {C : Type} `{HC : !ITuiController C} `{HA : !IAccesses C}.

(** What the user interface's thread does: it handles an event or draws. *)
Inductive ui_call := UEvent (e : Event) (logs : list string) | UFrame (logs : list string).
Definition handle (a : t C) (u : ui_call) : option (t C) :=
  match u with
  | UEvent e logs => let! (_, a) := on_event a e logs in Some a
  | UFrame logs => let! (_, a) := buildFrame a logs in Some a
  end.

(** What it touches: the controller's part of [on_event], key by key. *)
Definition send_accesses (a : t C) (kind : TuiCommandKind) (step : nat) (ms : Z) : accesses :=
  acc_dispatch (controller a) (MkCommand kind step ms).
Definition toggle_accesses (a : t C) : accesses :=
  both (acc_state (C:=C))
    (if decide (tc_state (controller a) = Playing) then send_accesses a Pause 1 (currentIntervalMs a)
     else send_accesses a AutoPlayStart (defaultStep (cfg a)) (currentIntervalMs a)).
Definition restart_accesses (a : t C) : accesses :=
  both (acc_state (C:=C))
    (if decide (tc_state (controller a) = Playing) then
       both (send_accesses a AutoPlayStop 1 0)
         match send a AutoPlayStop 1 0 with
         | Some a => send_accesses a AutoPlayStart (defaultStep (cfg a)) (currentIntervalMs a)
         | None => no_access
         end
     else no_access).
Definition event_accesses (a : t C) (e : Event) : accesses :=
  let key (s : string) := match e, s with Character c, String c' EmptyString => bool_decide (c = c') | _, _ => false end in
  if key "q" || bool_decide (e = Escape) then no_access else
  if key " " || key "p" then toggle_accesses a else
  if key "t" || key "n" then send_accesses a Tick 1 0 else
  if key "h" then send_accesses a SeekBackward 1 0 else
  if key "l" then send_accesses a SeekForward 1 0 else
  if key "H" then send_accesses a SeekBackward 10 0 else
  if key "L" then send_accesses a SeekForward 10 0 else
  if key "+" || key "=" then restart_accesses (with_interval a (Z.max (minIntervalMs (cfg a)) (currentIntervalMs a / 2))) else
  if key "-" || key "_" then restart_accesses (with_interval a (Z.min (maxIntervalMs (cfg a)) (u32 (currentIntervalMs a * 2)))) else
  no_access.
Definition ui_accesses (a : t C) (u : ui_call) : accesses :=
  match u with UEvent e _ => event_accesses a e | UFrame _ => acc_view (C:=C) end.
Definition timer_accesses (a : t C) : accesses := acc_advance (controller a) (frameIntervalMs (cfg a)).

(** The timer's thread: it reads [running], sleeps, and is inside
    [advanceAutoplay]; the user interface's thread is between calls or inside one.
    [running] is atomic. *)
Inductive timer_stage := Checking | Asleep | Advancing | Exited.
Record shared := MkShared { sh_app : t C; sh_ui : option ui_call; sh_timer : timer_stage }.
Definition start (a : t C) : shared := MkShared (with_running a true) None Checking.

(** Two calls that are under way together race. *)
Definition races (a : t C) (u : option ui_call) (g : timer_stage) : bool :=
  match u, g with Some u, Advancing => conflict (ui_accesses a u) (timer_accesses a) | _, _ => false end.
Inductive outcome (A : Type) := Fine (x : A) | DataRace | Undefined.
Arguments Fine {A} x.
Arguments DataRace {A}.
Arguments Undefined {A}.

Inductive action := UiBegin (u : ui_call) | UiEnd | TimerCheck | TimerWake | TimerEnd.
Definition enter (a : t C) (u : option ui_call) (g : timer_stage) : outcome shared :=
  if races a u g then DataRace else Fine (MkShared a u g).
(** What a call does to the members it alone touches is put at its end.  An
    action its thread cannot take changes nothing: after a key has stopped the
    application [Loop] returns, and the timer's thread still finishes its turn. *)
Definition app_step (s : shared) (x : action) : outcome shared :=
  let a := sh_app s in
  match x, sh_ui s, sh_timer s with
  | UiBegin u, None, g => if running a then enter a (Some u) g else Fine s
  | UiEnd, Some u, g => match handle a u with Some a => Fine (MkShared a None g) | None => Undefined end
  | TimerCheck, u, Checking => Fine (MkShared a u (if running a then Asleep else Exited))
  | TimerWake, u, Asleep => enter a u Advancing
  | TimerEnd, u, Advancing => match on_timer a with Some a => Fine (MkShared a u Checking) | None => Undefined end
  | _, _, _ => Fine s
  end.
Fixpoint app_loop (s : shared) (xs : list action) : outcome shared :=
  match xs with
  | [] => Fine s
  | x :: xs => match app_step s x with Fine s => app_loop s xs | o => o end
  end.
(** [run]: from the first check of the timer to the [join]. *)
Definition run (a : t C) (xs : list action) : outcome (t C) :=
  match app_loop (start a) xs with Fine s => Fine (with_running (sh_app s) false) | DataRace => DataRace | Undefined => Undefined end.
End run.
Arguments shared C : clear implicits.
Arguments outcome A : clear implicits.
Arguments Fine {A} x.
Arguments DataRace {A}.
Arguments Undefined {A}.
End FtxuiApp.
