(* ===== verification/AppTheorems.v ===== *)
(** * AppTheorems: what the application keeps true, and what it draws

    Strings, bars and the window of the log; the footprints of the controller's
    and the application's calls, by which overlapping calls that do not conflict
    commute; and the runs of the two threads, up to their data race. *)
From Stdlib Require Import Ascii.
From stdpp Require Import pretty.
From S2P Require Import Prelude Core Process Kernel Tui TuiTheorems TuiSafe Screen App.
Import FtxuiApp.
Local Open Scope Z_scope.

(** ** Strings of a width *)
Lemma string_length_app (s1 s2 : string) : String.length (s1 +:+ s2) = (String.length s1 + String.length s2)%nat.
Proof. induction s1 as [|c s1 IH]; [done|]. simpl. by rewrite IH. Qed.
Lemma length_padRight s w : String.length (padRight s w) = max w (String.length s).
Proof.
  unfold padRight. assert (∀ n, String.length (Nat.iter n (λ s, s +:+ " ") s) = (String.length s + n)%nat) as ->; [|lia].
  induction n as [|n IH]; simpl; [lia|]. rewrite string_length_app, IH. simpl. lia.
Qed.
Lemma length_padLeft s w : String.length (padLeft s w) = max w (String.length s).
Proof.
  unfold padLeft. assert (∀ n, String.length (Nat.iter n (λ s, " " +:+ s) s) = (String.length s + n)%nat) as ->; [|lia].
  induction n as [|n IH]; simpl; [lia|]. rewrite string_length_app, IH. simpl. lia.
Qed.
Lemma repeated_length n c : 0 ≤ n → ∃ s, repeated n c = Some s ∧ String.length s = Z.to_nat n.
Proof.
  intros Hn. unfold repeated. rewrite (proj2 (Z.ltb_ge _ _)) by lia. eexists. split; [done|].
  induction (Z.to_nat n) as [|m IH]; simpl; congruence.
Qed.

(** ** The two bars *)
Lemma usage_filled_range used total :
  (used ≤ total)%nat → (0 < total)%nat → Z.of_nat total * 20 < 2 ^ 64 → 0 ≤ usage_filled used total ≤ 20.
Proof.
  intros Hu Ht Hb. unfold usage_filled. rewrite u64_small by lia.
  assert (0 ≤ Z.of_nat used * 20 / Z.of_nat total ≤ 20) as Hq.
  { split; [apply Z.div_pos; lia|]. apply Z.div_le_upper_bound; lia. }
  rewrite i32_small by (unfold is_i32, INT_MIN, INT_MAX; lia). done.
Qed.
Lemma usage_bar_width filled : 0 ≤ filled ≤ 20 → ∃ bar, usage_bar filled = Some bar ∧ String.length bar = 20%nat.
Proof.
  intros Hf. unfold usage_bar. destruct (repeated_length filled "#"%char) as (s1 & -> & H1); [lia|].
  destruct (repeated_length (20 - filled) "."%char) as (s2 & -> & H2); [lia|]. simpl.
  eexists. split; [done|]. rewrite string_length_app, H1, H2. lia.
Qed.
Lemma used_of_le total free : (used_of total free ≤ total)%nat.
Proof. unfold used_of. case_match; lia. Qed.

Lemma history_filled_range cursor total :
  (cursor < total)%nat ∨ total = 0%nat → Z.of_nat total * 40 < 2 ^ 64 → 0 ≤ history_filled cursor total ≤ 40.
Proof.
  intros Hc Hb. unfold history_filled. destruct (Nat.ltb_spec 1 total); [|lia]. destruct Hc as [Hc|]; [|lia].
  rewrite !u64_small by lia.
  assert (0 ≤ Z.of_nat cursor * 40 / (Z.of_nat total - 1) ≤ 40) as Hq.
  { split; [apply Z.div_pos; lia|]. apply Z.div_le_upper_bound; lia. }
  rewrite i32_small by (unfold is_i32, INT_MIN, INT_MAX; lia). lia.
Qed.
Lemma history_bar_width filled : 0 ≤ filled ≤ 40 → ∃ bar, history_bar filled = Some bar ∧ String.length bar = 40%nat.
Proof.
  intros Hf. unfold history_bar. destruct (repeated_length filled "="%char) as (s1 & -> & H1); [lia|].
  destruct (repeated_length (Z.max 0 (40 - filled - 1)) " "%char) as (s2 & -> & H2); [lia|]. simpl.
  eexists. split; [done|]. rewrite string_length_app, H2. destruct (Z.ltb_spec filled 40); [rewrite string_length_app, H1; simpl; lia|].
  rewrite H1. lia.
Qed.

(** ** A frame can always be drawn *)
Section frame.
Context `{HF : Ftxui}.

Lemma memory_panel_defined snap : sane snap → is_Some (buildMemoryPanel snap).
Proof.
  intros Hs. unfold buildMemoryPanel, sane, physical_rows in *. destruct (ui_totalFrames (ui_memory snap)) as [total|]; [|by eexists].
  destruct (Nat.ltb_spec 0 total); [|by eexists].
  destruct (usage_bar_width _ (usage_filled_range _ _ (used_of_le total (default 0%nat (ui_freeFrames (ui_memory snap)))) H Hs))
    as (bar & -> & _). by eexists.
Qed.
Lemma history_panel_defined cursor total :
  (cursor < total)%nat ∨ total = 0%nat → Z.of_nat total * 40 < 2 ^ 64 → is_Some (buildHistoryBar cursor total).
Proof.
  intros Hc Hb. unfold buildHistoryBar. destruct (history_bar_width _ (history_filled_range _ _ Hc Hb)) as (bar & -> & _). by eexists.
Qed.
End frame.

(** ** The log's window *)
Lemma max_offset_eq total : max_offset total = (total - 5)%nat.
Proof. unfold max_offset, kVisibleKernelLogRows. destruct (Nat.ltb_spec 5 total); lia. Qed.

(** The panel shows the last five lines, moved up by the scroll position. *)
Lemma visible_window lines off :
  visible_lines lines off = take 5 (drop (length lines - 5 - min off (length lines - 5)) lines).
Proof.
  unfold visible_lines, log_end, log_start, log_offset. rewrite max_offset_eq. unfold kVisibleKernelLogRows.
  destruct (Nat.ltb_spec 5 (length lines)) as [Hl|Hl].
  - f_equal. lia.
  - replace (length lines - 5)%nat with 0%nat by lia. cbn [Nat.sub]. by rewrite !drop_0, !take_ge by lia.
Qed.

Section scroll.
Context {C : Type} `{HC : !ITuiController C}.
Implicit Types a : t C.

Lemma scroll_keeps a logs : kernelLogs (scrollKernelLogsUp a logs) logs = kernelLogs a logs ∧ kernelLogs (scrollKernelLogsDown a) logs = kernelLogs a logs.
Proof. unfold scrollKernelLogsUp, scrollKernelLogsDown. split; by case_match. Qed.
Lemma scroll_up_offset a logs :
  (kernelLogOffsetFromBottom a ≤ length (kernelLogs a logs) - 5)%nat →
  kernelLogOffsetFromBottom (scrollKernelLogsUp a logs) = min (S (kernelLogOffsetFromBottom a)) (length (kernelLogs a logs) - 5).
Proof.
  intros Ho. unfold scrollKernelLogsUp. rewrite max_offset_eq.
  destruct (Nat.ltb_spec (kernelLogOffsetFromBottom a) (length (kernelLogs a logs) - 5)); cbn [kernelLogOffsetFromBottom with_offset]; lia.
Qed.
Lemma scroll_down_offset a : kernelLogOffsetFromBottom (scrollKernelLogsDown a) = (kernelLogOffsetFromBottom a - 1)%nat.
Proof. unfold scrollKernelLogsDown. case_match eqn:E; [done|]. apply Nat.ltb_ge in E. lia. Qed.

Lemma scroll_up_n a logs n :
  let a' := Nat.iter n (λ a, scrollKernelLogsUp a logs) a in
  kernelLogs a' logs = kernelLogs a logs ∧
  ((kernelLogOffsetFromBottom a ≤ length (kernelLogs a logs) - 5)%nat →
   kernelLogOffsetFromBottom a' = min (kernelLogOffsetFromBottom a + n) (length (kernelLogs a logs) - 5)).
Proof.
  induction n as [|n [IH1 IH2]]; simpl; [split; [done|lia]|]. rewrite (proj1 (scroll_keeps _ _)). split; [done|].
  intros Ho. specialize (IH2 Ho). rewrite scroll_up_offset; rewrite IH1, IH2; lia.
Qed.
Lemma scroll_down_n a logs n :
  let a' := Nat.iter n scrollKernelLogsDown a in
  kernelLogs a' logs = kernelLogs a logs ∧ kernelLogOffsetFromBottom a' = (kernelLogOffsetFromBottom a - n)%nat.
Proof.
  induction n as [|n [IH1 IH2]]; simpl; [split; [done|lia]|]. rewrite (proj2 (scroll_keeps _ logs)). split; [done|].
  rewrite scroll_down_offset, IH2. lia.
Qed.

(** Every line of the log can be scrolled to, and never more than five are shown. *)
Lemma every_line_shown a logs i line :
  kernelLogs a logs !! i = Some line →
  ∃ down up, let a' := Nat.iter up (λ a, scrollKernelLogsUp a logs) (Nat.iter down scrollKernelLogsDown a) in
    line ∈ visible_lines (kernelLogs a' logs) (kernelLogOffsetFromBottom a') ∧
    (length (visible_lines (kernelLogs a' logs) (kernelLogOffsetFromBottom a')) ≤ 5)%nat.
Proof.
  intros Hi. set (L := kernelLogs a logs) in *. pose proof (lookup_lt_Some _ _ _ Hi) as Hlt.
  exists (kernelLogOffsetFromBottom a), (length L - 5 - i)%nat. cbv zeta.
  destruct (scroll_down_n a logs (kernelLogOffsetFromBottom a)) as [D1 D2]. set (a1 := Nat.iter _ scrollKernelLogsDown a) in *.
  destruct (scroll_up_n a1 logs (length L - 5 - i)) as [U1 U2]. rewrite U1, D1, visible_window, length_take. fold L. split; [|lia].
  rewrite U2 by lia. rewrite D1, D2. fold L. apply list_elem_of_lookup.
  exists (i - (length L - 5 - (length L - 5 - i)))%nat. rewrite lookup_take_lt, lookup_drop by lia. rewrite <-Hi. f_equal. lia.
Qed.
End scroll.

(** ** Footprints: what a call touches

    [overlay ws d c] is [c] with the members [ws] of [d].  A call has a footprint
    when it changes only the members it writes, and what it answers and writes
    depends only on the members it touches. *)
Section footprint.
Context {K : Type} `{HK : !ITuiKernel K}.
Implicit Types (c d e : TuiController.t K) (A B : accesses).

Definition part (m : member) : Type :=
  match m with
  | MKernel => K | MHistory => HistoryBuffer.t TuiHistoryEntry | MCurrent => TuiSnapshot
  | MPlayback => TuiPlaybackConfig | MState => TuiControllerState | MAccumulated => Z | MNext => Z
  end.
Definition get c (m : member) : part m :=
  match m with
  | MKernel => TuiController.kernel c | MHistory => TuiController.history c | MCurrent => TuiController.current c
  | MPlayback => TuiController.playback c | MState => TuiController.state c
  | MAccumulated => TuiController.accumulatedMs c | MNext => TuiController.nextSequence c
  end.
Definition overlay (ws : list member) d c : TuiController.t K :=
  let pick {T} (m : member) (x y : T) : T := if bool_decide (m ∈ ws) then x else y in
  TuiController.Mk (pick MKernel (TuiController.kernel d) (TuiController.kernel c))
    (pick MHistory (TuiController.history d) (TuiController.history c))
    (pick MCurrent (TuiController.current d) (TuiController.current c))
    (pick MPlayback (TuiController.playback d) (TuiController.playback c))
    (pick MState (TuiController.state d) (TuiController.state c))
    (pick MAccumulated (TuiController.accumulatedMs d) (TuiController.accumulatedMs c))
    (pick MNext (TuiController.nextSequence d) (TuiController.nextSequence c)).
Lemma get_overlay ws d c m : get (overlay ws d c) m = if bool_decide (m ∈ ws) then get d m else get c m.
Proof. by destruct m. Qed.
Lemma get_ext c d : (∀ m, get c m = get d m) → c = d.
Proof.
  intros H. destruct c, d. pose proof (H MKernel). pose proof (H MHistory). pose proof (H MCurrent).
  pose proof (H MPlayback). pose proof (H MState). pose proof (H MAccumulated). pose proof (H MNext). simpl in *. by subst.
Qed.
Definition agree (ms : list member) c d : Prop := ∀ m, m ∈ ms → get c m = get d m.
Definition touched A : list member := acc_reads A ++ acc_writes A.

Definition footprint {X} (f : TuiController.t K → option (X * TuiController.t K)) A c : Prop :=
  ∀ c', agree (touched A) c c' → f c' = let! (x, d) := f c in Some (x, overlay (acc_writes A) d c').

(** Compare two controllers member by member. *)
Ltac by_member :=
  apply get_ext; intros m; rewrite ?get_overlay; repeat case_bool_decide; try done; try set_solver.

Lemma agree_refl ms c : agree ms c c.
Proof. done. Qed.
Lemma agree_app l1 l2 c d : agree (l1 ++ l2) c d ↔ agree l1 c d ∧ agree l2 c d.
Proof. unfold agree. set_solver. Qed.
(** A call leaves what it does not write. *)
Lemma footprint_frame {X} (f : _ → option (X * _)) A c x d m :
  footprint f A c → f c = Some (x, d) → m ∉ acc_writes A → get d m = get c m.
Proof.
  intros Hf Hc Hm. pose proof (Hf c (agree_refl _ c)) as H. rewrite Hc in H. simpl in H. injection H as H.
  rewrite H, get_overlay. by case_bool_decide.
Qed.

Lemma footprint_bind {X Y} (f : _ → option (X * _)) (g : X → _ → option (Y * _)) A (B : X → _ → accesses) c :
  footprint f A c → (∀ x d, f c = Some (x, d) → footprint (g x) (B x d) d) →
  footprint (λ c, let! (x, d) := f c in g x d)
    (both A match f c with Some (x, d) => B x d | None => no_access end) c.
Proof.
  intros Hf Hg c' Ha. destruct (f c) as [[x d]|] eqn:E.
  - specialize (Hg x d eq_refl). set (Bx := B x d) in *.
    assert (agree (touched A) c c') as HaA by (unfold agree, touched in *; simpl in Ha; set_solver).
    pose proof (Hf c' HaA) as Hc'. rewrite E in Hc'. simpl in Hc'. rewrite Hc'. cbn.
    rewrite (Hg (overlay (acc_writes A) d c')).
    + destruct (g x d) as [[y e]|] eqn:Eg; [|done]. cbn. do 2 f_equal. apply get_ext. intros m.
      rewrite !get_overlay. simpl.
      destruct (decide (m ∈ acc_writes Bx)); [rewrite !bool_decide_true by set_solver; done|].
      rewrite bool_decide_false by done. case_bool_decide; case_bool_decide; try set_solver.
      by rewrite (footprint_frame (g x) Bx d y e m Hg Eg).
    + intros m Hm. rewrite get_overlay. case_bool_decide as Hw; [done|].
      rewrite (footprint_frame f A c x d m Hf E Hw). apply Ha. unfold touched in *. simpl. set_solver.
  - rewrite (Hf c'), E by (unfold agree, touched in *; simpl in Ha; set_solver). done.
Qed.
(** A call that first looks at [R] to choose what to do. *)
Lemma footprint_choose {X} (f g : _ → option (X * _)) R A c :
  (∀ c', agree R c c' → f c' = g c') → footprint g A c → footprint f (both (MkAccesses R []) A) c.
Proof.
  intros Hfg Hg c' Ha. unfold touched in Ha. simpl in Ha.
  rewrite (Hfg c'), (Hfg c (agree_refl _ c)) by (unfold agree in *; set_solver).
  apply Hg. unfold agree, touched in *. set_solver.
Qed.
Lemma footprint_pure {X} (x : X) c : footprint (λ c, Some (x, c)) no_access c.
Proof. intros c' _. cbn. do 2 f_equal. by_member. Qed.
Lemma footprint_ext {X} (f g : _ → option (X * _)) A c : (∀ c, f c = g c) → footprint g A c → footprint f A c.
Proof. intros Hfg Hg c' Ha. rewrite !Hfg. by apply Hg. Qed.

(** Two calls that do not conflict can be finished in either order. *)
Lemma no_conflict A B m :
  conflict A B = false → m ∈ acc_writes A → m ∉ touched B.
Proof.
  unfold conflict, meets. rewrite orb_false_iff. intros [H1 _] Hm Hb.
  apply not_true_iff_false in H1. apply H1, existsb_exists. exists m. split; [by apply list_elem_of_In|].
  by apply bool_decide_eq_true.
Qed.
Lemma conflict_sym A B : conflict A B = false → conflict B A = false.
Proof.
  unfold conflict, meets. rewrite !orb_false_iff, <-!not_true_iff_false, !existsb_exists.
  setoid_rewrite bool_decide_eq_true. setoid_rewrite <-list_elem_of_In. set_solver.
Qed.
Lemma footprints_commute {X Y} (f : _ → option (X * _)) (g : _ → option (Y * _)) A B c :
  footprint f A c → footprint g B c → conflict A B = false →
  (let! (x, d) := f c in let! (y, e) := g d in Some (x, y, e)) =
  (let! (y, e) := g c in let! (x, d) := f e in Some (x, y, d)).
Proof.
  intros Hf Hg Hn. pose proof (conflict_sym _ _ Hn) as Hn'.
  assert (∀ x d, f c = Some (x, d) → g d = let! (y, e) := g c in Some (y, overlay (acc_writes B) e d)) as H1.
  { intros x d E. apply Hg. intros m Hm. symmetry. apply (footprint_frame f A c x d m Hf E). intros Hw.
    by apply (no_conflict A B m Hn Hw). }
  assert (∀ y e, g c = Some (y, e) → f e = let! (x, d) := f c in Some (x, overlay (acc_writes A) d e)) as H2.
  { intros y e E. apply Hf. intros m Hm. symmetry. apply (footprint_frame g B c y e m Hg E). intros Hw.
    by apply (no_conflict B A m Hn' Hw). }
  destruct (f c) as [[x d]|] eqn:Ef, (g c) as [[y e]|] eqn:Eg; cbn.
  - rewrite (H1 x d eq_refl), (H2 y e eq_refl). cbn. do 2 f_equal. apply get_ext. intros m. rewrite !get_overlay.
    destruct (decide (m ∈ acc_writes A)) as [Hm|Hm], (decide (m ∈ acc_writes B)) as [Hb|Hb].
    + exfalso. apply (no_conflict A B m Hn Hm). unfold touched. set_solver.
    + by rewrite bool_decide_false, bool_decide_true by done.
    + by rewrite bool_decide_true, bool_decide_false by done.
    + rewrite !bool_decide_false by done.
      rewrite (footprint_frame f A c x d m Hf Ef Hm). by rewrite (footprint_frame g B c y e m Hg Eg Hb).
  - by rewrite (H1 x d eq_refl).
  - by rewrite (H2 y e eq_refl).
  - done.
Qed.
End footprint.

(** The controller's calls. *)
Section calls.
Context {K : Type} `{HK : !ITuiKernel K}.
Import TuiController.
Implicit Types (c d : TuiController.t K).

Ltac seen H m := let E := fresh in pose proof (H m ltac:(unfold touched; simpl; set_solver)) as E; simpl in E.

Lemma capture_footprint c : footprint capture (capture_accesses c) c.
Proof.
  intros c' Ha. unfold capture_accesses in *. unfold capture.
  destruct (captureSnapshot (kernel c)) as [[[s|e] k]|] eqn:E; seen Ha MKernel; rewrite <-H, E; cbn; [|done..].
  seen Ha MNext. seen Ha MHistory. seen Ha MCurrent. destruct c, c'. simpl in *. subst.
  clear Ha. unfold syncCurrentFromCursor.
  destruct (ui_sequence s =? 0); (destruct (HistoryBuffer.append _ _) as [[] h]; cbn; [|done]);
    by destruct (HistoryBuffer.current h) as [[]|].
Qed.
Lemma ticked_footprint (step : nat) c :
  footprint (λ c, let! (r, k) := tui_tick (kernel c) step in Some (r, with_kernel c k)) (MkAccesses [] [MKernel]) c.
Proof. intros c' Ha. seen Ha MKernel. rewrite <-H. by destruct (tui_tick _ _) as [[]|]. Qed.
(** A tick, and the capture after it: of a key, and of the timer. *)
Definition tick_then (after : ErrorCode.t → bool) (step : nat) c : option (Result unit * TuiController.t K) :=
  let! (r, c) := (let! (r, k) := tui_tick (kernel c) step in Some (r, with_kernel c k)) in
  match r with error e => if after e then capture c else Some (error e, c) | ok _ => capture c end.
Lemma tick_footprint after (step : nat) c : footprint (tick_then after step) (tick_accesses after c step) c.
Proof.
  eapply (eq_rect _ (λ A, footprint (tick_then after step) A c)).
  - apply (footprint_bind _
      (λ (r : Result unit) c, match r with error e => if after e then capture c else Some (error e, c) | ok _ => capture c end) _
      (λ (r : Result unit) c, match r with error e => if after e then capture_accesses c else no_access | ok _ => capture_accesses c end)
      c (ticked_footprint step c)).
    intros [] d _; [apply capture_footprint|]. case_match; [apply capture_footprint|apply footprint_pure].
  - unfold tick_accesses. by destruct (tui_tick (kernel c) step) as [[[]]|].
Qed.

Lemma footprint_as {X} (f : _ → option (X * _)) A A' c : footprint f A c → A = A' → footprint f A' c.
Proof. by intros H <-. Qed.
Lemma loop_footprint fuel c : footprint (autoplay_loop fuel) (loop_accesses fuel c) c.
Proof.
  revert c. induction fuel as [|fuel IH]; intros c.
  - eapply (footprint_choose _ (λ d, if accumulatedMs c <? pb_intervalMs (playback c) then Some (ok tt, d) else None)).
    + intros c' Ha. cbn [autoplay_loop]. seen Ha MAccumulated. seen Ha MPlayback. by rewrite H, H0.
    + destruct (_ <? _); [apply footprint_pure|done].
  - set (a := accumulatedMs c). set (i := pb_intervalMs (playback c)). set (n := pb_step (playback c)).
    apply (footprint_choose _ (λ d, if a <? i then Some (ok tt, d) else
      let! (_, d) := Some (tt, with_accumulated d (a - i)) in
      let! (r, d) := tick_then (λ _, false) n d in
      match r with error e => Some (error e, with_state d Paused) | ok _ => autoplay_loop fuel d end)).
    + intros c' Ha. cbn [autoplay_loop]. seen Ha MAccumulated. seen Ha MPlayback. unfold a, i, n. rewrite H, H0.
      case_match; [done|]. cbn. unfold tick_then, tickAndCapture. cbn. by destruct (tui_tick _ _) as [[[]]|].
    + fold a i n. destruct (a <? i); [apply footprint_pure|].
      apply (footprint_bind (λ d, Some (tt, with_accumulated d (a - i)))
        (λ _ d, let! (r, d) := tick_then (λ _, false) n d in
           match r with error e => Some (error e, with_state d Paused) | ok _ => autoplay_loop fuel d end)
        (MkAccesses [] [MAccumulated])
        (λ _ d, both (tick_accesses (λ _, false) d n)
           match tickAndCapture d n with
           | Some (ok _, c) => loop_accesses fuel c | Some (error _, _) => MkAccesses [] [MState] | None => no_access
           end)); [by intros ??|].
      intros [] d _. eapply footprint_as.
      * apply (footprint_bind _
          (λ (r : Result unit) d, match r with error e => Some (error e, with_state d Paused) | ok _ => autoplay_loop fuel d end) _
          (λ (r : Result unit) d, match r with error _ => MkAccesses [] [MState] | ok _ => loop_accesses fuel d end)
          d (tick_footprint (λ _, false) n d)).
        intros [] d' _; [apply IH|by intros ??].
      * f_equal. unfold tick_then, tickAndCapture. destruct (tui_tick _ _) as [[[] k]|]; cbn; [|done..].
        by destruct (capture _) as [[[]]|].
Qed.
Lemma advance_footprint c ms : footprint (λ c, advanceAutoplay c ms) (advance_accesses c ms) c.
Proof.
  set (turn := λ a p d,
    let d := with_accumulated d (u32 (a + ms)) in autoplay_loop (Z.to_nat (accumulatedMs d / pb_intervalMs p)) d).
  apply (footprint_choose _ (λ d, if decide (state c = Playing) then
    (if (pb_intervalMs (playback d) =? 0) || (pb_step (playback d) =? 0)%nat then Some (error ErrorCode.InvalidState, d)
     else turn (accumulatedMs d) (playback d) d) else Some (ok tt, d))).
  { intros c' Ha. seen Ha MState. by rewrite H. }
  destruct (decide (state c = Playing)) as [Hp|]; [|apply footprint_pure].
  set (p := playback c).
  apply (footprint_choose _ (λ d, if (pb_intervalMs p =? 0) || (pb_step p =? 0)%nat then Some (error ErrorCode.InvalidState, d)
    else turn (accumulatedMs d) p d)).
  { intros c' Ha. seen Ha MPlayback. by rewrite <-H. }
  fold p. destruct (_ || _); [apply footprint_pure|]. set (a := accumulatedMs c).
  apply (footprint_choose _ (turn a p) [MAccumulated] (both (MkAccesses [] [MAccumulated]) _)).
  { intros c' Ha. seen Ha MAccumulated. unfold a. by rewrite H. }
  apply (footprint_bind (λ d, Some (tt, with_accumulated d (u32 (a + ms))))
    (λ _ d, autoplay_loop (Z.to_nat (u32 (a + ms) / pb_intervalMs p)) d) (MkAccesses [] [MAccumulated])
    (λ _ d, loop_accesses (Z.to_nat (u32 (a + ms) / pb_intervalMs p)) d)); [by intros ??|].
  intros [] d _. apply loop_footprint.
Qed.

Ltac seek_err := intros h e h'; unfold HistoryBuffer.seekBackward, HistoryBuffer.seekForward; repeat case_match; intros; by simplify_eq.
Lemma seek_footprint (seek : HistoryBuffer.t TuiHistoryEntry → Result unit * HistoryBuffer.t TuiHistoryEntry) c :
  (∀ h e h', seek h = (error e, h') → h' = h) →
  footprint (λ c, run_seek c (seek (history c))) (seek_accesses (seek (history c))) c.
Proof.
  intros Herr c' Ha. assert (history c = history c') as E by (apply (Ha MHistory); unfold touched, seek_accesses; destruct (seek _).1; set_solver).
  rewrite <-E. destruct (seek (history c)) as [[] h] eqn:Es; simpl in *.
  - seen Ha MCurrent. unfold syncCurrentFromCursor. destruct c, c'. cbn in *. subst.
    by destruct (HistoryBuffer.current h) as [[]|].
  - rewrite (Herr _ _ _ Es). destruct c, c'. simpl in *. by subst.
Qed.
Lemma dispatch_footprint c command : footprint (λ c, dispatch c command) (dispatch_accesses c command) c.
Proof.
  unfold dispatch, dispatch_accesses. destruct (validateCommand command); [|apply footprint_pure].
  destruct (cmd_kind command).
  - apply (footprint_ext _ (tick_then (λ e, bool_decide (e = ErrorCode.NotFound)) (cmd_step command))); [|apply tick_footprint].
    intros d. unfold tick_then. destruct (tui_tick _ _) as [[[]]|]; cbn; [done| |done].
    case_decide; [by rewrite bool_decide_true|by rewrite bool_decide_false].
  - case_match; [by intros ??|apply footprint_pure].
  - by intros ??.
  - eapply footprint_as.
    + apply (footprint_choose _ (λ d, Some (ok tt, if decide (state c = Playing) then with_state d Paused else d)) [MState]
        (MkAccesses [] (if decide (state c = Playing) then [MState] else []))).
      * intros c' Ha. seen Ha MState. by rewrite H.
      * case_decide; [by intros ??|apply footprint_pure].
    + done.
  - apply (seek_footprint (λ h, HistoryBuffer.seekBackward h (cmd_step command))). seek_err.
  - apply (seek_footprint (λ h, HistoryBuffer.seekForward h (cmd_step command))). seek_err.
Qed.
End calls.

(** ** The application's calls *)
Section overlap.
Context `{HF : Ftxui} {K : Type} `{HK : !ITuiKernel K}.
Implicit Types (a : t (TuiController.t K)) (c : TuiController.t K).

(** What is not the controller. *)
Definition rest a : FtxuiAppConfig * Z * nat * bool := (cfg a, currentIntervalMs a, kernelLogOffsetFromBottom a, running a).
(** A function of the application as a call on the controller: it answers the rest. *)
Definition as_call (f : t (TuiController.t K) → option (t (TuiController.t K))) a c :=
  let! b := f (with_controller a c) in Some (rest b, controller b).
Lemma app_eq a a' : rest a = rest a' → controller a = controller a' → a = a'.
Proof. destruct a, a'. unfold rest. simpl. by intros [= -> -> -> ->] ->. Qed.

Lemma send_footprint kind n ms a c :
  footprint (as_call (λ a, send a kind n ms) a) (send_accesses (with_controller a c) kind n ms) c.
Proof.
  intros c' Ha. unfold as_call, send. cbn. rewrite (dispatch_footprint c (MkCommand kind n ms) c' Ha).
  by destruct (TuiController.dispatch c _) as [[]|].
Qed.
Lemma toggle_footprint a c : footprint (as_call togglePlay a) (toggle_accesses (with_controller a c)) c.
Proof.
  apply (footprint_choose _ (as_call (λ a, if decide (TuiController.state c = Playing) then send a Pause 1 (currentIntervalMs a)
    else send a AutoPlayStart (defaultStep (cfg a)) (currentIntervalMs a)) a)).
  - intros c' Ha. unfold as_call, togglePlay. cbn. by rewrite (Ha MState ltac:(set_solver) : TuiController.state c = TuiController.state c').
  - cbn [tc_state tui_controller controller with_controller]. case_decide; apply send_footprint.
Qed.
Lemma restart_footprint a c : footprint (as_call restart a) (restart_accesses (with_controller a c)) c.
Proof.
  apply (footprint_choose _ (as_call (λ a, if decide (TuiController.state c = Playing) then
    let! b := send a AutoPlayStop 1 0 in send b AutoPlayStart (defaultStep (cfg b)) (currentIntervalMs b) else Some a) a)).
  - intros c' Ha. unfold as_call, restart. cbn. by rewrite (Ha MState ltac:(set_solver) : TuiController.state c = TuiController.state c').
  - cbn [tc_state tui_controller controller with_controller]. case_decide; [|by intros ??; apply footprint_pure].
    apply (footprint_ext _ (λ c, let! (_, c) := as_call (λ a, send a AutoPlayStop 1 0) a c in
      as_call (λ a, send a AutoPlayStart (defaultStep (cfg a)) (currentIntervalMs a)) a c)).
    { intros d. unfold as_call, send. cbn [tc_dispatch tui_controller controller with_controller].
      by destruct (TuiController.dispatch d _) as [[]|]. }
    eapply footprint_as.
    + apply (footprint_bind _ (λ _, as_call (λ a, send a AutoPlayStart (defaultStep (cfg a)) (currentIntervalMs a)) a) _
        (λ _ d, send_accesses (with_controller a d) AutoPlayStart (defaultStep (cfg a)) (currentIntervalMs a)) c
        (send_footprint AutoPlayStop 1 0 a c)).
      intros x d _. apply send_footprint.
    + unfold as_call, send. cbn [tc_dispatch tui_controller controller with_controller].
      by destruct (TuiController.dispatch c _) as [[]|].
Qed.
Lemma frame_footprint a c logs : footprint (as_call (λ a, handle a (UFrame logs)) a) (acc_view (C:=TuiController.t K)) c.
Proof.
  intros c' Ha. unfold as_call, handle, buildFrame. cbn.
  rewrite <-(Ha MCurrent ltac:(set_solver) : TuiController.current c = TuiController.current c'), <-(Ha MState ltac:(set_solver) : TuiController.state c = TuiController.state c').
  assert (TuiController.history c = TuiController.history c') as E by (apply (Ha MHistory); set_solver).
  unfold TuiController.historyCursor, TuiController.historySize. rewrite <-E.
  destruct (buildMemoryPanel _) as [m|]; [|done]. cbn. destruct (buildHistoryBar _ _); [|done]. cbn. do 2 f_equal.
  by destruct c'.
Qed.

Lemma event_footprint a c e logs :
  footprint (as_call (λ a, handle a (UEvent e logs)) a) (event_accesses (with_controller a c) e) c.
Proof.
  assert (∀ f (b : bool) (x y : t (TuiController.t K) → option (bool * t (TuiController.t K))) A B,
    (∀ a, f a = let! (_, d) := if b then x a else y a in Some d) →
    footprint (as_call (λ a, let! (_, d) := x a in Some d) a) A c →
    footprint (as_call (λ a, let! (_, d) := y a in Some d) a) B c →
    footprint (as_call f a) (if b then A else B) c) as Hif.
  { intros f b x y A B Hf Hx Hy. eapply footprint_ext; [intros d; unfold as_call; rewrite Hf; reflexivity|].
    destruct b; [exact Hx|exact Hy]. }
  assert (∀ f A, footprint (as_call f a) A c →
    footprint (as_call (λ a, let! (_, d) := (let! d := f a in Some (true, d)) in Some d) a) A c) as Hused.
  { intros f A Hf. eapply footprint_ext; [|exact Hf]. intros d. unfold as_call. by destruct (f _). }
  unfold event_accesses, handle, on_event. cbv zeta.
  eapply Hif; [reflexivity|by intros []|].
  eapply Hif; [reflexivity|by apply Hused, toggle_footprint|].
  do 5 (eapply Hif; [reflexivity|by apply Hused, send_footprint|]).
  eapply Hif; [reflexivity|exact (Hused _ _ (restart_footprint
    (with_interval a (Z.max (minIntervalMs (cfg a)) (currentIntervalMs a / 2))) c))|].
  eapply Hif; [reflexivity|exact (Hused _ _ (restart_footprint
    (with_interval a (Z.min (maxIntervalMs (cfg a)) (u32 (currentIntervalMs a * 2)))) c))|].
  intros d _. unfold as_call, scrollKernelLogsUp, scrollKernelLogsDown, kernelLogs.
  cbn [cfg kernelLogOffsetFromBottom with_controller]. destruct d.
  repeat match goal with |- context [if ?b then _ else _] => destruct b end; done.
Qed.
Lemma handle_footprint a u : footprint (as_call (λ a, handle a u) a) (ui_accesses a u) (controller a).
Proof.
  destruct u as [e logs|logs]; [|apply frame_footprint].
  replace (ui_accesses a (UEvent e logs)) with (event_accesses (with_controller a (controller a)) e) by by destruct a.
  apply event_footprint.
Qed.
Lemma timer_footprint a : footprint (as_call on_timer a) (timer_accesses a) (controller a).
Proof.
  intros c' Ha. unfold as_call, on_timer.
  cbn [tc_advanceAutoplay tui_controller controller cfg with_controller].
  rewrite (advance_footprint (controller a) _ c' Ha). by destruct (TuiController.advanceAutoplay (controller a) _) as [[]|].
Qed.

Lemma send_cfg a b kind n ms : send a kind n ms = Some b → cfg b = cfg a.
Proof. unfold send. destruct (tc_dispatch _ _) as [[]|]; [|done]. by intros [= <-]. Qed.
Lemma handle_cfg a b u : handle a u = Some b → cfg b = cfg a.
Proof.
  assert (∀ a b, restart a = Some b → cfg b = cfg a) as Hrestart.
  { intros x y. unfold restart. case_decide; [|by intros [= <-]].
    destruct (send x AutoPlayStop 1 0) as [z|] eqn:E; [|done]. cbn. intros Hz. by rewrite (send_cfg _ _ _ _ _ Hz), (send_cfg _ _ _ _ _ E). }
  destruct u as [e logs|logs]; cbn [handle].
  - assert (∀ (c : bool) (x y : option (bool * t (TuiController.t K))), (∀ r b, x = Some (r, b) → cfg b = cfg a) → (∀ r b, y = Some (r, b) → cfg b = cfg a) →
      ∀ (r : bool) b, (if c then x else y) = Some (r, b) → cfg b = cfg a) as Hif by (intros []; naive_solver).
    assert (∀ o : option (t (TuiController.t K)), (∀ b, o = Some b → cfg b = cfg a) → ∀ (r : bool) b, (let! d := o in Some (true, d)) = Some (r, b) → cfg b = cfg a) as Hused.
    { intros [d|] H r x; [|done]. intros [= _ <-]. by apply H. }
    enough (∀ r b, on_event a e logs = Some (r, b) → cfg b = cfg a) as H.
    { destruct (on_event a e logs) as [[r d]|] eqn:E; [|done]. intros [= <-]. by apply (H r). }
    unfold on_event. cbv zeta. apply Hif; [by intros ?? [= _ <-]|].
    apply Hif; [apply Hused; unfold togglePlay; case_decide; intros ?; apply send_cfg|].
    do 5 (apply Hif; [apply Hused; intros ?; apply send_cfg|]).
    do 2 (apply Hif; [apply Hused; intros x Hx; by apply Hrestart in Hx|]).
    unfold scrollKernelLogsUp, scrollKernelLogsDown.
    do 2 (apply Hif; [case_match; by intros ?? [= _ <-]|]). by intros ?? [= _ <-].
  - unfold buildFrame. destruct (buildMemoryPanel _); [|done]. cbn. destruct (buildHistoryBar _ _); [|done]. cbn. by intros [= <-].
Qed.
Lemma as_call_here (f : t (TuiController.t K) → option (t (TuiController.t K))) a :
  as_call f a (controller a) = (λ b, (rest b, controller b)) <$> f a.
Proof. unfold as_call. replace (with_controller a (controller a)) with a by by destruct a. by destruct (f a). Qed.
(** A turn of the timer looks at the configuration and moves the controller. *)
Lemma on_timer_eq a b : cfg b = cfg a →
  on_timer b = (λ xd, with_controller b xd.2) <$> as_call on_timer a (controller b).
Proof.
  intros E. unfold as_call, on_timer. cbn [controller cfg with_controller]. rewrite E.
  by destruct (tc_advanceAutoplay _ _) as [[]|].
Qed.

(** A call and a turn of the timer that overlap without a race end in either
    order with the same result. *)
Lemma ends_commute a u :
  races a (Some u) Advancing = false →
  (let! b := handle a u in on_timer b) = (let! b := on_timer a in handle b u).
Proof.
  intros Hr. pose proof (footprints_commute _ _ _ _ _ (handle_footprint a u) (timer_footprint a) Hr) as H.
  rewrite !as_call_here in H.
  assert ((let! b := handle a u in on_timer b) =
    let! b := handle a u in (λ xd, with_controller b xd.2) <$> as_call on_timer a (controller b)) as ->.
  { destruct (handle a u) as [b|] eqn:E; [|done]. cbn. apply on_timer_eq. by apply (handle_cfg a b u). }
  destruct (on_timer a) as [d|] eqn:Et; cbn in H |- *.
  - assert (d = with_controller a (controller d)) as Hd.
    { pose proof (on_timer_eq a a eq_refl) as H0. rewrite Et, as_call_here, Et in H0. by injection H0. }
    assert (as_call (λ a, handle a u) a (controller d) = (λ b, (rest b, controller b)) <$> handle d u) as E.
    { unfold as_call. rewrite <-Hd. by destruct (handle d u). }
    rewrite E in H. destruct (handle a u) as [b|], (handle d u) as [b'|]; cbn in H |- *; try done.
    + destruct (as_call on_timer a (controller b)) as [[y e]|]; [|done]. 
      assert (rest b = rest b' ∧ e = controller b') as [H1 H2]
        by (injection H; intros; unfold rest; split; congruence). simpl.
      f_equal. apply app_eq; [|exact H2]. rewrite <-H1. by destruct b.
    + by destruct (as_call on_timer a (controller b)) as [[]|].
  - destruct (handle a u) as [b|]; [|done]. cbn in H |- *. by destruct (as_call on_timer a (controller b)) as [[]|].
Qed.
End overlap.

(** ** The application over a lawful kernel *)
Section app.
Context `{HF : Ftxui} {K : Type} `{HK : !ITuiKernel K} `{HL : !LawfulTuiKernel K}.
Context (k0 : K) (Hk0 : tk_inv k0) (cap : nat) (Hcap : Z.of_nat cap * 40 < 2 ^ 64).
Implicit Types (a : t (TuiController.t K)) (c : TuiController.t K).

(** A configuration whose speeds make sense and whose times do not wrap. *)
Record config_ok (g : FtxuiAppConfig) : Prop := {
  co_min : 0 < minIntervalMs g;
  co_default : minIntervalMs g ≤ defaultIntervalMs g ≤ maxIntervalMs g;
  co_double : 2 * maxIntervalMs g < 2 ^ 32;
  co_step : defaultStep g ≠ 0%nat;
  co_frame : 0 ≤ frameIntervalMs g ∧ maxIntervalMs g + frameIntervalMs g < 2 ^ 32
}.

(** The speed is in range and, while it plays, the controller's. *)
Record in_step (g : FtxuiAppConfig) a : Prop := {
  is_cfg : cfg a = g;
  is_ctl : ctl_wf k0 cap (controller a);
  is_speed : minIntervalMs g ≤ currentIntervalMs a ≤ maxIntervalMs g;
  is_playing : TuiController.state (controller a) = Playing →
    TuiController.playback (controller a) = MkPlayback (currentIntervalMs a) (defaultStep g) ∧
    0 ≤ TuiController.accumulatedMs (controller a) < currentIntervalMs a
}.
Definition still (g : FtxuiAppConfig) (o : option (t (TuiController.t K))) : Prop :=
  match o with Some a' => in_step g a' | None => tick_stuck k0 end.

Lemma send_fine g a kind n ms :
  config_ok g → cfg a = g → ctl_wf k0 cap (controller a) → minIntervalMs g ≤ currentIntervalMs a ≤ maxIntervalMs g →
  validateCommand (MkCommand kind n ms) = ok tt →
  match send a kind n ms with
  | Some a' => ∃ c', a' = with_controller a c' ∧ ctl_wf k0 cap c' ∧ obeys (MkCommand kind n ms) (controller a) c'
  | None => tick_stuck k0
  end.
Proof.
  intros Hg Hcf Hc Hs Hv. unfold send. cbn [tc_dispatch tui_controller].
  pose proof (dispatch_fine k0 Hk0 cap (controller a) _ Hc Hv) as Hd.
  destruct (TuiController.dispatch _ _) as [[r c']|]; [|done]. destruct Hd. by exists c'.
Qed.

(** Starting puts the controller at the application's speed. *)
Lemma start_fine g a :
  config_ok g → cfg a = g → ctl_wf k0 cap (controller a) → minIntervalMs g ≤ currentIntervalMs a ≤ maxIntervalMs g →
  still g (send a AutoPlayStart (defaultStep (cfg a)) (currentIntervalMs a)).
Proof.
  intros Hg Hcf Hc Hs. pose proof (send_fine g a AutoPlayStart (defaultStep (cfg a)) (currentIntervalMs a) Hg Hcf Hc Hs) as Hsend.
  destruct Hg as [Hmin Hdef Hdbl Hst Hfr]. assert (validateCommand (MkCommand AutoPlayStart (defaultStep (cfg a)) (currentIntervalMs a)) = ok tt) as Hv.
  { unfold validateCommand. simpl. rewrite Hcf, (proj2 (Nat.eqb_neq _ _)), (proj2 (Z.eqb_neq _ _)) by lia. done. }
  specialize (Hsend Hv). destruct (send _ _ _ _) as [a'|]; [|done]. destruct Hsend as (c' & -> & Hc' & H1 & H2 & H3).
  split; simpl; [done|done|done|]. intros _. rewrite H2, H3. unfold playbackConfigFromCommand. simpl.
  rewrite Hcf. split; [done|lia].
Qed.
Lemma restart_fine g a :
  config_ok g → cfg a = g → ctl_wf k0 cap (controller a) → minIntervalMs g ≤ currentIntervalMs a ≤ maxIntervalMs g →
  still g (restart a).
Proof.
  intros Hg Hcf Hc Hs. unfold restart. cbn [tc_state tui_controller]. case_decide as Hp; [|by split].
  pose proof (send_fine g a AutoPlayStop 1 0 Hg Hcf Hc Hs eq_refl) as Hsend.
  destruct (send a AutoPlayStop 1 0) as [a'|]; [|done]. destruct Hsend as (c' & -> & Hc' & _).
  by apply start_fine.
Qed.

(** A command that leaves the playback alone. *)
Lemma other_fine g a kind n ms :
  config_ok g → in_step g a → kind = Tick ∨ kind = SeekBackward ∨ kind = SeekForward → n ≠ 0%nat → still g (send a kind n ms).
Proof.
  intros Hg [Hcf Hc Hs Hp] Hk Hn. assert (validateCommand (MkCommand kind n ms) = ok tt) as Hv.
  { unfold validateCommand. destruct Hk as [->|[->| ->]]; simpl; by rewrite (proj2 (Nat.eqb_neq _ _)). }
  pose proof (send_fine g a kind n ms Hg Hcf Hc Hs Hv) as Hsend. destruct (send _ _ _ _) as [a'|]; [|done].
  destruct Hsend as (c' & -> & Hc' & Hob). assert (keeps (controller a) c') as (K1 & K2 & K3).
  { by destruct Hk as [->|[->| ->]]. }
  split; simpl; [done..|]. by rewrite K1, K2, K3.
Qed.
Lemma toggle_fine g a : config_ok g → in_step g a → still g (togglePlay a).
Proof.
  intros Hg [Hcf Hc Hs Hp]. unfold togglePlay. cbn [tc_state tui_controller]. case_decide as Hpl; [|by apply start_fine].
  pose proof (send_fine g a Pause 1 (currentIntervalMs a) Hg Hcf Hc Hs eq_refl) as Hsend.
  destruct (send _ _ _ _) as [a'|]; [|done]. destruct Hsend as (c' & -> & Hc' & Hob). unfold obeys in Hob. simpl in Hob.
  split; simpl; [done..|]. intros Hx. rewrite (Hob Hpl) in Hx. done.
Qed.
Lemma speed_fine g a : config_ok g → in_step g a → still g (speedUp a) ∧ still g (speedDown a).
Proof.
  intros Hg [Hcf Hc Hs Hp]. pose proof Hg as [Hmin Hdef Hdbl Hst Hfr]. unfold speedUp, speedDown. rewrite Hcf.
  pose proof (Z.div_le_upper_bound (currentIntervalMs a) 2 (currentIntervalMs a) ltac:(lia) ltac:(lia)).
  split; apply restart_fine; simpl; try done; [lia|]. rewrite u32_small by lia. lia.
Qed.

Definition handled (g : FtxuiAppConfig) (o : option (bool * t (TuiController.t K))) : Prop :=
  match o with Some (_, a') => in_step g a' | None => tick_stuck k0 end.
Lemma handled_if g (b : bool) o1 o2 : handled g o1 → handled g o2 → handled g (if b then o1 else o2).
Proof. by destruct b. Qed.
Lemma handled_used g o : still g o → handled g (let! x := o in Some (true, x)).
Proof. by destruct o. Qed.

Lemma event_fine g a e logs : config_ok g → in_step g a → handled g (on_event a e logs).
Proof.
  intros Hg Ha. destruct (speed_fine g a Hg Ha) as [Hup Hdn]. pose proof (toggle_fine g a Hg Ha) as Htog.
  assert (∀ o, in_step g (with_offset a o)) as Hof by (intros; destruct Ha; by split).
  unfold on_event. cbv zeta. apply handled_if; [destruct Ha; by split|].
  repeat (apply handled_if; [apply handled_used; first [done|by apply other_fine; auto]|]).
  repeat (apply handled_if; [unfold scrollKernelLogsUp, scrollKernelLogsDown; case_match; [apply Hof|done]|]).
  done.
Qed.
Lemma timer_fine g a : config_ok g → in_step g a → still g (on_timer a).
Proof.
  intros Hg Ha. unfold on_timer. destruct Ha as [Hcf Hc Hs Hp].
  pose proof Hg as [Hmin Hdef Hdbl Hst Hfr]. cbn [tc_advanceAutoplay tui_controller]. rewrite Hcf.
  assert (0 ≤ frameIntervalMs g) as Hfr0 by lia.
  pose proof (advance_fine k0 Hk0 cap (controller a) (frameIntervalMs g) Hc Hfr0) as Had.
  assert (TuiController.state (controller a) = Playing → pb_step (TuiController.playback (controller a)) ≠ 0%nat ∧
    0 ≤ TuiController.accumulatedMs (controller a) < pb_intervalMs (TuiController.playback (controller a)) ∧
    TuiController.accumulatedMs (controller a) + frameIntervalMs g < 2 ^ 32) as Hpre.
  { intros Hpl. destruct (Hp Hpl) as [-> Hac]. simpl. split_and!; [done|lia..]. }
  specialize (Had Hpre). destruct (TuiController.advanceAutoplay _ _) as [[r c']|]; [|done]. destruct Had as [Hc' Hpl'].
  split; simpl; [done..|]. intros Hpl. destruct (Hpl' Hpl) as (H1 & H2 & H3). destruct (Hp H1) as [H4 _].
  rewrite H2, H4 in *. done.
Qed.
Lemma frame_fine g a logs :
  in_step g a → ∃ e a', buildFrame a logs = Some (e, a') ∧ in_step g a' ∧
    (kernelLogOffsetFromBottom a' ≤ length (kernelLogs a' logs) - 5)%nat.
Proof.
  intros [Hcf Hc Hs Hp]. unfold buildFrame. cbn [tc_current tc_historyCursor tc_historySize tc_state tui_controller].
  destruct (memory_panel_defined _ (cw_current _ _ _ Hc)) as [m ->].
  destruct (cw_history _ _ _ Hc) as [H1 H2 H3]. rewrite (cw_capacity _ _ _ Hc) in H2.
  destruct (history_panel_defined (TuiController.historyCursor (controller a)) (TuiController.historySize (controller a))) as [h Hh].
  - unfold TuiController.historyCursor, TuiController.historySize, HistoryBuffer.position, HistoryBuffer.size in *.
    destruct (HistoryBuffer.entries _); [by right|left; by apply H3].
  - unfold TuiController.historySize. lia.
  - unfold normalizeKernelLogOffset. cbv zeta. cbn [controller with_offset]. rewrite Hh. do 2 eexists. split; [done|].
    split; [by split|]. unfold kernelLogs. cbn [kernelLogOffsetFromBottom with_offset cfg]. rewrite max_offset_eq. lia.
Qed.
Lemma handle_fine g a u : config_ok g → in_step g a → still g (handle a u).
Proof.
  intros Hg Ha. destruct u as [e logs|logs]; simpl.
  - pose proof (event_fine g a e logs Hg Ha) as Hev. by destruct (on_event a e logs) as [[]|].
  - by destruct (frame_fine g a logs Ha) as (el & a' & -> & ? & _).
Qed.

(** ** Two threads *)
Implicit Types (s : shared (TuiController.t K)) (x : action).

Definition shared_ok (g : FtxuiAppConfig) s : Prop :=
  in_step g (sh_app s) ∧ races (sh_app s) (sh_ui s) (sh_timer s) = false.
(** The call [u] and a turn of the timer overlap by the action [x], and they race. *)
Definition raced s x (u : ui_call) : Prop :=
  conflict (ui_accesses (sh_app s) u) (timer_accesses (sh_app s)) = true ∧
  (x = UiBegin u ∧ sh_ui s = None ∧ sh_timer s = Advancing ∨ x = TimerWake ∧ sh_ui s = Some u ∧ sh_timer s = Asleep).

Lemma step_fine g s x :
  config_ok g → shared_ok g s →
  match app_step s x with
  | Fine s' => shared_ok g s'
  | DataRace => ∃ u, raced s x u
  | Undefined => tick_stuck k0
  end.
Proof.
  intros Hg Hs. destruct s as [a u t]. pose proof Hs as [Ha Hr]. simpl in Ha, Hr. unfold app_step. simpl.
  destruct x as [v| | | |].
  - destruct u as [u|]; [exact Hs|]. destruct (running a); [|exact Hs]. unfold enter.
    destruct (races a (Some v) t) eqn:E; [|by split]. destruct t; try done. exists v. split; [exact E|by left].
  - destruct u as [u|]; [|exact Hs]. pose proof (handle_fine g a u Hg Ha) as Hh. destruct (handle a u); [by split|done].
  - destruct t; try (by destruct u). split; simpl; [done|]. by destruct u, (running a).
  - destruct t; try (by destruct u). unfold enter. destruct (races a u Advancing) eqn:E; [|by split].
    destruct u as [u|]; [|done]. exists u. split; [exact E|by right].
  - destruct t; try (by destruct u). pose proof (timer_fine g a Hg Ha) as Ht. destruct (on_timer a); [|done].
    split; [done|]. by destruct u.
Qed.
Lemma ends_in_any_order g s : shared_ok g s → app_loop s [UiEnd; TimerEnd] = app_loop s [TimerEnd; UiEnd].
Proof.
  intros [_ Hr]. destruct s as [a [u|] []]; cbn in Hr |- *; try done; try (by destruct (handle a u)); try (by destruct (on_timer a)).
  pose proof (ends_commute a u Hr) as H. destruct (handle a u) as [b|], (on_timer a) as [d|]; cbn in H |- *; try done.
  - rewrite H. by destruct (handle d u).
  - by rewrite H.
  - by rewrite <-H.
Qed.
Lemma loop_fine g xs s :
  config_ok g → shared_ok g s →
  match app_loop s xs with
  | Fine s' => shared_ok g s'
  | DataRace => ∃ xs1 x xs2 s1 u, xs = xs1 ++ x :: xs2 ∧ app_loop s xs1 = Fine s1 ∧ raced s1 x u
  | Undefined => tick_stuck k0
  end.
Proof.
  intros Hg. revert s. induction xs as [|x xs IH]; intros s Hs; [done|]. cbn [app_loop].
  pose proof (step_fine g s x Hg Hs) as Hst. destruct (app_step s x) as [s'| |] eqn:E; [|destruct Hst as [u Hu]; by exists [], x, xs, s, u|done].
  destruct Hst as [Ha Hr]. pose proof (IH s' (conj Ha Hr)) as Hl. destruct (app_loop s' xs) as [s''| |] eqn:El; [done| |done].
  destruct Hl as (xs1 & y & xs2 & s1 & u & -> & H1 & H2). exists (x :: xs1), y, xs2, s1, u.
  split; [done|]. split; [|done]. cbn [app_loop]. by rewrite E.
Qed.
End app.

(** Keys the header of the class documents and the handler does not know. *)
Lemma keys_unanswered {C} `{!ITuiController C} (a : t C) e logs :
  e ∈ [Character "r"%char; Character "s"%char; OtherEvent] → on_event a e logs = Some (false, a).
Proof. rewrite !elem_of_cons, elem_of_nil. by intros [->|[->|[->|[]]]]. Qed.

(** Nothing orders the two threads: the key that starts or pauses, pressed while
    the timer's thread advances the playback, writes the state the other reads. *)
Lemma state_conflict A B : MState ∈ acc_writes A → MState ∈ acc_reads B → conflict A B = true.
Proof.
  intros Ha Hb. unfold conflict, meets. apply orb_true_iff. left. apply existsb_exists. exists MState.
  split; [by apply list_elem_of_In|]. apply bool_decide_eq_true. set_solver.
Qed.
Example space_races `{HF : Ftxui} {K} `{HK : !ITuiKernel K} (a : t (TuiController.t K)) logs :
  defaultStep (cfg a) ≠ 0%nat → currentIntervalMs a ≠ 0 →
  app_loop (start a) [TimerCheck; TimerWake; UiBegin (UEvent (Character " "%char) logs)] = DataRace.
Proof.
  intros Hn Hms.
  enough (races (with_running a true) (Some (UEvent (Character " "%char) logs)) Advancing = true) as H.
  { unfold start, app_loop, app_step, enter. cbn [sh_app sh_ui sh_timer running with_running].
    change (races _ None Advancing) with false. cbv iota. cbn [sh_app sh_ui sh_timer running with_running]. by rewrite H. }
  apply state_conflict.
  - change (ui_accesses _ _) with (toggle_accesses (with_running a true)). unfold toggle_accesses. cbn [acc_writes both].
    rewrite elem_of_app. right. unfold send_accesses. cbn [tc_state acc_dispatch tui_accesses tui_controller controller with_running cfg currentIntervalMs].
    unfold dispatch_accesses, validateCommand. cbn [cmd_kind cmd_step cmd_intervalMs].
    case_decide as Hp; cbn [cmd_kind cmd_step cmd_intervalMs playbackConfigFromCommand validatePlaybackConfig].
    + cbn. repeat case_decide; first [done|set_solver].
    + cbn. destruct (defaultStep (cfg a)); [done|]. cbn. apply Z.eqb_neq in Hms. rewrite Hms.
      unfold validatePlaybackConfig. cbn. rewrite Hms. cbn. set_solver.
  - unfold timer_accesses. cbn. set_solver.
Qed.

