(* ===== verification/Demo.v ===== *)
(** * Demo: [app/main.cpp]

    The demo programs, the kernel the application builds, the processes it
    starts, and [main], which wires the user interface to them. *)
From S2P Require Import Prelude Core Arch Process Policies Scheduler Cpu Paging Mmu VirtualMem.
From S2P Require Import Interp Sync Dispatcher Machine Kernel Builder Tui Screen App.
Local Open Scope Z_scope.

(** ** The programs *)
Definition makeProgramAddOnePlusOne : list Block :=
  [MkBlock Mov 0 1 0; MkBlock Add 0 1 0; MkBlock Halt 0 0 0].
Definition makeProgramCounterLoop : list Block :=
  [MkBlock Mov 0 0 0; MkBlock Add 0 1 0; MkBlock Compare 0 16 0; MkBlock JumpLess 0 1 0; MkBlock Halt 0 0 0].
Definition makeProgramCpuHeavy : list Block :=
  [MkBlock Mov 1 2 0; MkBlock Mov 2 3 0; MkBlock Mul 1 2 1; MkBlock Add 1 7 0; MkBlock Sub 1 1 0;
   MkBlock Compare 1 20 0; MkBlock JumpLess 0 2 0; MkBlock Halt 0 0 0].
Definition makeProgramLongNop (nops : nat) : list Block := replicate nops (MkBlock Nop 0 0 0) ++ [MkBlock Halt 0 0 0].

(** ** [buildDemoKernel] *)
Section demo.
Context `{HO : HashOrder} `{!FloatCast}.

Definition demo_machine : machine PhysicalMemory.t FifoReplacement.t :=
  MkMachine (VirtualMemory_make (Mmu_make (PhysicalMemory.make 64) FifoReplacement.init) 1024) 0 ∅.
Definition demo_dispatcher : dispatcher Policies.policy (machine PhysicalMemory.t FifoReplacement.t) :=
  Dispatcher_make (Scheduler_make (Some (RoundRobin 4))) demo_machine SimulationClock.init.
Definition demo_builder : KernelBuilder.t :=
  let b := KernelBuilder.withClock KernelBuilder.make true in
  let b := KernelBuilder.withMemory b true in
  let b := KernelBuilder.withMmu b true in
  let b := KernelBuilder.withVirtualMemory b true in
  let b := KernelBuilder.withCpu b true in
  let b := KernelBuilder.withExecutionEngine b true in
  let b := KernelBuilder.withScheduler b true in
  let b := KernelBuilder.withDispatcher b true in
  let b := KernelBuilder.withTracer b true in
  let b := KernelBuilder.withFileSystem b true in
  let b := KernelBuilder.withIpcManager b true in
  let b := KernelBuilder.withSyscallTable b true in
  KernelBuilder.withDefaultTickBudget b 1.
Definition buildDemoKernel : Result (kernel Policies.policy (machine PhysicalMemory.t FifoReplacement.t) Mutex.t) :=
  (KernelBuilder.build demo_builder demo_dispatcher SyscallTable.make).1.

(** ** [spawnDemoProcesses] *)
Record Demo := MkDemo { demo_name : string; demo_pri : PriorityLevel; demo_nice : Z; demo_code : list Block }.
Definition demos : list Demo := [
  MkDemo "calc-1-plus-1" Realtime 0 makeProgramAddOnePlusOne;
  MkDemo "counter" High 0 makeProgramCounterLoop;
  MkDemo "worker-1" Normal 0 makeProgramCpuHeavy;
  MkDemo "worker-2" Normal 5 (makeProgramLongNop 24);
  MkDemo "background" Low 10 (makeProgramLongNop 48);
  MkDemo "idle-task" Process.Idle 19 (makeProgramLongNop 96)
].
Definition demo_config (d : Demo) : ProcessConfig :=
  MkProcessConfig INVALID_PID (demo_name d) (demo_code d) (Priority_make (demo_pri d) (demo_pri d) (demo_nice d)) 0.
Fixpoint spawn (ds : list Demo) (k : kernel Policies.policy (machine PhysicalMemory.t FifoReplacement.t) Mutex.t)
    : option (list (Result Z) * kernel Policies.policy (machine PhysicalMemory.t FifoReplacement.t) Mutex.t) :=
  match ds with
  | [] => Some ([], k)
  | d :: ds => let! (r, k) := k_createProcess k (demo_config d) in let! (rs, k) := spawn ds k in Some (r :: rs, k)
  end.
Definition spawnDemoProcesses := spawn demos.

(** ** [main] *)
Definition app_config : FtxuiAppConfig := MkAppConfig 300 1 33 50 2000 true.
(** The kernel with its processes, behind the read model; the results of the
    creations are ignored. *)
Definition spawned : option (list (Result Z) * KernelReadModel.t Policies.policy (machine PhysicalMemory.t FifoReplacement.t) Mutex.t) :=
  match buildDemoKernel with
  | ok k => let! (rs, k) := spawnDemoProcesses k in Some (rs, KernelReadModel.Mk k 0)
  | error _ => None
  end.
(** What the two threads do in a session in, the application's last state out;
    [None] is the exit with "Failed to build kernel". *)
Definition main `{HF : Ftxui} (xs : list FtxuiApp.action) : FtxuiApp.outcome (option (FtxuiApp.t _)) :=
  match buildDemoKernel with
  | error _ => FtxuiApp.Fine None
  | ok _ =>
      match (let! (_, m) := spawned in TuiController.make m 512) with
      | Some c =>
          match FtxuiApp.run (FtxuiApp.make c app_config) xs with
          | FtxuiApp.Fine a => FtxuiApp.Fine (Some a)
          | FtxuiApp.DataRace => FtxuiApp.DataRace
          | FtxuiApp.Undefined => FtxuiApp.Undefined
          end
      | None => FtxuiApp.Undefined
      end
  end.
End demo.
