(* ===== verification/DemoTheorems.v ===== *)
(** * DemoTheorems: the application of [app/main.cpp], run

    The demo kernel obeys the kernel's invariant, so what is proved of kernels
    and of the application holds of it; and one session is evaluated. *)
From Stdlib Require Import Ascii.
From S2P Require Import Prelude Core Arch Process Policies Scheduler Cpu Paging Mmu MmuInvariant MmuProps VirtualMem.
From S2P Require Import Interp Sync Dispatcher DispatcherProps Machine DispatcherTheorems Kernel KernelProps KernelTheorems.
From S2P Require Import Builder KernelView Tui TuiTheorems TuiSafe Screen App AppTheorems Demo.
Local Open Scope Z_scope.

Section demo.
Context `{HO : HashOrder} `{HC : !FloatCast}.

Lemma demo_machine_inv : machine_inv demo_machine.
Proof.
  split; simpl; [|by intros ??|by rewrite map_size_empty; lia].
  apply mmu_wf_make; [vm_compute; done|done|done].
Qed.
Lemma demo_kernel_wf k : buildDemoKernel = ok k → kernel_wf k.
Proof.
  apply (build_wf (KernelBuilder.deps demo_builder) (Some (RoundRobin 4)) demo_machine SimulationClock.init SyscallTable.make 1);
    [apply demo_machine_inv|apply dom_empty_L|intros i h Hi; discriminate Hi].
Qed.
Lemma spawn_wf ds k : kernel_wf k → ∃ rs k', spawn ds k = Some (rs, k') ∧ kernel_wf k' ∧ length rs = length ds.
Proof.
  revert k. induction ds as [|d ds IH]; intros k Hw; cbn [spawn]; [by exists [], k|].
  destruct (create_wf_ok k (demo_config d) Hw) as (r & k1 & -> & Hw1).
  destruct (IH k1 Hw1) as (rs & k2 & -> & Hw2 & Hl). exists (r :: rs), k2. split; [done|]. split; [done|]. simpl. by rewrite Hl.
Qed.

Lemma spawned_ok : ∃ rs m, spawned = Some (rs, m) ∧ kernel_wf (KernelReadModel.observed m).
Proof.
  unfold spawned. destruct buildDemoKernel as [k|] eqn:Hb; [|discriminate Hb].
  destruct (spawn_wf demos k (demo_kernel_wf k Hb)) as (rs & k' & Hs & Hw & _). unfold spawnDemoProcesses. rewrite Hs.
  by exists rs, (KernelReadModel.Mk k' 0).
Qed.
Lemma app_config_ok : config_ok app_config.
Proof. split; simpl; lia. Qed.

(** In whatever order hash tables iterate, the program ends with every session,
    unless the two threads race or a tick of the kernel it built is undefined. *)
Lemma main_ends `{HF : Ftxui} xs :
  ∃ rs m, spawned = Some (rs, m) ∧
    match main xs with
    | FtxuiApp.Fine a => is_Some a
    | FtxuiApp.DataRace => ∃ xs1 x xs2 (s : FtxuiApp.shared (TuiController.t (KernelReadModel.t Policies.policy (machine PhysicalMemory.t FifoReplacement.t) Mutex.t))) u, xs = xs1 ++ x :: xs2 ∧ raced s x u
    | FtxuiApp.Undefined => tick_stuck m
    end.
Proof.
  destruct spawned_ok as (rs & m & Hs & Hw). exists rs, m. split; [done|]. assert (tk_inv m) as Hi by exact Hw.
  destruct (make_ctl m Hi 512) as (c & Hc & Hcw & Hidle & _).
  assert (shared_ok m 512 app_config (FtxuiApp.start (FtxuiApp.make c app_config))) as Ha.
  { split; [|done]. split; cbn; [done|exact Hcw|lia|]. by rewrite Hidle. }
  pose proof (loop_fine m Hi 512 ltac:(lia) app_config xs _ app_config_ok Ha) as Hl.
  unfold main, FtxuiApp.run. rewrite Hs. cbn [mbind option_bind]. rewrite Hc. unfold buildDemoKernel. cbn [build].
  destruct (FtxuiApp.app_loop _ xs) as [s| |]; [by eexists| |done].
  destruct Hl as (xs1 & x & xs2 & s & u & ? & _ & ?). by exists xs1, x, xs2, s, u.
Qed.
End demo.

(** ** A session *)
#[local] Existing Instances demo_order demo_cast.
Notation M := (KernelReadModel.t Policies.policy (machine PhysicalMemory.t FifoReplacement.t) Mutex.t).

(** The texts of a document, in order. *)
#[local] Instance texts : Ftxui := {|
  Element := string; text s := s; hbox := String.concat ""; vbox := String.concat "";
  separator := "|"; window t b := t +:+ b; bold e := e; dim e := e; border e := e; flex e := e; xflex e := e;
  color _ e := e; render_screen _ _ e := e
|}.

(** A key pressed and answered; a turn of the timer. *)
Definition pressed (c : ascii) : list FtxuiApp.action := [FtxuiApp.UiBegin (FtxuiApp.UEvent (Character c) []); FtxuiApp.UiEnd].
Definition turn : list FtxuiApp.action := [FtxuiApp.TimerCheck; FtxuiApp.TimerWake; FtxuiApp.TimerEnd].
(** Play, twice as fast as the start, for [n] turns of the timer; seek while the
    timer sleeps; and a key nobody answers while it advances. *)
Definition session (n : nat) : list FtxuiApp.action :=
  pressed " " ++ pressed "+" ++ concat (replicate n turn) ++ FtxuiApp.TimerCheck :: pressed "H" ++
  [FtxuiApp.UiBegin (FtxuiApp.UEvent (Character "?") []); FtxuiApp.TimerWake].
Definition observe (a : FtxuiApp.t (TuiController.t M)) :=
  let c := FtxuiApp.controller a in
  (TuiController.state c, FtxuiApp.currentIntervalMs a, TuiController.historySize c, TuiController.historyCursor c,
   map (λ r, (ui_id r, ui_name r, ui_cpuTime r)) (ui_processes (TuiController.current c))).

(** The last process the application starts never exists: its 97 cells do not
    fit the 64 frames of the memory, and the result of its creation is ignored. *)
Lemma demo_spawns : fst <$> spawned = Some [ok 1; ok 2; ok 3; ok 4; ok 5; error ErrorCode.OutOfMemory].
Proof. vm_compute. reflexivity. Qed.

Lemma session_result :
  match spawned with
  | Some (_, m) =>
      match TuiController.make m 512 with
      | Some c =>
          match FtxuiApp.app_loop (FtxuiApp.start (FtxuiApp.make c app_config)) (session 600) with
          | FtxuiApp.Fine s => Some (observe (FtxuiApp.sh_app s))
          | _ => None
          end = Some (Paused, 150, 105%nat, 94%nat, [(5, "background", 24)])
      | None => False
      end
  | None => False
  end.
Proof. vm_compute. reflexivity. Qed.

