(* ===== verification/Tracing.v ===== *)
(** * Tracing: [tracing/]

    Events, the sinks that receive them, and the tracer whose scopes nest.  The
    nesting depth is a [static thread_local] of [Tracer::Impl]: one counter per
    host thread, whichever tracer it calls.  The host locks around a sink only
    serialise its calls and are left out. *)
From stdpp Require Import pretty.
From S2P Require Import Prelude Core.
Local Open Scope Z_scope.

(** ** [tracing/trace_level.h], [tracing/trace_event.h] *)
Module TraceLevel.
Inductive t := Debug_ | Info_ | Warn_ | Error_.
#[global] Instance level_eq : EqDecision t.
Proof. solve_decision. Defined.
(** [static_cast<std::uint8_t>]. *)
Definition level_int (l : t) : Z := match l with Debug_ => 0 | Info_ => 1 | Warn_ => 2 | Error_ => 3 end.
End TraceLevel.
Export TraceLevel (Debug_, Info_, Warn_, Error_).
Definition traceLevelToString (l : TraceLevel.t) : string :=
  match l with Debug_ => "debug" | Info_ => "info" | Warn_ => "warn" | Error_ => "error" end.

Record TraceEvent := MkTrace {
  timestamp : Z; subsystem : string; operation : string; details : string; level : TraceLevel.t;
  depth : Z; workerId : nat; sequence : Z; epoch : Z
}.
Definition makeTraceEvent (now : Z) (sub op det : string) (d : Z) (l : TraceLevel.t) : TraceEvent :=
  MkTrace now sub op det l d 0 0 0.

(** ** [ITraceSink] and its implementations *)
Class ITraceSink (S : Type) := sink_write : S → TraceEvent → S.
#[global] Hint Mode ITraceSink ! : typeclass_instances.

(** What [ConsoleSink] and [FileSink] print for an event. *)
Fixpoint indent (n : nat) : string := match n with O => "" | S n => "  " +:+ indent n end.
Definition newline : string := String (Ascii.ascii_of_nat 10) EmptyString.
Definition event_line (e : TraceEvent) : string :=
  "[T=" +:+ pretty (timestamp e) +:+ "][" +:+ traceLevelToString (level e) +:+ "] " +:+
  indent (Z.to_nat (depth e)) +:+
  subsystem e +:+ "::" +:+ operation e +:+
  (if decide (details e = "") then "" else " -> " +:+ details e) +:+ newline.

Module NullSink.
Definition write (s : unit) (_ : TraceEvent) : unit := s.
#[global] Instance sink : ITraceSink unit := write.
End NullSink.

Module BufferSink.
Definition t : Type := list TraceEvent.
Definition make : t := [].
Definition write (s : t) (e : TraceEvent) : t := s ++ [e].
Definition snapshot (s : t) : list TraceEvent := s.
Definition clear (_ : t) : t := [].
Definition size (s : t) : nat := length s.
#[global] Instance sink : ITraceSink t := write.
End BufferSink.

Module ConsoleSink.
(** What went to [std::cout]. *)
Record t := Mk { printed : string }.
Definition make : t := Mk "".
Definition write (s : t) (e : TraceEvent) : t := Mk (printed s +:+ event_line e).
#[global] Instance sink : ITraceSink t := write.
End ConsoleSink.

Module FileSink.
(** The file's contents, [None] when it could not be opened. *)
Record t := Mk { stream : option string }.
Definition make (contents : option string) : t := Mk contents.
Definition write (s : t) (e : TraceEvent) : t :=
  match stream s with
  | None => s
  | Some contents => Mk (Some (contents +:+ event_line e))
  end.
#[global] Instance sink : ITraceSink t := write.
End FileSink.

(** ** [tracing/i_tracer.h]

    A call is made by a host thread; the clock's reading is passed along. *)
Class ITracer (T : Type) := {
  tr_trace : T → TraceEvent → T;
  tr_pushScope : T → nat → Z → string → string → T;
  tr_popScope : T → nat → T;
  tr_currentDepth : T → nat → Z;
  tr_setMinLevel : T → TraceLevel.t → T;
  tr_minLevel : T → TraceLevel.t
}.
#[global] Hint Mode ITracer ! : typeclass_instances.

(** [Tracer::Impl::depth]: the counter of each thread, 0 at first. *)
Definition depths := gmap nat Z.
Definition depth_of (ds : depths) (thread : nat) : Z := default 0 (ds !! thread).

(** ** [tracing/tracer.cpp] *)
Module Tracer.
Section tracer.
Context {S : Type} `{!ITraceSink S}.

(** A tracer together with the depths it shares with all others. *)
Record t := Mk { sink : S; minLevel : TraceLevel.t; counters : depths }.
Definition make (s : S) (ds : depths) : t := Mk s Debug_ ds.

Definition trace (tr : t) (e : TraceEvent) : t :=
  if TraceLevel.level_int (level e) <? TraceLevel.level_int (minLevel tr) then tr
  else Mk (sink_write (sink tr) e) (minLevel tr) (counters tr).
Definition currentDepth (tr : t) (thread : nat) : Z := depth_of (counters tr) thread.
Definition pushScope (tr : t) (thread : nat) (now : Z) (sub op : string) : t :=
  let tr := trace tr (makeTraceEvent now sub op "enter" (currentDepth tr thread) Info_) in
  Mk (sink tr) (minLevel tr) (<[thread := u32 (currentDepth tr thread + 1)]> (counters tr)).
Definition popScope (tr : t) (thread : nat) : t :=
  if currentDepth tr thread =? 0 then tr
  else Mk (sink tr) (minLevel tr) (<[thread := currentDepth tr thread - 1]> (counters tr)).
Definition setMinLevel (tr : t) (l : TraceLevel.t) : t := Mk (sink tr) l (counters tr).

#[global] Instance tracer : ITracer t := {|
  tr_trace := trace; tr_pushScope := pushScope; tr_popScope := popScope; tr_currentDepth := currentDepth;
  tr_setMinLevel := setMinLevel; tr_minLevel := minLevel
|}.
End tracer.
Arguments t : clear implicits.
End Tracer.

(** The constructor's [normalizeSink]: no sink at all is the null sink. *)
#[global] Instance normalizeSink {S} `{!ITraceSink S} : ITraceSink (option S) :=
  λ s e, match s with Some s => Some (sink_write s e) | None => None end.

(** ** [tracing/null_tracer.h] *)
Module NullTracer.
Record t := Mk {}.
#[global] Instance tracer : ITracer t := {|
  tr_trace tr _ := tr; tr_pushScope tr _ _ _ _ := tr; tr_popScope tr _ := tr; tr_currentDepth _ _ := 0;
  tr_setMinLevel tr _ := tr; tr_minLevel _ := Error_
|}.
End NullTracer.

(** ** [tracing/trace_scope.h] *)
Section scope.
Context {T : Type} `{!ITracer T}.

(** A [TraceScope] around [body], and the macro [CONTUR_TRACE_L]. *)
Definition trace_scope (tr : T) (thread : nat) (now : Z) (sub op : string) (body : T → T) : T :=
  tr_popScope (body (tr_pushScope tr thread now sub op)) thread.
Definition trace_l (tr : T) (thread : nat) (now : Z) (l : TraceLevel.t) (sub op det : string) : T :=
  tr_trace tr (makeTraceEvent now sub op det (tr_currentDepth tr thread) l).
End scope.

(** ** The log of [app/main.cpp] *)
Module SharedBufferTraceSink.
(** A sink that is a reference to the shared buffer. *)
Record t := Mk { buffer : BufferSink.t }.
Definition write (s : t) (e : TraceEvent) : t := Mk (BufferSink.write (buffer s) e).
#[global] Instance sink : ITraceSink t := write.
End SharedBufferTraceSink.
Definition formatTraceEventLine (e : TraceEvent) : string :=
  "[" +:+ pretty (timestamp e) +:+ "][" +:+ traceLevelToString (level e) +:+ "] " +:+
  subsystem e +:+ "." +:+ operation e +:+
  (if decide (details e = "") then "" else " :: " +:+ details e).
Definition formatKernelLogs (s : BufferSink.t) : list string := map formatTraceEventLine (BufferSink.snapshot s).
Definition renderKernelTraceDump (s : BufferSink.t) : string :=
  let events := BufferSink.snapshot s in
  newline +:+ "=== Kernel Trace Dump ===" +:+ newline +:+
  foldr (λ e dump, formatTraceEventLine e +:+ newline +:+ dump) "" events +:+
  "=== End Kernel Trace Dump (" +:+ pretty (length events) +:+ " entries) ===" +:+ newline.
