(* ===== verification/TracingTheorems.v ===== *)
(** * TracingTheorems: the trace determines the calls

    Programs of nested scopes, run by any number of host threads on one tracer,
    and the reader that rebuilds a thread's calls from the events it emitted. *)
From S2P Require Import Prelude Core Tracing.
Local Open Scope Z_scope.

(** ** What a thread does: events and scopes in sequence *)
Inductive traced :=
  | Quiet
  | Emit (now : Z) (l : TraceLevel.t) (sub op det : string) (rest : traced)
  | Scope (now : Z) (sub op : string) (body rest : traced).
#[global] Instance traced_eq : EqDecision traced.
Proof. solve_decision. Defined.

Fixpoint seq (p q : traced) : traced :=
  match p with
  | Quiet => q
  | Emit now l sub op det rest => Emit now l sub op det (seq rest q)
  | Scope now sub op body rest => Scope now sub op body (seq rest q)
  end.
Lemma seq_quiet p : seq p Quiet = p.
Proof. induction p; simpl; congruence. Qed.

Fixpoint nesting (p : traced) : Z :=
  match p with
  | Quiet => 0
  | Emit _ _ _ _ _ rest => nesting rest
  | Scope _ _ _ body rest => Z.max (1 + nesting body) (nesting rest)
  end.
Lemma nesting_nonneg p : 0 ≤ nesting p.
Proof. induction p; simpl; lia. Qed.

(** An event must not look like the opening of a scope. *)
Definition opens (l : TraceLevel.t) (det : string) : Prop := det = "enter" ∧ l = Info_.
#[global] Instance opens_dec l det : Decision (opens l det).
Proof. unfold opens. apply _. Defined.
Fixpoint named (p : traced) : Prop :=
  match p with
  | Quiet => True
  | Emit _ l _ _ det rest => ¬ opens l det ∧ named rest
  | Scope _ _ _ body rest => named body ∧ named rest
  end.

(** Running it through the interface. *)
Fixpoint exec {T} `{!ITracer T} (thread : nat) (p : traced) (tr : T) : T :=
  match p with
  | Quiet => tr
  | Emit now l sub op det rest => exec thread rest (trace_l tr thread now l sub op det)
  | Scope now sub op body rest => exec thread rest (trace_scope tr thread now sub op (exec thread body))
  end.

(** ** Its calls, one by one *)
Inductive trace_op := OTrace (now : Z) (l : TraceLevel.t) (sub op det : string) | OPush (now : Z) (sub op : string) | OPop.
Fixpoint ops_of (p : traced) : list trace_op :=
  match p with
  | Quiet => []
  | Emit now l sub op det rest => OTrace now l sub op det :: ops_of rest
  | Scope now sub op body rest => OPush now sub op :: ops_of body ++ OPop :: ops_of rest
  end.
Definition trace_step {T} `{!ITracer T} (tr : T) (call : nat * trace_op) : T :=
  let '(thread, op) := call in
  match op with
  | OTrace now l sub op det => trace_l tr thread now l sub op det
  | OPush now sub op => tr_pushScope tr thread now sub op
  | OPop => tr_popScope tr thread
  end.
Lemma exec_ops {T} `{!ITracer T} thread p (tr : T) :
  exec thread p tr = foldl trace_step tr (map (pair thread) (ops_of p)).
Proof.
  revert tr. induction p as [|now l sub op det rest IH|now sub op body IHb rest IHr]; intros tr; simpl; [done|apply IH|].
  rewrite map_app, foldl_app. simpl. rewrite IHr. unfold trace_scope. by rewrite IHb.
Qed.

(** ** One thread on its own: the depth it is at, and what it emits *)
Definition emission (d : Z) (op : trace_op) : list TraceEvent :=
  match op with
  | OTrace now l sub op det => [makeTraceEvent now sub op det d l]
  | OPush now sub op => [makeTraceEvent now sub op "enter" d Info_]
  | OPop => []
  end.
Definition depth_after (d : Z) (op : trace_op) : Z :=
  match op with
  | OTrace _ _ _ _ _ => d
  | OPush _ _ _ => u32 (d + 1)
  | OPop => if d =? 0 then d else d - 1
  end.
Fixpoint alone (d : Z) (ops : list trace_op) : list TraceEvent :=
  match ops with [] => [] | op :: ops' => emission d op ++ alone (depth_after d op) ops' end.

(** Many threads: every event with the thread that emitted it. *)
Definition settle (ds : depths) (call : nat * trace_op) : depths :=
  match call.2 with
  | OTrace _ _ _ _ _ => ds
  | OPush _ _ _ => <[call.1 := u32 (depth_of ds call.1 + 1)]> ds
  | OPop => if depth_of ds call.1 =? 0 then ds else <[call.1 := depth_of ds call.1 - 1]> ds
  end.
Fixpoint tagged (ds : depths) (calls : list (nat * trace_op)) : list (nat * TraceEvent) :=
  match calls with
  | [] => []
  | call :: calls' => map (pair call.1) (emission (depth_of ds call.1) call.2) ++ tagged (settle ds call) calls'
  end.
Definition of_thread {A} (thread : nat) (l : list (nat * A)) : list A := (filter (λ x, x.1 = thread) l).*2.

Lemma of_thread_app {A} thread (l1 l2 : list (nat * A)) : of_thread thread (l1 ++ l2) = of_thread thread l1 ++ of_thread thread l2.
Proof. unfold of_thread. by rewrite filter_app, fmap_app. Qed.
Lemma of_thread_cons {A} thread t (a : A) (l : list (nat * A)) :
  of_thread thread ((t, a) :: l) = if decide (t = thread) then a :: of_thread thread l else of_thread thread l.
Proof. unfold of_thread. rewrite filter_cons. cbn [fst]. by case_decide. Qed.
Lemma of_thread_map {A} thread t (l : list A) : of_thread thread (map (pair t) l) = if decide (t = thread) then l else [].
Proof.
  induction l as [|x l IH]; [by case_decide|]. cbn [map]. rewrite of_thread_cons, IH. by case_decide.
Qed.

Lemma settle_depth ds call thread :
  depth_of (settle ds call) thread = if decide (call.1 = thread) then depth_after (depth_of ds thread) call.2 else depth_of ds thread.
Proof.
  assert (∀ z, depth_of (<[call.1 := z]> ds) thread = if decide (call.1 = thread) then z else depth_of ds thread) as Hi.
  { intros z. unfold depth_of, depths in *. rewrite lookup_insert. by case_decide. }
  destruct call as [t op]. unfold settle. cbn [fst snd] in *. destruct op; cbn [depth_after].
  - by case_decide.
  - rewrite Hi. case_decide as E; [by rewrite E|done].
  - destruct (Z.eqb_spec (depth_of ds t) 0) as [E|E]; rewrite ?Hi; case_decide as E'; try done; rewrite <-E';
      [by rewrite E|by rewrite (proj2 (Z.eqb_neq _ _) E)].
Qed.

(** What the others do is invisible to a thread. *)
Lemma tagged_alone ds calls thread : of_thread thread (tagged ds calls) = alone (depth_of ds thread) (of_thread thread calls).
Proof.
  revert ds. induction calls as [|[t op] calls IH]; intros ds; [done|]. simpl tagged. rewrite of_thread_app, IH, settle_depth.
  rewrite of_thread_cons, of_thread_map. cbn [fst snd]. by case_decide as E; [rewrite E|].
Qed.
Lemma depth_alone ds calls thread :
  depth_of (foldl settle ds calls) thread = foldl depth_after (depth_of ds thread) (of_thread thread calls).
Proof.
  revert ds. induction calls as [|[t op] calls IH]; intros ds; [done|]. simpl foldl at 1. rewrite IH, settle_depth, of_thread_cons.
  cbn [fst snd]. by case_decide.
Qed.

(** ** The tracer follows the threads *)
Section tracer.
Context {S : Type} `{!ITraceSink S}.
Import Tracer.
Implicit Types tr : Tracer.t S.

Lemma trace_debug tr e : minLevel tr = Debug_ → trace tr e = Mk (sink_write (sink tr) e) (minLevel tr) (counters tr).
Proof. intros Hm. unfold trace. rewrite Hm. by destruct (level e). Qed.

Lemma tracer_step tr call :
  minLevel tr = Debug_ →
  trace_step tr call = Mk (foldl sink_write (sink tr) (emission (depth_of (counters tr) call.1) call.2)) Debug_ (settle (counters tr) call).
Proof.
  intros Hm. destruct call as [t [now l sub op det|now sub op|]]; unfold trace_step, trace_l; cbn [tr_trace tr_pushScope tr_popScope tracer tr_currentDepth].
  - rewrite trace_debug by done. by rewrite Hm.
  - unfold pushScope. rewrite trace_debug by done. cbn [sink minLevel counters]. by rewrite Hm.
  - unfold popScope, settle, currentDepth. cbn [fst snd emission foldl].
    destruct (depth_of (counters tr) t =? 0); [|by rewrite Hm].
    destruct tr as [s m ds]. cbn [sink minLevel counters] in *. by subst m.
Qed.

(** Every event reaches the sink, in the order of the calls. *)
Lemma tracer_run tr calls :
  minLevel tr = Debug_ →
  foldl trace_step tr calls =
    Mk (foldl sink_write (sink tr) (tagged (counters tr) calls).*2) Debug_ (foldl settle (counters tr) calls).
Proof.
  revert tr. induction calls as [|call calls IH]; intros tr Hm; [by destruct tr; simpl in *; subst|].
  cbn [foldl tagged]. rewrite tracer_step by done. rewrite IH by done. cbn [sink counters].
  rewrite fmap_app, foldl_app. f_equal. f_equal. f_equal.
  by induction (emission _ _) as [|e es IHe]; [|simpl; f_equal].
Qed.
End tracer.

(** ** Reading the calls back *)

(** From the last event to the first; at each depth, what follows there. *)
Definition read_event (e : TraceEvent) (later : Z → traced) : Z → traced := λ k,
  if k =? depth e then
    if decide (opens (level e) (details e))
    then Scope (timestamp e) (subsystem e) (operation e) (later (k + 1)) (later k)
    else Emit (timestamp e) (level e) (subsystem e) (operation e) (details e) (later k)
  else if depth e <? k then Quiet else later k.
Definition decode_from (later : Z → traced) (es : list TraceEvent) : Z → traced := foldr read_event later es.
Definition decode (d : Z) (es : list TraceEvent) : traced := decode_from (λ _, Quiet) es d.

Fixpoint events (d : Z) (p : traced) : list TraceEvent :=
  match p with
  | Quiet => []
  | Emit now l sub op det rest => makeTraceEvent now sub op det d l :: events d rest
  | Scope now sub op body rest => makeTraceEvent now sub op "enter" d Info_ :: events (d + 1) body ++ events d rest
  end.

Lemma alone_app d ops1 ops2 : alone d (ops1 ++ ops2) = alone d ops1 ++ alone (foldl depth_after d ops1) ops2.
Proof. revert d. induction ops1 as [|op ops1 IH]; intros d; [done|]. simpl. by rewrite IH, app_assoc. Qed.
Lemma alone_events p d :
  0 ≤ d → d + nesting p < 2 ^ 32 → alone d (ops_of p) = events d p ∧ foldl depth_after d (ops_of p) = d.
Proof.
  revert d. induction p as [|now l sub op det rest IH|now sub op body IHb rest IHr]; intros d Hd Hn; [done| |].
  - destruct (IH d Hd Hn) as [He Hf]. cbn [ops_of alone emission depth_after foldl events app]. by rewrite He, Hf.
  - cbn [nesting] in Hn. pose proof (nesting_nonneg body). destruct (IHb (d + 1)) as [Heb Hfb]; [lia..|].
    destruct (IHr d) as [Her Hfr]; [lia..|]. cbn [ops_of alone emission depth_after foldl events].
    rewrite u32_small by lia. rewrite alone_app, foldl_app, Heb, Hfb. cbn [alone foldl emission depth_after app].
    rewrite (proj2 (Z.eqb_neq _ _)) by lia. replace (d + 1 - 1) with d by lia. by rewrite Her, Hfr.
Qed.

Lemma decode_events p d later :
  named p → (∀ k, d < k → later k = Quiet) →
  ∀ k, decode_from later (events d p) k = if k =? d then seq p (later d) else if d <? k then Quiet else later k.
Proof.
  revert d later. induction p as [|now l sub op det rest IH|now sub op body IHb rest IHr]; intros d later Hnm Hq k.
  - cbn. destruct (Z.eqb_spec k d) as [->|]; [done|]. destruct (Z.ltb_spec d k); [by apply Hq|done].
  - destruct Hnm as [Ho Hnm]. cbn [events decode_from foldr]. change (foldr read_event later) with (decode_from later).
    unfold read_event. cbn [depth makeTraceEvent level details timestamp subsystem operation].
    rewrite decide_False by done. rewrite !(IH d later Hnm Hq). destruct (Z.eqb_spec k d) as [->|]; [by rewrite ?Z.eqb_refl|].
    by destruct (Z.ltb_spec d k).
  - destruct Hnm as [Hb Hr]. cbn [events]. unfold decode_from. rewrite foldr_cons, foldr_app.
    change (foldr read_event later) with (decode_from later).
    change (foldr read_event ?f) with (decode_from f). unfold read_event.
    cbn [depth makeTraceEvent level details timestamp subsystem operation]. rewrite decide_True by done.
    assert (∀ k, d + 1 < k → decode_from later (events d rest) k = Quiet) as Hq1.
    { intros k' Hk'. rewrite (IHr d later Hr Hq). by rewrite (proj2 (Z.eqb_neq _ _)), (proj2 (Z.ltb_lt _ _)) by lia. }
    rewrite !(IHb (d + 1) _ Hb Hq1), !(IHr d later Hr Hq).
    destruct (Z.eqb_spec k d) as [->|].
    + rewrite !Z.eqb_refl. rewrite (proj2 (Z.eqb_neq d (d + 1))), (proj2 (Z.ltb_ge (d + 1) d)) by lia.
      rewrite (proj2 (Z.eqb_neq (d + 1) d)), (proj2 (Z.ltb_lt d (d + 1))) by lia. by rewrite seq_quiet.
    + destruct (Z.ltb_spec d k); [done|]. by rewrite (proj2 (Z.eqb_neq k (d + 1))), (proj2 (Z.ltb_ge (d + 1) k)) by lia.
Qed.

(** C20: the trace determines the calls, at level Debug and when no event is itself
    named as a scope's entry is.  However host threads interleave their calls of
    one tracer, a thread whose calls are those of nested scopes and
    events gets back to the depth it started at, the sink receives all threads'
    events in the order of the calls, and the events the thread emitted, by
    their depths alone, rebuild exactly its scopes and events. *)
Theorem trace_decodes {S} `{!ITraceSink S} (tr : Tracer.t S) calls thread p :
  Tracer.minLevel tr = Debug_ → of_thread thread calls = ops_of p → named p →
  0 ≤ Tracer.currentDepth tr thread → Tracer.currentDepth tr thread + nesting p < 2 ^ 32 →
  let tr' := foldl trace_step tr calls in
  Tracer.currentDepth tr' thread = Tracer.currentDepth tr thread ∧
  Tracer.sink tr' = foldl sink_write (Tracer.sink tr) (tagged (Tracer.counters tr) calls).*2 ∧
  decode (Tracer.currentDepth tr thread) (of_thread thread (tagged (Tracer.counters tr) calls)) = p.
Proof.
  intros Hm Ho Hn Hd Hb tr'. unfold tr'. rewrite tracer_run by done. unfold Tracer.currentDepth in *. cbn [Tracer.counters Tracer.sink].
  destruct (alone_events p _ Hd Hb) as [He Hf]. rewrite depth_alone, tagged_alone, Ho, He, Hf. split; [done|]. split; [done|].
  unfold decode. rewrite decode_events by done. by rewrite Z.eqb_refl, seq_quiet.
Qed.

(** Two threads in turn on one buffer. *)
Definition demo_traced : traced :=
  Scope 3 "Kernel" "tick" (Emit 3 Warn_ "Scheduler" "select" "pid=7" Quiet)
    (Emit 4 Debug_ "Kernel" "idle" "" Quiet).
Definition demo_calls : list (nat * trace_op) :=
  [(0%nat, OPush 3 "Kernel" "tick"); (1%nat, OPush 3 "Mmu" "read"); (0%nat, OTrace 3 Warn_ "Scheduler" "select" "pid=7");
   (1%nat, OTrace 3 Info_ "Mmu" "fault" "page=2"); (0%nat, OPop); (0%nat, OTrace 4 Debug_ "Kernel" "idle" ""); (1%nat, OPop)].
Definition buffer_tracer : Tracer.t BufferSink.t := Tracer.make BufferSink.make ∅.

Lemma trace_decodes_witness :
  decode 0 (of_thread 0 (tagged ∅ demo_calls)) = demo_traced ∧
  map depth (BufferSink.snapshot (Tracer.sink (foldl trace_step buffer_tracer demo_calls))) = [0; 0; 1; 1; 0].
Proof.
  destruct (trace_decodes buffer_tracer demo_calls 0 demo_traced) as (_ & Hs & Hd);
    [done|done|vm_compute; intuition discriminate|done|done|].
  split; [exact Hd|]. rewrite Hs. vm_compute. reflexivity.
Defined.

(** The depth is not the tracer's own: a scope on one tracer indents another's
    events on the same thread. *)
Lemma depth_shared (a b : Tracer.t BufferSink.t) now sub op :
  Tracer.counters a = Tracer.counters b → Tracer.currentDepth b 0 = 0 →
  let a' := Tracer.pushScope a 0 now sub op in
  Tracer.currentDepth (Tracer.Mk (Tracer.sink b) (Tracer.minLevel b) (Tracer.counters a')) 0 = 1.
Proof.
  intros Hc Hb. unfold Tracer.currentDepth, Tracer.pushScope, Tracer.trace, depth_of in *. rewrite <-Hc in Hb.
  case_match; cbn [Tracer.counters]; unfold Tracer.currentDepth, depth_of; cbn [Tracer.counters]; unfold depths in *;
    rewrite lookup_insert_eq; simpl; by rewrite Hb.
Qed.
